(* ===== verification/_CoqProject ===== *)
-Q . S2P
Prelude.v
Fifo.v
IntrusiveList.v
ManualExecutor.v
Lock.v
SpinLock.v
QueueSpinLock.v
Parking.v
AsyncMutex.v
WaitGroup.v
Event.v
Strand.v
IntrusivePool.v
PoolShutdown.v
DistributedPool.v
DistShutdown.v
WaitIdle.v
PoolFibers.v
ThreadPoolFibers.v
PoolObjects.v
PoolWorkload.v
PoolReports.v
PoolProgress.v
PoolAssertion.v
PoolProgram.v
Context.v
Coro.v
Sanitizer.v
Fiber.v
FiberRun.v
SyncFiber.v
Obligations.v
FiberProtocol.v
Workload.v
Function.v
FreeFunction.v
Hazard.v
HazardShutdown.v
Chain.v
Atomic.v
Late.v
LinCheck.v
CondVar.v
BlockingQueue.v
Task.v
MSQueue.v
LockFree.v
MSProgress.v
ClassicMSQueue.v
CoroMutex.v
MutexBench.v
Frames.v
Generators.v
Resumables.v
Automaton.v
Subscription.v
CoroBench.v
