(* ===== verification/Prelude.v ===== *)
(** * Verification of concurrency-runtime: root of the development

    concurrency-runtime is a C++ runtime for concurrent programs: executors that run
    tasks, stackful coroutines and the fibers built on them, synchronisation for fibers
    and for C++20 coroutines, locks, queues, and hazard pointers.  This development
    models its code under src/src and proves what makes it correct.  A component that
    deviates from what it means to do has a theorem that says so.

    ** The program

    A [TaskBase] (executor/task) is an intrusive node with a virtual [Run].  Executors
    take tasks: [IntrusiveManualExecutor] runs them step by step on the caller's thread,
    [IntrusiveThreadPool] and [DistributedPool] on threads of their own, and
    [IntrusiveStrand] one at a time on another executor.  [Submit] makes a task of a
    function ([BasicFunction], [TaskFreeFunction]); [Go] makes one of a fiber
    ([AwaiterFiber]), which runs a [StackfullCoroutine] up to its next suspension.  A
    coroutine is a [Context], that is a [BufferContext] switched by two assembly
    routines, with the hooks of a sanitizer around them.  A fiber suspends with an
    awaiter, which decides what becomes of it: [Yield] submits it again, and the fiber
    [AsyncMutex], [WaitGroup] and [Event] park it in an intrusive list, under a
    [QueueSpinLock] whose guard the awaiter releases once the fiber has left the
    thread.  Besides these, components/ has a test-and-test-and-set [SpinLock], a blocking
    queue, two Michael-Scott queues, hazard pointers and a mutex for C++20 coroutines.
    example/ and bench/ have programs over the library, and coroutine types of their own.

    ** The files

    What all share:
    - Prelude.v: total maps with point update, 64-bit arithmetic, transition systems
      ([lts]) with executions, invariants and simulations, lists of threads, a tactic and
      hints;
    - Fifo.v: the class [FifoQueue] with its laws [FifoLaws], what the queue of nodes
      promises to the executors and the fiber primitives; [IntrusiveList.v] is an
      instance, and the executors are proved against the class;
    - Lock.v: the abstract lock, the abstract first-come first-served lock, and the
      classes [LockImpl] and [LockLaws] by which SpinLock.v and QueueSpinLock.v implement
      them; code that uses a lock is modelled with the abstract one;
    - Atomic.v, Late.v, LinCheck.v: linearizability: the atomic object a concurrent one
      is compared with ([Object]), its extension by operations that take effect in
      hindsight, with the theorem that this adds no history, and the computation that
      refutes linearizability of a given history;
    - Chain.v: the linked nodes of the lock-free queues;
    - CondVar.v: what the program uses of [std::condition_variable].

    Locks and lists:
    - IntrusiveList.v: components/intrusive/list.h; the memory of nodes and the header;
    - SpinLock.v: components/sync/spinLock.h, spinlock.cpp;
    - QueueSpinLock.v: components/sync/queue_spinlock.h.

    Executors:
    - ManualExecutor.v: executor/manual; Fifo.v's interface for its queue;
    - Strand.v: executor/strand;
    - IntrusivePool.v: executor/executor.h ([Shutdowner]), executor/pool/intrusive_pool;
      PoolShutdown.v: its destructor;
    - DistributedPool.v: executor/pool/distributed_pool, executor/pool/internal/worker;
      DistShutdown.v: the owner of the pool, with [Start], [WaitShutdown] and the
      destructors around the steps of DistributedPool.v; WaitIdle.v: its clients that
      wait for it to be idle;
    - Function.v: components/function; FreeFunction.v: executor/submit.cpp,
      executor/task/internal; Task.v: executor/task/task.cpp.

    Contexts, coroutines, fibers:
    - Context.v: context/buffer, with prepare_context.s instruction by instruction;
    - Sanitizer.v: context/context.cpp and context/sanitizer; the hooks are the class
      [SanitizerContext] with three instances;
    - Coro.v: coro/; Fiber.v: fiber/awaiter_fiber, fiber/handle, fiber/awaiter/yield,
      go/, executor/task/task_base.h; the operations that may suspend a fiber are the
      class [Awaiters], with its laws [AwaiterLaws]; FiberRun.v: fibers on the manual
      executor.

    Synchronisation:
    - Parking.v: fiber/awaiter: the protocol of suspension under a guard, shared by
      AsyncMutex.v, WaitGroup.v and Event.v (fiber/sync), which are its instances;
    - SyncFiber.v: programs of fibers that use the three on the manual executor, as an
      instance of [Awaiters] from the bodies of their operations; Obligations.v: those
      that owe the objects an [Unlock] or a [Done], and meet what they owe;
      FiberProtocol.v: such programs as executions of Parking.v's protocol, an object of
      the program being a [view] ([ObjectView]);
    - PoolFibers.v: the protocol of Parking.v inside DistributedPool.v: [AwaiterFiber::Run]
      and [AwaitSuspend] on a worker, wake-ups as [Submit]; PoolObjects.v: two primitives
      over one pool; ThreadPoolFibers.v: the protocol inside IntrusivePool.v;
    - CoroMutex.v: components/async_mutex; an [Unlock] that resumes a coroutine lasts
      until that one suspends or ends;
    - Workload.v: example/workload, programs of SyncFiber.v, on the manual executor;
      PoolWorkload.v: the routines of example/workload/pool and bench/bench_pool.cpp on
      the distributed pool, which PoolReports.v (the counter, the wait group),
      PoolProgress.v and PoolAssertion.v verify, the counter being alive; PoolProgram.v:
      the benchmark and the example as whole programs, with the main thread that starts
      the pool, waits for it and destroys it, and whose local variable the counter is;
    - MutexBench.v: bench/bench_async_mutex.cpp, against the class [Mutex] with its laws
      [MutexLaws]; CoroBench.v: the coroutine mutex and [std::mutex] as its instances, the
      former for any promise type of the coroutines.

    C++20 coroutines:
    - Frames.v: coroutine frames, and the output of a program;
    - Generators.v, Resumables.v, Automaton.v, Subscription.v: example/coro, the last
      with the coroutine type of components/async_mutex/resumable_no_own.h.

    Queues and memory:
    - BlockingQueue.v: components/queue; MSQueue.v and ClassicMSQueue.v:
      components/lock_free; LockFree.v and MSProgress.v: the measure of a lock-free
      algorithm, and the progress of SimpleMSQueue;
    - Hazard.v, HazardShutdown.v: components/lock_free/hazard.

    ** How code becomes definitions

    Sequential code is functions to [option], where [None] is undefined behaviour, a
    failed [assert] or a call a runtime forbids, or to [res] where it also takes fuel
    (IntrusiveList, ManualExecutor, Coro, Fiber, Function, FreeFunction, Context).  The
    examples also print: they are functions in the monad [out], which keeps the lines
    printed before undefined behaviour.  A C++20 coroutine is the list or the state
    machine of what it does between its suspensions, in a heap of frames.
    Concurrent code is a transition system: a state with the shared fields and a program counter per thread, and an
    executable [step] from which the relation and its executions are defined; each
    access to shared memory is a step, and any thread may take the next one.  Two
    accesses are one step only where the other threads cannot tell: inside a critical
    section, as each file says.  Weak compare-exchanges may fail spuriously and waits on
    a condition variable may end spuriously.  Memory is sequentially consistent, as are
    nearly all the accesses of the code, which take the default order.  Machine integers
    are [Z] with their wrap-around written out; a theorem that needs them not to wrap
    says so ([is_size], [size_bound]).

    ** What is proved

    - Refinement.  The queue spinlock refines a first-come first-served lock; the
      blocking queue, the two lock-free queues (under the memory each of them needs) and
      the deprecated task are linearizable; the intrusive list refines a queue, the
      manual executor a list of tasks, and programs over [BasicFunction] refine
      variables that share callables.  Programs of fibers on the manual executor refine
      the step-by-step protocol of suspension, for each mutex, wait group and event; on
      the distributed pool, and on a thread pool of one worker, each primitive goes through
      the protocol with the affinity that it needs.  The automaton of coroutines computes what the table of its states
      says, and the subscription of the examples is an event.
    - Safety.  Mutual exclusion of the locks, the fiber mutex, the coroutine mutex and
      the strand, and of the protocols under them; guards and nodes are never touched
      once destroyed; a node under a hazard pointer is not deleted and no node is
      deleted twice; the destructors of the lock-free queues leave no node behind; the
      pools wait for what was submitted; tasks of the distributed pool stay on one
      worker; a generator's frame is live while it is owned; the sanitizers are told the
      truth.
    - Liveness and termination.  No waiter is lost, no lock deadlocks; [Drain], the
      shutdown of the hazard manager and the destructor of the thread pool terminate;
      SimpleMSQueue is lock-free, with a bound on the steps of any schedule;
      fibers that meet their obligations to mutexes and wait groups, and wait for them in
      an order, run to completion, and so do the workloads; their assertion holds, also on
      the distributed pool in every order of the workers' steps, where the programs do
      not deadlock from their beginning to the destruction of the pool, as long as their
      behaviour is defined; [WaitIdle] of that pool returns although it may miss a
      notification; the benchmark of the coroutine mutex does not deadlock, and counts
      every increment if the end of its routines is defined; coroutines complete
      after as many resumes as they have segments.  Nothing is assumed of the scheduler:
      progress is stated as "a state in which no thread can move is final", or by a
      measure that bounds every schedule.
    - What goes wrong, each shown by an execution of the model: on an executor that may
      resume a fiber before its [AwaitSuspend] has returned, as a thread pool of two workers
      does, the guard of the fiber primitives releases the spinlock twice; a strand may leave a task behind until the
      next [Submit]; [ClassicMSQueue] reads deleted nodes, and with a memory that recycles
      them loses a completed [Push]; [WaitIdle] of the thread pool may miss its
      notification, and that of the distributed pool the last one before a shutdown; a copied [Generator] and several coroutines of the examples use a
      frame that is gone or run past an end they do not have, and the benchmark of the
      coroutine mutex does so before anything is counted; the fibers of the benchmark of
      the pool increment a variable that no longer exists; the semaphores of the workers
      are released past a [max()] of 1; and others, next to the component they concern.

    ** Fuel and bounds

    [RunAtMost] recurses on its limit and [Drain] on fuel: FiberRun.v, SyncFiber.v and
    FreeFunction.v show that as much fuel as there are turns (of fibers) or calls (of
    functions) is enough.  Resuming a coroutine takes fuel for the nesting of resumes, and
    Coro.v shows enough of it gives the result.  The loops of the examples take as many
    turns as they have symbols or messages, and one or two more.  Counters of [size_t] wrap at [size_bound], 2 ^ 64; the
    number of threads is below it where it is counted (Hazard.v).
    An idle worker notifies the clients of [WaitIdle] within ten of its own steps
    (WaitIdle.v), the length of an iteration of its loop that finds no task.

    ** Not modelled

    - Weak memory: the few acquire and release orders of the code are read as
      sequentially consistent.
    - Exceptions out of user code, and the failure of allocation.  A routine that throws
      is a way for a coroutine to end in Coro.v and nowhere else.
    - What follows undefined behaviour: where a model can reach it, it stops there, and
      the theorems say when they need it not to have happened.
    - Real time: sleeps and time-outs end at any moment.
    - The runtimes of the sanitizers, which are parameters with documented laws and
      concrete instances as witnesses.
    - config.h, a debug flag; executor/task/fiber_task.h, a wrapper of [std::function] of
      which no object is made.
    - The driver of the benchmarks and their registration, which are Google Benchmark's;
      example_mutex.cpp, which is empty, and example_go.cpp, which allocates and prints
      addresses. *)

From stdpp Require Import prelude list gmap.

(** ** Notations and identifiers *)

Declare Scope runtime_scope.
Delimit Scope runtime_scope with runtime.
Open Scope runtime_scope.

(** A C++ pointer: [None] is [nullptr]. *)
Abbreviation ptr A := (option A).

(** Threads, fibers and waiters are numbered. *)
Abbreviation tid := nat.

(** ** Total maps with point update

    Per-thread (per-fiber, per-node) state is a total function. *)
Definition upd {A} (f : nat → A) (i : nat) (v : A) : nat → A :=
  λ j, if decide (i = j) then v else f j.

Notation "f ⟦ i ↦ v ⟧" := (upd f i v)
  (at level 1, left associativity, format "f ⟦  i  ↦  v  ⟧") : runtime_scope.

(** ** [size_t]: 64-bit unsigned arithmetic with its wrap-around *)

Definition size_bound : Z := 2 ^ 64.

Definition wrap64 (z : Z) : Z := z mod size_bound.

Definition sz_add (a b : Z) : Z := wrap64 (a + b).

Definition sz_sub (a b : Z) : Z := wrap64 (a - b).

(** A value a [size_t] can hold. *)
Definition is_size (z : Z) : Prop := (0 ≤ z < size_bound)%Z.

(** ** Results of sequential code

    [Ub]: the C++ would fail an [assert] or have undefined behaviour;
    [NoFuel]: the modelled loop ran out of fuel. *)
Inductive res (A : Type) := Ret (a : A) | Ub | NoFuel.
Arguments Ret {A} _.
Arguments Ub {A}.
Arguments NoFuel {A}.

#[export] Instance res_ret : MRet res := λ A a, Ret a.

#[export] Instance res_bind : MBind res := λ A B f m,
  match m with Ret a => f a | Ub => Ub | NoFuel => NoFuel end.

Definition checked {A} (o : option A) : res A :=
  match o with Some a => Ret a | None => Ub end.

(** ** Labelled transition systems

    Every concurrent component is a system whose labels carry the thread
    that moves and the choices the environment makes (the operation it calls,
    a spurious failure, which waiter a notification wakes); a step is a
    partial function, so a schedule can be executed. *)
Record lts (S L : Type) := Lts {
  lts_init : S → Prop;
  lts_step : L → S → option S
}.
Arguments Lts {S L} _ _.
Arguments lts_init {S L} _ _.
Arguments lts_step {S L} _ _ _.

(** Executing a schedule. *)
Fixpoint run {S L} (M : lts S L) (tr : list L) (s : S) : option S :=
  match tr with
  | [] => Some s
  | l :: tr' => lts_step M l s ≫= run M tr'
  end.

Definition reachable {S L} (M : lts S L) (s : S) : Prop :=
  ∃ s0 tr, lts_init M s0 ∧ run M tr s0 = Some s.

Definition invariant {S L} (M : lts S L) (I : S → Prop) : Prop :=
  ∀ s, reachable M s → I s.

(** A forward simulation: each step of [M] is matched by a run of [A]. *)
Record simulation {S L S' L'} (M : lts S L) (A : lts S' L') (R : S → S' → Prop) : Prop := {
  sim_init : ∀ s, lts_init M s → ∃ a, lts_init A a ∧ R s a;
  sim_step : ∀ l s s' a, R s a → lts_step M l s = Some s' →
    ∃ tr a', run A tr a = Some a' ∧ R s' a'
}.

(** ** Facts about total maps *)

Lemma upd_eq {A} (f : nat → A) i v : f⟦i ↦ v⟧ i = v.
Proof. unfold upd. by rewrite decide_True. Qed.

Lemma upd_ne {A} (f : nat → A) i j v : i ≠ j → f⟦i ↦ v⟧ j = f j.
Proof. intros. unfold upd. by rewrite decide_False. Qed.

(** ** Facts about lists *)

Lemma list_elem_not_nil {A} (x : A) (l : list A) : x ∈ l → l ≠ [].
Proof. intros Hx ->. by apply elem_of_nil in Hx. Qed.

Lemma forall2_impl_in {A B} (P Q : A → B → Prop) l k :
  Forall2 P l k → (∀ x y, x ∈ l → P x y → Q x y) → Forall2 Q l k.
Proof.
  induction 1 as [|x y l k Hp _ IH]; intros H; constructor; [apply H; [by left|done]|].
  apply IH. intros a b Ha. apply H. by right.
Qed.

(** Looking up a list after the update of a position in range. *)
Lemma lookup_updated {A} (l : list A) (i j : nat) x y : l !! i = Some x →
  <[i := y]> l !! j = (if decide (j = i) then Some y else l !! j).
Proof.
  intros E. case_decide as Hj; [|by rewrite list_lookup_insert_ne by congruence].
  subst. by apply list_lookup_insert_eq, lookup_lt_is_Some_1.
Qed.

Lemma sum_list_with_zero {A} (f : A → nat) (l : list A) :
  (∀ x, x ∈ l → f x = 0) → sum_list_with f l = 0.
Proof.
  induction l as [|x l IH]; intros Hl; simpl; [done|].
  rewrite Hl, IH; [done|intros; apply Hl|]; set_solver.
Qed.

Lemma sum_list_with_ext {A} (h1 h2 : A → nat) l :
  (∀ a, a ∈ l → h1 a = h2 a) → sum_list_with h1 l = sum_list_with h2 l.
Proof. induction l; intros Hl; simpl; [done|]. f_equal; [apply Hl|apply IHl; intros; apply Hl]; set_solver. Qed.

Lemma sum_list_with_const {A} (c : nat) (l : list A) : sum_list_with (λ _, c) l = length l * c.
Proof. induction l; simpl; lia. Qed.

Lemma sum_le_length {A} (h : A → nat) l : (∀ x, h x ≤ 1) → sum_list_with h l ≤ length l.
Proof. intros H. induction l as [|x l IH]; simpl; [lia|]. specialize (H x). lia. Qed.

Lemma sum_full {A} (h : A → nat) l x :
  (∀ y, h y ≤ 1) → sum_list_with h l = length l → x ∈ l → h x = 1.
Proof.
  intros H. induction l as [|y l IH]; simpl; intros E Hin; [by apply elem_of_nil in Hin|].
  pose proof (sum_le_length h l H). pose proof (H y). apply elem_of_cons in Hin as [->|Hin]; [lia|apply IH; [lia|done]].
Qed.

(** Two functions that differ at one element. *)
Lemma sum_one (f g : tid → nat) t (l : list tid) :
  NoDup l → t ∈ l → (∀ u, u ≠ t → f u = g u) →
  sum_list_with f l + g t = sum_list_with g l + f t.
Proof.
  intros Hnd Hin H. induction Hnd as [|u l Hu Hnd IH]; [by apply elem_of_nil in Hin|]. simpl.
  apply elem_of_cons in Hin as [<-|Hin].
  - rewrite (sum_list_with_ext f g l); [lia|]. intros v Hv. apply H. by intros ->.
  - rewrite (H u) by (by intros ->). specialize (IH Hin). lia.
Qed.

(** Replacing one element changes a sum, or a concatenation, by that element. *)
Lemma sum_list_with_insert {A} (f : A → nat) (l : list A) i x y :
  l !! i = Some y → sum_list_with f (<[i := x]> l) + f y = sum_list_with f l + f x.
Proof.
  revert i. induction l as [|a l IH]; intros [|i] E; simplify_eq/=; [lia|].
  specialize (IH i E). lia.
Qed.

Lemma bind_insert_perm {A B} (f : A → list B) (l : list A) i x y :
  l !! i = Some y → (<[i := x]> l ≫= f) ++ f y ≡ₚ (l ≫= f) ++ f x.
Proof.
  revert i. induction l as [|a l IH]; intros [|i] E; simplify_eq/=; [solve_Permutation|].
  by rewrite <-!(assoc (++)), IH.
Qed.

(** ** Facts about [size_t] *)

Lemma size_bound_pos : (0 < size_bound)%Z.
Proof. reflexivity. Qed.

Lemma wrap64_small z : is_size z → wrap64 z = z.
Proof. intros. unfold wrap64. by apply Z.mod_small. Qed.

Lemma wrap64_size z : is_size (wrap64 z).
Proof. apply Z.mod_pos_bound, size_bound_pos. Qed.

Lemma wrap64_wrap z : wrap64 (wrap64 z) = wrap64 z.
Proof. apply wrap64_small, wrap64_size. Qed.

Lemma wrap64_add_l a b : wrap64 (wrap64 a + b) = wrap64 (a + b).
Proof. unfold wrap64. by rewrite Zplus_mod_idemp_l. Qed.

Lemma sz_add_wrap a b : sz_add (wrap64 a) b = wrap64 (a + b).
Proof. apply wrap64_add_l. Qed.

Lemma sz_sub_wrap a b : sz_sub (wrap64 a) b = wrap64 (a - b).
Proof. unfold sz_sub, wrap64. by rewrite Zminus_mod_idemp_l. Qed.

Lemma sz_add_small a b : is_size (a + b) → sz_add a b = (a + b)%Z.
Proof. apply wrap64_small. Qed.

Lemma sz_sub_small a b : is_size (a - b) → sz_sub a b = (a - b)%Z.
Proof. apply wrap64_small. Qed.

Lemma sz_sub_under a b : (-size_bound ≤ a - b < 0)%Z → sz_sub a b = (a - b + size_bound)%Z.
Proof.
  intros. unfold sz_sub, wrap64.
  rewrite <- (Z.mod_small (a - b + size_bound) size_bound) by lia.
  rewrite <- (Z.mul_1_l size_bound) at 2. by rewrite Z.mod_add.
Qed.

Lemma sz_add_sub a b : is_size a → sz_sub (sz_add a b) b = a.
Proof.
  intros. unfold sz_sub, sz_add, wrap64.
  rewrite Zminus_mod_idemp_l. replace (a + b - b)%Z with a by lia.
  by apply wrap64_small.
Qed.

(** ** Facts about runs *)

Section lts_facts.
  Context {S L : Type} (M : lts S L).

Lemma run_app tr1 tr2 s : run M (tr1 ++ tr2) s = run M tr1 s ≫= run M tr2.
Proof.
  revert s. induction tr1 as [|l tr1 IH]; intros s; simpl; [done|].
  destruct (lts_step M l s); simpl; auto.
Qed.

Lemma run_one l s : run M [l] s = lts_step M l s.
Proof. simpl. by destruct (lts_step M l s). Qed.

Lemma run_step l tr s s1 : lts_step M l s = Some s1 → run M (l :: tr) s = run M tr s1.
Proof. simpl. by intros ->. Qed.

Lemma reachable_init s : lts_init M s → reachable M s.
Proof. intros. by exists s, []. Qed.

Lemma reachable_run tr s s' : reachable M s → run M tr s = Some s' → reachable M s'.
Proof.
  intros (s0 & tr0 & Hi & Hr) Hrun. exists s0, (tr0 ++ tr). split; [done|].
  by rewrite run_app, Hr.
Qed.

Lemma reachable_step l s s' : reachable M s → lts_step M l s = Some s' → reachable M s'.
Proof. intros. apply (reachable_run [l] s); [done|]. by rewrite run_one. Qed.

Lemma run_reachable tr s d :
  lts_init M s → is_Some (run M tr s) → reachable M (default d (run M tr s)).
Proof. intros Hi [s' Hs]. rewrite Hs. by exists s, tr. Qed.

Lemma run_preserves (I : S → Prop) :
  (∀ l s s', I s → lts_step M l s = Some s' → I s') →
  ∀ tr s s', I s → run M tr s = Some s' → I s'.
Proof.
  intros Hstep tr. induction tr as [|l tr IH]; intros s s' HI Hr; simpl in Hr.
  - by simplify_eq.
  - destruct (lts_step M l s) eqn:E; simpl in Hr; [|done]. eauto.
Qed.

(** Steps of a kind that decrease a measure, but for what some of them cost: a bound for
    every schedule of them. *)
Lemma run_costs (ok : L → Prop) (I : S → Prop) (μ : S → nat) (cost : L → nat) :
  (∀ l s s', ok l → I s → lts_step M l s = Some s' → I s' ∧ μ s' < μ s + cost l) →
  ∀ tr s s', Forall ok tr → I s → run M tr s = Some s' →
  I s' ∧ length tr + μ s' <= μ s + sum_list_with cost tr.
Proof.
  intros Hstep tr. induction tr as [|l tr IH]; intros s s' Hok HI Hr; simpl in Hr.
  - simplify_eq. split; [done|]. simpl. lia.
  - apply Forall_cons in Hok as [Hl Hok].
    destruct (lts_step M l s) as [s1|] eqn:E; simpl in Hr; [|done].
    destruct (Hstep l s s1 Hl HI E) as [HI1 Hlt].
    destruct (IH s1 s' Hok HI1 Hr) as [HI' Hlen]. simpl. split; [done|lia].
Qed.

Lemma run_measure (ok : L → Prop) (I : S → Prop) (μ : S → nat) :
  (∀ l s s', ok l → I s → lts_step M l s = Some s' → I s' ∧ μ s' < μ s) →
  ∀ tr s s', Forall ok tr → I s → run M tr s = Some s' → I s' ∧ length tr + μ s' <= μ s.
Proof.
  intros Hstep tr s s' Hok HI Hr.
  destruct (run_costs ok I μ (λ _, 0)) with (tr := tr) (s := s) (s' := s') as [HI' Hl]; try done.
  - intros l s0 s1 Hl H0 E. destruct (Hstep l s0 s1 Hl H0 E). split; [done|lia].
  - rewrite sum_list_with_zero in Hl by done. split; [done|lia].
Qed.

(** Rule induction: an initial, step-preserved predicate holds everywhere. *)
Lemma invariant_intro (I : S → Prop) :
  (∀ s, lts_init M s → I s) →
  (∀ l s s', I s → lts_step M l s = Some s' → I s') →
  invariant M I.
Proof.
  intros Hi Hs s (s0 & tr & H0 & Hr). eapply run_preserves; eauto.
Qed.

(** The same, on top of an invariant already established. *)
Lemma invariant_on_top (J I : S → Prop) :
  invariant M J →
  (∀ s, lts_init M s → I s) →
  (∀ l s s', J s → I s → lts_step M l s = Some s' → I s') →
  invariant M I.
Proof.
  intros HJ Hi Hs s Hr.
  assert (reachable M s ∧ I s) as [_ ?]; [|done].
  destruct Hr as (s0 & tr & H0 & Hr).
  assert (∀ tr s s', reachable M s ∧ I s → run M tr s = Some s' → reachable M s' ∧ I s') as Hrun.
  { clear -HJ Hs. induction tr as [|l tr IH]; intros s s' [Hre HI] Hr; simpl in Hr.
    - by simplify_eq.
    - destruct (lts_step M l s) as [s1|] eqn:E; simpl in Hr; [|done].
      apply (IH s1); [|done]. split; [by eapply reachable_step|]. by eapply Hs; [apply HJ|..]. }
  eapply Hrun; [|done]. split; [by apply reachable_init|auto].
Qed.

Lemma invariant_weaken (I J : S → Prop) :
  (∀ s, I s → J s) → invariant M I → invariant M J.
Proof. intros H HI s Hs. auto. Qed.
End lts_facts.

Section simulation_facts.
  Context {S L S' L' : Type} (M : lts S L) (A : lts S' L') (R : S → S' → Prop).
  Context (Hsim : simulation M A R).

Lemma sim_run tr s s' a :
  R s a → run M tr s = Some s' → ∃ tr' a', run A tr' a = Some a' ∧ R s' a'.
Proof.
  revert s a. induction tr as [|l tr IH]; intros s a HR Hr; simpl in Hr.
  - simplify_eq. by exists [], a.
  - destruct (lts_step M l s) as [s1|] eqn:E; simpl in Hr; [|done].
    destruct (sim_step _ _ _ Hsim l s s1 a HR E) as (tr1 & a1 & Hr1 & HR1).
    destruct (IH s1 a1 HR1 Hr) as (tr2 & a2 & Hr2 & HR2).
    exists (tr1 ++ tr2), a2. by rewrite run_app, Hr1.
Qed.

(** Every reachable state of the implementation is related to a reachable
    state of the specification. *)
Lemma sim_reachable s : reachable M s → ∃ a, reachable A a ∧ R s a.
Proof.
  intros (s0 & tr & Hi & Hr).
  destruct (sim_init _ _ _ Hsim s0 Hi) as (a0 & Ha0 & HR0).
  destruct (sim_run tr s0 s a0 HR0 Hr) as (tr' & a & Hra & HR).
  exists a. split; [|done]. by exists a0, tr'.
Qed.
End simulation_facts.

(** Simulations compose. *)
Lemma simulation_trans {S1 L1 S2 L2 S3 L3} (M : lts S1 L1) (A : lts S2 L2) (B : lts S3 L3)
    (R : S1 → S2 → Prop) (Q : S2 → S3 → Prop) :
  simulation M A R → simulation A B Q → simulation M B (λ s b, ∃ a, R s a ∧ Q a b).
Proof.
  intros HR HQ. split.
  - intros s Hs. destruct (sim_init _ _ _ HR s Hs) as (a & Ha & Hsa).
    destruct (sim_init _ _ _ HQ a Ha) as (b & Hb & Hab). eauto.
  - intros l s s' b (a & Hsa & Hab) Hstep.
    destruct (sim_step _ _ _ HR l s s' a Hsa Hstep) as (tr & a' & Hr & Hsa').
    destruct (sim_run _ _ _ HQ tr a a' b Hab Hr) as (tr' & b' & Hr' & Hab'). eauto 6.
Qed.

(** ** Automation *)

Create HintDb runtime.
#[export] Hint Resolve wrap64_size reachable_init : runtime.
#[export] Hint Resolve reachable_step reachable_run : runtime.

(** Case analysis on every point update in sight. *)
Ltac upd_cases :=
  unfold upd in *;
  repeat match goal with
  | |- context [decide (?i = ?j)] => destruct (decide (i = j)); [subst|]; try congruence
  | H : context [decide (?i = ?j)] |- _ =>
      destruct (decide (i = j)); [subst|]; try congruence
  end.

(** Split a hypothesis [step l s = Some s'] along the code's branches. *)
Ltac step_cases H :=
  repeat match type of H with
  | None = Some _ => discriminate H
  | Some _ = Some _ => injection H as H
  | context [match ?x with _ => _ end] => destruct x eqn:?; simpl in H
  end; try discriminate H.
