(* ===== verification/Fifo.v ===== *)
(** * The queue interface

    What a FIFO of node pointers promises to the executors, the strand and the
    fiber primitives.  The operations are partial: [None] is a failed [assert]
    or a dereference of a pointer that is not a live node.  The laws describe
    the queue by the list of the pointers it holds, oldest first; clients are
    proved against the laws and [IntrusiveList.v] discharges them. *)

From stdpp Require Import prelude list.
From S2P Require Import Prelude.

Class FifoQueue (Q A : Type) := {
  fq_empty : Q → bool;
  fq_push : Q → A → option Q;
  fq_pop : Q → option (ptr A * Q)
}.

(** [fq_repr q ns]: the queue holds exactly [ns].  [fq_live q a]: [a] is a node
    the queue may link. *)
Class FifoLaws (Q A : Type) `{FifoQueue Q A} := {
  fq_repr : Q → list A → Prop;
  fq_live : Q → A → Prop;
  fq_empty_spec : ∀ q ns, fq_repr q ns → fq_empty q = bool_decide (ns = []);
  fq_push_spec : ∀ q ns a,
    fq_repr q ns → fq_live q a → a ∉ ns → (Z.of_nat (length ns) + 1 < size_bound)%Z →
    ∃ q', fq_push q a = Some q' ∧ fq_repr q' (ns ++ [a]) ∧
      (∀ b, fq_live q b → fq_live q' b);
  fq_pop_nil : ∀ q, fq_repr q [] → fq_pop q = Some (None, q);
  fq_pop_cons : ∀ q n ns, fq_repr q (n :: ns) →
    ∃ q', fq_pop q = Some (Some n, q') ∧ fq_repr q' ns ∧
      (∀ b, fq_live q b → fq_live q' b);
  fq_nodup : ∀ q ns, fq_repr q ns → NoDup ns
}.

Section derived.
  Context {Q A : Type} `{FifoLaws Q A}.

(** Pushing a whole list, in order. *)
Fixpoint push_all (q : Q) (ns : list A) : option Q :=
  match ns with
  | [] => Some q
  | n :: ns' => q' ← fq_push q n; push_all q' ns'
  end.

(** Popping until the queue reports [nullptr], at most [fuel] times. *)
Fixpoint pop_all (fuel : nat) (q : Q) : option (list A * Q) :=
  match fuel with
  | O => Some ([], q)
  | S fuel' =>
      '(r, q') ← fq_pop q;
      match r with
      | None => Some ([], q')
      | Some n => '(ns, q'') ← pop_all fuel' q'; Some (n :: ns, q'')
      end
  end.

Lemma push_all_spec q ns ms :
  fq_repr q ns → (∀ a, a ∈ ms → fq_live q a) → NoDup (ns ++ ms) →
  (Z.of_nat (length ns + length ms) < size_bound)%Z →
  ∃ q', push_all q ms = Some q' ∧ fq_repr q' (ns ++ ms) ∧ (∀ b, fq_live q b → fq_live q' b).
Proof.
  revert q ns. induction ms as [|m ms IH]; intros q ns Hr Hl Hnd Hb; simpl.
  - exists q. by rewrite app_nil_r.
  - simpl in Hb. destruct (fq_push_spec q ns m) as (q1 & E1 & Hr1 & Hl1);
      [done|set_solver|apply NoDup_app in Hnd; set_solver|lia|].
    rewrite E1. simpl.
    destruct (IH q1 (ns ++ [m])) as (q2 & E2 & Hr2 & Hl2).
    + done.
    + set_solver.
    + by rewrite <-(assoc (++)).
    + rewrite length_app; simpl; lia.
    + exists q2. rewrite <-(assoc (++)) in Hr2. eauto.
Qed.

Lemma pop_all_spec q ns fuel :
  fq_repr q ns → length ns ≤ fuel → ∃ q', pop_all fuel q = Some (ns, q') ∧ fq_repr q' [].
Proof.
  revert q ns. induction fuel as [|fuel IH]; intros q [|n ns] Hr Hf; simpl in *; try lia.
  - eauto.
  - rewrite (fq_pop_nil q Hr). simpl. eauto.
  - destruct (fq_pop_cons q n ns Hr) as (q1 & E & Hr1 & _). rewrite E. simpl.
    destruct (IH q1 ns Hr1) as (q2 & E2 & Hr2); [lia|]. rewrite E2. simpl. eauto.
Qed.
End derived.
