(* ===== verification/IntrusiveList.v ===== *)
(** * components/intrusive/list.h: the intrusive singly linked list

    A node is a location; the memory [nodes] maps every live node to its
    [next_] field.  The list header is the record [IntrusiveList].  The
    operations return [None] where the C++ would fail an [assert] or
    dereference a null or dead node. *)

From stdpp Require Import prelude list gmap.
From S2P Require Import Prelude.
From S2P Require Import Fifo.

Abbreviation loc := nat.

(** The [next_] field of every live [Node<T>]. *)
Abbreviation nodes := (gmap loc (ptr loc)).

Record IntrusiveList := MkList {
  size_ : Z;
  head_ : ptr loc;
  tail_ : ptr loc
}.

(** The default member initialisers of a node and of a header. *)
Definition new_node (m : nodes) (n : loc) : nodes := <[n := None]> m.

Definition new_list : IntrusiveList := MkList 0 None None.

Definition Next (m : nodes) (n : loc) : option (ptr loc) := m !! n.

Definition LinkAfter (m : nodes) (self prev : loc) : option nodes :=
  _ ← m !! prev; Some (<[prev := Some self]> m).

Definition IsEmpty (l : IntrusiveList) : bool := bool_decide (0 = size_ l)%Z.

Definition Size (l : IntrusiveList) : Z := size_ l.

(** The destructor asserts that the list is empty. *)
Definition destroy (l : IntrusiveList) : option unit :=
  if IsEmpty l then Some tt else None.

(** The copy constructor copies the three fields and shares the nodes. *)
Definition copy (o : IntrusiveList) : IntrusiveList := MkList (size_ o) (head_ o) (tail_ o).

Definition Clear (l : IntrusiveList) : IntrusiveList := MkList 0 None None.

Definition Push (m : nodes) (l : IntrusiveList) (node : ptr loc) :
    option (nodes * IntrusiveList) :=
  n ← node;
  '(m', h) ← match head_ l with
             | Some h => t ← tail_ l; m' ← LinkAfter m n t; Some (m', h)
             | None => Some (m, n)
             end;
  Some (m', MkList (sz_add (size_ l) 1) (Some h) (Some n)).

Definition Pop (m : nodes) (l : IntrusiveList) : option (ptr loc * IntrusiveList) :=
  if IsEmpty l then Some (None, l)
  else
    p ← head_ l;
    '(h, t) ← (if bool_decide (1 = size_ l)%Z then Some (None, None)
               else (nx ← Next m p; Some (nx, tail_ l)));
    Some (Some p, MkList (sz_sub (size_ l) 1) h t).

(** [std::swap] on lists: the class declares a copy constructor, so the swap
    copies through a temporary, whose destructor runs at the end. *)
Definition swap (a b : IntrusiveList) : option (IntrusiveList * IntrusiveList) :=
  let tmp := copy a in
  let a' := copy b in
  let b' := copy tmp in
  _ ← destroy tmp; Some (a', b').

#[global] Arguments Push : simpl never.
#[global] Arguments Pop : simpl never.

(** ** Well-formedness *)

(** Consecutive elements of [ns] are linked through live nodes. *)
Fixpoint chain (m : nodes) (ns : list loc) : Prop :=
  match ns with
  | [] => True
  | n :: rest =>
      match rest with
      | [] => is_Some (m !! n)
      | n' :: _ => m !! n = Some (Some n') ∧ chain m rest
      end
  end.

(** The header [l] over the memory [m] is the list [ns]. *)
Record repr (m : nodes) (l : IntrusiveList) (ns : list loc) : Prop := Repr {
  repr_size : size_ l = Z.of_nat (length ns);
  repr_bound : (Z.of_nat (length ns) < size_bound)%Z;
  repr_head : head_ l = head ns;
  repr_tail : tail_ l = last ns;
  repr_chain : chain m ns;
  repr_nodup : NoDup ns
}.

(** ** Scripts of operations, on the list and on its specification *)

Inductive list_op := OpPush (n : loc) | OpPop | OpClear | OpSize.

(** What a call returns: a node or [nullptr], or a number. *)
Inductive list_out := OutUnit | OutNode (p : ptr loc) | OutSize (z : Z).

Definition list_exec (o : list_op) (q : nodes * IntrusiveList) :
    option (list_out * (nodes * IntrusiveList)) :=
  match o with
  | OpPush n => q' ← Push (fst q) (snd q) (Some n); Some (OutUnit, q')
  | OpPop => '(p, l) ← Pop (fst q) (snd q); Some (OutNode p, (fst q, l))
  | OpClear => Some (OutUnit, (fst q, Clear (snd q)))
  | OpSize => Some (OutSize (Size (snd q)), q)
  end.

Fixpoint list_script (os : list list_op) (q : nodes * IntrusiveList) :
    option (list list_out * (nodes * IntrusiveList)) :=
  match os with
  | [] => Some ([], q)
  | o :: os' =>
      '(r, q1) ← list_exec o q;
      '(rs, q2) ← list_script os' q1;
      Some (r :: rs, q2)
  end.

(** The specification: a plain queue. *)
Definition spec_exec (o : list_op) (ns : list loc) : list_out * list loc :=
  match o with
  | OpPush n => (OutUnit, ns ++ [n])
  | OpPop => (OutNode (head ns), tail ns)
  | OpClear => (OutUnit, [])
  | OpSize => (OutSize (Z.of_nat (length ns)), ns)
  end.

Fixpoint spec_script (os : list list_op) (ns : list loc) : list list_out * list loc :=
  match os with
  | [] => ([], ns)
  | o :: os' =>
      let '(r, ns1) := spec_exec o ns in
      let '(rs, ns2) := spec_script os' ns1 in
      (r :: rs, ns2)
  end.

(** The callers' discipline: a pushed node is live and not in this list. *)
Fixpoint disciplined (live : gset loc) (os : list list_op) (ns : list loc) : Prop :=
  match os with
  | [] => True
  | o :: os' =>
      match o with
      | OpPush n => n ∈ live ∧ n ∉ ns ∧ (Z.of_nat (length ns) + 1 < size_bound)%Z
      | _ => True
      end ∧ disciplined live os' (snd (spec_exec o ns))
  end.

(** ** Chains *)

Lemma chain_live m ns n : chain m ns → n ∈ ns → is_Some (m !! n).
Proof.
  induction ns as [|a [|b ns] IH]; simpl; [set_solver|set_solver|].
  intros [E Hc] [->|Hin]%elem_of_cons; eauto.
Qed.

Lemma chain_tail m n ns : chain m (n :: ns) → chain m ns.
Proof. destruct ns; simpl; [done|]. tauto. Qed.

(** A write outside the chain does not disturb it. *)
Lemma chain_frame m ns n v : n ∉ ns → chain m ns → chain (<[n := v]> m) ns.
Proof.
  induction ns as [|a [|b ns] IH]; [done| |]; intros Hn.
  - simpl. rewrite lookup_insert_ne; [done|set_solver].
  - intros [E Hc]. split; [rewrite lookup_insert_ne; [done|set_solver]|].
    apply IH; [set_solver|done].
Qed.

(** Linking a live node behind the last one extends the chain. *)
Lemma chain_snoc m ns t n :
  chain m (ns ++ [t]) → NoDup (ns ++ [t; n]) → is_Some (m !! n) →
  chain (<[t := Some n]> m) (ns ++ [t; n]).
Proof.
  induction ns as [|a ns IH]; intros Hc Hnd Hn.
  - simpl in *. rewrite lookup_insert_eq. split; [done|].
    rewrite lookup_insert_ne; [done|]. apply NoDup_cons in Hnd. set_solver.
  - change ((a :: ns) ++ [t; n]) with (a :: (ns ++ [t; n])) in *.
    apply NoDup_cons in Hnd as [Ha Hnd].
    assert (Hat : t ≠ a) by set_solver.
    specialize (IH (chain_tail _ _ _ Hc) Hnd Hn).
    destruct ns as [|b ns]; simpl in *.
    + destruct Hc as [E _]. rewrite lookup_insert_ne by done. tauto.
    + destruct Hc as [E _]. rewrite lookup_insert_ne by done. tauto.
Qed.

(** ** The operations on well-formed lists *)

Lemma repr_new m : repr m new_list [].
Proof. split; simpl; try done. constructor. Qed.

Lemma IsEmpty_repr m l ns : repr m l ns → IsEmpty l = bool_decide (ns = []).
Proof.
  intros [Hs _ _ _ _ _]. unfold IsEmpty. rewrite Hs.
  apply bool_decide_ext. destruct ns; simpl; [tauto|]. split; [lia|done].
Qed.

Lemma Push_repr m l ns n :
  repr m l ns → is_Some (m !! n) → n ∉ ns → (Z.of_nat (length ns) + 1 < size_bound)%Z →
  ∃ m' l', Push m l (Some n) = Some (m', l') ∧ repr m' l' (ns ++ [n]) ∧
    (∀ k, last ns ≠ Some k → m' !! k = m !! k) ∧ dom m' = dom m.
Proof.
  intros [Hs Hb Hh Ht Hc Hnd] Hn Hin Hlt. unfold Push. simpl. rewrite Hh, Ht.
  assert (Hsz : sz_add (size_ l) 1 = Z.of_nat (length (ns ++ [n]))).
  { rewrite sz_add_small; rewrite Hs, ?length_app; simpl; [lia|]. unfold is_size. lia. }
  assert (Hnd' : NoDup (ns ++ [n])).
  { apply NoDup_app. split; [done|]. split; [set_solver|apply NoDup_singleton]. }
  assert (Hlen : (Z.of_nat (length (ns ++ [n])) < size_bound)%Z).
  { rewrite length_app. simpl. lia. }
  destruct ns as [|t ns' _] using rev_ind.
  2: { rewrite last_snoc. assert (Ht' : is_Some (m !! t)).
    { apply (chain_live m (ns' ++ [t])); set_solver. }
    destruct Ht' as [v Hv]. destruct (ns' ++ [t]) as [|a r] eqn:E;
      [by destruct ns'|]. simpl. unfold LinkAfter. rewrite Hv. simpl.
    exists (<[t := Some n]> m), (MkList (sz_add (size_ l) 1) (Some a) (Some n)).
    split; [done|]. split; [|split].
    + split; cbn [size_ head_ tail_]; try done.
      * by rewrite app_comm_cons, last_snoc.
      * rewrite app_comm_cons, <- E, <- (assoc (++)).
        rewrite <- E, <- (assoc (++)) in Hnd'.
        apply chain_snoc; [by rewrite E|done|done].
    + intros k Hk. rewrite lookup_insert_ne; [done|congruence].
    + rewrite dom_insert_L. apply elem_of_dom_2 in Hv. set_solver. }
  simpl. exists m, (MkList (sz_add (size_ l) 1) (Some n) (Some n)). split; [done|].
  split; [split; simpl in *; try done; lia | done].
Qed.

Lemma Pop_repr_nil m l : repr m l [] → Pop m l = Some (None, l).
Proof. intros Hr. unfold Pop. by rewrite (IsEmpty_repr m l []), bool_decide_true. Qed.

Lemma Pop_repr_cons m l n ns :
  repr m l (n :: ns) → ∃ l', Pop m l = Some (Some n, l') ∧ repr m l' ns.
Proof.
  intros Hr. unfold Pop. rewrite (IsEmpty_repr m l (n :: ns)), bool_decide_false by done.
  destruct Hr as [Hs Hb Hh Ht Hc Hnd]. rewrite Hh. simpl in *.
  apply NoDup_cons in Hnd as [Hn Hnd].
  assert (Hsz : sz_sub (size_ l) 1 = Z.of_nat (length ns)).
  { rewrite sz_sub_small; rewrite Hs; [lia|]. unfold is_size. lia. }
  destruct ns as [|b ns].
  - rewrite bool_decide_true by (rewrite Hs; done). simpl. eexists. split; [done|].
    split; simpl; done.
  - rewrite bool_decide_false by (rewrite Hs; simpl; lia).
    destruct Hc as [E Hc]. unfold Next. rewrite E. simpl. eexists. split; [done|].
    split; simpl in *; try done. lia.
Qed.

(** ** The queue interface *)

#[export] Instance intrusive_fifo : FifoQueue (nodes * IntrusiveList) loc := {
  fq_empty := λ q, IsEmpty (snd q);
  fq_push := λ q n, Push (fst q) (snd q) (Some n);
  fq_pop := λ q, '(r, l) ← Pop (fst q) (snd q); Some (r, (fst q, l))
}.

#[export] Program Instance intrusive_laws : FifoLaws (nodes * IntrusiveList) loc := {
  fq_repr := λ q ns, repr (fst q) (snd q) ns;
  fq_live := λ q n, n ∈ dom (fst q)
}.
Next Obligation. intros [m l] ns Hr. exact (IsEmpty_repr m l ns Hr). Qed.
Next Obligation.
  intros [m l] ns a Hr Hl Hin Hb. simpl in *. apply elem_of_dom in Hl.
  destruct (Push_repr m l ns a Hr Hl Hin Hb) as (m' & l' & E & Hr' & _ & Hd).
  exists (m', l'). simpl. rewrite Hd. auto.
Qed.
Next Obligation. intros [m l] Hr. simpl. by rewrite Pop_repr_nil. Qed.
Next Obligation.
  intros [m l] n ns Hr. destruct (Pop_repr_cons m l n ns Hr) as (l' & E & Hr').
  exists (m, l'). simpl. by rewrite E.
Qed.
Next Obligation. intros [m l] ns Hr. apply (repr_nodup _ _ _ Hr). Qed.

(** ** Properties *)

(** C26: under the callers' discipline (a pushed node is live and not already
    linked) every script of [Push], [Pop], [Clear] and [Size] runs without
    undefined behaviour, returns exactly what a FIFO queue returns, and leaves a
    well-formed list holding the queue's elements. *)
Theorem intrusive_list_refines_queue (os : list list_op) (m : nodes) (l : IntrusiveList)
    (ns : list loc)
    (Hr : repr m l ns) (Hd : disciplined (dom m) os ns) :
  ∃ m' l', list_script os (m, l) = Some (fst (spec_script os ns), (m', l')) ∧
    repr m' l' (snd (spec_script os ns)) ∧ dom m' = dom m.
Proof.
  revert m l ns Hr Hd. induction os as [|o os IH]; intros m l ns Hr Hd; simpl; [eauto|].
  simpl in Hd. destruct Hd as [Ho Hd].
  assert (∃ m1 l1, list_exec o (m, l) = Some (fst (spec_exec o ns), (m1, l1)) ∧
    repr m1 l1 (snd (spec_exec o ns)) ∧ dom m1 = dom m) as (m1 & l1 & E & Hr1 & Hdom).
  { destruct o as [n| | |]; simpl.
    - destruct Ho as (Hl & Hin & Hb). apply elem_of_dom in Hl.
      destruct (Push_repr m l ns n Hr Hl Hin Hb) as (m1 & l1 & E & ? & _ & ?).
      rewrite E. simpl. eauto.
    - destruct ns as [|n ns].
      + rewrite (Pop_repr_nil m l Hr). simpl. eauto.
      + destruct (Pop_repr_cons m l n ns Hr) as (l1 & E & ?). rewrite E. simpl. eauto.
    - exists m, (Clear l). eauto using repr_new.
    - exists m, l. split; [|done]. unfold Size. by rewrite (repr_size _ _ _ Hr). }
  rewrite E. simpl. destruct (spec_exec o ns) as [r ns1]. simpl in *.
  rewrite <- Hdom in Hd. destruct (IH m1 l1 ns1 Hr1 Hd) as (m2 & l2 & E2 & Hr2 & Hd2).
  rewrite E2. simpl. destruct (spec_script os ns1) as [rs ns2]. simpl in *.
  exists m2, l2. split; [done|]. split; [done|congruence].
Qed.

Definition demo_nodes : nodes := {[ 1 := None; 2 := None; 3 := None ]}.

Theorem intrusive_list_refines_queue_witness :
  ∃ m' l', list_script [OpPush 1; OpPush 2; OpPop; OpPush 3; OpSize; OpPop; OpPush 1; OpPop; OpPop; OpPop]
    (demo_nodes, new_list) =
    Some ([OutUnit; OutUnit; OutNode (Some 1); OutUnit; OutSize 2; OutNode (Some 2);
           OutUnit; OutNode (Some 3); OutNode (Some 1); OutNode None], (m', l')) ∧
    repr m' l' [] ∧ dom m' = dom demo_nodes.
Proof.
  apply (intrusive_list_refines_queue
    [OpPush 1; OpPush 2; OpPop; OpPush 3; OpSize; OpPop; OpPush 1; OpPop; OpPop; OpPop]
    demo_nodes new_list [] (repr_new _)).
  repeat split; unfold demo_nodes; (set_solver || reflexivity).
Defined.

(** [std::swap] of an empty list with another one, the way the strand takes its
    batch, moves the elements over, leaves the other list empty and does not trip
    the destructor's assertion; swapping with a non-empty first list does. *)
Theorem intrusive_list_swap (m : nodes) (a b : IntrusiveList) (xs ys : list loc)
    (Ha : repr m a xs) (Hb : repr m b ys) :
  match xs with
  | [] => ∃ a' b', swap a b = Some (a', b') ∧ repr m a' ys ∧ repr m b' []
  | _ => swap a b = None
  end.
Proof.
  assert (destroy (copy a) = if bool_decide (xs = []) then Some tt else None) as E.
  { unfold destroy. by rewrite (IsEmpty_repr m (copy a) xs ltac:(by destruct a)). }
  unfold swap. rewrite E. destruct xs; simpl; [|done].
  destruct a, b. eauto.
Qed.

Theorem intrusive_list_swap_witness :
  ∃ a' b', swap new_list (MkList 1 (Some 1) (Some 1)) = Some (a', b') ∧
    repr demo_nodes a' [1] ∧ repr demo_nodes b' [].
Proof.
  apply (intrusive_list_swap demo_nodes new_list (MkList 1 (Some 1) (Some 1)) [] [1]).
  - apply repr_new.
  - split; simpl; try done. apply NoDup_singleton.
Defined.
