(* ===== verification/ManualExecutor.v ===== *)
(** * executor/manual: the step-by-step executor

    [IntrusiveManualExecutor] over any queue satisfying [Fifo.v]'s interface.
    Running a task is the virtual call [TaskBase::Run]: a parameter that says
    which tasks the body submits to this executor, in order, and how it changes
    the rest of the program's state.  Every critical section of the spinlock is
    one expression, as the class is driven by one thread. *)

From stdpp Require Import prelude list.
From S2P Require Import Prelude.
From S2P Require Import Fifo.
From S2P Require Import IntrusiveList.

Section manual.
  Context {Q A : Type} `{FifoLaws Q A} {St : Type}.
  Context (task_run : A → St → list A * St).

Record IntrusiveManualExecutor := MkManual {
  tasks : Q;
  count_tasks : Z
}.

Definition Submit (ex : IntrusiveManualExecutor) (task_ : A) : res IntrusiveManualExecutor :=
  q ← checked (fq_push (tasks ex) task_);
  Ret (MkManual q (sz_add (count_tasks ex) 1)).

(** The tasks a body submits, one [Submit] each. *)
Fixpoint submit_all (ex : IntrusiveManualExecutor) (ts : list A) : res IntrusiveManualExecutor :=
  match ts with
  | [] => Ret ex
  | t :: ts' => ex' ← Submit ex t; submit_all ex' ts'
  end.

(** The locked block of both loops: [None] when [count_tasks] is zero. *)
Definition take_task (ex : IntrusiveManualExecutor) :
    res (option (A * IntrusiveManualExecutor)) :=
  if bool_decide (count_tasks ex = 0%Z) then Ret None
  else
    '(p, q) ← checked (fq_pop (tasks ex));
    t ← checked p;
    Ret (Some (t, MkManual q (sz_sub (count_tasks ex) 1))).

(** [task->Run()] from the executor's loop. *)
Definition run_one_task (t : A) (ex : IntrusiveManualExecutor) (st : St) :
    res (IntrusiveManualExecutor * St) :=
  let '(subs, st') := task_run t st in
  ex' ← submit_all ex subs; Ret (ex', st').

(** The result of a loop: [done_tasks], the executor and the program's state. *)
Abbreviation loop_result := (Z * IntrusiveManualExecutor * St)%type.

Fixpoint RunAtMost_loop (fuel : nat) (limit done_tasks : Z) (ex : IntrusiveManualExecutor)
    (st : St) : res loop_result :=
  if bool_decide (done_tasks = limit) then Ret (done_tasks, ex, st)
  else
    match fuel with
    | O => NoFuel
    | S fuel' =>
        r ← take_task ex;
        match r with
        | None => Ret (done_tasks, ex, st)
        | Some (t, ex1) =>
            '(ex2, st') ← run_one_task t ex1 st;
            RunAtMost_loop fuel' limit (sz_add done_tasks 1) ex2 st'
        end
    end.

(** The loop counts up to [limit], so [limit] iterations are enough fuel. *)
Definition RunAtMost (limit : Z) (ex : IntrusiveManualExecutor) (st : St) : res loop_result :=
  RunAtMost_loop (Z.to_nat limit) limit 0 ex st.

Definition RunNext (ex : IntrusiveManualExecutor) (st : St) :
    res (bool * IntrusiveManualExecutor * St) :=
  '(n, ex', st') ← RunAtMost 1 ex st; Ret (bool_decide (1 = n)%Z, ex', st').

Fixpoint Drain_loop (fuel : nat) (done_tasks : Z) (ex : IntrusiveManualExecutor) (st : St) :
    res loop_result :=
  match fuel with
  | O => NoFuel
  | S fuel' =>
      r ← take_task ex;
      match r with
      | None => Ret (done_tasks, ex, st)
      | Some (t, ex1) =>
          '(ex2, st') ← run_one_task t ex1 st;
          Drain_loop fuel' (sz_add done_tasks 1) ex2 st'
      end
  end.

(** [Drain] has no bound of its own: it ends when the tasks stop submitting. *)
Definition Drain (fuel : nat) (ex : IntrusiveManualExecutor) (st : St) : res loop_result :=
  Drain_loop fuel 0 ex st.

Definition TaskCount (ex : IntrusiveManualExecutor) : Z := count_tasks ex.

Definition manual_IsEmpty (ex : IntrusiveManualExecutor) : bool :=
  bool_decide (count_tasks ex = 0%Z).

Definition NonEmpty (ex : IntrusiveManualExecutor) : bool := negb (manual_IsEmpty ex).

(** ** Specification: run the queue's front, append what it submits *)

(** After at most [k] tasks: how many ran, the queue, the program's state. *)
Fixpoint spec_run (k : nat) (ns : list A) (st : St) : list A * list A * St :=
  match k, ns with
  | S k', n :: ns' =>
      let '(subs, st') := task_run n st in
      let '(ran, rest, st'') := spec_run k' (ns' ++ subs) st' in
      (n :: ran, rest, st'')
  | _, _ => ([], ns, st)
  end.

(** The tasks' discipline along such a run: what a body submits are live nodes,
    distinct and not queued, and the queue's length fits [size_t]. *)
Fixpoint disciplined_run (live : A → Prop) (k : nat) (ns : list A) (st : St) : Prop :=
  match k, ns with
  | S k', n :: ns' =>
      let '(subs, st') := task_run n st in
      (∀ a, a ∈ subs → live a) ∧ NoDup (ns' ++ subs) ∧
      (Z.of_nat (length ns' + length subs) < size_bound)%Z ∧
      disciplined_run live k' (ns' ++ subs) st'
  | _, _ => True
  end.

(** The class invariant: [count_tasks] is the length of [tasks]. *)
Record manual_wf (ex : IntrusiveManualExecutor) (ns : list A) : Prop := ManualWf {
  mwf_repr : fq_repr (tasks ex) ns;
  mwf_count : count_tasks ex = Z.of_nat (length ns);
  mwf_bound : (Z.of_nat (length ns) < size_bound)%Z
}.

(** ** The operations preserve the invariant *)

Implicit Types (ex : IntrusiveManualExecutor) (ns : list A) (st : St).

Definition all_live (live : A → Prop) (ex : IntrusiveManualExecutor) : Prop :=
  ∀ a, live a → fq_live (tasks ex) a.

Lemma Submit_wf live ex ns a :
  manual_wf ex ns → all_live live ex → live a → a ∉ ns →
  (Z.of_nat (length ns) + 1 < size_bound)%Z →
  ∃ ex', Submit ex a = Ret ex' ∧ manual_wf ex' (ns ++ [a]) ∧ all_live live ex'.
Proof.
  intros [Hr Hc Hb] Hlv Ha Hin Hlt.
  destruct (fq_push_spec (tasks ex) ns a Hr (Hlv a Ha) Hin Hlt) as (q & E & Hr' & Hl).
  unfold Submit. rewrite E. simpl. eexists. split; [done|].
  split; [split; simpl; rewrite ?length_app; simpl|].
  - done.
  - rewrite Hc, sz_add_small; [lia|]. unfold is_size. lia.
  - lia.
  - intros b Hlb. simpl. auto.
Qed.

Lemma submit_all_wf live ex ns ts :
  manual_wf ex ns → all_live live ex → (∀ a, a ∈ ts → live a) → NoDup (ns ++ ts) →
  (Z.of_nat (length ns + length ts) < size_bound)%Z →
  ∃ ex', submit_all ex ts = Ret ex' ∧ manual_wf ex' (ns ++ ts) ∧ all_live live ex'.
Proof.
  revert ex ns. induction ts as [|t ts IH]; intros ex ns Hwf Hlv Hts Hnd Hb; simpl.
  - exists ex. by rewrite app_nil_r.
  - simpl in Hb. destruct (Submit_wf live ex ns t) as (ex1 & E & Hwf1 & Hlv1);
      [done|done|set_solver|apply NoDup_app in Hnd; set_solver|lia|].
    rewrite E. simpl. destruct (IH ex1 (ns ++ [t])) as (ex2 & E2 & Hwf2 & Hlv2).
    + done.
    + done.
    + set_solver.
    + by rewrite <-(assoc (++)).
    + rewrite length_app. simpl. lia.
    + exists ex2. rewrite <-(assoc (++)) in Hwf2. auto.
Qed.

Lemma take_task_nil ex : manual_wf ex [] → take_task ex = Ret None.
Proof. intros [_ Hc _]. unfold take_task. by rewrite bool_decide_true. Qed.

Lemma take_task_cons live ex n ns :
  manual_wf ex (n :: ns) → all_live live ex →
  ∃ ex', take_task ex = Ret (Some (n, ex')) ∧ manual_wf ex' ns ∧ all_live live ex'.
Proof.
  intros [Hr Hc Hb] Hlv. unfold take_task. simpl in Hc, Hb.
  rewrite bool_decide_false by lia.
  destruct (fq_pop_cons (tasks ex) n ns Hr) as (q & E & Hr' & Hl). rewrite E. simpl.
  eexists. split; [done|]. split; [split; simpl; [done| |lia]|].
  - rewrite Hc, sz_sub_small; [lia|]. unfold is_size. lia.
  - intros b Hlb. simpl. auto.
Qed.

(** One iteration of either loop on a non-empty queue. *)
Lemma run_front live k ex n ns st :
  manual_wf ex (n :: ns) → all_live live ex → disciplined_run live (S k) (n :: ns) st →
  ∃ ex1 ex2, take_task ex = Ret (Some (n, ex1)) ∧
    run_one_task n ex1 st = Ret (ex2, snd (task_run n st)) ∧
    manual_wf ex2 (ns ++ fst (task_run n st)) ∧ all_live live ex2 ∧
    disciplined_run live k (ns ++ fst (task_run n st)) (snd (task_run n st)).
Proof.
  intros Hwf Hlv Hd. simpl in Hd.
  destruct (task_run n st) as [subs st'] eqn:E. destruct Hd as (Hl & Hnd & Hb & Hd).
  destruct (take_task_cons live ex n ns Hwf Hlv) as (ex1 & E1 & Hwf1 & Hlv1).
  destruct (submit_all_wf live ex1 ns subs) as (ex2 & E2 & Hwf2 & Hlv2); try done.
  exists ex1, ex2. split; [done|]. split; [|done].
  unfold run_one_task. rewrite E, E2. done.
Qed.

Lemma spec_run_length k ns st : length (fst (fst (spec_run k ns st))) ≤ k.
Proof.
  revert ns st. induction k as [|k IH]; intros [|n ns] st; simpl; try lia.
  destruct (task_run n st) as [subs st'].
  specialize (IH (ns ++ subs) st'). destruct (spec_run k (ns ++ subs) st') as [[ran rest] st''].
  simpl in *. lia.
Qed.

Lemma spec_run_short k ns st :
  length (fst (fst (spec_run k ns st))) < k → snd (fst (spec_run k ns st)) = [].
Proof.
  revert ns st. induction k as [|k IH]; intros [|n ns] st; simpl; try lia; [done|].
  destruct (task_run n st) as [subs st'].
  specialize (IH (ns ++ subs) st'). destruct (spec_run k (ns ++ subs) st') as [[ran rest] st''].
  simpl in *. intros. apply IH. lia.
Qed.

(** What every task preserves holds of the queue and the state that are left. *)
Lemma spec_run_preserves (I : list A → St → Prop) k ns st :
  (∀ n ns st, I (n :: ns) st → I (ns ++ fst (task_run n st)) (snd (task_run n st))) → I ns st →
  I (snd (fst (spec_run k ns st))) (snd (spec_run k ns st)).
Proof.
  intros Hstep. revert ns st. induction k as [|k IH]; intros [|n ns] st HI; try done.
  apply Hstep in HI. simpl. destruct (task_run n st) as [subs st']. simpl in HI.
  specialize (IH (ns ++ subs) st' HI). by destruct (spec_run k (ns ++ subs) st') as [[ran rest] st''].
Qed.

(** Running [a] and then [b] more tasks is running [a + b]. *)
Lemma spec_run_add a b ns st :
  let '(ran1, rest1, st1) := spec_run a ns st in
  let '(ran2, rest2, st2) := spec_run b rest1 st1 in
  spec_run (a + b) ns st = (ran1 ++ ran2, rest2, st2).
Proof.
  revert ns st. induction a as [|a IH]; intros ns st; simpl.
  - by destruct (spec_run b ns st) as [[? ?] ?].
  - destruct ns as [|n ns]; [by destruct b|].
    destruct (task_run n st) as [subs st'].
    specialize (IH (ns ++ subs) st').
    destruct (spec_run a (ns ++ subs) st') as [[ran rest] st''].
    destruct (spec_run b rest st'') as [[ran2 rest2] st2]. by rewrite IH.
Qed.

Lemma disciplined_add live a b ns st :
  disciplined_run live (a + b) ns st →
  disciplined_run live a ns st ∧
  disciplined_run live b (snd (fst (spec_run a ns st))) (snd (spec_run a ns st)).
Proof.
  revert ns st. induction a as [|a IH]; intros ns st Hd; simpl in *; [done|].
  destruct ns as [|n ns]; [by destruct b|].
  destruct (task_run n st) as [subs st']. destruct Hd as (Hl & Hnd & Hb & Hd).
  destruct (IH _ _ Hd) as [Hd1 Hd2].
  destruct (spec_run a (ns ++ subs) st') as [[ran rest] st'']. auto.
Qed.

Lemma RunAtMost_loop_spec live k limit done ex ns st :
  manual_wf ex ns → all_live live ex → disciplined_run live k ns st →
  is_size done → is_size limit → (limit = done + Z.of_nat k)%Z →
  ∃ ex', RunAtMost_loop k limit done ex st =
    Ret (done + Z.of_nat (length (fst (fst (spec_run k ns st)))), ex', snd (spec_run k ns st))%Z ∧
    manual_wf ex' (snd (fst (spec_run k ns st))) ∧ all_live live ex'.
Proof.
  revert done ex ns st. induction k as [|k IH]; intros done ex ns st Hwf Hlv Hd H1 H2 Hlim.
  - simpl. rewrite bool_decide_true by lia. exists ex. by rewrite Z.add_0_r.
  - simpl. rewrite bool_decide_false by lia.
    destruct ns as [|n ns].
    + rewrite (take_task_nil ex Hwf). simpl. exists ex. by rewrite Z.add_0_r.
    + destruct (run_front live k ex n ns st Hwf Hlv Hd)
        as (ex1 & ex2 & E1 & E2 & Hwf2 & Hlv2 & Hd2).
      rewrite E1. simpl. rewrite E2. simpl. destruct (task_run n st) as [subs st'].
      assert (Hs : is_size (done + 1)) by (unfold is_size in *; lia).
      rewrite sz_add_small by done.
      destruct (IH (done + 1)%Z ex2 (ns ++ subs) st') as (ex' & E & Hwf' & Hlv');
        [done..|lia|].
      simpl in *. rewrite E. destruct (spec_run k (ns ++ subs) st') as [[ran rest] st''].
      simpl in *. exists ex'. split; [|done]. do 3 f_equal. lia.
Qed.

Lemma Drain_loop_spec live k fuel done ex ns st :
  manual_wf ex ns → all_live live ex → disciplined_run live k ns st →
  snd (fst (spec_run k ns st)) = [] → k < fuel → is_size done → is_size (done + Z.of_nat k) →
  ∃ ex', Drain_loop fuel done ex st =
    Ret (done + Z.of_nat (length (fst (fst (spec_run k ns st)))), ex', snd (spec_run k ns st))%Z ∧
    manual_wf ex' [] ∧ all_live live ex'.
Proof.
  revert fuel done ex ns st.
  induction k as [|k IH]; intros [|fuel] done ex ns st Hwf Hlv Hd Hnil Hf H1 H2; try lia.
  - simpl in Hnil. subst ns. simpl. rewrite (take_task_nil ex Hwf). simpl. exists ex.
    by rewrite Z.add_0_r.
  - destruct ns as [|n ns].
    + simpl. rewrite (take_task_nil ex Hwf). simpl. exists ex. by rewrite Z.add_0_r.
    + destruct (run_front live k ex n ns st Hwf Hlv Hd)
        as (ex1 & ex2 & E1 & E2 & Hwf2 & Hlv2 & Hd2).
      simpl. rewrite E1. simpl. rewrite E2. simpl in *.
      destruct (task_run n st) as [subs st']. simpl in *.
      assert (Hs : is_size (done + 1)) by (unfold is_size in *; lia).
      rewrite sz_add_small by done.
      specialize (IH fuel (done + 1)%Z ex2 (ns ++ subs) st').
      destruct (spec_run k (ns ++ subs) st') as [[ran rest] st'']. simpl in *.
      destruct IH as (ex' & E & Hwf' & Hlv'); [done..|lia|done|unfold is_size in *; lia|].
      rewrite E. exists ex'. split; [|done]. do 3 f_equal. lia.
Qed.

(** ** Properties *)

(** C36: [RunAtMost(limit)] runs the queue strictly in FIFO order, including what
    the tasks submit while it runs, leaves the executor's state consistent with
    the queue that is left, and returns the number of tasks run: never more than
    [limit], and fewer only when the queue has become empty. *)
Theorem RunAtMost_refines live limit ex ns st
    (Hwf : manual_wf ex ns) (Hlv : all_live live ex) (Hlim : is_size limit)
    (Hd : disciplined_run live (Z.to_nat limit) ns st) :
  let '(ran, rest, st') := spec_run (Z.to_nat limit) ns st in
  ∃ n ex', RunAtMost limit ex st = Ret (n, ex', st') ∧ manual_wf ex' rest ∧
    all_live live ex' ∧ n = Z.of_nat (length ran) ∧ (n ≤ limit)%Z ∧
    ((n < limit)%Z → manual_IsEmpty ex' = true).
Proof.
  pose proof (spec_run_length (Z.to_nat limit) ns st) as Hlen.
  pose proof (spec_run_short (Z.to_nat limit) ns st) as Hshort.
  destruct (RunAtMost_loop_spec live (Z.to_nat limit) limit 0 ex ns st)
    as (ex' & E & Hwf' & Hlv'); try done; [unfold is_size in *; lia..|].
  unfold RunAtMost. rewrite E. unfold is_size in Hlim.
  destruct (spec_run (Z.to_nat limit) ns st) as [[ran rest] st']. simpl in *.
  do 2 eexists. split; [done|]. repeat split; try apply Hwf'; auto; [lia|].
  intros Hlt. unfold manual_IsEmpty. rewrite (mwf_count _ _ Hwf').
  rewrite Hshort by lia. done.
Qed.

(** Running at most [a] tasks and then at most [b] more is running at most
    [a + b]: same tasks in the same order, same final executor and state, and the
    two returned counts add up. *)
Theorem RunAtMost_split live a b ex ns st
    (Hwf : manual_wf ex ns) (Hlv : all_live live ex) (Ha : (0 ≤ a)%Z) (Hb : (0 ≤ b)%Z)
    (Hab : is_size (a + b)) (Hd : disciplined_run live (Z.to_nat (a + b)) ns st) :
  ∃ na nb rest ex1 ex2 ex' st1 st',
    RunAtMost a ex st = Ret (na, ex1, st1) ∧ RunAtMost b ex1 st1 = Ret (nb, ex2, st') ∧
    RunAtMost (a + b) ex st = Ret (na + nb, ex', st')%Z ∧
    manual_wf ex2 rest ∧ manual_wf ex' rest.
Proof.
  rewrite Z2Nat.inj_add in Hd by done.
  destruct (disciplined_add live _ _ ns st Hd) as [Hda Hdb].
  pose proof (spec_run_add (Z.to_nat a) (Z.to_nat b) ns st) as Hadd.
  assert (is_size a ∧ is_size b ∧ is_size 0) as (? & ? & ?) by (unfold is_size in *; lia).
  destruct (RunAtMost_loop_spec live _ a 0 ex ns st Hwf Hlv Hda)
    as (ex1 & E1 & Hwf1 & Hlv1); [done..|lia|].
  destruct (RunAtMost_loop_spec live _ b 0 ex1 _ _ Hwf1 Hlv1 Hdb)
    as (ex2 & E2 & Hwf2 & Hlv2); [done..|lia|].
  destruct (RunAtMost_loop_spec live _ (a + b) 0 ex ns st Hwf Hlv Hd)
    as (ex' & E' & Hwf' & Hlv'); [done..|lia|].
  clear Hd Hda Hdb.
  destruct (spec_run (Z.to_nat a) ns st) as [[ran1 rest1] st1]. simpl in *.
  destruct (spec_run (Z.to_nat b) rest1 st1) as [[ran2 rest2] st2]. simpl in *.
  rewrite Hadd in *. simpl in *. unfold RunAtMost.
  do 8 eexists. split; [exact E1|]. split; [exact E2|].
  split; [|by split]. rewrite Z2Nat.inj_add, E' by done.
  rewrite length_app. do 3 f_equal. lia.
Qed.

(** When the tasks stop submitting after at most [k] of them, [Drain] (with any
    fuel above [k]) terminates, has run all of them in FIFO order, returns their
    number and leaves the executor empty. *)
Lemma Drain_terminates live k fuel ex ns st
    (Hwf : manual_wf ex ns) (Hlv : all_live live ex) (Hd : disciplined_run live k ns st)
    (Hstop : snd (fst (spec_run k ns st)) = []) (Hf : k < fuel) (Hk : is_size (Z.of_nat k)) :
  ∃ ex', Drain fuel ex st =
      Ret (Z.of_nat (length (fst (fst (spec_run k ns st)))), ex', snd (spec_run k ns st)) ∧
    manual_wf ex' [] ∧ NonEmpty ex' = false ∧ TaskCount ex' = 0%Z.
Proof.
  destruct (Drain_loop_spec live k fuel 0 ex ns st) as (ex' & E & Hwf' & _); try done.
  exists ex'. split; [done|]. split; [done|]. unfold NonEmpty, manual_IsEmpty, TaskCount.
  by rewrite (mwf_count _ _ Hwf').
Qed.

End manual.

(** ** A concrete program *)

(** Task 1 submits task 3 on its first run and then task 1 again; the state is the
    log of the runs. *)
Definition demo_run (t : loc) (log : list loc) : list loc * list loc :=
  (match t, log with 1, [] => [3; 1] | _, _ => [] end, log ++ [t]).

Definition demo_executor : IntrusiveManualExecutor (Q := nodes * IntrusiveList) :=
  MkManual (<[1 := Some 2]> demo_nodes, MkList 2 (Some 1) (Some 2)) 2.

Definition demo_live (n : loc) : Prop := n ∈ [1; 2; 3].

Lemma demo_wf : manual_wf (A := loc) demo_executor [1; 2].
Proof.
  split; [|done|done]. split; simpl; try done.
  apply NoDup_cons; split; [set_solver|apply NoDup_singleton].
Qed.

Lemma demo_all_live : all_live (A := loc) demo_live demo_executor.
Proof. intros a Ha. unfold demo_live in Ha. simpl. unfold demo_nodes. set_solver. Qed.

Lemma demo_disciplined k : k ≤ 4 → disciplined_run demo_run demo_live k [1; 2] [].
Proof.
  assert (∀ l : list loc, l = [2; 3; 1] ∨ l = [3; 1] ∨ l = [1] ∨ l = [] → NoDup l) as Hnd.
  { intros l Hl. destruct_or!; subst l; repeat (apply NoDup_cons; split; [set_solver|]);
      apply NoDup_nil; done. }
  assert (∀ a, a ∈ [3; 1] → demo_live a) by (unfold demo_live; set_solver).
  intros Hk. do 5 (destruct k as [|k]; [by repeat split; auto using Hnd; set_solver|]). lia.
Qed.

Theorem RunAtMost_refines_witness :
  ∃ n ex', RunAtMost demo_run 3 demo_executor [] = Ret (n, ex', [1; 2; 3]) ∧
    manual_wf ex' [1] ∧ all_live demo_live ex' ∧ n = 3%Z ∧ (n ≤ 3)%Z ∧
    ((n < 3)%Z → manual_IsEmpty ex' = true).
Proof.
  apply (RunAtMost_refines demo_run demo_live 3 demo_executor [1; 2] [] demo_wf demo_all_live).
  - unfold is_size. split; [lia|reflexivity].
  - apply demo_disciplined. vm_compute. lia.
Defined.

Theorem RunAtMost_split_witness :
  ∃ na nb rest ex1 ex2 ex' st1 st',
    RunAtMost demo_run 1 demo_executor [] = Ret (na, ex1, st1) ∧
    RunAtMost demo_run 2 ex1 st1 = Ret (nb, ex2, st') ∧
    RunAtMost demo_run (1 + 2) demo_executor [] = Ret (na + nb, ex', st')%Z ∧
    manual_wf (A := loc) ex2 rest ∧ manual_wf ex' rest.
Proof.
  apply (RunAtMost_split demo_run demo_live 1 2 demo_executor [1; 2] [] demo_wf demo_all_live).
  1-2: lia.
  - unfold is_size. split; [lia|reflexivity].
  - apply demo_disciplined. vm_compute. lia.
Defined.

Theorem Drain_terminates_witness :
  ∃ ex', Drain demo_run 5 demo_executor [] = Ret (4%Z, ex', [1; 2; 3; 1]) ∧
    manual_wf (A := loc) ex' [] ∧ NonEmpty ex' = false ∧ TaskCount ex' = 0%Z.
Proof.
  apply (Drain_terminates demo_run demo_live 4 5 demo_executor [1; 2] [] demo_wf demo_all_live).
  - apply demo_disciplined. lia.
  - reflexivity.
  - lia.
  - unfold is_size. split; [lia|reflexivity].
Defined.
