(* ===== verification/Lock.v ===== *)
(** * What a lock promises

    The abstract lock (an owner or nobody), the abstract first-come first-served
    lock (a queue of threads, the first of which may own), and the interface
    [LockImpl]/[LockLaws] the two spinlocks of components/sync implement and the
    clients of a lock are modelled against. *)

From stdpp Require Import prelude list.
From S2P Require Import Prelude.

(** ** The abstract lock *)

Inductive lock_event := Acquire (t : tid) | Release (t : tid).

(** Acquiring needs a free lock, releasing needs to be its owner. *)
Definition acquire (t : tid) (o : option tid) : option (option tid) :=
  match o with None => Some (Some t) | Some _ => None end.

Definition release (t : tid) (o : option tid) : option (option tid) :=
  match o with Some t' => if decide (t = t') then Some None else None | None => None end.

Definition lock_step (e : lock_event) (o : option tid) : option (option tid) :=
  match e with Acquire t => acquire t o | Release t => release t o end.

Definition abstract_lock : lts (option tid) lock_event := Lts (λ o, o = None) lock_step.

(** ** The abstract FIFO lock *)

Inductive fifo_event := Enter (t : tid) | Own (t : tid) | Exit (t : tid).

Record fifo_state := FifoState {
  fl_queue : list tid;
  fl_owned : bool
}.

Definition fifo_step (e : fifo_event) (s : fifo_state) : option fifo_state :=
  match e with
  | Enter t =>
      if decide (t ∈ fl_queue s) then None else Some (FifoState (fl_queue s ++ [t]) (fl_owned s))
  | Own t =>
      if decide (head (fl_queue s) = Some t ∧ fl_owned s = false)
      then Some (FifoState (fl_queue s) true) else None
  | Exit t =>
      if decide (head (fl_queue s) = Some t ∧ fl_owned s = true)
      then Some (FifoState (tail (fl_queue s)) false) else None
  end.

Definition fifo_lock : lts fifo_state fifo_event := Lts (λ s, s = FifoState [] false) fifo_step.

Definition fifo_owner (s : fifo_state) : option tid :=
  if fl_owned s then head (fl_queue s) else None.

(** The threads that entered, and those that came to own, along a schedule. *)
Definition enters (tr : list fifo_event) : list tid :=
  omap (λ e, match e with Enter t => Some t | _ => None end) tr.

Definition owns (tr : list fifo_event) : list tid :=
  omap (λ e, match e with Own t => Some t | _ => None end) tr.

(** ** The interface *)

Class LockImpl (S L : Type) := {
  lk_sys : lts S L;
  lk_holds : S → tid → Prop
}.

(** The implementation simulates the abstract lock, and its holder is the owner. *)
Class LockLaws (S L : Type) `{LockImpl S L} := {
  lk_rel : S → option tid → Prop;
  lk_simulates : simulation lk_sys abstract_lock lk_rel;
  lk_owner : ∀ s o t, lk_rel s o → lk_holds s t ↔ o = Some t
}.

Section lock_clients.
  Context {S L : Type} `{LockLaws S L}.

(** No two threads are in the critical section. *)
Lemma lock_exclusive s t1 t2 :
  reachable lk_sys s → lk_holds s t1 → lk_holds s t2 → t1 = t2.
Proof.
  intros Hr H1 H2. destruct (sim_reachable _ _ _ lk_simulates s Hr) as (o & _ & Ho).
  apply (lk_owner s o _ Ho) in H1, H2. congruence.
Qed.
End lock_clients.

(** ** A lock held by the position in the code

    The positions under the lock say who owns it, and steps keep it so. *)

Section held.
  Context {P : Type} (holds : P → bool).

Definition held (o : option tid) (pcs : tid → P) : Prop := ∀ t, o = Some t ↔ holds (pcs t) = true.

Lemma held_acquired o pcs t p o' :
  held o pcs → acquire t o = Some o' → holds p = true → held o' pcs⟦t ↦ p⟧.
Proof.
  intros Hi Ha Hp u. destruct o; simplify_eq/=. unfold upd. case_decide as E; [by subst|].
  rewrite <-(Hi u). split; congruence.
Qed.

Lemma held_released o pcs t p :
  held o pcs → holds (pcs t) = true → holds p = false → held None pcs⟦t ↦ p⟧.
Proof.
  intros Hi Hn Hp u. apply Hi in Hn. unfold upd. case_decide as E; [by rewrite Hp|].
  rewrite <-(Hi u). split; congruence.
Qed.

Lemma held_kept o pcs t p :
  held o pcs → holds p = holds (pcs t) → held o pcs⟦t ↦ p⟧.
Proof. intros Hi Hp u. unfold upd. case_decide as E; [by rewrite Hp, <-E|done]. Qed.

(** Whoever is under the lock can release it. *)
Lemma held_release o pcs t : held o pcs → holds (pcs t) = true → release t o = Some None.
Proof. intros Hi Ht. apply Hi in Ht. subst. simpl. by rewrite decide_True. Qed.

(** Nobody else is under it. *)
Lemma held_alone o pcs t u :
  held o pcs → holds (pcs t) = true → holds (pcs u) = true → t = u.
Proof. intros Hi Ht Hu. apply Hi in Ht, Hu. congruence. Qed.

Lemma held_free o pcs t : held o pcs → (∀ u, holds (pcs u) = false) → acquire t o = Some (Some t).
Proof.
  intros Hi Hn. destruct o as [u|] eqn:E; [|done].
  assert (holds (pcs u) = true) as Hu by (by apply Hi). by rewrite Hn in Hu.
Qed.
End held.

(** ** The FIFO lock is a lock, and it is fair *)

Definition fifo_wf (s : fifo_state) : Prop :=
  NoDup (fl_queue s) ∧ (fl_owned s = true → fl_queue s ≠ []).

Lemma fifo_step_wf e s s' : fifo_wf s → fifo_step e s = Some s' → fifo_wf s'.
Proof.
  destruct s as [q b]. intros [Hnd Hb] Hstep.
  destruct e as [t|t|t]; simpl in *; case_decide as Hd; simplify_eq; simpl in *.
  - split; simpl; [|by destruct q]. apply NoDup_app.
    split; [done|]. split; [set_solver|apply NoDup_singleton].
  - split; simpl; [done|]. destruct q; naive_solver.
  - split; simpl; [|done]. destruct q; [done|]. by apply NoDup_cons in Hnd as [_ ?].
Qed.

Lemma fifo_lock_simulates :
  simulation fifo_lock abstract_lock (λ s o, fifo_wf s ∧ fifo_owner s = o).
Proof.
  split.
  - intros s ->. exists None. repeat split; [constructor|done].
  - intros e [q b] s' o [Hwf <-] Hstep.
    pose proof (fifo_step_wf e _ s' Hwf Hstep) as Hwf'. destruct Hwf as [Hnd Hb].
    destruct e as [t|t|t]; simpl in *; case_decide as Hd; simplify_eq; simpl in *.
    + exists [], (fifo_owner (FifoState q b)). split; [done|]. split; [done|].
      unfold fifo_owner. simpl. destruct b, q; simpl; naive_solver.
    + destruct Hd as [Hh ->]. exists [Acquire t], (Some t). unfold fifo_owner. simpl. auto.
    + destruct Hd as [Hh ->]. exists [Release t], None. unfold fifo_owner. simpl. rewrite Hh.
      simpl. by rewrite decide_True.
Qed.

(** First come, first served: the owners so far are the first to have entered. *)
Lemma fifo_lock_order tr s s' pre :
  run fifo_lock tr s = Some s' → fifo_wf s →
  let served x := if fl_owned x then tail (fl_queue x) else fl_queue x in
  enters pre = owns pre ++ served s → enters (pre ++ tr) = owns (pre ++ tr) ++ served s'.
Proof.
  simpl. revert s pre. induction tr as [|e tr IH]; intros s pre Hrun Hwf Hpre; simpl in Hrun.
  - simplify_eq. by rewrite app_nil_r.
  - destruct (fifo_step e s) as [s1|] eqn:E; simpl in Hrun; [|done].
    change (e :: tr) with ([e] ++ tr). rewrite (assoc (++)). apply (IH s1); [done| |].
    { by eapply fifo_step_wf. }
    unfold enters, owns in *. rewrite !omap_app, Hpre. destruct s as [q b], Hwf as [_ Hb].
    destruct e as [t|t|t]; simpl in *; case_decide as Hd; simplify_eq; simpl in *.
    + rewrite app_nil_r, <-(assoc (++)). f_equal. destruct b; [|done].
      destruct q; [naive_solver|done].
    + destruct Hd as [Hh ->]. rewrite app_nil_r, <-(assoc (++)). f_equal.
      destruct q; naive_solver.
    + destruct Hd as [Hh ->]. by rewrite !app_nil_r.
Qed.
