(* ===== verification/SpinLock.v ===== *)
(** * components/sync/spinLock: the test-and-test-and-set lock

    The shared state is the flag [lock_]; every load, store, exchange and
    compare-exchange of it is one step.  [Lock] is an exchange, then, while it
    returns [true], an inner loop of loads.  Steps of different threads
    interleave arbitrarily. *)

From stdpp Require Import prelude.
From S2P Require Import Prelude.
From S2P Require Import Lock.

(** ** The atomic operations on the flag *)

Definition exchange_lock (lock_ : bool) : bool * bool := (lock_, true).

(** [Unlock] stores [false], whoever calls it. *)
Definition Unlock (lock_ : bool) : bool := false.

(** [TryLock]: compare-exchange of [false] with [true]; (result, new flag). *)
Definition TryLock (lock_ : bool) : bool * bool :=
  let old_value := false in
  if eqb lock_ old_value then (true, true) else (false, lock_).

(** The lower-case [try_lock] returns nothing: only the new flag is left. *)
Definition try_lock (lock_ : bool) : unit * bool := (tt, snd (TryLock lock_)).

(** ** Threads *)

Inductive spin_pc :=
| Idle                (** outside *)
| Exchanging          (** in [Lock], about to exchange *)
| Spinning            (** in [Lock]'s inner loop *)
| Holding.            (** [Lock] has returned, or [TryLock] has returned [true] *)

Record spin_state := SpinState {
  lock_ : bool;
  spin_pcs : tid → spin_pc
}.

Inductive spin_label :=
| CallLock (t : tid)
| CallTryLock (t : tid)
| CallUnlock (t : tid)
| SpinStep (t : tid).

Definition spin_step (l : spin_label) (s : spin_state) : option spin_state :=
  match l with
  | CallLock t =>
      match spin_pcs s t with
      | Idle => Some (SpinState (lock_ s) (spin_pcs s)⟦t ↦ Exchanging⟧)
      | _ => None
      end
  | CallTryLock t =>
      match spin_pcs s t with
      | Idle =>
          let '(ok, v) := TryLock (lock_ s) in
          Some (SpinState v (spin_pcs s)⟦t ↦ if ok : bool then Holding else Idle⟧)
      | _ => None
      end
  | CallUnlock t =>
      match spin_pcs s t with
      | Holding => Some (SpinState (Unlock (lock_ s)) (spin_pcs s)⟦t ↦ Idle⟧)
      | _ => None
      end
  | SpinStep t =>
      match spin_pcs s t with
      | Exchanging =>
          let '(old, v) := exchange_lock (lock_ s) in
          Some (SpinState v (spin_pcs s)⟦t ↦ if old : bool then Spinning else Holding⟧)
      | Spinning =>
          Some (SpinState (lock_ s) (spin_pcs s)⟦t ↦ if lock_ s then Spinning else Exchanging⟧)
      | _ => None
      end
  end.

Definition spin_lock : lts spin_state spin_label :=
  Lts (λ s, lock_ s = false ∧ ∀ t, spin_pcs s t = Idle) spin_step.

Definition spin_init : spin_state := SpinState false (λ _, Idle).

(** The holder, if any, is the abstract owner, and the flag says whether there is
    one. *)
Definition spin_rel (s : spin_state) (o : option tid) : Prop :=
  lock_ s = bool_decide (is_Some o) ∧ ∀ t, spin_pcs s t = Holding ↔ o = Some t.

Lemma spin_simulates : simulation spin_lock abstract_lock spin_rel.
Proof.
  split.
  - intros s [Hl Hp]. exists None. split; [done|]. split; [done|].
    intros t. rewrite Hp. naive_solver.
  - intros l s s' o [Hl Hp] Hstep. simpl in Hstep.
    assert (∀ t p, spin_pcs s t = Idle ∨ spin_pcs s t = Exchanging ∨ spin_pcs s t = Spinning →
      p ≠ Holding → ∀ t', (spin_pcs s)⟦t ↦ p⟧ t' = Holding ↔ o = Some t') as Hsame.
    { intros t p Ht Hp' t'. specialize (Hp t'). upd_cases; intuition congruence. }
    assert (∀ t, lock_ s = false → lts_step abstract_lock (Acquire t) o = Some (Some t) ∧
      ∀ t', (spin_pcs s)⟦t ↦ Holding⟧ t' = Holding ↔ Some t = Some t') as Hacq.
    { intros t Hf. rewrite Hl in Hf. apply bool_decide_eq_false in Hf.
      destruct o; [exfalso; eauto|]. split; [done|]. intros t'. specialize (Hp t').
      upd_cases; naive_solver. }
    destruct l as [t|t|t|t]; simpl in Hstep; destruct (spin_pcs s t) eqn:Et; simplify_eq.
    + exists [], o. split; [done|]. split; [done|]. apply Hsame; naive_solver.
    + unfold TryLock in Hstep. destruct (lock_ s) eqn:El; simplify_eq/=.
      * exists [], o. split; [done|]. split; [done|]. apply Hsame; naive_solver.
      * destruct (Hacq t eq_refl) as [Ha Hp']. exists [Acquire t], (Some t).
        rewrite run_one. split; [done|]. by split.
    + destruct (Hp t) as [Ho _]. specialize (Ho Et). subst o.
      exists [Release t], None. simpl. rewrite decide_True by done. split; [done|].
      split; [done|]. intros t'. specialize (Hp t'). simpl. upd_cases; intuition congruence.
    + destruct (lock_ s) eqn:El; simplify_eq/=.
      * exists [], o. split; [done|]. split; [done|]. apply Hsame; naive_solver.
      * destruct (Hacq t eq_refl) as [Ha Hp']. exists [Acquire t], (Some t).
        rewrite run_one. split; [done|]. by split.
    + exists [], o. split; [done|]. split; [done|].
      apply Hsame; [naive_solver|]. by destruct (lock_ s).
Qed.

#[export] Instance spin_lock_impl : LockImpl spin_state spin_label := {
  lk_sys := spin_lock;
  lk_holds := λ s t, spin_pcs s t = Holding
}.

#[export] Program Instance spin_lock_laws : LockLaws spin_state spin_label := {
  lk_rel := spin_rel;
  lk_simulates := spin_simulates
}.
Next Obligation. intros s o t [_ Hh]. apply Hh. Qed.

(** ** Properties *)

(** Mutual exclusion of [SpinLock]: in every reachable state of any number of
    threads calling [Lock], [TryLock] and (from the holder) [Unlock], there is at
    most one holder, and the flag is set exactly when there is one. *)
Lemma spin_lock_exclusive (s : spin_state) (Hr : reachable spin_lock s) :
  (∀ t1 t2, spin_pcs s t1 = Holding → spin_pcs s t2 = Holding → t1 = t2) ∧
  (lock_ s = true ↔ ∃ t, spin_pcs s t = Holding).
Proof.
  split; [intros t1 t2; exact (lock_exclusive s t1 t2 Hr)|].
  destruct (sim_reachable _ _ _ spin_simulates s Hr) as (o & _ & Hl & Hh).
  rewrite Hl, bool_decide_eq_true. destruct o as [t|]; split.
  - intros _. exists t. by apply Hh.
  - eauto.
  - intros [? ?]. done.
  - intros [t Ht]. by apply Hh in Ht.
Qed.

(** Two threads race: thread 1 wins, thread 2 spins. *)
Definition spin_demo : list spin_label :=
  [CallLock 1; CallLock 2; SpinStep 1; SpinStep 2; SpinStep 2].

Definition spin_demo_state : spin_state :=
  match run spin_lock spin_demo spin_init with Some s => s | None => spin_init end.

Theorem spin_lock_exclusive_witness :
  (∀ t1 t2, spin_pcs spin_demo_state t1 = Holding → spin_pcs spin_demo_state t2 = Holding →
    t1 = t2) ∧
  (lock_ spin_demo_state = true ↔ ∃ t, spin_pcs spin_demo_state t = Holding).
Proof.
  apply (spin_lock_exclusive spin_demo_state).
  exists spin_init, spin_demo. split; [by split|reflexivity].
Defined.

(** No deadlock: a thread inside [Lock] is never blocked, and when the flag is
    clear it holds the lock after at most two steps of its own. *)
Theorem spin_lock_progress (s : spin_state) (t : tid)
    (Ht : spin_pcs s t = Exchanging ∨ spin_pcs s t = Spinning) :
  (∃ s', spin_step (SpinStep t) s = Some s') ∧
  (lock_ s = false → ∃ n s', n ≤ 2 ∧
    run spin_lock (replicate n (SpinStep t)) s = Some s' ∧ spin_pcs s' t = Holding).
Proof.
  destruct s as [v pcs]. simpl in *. destruct Ht as [Ht|Ht]; rewrite Ht; split; eauto.
  - intros ->. exists 1. eexists. split; [lia|]. simpl. rewrite Ht. simpl.
    split; [done|]. simpl. by rewrite upd_eq.
  - intros ->. exists 2. eexists. split; [lia|]. simpl. rewrite Ht. simpl. rewrite upd_eq. simpl.
    split; [done|]. simpl. by rewrite upd_eq.
Qed.

Theorem spin_lock_progress_witness :
  (∃ s', spin_step (SpinStep 2) spin_demo_state = Some s') ∧
  (lock_ spin_demo_state = false → ∃ n s', n ≤ 2 ∧
    run spin_lock (replicate n (SpinStep 2)) spin_demo_state = Some s' ∧
    spin_pcs s' 2 = Holding).
Proof. apply (spin_lock_progress spin_demo_state 2). right. reflexivity. Defined.

(** [try_lock], the lower-case member a standard lock wrapper would call, returns
    nothing: whatever it does to the flag, its caller observes the same, so it
    takes a free lock without the caller being able to know it. *)
Theorem try_lock_discards_result :
  fst (try_lock false) = fst (try_lock true) ∧ snd (try_lock false) = true ∧
  fst (TryLock false) ≠ fst (TryLock true).
Proof. done. Qed.
