(* ===== verification/QueueSpinLock.v ===== *)
(** * components/sync/queue_spinlock.h: the queue lock with stack-allocated guards

    A thread has at most one [Guard] on the lock, named by the thread.  The
    constructor resets the guard's fields and calls the host's [Acquire]; the
    destructor calls [Release] when the guard [is_owner].  Every load, store,
    exchange and compare-exchange of [tail_], [next] and [is_owner] is one step;
    the weak compare-exchange may fail spuriously.  Memory is sequentially
    consistent. *)

From stdpp Require Import prelude list.
From S2P Require Import Prelude.
From S2P Require Import Lock.

Record Guard := MkGuard {
  next : ptr tid;
  is_owner : bool
}.

Definition new_guard : Guard := MkGuard None false.

Definition SetOwner (g : Guard) : Guard := MkGuard (next g) true.

Definition ClearOwner (g : Guard) : Guard := MkGuard (next g) false.

Definition SetNext (n : tid) (g : Guard) : Guard := MkGuard (Some n) (is_owner g).

Definition HasNext (g : Guard) : bool := match next g with Some _ => true | None => false end.

(** Where a thread is.  The flag of the release states says whether [Release] was
    called explicitly (the destructor is still to run) or by the destructor. *)
Inductive guard_pc :=
| Outside
| AcqExchange                       (** [tail_.exchange(guard)] *)
| AcqSetOwner                       (** no ancestor: [guard->SetOwner()] *)
| AcqSetNext (ancestor : tid)       (** [ancestor->SetNext(guard)] *)
| AcqSpin                           (** [while (!guard->IsOwner())] *)
| Held
| RelHasNext (explicit : bool)      (** [if (guard->HasNext())] *)
| RelLoadNext (explicit : bool)     (** [SetNextOwner]: [next.load()] *)
| RelSetOwner (n : tid) (explicit : bool)   (** [->SetOwner()] *)
| RelCas (explicit : bool)          (** [tail_.compare_exchange_weak(old_guard, nullptr)] *)
| RelHasNext2 (explicit : bool)     (** [if (guard->HasNext())] in the loop *)
| RelClear (explicit : bool)        (** [is_owner.store(false)] *)
| Released.                         (** after an explicit [Release], before the destructor *)

Record QueueSpinLock := MkQueueSpinLock {
  tail_ : ptr tid;
  guards : tid → Guard;
  guard_pcs : tid → guard_pc
}.

Inductive guard_label :=
| NewGuard (t : tid)                 (** the constructor is called *)
| CallRelease (t : tid)              (** [guard.Release()] is called *)
| DestroyGuard (t : tid)             (** the destructor runs *)
| GuardStep (t : tid) (spurious : bool).

Definition at_pc (s : QueueSpinLock) (t : tid) (p : guard_pc) : QueueSpinLock :=
  MkQueueSpinLock (tail_ s) (guards s) (guard_pcs s)⟦t ↦ p⟧.

Definition with_guard (s : QueueSpinLock) (t : tid) (g : Guard) : QueueSpinLock :=
  MkQueueSpinLock (tail_ s) (guards s)⟦t ↦ g⟧ (guard_pcs s).

Definition with_tail (s : QueueSpinLock) (v : ptr tid) : QueueSpinLock :=
  MkQueueSpinLock v (guards s) (guard_pcs s).

(** The host's [Acquire]. *)
Definition Acquire_step (t : tid) (s : QueueSpinLock) : option QueueSpinLock :=
  match guard_pcs s t with
  | AcqExchange =>
      let ancestor := tail_ s in
      let s' := with_tail s (Some t) in
      Some (at_pc s' t (match ancestor with None => AcqSetOwner | Some a => AcqSetNext a end))
  | AcqSetOwner => Some (at_pc (with_guard s t (SetOwner (guards s t))) t Held)
  | AcqSetNext a => Some (at_pc (with_guard s a (SetNext t (guards s a))) t AcqSpin)
  | AcqSpin => Some (at_pc s t (if is_owner (guards s t) then Held else AcqSpin))
  | _ => None
  end.

(** The host's [Release], and the store that ends the guard's. *)
Definition Release_step (t : tid) (spurious : bool) (s : QueueSpinLock) : option QueueSpinLock :=
  match guard_pcs s t with
  | RelHasNext e => Some (at_pc s t (if HasNext (guards s t) then RelLoadNext e else RelCas e))
  | RelLoadNext e => n ← next (guards s t); Some (at_pc s t (RelSetOwner n e))
  | RelSetOwner n e => Some (at_pc (with_guard s n (SetOwner (guards s n))) t (RelClear e))
  | RelCas e =>
      if negb spurious && bool_decide (tail_ s = Some t)
      then Some (at_pc (with_tail s None) t (RelClear e))
      else Some (at_pc s t (RelHasNext2 e))
  | RelHasNext2 e => Some (at_pc s t (if HasNext (guards s t) then RelLoadNext e else RelCas e))
  | RelClear e =>
      Some (at_pc (with_guard s t (ClearOwner (guards s t))) t (if e then Released else Outside))
  | _ => None
  end.

Definition guard_step (l : guard_label) (s : QueueSpinLock) : option QueueSpinLock :=
  match l with
  | NewGuard t =>
      match guard_pcs s t with
      | Outside => Some (at_pc (with_guard s t new_guard) t AcqExchange)
      | _ => None
      end
  | CallRelease t =>
      match guard_pcs s t with Held => Some (at_pc s t (RelHasNext true)) | _ => None end
  | DestroyGuard t =>
      match guard_pcs s t with
      | Held | Released =>
          Some (at_pc s t (if is_owner (guards s t) then RelHasNext false else Outside))
      | _ => None
      end
  | GuardStep t spurious =>
      match guard_pcs s t with
      | AcqExchange | AcqSetOwner | AcqSetNext _ | AcqSpin => Acquire_step t s
      | _ => Release_step t spurious s
      end
  end.

Definition qsl_init : QueueSpinLock :=
  MkQueueSpinLock None (λ _, new_guard) (λ _, Outside).

Definition queue_spin_lock : lts QueueSpinLock guard_label :=
  Lts (λ s, tail_ s = None ∧ ∀ t, guard_pcs s t = Outside) guard_step.

(** ** Invariant: the guards form a queue *)

(** In the critical section (the guard's owner is inside, or is giving it up). *)
Definition holds (p : guard_pc) : bool :=
  match p with
  | Held | RelHasNext _ | RelLoadNext _ | RelSetOwner _ _ | RelCas _ | RelHasNext2 _ => true
  | _ => false
  end.

(** In the queue: entered, and the lock is not yet passed on. *)
Definition queued (p : guard_pc) : bool :=
  match p with AcqSetOwner | AcqSetNext _ | AcqSpin => true | _ => holds p end.

(** The guards behind [a], each linked from its ancestor or about to link itself. *)
Fixpoint links (gs : tid → Guard) (ps : tid → guard_pc) (a : tid) (q : list tid) : Prop :=
  match q with
  | [] => next (gs a) = None
  | b :: q' =>
      is_owner (gs b) = false ∧
      ((next (gs a) = Some b ∧ ps b = AcqSpin) ∨ (next (gs a) = None ∧ ps b = AcqSetNext a)) ∧
      links gs ps b q'
  end.

(** The first guard owns, or is about to. *)
Definition head_ok (g : Guard) (p : guard_pc) : Prop :=
  match p with
  | AcqSetOwner => True
  | AcqSpin | Held | RelHasNext _ | RelCas _ | RelHasNext2 _ => is_owner g = true
  | RelLoadNext _ => is_owner g = true ∧ next g ≠ None
  | RelSetOwner n _ => is_owner g = true ∧ next g = Some n
  | _ => False
  end.

Record qsl_inv (s : QueueSpinLock) (q : list tid) : Prop := QslInv {
  qi_nodup : NoDup q;
  qi_queued : ∀ t, t ∈ q ↔ queued (guard_pcs s t) = true;
  qi_tail : tail_ s = last q;
  qi_head : ∀ h, head q = Some h → head_ok (guards s h) (guard_pcs s h);
  qi_links : match q with [] => True | h :: r => links (guards s) (guard_pcs s) h r end;
  qi_fresh : ∀ t, guard_pcs s t = AcqExchange → guards s t = new_guard;
  qi_released : ∀ t, guard_pcs s t = Released → is_owner (guards s t) = false
}.

(** The abstract FIFO lock's state. *)
Definition qsl_rel (s : QueueSpinLock) (a : fifo_state) : Prop :=
  qsl_inv s (fl_queue a) ∧
  fl_owned a = match head (fl_queue a) with Some h => holds (guard_pcs s h) | None => false end.

(** [s'] differs from [s] at most in [t]'s guard and position. *)
Definition only (t : tid) (s s' : QueueSpinLock) : Prop :=
  tail_ s' = tail_ s ∧ ∀ x, x ≠ t → guards s' x = guards s x ∧ guard_pcs s' x = guard_pcs s x.

(** ** Facts about the links *)

Lemma links_frame gs ps gs' ps' a q :
  next (gs' a) = next (gs a) → (∀ b, b ∈ q → gs' b = gs b ∧ ps' b = ps b) →
  links gs ps a q → links gs' ps' a q.
Proof.
  revert a. induction q as [|b q IH]; intros a Ha Hq; simpl; [congruence|].
  intros (Ho & Hl & Hlq). destruct (Hq b) as [Eg Ep]; [set_solver|].
  rewrite Eg, Ep, Ha. split; [done|]. split; [done|].
  apply IH; [by rewrite Eg|set_solver|done].
Qed.

Lemma links_snoc gs ps a q z t :
  links gs ps a q → last (a :: q) = Some z → t ∉ a :: q → gs t = new_guard →
  links gs ps⟦t ↦ AcqSetNext z⟧ a (q ++ [t]).
Proof.
  revert a. induction q as [|b q IH]; intros a Hl Hlast Hin Ht.
  - simpl in *. simplify_eq. rewrite Ht, upd_eq. auto.
  - destruct Hl as (Ho & Hl & Hlq). simpl. rewrite upd_ne by set_solver.
    split; [done|]. split; [done|]. apply IH; [done|done|set_solver|done].
Qed.

Lemma links_set_next gs ps a q z t :
  links gs ps a q → NoDup (a :: q) → t ∈ q → ps t = AcqSetNext z →
  links gs⟦z ↦ SetNext t (gs z)⟧ ps⟦t ↦ AcqSpin⟧ a q ∧ z ∈ a :: q ∧ next (gs z) = None ∧ z ≠ t.
Proof.
  revert a. induction q as [|b q IH]; intros a Hl Hnd Ht Hp; [set_solver|].
  destruct Hl as (Ho & Hl & Hlq). apply NoDup_cons in Hnd as [Ha Hnd].
  destruct (decide (t = b)) as [->|Hne].
  - destruct Hl as [[? ?]|[Hn ?]]; [congruence|]. assert (z = a) as -> by congruence.
    apply NoDup_cons in Hnd as [Hb Hnd].
    split; [|split; [set_solver|split; [done|set_solver]]]. simpl. rewrite !upd_eq.
    rewrite upd_ne by set_solver. split; [done|]. split; [by left|].
    apply (links_frame gs ps); [by rewrite upd_ne by set_solver| |done].
    intros x Hx. rewrite !upd_ne; set_solver.
  - destruct (IH b Hlq Hnd) as (Hlq' & Hz & Hnz & Hzt); [set_solver|done|].
    split; [|split; [set_solver|done]]. simpl.
    rewrite (upd_ne gs z a) by set_solver. rewrite (upd_ne ps) by done.
    split; [|done]. destruct (decide (z = b)) as [->|]; [by rewrite upd_eq|by rewrite upd_ne].
Qed.

(** Whoever is not first is still waiting. *)
Lemma links_waiting gs ps a q t :
  links gs ps a q → t ∈ q →
  is_owner (gs t) = false ∧ (ps t = AcqSpin ∨ ∃ z, ps t = AcqSetNext z).
Proof.
  revert a. induction q as [|b q IH]; intros a Hl Ht; [set_solver|].
  destruct Hl as (Ho & Hl & Hlq). apply elem_of_cons in Ht as [->|Ht]; [|eauto].
  split; [done|]. naive_solver.
Qed.

(** ** How steps preserve the invariant *)

Section steps.
  Context (s s' : QueueSpinLock) (q : list tid) (t : tid) (Hinv : qsl_inv s q).

Lemma inv_member : queued (guard_pcs s t) = true → t ∈ q.
Proof. apply (qi_queued _ _ Hinv). Qed.

(** A queued thread that is not waiting is the first. *)
Lemma inv_head : queued (guard_pcs s t) = true →
  (is_owner (guards s t) = true ∨ (guard_pcs s t ≠ AcqSpin ∧ ∀ z, guard_pcs s t ≠ AcqSetNext z)) →
  head q = Some t.
Proof.
  intros Hq Hw. apply inv_member in Hq. destruct Hinv as [_ _ _ _ Hl _ _].
  destruct q as [|h r]; [set_solver|]. apply elem_of_cons in Hq as [->|Hr]; [done|].
  destruct (links_waiting _ _ _ _ _ Hl Hr) as [? [?|[z ?]]];
    destruct Hw as [?|[? Hz]]; try congruence; by destruct (Hz z).
Qed.

Lemma inv_outside :
  only t s s' → queued (guard_pcs s t) = false → queued (guard_pcs s' t) = false →
  (guard_pcs s' t = AcqExchange → guards s' t = new_guard) →
  (guard_pcs s' t = Released → is_owner (guards s' t) = false) →
  qsl_inv s' q.
Proof.
  intros [Htl Hx] Hq Hq' Hf Hrel.
  assert (t ∉ q) as Ht by (rewrite (qi_queued _ _ Hinv); congruence).
  destruct Hinv as [Hnd Hqd Htail Hh Hl Hfr Hre]. split.
  - done.
  - intros x. destruct (decide (x = t)) as [->|Hne]; [split; congruence|].
    destruct (Hx x Hne) as [_ ->]. apply Hqd.
  - congruence.
  - intros h Eh. destruct (Hx h) as [-> ->]; [|by apply Hh].
    intros ->. destruct q; simplify_eq/=; set_solver.
  - destruct q as [|h r]; [done|].
    apply (links_frame (guards s) (guard_pcs s)); [|intros b Hb; apply Hx; set_solver|done].
    destruct (Hx h) as [-> _]; [set_solver|done].
  - intros x. destruct (decide (x = t)) as [->|Hne]; [done|].
    destruct (Hx x Hne) as [-> ->]. apply Hfr.
  - intros x. destruct (decide (x = t)) as [->|Hne]; [done|].
    destruct (Hx x Hne) as [-> ->]. apply Hre.
Qed.

Lemma inv_first :
  only t s s' → head q = Some t → queued (guard_pcs s' t) = true →
  next (guards s' t) = next (guards s t) → head_ok (guards s' t) (guard_pcs s' t) →
  qsl_inv s' q.
Proof.
  intros [Htl Hx] Hh Hq' Hn Hok. destruct q as [|h r]; simplify_eq/=.
  destruct Hinv as [Hnd Hqd Htail _ Hl Hfr Hre]. apply NoDup_cons in Hnd as [Ht Hnd]. split.
  - by apply NoDup_cons.
  - intros x. destruct (decide (x = t)) as [->|Hne]; [set_solver|].
    destruct (Hx x Hne) as [_ ->]. apply Hqd.
  - congruence.
  - intros h Eh. by simplify_eq/=.
  - apply (links_frame (guards s) (guard_pcs s)); [done| |done].
    intros b Hb. apply Hx. set_solver.
  - intros x Ex. destruct (decide (x = t)) as [->|Hne]; [by rewrite Ex in Hq'|].
    destruct (Hx x Hne) as [Eg Ep]. rewrite Eg. apply Hfr. congruence.
  - intros x Ex. destruct (decide (x = t)) as [->|Hne]; [by rewrite Ex in Hq'|].
    destruct (Hx x Hne) as [Eg Ep]. rewrite Eg. apply Hre. congruence.
Qed.
End steps.

Lemma only_at_pc s t p : only t s (at_pc s t p).
Proof. split; [done|]. intros x Hx. simpl. by rewrite upd_ne. Qed.

Lemma only_guard_pc s t g p : only t s (at_pc (with_guard s t g) t p).
Proof. split; [done|]. intros x Hx. simpl. by rewrite !upd_ne. Qed.

(** Joining the queue at its end. *)
Lemma inv_enter s q t :
  qsl_inv s q → guard_pcs s t = AcqExchange →
  qsl_inv (at_pc (with_tail s (Some t)) t
    (match tail_ s with None => AcqSetOwner | Some a => AcqSetNext a end)) (q ++ [t]).
Proof.
  intros Hinv Ht. assert (t ∉ q) as Hin by (rewrite (qi_queued _ _ Hinv), Ht; done).
  destruct Hinv as [Hnd Hqd Htail Hh Hl Hfr Hre]. rewrite Htail. split; simpl.
  - apply NoDup_app. split; [done|]. split; [set_solver|apply NoDup_singleton].
  - intros x. destruct (decide (x = t)) as [->|Hne].
    + rewrite upd_eq. destruct (last q); set_solver.
    + rewrite upd_ne by done. rewrite <- Hqd. set_solver.
  - by rewrite last_snoc.
  - intros h Eh. destruct q as [|h0 r]; simplify_eq/=; [by rewrite upd_eq|].
    rewrite upd_ne by set_solver. by apply Hh.
  - destruct q as [|h r]; [simpl; by rewrite Hfr|]. rewrite <- app_comm_cons.
    destruct (last (h :: r)) as [z|] eqn:Ez; [|by apply last_None in Ez].
    apply links_snoc; auto.
  - intros x. destruct (decide (x = t)) as [->|Hne]; [rewrite upd_eq; by destruct (last q)|].
    rewrite upd_ne by done. apply Hfr.
  - intros x. destruct (decide (x = t)) as [->|Hne]; [rewrite upd_eq; by destruct (last q)|].
    rewrite upd_ne by done. apply Hre.
Qed.

(** Linking behind the ancestor. *)
Lemma inv_set_next s q t a :
  qsl_inv s q → guard_pcs s t = AcqSetNext a →
  qsl_inv (at_pc (with_guard s a (SetNext t (guards s a))) t AcqSpin) q.
Proof.
  intros Hinv Ht. assert (t ∈ q) as Hin by (by apply (inv_member _ _ _ Hinv); rewrite Ht).
  destruct Hinv as [Hnd Hqd Htail Hh Hl Hfr Hre].
  destruct q as [|h r]; [set_solver|].
  assert (t ≠ h) as Hth. { intros ->. specialize (Hh h eq_refl). by rewrite Ht in Hh. }
  destruct (links_set_next _ _ _ _ a t Hl Hnd) as (Hl' & Ha & Hna & _); [set_solver|done|].
  split; simpl; try done.
  - intros x. destruct (decide (x = t)) as [->|Hne]; [rewrite upd_eq; set_solver|].
    by rewrite upd_ne, <- Hqd.
  - intros h' [= <-]. specialize (Hh h eq_refl). rewrite (upd_ne (guard_pcs s)) by done.
    destruct (decide (a = h)) as [->|Hne]; [|by rewrite upd_ne].
    rewrite upd_eq. destruct (guard_pcs s h); simpl in *; naive_solver.
  - intros x. destruct (decide (x = t)) as [->|Hne]; [by rewrite upd_eq|].
    rewrite upd_ne by done. intros Hx. rewrite upd_ne; [by apply Hfr|].
    intros ->. apply Hqd in Ha. by rewrite Hx in Ha.
  - intros x. destruct (decide (x = t)) as [->|Hne]; [by rewrite upd_eq|].
    rewrite upd_ne by done. intros Hx. rewrite upd_ne; [by apply Hre|].
    intros ->. apply Hqd in Ha. by rewrite Hx in Ha.
Qed.

(** Passing the lock to the second guard. *)
Lemma inv_pass s q t n e :
  qsl_inv s q → guard_pcs s t = RelSetOwner n e →
  ∃ r, q = t :: n :: r ∧
    qsl_inv (at_pc (with_guard s n (SetOwner (guards s n))) t (RelClear e)) (n :: r).
Proof.
  intros Hinv Ht.
  assert (head q = Some t) as Hq.
  { apply (inv_head s q t Hinv); rewrite Ht; [done|]. right. naive_solver. }
  destruct Hinv as [Hnd Hqd Htail Hh Hl Hfr Hre]. specialize (Hh t Hq). rewrite Ht in Hh.
  destruct Hh as [Ho Hn]. destruct q as [|h [|b r]]; simplify_eq/=.
  destruct Hl as (Hob & [[Hb Hpb]|[? ?]] & Hlr); [|congruence].
  assert (b = n) as -> by congruence. exists r. split; [done|].
  apply NoDup_cons in Hnd as [Htn Hnd]. split; simpl.
  - done.
  - intros x. destruct (decide (x = t)) as [->|Hne]; [rewrite upd_eq; set_solver|].
    rewrite upd_ne, <- Hqd by done. set_solver.
  - done.
  - intros h [= <-]. rewrite (upd_ne (guard_pcs s)) by set_solver. by rewrite upd_eq, Hpb.
  - apply (links_frame (guards s) (guard_pcs s)); [by rewrite upd_eq| |done].
    intros x Hx. apply NoDup_cons in Hnd as [Hnr _]. rewrite !upd_ne; set_solver.
  - intros x. destruct (decide (x = t)) as [->|Hne]; [by rewrite upd_eq|].
    rewrite upd_ne by done. intros Hx. rewrite upd_ne; [by apply Hfr|]. intros ->. congruence.
  - intros x. destruct (decide (x = t)) as [->|Hne]; [by rewrite upd_eq|].
    rewrite upd_ne by done. intros Hx. rewrite upd_ne; [by apply Hre|]. intros ->. congruence.
Qed.

(** Leaving the queue empty. *)
Lemma inv_leave s q t e :
  qsl_inv s q → guard_pcs s t = RelCas e → tail_ s = Some t →
  q = [t] ∧ qsl_inv (at_pc (with_tail s None) t (RelClear e)) [].
Proof.
  intros Hinv Ht Hl.
  assert (head q = Some t) as Hq.
  { apply (inv_head s q t Hinv); rewrite Ht; [done|]. right. naive_solver. }
  destruct Hinv as [Hnd Hqd Htail Hh _ Hfr Hre]. rewrite Hl in Htail.
  assert (q = [t]) as ->.
  { destruct q as [|h r]; simplify_eq/=. destruct r as [|b r]; [done|].
    apply NoDup_cons in Hnd as [Hn _]. destruct Hn. by apply last_Some_elem_of. }
  split; [done|]. split; simpl; try done; [constructor|..].
  - intros x. destruct (decide (x = t)) as [->|Hne]; [rewrite upd_eq; set_solver|].
    rewrite upd_ne, <- Hqd by done. set_solver.
  - intros x. destruct (decide (x = t)) as [->|Hne]; [by rewrite upd_eq|].
    rewrite upd_ne by done. apply Hfr.
  - intros x. destruct (decide (x = t)) as [->|Hne]; [by rewrite upd_eq|].
    rewrite upd_ne by done. apply Hre.
Qed.

(** ** The lock simulates the FIFO lock *)

(** A step that leaves the queue as it is. *)
Lemma rel_stutter s s' a t :
  qsl_rel s a → qsl_inv s' (fl_queue a) →
  (∀ x, x ≠ t → guard_pcs s' x = guard_pcs s x) →
  holds (guard_pcs s' t) = holds (guard_pcs s t) →
  ∃ tr a', run fifo_lock tr a = Some a' ∧ qsl_rel s' a'.
Proof.
  intros [_ Ho] Hinv Hx Ht. exists [], a. split; [done|]. split; [done|]. rewrite Ho.
  destruct (head (fl_queue a)) as [h|]; [|done].
  destruct (decide (h = t)) as [->|Hne]; [done|]. by rewrite Hx.
Qed.

(** The first waiter starts to own. *)
Lemma rel_own s s' a t :
  qsl_rel s a → qsl_inv s' (fl_queue a) → head (fl_queue a) = Some t →
  holds (guard_pcs s t) = false → holds (guard_pcs s' t) = true →
  ∃ tr a', run fifo_lock tr a = Some a' ∧ qsl_rel s' a'.
Proof.
  intros [_ Ho] Hinv Hh H1 H2. rewrite Hh in Ho.
  exists [Own t], (FifoState (fl_queue a) true). simpl.
  rewrite decide_True by (split; congruence). split; [done|]. split; simpl; [done|].
  by rewrite Hh, H2.
Qed.

(** The owner leaves. *)
Lemma rel_exit s s' a t r :
  qsl_rel s a → fl_queue a = t :: r → holds (guard_pcs s t) = true → qsl_inv s' r →
  match head r with Some h => holds (guard_pcs s' h) = false | None => True end →
  ∃ tr a', run fifo_lock tr a = Some a' ∧ qsl_rel s' a'.
Proof.
  intros [_ Ho] Hq Ht Hinv Hr. rewrite Hq in Ho. simpl in Ho.
  exists [Exit t], (FifoState r false). simpl. rewrite Hq. simpl.
  rewrite decide_True by (split; congruence). split; [done|]. split; simpl; [done|].
  by destruct (head r).
Qed.

Lemma inv_same s q t : qsl_inv s q → qsl_inv (at_pc s t (guard_pcs s t)) q.
Proof.
  assert (∀ x, (guard_pcs s)⟦t ↦ guard_pcs s t⟧ x = guard_pcs s x) as E.
  { intros x. upd_cases; done. }
  intros [Hnd Hqd Htail Hh Hl Hfr Hre]. split; simpl; try setoid_rewrite E; try done.
  destruct q as [|h r]; [done|]. by apply (links_frame (guards s) (guard_pcs s)).
Qed.

Ltac pcs_other := let x := fresh in intros x ?; simpl; rewrite ?upd_ne by done; done.

Lemma acquire_simulated s a t s' :
  qsl_rel s a → Acquire_step t s = Some s' →
  ∃ tr a', run fifo_lock tr a = Some a' ∧ qsl_rel s' a'.
Proof.
  intros Hrel Hstep. pose proof (proj1 Hrel) as Hinv. unfold Acquire_step in Hstep.
  destruct (guard_pcs s t) eqn:Et; simplify_eq.
  - assert (t ∉ fl_queue a) as Hin by (rewrite (qi_queued _ _ Hinv), Et; done).
    exists [Enter t], (FifoState (fl_queue a ++ [t]) (fl_owned a)). simpl.
    rewrite decide_False by done. split; [done|]. split; [by apply inv_enter|]. simpl.
    rewrite (proj2 Hrel). destruct (fl_queue a) as [|h r] eqn:Eq; simpl.
    + rewrite upd_eq. by rewrite (qi_tail _ _ Hinv).
    + rewrite upd_ne by set_solver. done.
  - assert (head (fl_queue a) = Some t) as Hh.
    { apply (inv_head _ _ _ Hinv); rewrite Et; [done|]. right. naive_solver. }
    apply (rel_own s _ a t); [done| |done|by rewrite Et|simpl; by rewrite upd_eq].
    apply (inv_first s _ _ t); [done|apply only_guard_pc|done|..]; simpl; by rewrite !upd_eq.
  - apply (rel_stutter s _ a t); [done|by apply inv_set_next|pcs_other|].
    simpl. by rewrite upd_eq, Et.
  - destruct (is_owner (guards s t)) eqn:Eo.
    + assert (head (fl_queue a) = Some t) as Hh.
      { apply (inv_head _ _ _ Hinv); rewrite Et; auto. }
      apply (rel_own s _ a t); [done| |done|by rewrite Et|simpl; by rewrite upd_eq].
      apply (inv_first s _ _ t); [done|apply only_at_pc|done|..]; simpl; by rewrite ?upd_eq.
    + apply (rel_stutter s _ a t); [done| |pcs_other|simpl; by rewrite upd_eq, Et].
      rewrite <- Et. by apply inv_same.
Qed.

(** A step of the owner that keeps the lock. *)
Lemma owner_simulated s a t p :
  qsl_rel s a → holds (guard_pcs s t) = true → holds p = true →
  (head_ok (guards s t) (guard_pcs s t) → head_ok (guards s t) p) →
  ∃ tr a', run fifo_lock tr a = Some a' ∧ qsl_rel (at_pc s t p) a'.
Proof.
  intros Hrel Ht Hp Hok. pose proof (proj1 Hrel) as Hinv.
  assert (head (fl_queue a) = Some t) as Hh.
  { apply (inv_head _ _ _ Hinv); [by destruct (guard_pcs s t)|].
    right. by destruct (guard_pcs s t). }
  apply (rel_stutter s _ a t); [done| |pcs_other|simpl; by rewrite upd_eq, Ht, Hp].
  apply (inv_first s _ _ t); [done|apply only_at_pc|done|..]; simpl; rewrite ?upd_eq; try done.
  - by destruct p.
  - apply Hok. by apply (qi_head _ _ Hinv).
Qed.

Lemma release_simulated s a t b s' :
  qsl_rel s a → Release_step t b s = Some s' →
  ∃ tr a', run fifo_lock tr a = Some a' ∧ qsl_rel s' a'.
Proof.
  intros Hrel Hstep. pose proof (proj1 Hrel) as Hinv. unfold Release_step in Hstep.
  destruct (guard_pcs s t) as [| | | | | |e|e|n e|e|e|e|] eqn:Et; simplify_eq.
  - apply owner_simulated; rewrite ?Et; try done; [by destruct (HasNext (guards s t))|].
    unfold HasNext. by destruct (next (guards s t)) eqn:En; simpl; rewrite ?En.
  - destruct (next (guards s t)) as [n|] eqn:En; simplify_eq/=.
    apply owner_simulated; rewrite ?Et; try done. simpl. tauto.
  - destruct (inv_pass s _ t n e Hinv Et) as (r & Hq & Hinv').
    apply (rel_exit s _ a t (n :: r)); [done|done|by rewrite Et|done|]. simpl.
    rewrite upd_ne.
    + assert (n ∈ n :: r) as Hn%(qi_queued _ _ Hinv') by set_solver. simpl in Hn.
      pose proof (qi_links _ _ Hinv) as Hl. rewrite Hq in Hl. destruct Hl as (_ & Hl & _).
      by destruct Hl as [[_ ->]|[_ ->]].
    + pose proof (qi_nodup _ _ Hinv) as Hnd. rewrite Hq in Hnd.
      apply NoDup_cons in Hnd as [Hnd _]. set_solver.
  - destruct (negb b && bool_decide (tail_ s = Some t)) eqn:Ec; simplify_eq.
    + apply andb_true_iff in Ec as [_ Ec%bool_decide_eq_true].
      destruct (inv_leave s _ t e Hinv Et Ec) as [Hq Hinv'].
      by apply (rel_exit s _ a t []); rewrite ?Et.
    + by apply owner_simulated; rewrite ?Et.
  - apply owner_simulated; rewrite ?Et; try done; [by destruct (HasNext (guards s t))|].
    unfold HasNext. by destruct (next (guards s t)) eqn:En; simpl; rewrite ?En.
  - apply (rel_stutter s _ a t); [done| |pcs_other|simpl; rewrite upd_eq, Et; by destruct e].
    apply (inv_outside s _ _ t); [done|apply only_guard_pc|by rewrite Et|..];
      simpl; rewrite !upd_eq; by destruct e.
Qed.

Lemma queue_spin_lock_simulates : simulation queue_spin_lock fifo_lock qsl_rel.
Proof.
  split.
  - intros s [Ht Hp]. exists (FifoState [] false). split; [done|]. split; [|done].
    split; simpl; try done; [constructor|..]; intros t; rewrite Hp; set_solver.
  - intros l s s' a Hrel Hstep. pose proof (proj1 Hrel) as Hinv. simpl in Hstep.
    destruct l as [t|t|t|t b]; simpl in Hstep.
    + destruct (guard_pcs s t) eqn:Et; simplify_eq.
      apply (rel_stutter s _ a t); [done| |pcs_other|simpl; by rewrite upd_eq, Et].
      apply (inv_outside s _ _ t); [done|apply only_guard_pc|by rewrite Et|..];
        simpl; by rewrite !upd_eq.
    + destruct (guard_pcs s t) eqn:Et; simplify_eq. by apply owner_simulated; rewrite ?Et.
    + destruct (guard_pcs s t) eqn:Et; simplify_eq.
      * destruct (is_owner (guards s t)) eqn:Eo; [by apply owner_simulated; rewrite ?Et|].
        exfalso. assert (head (fl_queue a) = Some t) as Hh.
        { apply (inv_head _ _ _ Hinv); rewrite Et; [done|]. right. naive_solver. }
        pose proof (qi_head _ _ Hinv t Hh) as Hok. rewrite Et in Hok. simpl in Hok. congruence.
      * rewrite (qi_released _ _ Hinv t Et).
        apply (rel_stutter s _ a t); [done| |pcs_other|simpl; by rewrite upd_eq, Et].
        apply (inv_outside s _ _ t); [done|apply only_at_pc|by rewrite Et|..];
          simpl; by rewrite !upd_eq.
    + destruct (guard_pcs s t) eqn:Et;
        first [by eapply acquire_simulated | by eapply release_simulated].
Qed.

(** The owner of the FIFO lock is the holder. *)
Lemma qsl_owner s a t : qsl_rel s a → fifo_owner a = Some t ↔ holds (guard_pcs s t) = true.
Proof.
  intros [Hinv Ho]. unfold fifo_owner. split.
  - destruct (fl_owned a) eqn:E; [|done]. intros Hh. by rewrite Hh in Ho.
  - intros Ht. assert (head (fl_queue a) = Some t) as Hh.
    { apply (inv_head _ _ _ Hinv); [by destruct (guard_pcs s t)|].
      right. by destruct (guard_pcs s t). }
    rewrite Hh, Ht in Ho. by rewrite Ho.
Qed.

#[export] Instance queue_spin_lock_impl : LockImpl QueueSpinLock guard_label := {
  lk_sys := queue_spin_lock;
  lk_holds := λ s t, holds (guard_pcs s t) = true
}.

#[export] Program Instance queue_spin_lock_laws : LockLaws QueueSpinLock guard_label := {
  lk_rel := λ s o, ∃ a, qsl_rel s a ∧ fifo_wf a ∧ fifo_owner a = o;
  lk_simulates := simulation_trans _ _ _ _ _ queue_spin_lock_simulates fifo_lock_simulates
}.
Next Obligation. intros s o t (a & Hr & _ & <-). by rewrite (qsl_owner s a t Hr). Qed.

Lemma qsl_reachable s : reachable queue_spin_lock s → ∃ a, reachable fifo_lock a ∧ qsl_rel s a.
Proof. apply (sim_reachable _ _ _ queue_spin_lock_simulates). Qed.

(** ** Properties *)

(** C1: [QueueSpinLock] is a fair lock: every state reached by any number of threads
    constructing, releasing and destroying guards is a state of the abstract
    first-come first-served lock, whose queue is exactly the guards between their
    exchange of [tail_] and the passing on of the lock, whose owner is the only
    thread in the critical section; steps only append to that queue, let its
    first thread own, or remove that owner. *)
Theorem queue_spin_lock_refines_fifo :
  simulation queue_spin_lock fifo_lock qsl_rel ∧
  ∀ s, reachable queue_spin_lock s → ∃ a, reachable fifo_lock a ∧ qsl_rel s a ∧
    (∀ t, t ∈ fl_queue a ↔ queued (guard_pcs s t) = true) ∧
    (∀ t, holds (guard_pcs s t) = true ↔ fifo_owner a = Some t).
Proof.
  split; [exact queue_spin_lock_simulates|]. intros s Hs.
  destruct (qsl_reachable s Hs) as (a & Ha & Hrel). exists a. split; [done|]. split; [done|].
  split; [apply (qi_queued _ _ (proj1 Hrel))|]. intros t. by rewrite (qsl_owner s a t Hrel).
Qed.

(** C27: no access to a dead guard: the ancestor a thread is about to link itself
    to, and the successor an owner is about to hand the lock to, are guards whose
    lifetime has not ended, and the successor pointer is never null when
    [SetNextOwner] loads it. *)
Theorem queue_spin_lock_memory_safe (s : QueueSpinLock) (t : tid)
    (Hs : reachable queue_spin_lock s) :
  match guard_pcs s t with
  | AcqSetNext a => a ≠ t ∧ queued (guard_pcs s a) = true
  | RelLoadNext _ => HasNext (guards s t) = true
  | RelSetOwner n _ => n ≠ t ∧ guard_pcs s n = AcqSpin
  | _ => True
  end.
Proof.
  destruct (qsl_reachable s Hs) as (a & _ & [Hinv _]).
  destruct (guard_pcs s t) as [| | |z| | |e|e|n e|e|e|e|] eqn:Et; try done.
  - assert (t ∈ fl_queue a) as Hin by (by apply (inv_member _ _ _ Hinv); rewrite Et).
    destruct (fl_queue a) as [|h r] eqn:Eq; [set_solver|].
    apply elem_of_cons in Hin as [->|Hin].
    { pose proof (qi_head _ _ Hinv h eq_refl) as Hh. by rewrite Et in Hh. }
    pose proof (qi_nodup _ _ Hinv) as Hnd. pose proof (qi_links _ _ Hinv) as Hl.
    destruct (links_set_next _ _ _ _ z t Hl Hnd Hin Et) as (_ & Hz & _ & Hzt).
    split; [done|by apply (qi_queued _ _ Hinv)].
  - assert (head (fl_queue a) = Some t) as Hh.
    { apply (inv_head _ _ _ Hinv); rewrite Et; [done|]. right. naive_solver. }
    pose proof (qi_head _ _ Hinv t Hh) as Hok. rewrite Et in Hok. unfold HasNext.
    destruct Hok as [_ Hok]. by destruct (next (guards s t)).
  - destruct (inv_pass s _ t n e Hinv Et) as (r & Hq & _).
    pose proof (qi_links _ _ Hinv) as Hl. pose proof (qi_nodup _ _ Hinv) as Hnd.
    rewrite Hq in Hl, Hnd. apply NoDup_cons in Hnd as [Hnd _].
    destruct Hl as (_ & [[_ Hl]|[Hl _]] & _); [set_solver|].
    pose proof (qi_head _ _ Hinv t) as Hh. rewrite Hq, Et in Hh. destruct (Hh eq_refl). congruence.
Qed.

(** Three threads: 1 holds, 2 is linked behind it, 3 has not linked itself yet. *)
Definition qsl_demo : list guard_label :=
  [NewGuard 1; NewGuard 2; GuardStep 1 false; GuardStep 1 false; GuardStep 2 false;
   GuardStep 2 false; NewGuard 3; GuardStep 3 false; DestroyGuard 1; GuardStep 1 false;
   GuardStep 1 false].

Definition qsl_after (tr : list guard_label) : QueueSpinLock :=
  match run queue_spin_lock tr qsl_init with Some s => s | None => qsl_init end.

Lemma qsl_demo_reachable : reachable queue_spin_lock (qsl_after qsl_demo).
Proof. exists qsl_init, qsl_demo. split; [by split|reflexivity]. Qed.

Theorem queue_spin_lock_memory_safe_witness :
  guard_pcs (qsl_after qsl_demo) 1 = RelSetOwner 2 false ∧
  2 ≠ 1 ∧ guard_pcs (qsl_after qsl_demo) 2 = AcqSpin.
Proof.
  split; [reflexivity|].
  exact (queue_spin_lock_memory_safe (qsl_after qsl_demo) 1 qsl_demo_reachable).
Defined.

(** C28: no deadlock in the lock itself: a thread inside [Acquire] or [Release] is
    never blocked; while the queue of guards is not empty its first thread is in
    the critical section or enters it with one step of its own; and an owner
    whose compare-exchange keeps failing waits for a successor that is one step
    from linking itself. *)
Theorem queue_spin_lock_progress (s : QueueSpinLock) (Hs : reachable queue_spin_lock s) :
  (∀ t b, guard_pcs s t ∉ [Outside; Held; Released] →
    ∃ s', guard_step (GuardStep t b) s = Some s') ∧
  (∃ a, qsl_rel s a ∧ ∀ h, head (fl_queue a) = Some h →
    (holds (guard_pcs s h) = true ∨
     ∃ s', guard_step (GuardStep h false) s = Some s' ∧ guard_pcs s' h = Held) ∧
    (∀ e, guard_pcs s h = RelCas e → tail_ s ≠ Some h → HasNext (guards s h) = false →
      ∃ n, guard_pcs s n = AcqSetNext h)).
Proof.
  destruct (qsl_reachable s Hs) as (a & _ & [Hinv Ho]). split.
  - intros t b Ht. simpl. unfold Acquire_step, Release_step.
    destruct (guard_pcs s t) as [| | |z| | |e|e|n e|e|e|e|] eqn:Et; try set_solver; eauto.
    + assert (head (fl_queue a) = Some t) as Hh.
      { apply (inv_head _ _ _ Hinv); rewrite Et; [done|]. right. naive_solver. }
      pose proof (qi_head _ _ Hinv t Hh) as Hok. rewrite Et in Hok.
      destruct Hok as [_ Hok]. destruct (next (guards s t)) eqn:En; [simpl; eauto|done].
    + destruct (negb b && bool_decide (tail_ s = Some t)); eauto.
  - exists a. split; [done|]. intros h Hh. pose proof (qi_head _ _ Hinv h Hh) as Hok. split.
    + destruct (guard_pcs s h) eqn:Eh; simpl in *; rewrite ?Eh; try tauto; right;
        unfold Acquire_step; rewrite Eh, ?Hok; eexists; split; try done; simpl; by rewrite upd_eq.
    + intros e He Ht Hn. pose proof (qi_tail _ _ Hinv) as Htl. pose proof (qi_links _ _ Hinv) as Hl.
      destruct (fl_queue a) as [|h0 [|b r]]; simplify_eq/=. destruct Hl as (_ & [[Hb _]|[_ Hb]] & _).
      * unfold HasNext in Hn. by rewrite Hb in Hn.
      * eauto.
Qed.

Theorem queue_spin_lock_progress_witness :
  (∀ t b, guard_pcs (qsl_after qsl_demo) t ∉ [Outside; Held; Released] →
    ∃ s', guard_step (GuardStep t b) (qsl_after qsl_demo) = Some s') ∧
  (∃ a, qsl_rel (qsl_after qsl_demo) a ∧ ∀ h, head (fl_queue a) = Some h →
    (holds (guard_pcs (qsl_after qsl_demo) h) = true ∨
     ∃ s', guard_step (GuardStep h false) (qsl_after qsl_demo) = Some s' ∧
       guard_pcs s' h = Held) ∧
    (∀ e, guard_pcs (qsl_after qsl_demo) h = RelCas e → tail_ (qsl_after qsl_demo) ≠ Some h →
      HasNext (guards (qsl_after qsl_demo) h) = false →
      ∃ n, guard_pcs (qsl_after qsl_demo) n = AcqSetNext h)).
Proof. exact (queue_spin_lock_progress (qsl_after qsl_demo) qsl_demo_reachable). Defined.
