(* ===== verification/Parking.v ===== *)
(** * The suspension protocol of the fiber primitives

    [AsyncMutex], [WaitGroup] and [Event] (fiber/sync) share one protocol, kept
    apart from what each does under its lock:

    - an operation constructs a guard on the primitive's spinlock, on the fiber's
      stack, and runs its body under it ([crit], the parameter);
    - to wait, it calls [Suspend] with an awaiter on its stack: control returns to
      the worker thread inside [AwaiterFiber::Run], which calls the awaiter's
      [AwaitSuspend]: park the waiter, then release the guard -- first the
      spinlock, then, by a separate store, the guard's ownership flag;
    - a wake-up submits the fiber to its executor ([Schedule]); when a worker runs
      it, the operation returns and the guard's destructor runs, which releases
      the spinlock once more if the ownership flag still says so.

    The worker that executes [AwaitSuspend] and the fiber it has suspended are two
    threads of control.  Whether an executor may resume the fiber on another
    worker before [AwaitSuspend] has returned is the parameter [affine]: [true] for
    executors that run a fiber on one worker only (the manual executor, and
    [DistributedPool], whose tasks stick to the worker that first ran them),
    [false] for [IntrusiveThreadPool].  PoolFibers.v proves it of [DistributedPool], and
    ThreadPoolFibers.v of one worker of [IntrusiveThreadPool], and of two the opposite.

    The spinlock is the abstract lock of [Lock.v], which both implementations
    refine; the data and the list of waiters are touched only under it. *)

From stdpp Require Import prelude list.
From S2P Require Import Prelude.
From S2P Require Import Lock.

(** What the body of an operation decides: suspend, or leave, waking the waiters
    of the first list before the guard's destructor and those of the second after
    it. *)
Inductive verdict := Park | Leave (inside outside : list tid).

(** Where a fiber is in an operation. *)
Inductive fiber_pc (Op : Type) :=
| Out                                          (** in the client's code *)
| Ctor (op : Op)                               (** constructing the guard *)
| Crit (op : Op)                               (** about to run the body *)
| Susp (op : Op)                               (** suspended by [Suspend(&waiter)] *)
| WakeIn (op : Op) (inside outside : list tid) (** waking under the guard *)
| Dtor (op : Op) (outside : list tid)          (** the guard's destructor *)
| Rel (op : Op) (outside : list tid)           (** its [Release]: release the spinlock *)
| Clr (op : Op) (outside : list tid)           (** its [Release]: clear the flag *)
| Wake (op : Op) (outside : list tid)          (** waking after the guard is gone *)
| Broken.                                      (** released a spinlock it does not own *)
Arguments Out {Op}.
Arguments Ctor {Op} _.
Arguments Crit {Op} _.
Arguments Susp {Op} _.
Arguments WakeIn {Op} _ _ _.
Arguments Dtor {Op} _ _.
Arguments Rel {Op} _ _.
Arguments Clr {Op} _ _.
Arguments Wake {Op} _ _.
Arguments Broken {Op}.

(** Where the worker that suspended the fiber is, inside [AwaitSuspend]. *)
Inductive worker_pc := WNone | WPark | WRelease | WClear | WBroken.

Record fiber (Op U : Type) := MkFiber {
  fb_pc : fiber_pc Op;
  fb_worker : worker_pc;
  fb_is_owner : bool;       (** the guard's ownership flag *)
  fb_scheduled : nat;       (** submissions to the executor not yet run *)
  fb_client : U             (** the client's state between operations *)
}.
Arguments MkFiber {Op U} _ _ _ _ _.
Arguments fb_pc {Op U} _.
Arguments fb_worker {Op U} _.
Arguments fb_is_owner {Op U} _.
Arguments fb_scheduled {Op U} _.
Arguments fb_client {Op U} _.

Record parking (D Op U : Type) := MkParking {
  pk_spin : option tid;     (** [spinlock_] *)
  pk_data : D;              (** the primitive's own fields *)
  pk_waiters : list tid;    (** the intrusive list of waiters *)
  pk_fibers : tid → fiber Op U
}.
Arguments MkParking {D Op U} _ _ _ _.
Arguments pk_spin {D Op U} _.
Arguments pk_data {D Op U} _.
Arguments pk_waiters {D Op U} _.
Arguments pk_fibers {D Op U} _.

Inductive park_label (Op : Type) :=
| CallOp (f : tid) (op : Op)
| FiberStep (f : tid)
| WorkerStep (f : tid)
| Resume (f : tid).
Arguments CallOp {Op} _ _.
Arguments FiberStep {Op} _.
Arguments WorkerStep {Op} _.
Arguments Resume {Op} _.

(** What a primitive supplies: the body of each operation, on its fields and the
    waiters; which operations a client may call, and the client's state after. *)
Class Primitive (D Op U : Type) := {
  crit : Op → D → list tid → D * list tid * verdict;
  client_may : Op → U → bool;
  client_after : Op → U → U;
  data0 : D → Prop;
  client0 : U
}.

Section protocol.
  Context {D Op U : Type} `{Primitive D Op U} (affine : bool).
  Implicit Types (s : parking D Op U) (fb : fiber Op U).

Definition set_fb_pc fb (p : fiber_pc Op) : fiber Op U :=
  MkFiber p (fb_worker fb) (fb_is_owner fb) (fb_scheduled fb) (fb_client fb).

Definition set_fb_worker fb (w : worker_pc) : fiber Op U :=
  MkFiber (fb_pc fb) w (fb_is_owner fb) (fb_scheduled fb) (fb_client fb).

Definition set_fb_owner fb (b : bool) : fiber Op U :=
  MkFiber (fb_pc fb) (fb_worker fb) b (fb_scheduled fb) (fb_client fb).

Definition set_fb_scheduled fb (n : nat) : fiber Op U :=
  MkFiber (fb_pc fb) (fb_worker fb) (fb_is_owner fb) n (fb_client fb).

Definition set_fb_client fb (u : U) : fiber Op U :=
  MkFiber (fb_pc fb) (fb_worker fb) (fb_is_owner fb) (fb_scheduled fb) u.

Definition with_fiber s (f : tid) fb : parking D Op U :=
  MkParking (pk_spin s) (pk_data s) (pk_waiters s) (pk_fibers s)⟦f ↦ fb⟧.

Definition with_spin s (o : option tid) : parking D Op U :=
  MkParking o (pk_data s) (pk_waiters s) (pk_fibers s).

Definition with_list s (d : D) (ws : list tid) : parking D Op U :=
  MkParking (pk_spin s) d ws (pk_fibers s).

(** [StoppedFiber::Schedule]: submit the fiber to its executor. *)
Definition Schedule (w : tid) s : parking D Op U :=
  let fb := pk_fibers s w in with_fiber s w (set_fb_scheduled fb (S (fb_scheduled fb))).

(** Calling an operation: the guard's flag is initialised. *)
Definition call_step (f : tid) (op : Op) s : option (parking D Op U) :=
  let fb := pk_fibers s f in
  match fb_pc fb with
  | Out =>
      if client_may op (fb_client fb)
      then Some (with_fiber s f (set_fb_owner (set_fb_pc fb (Ctor op)) false))
      else None
  | _ => None
  end.

(** The fiber's own code. *)
Definition fiber_step (f : tid) s : option (parking D Op U) :=
  let fb := pk_fibers s f in
  match fb_pc fb with
  | Ctor op =>
      o ← acquire f (pk_spin s);
      Some (with_fiber (with_spin s o) f (set_fb_owner (set_fb_pc fb (Crit op)) true))
  | Crit op =>
      let '(d, ws, v) := crit op (pk_data s) (pk_waiters s) in
      match v with
      | Park => Some (with_fiber (with_list s d ws) f (set_fb_worker (set_fb_pc fb (Susp op)) WPark))
      | Leave i o => Some (with_fiber (with_list s d ws) f (set_fb_pc fb (WakeIn op i o)))
      end
  | WakeIn op i o =>
      match i with
      | [] => Some (with_fiber s f (set_fb_pc fb (Dtor op o)))
      | w :: i' => Some (Schedule w (with_fiber s f (set_fb_pc fb (WakeIn op i' o))))
      end
  | Dtor op o =>
      Some (with_fiber s f (set_fb_pc fb (if fb_is_owner fb then Rel op o else Wake op o)))
  | Rel op o =>
      match release f (pk_spin s) with
      | Some l => Some (with_fiber (with_spin s l) f (set_fb_pc fb (Clr op o)))
      | None => Some (with_fiber s f (set_fb_pc fb Broken))
      end
  | Clr op o => Some (with_fiber s f (set_fb_owner (set_fb_pc fb (Wake op o)) false))
  | Wake op o =>
      match o with
      | [] => Some (with_fiber s f (set_fb_client (set_fb_pc fb Out) (client_after op (fb_client fb))))
      | w :: o' => Some (Schedule w (with_fiber s f (set_fb_pc fb (Wake op o'))))
      end
  | _ => None
  end.

(** The worker inside [AwaitSuspend]: park, release the spinlock, clear the flag. *)
Definition AwaitSuspend_step (f : tid) s : option (parking D Op U) :=
  let fb := pk_fibers s f in
  match fb_worker fb with
  | WPark =>
      Some (with_fiber (with_list s (pk_data s) (pk_waiters s ++ [f])) f (set_fb_worker fb WRelease))
  | WRelease =>
      match release f (pk_spin s) with
      | Some l => Some (with_fiber (with_spin s l) f (set_fb_worker fb WClear))
      | None => Some (with_fiber s f (set_fb_worker fb WBroken))
      end
  | WClear => Some (with_fiber s f (set_fb_owner (set_fb_worker fb WNone) false))
  | _ => None
  end.

(** An executor runs the scheduled fiber: [Suspend] returns in it. *)
Definition resume_step (f : tid) s : option (parking D Op U) :=
  let fb := pk_fibers s f in
  match fb_pc fb, fb_scheduled fb with
  | Susp op, S n =>
      if negb affine || (match fb_worker fb with WNone => true | _ => false end)
      then Some (with_fiber s f (set_fb_scheduled (set_fb_pc fb (Dtor op [])) n))
      else None
  | _, _ => None
  end.

Definition park_step (l : park_label Op) s : option (parking D Op U) :=
  match l with
  | CallOp f op => call_step f op s
  | FiberStep f => fiber_step f s
  | WorkerStep f => AwaitSuspend_step f s
  | Resume f => resume_step f s
  end.

Definition new_fiber : fiber Op U := MkFiber Out WNone false 0 client0.

Definition park_init (d : D) : parking D Op U := MkParking None d [] (λ _, new_fiber).

Definition parking_system : lts (parking D Op U) (park_label Op) :=
  Lts (λ s, ∃ d, data0 d ∧ s = park_init d) park_step.

(** ** The invariant *)

(** The waiters a fiber has taken off the list and not scheduled yet. *)
Definition wakes (p : fiber_pc Op) : list tid :=
  match p with
  | WakeIn _ i o => i ++ o
  | Dtor _ o | Rel _ o | Clr _ o | Wake _ o => o
  | _ => []
  end.

Definition suspended fb : bool := match fb_pc fb with Susp _ => true | _ => false end.

(** The fiber, or the worker on its behalf, is under the spinlock. *)
Definition holds_spin fb : bool :=
  match fb_pc fb with
  | Crit _ | WakeIn _ _ _ | Rel _ _ => true
  | Dtor _ _ => fb_is_owner fb
  | Susp _ => match fb_worker fb with WPark | WRelease => true | _ => false end
  | _ => false
  end.

(** The fiber's fields agree with its position. *)
Definition fiber_ok fb : Prop :=
  (match fb_pc fb with
   | Susp _ =>
       match fb_worker fb with
       | WPark => fb_is_owner fb = true ∧ fb_scheduled fb = 0
       | WRelease | WClear => fb_is_owner fb = true
       | WNone => fb_is_owner fb = false
       | WBroken => False
       end
   | Crit _ | WakeIn _ _ _ | Rel _ _ | Clr _ _ => fb_worker fb = WNone ∧ fb_is_owner fb = true
   | Dtor _ _ => fb_worker fb = WNone
   | Out | Ctor _ | Wake _ _ => fb_worker fb = WNone ∧ fb_is_owner fb = false
   | Broken => False
   end) ∧ fb_scheduled fb ≤ (if suspended fb then 1 else 0).

(** A parked fiber: suspended, and its wake-up is not under way. *)
Definition parked fb : Prop :=
  suspended fb = true ∧ fb_worker fb ≠ WPark ∧ fb_scheduled fb = 0.

Record park_inv s : Prop := ParkInv {
  pi_spin : ∀ f, pk_spin s = Some f ↔ holds_spin (pk_fibers s f) = true;
  pi_fiber : ∀ f, fiber_ok (pk_fibers s f);
  pi_nodup : NoDup (pk_waiters s);
  pi_waiters : ∀ f, f ∈ pk_waiters s → parked (pk_fibers s f);
  pi_wakes : ∀ g f, f ∈ wakes (fb_pc (pk_fibers s g)) →
    parked (pk_fibers s f) ∧ f ∉ pk_waiters s;
  pi_wakes_nodup : ∀ g, NoDup (wakes (fb_pc (pk_fibers s g)));
  pi_wakes_one : ∀ g g' f, f ∈ wakes (fb_pc (pk_fibers s g)) →
    f ∈ wakes (fb_pc (pk_fibers s g')) → g = g';
  pi_suspended : ∀ f, suspended (pk_fibers s f) = true →
    fb_worker (pk_fibers s f) = WPark ∨ f ∈ pk_waiters s ∨ fb_scheduled (pk_fibers s f) = 1 ∨
    ∃ g, f ∈ wakes (fb_pc (pk_fibers s g))
}.

(** [s'] differs from [s] at [f] only, and [f] is [fb'] there. *)
Definition moved s s' (f : tid) fb : Prop :=
  pk_fibers s' f = fb ∧ ∀ x, x ≠ f → pk_fibers s' x = pk_fibers s x.

Lemma moved_with_fiber s s1 f fb :
  pk_fibers s1 = pk_fibers s → moved s (with_fiber s1 f fb) f fb.
Proof.
  intros E. split; simpl; [by rewrite upd_eq|]. intros x Hx. by rewrite upd_ne, E.
Qed.

(** ** Who holds the spinlock *)

Lemma spin_keep s s' f fb :
  park_inv s → moved s s' f fb → pk_spin s' = pk_spin s →
  holds_spin fb = holds_spin (pk_fibers s f) →
  ∀ x, pk_spin s' = Some x ↔ holds_spin (pk_fibers s' x) = true.
Proof.
  intros Hinv [Hf Hx] -> Hh x. destruct (decide (x = f)) as [->|Hne].
  - rewrite Hf, Hh. apply Hinv.
  - rewrite Hx by done. apply Hinv.
Qed.

Lemma spin_take s s' f fb :
  park_inv s → moved s s' f fb → pk_spin s = None → pk_spin s' = Some f →
  holds_spin fb = true → ∀ x, pk_spin s' = Some x ↔ holds_spin (pk_fibers s' x) = true.
Proof.
  intros Hinv [Hf Hx] Hs Hs' Hh x. rewrite Hs'. destruct (decide (x = f)) as [->|Hne].
  - by rewrite Hf, Hh.
  - rewrite Hx, <- (pi_spin _ Hinv), Hs by done. split; congruence.
Qed.

Lemma spin_drop s s' f fb :
  park_inv s → moved s s' f fb → pk_spin s = Some f → pk_spin s' = None →
  holds_spin fb = false → ∀ x, pk_spin s' = Some x ↔ holds_spin (pk_fibers s' x) = true.
Proof.
  intros Hinv [Hf Hx] Hs Hs' Hh x. rewrite Hs'. destruct (decide (x = f)) as [->|Hne].
  - by rewrite Hf, Hh.
  - rewrite Hx, <- (pi_spin _ Hinv), Hs by done. split; congruence.
Qed.

(** Under the guard nobody else is about to be parked. *)
Lemma crit_not_parking s f op g : park_inv s → fb_pc (pk_fibers s f) = Crit op →
  fb_worker (pk_fibers s g) ≠ WPark.
Proof.
  intros Hp E Hg. pose proof (pi_spin _ Hp f) as Hf. pose proof (pi_spin _ Hp g) as Hg'.
  pose proof (pi_fiber _ Hp g) as [Hok _]. pose proof (pi_fiber _ Hp f) as [Hok' _].
  unfold holds_spin in *. rewrite E in *. destruct Hok' as [Hok' _].
  assert (pk_spin s = Some f) as Es by (by apply Hf).
  destruct (fb_pc (pk_fibers s g)); try (rewrite ?Hg in Hok; intuition congruence).
  rewrite Hg in Hg'. assert (pk_spin s = Some g) as Es' by (by apply Hg'). congruence.
Qed.

(** ** The kinds of steps *)

(** A step that changes neither the waiters nor who is to be woken. *)
Lemma inv_local s s' f fb :
  park_inv s → moved s s' f fb → pk_waiters s' = pk_waiters s →
  (∀ x, pk_spin s' = Some x ↔ holds_spin (pk_fibers s' x) = true) →
  fiber_ok fb → wakes (fb_pc fb) = wakes (fb_pc (pk_fibers s f)) →
  suspended fb = suspended (pk_fibers s f) →
  (suspended fb = true → fb_worker fb = WPark ↔ fb_worker (pk_fibers s f) = WPark) →
  fb_scheduled fb = fb_scheduled (pk_fibers s f) → park_inv s'.
Proof.
  intros Hinv [Hf Hx] Hw Hspin Hok Hwk Hsu Hpk Hsc.
  assert (∀ g, wakes (fb_pc (pk_fibers s' g)) = wakes (fb_pc (pk_fibers s g))) as Ewk.
  { intros g. destruct (decide (g = f)) as [->|]; [congruence|by rewrite Hx]. }
  assert (∀ g, parked (pk_fibers s g) → parked (pk_fibers s' g)) as Epk.
  { intros g. destruct (decide (g = f)) as [->|]; [|by rewrite Hx].
    rewrite Hf. unfold parked. rewrite Hsu, Hsc. intros (H1 & H2 & H3).
    rewrite Hsu in Hpk. specialize (Hpk H1). tauto. }
  destruct Hinv as [_ Hfo Hnd Hwt Hwa Hwn Hwo Hsus]. split; try done.
  - intros g. destruct (decide (g = f)) as [->|]; [congruence|by rewrite Hx].
  - by rewrite Hw.
  - intros g. rewrite Hw. auto.
  - intros g h. rewrite Ewk, Hw. intros Hin. destruct (Hwa g h Hin). auto.
  - intros g. rewrite Ewk. auto.
  - intros g g' h. rewrite !Ewk. apply Hwo.
  - intros g. rewrite Hw. setoid_rewrite Ewk.
    destruct (decide (g = f)) as [->|]; [|rewrite Hx by done; apply Hsus].
    rewrite Hf, Hsu, Hsc. intros Hs. rewrite Hsu in Hpk. rewrite (Hpk Hs). by apply Hsus.
Qed.

(** Not suspended: nobody is going to wake the fiber. *)
Lemma inv_running s f : park_inv s → suspended (pk_fibers s f) = false →
  f ∉ pk_waiters s ∧ ∀ g, f ∉ wakes (fb_pc (pk_fibers s g)).
Proof.
  intros Hinv Hs. split.
  - intros Hin%(pi_waiters _ Hinv). destruct Hin. congruence.
  - intros g Hin%(pi_wakes _ Hinv). destruct Hin as [[? _] _]. congruence.
Qed.

(** The body decides to suspend. *)
Lemma inv_suspend s s' f fb :
  park_inv s → moved s s' f fb → pk_waiters s' = pk_waiters s →
  (∀ x, pk_spin s' = Some x ↔ holds_spin (pk_fibers s' x) = true) →
  suspended (pk_fibers s f) = false → wakes (fb_pc (pk_fibers s f)) = [] →
  fiber_ok fb → suspended fb = true → fb_worker fb = WPark → park_inv s'.
Proof.
  intros Hinv [Hf Hx] Hw Hspin Hsu0 Hwk0 Hok Hsu Hpk.
  destruct (inv_running s f Hinv Hsu0) as [Hn1 Hn2].
  assert (wakes (fb_pc fb) = []) as Hwk.
  { unfold suspended in Hsu. by destruct (fb_pc fb). }
  assert (∀ g, wakes (fb_pc (pk_fibers s' g)) = wakes (fb_pc (pk_fibers s g))) as Ewk.
  { intros g. destruct (decide (g = f)) as [->|]; [congruence|by rewrite Hx]. }
  destruct Hinv as [_ Hfo Hnd Hwt Hwa Hwn Hwo Hsus]. split; try done.
  - intros g. destruct (decide (g = f)) as [->|]; [congruence|by rewrite Hx].
  - by rewrite Hw.
  - intros g. rewrite Hw. intros Hg. rewrite Hx by congruence. auto.
  - intros g h. rewrite Ewk, Hw. intros Hin.
    rewrite Hx by (intros ->; by apply (Hn2 g)). by apply (Hwa g).
  - intros g. rewrite Ewk. auto.
  - intros g g' h. rewrite !Ewk. apply Hwo.
  - intros g. rewrite Hw. setoid_rewrite Ewk.
    destruct (decide (g = f)) as [->|]; [|rewrite Hx by done; apply Hsus].
    rewrite Hf. auto.
Qed.

(** The body takes waiters off the list, to wake them. *)
Lemma inv_take s s' f fb :
  park_inv s → moved s s' f fb → wakes (fb_pc fb) ++ pk_waiters s' ≡ₚ pk_waiters s →
  (∀ x, pk_spin s' = Some x ↔ holds_spin (pk_fibers s' x) = true) →
  suspended (pk_fibers s f) = false → wakes (fb_pc (pk_fibers s f)) = [] →
  fiber_ok fb → suspended fb = false → park_inv s'.
Proof.
  intros Hinv [Hf Hx] Hw Hspin Hsu0 Hwk0 Hok Hsu.
  destruct (inv_running s f Hinv Hsu0) as [Hn1 Hn2].
  assert (NoDup (wakes (fb_pc fb) ++ pk_waiters s')) as Hnd'.
  { rewrite Hw. apply (pi_nodup _ Hinv). }
  apply NoDup_app in Hnd' as (Hnd1 & Hnd2 & Hnd3).
  assert (∀ x, x ∈ wakes (fb_pc fb) ∨ x ∈ pk_waiters s' ↔ x ∈ pk_waiters s) as Hin.
  { intros x. by rewrite <- Hw, elem_of_app. }
  destruct Hinv as [_ Hfo Hnd Hwt Hwa Hwn Hwo Hsus].
  assert (∀ g x, g ≠ f → x ∈ wakes (fb_pc (pk_fibers s g)) →
    parked (pk_fibers s' x) ∧ x ∉ pk_waiters s' ∧ x ∉ wakes (fb_pc fb)) as Hold.
  { intros g x Hg Hgx. destruct (Hwa g x Hgx) as [Hp Hnw].
    rewrite Hx by (intros ->; by apply (Hn2 g)). specialize (Hin x). tauto. }
  assert (∀ x, x ∈ pk_waiters s → parked (pk_fibers s' x)) as Hpark.
  { intros x Hxw. rewrite Hx by congruence. auto. }
  split; try done.
  - intros g. destruct (decide (g = f)) as [->|]; [congruence|by rewrite Hx].
  - intros g Hg. apply Hpark, Hin. auto.
  - intros g h. destruct (decide (g = f)) as [->|Hg].
    + rewrite Hf. intros Hh. split; [apply Hpark, Hin; auto|by apply Hnd2].
    + rewrite Hx by done. intros Hh. destruct (Hold g h Hg Hh). tauto.
  - intros g. destruct (decide (g = f)) as [->|Hg]; [by rewrite Hf|rewrite Hx by done; auto].
  - intros g g' h. destruct (decide (g = f)) as [->|Hg], (decide (g' = f)) as [->|Hg'];
      rewrite ?Hf, ?(Hx g), ?(Hx g') by done; intros H1 H2; try done.
    + destruct (Hold g' h Hg' H2). tauto.
    + destruct (Hold g h Hg H1). tauto.
    + by eapply Hwo.
  - intros g Hs. destruct (decide (g = f)) as [->|Hg]; [congruence|].
    rewrite Hx in Hs |- * by done. destruct (Hsus g Hs) as [?|[Hgw|[?|[h Hh]]]]; auto.
    + apply Hin in Hgw as [Hgw|Hgw]; auto. right; right; right. exists f. by rewrite Hf.
    + right; right; right. exists h. rewrite Hx; [done|]. intros ->. rewrite Hwk0 in Hh. set_solver.
Qed.

(** The fibers after [f] has scheduled the waiter [w]. *)
Lemma schedule_fibers s f w fb :
  w ≠ f → fb_scheduled (pk_fibers s w) = 0 → ∀ x, pk_fibers (Schedule w (with_fiber s f fb)) x =
    if decide (x = f) then fb else if decide (x = w) then set_fb_scheduled (pk_fibers s w) 1
    else pk_fibers s x.
Proof. intros Hne Hw x. simpl. rewrite (upd_ne _ f w) by done. rewrite Hw. upd_cases; done. Qed.

(** A fiber still to be woken was so before, and is not the one that has been. *)
Lemma schedule_wakes s f w fb :
  park_inv s → wakes (fb_pc (pk_fibers s f)) = w :: wakes (fb_pc fb) → w ≠ f →
  fb_scheduled (pk_fibers s w) = 0 → ∀ g x,
  x ∈ wakes (fb_pc (pk_fibers (Schedule w (with_fiber s f fb)) g)) →
  x ≠ w ∧ x ∈ wakes (fb_pc (pk_fibers s g)).
Proof.
  intros Hinv Hwk Hne Hw g x. rewrite schedule_fibers by done.
  pose proof (pi_wakes_nodup _ Hinv f) as Hnd. rewrite Hwk in Hnd. apply NoDup_cons in Hnd as [Hwn _].
  destruct (decide (g = f)) as [->|Hgf]; [rewrite Hwk; set_solver|]. intros Hin.
  assert (x ∈ wakes (fb_pc (pk_fibers s g))) as Hin' by (by destruct (decide (g = w)) as [->|]).
  split; [|done]. intros ->. destruct Hgf. apply (pi_wakes_one _ Hinv g f w); [done|]. rewrite Hwk. by left.
Qed.

(** A waiter taken off the list is submitted to its executor. *)
Lemma inv_schedule s f w fb :
  park_inv s → wakes (fb_pc (pk_fibers s f)) = w :: wakes (fb_pc fb) →
  fiber_ok fb → suspended fb = false → suspended (pk_fibers s f) = false →
  holds_spin fb = holds_spin (pk_fibers s f) → park_inv (Schedule w (with_fiber s f fb)).
Proof.
  intros Hinv Hwk Hok Hsu Hsu0 Hh.
  assert (w ∈ wakes (fb_pc (pk_fibers s f))) as Hwf by (rewrite Hwk; set_solver).
  destruct (pi_wakes _ Hinv f w Hwf) as [(Hws & Hwp & Hwsc) Hww].
  assert (w ≠ f) as Hne by congruence.
  pose proof (schedule_fibers s f w fb Hne Hwsc) as E.
  pose proof (schedule_wakes s f w fb Hinv Hwk Hne Hwsc) as Hsub.
  pose proof (pi_wakes_nodup _ Hinv f) as Hndf. rewrite Hwk in Hndf.
  apply NoDup_cons in Hndf as [Hwn Hndf].
  assert (∀ x, x ≠ w → parked (pk_fibers s x) →
    parked (pk_fibers (Schedule w (with_fiber s f fb)) x)) as Hpk.
  { intros x Hxw Hp. rewrite E. destruct (decide (x = f)) as [->|]; [|by rewrite decide_False].
    destruct Hp. congruence. }
  destruct Hinv as [Hsp Hfo Hnd Hwt Hwa Hwnd Hwo Hsus]. split.
  - intros x. rewrite E. change (pk_spin (Schedule w (with_fiber s f fb))) with (pk_spin s).
    rewrite Hsp. destruct (decide (x = f)) as [->|]; [by rewrite Hh|].
    destruct (decide (x = w)) as [->|]; done.
  - intros x. rewrite E. destruct (decide (x = f)) as [->|]; [done|].
    destruct (decide (x = w)) as [->|]; [|done]. specialize (Hfo w).
    unfold fiber_ok, suspended in *. simpl. destruct (fb_pc (pk_fibers s w)); try done.
    destruct (fb_worker (pk_fibers s w)); naive_solver lia.
  - done.
  - intros x Hxw. apply Hpk; [intros ->; by apply Hww|by apply Hwt].
  - intros g x Hgx. destruct (Hsub g x Hgx) as [Hxw Hin]. destruct (Hwa g x Hin). auto.
  - intros g. rewrite E. destruct (decide (g = f)) as [->|]; [done|].
    destruct (decide (g = w)) as [->|]; apply Hwnd.
  - intros g g' x H1 H2. apply Hsub in H1 as [_ H1], H2 as [_ H2]. by eapply Hwo.
  - intros x Hs. destruct (decide (x = w)) as [->|Hxw].
    { right; right; left. rewrite E, decide_False, decide_True by done. done. }
    rewrite E in Hs |- *. destruct (decide (x = f)) as [->|Hxf]; [congruence|].
    rewrite decide_False in Hs |- * by done.
    destruct (Hsus x Hs) as [?|[?|[?|[h Hh']]]]; auto. right; right; right. exists h.
    rewrite E. destruct (decide (h = f)) as [->|]; [rewrite Hwk in Hh'; set_solver|].
    destruct (decide (h = w)) as [->|]; done.
Qed.

(** The worker parks the fiber it has suspended. *)
Lemma inv_park s f :
  park_inv s → fb_worker (pk_fibers s f) = WPark →
  park_inv (with_fiber (with_list s (pk_data s) (pk_waiters s ++ [f])) f
    (set_fb_worker (pk_fibers s f) WRelease)).
Proof.
  intros Hinv Hw. set (s' := with_fiber _ _ _). set (fb := set_fb_worker (pk_fibers s f) WRelease).
  assert (moved s s' f fb) as [Hf Hx] by (by apply moved_with_fiber).
  assert (suspended (pk_fibers s f) = true ∧ fb_scheduled (pk_fibers s f) = 0) as [Hs Hsc].
  { pose proof (pi_fiber _ Hinv f) as Hok. unfold fiber_ok, suspended in *.
    destruct (fb_pc (pk_fibers s f)); rewrite ?Hw in Hok; naive_solver. }
  assert (f ∉ pk_waiters s) as Hnw.
  { intros Hin%(pi_waiters _ Hinv). destruct Hin as (_ & ? & _). done. }
  assert (∀ g, f ∉ wakes (fb_pc (pk_fibers s g))) as Hnk.
  { intros g Hin%(pi_wakes _ Hinv). destruct Hin as [(_ & ? & _) _]. done. }
  assert (parked fb) as Hpf by done.
  assert (∀ g, wakes (fb_pc (pk_fibers s' g)) = wakes (fb_pc (pk_fibers s g))) as Ewk.
  { intros g. destruct (decide (g = f)) as [->|]; [by rewrite Hf|by rewrite Hx]. }
  assert (∀ g, parked (pk_fibers s g) → parked (pk_fibers s' g)) as Epk.
  { intros g. destruct (decide (g = f)) as [->|]; [by rewrite Hf|by rewrite Hx]. }
  split.
  - apply (spin_keep s s' f fb Hinv); [by split|done|].
    unfold holds_spin, suspended in *. simpl. destruct (fb_pc (pk_fibers s f)); try done.
    by rewrite Hw.
  - intros g. destruct (decide (g = f)) as [->|]; [|rewrite Hx by done; apply Hinv].
    rewrite Hf. pose proof (pi_fiber _ Hinv f) as Hok. unfold fiber_ok, suspended in *. simpl.
    destruct (fb_pc (pk_fibers s f)); try done. rewrite Hw in Hok. naive_solver.
  - simpl. apply NoDup_app. split; [apply Hinv|]. split; [set_solver|apply NoDup_singleton].
  - intros g Hg. change (g ∈ pk_waiters s ++ [f]) in Hg.
    rewrite elem_of_app, list_elem_of_singleton in Hg. destruct Hg as [Hg| ->]; [|by rewrite Hf].
    by apply Epk, Hinv.
  - intros g h. rewrite Ewk. intros Hin. destruct (pi_wakes _ Hinv g h Hin) as [Hp Hn].
    split; [by apply Epk|]. simpl. rewrite elem_of_app, list_elem_of_singleton.
    intros [?|Hh]; [done|]. subst h. by apply (Hnk g).
  - intros g. rewrite Ewk. apply Hinv.
  - intros g g' h. rewrite !Ewk. apply Hinv.
  - intros g Hsg. setoid_rewrite Ewk. simpl. rewrite elem_of_app, list_elem_of_singleton.
    destruct (decide (g = f)) as [->|]; [auto|].
    change (pk_fibers s' g) with ((pk_fibers s)⟦f ↦ fb⟧ g) in Hsg.
    rewrite upd_ne in Hsg |- * by done. destruct (pi_suspended _ Hinv g Hsg) as [?|[?|[?|?]]]; auto.
Qed.

(** The fiber runs again. *)
Lemma inv_resume s f op fb :
  park_inv s → fb_pc (pk_fibers s f) = Susp op → fb_scheduled (pk_fibers s f) = 1 →
  fb_worker (pk_fibers s f) = WNone → fb = set_fb_scheduled (set_fb_pc (pk_fibers s f) (Dtor op [])) 0 →
  park_inv (with_fiber s f fb).
Proof.
  intros Hinv Hp Hsc Hw ->. set (fb := set_fb_scheduled _ _). set (s' := with_fiber s f fb).
  assert (moved s s' f fb) as Hmv by (by apply moved_with_fiber). pose proof Hmv as [Hf Hx].
  pose proof (pi_fiber _ Hinv f) as Hok. unfold fiber_ok in Hok. rewrite Hp, Hw in Hok.
  destruct Hok as [Ho _].
  assert (f ∉ pk_waiters s) as Hnw.
  { intros Hin%(pi_waiters _ Hinv). destruct Hin as (_ & _ & ?). congruence. }
  assert (∀ g, f ∉ wakes (fb_pc (pk_fibers s g))) as Hnk.
  { intros g Hin%(pi_wakes _ Hinv). destruct Hin as [(_ & _ & ?) _]. congruence. }
  assert (∀ g, wakes (fb_pc (pk_fibers s' g)) = wakes (fb_pc (pk_fibers s g))) as Ewk.
  { intros g. destruct (decide (g = f)) as [->|]; [by rewrite Hf, Hp|by rewrite Hx]. }
  split; try apply Hinv.
  - apply (spin_keep s s' f fb Hinv); try done. unfold holds_spin. simpl. by rewrite Hp, Hw, Ho.
  - intros g. destruct (decide (g = f)) as [->|]; [rewrite Hf|rewrite Hx by done; apply Hinv].
    unfold fiber_ok, fb. simpl. split; [done|lia].
  - intros g Hg. rewrite Hx by (intros ->; done). by apply Hinv.
  - intros g h. rewrite Ewk. intros Hin. destruct (pi_wakes _ Hinv g h Hin).
    rewrite Hx; [done|]. intros ->. by apply (Hnk g).
  - intros g. rewrite Ewk. apply Hinv.
  - intros g g' h. rewrite !Ewk. apply Hinv.
  - intros g. setoid_rewrite Ewk. destruct (decide (g = f)) as [->|]; [by rewrite Hf|].
    rewrite Hx by done. apply Hinv.
Qed.
End protocol.

(** ** The laws of a primitive, and the safety of the protocol *)

(** The body takes the waiters it wakes from the front of the list, in order. *)
Class PrimitiveLaws (D Op U : Type) `{Primitive D Op U} : Prop := {
  crit_waiters : ∀ op d ws d' ws' v, crit op d ws = (d', ws', v) →
    match v with Park => ws' = ws | Leave i o => (i ++ o) ++ ws' = ws end
}.

Section safety.
  Context {D Op U : Type} `{PrimitiveLaws D Op U}.
  Implicit Types (s : parking D Op U).

Lemma park_inv_init d : park_inv (park_init d).
Proof.
  split; simpl; try done; try (intros; constructor); try set_solver.
Qed.

Lemma release_owner f o : o = Some f → release f o = Some None.
Proof. intros ->. simpl. by rewrite decide_True. Qed.

(** Facts about the moving fiber, before the step. *)
Ltac at_fiber Hinv f E :=
  let Hok := fresh "Hok" in let Hsp := fresh "Hsp" in
  pose proof (pi_fiber _ Hinv f) as Hok; pose proof (pi_spin _ Hinv f) as Hsp;
  unfold fiber_ok, holds_spin, suspended in Hok, Hsp; rewrite E in Hok, Hsp; simpl in Hok, Hsp.

Ltac unfold_fiber E := unfold fiber_ok, holds_spin, suspended; simpl; rewrite ?E; simpl.

Lemma ctor_inv s f op :
  park_inv s → fb_pc (pk_fibers s f) = Ctor op → pk_spin s = None →
  park_inv (with_fiber (with_spin s (Some f)) f
    (set_fb_owner (set_fb_pc (pk_fibers s f) (Crit op)) true)).
Proof.
  intros Hinv E Hs. at_fiber Hinv f E.
  eapply (inv_local s _ f); [done|by apply moved_with_fiber|done| |..].
  - by eapply (spin_take s _ f _ Hinv); [apply moved_with_fiber|..].
  - unfold_fiber E. naive_solver.
  - by unfold_fiber E.
  - by unfold_fiber E.
  - by unfold_fiber E.
  - done.
Qed.

Lemma crit_inv s f op s' :
  park_inv s → fb_pc (pk_fibers s f) = Crit op → fiber_step f s = Some s' → park_inv s'.
Proof.
  intros Hinv E Hstep. at_fiber Hinv f E. unfold fiber_step in Hstep. rewrite E in Hstep.
  destruct (crit op (pk_data s) (pk_waiters s)) as [[d ws] v] eqn:Ec.
  apply crit_waiters in Ec. destruct v as [|i o]; simplify_eq.
  - eapply (inv_suspend s _ f); [done|by apply moved_with_fiber|done| |..].
    + eapply (spin_keep s _ f _ Hinv); [by apply moved_with_fiber|done|by unfold_fiber E].
    + by unfold_fiber E.
    + by rewrite E.
    + unfold_fiber E. intuition lia.
    + done.
    + done.
  - eapply (inv_take s _ f); [done|by apply moved_with_fiber|simpl; by rewrite Ec| |..].
    + eapply (spin_keep s _ f _ Hinv); [by apply moved_with_fiber|done|by unfold_fiber E].
    + by unfold_fiber E.
    + by rewrite E.
    + by unfold_fiber E.
    + done.
Qed.

(** A step that only changes [f]'s position, keeping the spinlock as it is. *)
Lemma move_inv s f p fb :
  park_inv s → fb = set_fb_pc (pk_fibers s f) p → wakes p = wakes (fb_pc (pk_fibers s f)) →
  suspended (pk_fibers s f) = false → suspended fb = false → fiber_ok fb →
  holds_spin fb = holds_spin (pk_fibers s f) → park_inv (with_fiber s f fb).
Proof.
  intros Hinv -> Hw H1 H2 Hok Hh.
  eapply (inv_local s _ f); [done|by apply moved_with_fiber|done| |..]; try done.
  - by eapply (spin_keep s _ f _ Hinv); [apply moved_with_fiber|..].
  - by rewrite H1, H2.
Qed.

Lemma rel_inv s f op o :
  park_inv s → fb_pc (pk_fibers s f) = Rel op o →
  release f (pk_spin s) = Some None ∧
  park_inv (with_fiber (with_spin s None) f (set_fb_pc (pk_fibers s f) (Clr op o))).
Proof.
  intros Hinv E. at_fiber Hinv f E. assert (pk_spin s = Some f) as Hs by (by apply Hsp).
  split; [by apply release_owner|].
  eapply (inv_local s _ f); [done|by apply moved_with_fiber|done| |..].
  - by eapply (spin_drop s _ f _ Hinv); [apply moved_with_fiber|..].
  - by unfold_fiber E.
  - by unfold_fiber E.
  - by unfold_fiber E.
  - by unfold_fiber E.
  - done.
Qed.

Lemma clr_inv s f op o :
  park_inv s → fb_pc (pk_fibers s f) = Clr op o →
  park_inv (with_fiber s f (set_fb_owner (set_fb_pc (pk_fibers s f) (Wake op o)) false)).
Proof.
  intros Hinv E. at_fiber Hinv f E.
  eapply (inv_local s _ f); [done|by apply moved_with_fiber|done| |..].
  - eapply (spin_keep s _ f _ Hinv); [by apply moved_with_fiber|done|by unfold_fiber E].
  - unfold_fiber E. naive_solver.
  - by unfold_fiber E.
  - by unfold_fiber E.
  - by unfold_fiber E.
  - done.
Qed.

Lemma out_inv s f op :
  park_inv s → fb_pc (pk_fibers s f) = Wake op [] →
  park_inv (with_fiber s f (set_fb_client (set_fb_pc (pk_fibers s f) Out)
    (client_after op (fb_client (pk_fibers s f))))).
Proof.
  intros Hinv E. at_fiber Hinv f E.
  eapply (inv_local s _ f); [done|by apply moved_with_fiber|done| |..].
  - eapply (spin_keep s _ f _ Hinv); [by apply moved_with_fiber|done|by unfold_fiber E].
  - by unfold_fiber E.
  - by unfold_fiber E.
  - by unfold_fiber E.
  - by unfold_fiber E.
  - done.
Qed.

Lemma fiber_step_inv s f s' : park_inv s → fiber_step f s = Some s' → park_inv s'.
Proof.
  intros Hinv Hstep. pose proof Hstep as Hstep'. unfold fiber_step in Hstep.
  destruct (fb_pc (pk_fibers s f)) as [|op|op|op|op i o|op o|op o|op o|op o|] eqn:E; try done;
    try (by eapply crit_inv); at_fiber Hinv f E.
  - unfold acquire in Hstep. destruct (pk_spin s) eqn:Es; simplify_eq/=. by apply ctor_inv.
  - destruct i as [|w i]; simplify_eq.
    + apply (move_inv s f (Dtor op o)); try done; rewrite ?E; unfold_fiber E; intuition.
    + apply inv_schedule; try done; rewrite ?E; by unfold_fiber E.
  - simplify_eq. apply (move_inv s f (if fb_is_owner (pk_fibers s f) then Rel op o else Wake op o));
      try done; rewrite ?E; unfold_fiber E; destruct (fb_is_owner (pk_fibers s f)); intuition.
  - destruct (rel_inv s f op o Hinv E) as [Hr Hinv']. rewrite Hr in Hstep. by simplify_eq.
  - simplify_eq. by apply (clr_inv s f op o).
  - destruct o as [|w o]; simplify_eq; [by apply (out_inv s f op)|].
    apply inv_schedule; try done; rewrite ?E; by unfold_fiber E.
Qed.

Lemma worker_step_inv s f s' : park_inv s → AwaitSuspend_step f s = Some s' → park_inv s'.
Proof.
  intros Hinv Hstep. unfold AwaitSuspend_step in Hstep.
  destruct (fb_worker (pk_fibers s f)) eqn:Ew; simplify_eq.
  - by apply inv_park.
  - pose proof (pi_fiber _ Hinv f) as Hok. unfold fiber_ok in Hok.
    destruct (fb_pc (pk_fibers s f)) as [|op|op|op|op i o|op o|op o|op o|op o|] eqn:E;
      destruct Hok as [Hok Hsc]; rewrite ?Ew in Hok; try (exfalso; intuition congruence).
    clear Hok Hsc. at_fiber Hinv f E. rewrite Ew in Hsp, Hok.
    assert (pk_spin s = Some f) as Hs by (by apply Hsp). rewrite release_owner in Hstep by done.
    simplify_eq. eapply (inv_local s _ f); [done|by apply moved_with_fiber|done| |..].
    + eapply (spin_drop s _ f _ Hinv); [by apply moved_with_fiber|done|done|by unfold_fiber E].
    + unfold_fiber E. intuition.
    + done.
    + done.
    + intros _. simpl. by rewrite Ew.
    + done.
  - pose proof (pi_fiber _ Hinv f) as Hok. unfold fiber_ok in Hok.
    destruct (fb_pc (pk_fibers s f)) as [|op|op|op|op i o|op o|op o|op o|op o|] eqn:E;
      destruct Hok as [Hok Hsc]; rewrite ?Ew in Hok; try (exfalso; intuition congruence).
    eapply (inv_local s _ f); [done|by apply moved_with_fiber|done| |..].
    + eapply (spin_keep s _ f _ Hinv); [by apply moved_with_fiber|done|].
      unfold_fiber E. by rewrite Ew.
    + unfold_fiber E. unfold suspended in Hsc. rewrite E in Hsc. intuition.
    + done.
    + done.
    + intros _. simpl. by rewrite Ew.
    + done.
Qed.

(** With an executor that keeps a fiber on its worker, every reachable state
    satisfies the invariant. *)
Lemma park_invariant : invariant (parking_system (D := D) (Op := Op) (U := U) true) park_inv.
Proof.
  apply invariant_intro; [intros s (d & _ & ->); apply park_inv_init|].
  intros [f op|f|f|f] s s' Hinv Hstep; simpl in Hstep.
  - unfold call_step in Hstep. destruct (fb_pc (pk_fibers s f)) eqn:E; try done.
    destruct (client_may op (fb_client (pk_fibers s f))); simplify_eq. at_fiber Hinv f E.
    eapply (inv_local s _ f); [done|by apply moved_with_fiber|done| |..].
    + eapply (spin_keep s _ f _ Hinv); [by apply moved_with_fiber|done|by unfold_fiber E].
    + unfold_fiber E. naive_solver.
    + by unfold_fiber E.
    + by unfold_fiber E.
    + by unfold_fiber E.
    + done.
  - by eapply fiber_step_inv.
  - by eapply worker_step_inv.
  - unfold resume_step in Hstep. destruct (fb_pc (pk_fibers s f)) eqn:E; try done.
    destruct (fb_scheduled (pk_fibers s f)) as [|n] eqn:En; [done|].
    destruct (fb_worker (pk_fibers s f)) eqn:Ew; simpl in Hstep; simplify_eq. at_fiber Hinv f E.
    assert (n = 0) as -> by lia. eapply inv_resume; done.
Qed.

(** ** Waiters are woken in the order they parked *)

(** The waiter a step parks, and those it takes off the list. *)
Definition parks_in (l : park_label Op) s : list tid :=
  match l with
  | WorkerStep f => match fb_worker (pk_fibers s f) with WPark => [f] | _ => [] end
  | _ => []
  end.

Definition takes_in (l : park_label Op) s : list tid :=
  match l with
  | FiberStep f =>
      match fb_pc (pk_fibers s f) with
      | Crit op =>
          match crit op (pk_data s) (pk_waiters s) with
          | (_, _, Leave i o) => i ++ o
          | _ => []
          end
      | _ => []
      end
  | _ => []
  end.

(** What a step contributes along a schedule. *)
Fixpoint along {A} (affine : bool) (g : park_label Op → parking D Op U → list A)
    (tr : list (park_label Op)) s : list A :=
  match tr with
  | [] => []
  | l :: tr' =>
      g l s ++ match park_step affine l s with Some s' => along affine g tr' s' | None => [] end
  end.

Lemma step_waiters affine l s s' :
  park_step affine l s = Some s' → pk_waiters s ++ parks_in l s = takes_in l s ++ pk_waiters s'.
Proof.
  destruct l as [f op|f|f|f]; simpl; intros Hstep.
  - unfold call_step in Hstep. step_cases Hstep. subst. simpl. by rewrite app_nil_r.
  - unfold fiber_step in Hstep. destruct (fb_pc (pk_fibers s f)) as [|op|op| | | | | | |]; simpl;
      try (step_cases Hstep; subst; simpl; by rewrite app_nil_r).
    + destruct (acquire f (pk_spin s)); simplify_eq/=. by rewrite app_nil_r.
    + destruct (crit op (pk_data s) (pk_waiters s)) as [[d ws] v] eqn:Ec.
      apply crit_waiters in Ec. destruct v; simplify_eq; simpl; by rewrite ?app_nil_r.
  - unfold AwaitSuspend_step in Hstep. destruct (fb_worker (pk_fibers s f)); simplify_eq; simpl;
      rewrite ?app_nil_r; try done. destruct (release f (pk_spin s)); by simplify_eq/=.
  - unfold resume_step in Hstep. step_cases Hstep. subst. simpl. by rewrite app_nil_r.
Qed.

Lemma waiters_fifo affine tr s s' :
  run (parking_system affine) tr s = Some s' →
  pk_waiters s ++ along affine parks_in tr s = along affine takes_in tr s ++ pk_waiters s'.
Proof.
  revert s. induction tr as [|l tr IH]; intros s Hr; simpl in Hr |- *.
  - simplify_eq. by rewrite app_nil_r.
  - destruct (park_step affine l s) as [s1|] eqn:E; simpl in Hr; [|done].
    rewrite (assoc (++)), (step_waiters _ _ _ _ E), <-!(assoc (++)). f_equal. by apply IH.
Qed.

Lemma along_snoc {A} affine (g : park_label Op → parking D Op U → list A) tr l s s1 :
  run (parking_system affine) tr s = Some s1 →
  along affine g (tr ++ [l]) s = along affine g tr s ++ g l s1.
Proof.
  revert s. induction tr as [|l' tr IH]; intros s Hr; simpl in Hr |- *.
  - simplify_eq. destruct (park_step affine l s1); by rewrite app_nil_r.
  - destruct (park_step affine l' s) as [s2|] eqn:E; simpl in Hr; [|done].
    by rewrite (IH s2 Hr), (assoc (++)).
Qed.

(** ** Who waits *)

(** The list is not empty, or a fiber is about to be put in it. *)
Definition someone_waits s : Prop :=
  pk_waiters s ≠ [] ∨ ∃ f, fb_worker (pk_fibers s f) = WPark.

(** Only a body under the guard changes the fields or makes a fiber wait. *)
Lemma step_data affine l s s' : park_step affine l s = Some s' →
  (∃ f op, l = FiberStep f ∧ fb_pc (pk_fibers s f) = Crit op) ∨
  (pk_data s' = pk_data s ∧ (someone_waits s' → someone_waits s)).
Proof.
  assert (∀ s1, pk_waiters s1 = pk_waiters s →
    (∀ f, fb_worker (pk_fibers s1 f) = WPark → fb_worker (pk_fibers s f) = WPark) →
    someone_waits s1 → someone_waits s) as Hsame.
  { intros s1 Hw Hf [Hs|[f Hs]]; [left; congruence|right; eauto]. }
  destruct l as [f op|f|f|f]; simpl; intros Hstep.
  - right. unfold call_step in Hstep. step_cases Hstep. subst. split; [done|].
    apply Hsame; [done|]. intros g. simpl. by upd_cases.
  - destruct (fb_pc (pk_fibers s f)) as [|op|op| |op i o| | | |op o|] eqn:E; [| |by eauto|..];
      right; unfold fiber_step in Hstep; rewrite E in Hstep; try done.
    all: unfold acquire in Hstep; step_cases Hstep; subst; split; try done; apply Hsame; try done;
      intros g; simpl; by upd_cases.
  - right. unfold AwaitSuspend_step in Hstep. destruct (fb_worker (pk_fibers s f)) eqn:E; try done.
    + simplify_eq. split; [done|]. intros _. right. by exists f.
    + destruct (release f (pk_spin s)); simplify_eq; (split; [done|]; apply Hsame; [done|]);
        intros g; simpl; by upd_cases.
    + simplify_eq. split; [done|]. apply Hsame; [done|]. intros g; simpl; by upd_cases.
  - right. unfold resume_step in Hstep. step_cases Hstep; subst; (split; [done|]);
      (apply Hsame; [done|]); intros g; simpl; upd_cases; simpl; congruence.
Qed.

(** ** The operations in progress are ones a client may call *)

Definition pc_op (p : fiber_pc Op) : option Op :=
  match p with
  | Ctor op | Crit op | Susp op | WakeIn op _ _ | Dtor op _ | Rel op _ | Clr op _ | Wake op _ =>
      Some op
  | Out | Broken => None
  end.

Definition ops_called s : Prop :=
  ∀ f op, pc_op (fb_pc (pk_fibers s f)) = Some op → ∃ u, client_may op u = true.

Lemma step_op affine l s s' f op :
  park_step affine l s = Some s' → pc_op (fb_pc (pk_fibers s' f)) = Some op →
  pc_op (fb_pc (pk_fibers s f)) = Some op ∨ ∃ u, client_may op u = true.
Proof.
  destruct l as [g op'|g|g|g]; simpl; intros Hstep.
  - unfold call_step in Hstep. step_cases Hstep. subst. simpl. upd_cases; [|auto].
    simpl. intros [= ->]. eauto.
  - unfold fiber_step, acquire in Hstep.
    destruct (fb_pc (pk_fibers s g)) eqn:E; simpl in Hstep; step_cases Hstep; subst;
      intros Hop; left; revert Hop; simpl; upd_cases; simpl; rewrite ?E; try done;
      rewrite ?E in *; try done; by upd_cases.
  - unfold AwaitSuspend_step in Hstep. step_cases Hstep; subst; simpl; upd_cases; auto.
  - unfold resume_step in Hstep. destruct (fb_pc (pk_fibers s g)) eqn:E; try done.
    step_cases Hstep; subst; simpl; upd_cases; simpl; rewrite ?E; auto.
Qed.

Lemma ops_called_invariant affine : invariant (parking_system (D := D) (U := U) affine) ops_called.
Proof.
  apply invariant_intro; [by intros s (d & _ & ->) f op|].
  intros l s s' Hinv Hstep f op Hop.
  destruct (step_op affine l s s' f op Hstep Hop) as [Hop'|?]; [|done]. by apply (Hinv f).
Qed.

(** ** Nothing is stuck but the waiters *)

(** No step is enabled except a client's call. *)
Definition quiescent s : Prop :=
  ∀ l s', park_step true l s = Some s' → ∃ f op, l = CallOp f op.

Lemma quiescent_spin s : park_inv s → quiescent s → pk_spin s = None.
Proof.
  intros Hinv Hq. destruct (pk_spin s) as [f|] eqn:Es; [exfalso|done].
  pose proof (proj1 (pi_spin _ Hinv f) Es) as Hh. pose proof (pi_fiber _ Hinv f) as [Hok _].
  assert (∀ s', fiber_step f s ≠ Some s') as Hf.
  { intros s' Hs. by destruct (Hq (FiberStep f) s' Hs) as (?&?&?). }
  assert (∀ s', AwaitSuspend_step f s ≠ Some s') as Hw.
  { intros s' Hs. by destruct (Hq (WorkerStep f) s' Hs) as (?&?&?). }
  unfold holds_spin, fiber_step, AwaitSuspend_step in *.
  destruct (fb_pc (pk_fibers s f)) as [|op|op|op|op i o|op o|op o|op o|op o|]; try done.
  - destruct (crit op (pk_data s) (pk_waiters s)) as [[d ws] []]; by eapply Hf.
  - destruct (fb_worker (pk_fibers s f)); try done; [by eapply Hw|].
    destruct (release f (pk_spin s)); by eapply Hw.
  - destruct i; by eapply Hf.
  - by eapply Hf.
  - destruct (release f (pk_spin s)); by eapply Hf.
Qed.

(** When nothing moves, every fiber is in its client's code or waits in the list. *)
Lemma quiescent_fibers s : park_inv s → quiescent s →
  (∀ g, wakes (fb_pc (pk_fibers s g)) = []) ∧
  ∀ f, fb_pc (pk_fibers s f) = Out ∨
    (suspended (pk_fibers s f) = true ∧ fb_scheduled (pk_fibers s f) = 0 ∧ f ∈ pk_waiters s).
Proof.
  intros Hinv Hq. pose proof (quiescent_spin s Hinv Hq) as Hsp.
  assert (∀ f, fb_pc (pk_fibers s f) = Out ∨ suspended (pk_fibers s f) = true) as Hpc.
  { intros f. assert (∀ s', fiber_step f s ≠ Some s') as Hf.
    { intros s' Hs. by destruct (Hq (FiberStep f) s' Hs) as (?&?&?). }
    pose proof (pi_fiber _ Hinv f) as [Hok _]. unfold fiber_step, suspended in *.
    destruct (fb_pc (pk_fibers s f)) as [|op|op|op|op i o|op o|op o|op o|op o|]; try done; auto.
    - rewrite Hsp in Hf. by destruct (Hf _ eq_refl).
    - destruct (crit op (pk_data s) (pk_waiters s)) as [[d ws] []]; by destruct (Hf _ eq_refl).
    - destruct i; by destruct (Hf _ eq_refl).
    - by destruct (Hf _ eq_refl).
    - destruct (release f (pk_spin s)); by destruct (Hf _ eq_refl).
    - by destruct (Hf _ eq_refl).
    - destruct o; by destruct (Hf _ eq_refl). }
  assert (∀ g, wakes (fb_pc (pk_fibers s g)) = []) as Hwk.
  { intros g. specialize (Hpc g). unfold suspended in Hpc.
    by destruct (fb_pc (pk_fibers s g)); destruct Hpc. }
  split; [done|]. intros f. destruct (Hpc f) as [?|Hs]; [by left|right].
  assert (∀ s', AwaitSuspend_step f s ≠ Some s') as Hw.
  { intros s' Hs'. by destruct (Hq (WorkerStep f) s' Hs') as (?&?&?). }
  assert (∀ s', resume_step true f s ≠ Some s') as Hr.
  { intros s' Hs'. by destruct (Hq (Resume f) s' Hs') as (?&?&?). }
  pose proof (pi_fiber _ Hinv f) as [Hok Hsc]. unfold AwaitSuspend_step, resume_step in Hw, Hr.
  assert (fb_worker (pk_fibers s f) = WNone) as Ew.
  { destruct (fb_worker (pk_fibers s f)) eqn:Ew; try done; [by destruct (Hw _ eq_refl)| |by destruct (Hw _ eq_refl)|].
    - destruct (release f (pk_spin s)); by destruct (Hw _ eq_refl).
    - unfold suspended in Hs. by destruct (fb_pc (pk_fibers s f)). }
  assert (fb_scheduled (pk_fibers s f) = 0) as Esc.
  { unfold suspended in Hs. destruct (fb_pc (pk_fibers s f)); try done. rewrite Ew in Hr.
    destruct (fb_scheduled (pk_fibers s f)); [done|]. by destruct (Hr _ eq_refl). }
  split; [done|]. split; [done|].
  destruct (pi_suspended _ Hinv f Hs) as [?|[?|[?|[g Hg]]]]; try congruence.
  rewrite Hwk in Hg. by apply elem_of_nil in Hg.
Qed.
End safety.
