(* ===== verification/AsyncMutex.v ===== *)
(** * fiber/sync/async_mutex: the fiber mutex

    [AsyncMutex] as an instance of the suspension protocol of [Parking.v]: the
    field [locked_], the bodies of [Lock] and [Unlock] under the spinlock, and the
    client's discipline that only the fiber in the critical section unlocks. *)

From stdpp Require Import prelude list.
From S2P Require Import Prelude.
From S2P Require Import Lock.
From S2P Require Import Parking.

Inductive mutex_op := Lock | Unlock.

#[export] Instance mutex_op_eq : EqDecision mutex_op.
Proof. solve_decision. Defined.

(** [Lock] under the guard: suspend when [locked_], else take it. *)
Definition Lock_body (locked_ : bool) (waiters_ : list tid) : bool * list tid * verdict :=
  if locked_ then (locked_, waiters_, Park) else (true, waiters_, Leave [] []).

(** [Unlock] under the guard: free the mutex, or pop the waiter that will own it,
    to be scheduled once the guard is gone. *)
Definition Unlock_body (locked_ : bool) (waiters_ : list tid) : bool * list tid * verdict :=
  match waiters_ with
  | [] => (false, [], Leave [] [])
  | next_waiter :: waiters' => (locked_, waiters', Leave [] [next_waiter])
  end.

(** The client's state is whether it is in the critical section. *)
#[export] Instance async_mutex : Primitive bool mutex_op bool := {
  crit op := match op with Lock => Lock_body | Unlock => Unlock_body end;
  client_may op in_cs := match op with Lock => negb in_cs | Unlock => in_cs end;
  client_after op _ := match op with Lock => true | Unlock => false end;
  data0 locked_ := locked_ = false;
  client0 := false
}.

#[export] Instance async_mutex_laws : PrimitiveLaws bool mutex_op bool.
Proof.
  split. intros [] d ws d' ws' v E; simpl in E; unfold Lock_body, Unlock_body in E.
  - by destruct d; simplify_eq/=.
  - by destruct ws; simplify_eq/=.
Qed.

Abbreviation mutex_state := (parking bool mutex_op bool).

(** The mutex on an executor that keeps a fiber on its worker, or not. *)
Definition mutex_system (affine : bool) : lts mutex_state (park_label mutex_op) :=
  parking_system affine.

(** The fiber is in the critical section. *)
Definition in_critical_section (s : mutex_state) (f : tid) : Prop :=
  fb_pc (pk_fibers s f) = Out ∧ fb_client (pk_fibers s f) = true.

(** ** Invariant: the mutex has at most one owner, and hands over ownership *)

Definition own_local (fb : fiber mutex_op bool) : bool :=
  match fb_pc fb with
  | Out => fb_client fb
  | Ctor op | Crit op => bool_decide (op = Unlock)
  | WakeIn op _ _ | Dtor op _ | Rel op _ | Clr op _ | Wake op _ => bool_decide (op = Lock)
  | Susp _ => bool_decide (fb_scheduled fb = 1)
  | Broken => false
  end.

(** A fiber owns the mutex by where it is, or because it has been taken off the
    list of waiters to be woken. *)
Definition owning (s : mutex_state) (f : tid) : Prop :=
  own_local (pk_fibers s f) = true ∨ ∃ g, f ∈ wakes (fb_pc (pk_fibers s g)).

Definition mutex_fiber_ok (fb : fiber mutex_op bool) : Prop :=
  match fb_pc fb with
  | Susp op => op = Lock
  | Ctor op | Crit op | WakeIn op _ _ | Dtor op _ | Rel op _ | Clr op _ | Wake op _ =>
      op = Lock ∨ op = Unlock
  | _ => True
  end.

Record mutex_inv (s : mutex_state) : Prop := MutexInv {
  mi_one : ∀ f g, owning s f → owning s g → f = g;
  mi_locked : pk_data s = true ↔ ∃ f, owning s f;
  mi_waiters : pk_waiters s ≠ [] → pk_data s = true;
  mi_parking : ∀ f, fb_worker (pk_fibers s f) = WPark → pk_data s = true;
  mi_fiber : ∀ f, mutex_fiber_ok (pk_fibers s f)
}.

(** ** Steps *)

Lemma mutex_local s s' f fb :
  mutex_inv s → moved s s' f fb → pk_data s' = pk_data s →
  wakes (fb_pc fb) = wakes (fb_pc (pk_fibers s f)) →
  own_local fb = own_local (pk_fibers s f) → mutex_fiber_ok fb →
  (pk_waiters s' ≠ [] → pk_data s = true) → (fb_worker fb = WPark → pk_data s = true) →
  mutex_inv s'.
Proof.
  intros [H1 H2 H3 H4 H5] [Hf Hx] Hd Hw Ho Hok Hws Hpk.
  assert (∀ x, owning s' x ↔ owning s x) as E.
  { intros x. unfold owning. f_equiv.
    - destruct (decide (x = f)) as [->|]; [by rewrite Hf, Ho|by rewrite Hx].
    - split; intros [g Hg]; exists g; destruct (decide (g = f)) as [->|];
        rewrite ?Hf, ?Hx in * by done; congruence. }
  split; rewrite ?Hd; try done.
  - intros g g'. rewrite !E. apply H1.
  - rewrite H2. by setoid_rewrite E.
  - intros g. destruct (decide (g = f)) as [->|]; [by rewrite Hf|rewrite Hx by done; apply H4].
  - intros g. destruct (decide (g = f)) as [->|]; [by rewrite Hf|rewrite Hx by done; apply H5].
Qed.

Lemma wakes_but (P Q : tid → list tid) (x : tid) :
  (∀ g, x ∈ P g ↔ x ∈ Q g) → (∃ g, x ∈ P g) ↔ (∃ g, x ∈ Q g).
Proof. intros H. by setoid_rewrite H. Qed.

(** Scheduling the waiter it has taken makes the waiter own by itself. *)
Lemma mutex_schedule s f w fb :
  park_inv s → mutex_inv s → wakes (fb_pc (pk_fibers s f)) = w :: wakes (fb_pc fb) →
  suspended (pk_fibers s f) = false → fb_worker fb ≠ WPark →
  own_local fb = own_local (pk_fibers s f) → mutex_fiber_ok fb →
  mutex_inv (Schedule w (with_fiber s f fb)).
Proof.
  intros Hp [H1 H2 H3 H4 H5] Hw Hs Hpk Ho Hok.
  assert (w ∈ wakes (fb_pc (pk_fibers s f))) as Hwf by (rewrite Hw; set_solver).
  destruct (pi_wakes _ Hp f w Hwf) as [(Hws & Hwp & Hwsc) Hww].
  assert (w ≠ f) as Hne by congruence.
  set (s' := Schedule w (with_fiber s f fb)).
  pose proof (schedule_fibers s f w fb Hne Hwsc) as E. fold s' in E.
  assert (∀ x, owning s' x ↔ owning s x) as Eo.
  { intros x. unfold owning. destruct (decide (x = w)) as [->|Hxw].
    - split; [eauto|]. intros _. left. rewrite E, decide_False, decide_True by done.
      unfold own_local, suspended in *. simpl. by destruct (fb_pc (pk_fibers s w)).
    - f_equiv.
      + rewrite E. destruct (decide (x = f)) as [->|]; [by rewrite Ho|by rewrite decide_False].
      + apply wakes_but. intros g. rewrite E. destruct (decide (g = f)) as [->|].
        * rewrite Hw, elem_of_cons. naive_solver.
        * by destruct (decide (g = w)) as [->|]. }
  split; try done.
  - intros g g'. rewrite !Eo. apply H1.
  - change (pk_data s') with (pk_data s). rewrite H2. by setoid_rewrite Eo.
  - intros g. rewrite E. change (pk_data s') with (pk_data s).
    destruct (decide (g = f)) as [->|]; [done|]. destruct (decide (g = w)) as [->|]; apply H4.
  - intros g. rewrite E. destruct (decide (g = f)) as [->|]; [done|].
    destruct (decide (g = w)) as [->|]; [apply (H5 w)|apply H5].
Qed.

(** Owners after a step of [f] under the guard. *)
Lemma owning_moved (s s' : mutex_state) f fb x :
  moved s s' f fb → (∀ g, f ∉ wakes (fb_pc (pk_fibers s g))) → owning s' x →
  (x = f ∧ own_local fb = true) ∨ x ∈ wakes (fb_pc fb) ∨ (x ≠ f ∧ owning s x).
Proof.
  intros [Hf Hx] Hn [Ho|[g Hg]].
  - destruct (decide (x = f)) as [->|Hne]; [left; by rewrite Hf in Ho|].
    right; right. split; [done|]. left. by rewrite <- Hx.
  - destruct (decide (g = f)) as [->|Hne]; [right; left; by rewrite Hf in Hg|].
    rewrite Hx in Hg by done. right; right. split; [intros ->; by apply (Hn g)|].
    right. by exists g.
Qed.

(** A body under the guard, after which [o] owns the mutex: nobody else is between
    reading the fields and parking. *)
Lemma mutex_new_owner s s' f fb (o : option tid) :
  mutex_inv s → moved s s' f fb → mutex_fiber_ok fb → fb_worker fb ≠ WPark →
  (∀ x, fb_worker (pk_fibers s x) ≠ WPark) → (∀ x, owning s' x ↔ o = Some x) →
  pk_data s' = bool_decide (is_Some o) → (pk_waiters s' ≠ [] → is_Some o) → mutex_inv s'.
Proof.
  intros Hm [Hf Hx] Hok Hw Hnp Ho Hd Hws. rewrite <-(bool_decide_eq_true (is_Some o)), <-Hd in Hws.
  split; try done.
  - intros x y. rewrite !Ho. congruence.
  - rewrite Hd, bool_decide_eq_true. by setoid_rewrite Ho.
  - intros x. destruct (decide (x = f)) as [->|]; [by rewrite Hf|rewrite Hx by done]. by intros ?%Hnp.
  - intros x. destruct (decide (x = f)) as [->|]; [by rewrite Hf|rewrite Hx by done; apply Hm].
Qed.

(** [Lock] under the guard: the free mutex is taken. *)
Lemma mutex_lock_crit s f s' :
  park_inv s → mutex_inv s → fb_pc (pk_fibers s f) = Crit Lock → fiber_step f s = Some s' →
  mutex_inv s'.
Proof.
  intros Hp Hm E Hstep. unfold fiber_step in Hstep. rewrite E in Hstep. simpl in Hstep.
  assert (∀ x, fb_worker (pk_fibers s x) ≠ WPark) as Hnp by (intros x; by eapply crit_not_parking).
  destruct (inv_running s f Hp) as [_ Hf]; [by unfold suspended; rewrite E|].
  pose proof (mi_locked _ Hm) as Hl. pose proof (mi_waiters _ Hm) as Hws.
  unfold Lock_body in Hstep. destruct (pk_data s) eqn:Ed; simplify_eq.
  - eapply (mutex_local s _ f); [done|by apply moved_with_fiber|..]; simpl; rewrite ?E; try done.
    unfold own_local. simpl. rewrite E. pose proof (pi_fiber _ Hp f) as [_ Hsc].
    unfold suspended in Hsc. rewrite E in Hsc. by rewrite bool_decide_false by lia.
  - eapply (mutex_new_owner s _ f _ (Some f)); [done|by apply moved_with_fiber|..]; simpl; try done.
    + left. done.
    + intros x. split; [|intros [= <-]; left; simpl; by rewrite upd_eq].
      intros Hx. destruct (owning_moved s _ f _ x (moved_with_fiber _ _ _ _ eq_refl) Hf Hx)
        as [[-> _]|[Hin|[_ Ho]]]; [done|..].
      * by apply elem_of_nil in Hin.
      * by apply ex_intro, Hl in Ho.
Qed.

(** [Unlock] under the guard: the mutex is freed, or handed to the first waiter. *)
Lemma mutex_unlock_crit s f s' :
  park_inv s → mutex_inv s → fb_pc (pk_fibers s f) = Crit Unlock → fiber_step f s = Some s' →
  mutex_inv s'.
Proof.
  intros Hp Hm E Hstep. unfold fiber_step in Hstep. rewrite E in Hstep. simpl in Hstep.
  assert (∀ x, fb_worker (pk_fibers s x) ≠ WPark) as Hnp by (intros x; by eapply crit_not_parking).
  destruct (inv_running s f Hp) as [_ Hf]; [by unfold suspended; rewrite E|].
  assert (∀ x, owning s x → x = f) as Hof.
  { intros x Hx. apply (mi_one _ Hm); [done|]. left. unfold own_local. by rewrite E. }
  pose proof (mi_waiters _ Hm) as Hws.
  unfold Unlock_body in Hstep. destruct (pk_waiters s) as [|w ws] eqn:Ew; simplify_eq.
  - eapply (mutex_new_owner s _ f _ None); [done|by apply moved_with_fiber|..]; simpl; try done.
    + by right.
    + intros x. split; [|done].
      intros Hx. destruct (owning_moved s _ f _ x (moved_with_fiber _ _ _ _ eq_refl) Hf Hx)
        as [[_ ?]|[Hin|[? ?%Hof]]]; [done| |done]. by apply elem_of_nil in Hin.
  - eapply (mutex_new_owner s _ f _ (Some w)); [done|by apply moved_with_fiber|..]; simpl; try done.
    + by right.
    + intros x. split.
      * intros Hx. destruct (owning_moved s _ f _ x (moved_with_fiber _ _ _ _ eq_refl) Hf Hx)
          as [[_ ?]|[Hin|[? ?%Hof]]]; [done| |done]. by apply list_elem_of_singleton in Hin as ->.
      * intros [= <-]. right. exists f. simpl. rewrite upd_eq. simpl. by left.
    + by apply Hws.
Qed.

Lemma mutex_crit s f op s' :
  park_inv s → mutex_inv s → fb_pc (pk_fibers s f) = Crit op → fiber_step f s = Some s' →
  mutex_inv s'.
Proof. destruct op; [apply mutex_lock_crit|apply mutex_unlock_crit]. Qed.

Lemma mutex_fiber s f s' :
  park_inv s → mutex_inv s → fiber_step f s = Some s' → mutex_inv s'.
Proof.
  intros Hp Hm Hstep. pose proof (pi_fiber _ Hp f) as [Hok _]. pose proof (mi_fiber _ Hm f) as Hmf.
  unfold fiber_ok, mutex_fiber_ok in Hok, Hmf. pose proof (mi_waiters _ Hm) as Hw.
  destruct (fb_pc (pk_fibers s f)) as [|op|op|op|op i o|op o|op o|op o|op o|] eqn:E;
    try done; try (by eapply (mutex_crit s f op)); unfold fiber_step in Hstep; rewrite E in Hstep; try done.
  - destruct (acquire f (pk_spin s)); simplify_eq/=.
    eapply (mutex_local s _ f); [done|by apply moved_with_fiber|..]; simpl; rewrite ?E; try done.
    + by unfold own_local; simpl; rewrite E.
    + destruct Hok as [-> _]. done.
  - destruct i as [|w i]; simplify_eq.
    + eapply (mutex_local s _ f); [done|by apply moved_with_fiber|..]; simpl; rewrite ?E; try done.
      * by unfold own_local; simpl; rewrite E.
      * destruct Hok as [-> _]. done.
    + apply mutex_schedule; simpl; rewrite ?E; try done.
      * by unfold suspended; rewrite E.
      * destruct Hok as [-> _]. done.
      * by unfold own_local; simpl; rewrite E.
  - simplify_eq. destruct (fb_is_owner (pk_fibers s f));
      (eapply (mutex_local s _ f); [done|by apply moved_with_fiber|..]; simpl; rewrite ?E; try done;
       [by unfold own_local; simpl; rewrite E|rewrite Hok; done]).
  - destruct (rel_inv s f op o Hp E) as [Hr _]. rewrite Hr in Hstep. simplify_eq.
    eapply (mutex_local s _ f); [done|by apply moved_with_fiber|..]; simpl; rewrite ?E; try done.
    + by unfold own_local; simpl; rewrite E.
    + destruct Hok as [-> _]. done.
  - simplify_eq.
    eapply (mutex_local s _ f); [done|by apply moved_with_fiber|..]; simpl; rewrite ?E; try done.
    + by unfold own_local; simpl; rewrite E.
    + destruct Hok as [-> _]. done.
  - destruct o as [|w o]; simplify_eq.
    + eapply (mutex_local s _ f); [done|by apply moved_with_fiber|..]; simpl; rewrite ?E; try done.
      * unfold own_local; simpl; rewrite E. by destruct op.
      * destruct Hok as [-> _]. done.
    + apply mutex_schedule; simpl; rewrite ?E; try done.
      * by unfold suspended; rewrite E.
      * destruct Hok as [-> _]. done.
      * by unfold own_local; simpl; rewrite E.
Qed.

Lemma mutex_worker s f s' :
  park_inv s → mutex_inv s → AwaitSuspend_step f s = Some s' → mutex_inv s'.
Proof.
  intros Hp Hm Hstep. unfold AwaitSuspend_step in Hstep. pose proof (mi_waiters _ Hm) as Hw.
  pose proof (mi_parking _ Hm f) as Hpk.
  destruct (fb_worker (pk_fibers s f)) eqn:Ew; simplify_eq; try done.
  - eapply (mutex_local s _ f); [done|by apply moved_with_fiber|..]; try done; auto.
    apply (mi_fiber _ Hm f).
  - destruct (release f (pk_spin s)) eqn:Er; simplify_eq;
      (eapply (mutex_local s _ f); [done|by apply moved_with_fiber|..]; try done; auto;
       apply (mi_fiber _ Hm f)).
  - eapply (mutex_local s _ f); [done|by apply moved_with_fiber|..]; try done; auto.
    apply (mi_fiber _ Hm f).
Qed.

Lemma mutex_invariant : invariant (mutex_system true) (λ s, park_inv s ∧ mutex_inv s).
Proof.
  intros s Hs. split; [by apply park_invariant|]. revert s Hs.
  apply (invariant_on_top _ park_inv); [apply park_invariant|..].
  - intros s (d & -> & ->). split; simpl; try done.
    + intros f g [Hf|[h Hf]]; [done|by apply elem_of_nil in Hf].
    + split; [done|]. intros (f & [Hf|[h Hf]]); [done|by apply elem_of_nil in Hf].
  - intros [f op|f|f|f] s s' Hp Hm Hstep; simpl in Hstep.
    + unfold call_step in Hstep. destruct (fb_pc (pk_fibers s f)) eqn:E; try done.
      destruct (client_may op (fb_client (pk_fibers s f))) eqn:Ec; simplify_eq.
      pose proof (pi_fiber _ Hp f) as [Hok _]. unfold fiber_ok in Hok. rewrite E in Hok.
      eapply (mutex_local s _ f); [done|by apply moved_with_fiber|..]; simpl; rewrite ?E; try done.
      * unfold own_local; simpl; rewrite E. destruct op; simpl in Ec;
          by destruct (fb_client (pk_fibers s f)).
      * destruct op; [left|right]; done.
      * apply Hm.
      * destruct Hok as [-> _]. done.
    + by eapply mutex_fiber.
    + by eapply mutex_worker.
    + unfold resume_step in Hstep. destruct (fb_pc (pk_fibers s f)) eqn:E; try done.
      destruct (fb_scheduled (pk_fibers s f)) as [|n] eqn:En; [done|].
      destruct (fb_worker (pk_fibers s f)) eqn:Ew; simpl in Hstep; simplify_eq.
      pose proof (pi_fiber _ Hp f) as [_ Hsc]. unfold suspended in Hsc. rewrite E in Hsc.
      pose proof (mi_fiber _ Hm f) as Hmf. unfold mutex_fiber_ok in Hmf. rewrite E in Hmf. subst.
      eapply (mutex_local s _ f); [done|by apply moved_with_fiber|..]; simpl; rewrite ?E; try done.
      * unfold own_local; simpl; rewrite E. symmetry. apply bool_decide_true. lia.
      * by left.
      * apply Hm.
      * by rewrite Ew.
Qed.

(** ** Theorems *)

(** C6: mutual exclusion: on an executor that keeps a fiber on its worker, any
    number of fibers calling [Lock] and [Unlock] in any interleaving, at most one
    is in the critical section, and [locked_] is set while one is. *)
Theorem async_mutex_exclusive s f g :
  reachable (mutex_system true) s → in_critical_section s f → in_critical_section s g →
  f = g ∧ pk_data s = true.
Proof.
  intros Hr [Hf1 Hf2] [Hg1 Hg2]. destruct (mutex_invariant s Hr) as [_ Hm].
  assert (owning s f) as Hf by (left; unfold own_local; by rewrite Hf1).
  assert (owning s g) as Hg by (left; unfold own_local; by rewrite Hg1).
  split; [by apply (mi_one _ Hm)|]. apply (mi_locked _ Hm). by exists f.
Qed.

(** A fiber runs [Lock] or [Unlock] from the call to the return, undisturbed. *)
Definition run_op (f : tid) (op : mutex_op) : list (park_label mutex_op) :=
  CallOp f op :: repeat (FiberStep f) 7.

(** Fiber 0 locks, fiber 1 suspends in [Lock]; 0 unlocks and 1 is resumed. *)
Definition handoff_schedule : list (park_label mutex_op) :=
  run_op 0 Lock ++ [CallOp 1 Lock; FiberStep 1; FiberStep 1; WorkerStep 1; WorkerStep 1;
  WorkerStep 1] ++ run_op 0 Unlock ++ [FiberStep 0; Resume 1; FiberStep 1; FiberStep 1].

Definition handoff_state : mutex_state :=
  default (park_init false) (run (mutex_system true) handoff_schedule (park_init false)).

Lemma async_mutex_exclusive_witness :
  in_critical_section handoff_state 1 ∧ ¬ in_critical_section handoff_state 0 ∧
  1 = 1 ∧ pk_data handoff_state = true.
Proof.
  assert (in_critical_section handoff_state 1) as H1 by (split; vm_compute; reflexivity).
  split; [done|]. split.
  - intros [_ H]. vm_compute in H. discriminate.
  - apply (async_mutex_exclusive handoff_state 1 1); [|done..].
    apply (run_reachable (mutex_system true)); [by exists false|]. vm_compute. eauto.
Defined.

(** C7: no waiter is lost: whenever nothing can move except by a client's call, a
    fiber suspended in [Lock] is in the list of waiters, the mutex is locked, and
    some fiber is in the critical section, whose [Unlock] will wake a waiter. *)
Theorem async_mutex_no_lost_waiter s f :
  reachable (mutex_system true) s → quiescent s → fb_pc (pk_fibers s f) ≠ Out →
  f ∈ pk_waiters s ∧ pk_data s = true ∧ ∃ g, in_critical_section s g.
Proof.
  intros Hr Hq Hf. destruct (mutex_invariant s Hr) as [Hp Hm].
  destruct (quiescent_fibers s Hp Hq) as [Hw Hall].
  destruct (Hall f) as [?|(Hs & _ & Hin)]; [done|].
  assert (pk_data s = true) as Hd by (apply (mi_waiters _ Hm); by apply (list_elem_not_nil f)).
  split; [done|]. split; [done|]. apply (mi_locked _ Hm) in Hd as [g [Hg|[h Hg]]].
  - exists g. unfold own_local in Hg. destruct (Hall g) as [E|(Hsg & Hsc & _)].
    + rewrite E in Hg. by split.
    + unfold suspended in Hsg. destruct (fb_pc (pk_fibers s g)); try done. by rewrite Hsc in Hg.
  - rewrite Hw in Hg. by apply elem_of_nil in Hg.
Qed.

(** Fiber 0 is in the critical section and fiber 1 waits. *)
Definition waiting_state : mutex_state :=
  default (park_init false) (run (mutex_system true) (firstn 14 handoff_schedule) (park_init false)).

Lemma waiting_quiescent : quiescent waiting_state.
Proof.
  intros [f op|f|f|f] s' Hs; [by exists f, op|exfalso..]; revert Hs;
    destruct f as [|[|f]]; vm_compute; discriminate.
Qed.

Lemma async_mutex_no_lost_waiter_witness :
  1 ∈ pk_waiters waiting_state ∧ pk_data waiting_state = true ∧
  ∃ g, in_critical_section waiting_state g.
Proof.
  apply (async_mutex_no_lost_waiter waiting_state 1).
  - apply (run_reachable (mutex_system true)); [by exists false|]. vm_compute. eauto.
  - apply waiting_quiescent.
  - vm_compute. discriminate.
Defined.

(** Along every schedule, the waiters [Unlock] has popped are, in order, the
    first of those that parked: the mutex is handed over first come, first served,
    whatever the executor. *)
Theorem async_mutex_fifo affine tr s :
  run (mutex_system affine) tr (park_init false) = Some s →
  along affine parks_in tr (park_init false) =
    along affine takes_in tr (park_init false) ++ pk_waiters s.
Proof. intros Hr. apply (waiters_fifo _ _ _ _ Hr). Qed.

Lemma async_mutex_fifo_witness :
  along true parks_in handoff_schedule (park_init false) =
    along true takes_in handoff_schedule (park_init false) ++ [] ∧
  along true takes_in handoff_schedule (park_init false) = [1].
Proof.
  split; [|vm_compute; reflexivity].
  change [] with (pk_waiters handoff_state).
  apply (async_mutex_fifo true handoff_schedule handoff_state). vm_compute. reflexivity.
Defined.

(** Fiber 1's worker is between the two stores of [guard.Release()] when fiber 0
    unlocks and another worker resumes fiber 1. *)
Definition double_release_schedule : list (park_label mutex_op) :=
  run_op 0 Lock ++ [CallOp 1 Lock; FiberStep 1; FiberStep 1; WorkerStep 1; WorkerStep 1] ++
  run_op 0 Unlock ++ [FiberStep 0; Resume 1; FiberStep 1; FiberStep 1].

(** On an executor that may resume a fiber on another worker while
    [AwaitSuspend] is still inside [guard.Release()], the guard's destructor
    releases the spinlock a second time, although the fiber does not own it. *)
Lemma async_mutex_double_release :
  ∃ s, reachable (mutex_system false) s ∧ fb_pc (pk_fibers s 1) = Broken.
Proof.
  exists (default (park_init false)
    (run (mutex_system false) double_release_schedule (park_init false))).
  split; [|vm_compute; reflexivity].
  apply (run_reachable (mutex_system false)); [by exists false|]. vm_compute. eauto.
Qed.
