(* ===== verification/WaitGroup.v ===== *)
(** * fiber/sync/wait_group: the fiber wait group

    [WaitGroup] as an instance of the suspension protocol of [Parking.v]: the
    64-bit field [counter_] with its wrap-around, the bodies of [Add], [Done] and
    [Wait] under the spinlock, and the walk of [Done] over the nodes of the
    waiters it has detached, on the memory of [IntrusiveList.v]. *)

From stdpp Require Import prelude list gmap.
From S2P Require Import Prelude.
From S2P Require Import IntrusiveList.
From S2P Require Import Lock.
From S2P Require Import Parking.

Inductive wg_op := Add (add : Z) | Done | Wait.

#[export] Instance wg_op_eq : EqDecision wg_op.
Proof. solve_decision. Defined.

(** [counter_ += add]. *)
Definition Add_body (add counter_ : Z) (ws : list tid) : Z * list tid * verdict :=
  (sz_add counter_ add, ws, Leave [] []).

(** [counter_ -= 1]; at zero every waiter is detached, to be scheduled once the
    guard is gone. *)
Definition Done_body (counter_ : Z) (wg_waiters_ : list tid) : Z * list tid * verdict :=
  let counter_ := sz_sub counter_ 1 in
  if decide (counter_ = 0%Z) then (counter_, [], Leave [] wg_waiters_)
  else (counter_, wg_waiters_, Leave [] []).

Definition Wait_body (counter_ : Z) (ws : list tid) : Z * list tid * verdict :=
  if decide (counter_ > 0)%Z then (counter_, ws, Park) else (counter_, ws, Leave [] []).

(** Any fiber may call any operation at any time. *)
#[export] Instance wait_group : Primitive Z wg_op unit := {
  crit op := match op with Add add => Add_body add | Done => Done_body | Wait => Wait_body end;
  client_may op _ := match op with Add add => bool_decide (0 ≤ add < size_bound)%Z | _ => true end;
  client_after _ u := u;
  data0 counter_ := counter_ = 0%Z;
  client0 := tt
}.

#[export] Instance wait_group_laws : PrimitiveLaws Z wg_op unit.
Proof.
  split. intros [n| |] d ws d' ws' v E; simpl in E.
  - by injection E as <- <- <-.
  - unfold Done_body in E. case_decide; injection E as <- <- <-; simpl; by rewrite ?app_nil_r.
  - unfold Wait_body in E. case_decide; by injection E as <- <- <-.
Qed.

Abbreviation wg_state := (parking Z wg_op unit).

Definition wg_system (affine : bool) : lts wg_state (park_label wg_op) := parking_system affine.

(** What a step adds to the counter, before wrapping. *)
Definition delta_in (l : park_label wg_op) (s : wg_state) : list Z :=
  match l with
  | FiberStep f =>
      match fb_pc (pk_fibers s f) with
      | Crit (Add add) => [add]
      | Crit Done => [(-1)%Z]
      | _ => []
      end
  | _ => []
  end.

Definition sum (zs : list Z) : Z := foldr Z.add 0%Z zs.

(** An [Add] that would wrap the counter around. *)
Definition overflows (l : park_label wg_op) (s : wg_state) : bool :=
  bool_decide (size_bound <= pk_data s + sum (delta_in l s))%Z.

(** The clients that never overflow the counter. *)
Definition wg_bounded : lts wg_state (park_label wg_op) :=
  Lts (lts_init (wg_system true))
      (λ l s, if overflows l s then None else park_step true l s).

(** ** The walk over the detached waiters *)

(** [Done] under the guard at zero: pop the first waiter and clear the list. *)
Definition Done_detach (l : IntrusiveList) (m : nodes) : option (ptr loc * IntrusiveList) :=
  '(wg_waiter, l') ← Pop m l; Some (wg_waiter, Clear l').

(** The loop of [Done].  Scheduling a waiter may resume its fiber at once, which
    destroys the awaiter and the node in it. *)
Fixpoint Done_loop (fuel : nat) (m : nodes) (wg_waiter : ptr loc) : res (list loc * nodes) :=
  match fuel with
  | 0 => NoFuel
  | S fuel' =>
      match wg_waiter with
      | None => Ret ([], m)
      | Some w =>
          next ← checked (Next m w);
          let m' := delete w m in
          match next with
          | None => Ret ([w], m')
          | Some _ => '(ws, m'') ← Done_loop fuel' m' next; Ret (w :: ws, m'')
          end
      end
  end.

(** The nodes were fresh when pushed: the last one's [next_] is null. *)
Definition terminated (m : nodes) (ns : list loc) : Prop :=
  ∀ n, last ns = Some n → m !! n = Some None.

Lemma chain_delete m n ns : n ∉ ns → chain m ns → chain (delete n m) ns.
Proof.
  induction ns as [|a [|b ns] IH]; [done| |]; intros Hn.
  - simpl. rewrite lookup_delete_ne; [done|set_solver].
  - intros [E Hc]. split; [rewrite lookup_delete_ne; [done|set_solver]|].
    apply IH; [set_solver|done].
Qed.

Lemma Done_loop_chain m n ns fuel :
  chain m (n :: ns) → terminated m (n :: ns) → NoDup (n :: ns) → length ns < fuel →
  ∃ m', Done_loop fuel m (Some n) = Ret (n :: ns, m').
Proof.
  revert m n fuel. induction ns as [|a ns IH]; intros m n fuel Hc Ht Hnd Hf;
    (destruct fuel as [|fuel]; simpl in Hf; [lia|]); simpl; unfold Next.
  - rewrite (Ht n eq_refl). simpl. eauto.
  - destruct Hc as [E Hc]. rewrite E. simpl. apply NoDup_cons in Hnd as [Hn Hnd].
    destruct (IH (delete n m) a fuel) as [m' E']; [by apply chain_delete| |done|lia|].
    + intros k Hk. rewrite lookup_delete_ne; [by apply Ht|].
      intros ->. apply Hn. by apply last_Some_elem_of.
    + rewrite E'. simpl. eauto.
Qed.

(** [Done] at zero empties the list of waiters and schedules each of them once,
    in the order they parked, reading every node before the node's fiber can run
    and destroy it. *)
Lemma wait_group_done_walk m l ws :
  repr m l ws → terminated m ws →
  ∃ p l' m', Done_detach l m = Some (p, l') ∧ repr m l' [] ∧
    Done_loop (S (length ws)) m p = Ret (ws, m').
Proof.
  intros Hr Ht. unfold Done_detach. destruct ws as [|w ws].
  - rewrite (Pop_repr_nil m l Hr). simpl. eauto 10 using repr_new.
  - destruct (Pop_repr_cons m l w ws Hr) as (l' & E & _). rewrite E. simpl.
    destruct (Done_loop_chain m w ws (S (S (length ws)))) as [m' E'];
      [apply Hr|done|apply Hr|lia|].
    exists (Some w), new_list, m'. split; [done|]. split; [apply repr_new|done].
Qed.

Lemma wait_group_done_walk_witness :
  ∃ p l' m', Done_detach (MkList 2 (Some 1) (Some 2)) {[ 1 := Some 2; 2 := None ]} = Some (p, l') ∧
    repr {[ 1 := Some 2; 2 := None ]} l' [] ∧
    Done_loop 3 {[ 1 := Some 2; 2 := None ]} p = Ret ([1; 2], m').
Proof.
  apply (wait_group_done_walk {[ 1 := Some 2; 2 := None ]} (MkList 2 (Some 1) (Some 2)) [1; 2]).
  - split; simpl; try done.
    repeat (apply NoDup_cons; split; [set_solver|]). constructor.
  - intros n [= <-]. reflexivity.
Defined.

(** ** The counter *)

Lemma sum_app zs zs' : sum (zs ++ zs') = (sum zs + sum zs')%Z.
Proof. induction zs as [|z zs IH]; simpl; [done|]. rewrite IH. lia. Qed.

(** Every step moves the counter by its delta, modulo 2^64. *)
Lemma wg_step_counter affine l (s s' : wg_state) :
  is_size (pk_data s) → park_step affine l s = Some s' →
  pk_data s' = wrap64 (pk_data s + sum (delta_in l s)).
Proof.
  intros Hsz Hstep. destruct (step_data affine l s s' Hstep) as [(f & op & -> & E)|[Hd _]].
  - simpl in *. unfold fiber_step in Hstep. rewrite E in *. destruct op as [n| |]; simpl in Hstep.
    + simplify_eq/=. unfold sz_add. f_equal. lia.
    + unfold Done_body in Hstep. case_decide; simplify_eq/=; unfold sz_sub; f_equal; lia.
    + unfold Wait_body in Hstep. simpl. rewrite Z.add_0_r, wrap64_small by done.
      case_decide; by simplify_eq/=.
  - rewrite Hd. assert (delta_in l s = [] ∨ delta_in l s ≠ []) as [->|Hne]
      by (destruct (delta_in l s); auto).
    + simpl. by rewrite Z.add_0_r, wrap64_small.
    + destruct l as [| f| |]; try done. simpl in *.
      destruct (fb_pc (pk_fibers s f)) as [| |[n| |]| | | | | | |] eqn:E; try done;
      unfold fiber_step in Hstep; rewrite E in Hstep; simpl in Hstep.
      * simplify_eq/=. unfold sz_add in Hd. rewrite <- Hd at 1. f_equal. lia.
      * unfold Done_body in Hstep. case_decide; simplify_eq/=; rewrite <- Hd at 1;
          unfold sz_sub; f_equal; lia.
Qed.

Lemma wg_run_counter affine tr (s : wg_state) :
  run (wg_system affine) tr (park_init 0%Z) = Some s →
  pk_data s = wrap64 (sum (along affine delta_in tr (park_init 0%Z))).
Proof.
  revert s. induction tr as [|l tr IH] using rev_ind; intros s Hr.
  - simpl in Hr. by simplify_eq.
  - rewrite run_app in Hr. destruct (run (wg_system affine) tr (park_init 0%Z)) as [s1|] eqn:E;
      simpl in Hr; [|done]. destruct (park_step affine l s1) as [s2|] eqn:Es; simpl in Hr; [|done].
    injection Hr as <-. rewrite (along_snoc _ _ _ _ _ _ E), sum_app, <- wrap64_add_l, <- (IH s1 eq_refl).
    apply (wg_step_counter affine); [|done]. rewrite (IH s1 eq_refl). apply wrap64_size.
Qed.

(** [Wait] returns without suspending in a step, or waiters are released by it. *)
Definition lets_through (l : park_label wg_op) (s s' : wg_state) : Prop :=
  takes_in l s ≠ [] ∨
  ∃ f, l = FiberStep f ∧ fb_pc (pk_fibers s f) = Crit Wait ∧ suspended (pk_fibers s' f) = false.

(** C21: nobody gets past [Wait] early: a [Wait] that does not suspend, and a [Done]
    that releases waiters, happen only when the sum of all the [Add]s so far less
    the number of [Done]s is zero (modulo 2^64), and then all waiters are released,
    in the order they parked.  This holds on every executor and for any clients. *)
Theorem wait_group_waits_for_zero affine tr l s s' :
  run (wg_system affine) tr (park_init 0%Z) = Some s → park_step affine l s = Some s' →
  lets_through l s s' →
  wrap64 (sum (along affine delta_in (tr ++ [l]) (park_init 0%Z))) = 0%Z ∧
  (takes_in l s = [] ∨ (takes_in l s = pk_waiters s ∧ pk_waiters s' = [])).
Proof.
  intros Hr Hstep Hl. rewrite <- (wg_run_counter affine (tr ++ [l]) s')
    by (rewrite run_app, Hr; cbn; by rewrite Hstep).
  assert (is_size (pk_data s)) as Hsz by (rewrite (wg_run_counter _ _ _ Hr); apply wrap64_size).
  destruct Hl as [Ht|(f & -> & E & Hs)].
  - destruct l as [|f| |]; try done. simpl in Ht, Hstep |- *. unfold fiber_step in Hstep.
    destruct (fb_pc (pk_fibers s f)) as [| |[n| |]| | | | | | |]; try done; simpl in *.
    + unfold Done_body in *. case_decide; [|done]. simplify_eq/=. auto.
    + unfold Wait_body in *. by case_decide.
  - simpl in *. unfold fiber_step in Hstep. rewrite E in *. simpl in *. unfold Wait_body in *.
    case_decide; simplify_eq/=; [by rewrite upd_eq in Hs|]. unfold is_size in *.
    split; [lia|by left].
Qed.

(** Fiber 0 adds one; fiber 1 waits; fiber 0 is done. *)
Definition wait_schedule : list (park_label wg_op) :=
  (CallOp 0 (Add 1) :: repeat (FiberStep 0) 7) ++
  [CallOp 1 Wait; FiberStep 1; FiberStep 1; WorkerStep 1; WorkerStep 1; WorkerStep 1] ++
  [CallOp 0 Done; FiberStep 0].

Definition wait_state : wg_state :=
  default (park_init 0%Z) (run (wg_system true) wait_schedule (park_init 0%Z)).

Definition release_state : wg_state := default wait_state (park_step true (FiberStep 0) wait_state).

Lemma wait_group_waits_for_zero_witness :
  wrap64 (sum (along true delta_in (wait_schedule ++ [FiberStep 0]) (park_init 0%Z))) = 0%Z ∧
  (takes_in (FiberStep 0) wait_state = [] ∨
   (takes_in (FiberStep 0) wait_state = pk_waiters wait_state ∧ pk_waiters release_state = [])).
Proof.
  apply (wait_group_waits_for_zero true wait_schedule (FiberStep 0) wait_state release_state);
    [vm_compute; reflexivity..|]. left. vm_compute. discriminate.
Defined.

(** ** No waiter is lost while the counter does not overflow *)

Record wg_inv (s : wg_state) : Prop := WgInv {
  wi_size : is_size (pk_data s);
  wi_waiting : someone_waits s → pk_data s ≠ 0%Z
}.

Lemma wg_bounded_reachable s : reachable wg_bounded s → reachable (wg_system true) s.
Proof.
  intros (s0 & tr & Hi & Hr). exists s0, tr. split; [done|]. clear Hi. revert s0 Hr.
  induction tr as [|l tr IH]; intros s0 Hr; [done|]. cbn in Hr |- *.
  destruct (overflows l s0); [done|]. destruct (park_step true l s0); simpl in *; [auto|done].
Qed.

Lemma wg_crit_inv (s s' : wg_state) f op :
  park_inv s → wg_inv s → fb_pc (pk_fibers s f) = Crit op → overflows (FiberStep f) s = false →
  (∀ n, op = Add n → (0 ≤ n)%Z) → fiber_step f s = Some s' → someone_waits s' → pk_data s' ≠ 0%Z.
Proof.
  intros Hp [Hsz Hw] E Ho Hn Hstep Hsw. unfold overflows in Ho. simpl in Ho. rewrite E in Ho.
  apply bool_decide_eq_false in Ho. unfold is_size in Hsz.
  assert (∀ g, fb_worker (pk_fibers s g) ≠ WPark) as Hnp by (intros g; by eapply crit_not_parking).
  unfold fiber_step in Hstep. rewrite E in Hstep.
  assert (∀ d i o, Some s' = Some (with_fiber (with_list s d (pk_waiters s)) f
    (set_fb_pc (pk_fibers s f) (WakeIn op i o))) → pk_data s ≠ 0%Z) as Hleave.
  { intros d i o [= ->]. apply Hw. destruct Hsw as [Hsw|[g Hg]]; [by left|]. destruct (Hnp g).
    simpl in Hg. upd_cases. done. }
  destruct op as [n| |]; simpl in Hstep, Ho.
  - assert (pk_data s ≠ 0%Z) by (by eapply Hleave). specialize (Hn n eq_refl). simplify_eq. simpl.
    rewrite sz_add_small; unfold is_size; lia.
  - unfold Done_body in Hstep. case_decide as Hd; simplify_eq; [|done].
    destruct Hsw as [Hsw|[g Hg]]; [done|]. destruct (Hnp g). simpl in Hg. by upd_cases.
  - unfold Wait_body in Hstep. case_decide as Hd; simplify_eq; simpl; [lia|].
    by eapply Hleave.
Qed.

Lemma wg_invariant : invariant wg_bounded wg_inv.
Proof.
  apply (invariant_on_top _ (λ s, park_inv s ∧ ops_called s)).
  { intros s Hs%wg_bounded_reachable. split; [by apply park_invariant|].
    by apply (ops_called_invariant true). }
  - intros s (d & Hd & ->). split; simpl; [by rewrite Hd|]. intros [H|[f H]]; done.
  - intros l s s' [Hp Hc] Hw Hstep. cbn in Hstep. destruct (overflows l s) eqn:Ho; [done|].
    split.
    + rewrite (wg_step_counter true l s s'); [apply wrap64_size|apply Hw|done].
    + destruct (step_data true l s s' Hstep) as [(f & op & -> & E)|[-> Hsw]].
      * apply (wg_crit_inv s s' f op); try done. intros n ->.
        destruct (Hc f (Add n)) as [u Hu]; [by rewrite E|]. simpl in Hu.
        apply bool_decide_eq_true in Hu. lia.
      * intros ?%Hsw. by apply Hw.
Qed.

(** C22: no waiter is lost: as long as no [Add] overflows the 64-bit counter, whenever
    nothing can move except by a client's call, a fiber still suspended in [Wait] is
    in the list and the counter is not zero, so that the [Done] which brings it to
    zero will find it. *)
Theorem wait_group_no_lost_waiter s f :
  reachable wg_bounded s → quiescent s → fb_pc (pk_fibers s f) ≠ Out →
  f ∈ pk_waiters s ∧ (0 < pk_data s < size_bound)%Z.
Proof.
  intros Hr Hq Hf. destruct (wg_invariant s Hr) as [Hsz Hw].
  pose proof (park_invariant s (wg_bounded_reachable s Hr)) as Hp.
  destruct (proj2 (quiescent_fibers s Hp Hq) f) as [?|(_ & _ & Hin)]; [done|].
  split; [done|]. unfold is_size in Hsz.
  assert (pk_data s ≠ 0%Z) by (apply Hw; left; by apply (list_elem_not_nil f)). lia.
Qed.

Definition idle_state : wg_state :=
  default (park_init 0%Z) (run wg_bounded (firstn 14 wait_schedule) (park_init 0%Z)).

Lemma idle_quiescent : quiescent idle_state.
Proof.
  intros [f op|f|f|f] s' Hs; [by exists f, op|exfalso..]; revert Hs;
    destruct f as [|[|f]]; vm_compute; discriminate.
Qed.

Lemma wait_group_no_lost_waiter_witness :
  1 ∈ pk_waiters idle_state ∧ (0 < pk_data idle_state < size_bound)%Z.
Proof.
  apply (wait_group_no_lost_waiter idle_state 1).
  - apply (run_reachable wg_bounded); [by exists 0%Z|]. vm_compute. eauto.
  - apply idle_quiescent.
  - vm_compute. discriminate.
Defined.

(** [Done] on a counter of zero wraps it to the largest value. *)
Lemma Done_underflow ws : Done_body 0 ws = ((size_bound - 1)%Z, ws, Leave [] []).
Proof. vm_compute. reflexivity. Qed.
