(* ===== verification/Event.v ===== *)
(** * fiber/sync/event: the fiber event

    [Event] as an instance of the suspension protocol of [Parking.v].  It has no
    field of its own: [Wait] always suspends, and [Fire] schedules every waiter
    while it still holds the guard.  Here the guard is a [std::unique_lock] that
    is moved into the awaiter; [unlock] releases the spinlock and then clears the
    ownership flag, as [QueueSpinLock::Guard] does. *)

From stdpp Require Import prelude list.
From S2P Require Import Prelude.
From S2P Require Import Lock.
From S2P Require Import Parking.

Inductive event_op := WaitEvent | Fire.

Definition WaitEvent_body (u : unit) (ws : list tid) : unit * list tid * verdict := (u, ws, Park).

(** The loop of [Fire]: pop a waiter and schedule it, until the list is empty. *)
Definition Fire_body (u : unit) (event_waiters_ : list tid) : unit * list tid * verdict :=
  (u, [], Leave event_waiters_ []).

#[export] Instance event : Primitive unit event_op unit := {
  crit op := match op with WaitEvent => WaitEvent_body | Fire => Fire_body end;
  client_may _ _ := true;
  client_after _ u := u;
  data0 _ := True;
  client0 := tt
}.

#[export] Instance event_laws : PrimitiveLaws unit event_op unit.
Proof. split. intros [] d ws d' ws' v [= <- <- <-]; simpl; by rewrite ?app_nil_r. Qed.

Abbreviation event_state := (parking unit event_op unit).

Definition event_system (affine : bool) : lts event_state (park_label event_op) :=
  parking_system affine.

(** The body of [Fire] has run, and its fiber has not left the guard. *)
Definition firing (s : event_state) (g : tid) : list tid := wakes (fb_pc (pk_fibers s g)).

(** [Fire] takes exactly the fibers that are waiting, in the order they came;
    every one of them is suspended with no wake-up under way, and no fiber is
    taken by two [Fire]s or twice by one. *)
Lemma event_fire s f s' :
  reachable (event_system true) s → fb_pc (pk_fibers s f) = Crit Fire →
  fiber_step f s = Some s' →
  firing s' f = pk_waiters s ∧ pk_waiters s' = [] ∧ NoDup (firing s' f) ∧
  ∀ w, w ∈ firing s' f → parked (pk_fibers s' w) ∧ ∀ g, w ∈ firing s' g → g = f.
Proof.
  intros Hr E Hstep. assert (park_inv s') as Hp.
  { apply park_invariant. by apply (reachable_step (event_system true) (FiberStep f) s). }
  assert (firing s' f = pk_waiters s ∧ pk_waiters s' = []) as [Hf He].
  { unfold fiber_step in Hstep. rewrite E in Hstep. simpl in Hstep. simplify_eq.
    unfold firing. simpl. rewrite upd_eq. simpl. by rewrite app_nil_r. }
  split; [done|]. split; [done|]. split; [apply (pi_wakes_nodup _ Hp)|].
  intros w Hw. split; [by apply (pi_wakes _ Hp f)|]. intros g Hg. by eapply (pi_wakes_one _ Hp).
Qed.

(** Fibers 1 and 2 wait, then fiber 0 fires. *)
Definition wait_event (f : tid) : list (park_label event_op) :=
  [CallOp f WaitEvent; FiberStep f; FiberStep f; WorkerStep f; WorkerStep f; WorkerStep f].

Definition fire_schedule : list (park_label event_op) :=
  wait_event 2 ++ wait_event 1 ++ [CallOp 0 Fire; FiberStep 0].

Definition fire_state : event_state :=
  default (park_init tt) (run (event_system true) fire_schedule (park_init tt)).

Definition fired_state : event_state := default fire_state (fiber_step 0 fire_state).

Lemma event_fire_witness :
  firing fired_state 0 = [2; 1] ∧ pk_waiters fired_state = [] ∧ NoDup (firing fired_state 0) ∧
  ∀ w, w ∈ firing fired_state 0 →
    parked (pk_fibers fired_state w) ∧ ∀ g, w ∈ firing fired_state g → g = 0.
Proof.
  apply (event_fire fire_state 0 fired_state); [|vm_compute; reflexivity..].
  apply (run_reachable (event_system true)); [by exists tt|]. vm_compute. eauto.
Defined.

(** Once everything that can move has moved, the fibers still inside an operation
    are exactly those in the list: no [Fire] in the past lost one, and the next
    [Fire] takes them all. *)
Theorem event_no_lost_waiter s f :
  reachable (event_system true) s → quiescent s →
  fb_pc (pk_fibers s f) ≠ Out ↔ f ∈ pk_waiters s.
Proof.
  intros Hr Hq. pose proof (park_invariant s Hr) as Hp. split.
  - intros Hf. by destruct (proj2 (quiescent_fibers s Hp Hq) f) as [?|(_ & _ & ?)].
  - intros Hin%(pi_waiters _ Hp) E. destruct Hin as [Hs _]. unfold suspended in Hs.
    by rewrite E in Hs.
Qed.

Definition parked_state : event_state :=
  default (park_init tt) (run (event_system true) (wait_event 2 ++ wait_event 1) (park_init tt)).

Lemma parked_quiescent : quiescent parked_state.
Proof.
  intros [f op|f|f|f] s' Hs; [by exists f, op|exfalso..]; revert Hs;
    destruct f as [|[|[|f]]]; vm_compute; discriminate.
Qed.

Lemma event_no_lost_waiter_witness :
  fb_pc (pk_fibers parked_state 2) ≠ Out ↔ 2 ∈ pk_waiters parked_state.
Proof.
  apply (event_no_lost_waiter parked_state 2); [|apply parked_quiescent].
  apply (run_reachable (event_system true)); [by exists tt|]. vm_compute. eauto.
Defined.
