(* ===== verification/Strand.v ===== *)
(** * executor/strand: the strand over another executor

    [IntrusiveStrand] serialises the tasks submitted to it: [Submit] queues the
    task under the spinlock and, when the strand is [READY], plans a batch, which
    is one task of the underlying executor running [RunBatch].

    The threads are the callers of [Submit] and the workers that run a batch; a
    task that submits to its own strand is a caller like any other.  The
    underlying executor is the number of batches it has been given and not yet
    started, and may start one on any idle thread at any time.  Each access to
    the atomic [state] is a step of its own; the critical sections of [RunBatch]
    and [IsTasksEmpty], which make one access each, are one step, enabled when
    the spinlock is free. *)

From stdpp Require Import prelude list.
From S2P Require Import Prelude.
From S2P Require Import Lock.

Abbreviation task := nat.

Inductive State := READY | PLAN | RUNNING.

#[export] Instance State_eq : EqDecision State.
Proof. solve_decision. Defined.

(** [state.compare_exchange_strong(from, to)]: success, and the new value. *)
Definition ChangeState (from to state : State) : bool * State :=
  if decide (state = from) then (true, to) else (false, state).

Inductive strand_pc :=
| SIdle
| SubLock (k : task)                  (** [Submit]: constructing the lock guard *)
| SubPush (k : task)                  (** [tasks.Push(task)] *)
| SubPlan                             (** [PlanTask(READY)]: the compare-exchange *)
| SubInternal                         (** [SubmitInternal] *)
| SubUnlock                           (** the lock guard's destructor *)
| BStart                              (** [RunBatch]: [ChangeState(PLAN, RUNNING)] *)
| BSwap                               (** the tasks are taken under the lock *)
| BRun (scheduled_tasks : list task)  (** the head of the loop *)
| BTask (k : task) (scheduled_tasks : list task)  (** inside [task->Run()] *)
| BEmpty                              (** [IsTasksEmpty] *)
| BReady                              (** [ChangeState(RUNNING, READY)] *)
| BPlan                               (** [PlanTask(RUNNING)]: the compare-exchange *)
| BInternal                           (** [SubmitInternal] *)
| BFailed.                            (** an assertion failed *)

Record IntrusiveStrand := MkStrand {
  spinlock : option tid;
  tasks : list task;
  state : State;
  underlying : nat;            (** batches submitted and not started *)
  pcs : tid → strand_pc;
  submitted : list task;       (** every task pushed so far, in order *)
  executed : list task         (** every task whose [Run] has returned, in order *)
}.

Inductive strand_label :=
| CallSubmit (t : tid) (k : task)
| StartBatch (t : tid)
| StrandStep (t : tid).

Section steps.
  Implicit Types s : IntrusiveStrand.

Definition at_strand s (t : tid) (p : strand_pc) : IntrusiveStrand :=
  MkStrand (spinlock s) (tasks s) (state s) (underlying s) (pcs s)⟦t ↦ p⟧ (submitted s) (executed s).

Definition set_spinlock s (o : option tid) : IntrusiveStrand :=
  MkStrand o (tasks s) (state s) (underlying s) (pcs s) (submitted s) (executed s).

Definition set_state s (st : State) : IntrusiveStrand :=
  MkStrand (spinlock s) (tasks s) st (underlying s) (pcs s) (submitted s) (executed s).

Definition set_tasks s (ks : list task) : IntrusiveStrand :=
  MkStrand (spinlock s) ks (state s) (underlying s) (pcs s) (submitted s) (executed s).

Definition set_underlying s (n : nat) : IntrusiveStrand :=
  MkStrand (spinlock s) (tasks s) (state s) n (pcs s) (submitted s) (executed s).

(** [tasks.Push(task)] *)
Definition push_task s (k : task) : IntrusiveStrand :=
  MkStrand (spinlock s) (tasks s ++ [k]) (state s) (underlying s) (pcs s)
    (submitted s ++ [k]) (executed s).

Definition SubmitInternal s : IntrusiveStrand := set_underlying s (S (underlying s)).

Definition log_task s (k : task) : IntrusiveStrand :=
  MkStrand (spinlock s) (tasks s) (state s) (underlying s) (pcs s) (submitted s) (executed s ++ [k]).

(** [PlanTask(from)]: the compare-exchange, then the position that follows. *)
Definition PlanTask s (from : State) (t : tid) (yes no : strand_pc) : IntrusiveStrand :=
  let '(ok, st) := ChangeState from PLAN (state s) in
  at_strand (set_state s st) t (if ok : bool then yes else no).

(** [Submit] *)
Definition Submit_step s (t : tid) : option IntrusiveStrand :=
  match pcs s t with
  | SubLock k =>
      match acquire t (spinlock s) with
      | Some o => Some (at_strand (set_spinlock s o) t (SubPush k))
      | None => None
      end
  | SubPush k => Some (at_strand (push_task s k) t SubPlan)
  | SubPlan => Some (PlanTask s READY t SubInternal SubUnlock)
  | SubInternal => Some (at_strand (SubmitInternal s) t SubUnlock)
  | SubUnlock =>
      match release t (spinlock s) with
      | Some o => Some (at_strand (set_spinlock s o) t SIdle)
      | None => Some (at_strand s t BFailed)
      end
  | _ => None
  end.

(** [RunBatch] *)
Definition RunBatch_step s (t : tid) : option IntrusiveStrand :=
  match pcs s t with
  | BStart =>
      let '(result, st) := ChangeState PLAN RUNNING (state s) in
      Some (at_strand (set_state s st) t (if result : bool then BSwap else BFailed))
  | BSwap =>
      match spinlock s, tasks s with
      | Some _, _ => None
      | None, [] => Some (at_strand s t BFailed)
      | None, ks => Some (at_strand (set_tasks s []) t (BRun ks))
      end
  | BRun [] => Some (at_strand s t BEmpty)
  | BRun (k :: ks) => Some (at_strand s t (BTask k ks))
  | BTask k ks => Some (at_strand (log_task s k) t (BRun ks))
  | BEmpty =>
      match spinlock s with
      | Some _ => None
      | None => Some (at_strand s t (match tasks s with [] => BReady | _ => BPlan end))
      end
  | BReady =>
      let '(result, st) := ChangeState RUNNING READY (state s) in
      Some (at_strand (set_state s st) t (if result : bool then SIdle else BFailed))
  | BPlan => Some (PlanTask s RUNNING t BInternal SIdle)
  | BInternal => Some (at_strand (SubmitInternal s) t SIdle)
  | _ => None
  end.

Definition strand_step (l : strand_label) s : option IntrusiveStrand :=
  match l with
  | CallSubmit t k =>
      match pcs s t with SIdle => Some (at_strand s t (SubLock k)) | _ => None end
  | StartBatch t =>
      match pcs s t, underlying s with
      | SIdle, S n => Some (at_strand (set_underlying s n) t BStart)
      | _, _ => None
      end
  | StrandStep t =>
      match Submit_step s t with Some s' => Some s' | None => RunBatch_step s t end
  end.

Definition new_strand : IntrusiveStrand := MkStrand None [] READY 0 (λ _, SIdle) [] [].

Definition strand : lts IntrusiveStrand strand_label := Lts (λ s, s = new_strand) strand_step.

(** ** The invariant *)

(** The right to run the strand's tasks: planned, or being exercised. *)
Inductive token := NoToken | Planned | Running.

Definition token_of (p : strand_pc) : token :=
  match p with
  | SubInternal | BStart | BInternal => Planned
  | BSwap | BRun _ | BTask _ _ | BEmpty | BReady | BPlan => Running
  | _ => NoToken
  end.

Definition in_lock (p : strand_pc) : bool :=
  match p with SubPush _ | SubPlan | SubInternal | SubUnlock => true | _ => false end.

(** The tasks a batch has taken and not finished. *)
Definition batch (p : strand_pc) : list task :=
  match p with BRun ks => ks | BTask k ks => k :: ks | _ => [] end.

(** [w] is the thread that has the token; nobody when it is with the underlying
    executor or there is none. *)
Definition holder_ok s (w : option tid) : Prop :=
  match state s, w with
  | READY, None => underlying s = 0
  | PLAN, None => underlying s = 1
  | PLAN, Some t => underlying s = 0 ∧ token_of (pcs s t) = Planned
  | RUNNING, Some t => underlying s = 0 ∧ token_of (pcs s t) = Running
  | _, _ => False
  end.

Definition needs_tasks (p : strand_pc) : bool :=
  match p with BSwap | BPlan => true | _ => false end.

Record strand_inv s (w : option tid) : Prop := StrandInv {
  si_spin : ∀ t, spinlock s = Some t ↔ in_lock (pcs s t) = true;
  si_one : ∀ t, token_of (pcs s t) ≠ NoToken → w = Some t;
  si_holder : holder_ok s w;
  si_tasks : state s = PLAN → tasks s ≠ [];
  si_needs : ∀ t, needs_tasks (pcs s t) = true → tasks s ≠ [];
  si_plan : ∀ t, pcs s t = SubPlan → tasks s ≠ [];
  si_fifo : submitted s =
    executed s ++ match w with Some t => batch (pcs s t) | None => [] end ++ tasks s;
  si_failed : ∀ t, pcs s t ≠ BFailed
}.
End steps.

(** ** Preservation *)

Section preservation.
  Implicit Types s : IntrusiveStrand.

(** A step of [t] that touches no shared field but the spinlock, and keeps the token
    and the batch where they are. *)
Lemma strand_local s s' w t p :
  strand_inv s w → pcs s' = (pcs s)⟦t ↦ p⟧ → tasks s' = tasks s → state s' = state s →
  underlying s' = underlying s → submitted s' = submitted s → executed s' = executed s →
  (∀ u, spinlock s' = Some u ↔ in_lock (pcs s' u) = true) →
  token_of p = token_of (pcs s t) → batch p = batch (pcs s t) →
  (needs_tasks p = true → tasks s ≠ []) → p ≠ SubPlan → p ≠ BFailed → strand_inv s' w.
Proof.
  intros [Hsp Hone Hh Ht Hn Hp Hf Hfail] Ep Et Est Eu Esub Eex Hsp' Htok Hb Hneed Hnp Hnf.
  assert (∀ u, token_of (pcs s' u) = token_of (pcs s u)) as Etok.
  { intros u. rewrite Ep. by upd_cases. }
  assert (∀ u, batch (pcs s' u) = batch (pcs s u)) as Eb by (intros u; rewrite Ep; by upd_cases).
  split; rewrite ?Et, ?Est, ?Esub, ?Eex; try done.
  - intros u. rewrite Etok. apply Hone.
  - revert Hh. unfold holder_ok. rewrite Est, Eu. destruct (state s), w; by rewrite ?Etok.
  - intros u. rewrite Ep. upd_cases; [done|apply Hn].
  - intros u. rewrite Ep. upd_cases. apply Hp.
  - rewrite Hf. by destruct w; rewrite ?Eb.
  - intros u. rewrite Ep. by upd_cases.
Qed.

(** The spinlock when [t] moves to a position with the same hold on it. *)
Lemma lock_same s w t p (o : option tid) :
  strand_inv s w → o = spinlock s → in_lock p = in_lock (pcs s t) →
  ∀ u, o = Some u ↔ in_lock ((pcs s)⟦t ↦ p⟧ u) = true.
Proof.
  intros Hinv -> Hp u. rewrite (si_spin _ _ Hinv u). upd_cases; [by rewrite Hp|done].
Qed.

Lemma lock_take s w t p :
  strand_inv s w → spinlock s = None → in_lock p = true →
  ∀ u, Some t = Some u ↔ in_lock ((pcs s)⟦t ↦ p⟧ u) = true.
Proof.
  intros Hinv Hs Hp u. pose proof (si_spin _ _ Hinv u) as Hu. rewrite Hs in Hu.
  upd_cases; [rewrite Hp; split; done|]. rewrite <- Hu. split; congruence.
Qed.

Lemma lock_drop s w t p :
  strand_inv s w → spinlock s = Some t → in_lock p = false →
  ∀ u, None = Some u ↔ in_lock ((pcs s)⟦t ↦ p⟧ u) = true.
Proof.
  intros Hinv Hs Hp u. pose proof (si_spin _ _ Hinv u) as Hu. rewrite Hs in Hu.
  upd_cases; [rewrite Hp; split; done|]. rewrite <- Hu. split; congruence.
Qed.

(** A thread in a token position is the holder, and what the state is then. *)
Lemma running_holder s w t : strand_inv s w → token_of (pcs s t) = Running →
  w = Some t ∧ state s = RUNNING ∧ underlying s = 0.
Proof.
  intros Hinv Ht. assert (w = Some t) as -> by (apply (si_one _ _ Hinv); congruence).
  pose proof (si_holder _ _ Hinv) as Hh. unfold holder_ok in Hh.
  destruct (state s); naive_solver congruence.
Qed.

Lemma planned_holder s w t : strand_inv s w → token_of (pcs s t) = Planned →
  w = Some t ∧ state s = PLAN ∧ underlying s = 0.
Proof.
  intros Hinv Ht. assert (w = Some t) as -> by (apply (si_one _ _ Hinv); congruence).
  pose proof (si_holder _ _ Hinv) as Hh. unfold holder_ok in Hh.
  destruct (state s); naive_solver congruence.
Qed.

(** Without the token a thread has no batch, and is not the holder. *)
Lemma no_token_batch p : token_of p = NoToken → batch p = [].
Proof. by destruct p. Qed.

Lemma needs_other s w t : strand_inv s w → (w = None ∨ w = Some t) →
  ∀ u, u ≠ t → needs_tasks (pcs s u) = false.
Proof.
  intros Hinv Hw u Hu. destruct (needs_tasks (pcs s u)) eqn:E; [exfalso|done].
  assert (token_of (pcs s u) ≠ NoToken) as Hne by (by destruct (pcs s u)).
  apply (si_one _ _ Hinv) in Hne. destruct Hw; congruence.
Qed.

(** A step of [t] that moves the token to it, or away from it. *)
Lemma strand_token s s' w w' t p :
  strand_inv s w → (w = None ∨ w = Some t) → (w' = None ∨ w' = Some t) →
  pcs s' = (pcs s)⟦t ↦ p⟧ → spinlock s' = spinlock s → in_lock p = in_lock (pcs s t) →
  (token_of p ≠ NoToken → w' = Some t) → holder_ok s' w' →
  (tasks s' = tasks s ∨ (spinlock s = None ∧ needs_tasks p = false)) →
  (state s' = PLAN → tasks s' ≠ []) → (needs_tasks p = true → tasks s' ≠ []) →
  p ≠ SubPlan → p ≠ BFailed →
  submitted s' = executed s' ++ match w' with Some _ => batch p | None => [] end ++ tasks s' →
  strand_inv s' w'.
Proof.
  intros Hinv Hw Hw' Ep Es Hl Htok Hh Ht Hst Hn Hnp Hnf Hf.
  pose proof (needs_other s w t Hinv Hw) as Hno.
  pose proof Hinv as [Hsp Hone _ _ _ Hp _ Hfail]. split; try done.
  - rewrite Ep, Es. intros u. by eapply lock_same.
  - intros u. rewrite Ep. upd_cases; [done|]. intros Hu%Hone. destruct Hw; congruence.
  - intros u. rewrite Ep. upd_cases; [done|]. by rewrite Hno.
  - intros u. rewrite Ep. upd_cases. intros Hu. destruct Ht as [->|[Hs _]]; [by eapply Hp|].
    assert (spinlock s = Some u) by (apply Hsp; by rewrite Hu). congruence.
  - rewrite Hf. destruct Hw' as [->| ->]; [done|]. by rewrite Ep, upd_eq.
  - intros u. rewrite Ep. by upd_cases.
Qed.

Lemma strand_push s w t k :
  strand_inv s w → pcs s t = SubPush k → strand_inv (at_strand (push_task s k) t SubPlan) w.
Proof.
  intros Hinv E. pose proof Hinv as [Hsp Hone Hh Ht Hn Hp Hf Hfail].
  assert (w ≠ Some t) as Hwt.
  { intros ->. unfold holder_ok in Hh. rewrite E in Hh. destruct (state s); naive_solver. }
  split; simpl.
  - eapply lock_same; [done|done|by rewrite E].
  - intros u. upd_cases; [done|apply Hone].
  - revert Hh. unfold holder_ok. simpl. destruct (state s), w; try done; by upd_cases.
  - intros _. by destruct (tasks s).
  - intros u _. by destruct (tasks s).
  - intros u _. by destruct (tasks s).
  - rewrite Hf, <-!(assoc (++)). do 2 f_equal. destruct w; [by upd_cases|done].
  - intros u. by upd_cases.
Qed.

Lemma strand_Submit s w t s' :
  strand_inv s w → Submit_step s t = Some s' → ∃ w', strand_inv s' w'.
Proof.
  intros Hinv Hstep. unfold Submit_step in Hstep.
  destruct (pcs s t) as [|k|k| | | | | |ks|k ks| | | | |] eqn:E; try done.
  - unfold acquire in Hstep. destruct (spinlock s) eqn:Es; simplify_eq. exists w.
    eapply (strand_local s _ w t); simpl; rewrite ?E; try done. by eapply lock_take.
  - simplify_eq. exists w. by apply strand_push.
  - simplify_eq. unfold PlanTask, ChangeState. case_decide as Hs.
    + assert (w = None ∧ underlying s = 0) as [-> Hu].
      { pose proof (si_holder _ _ Hinv) as Hh. unfold holder_ok in Hh. rewrite Hs in Hh.
        by destruct w. }
      exists (Some t). eapply (strand_token s _ None (Some t) t); simpl; rewrite ?E; eauto; try done.
      * unfold holder_ok. simpl. by rewrite upd_eq.
      * intros _. by apply (si_plan _ _ Hinv t).
      * apply (si_fifo _ _ Hinv).
    + exists w. eapply (strand_local s _ w t); simpl; rewrite ?E; try done.
      eapply lock_same; [done|done|by rewrite E].
  - simplify_eq. destruct (planned_holder s w t Hinv) as (-> & Hs & Hu); [by rewrite E|].
    exists None. eapply (strand_token s _ (Some t) None t); simpl; rewrite ?E; eauto; try done.
    + unfold holder_ok. simpl. rewrite Hs. lia.
    + apply (si_tasks _ _ Hinv).
    + rewrite (si_fifo _ _ Hinv), E. done.
  - assert (spinlock s = Some t) as Hs by (apply (si_spin _ _ Hinv); by rewrite E).
    rewrite Hs in Hstep. simpl in Hstep. rewrite decide_True in Hstep by done. simplify_eq.
    exists w. eapply (strand_local s _ w t); simpl; rewrite ?E; try done. by eapply lock_drop.
Qed.

(** [RunBatch] before the change to [RUNNING], and after the change back to [PLAN]. *)
Lemma strand_batch_planned s w t s' :
  strand_inv s w → token_of (pcs s t) = Planned → RunBatch_step s t = Some s' →
  ∃ w', strand_inv s' w'.
Proof.
  intros Hinv Hp Hstep. destruct (planned_holder s w t Hinv Hp) as (-> & Hs & Hu).
  unfold RunBatch_step, ChangeState in Hstep. rewrite Hs in Hstep.
  destruct (pcs s t) as [|k|k| | | | | |ks|k ks| | | | |] eqn:E; try done; simpl in Hstep.
  - simplify_eq. exists (Some t).
    eapply (strand_token s _ (Some t) (Some t) t); simpl; rewrite ?E; eauto; try done.
    + unfold holder_ok. simpl. by rewrite upd_eq.
    + intros _. by apply (si_tasks _ _ Hinv).
    + rewrite (si_fifo _ _ Hinv), E. done.
  - simplify_eq. exists None.
    eapply (strand_token s _ (Some t) None t); simpl; rewrite ?E; eauto; try done.
    + unfold holder_ok. simpl. rewrite Hs. lia.
    + apply (si_tasks _ _ Hinv).
    + rewrite (si_fifo _ _ Hinv), E. done.
Qed.

(** [RunBatch] in between: the thread has the token. *)
Lemma strand_batch_running s w t s' :
  strand_inv s w → token_of (pcs s t) = Running → RunBatch_step s t = Some s' →
  ∃ w', strand_inv s' w'.
Proof.
  intros Hinv Hp Hstep. destruct (running_holder s w t Hinv Hp) as (-> & Hs & Hu).
  unfold RunBatch_step, PlanTask, ChangeState in Hstep. rewrite ?Hs in Hstep.
  destruct (pcs s t) as [|k|k| | | | | |ks|k ks| | | | |] eqn:E; try done; simpl in Hstep.
  - destruct (spinlock s) eqn:El; [done|].
    destruct (tasks s) as [|k ks] eqn:Et; [by destruct (si_needs _ _ Hinv t); rewrite ?E|].
    simplify_eq. exists (Some t).
    eapply (strand_token s _ (Some t) (Some t) t); simpl; rewrite ?E; eauto; try done.
    + unfold holder_ok. simpl. rewrite Hs. by rewrite upd_eq.
    + by rewrite Hs.
    + rewrite (si_fifo _ _ Hinv), E, Et. simpl. by rewrite app_nil_r.
  - exists (Some t). destruct ks as [|k ks]; simplify_eq;
      (eapply (strand_local s _ (Some t) t); simpl; rewrite ?E; try done;
       eapply lock_same; [done|done|by rewrite E]).
  - simplify_eq. exists (Some t).
    eapply (strand_token s _ (Some t) (Some t) t); simpl; rewrite ?E; eauto; try done.
    + unfold holder_ok. simpl. rewrite Hs. by rewrite upd_eq.
    + by rewrite Hs.
    + rewrite (si_fifo _ _ Hinv), E. simpl. by rewrite <- (assoc (++)).
  - destruct (spinlock s) eqn:El; [done|]. simplify_eq. exists (Some t).
    eapply (strand_local s _ (Some t) t); simpl; rewrite ?E; try done; try by destruct (tasks s).
    eapply lock_same; [done|done|rewrite E; by destruct (tasks s)].
  - simplify_eq. exists None.
    eapply (strand_token s _ (Some t) None t); simpl; rewrite ?E; eauto; try done.
    + rewrite (si_fifo _ _ Hinv), E. done.
  - simplify_eq. exists (Some t).
    eapply (strand_token s _ (Some t) (Some t) t); simpl; rewrite ?E; eauto; try done.
    + unfold holder_ok. simpl. by rewrite upd_eq.
    + intros _. apply (si_needs _ _ Hinv t). by rewrite E.
    + rewrite (si_fifo _ _ Hinv), E. done.
Qed.

Lemma strand_RunBatch s w t s' :
  strand_inv s w → RunBatch_step s t = Some s' → ∃ w', strand_inv s' w'.
Proof.
  intros Hinv Hstep. destruct (token_of (pcs s t)) eqn:E.
  - unfold RunBatch_step in Hstep. by destruct (pcs s t).
  - by eapply strand_batch_planned.
  - by eapply strand_batch_running.
Qed.

Lemma strand_invariant : invariant strand (λ s, ∃ w, strand_inv s w).
Proof.
  apply invariant_intro.
  - intros s ->. exists None. by split.
  - intros l s s' [w Hinv] Hstep. destruct l as [t k|t|t]; simpl in Hstep.
    + destruct (pcs s t) eqn:E; simplify_eq. exists w.
      eapply (strand_local s _ w t); simpl; rewrite ?E; try done.
      eapply lock_same; [done|done|by rewrite E].
    + destruct (pcs s t) eqn:E; try done. destruct (underlying s) as [|n] eqn:Eu; simplify_eq.
      pose proof (si_holder _ _ Hinv) as Hh. unfold holder_ok in Hh. rewrite Eu in Hh.
      destruct (state s) eqn:Es, w as [u|]; try naive_solver. simplify_eq. exists (Some t).
      eapply (strand_token s _ None (Some t) t); simpl; rewrite ?E; eauto; try done.
      * unfold holder_ok. simpl. rewrite Es. by rewrite upd_eq.
      * apply (si_tasks _ _ Hinv).
      * apply (si_fifo _ _ Hinv).
    + destruct (Submit_step s t) eqn:E; simplify_eq; [by eapply strand_Submit|by eapply strand_RunBatch].
Qed.
End preservation.

(** ** Theorems *)

(** First in, first out: the tasks whose [Run] has returned are the first of those
    submitted, and the one being run is the next. *)
Lemma strand_fifo s t k ks :
  reachable strand s → pcs s t = BTask k ks →
  submitted s = executed s ++ k :: ks ++ tasks s.
Proof.
  intros Hr E. destruct (strand_invariant s Hr) as [w Hinv].
  assert (w = Some t) as -> by (apply (si_one _ _ Hinv); by rewrite E).
  rewrite (si_fifo _ _ Hinv), E. done.
Qed.

(** C14: the strand serialises: whatever the callers and the workers of the underlying
    executor do, at most one thread is running a task of the strand, and none of the
    assertions of [RunBatch] ever fails; and first in, first out: the tasks whose [Run]
    has returned are the first of those submitted, the one being run is the next, and the
    rest of its batch and the queue are what remains. *)
Theorem strand_exclusive s t1 t2 k1 k2 ks1 ks2 :
  reachable strand s →
  (∀ t, pcs s t ≠ BFailed) ∧
  (pcs s t1 = BTask k1 ks1 → pcs s t2 = BTask k2 ks2 → t1 = t2) ∧
  (pcs s t1 = BTask k1 ks1 → submitted s = executed s ++ k1 :: ks1 ++ tasks s).
Proof.
  intros Hr. destruct (strand_invariant s Hr) as [w Hinv]. split; [apply Hinv|].
  split; [|by apply strand_fifo]. intros E1 E2. assert (w = Some t1) by (apply (si_one _ _ Hinv); by rewrite E1).
  assert (w = Some t2) by (apply (si_one _ _ Hinv); by rewrite E2). congruence.
Qed.

(** [Submit] by one thread, undisturbed; a batch of [n] tasks by one thread. *)
Definition submit_alone (t : tid) (k : task) (planned : bool) : list strand_label :=
  CallSubmit t k :: repeat (StrandStep t) (if planned then 5 else 4).

Definition batch_alone (t : tid) (n : nat) : list strand_label :=
  StartBatch t :: StrandStep t :: StrandStep t :: repeat (StrandStep t) (n + n) ++
  repeat (StrandStep t) 3.

Definition strand_run (tr : list strand_label) (s : IntrusiveStrand) : IntrusiveStrand :=
  default s (run strand tr s).

(** Two tasks are submitted, and a worker is inside the first. *)
Definition busy_strand : IntrusiveStrand :=
  strand_run (submit_alone 0 7 true ++ submit_alone 0 8 false ++ firstn 4 (batch_alone 1 2)) new_strand.

Lemma busy_reachable : reachable strand busy_strand.
Proof. apply (run_reachable strand); [done|]. vm_compute. eauto. Qed.

Lemma strand_exclusive_witness :
  pcs busy_strand 1 = BTask 7 [8] ∧
  (∀ t, pcs busy_strand t ≠ BFailed) ∧
  submitted busy_strand = executed busy_strand ++ 7 :: [8] ++ [].
Proof.
  destruct (strand_exclusive busy_strand 1 1 7 7 [8] [8] busy_reachable) as (Hf & _ & Hq).
  split; [vm_compute; reflexivity|]. split; [exact Hf|]. apply Hq. vm_compute. reflexivity.
Defined.

(** Nothing is in progress. *)
Definition strand_idle (s : IntrusiveStrand) : Prop :=
  underlying s = 0 ∧ spinlock s = None ∧ state s = READY ∧ ∀ t, pcs s t = SIdle.

(** Task 8 is submitted after the batch has found the queue empty, and before it goes
    back to [READY]. *)
Definition lost_schedule : list strand_label :=
  submit_alone 0 7 true ++ firstn 7 (batch_alone 1 1) ++ submit_alone 0 8 false ++ [StrandStep 1].

Definition lost_strand : IntrusiveStrand := strand_run lost_schedule new_strand.

Lemma lost_reachable : reachable strand lost_strand.
Proof. apply (run_reachable strand); [done|]. vm_compute. eauto. Qed.

Lemma lost_idle : strand_idle lost_strand.
Proof.
  split; [|split; [|split]]; try (vm_compute; reflexivity).
  intros [|[|t]]; vm_compute; reflexivity.
Qed.

(** A task can be left behind: there is a reachable state in which nothing is in
    progress and no batch is planned, and yet a submitted task is still queued.  The
    [Submit] that queued it ran between the [IsTasksEmpty] and the
    [ChangeState(RUNNING, READY)] of the batch before. *)
Lemma strand_lost_task :
  ∃ s, reachable strand s ∧ strand_idle s ∧ tasks s = [8] ∧ executed s = [7] ∧
    submitted s = [7; 8].
Proof.
  exists lost_strand. split; [apply lost_reachable|]. split; [apply lost_idle|].
  by vm_compute.
Qed.

(** ** What the next [Submit] does *)

(** The loop of [RunBatch] runs all the tasks it has taken. *)
Lemma batch_loop t ks s :
  pcs s t = BRun ks →
  ∃ s', run strand (repeat (StrandStep t) (length ks + length ks)) s = Some s' ∧
    pcs s' t = BRun [] ∧ (∀ u, u ≠ t → pcs s' u = pcs s u) ∧
    spinlock s' = spinlock s ∧ tasks s' = tasks s ∧ state s' = state s ∧
    underlying s' = underlying s ∧ submitted s' = submitted s ∧ executed s' = executed s ++ ks.
Proof.
  revert s. induction ks as [|k ks IH]; intros s E; simpl.
  - exists s. by rewrite app_nil_r.
  - rewrite Nat.add_succ_r. simpl. unfold Submit_step, RunBatch_step. rewrite E. simpl.
    rewrite upd_eq. simpl.
    destruct (IH (at_strand (log_task (at_strand s t (BTask k ks)) k) t (BRun ks)))
      as (s' & Hr & Hp & Ho & H1 & H2 & H3 & H4 & H5 & H6); [simpl; by rewrite upd_eq|].
    exists s'. split; [done|]. split; [done|]. split.
    { intros u Hu. rewrite Ho by done. simpl. by rewrite !upd_ne. }
    repeat (split; [done|]). rewrite H6. simpl. by rewrite <- (assoc (++)).
Qed.

(** Execute the first step of a run. *)
Ltac strand_go tac :=
  erewrite run_step;
  [|cbn -[upd]; unfold Submit_step, RunBatch_step, PlanTask, ChangeState, acquire, release;
    cbn -[upd]; rewrite ?upd_eq; cbn -[upd]; tac; cbn -[upd]; reflexivity].

(** [Submit] on an idle strand plans a batch. *)
Lemma submit_idle s t k : strand_idle s →
  ∃ s', run strand (submit_alone t k true) s = Some s' ∧ (∀ u, pcs s' u = SIdle) ∧
    spinlock s' = None ∧ tasks s' = tasks s ++ [k] ∧ state s' = PLAN ∧ underlying s' = 1 ∧
    submitted s' = submitted s ++ [k] ∧ executed s' = executed s.
Proof.
  intros (Hu & Hl & Hs & Hp). unfold submit_alone. cbn [repeat].
  strand_go ltac:(rewrite (Hp t)). strand_go ltac:(rewrite Hl). strand_go idtac.
  strand_go ltac:(rewrite Hs, decide_True by done). strand_go idtac. strand_go ltac:(rewrite decide_True by done).
  eexists. split; [done|]. simpl. rewrite Hu. repeat split; try done.
  intros u. simpl. by upd_cases.
Qed.

(** A planned batch runs everything that is queued, and the strand is idle again. *)
Lemma batch_idle s t : (∀ u, pcs s u = SIdle) → spinlock s = None → state s = PLAN →
  underlying s = 1 → tasks s ≠ [] →
  ∃ s', run strand (batch_alone t (length (tasks s))) s = Some s' ∧ strand_idle s' ∧
    tasks s' = [] ∧ submitted s' = submitted s ∧ executed s' = executed s ++ tasks s.
Proof.
  intros Hp Hl Hs Hu Ht. unfold batch_alone. cbn [repeat].
  strand_go ltac:(rewrite (Hp t), Hu). strand_go ltac:(rewrite Hs, decide_True by done).
  destruct (tasks s) as [|k ks] eqn:Et; [done|]. strand_go ltac:(rewrite Hl, Et).
  set (s1 := at_strand _ _ _). rewrite run_app.
  destruct (batch_loop t (k :: ks) s1) as (s2 & Hr & H0 & Ho & H1 & H2 & H3 & H4 & H5 & H6).
  { unfold s1. simpl. by rewrite upd_eq. }
  rewrite Hr. cbn [mbind option_bind].
  strand_go ltac:(rewrite H0). strand_go ltac:(rewrite H1, H2; cbn -[upd]; rewrite Hl). strand_go ltac:(rewrite H3, decide_True by done).
  eexists. split; [done|]. unfold strand_idle. simpl. rewrite H1, H2, H4, H5, H6.
  split; [|done]. split; [done|]. split; [done|]. split; [done|].
  intros u. upd_cases. rewrite Ho by done. simpl. by upd_cases.
Qed.

(** Nothing is lost for good: from every reachable idle state, the next task
    submitted brings with it every task left behind: after the batch it plans, all
    the tasks ever submitted have run, in order, and the strand is idle and empty. *)
Lemma strand_next_submit_recovers s t u k :
  reachable strand s → strand_idle s →
  ∃ s', run strand (submit_alone t k true ++ batch_alone u (S (length (tasks s)))) s = Some s' ∧
    strand_idle s' ∧ tasks s' = [] ∧ executed s' = submitted s ++ [k] ∧
    submitted s' = submitted s ++ [k].
Proof.
  intros Hr Hi. destruct (strand_invariant s Hr) as [w Hinv].
  destruct (submit_idle s t k Hi) as (s1 & Hr1 & H1 & H2 & H3 & H4 & H5 & H6 & H7).
  destruct (batch_idle s1 u) as (s2 & Hr2 & Hi2 & Ht2 & Hs2 & He2); try done.
  { rewrite H3. by destruct (tasks s). }
  rewrite H3, length_app, Nat.add_comm in Hr2. simpl in Hr2.
  exists s2. rewrite run_app, Hr1. split; [done|]. split; [done|]. split; [done|].
  split; [|congruence]. rewrite He2, H3, H7, (si_fifo _ _ Hinv), <-!(assoc (++)). f_equal.
  destruct w as [v|]; [|done]. destruct Hi as (_ & _ & _ & Hp). by rewrite Hp.
Qed.

Lemma strand_next_submit_recovers_witness :
  ∃ s', run strand (submit_alone 0 9 true ++ batch_alone 1 2) lost_strand = Some s' ∧
    strand_idle s' ∧ tasks s' = [] ∧ executed s' = [7; 8; 9] ∧ submitted s' = [7; 8; 9].
Proof.
  apply (strand_next_submit_recovers lost_strand 0 1 9 lost_reachable lost_idle).
Defined.
