(* ===== verification/IntrusivePool.v ===== *)
(** * executor/pool/intrusive_pool and executor/executor.h: the thread pool

    [IntrusiveThreadPool] on top of the counters and the condition variable of
    [Shutdowner].  The threads are the pool's workers and its clients, who call
    [Submit] and [WaitIdle]; client 0 owns the pool, so that it also calls [Start] and
    the destructor.  Every access to an atomic is a step; a critical section that makes
    one access is one step.

    [Shutdowner::mutex] only excludes the callers of [WaitIdle] from each other:
    [RemoveTask] and [NotifyAll] do not take it, so it does not appear here, and
    reading the counter, starting to wait and being notified are separate steps.
    [mutex_workers_] does protect what it should: testing [count_workers_] and
    starting to wait is one step. *)

From stdpp Require Import prelude list.
From S2P Require Import Prelude.

Abbreviation task := nat.

Inductive worker_pc :=
| WStart              (** the thread is created: [CurrentPool = this] *)
| WTake               (** [tasks.Pop()] under the mutex *)
| WRun (k : task)     (** inside [task->Run()] *)
| WRemove             (** [RemoveTask()] *)
| WNotify             (** [NotifyAll()] *)
| WCheck              (** [IsShutdown()] *)
| WExit               (** [count_workers_--] *)
| WNotifyOne          (** [empty_workers_.notify_one()] *)
| WDone.

#[export] Instance worker_pc_eq : EqDecision worker_pc.
Proof. solve_decision. Defined.

Inductive client_pc :=
| CIdle
| CCheck (k : task)   (** [Submit]: [IsShutdown()] *)
| CAdd (k : task)     (** [Submit]: [AddTask()] *)
| CPush (k : task)    (** [Submit]: [tasks.Push(task)] under the mutex *)
| CTest               (** [WaitIdle]: the condition of the loop *)
| CBlock              (** [WaitIdle]: the condition was true, [wait] not yet reached *)
| CBlocked            (** [WaitIdle]: waiting for a notification *)
| CCount (i : nat)    (** [Start]: the condition of the loop, and [count_workers_++] *)
| CSpawn (i : nat)    (** [Start]: the creation of thread [i] *)
| CShut               (** the destructor: [StartShutdown()] *)
| CWait               (** [WaitShutdown]: the condition of the loop *)
| CWaiting            (** [WaitShutdown]: waiting for a notification *)
| CJoin (i : nat)     (** the destructor: [join] of thread [i], and the assertion *)
| CGone
| CFailed.            (** [assert(0 == GetTasks())] failed *)

Record pool := MkPool {
  workers_count_ : nat;
  count_tasks : Z;
  shutdown_ : bool;
  tasks : list task;
  workers : list worker_pc;
  count_workers_ : Z;
  CurrentPool : list bool;  (** thread-local: whether it points to the pool *)
  clients : list client_pc;
  submitted : list task;    (** every task counted by [AddTask], in order *)
  executed : list task      (** every task whose [Run] has returned *)
}.

Inductive pool_label :=
| CallStart
| CallDestroy
| CallSubmit (c : nat) (k : task)
| CallWaitIdle (c : nat)
| ClientStep (c : nat)
| SpuriousWake (c : nat)
| WorkerStep (w : nat).

Definition set_workers (s : pool) (ws : list worker_pc) : pool :=
  MkPool (workers_count_ s) (count_tasks s) (shutdown_ s) (tasks s) ws (count_workers_ s)
    (CurrentPool s) (clients s) (submitted s) (executed s).

Definition set_worker (s : pool) (w : nat) (p : worker_pc) : pool :=
  set_workers s (<[w := p]> (workers s)).

Definition set_clients (s : pool) (cs : list client_pc) : pool :=
  MkPool (workers_count_ s) (count_tasks s) (shutdown_ s) (tasks s) (workers s) (count_workers_ s)
    (CurrentPool s) cs (submitted s) (executed s).

Definition set_client (s : pool) (c : nat) (p : client_pc) : pool :=
  set_clients s (<[c := p]> (clients s)).

Definition set_pool_tasks (s : pool) (ks : list task) : pool :=
  MkPool (workers_count_ s) (count_tasks s) (shutdown_ s) ks (workers s) (count_workers_ s)
    (CurrentPool s) (clients s) (submitted s) (executed s).

Definition set_count_workers (s : pool) (n : Z) : pool :=
  MkPool (workers_count_ s) (count_tasks s) (shutdown_ s) (tasks s) (workers s) n
    (CurrentPool s) (clients s) (submitted s) (executed s).

Definition set_current (s : pool) (cs : list bool) : pool :=
  MkPool (workers_count_ s) (count_tasks s) (shutdown_ s) (tasks s) (workers s) (count_workers_ s)
    cs (clients s) (submitted s) (executed s).

(** [Shutdowner] *)
Definition AddTask (s : pool) (k : task) : pool :=
  MkPool (workers_count_ s) (sz_add (count_tasks s) 1) (shutdown_ s) (tasks s) (workers s)
    (count_workers_ s) (CurrentPool s) (clients s) (submitted s ++ [k]) (executed s).

Definition RemoveTask (s : pool) : pool :=
  MkPool (workers_count_ s) (sz_sub (count_tasks s) 1) (shutdown_ s) (tasks s) (workers s)
    (count_workers_ s) (CurrentPool s) (clients s) (submitted s) (executed s).

Definition StartShutdown (s : pool) : pool :=
  MkPool (workers_count_ s) (count_tasks s) true (tasks s) (workers s) (count_workers_ s)
    (CurrentPool s) (clients s) (submitted s) (executed s).

Definition notified (p : client_pc) : client_pc :=
  match p with CBlocked => CTest | _ => p end.

Definition NotifyAll (s : pool) : pool := set_clients s (notified <$> clients s).

(** [empty_workers_.notify_one()]: only the destructor waits on it. *)
Definition notify_one (s : pool) : pool :=
  match clients s !! 0 with Some CWaiting => set_client s 0 CWait | _ => s end.

Definition finish_task (s : pool) (k : task) : pool :=
  MkPool (workers_count_ s) (count_tasks s) (shutdown_ s) (tasks s) (workers s)
    (count_workers_ s) (CurrentPool s) (clients s) (submitted s) (executed s ++ [k]).

(** [workers_.push_back(std::make_unique<std::thread>(...))] *)
Definition spawn (s : pool) : pool :=
  set_current (set_workers s (workers s ++ [WStart])) (CurrentPool s ++ [false]).

(** [Current()] on the thread of a worker, or on another thread. *)
Definition Current (s : pool) (thread : option nat) : bool :=
  match thread with Some w => default false (CurrentPool s !! w) | None => false end.

(** [Start], [Submit], [WaitIdle] and the destructor. *)
Definition client_step (s : pool) (c : nat) : option pool :=
  p ← clients s !! c;
  match p with
  | CCheck k => Some (set_client s c (if shutdown_ s then CIdle else CAdd k))
  | CAdd k => Some (set_client (AddTask s k) c (CPush k))
  | CPush k => Some (set_client (set_pool_tasks s (tasks s ++ [k])) c CIdle)
  | CTest => Some (set_client s c (if decide (0 = count_tasks s)%Z then CIdle else CBlock))
  | CBlock => Some (set_client s c CBlocked)
  | CCount i =>
      if decide (i < workers_count_ s)
      then Some (set_client (set_count_workers s (sz_add (count_workers_ s) 1)) c (CSpawn i))
      else Some (set_client s c CIdle)
  | CSpawn i => Some (set_client (spawn s) c (CCount (S i)))
  | CShut => Some (set_client (StartShutdown s) c CWait)
  | CWait => Some (set_client s c (if decide (0 = count_workers_ s)%Z then CJoin 0 else CWaiting))
  | CJoin i =>
      match workers s !! i with
      | Some WDone => Some (set_client s c (CJoin (S i)))
      | Some _ => None
      | None => Some (set_client s c (if decide (0 = count_tasks s)%Z then CGone else CFailed))
      end
  | CIdle | CBlocked | CWaiting | CGone | CFailed => None
  end.

(** The thread of a worker. *)
Definition worker_step (s : pool) (w : nat) : option pool :=
  p ← workers s !! w;
  match p with
  | WStart => Some (set_worker (set_current s (<[w := true]> (CurrentPool s))) w WTake)
  | WTake =>
      match tasks s with
      | [] => Some (set_worker s w WCheck)
      | k :: ks => Some (set_worker (set_pool_tasks s ks) w (WRun k))
      end
  | WRun k => Some (set_worker (finish_task s k) w WRemove)
  | WRemove => Some (set_worker (RemoveTask s) w WNotify)
  | WNotify => Some (set_worker (NotifyAll s) w WTake)
  | WCheck => Some (set_worker s w (if shutdown_ s then WExit else WTake))
  | WExit => Some (set_worker (set_count_workers s (sz_sub (count_workers_ s) 1)) w WNotifyOne)
  | WNotifyOne => Some (set_worker (notify_one s) w WDone)
  | WDone => None
  end.

(** A client calls an operation. *)
Definition call (s : pool) (c : nat) (p : client_pc) : option pool :=
  match clients s !! c with Some CIdle => Some (set_client s c p) | _ => None end.

Definition pool_step (l : pool_label) (s : pool) : option pool :=
  match l with
  | CallStart => call s 0 (CCount 0)
  | CallDestroy => call s 0 CShut
  | CallSubmit c k => call s c (CCheck k)
  | CallWaitIdle c => call s c CTest
  | ClientStep c => client_step s c
  | SpuriousWake c =>
      match clients s !! c with
      | Some CBlocked => Some (set_client s c CTest)
      | Some CWaiting => Some (set_client s c CWait)
      | _ => None
      end
  | WorkerStep w => worker_step s w
  end.

(** A pool of [n] workers with [m] clients. *)
Definition new_pool (n m : nat) : pool := MkPool n 0 false [] [] 0 [] (replicate m CIdle) [] [].

Definition thread_pool (n m : nat) : lts pool pool_label :=
  Lts (λ s, s = new_pool n m) pool_step.

(** ** The counter *)

(** Between a worker's taking a task and its [RemoveTask]; between a client's
    [AddTask] and its push. *)
Definition busy (p : worker_pc) : nat := match p with WRun _ | WRemove => 1 | _ => 0 end.

Definition pushing (p : client_pc) : nat := match p with CPush _ => 1 | _ => 0 end.

Definition outstanding (s : pool) : nat :=
  length (tasks s) + sum_list_with busy (workers s) + sum_list_with pushing (clients s).

Definition running_task (p : worker_pc) : list task := match p with WRun k => [k] | _ => [] end.

Definition pushing_task (p : client_pc) : list task := match p with CPush k => [k] | _ => [] end.

(** Where the tasks are that were submitted and have not been executed. *)
Definition pending (s : pool) : list task :=
  tasks s ++ (workers s ≫= running_task) ++ (clients s ≫= pushing_task).

Record pool_inv (s : pool) : Prop := PoolInv {
  po_count : count_tasks s = wrap64 (Z.of_nat (outstanding s));
  po_tasks : submitted s ≡ₚ executed s ++ pending s
}.

Lemma worker_outstanding s w p q : workers s !! w = Some p →
  outstanding (set_worker s w q) + busy p = outstanding s + busy q.
Proof.
  intros E. unfold outstanding. simpl. pose proof (sum_list_with_insert busy _ w q p E). lia.
Qed.

Lemma client_outstanding s c p q : clients s !! c = Some p →
  outstanding (set_client s c q) + pushing p = outstanding s + pushing q.
Proof.
  intros E. unfold outstanding. simpl. pose proof (sum_list_with_insert pushing _ c q p E). lia.
Qed.

Lemma worker_pending s w p q : workers s !! w = Some p →
  pending (set_worker s w q) ++ running_task p ≡ₚ pending s ++ running_task q.
Proof.
  intros E. unfold pending. simpl. pose proof (bind_insert_perm running_task _ w q p E) as HP.
  rewrite <-!(assoc (++)). apply Permutation_app_head.
  rewrite (Permutation_app_comm (clients s ≫= pushing_task) (running_task p)).
  rewrite (Permutation_app_comm (clients s ≫= pushing_task) (running_task q)).
  by rewrite !(assoc (++)), HP.
Qed.

Lemma client_pending s c p q : clients s !! c = Some p →
  pending (set_client s c q) ++ pushing_task p ≡ₚ pending s ++ pushing_task q.
Proof.
  intros E. unfold pending. simpl. pose proof (bind_insert_perm pushing_task _ c q p E) as HP.
  by rewrite <-!(assoc (++)), HP.
Qed.

(** A client moves between positions in which it has no task in hand. *)
Lemma client_idle_inv s c p q : pool_inv s → clients s !! c = Some p →
  pushing p = 0 → pushing q = 0 → pushing_task p = [] → pushing_task q = [] →
  pool_inv (set_client s c q).
Proof.
  intros [Hc Ht] E H1 H2 H3 H4. pose proof (client_outstanding s c p q E) as Ho.
  pose proof (client_pending s c p q E) as Hp. rewrite H3, H4, !app_nil_r in Hp.
  split; [|by rewrite Hp]. change (count_tasks (set_client s c q)) with (count_tasks s).
  rewrite Hc. do 2 f_equal. lia.
Qed.

Lemma worker_idle_inv s w p q : pool_inv s → workers s !! w = Some p →
  busy p = busy q → running_task p = [] → running_task q = [] → pool_inv (set_worker s w q).
Proof.
  intros [Hc Ht] E H1 H3 H4. pose proof (worker_outstanding s w p q E) as Ho.
  pose proof (worker_pending s w p q E) as Hp. rewrite H3, H4, !app_nil_r in Hp.
  split; [|by rewrite Hp]. change (count_tasks (set_worker s w q)) with (count_tasks s).
  rewrite Hc. do 2 f_equal. lia.
Qed.

Lemma notify_inv s : pool_inv s → pool_inv (NotifyAll s).
Proof.
  intros [Hc Ht]. unfold NotifyAll.
  assert (sum_list_with pushing (notified <$> clients s) = sum_list_with pushing (clients s)) as E1.
  { clear. induction (clients s) as [|p l IH]; csimpl; [done|]. rewrite IH. by destruct p. }
  assert ((notified <$> clients s) ≫= pushing_task = clients s ≫= pushing_task) as E2.
  { clear. induction (clients s) as [|p l IH]; csimpl; [done|]. rewrite IH. by destruct p. }
  split; unfold outstanding, pending in *; simpl.
  - by rewrite E1.
  - by rewrite E2.
Qed.

Lemma notify_one_inv s : pool_inv s → pool_inv (notify_one s).
Proof.
  intros Hinv. unfold notify_one. destruct (clients s !! 0) as [[]|] eqn:E; try done.
  by apply (client_idle_inv s 0 CWaiting).
Qed.

Lemma spawn_inv s : pool_inv s → pool_inv (spawn s).
Proof.
  intros [Hc Ht]. unfold outstanding, pending in *. split; unfold outstanding, pending; simpl.
  - by rewrite sum_list_with_app, Nat.add_0_r.
  - by rewrite bind_app, app_nil_r.
Qed.

(** [AddTask], and the push. *)
Lemma pool_add s c k : pool_inv s → clients s !! c = Some (CAdd k) →
  pool_inv (set_client (AddTask s k) c (CPush k)).
Proof.
  intros [Hc Ht] E. pose proof (client_outstanding s c (CAdd k) (CPush k) E) as Ho.
  pose proof (client_pending s c (CAdd k) (CPush k) E) as Hp. simpl in Ho, Hp.
  rewrite app_nil_r in Hp. split.
  - change (sz_add (count_tasks s) 1 = wrap64 (Z.of_nat (outstanding (set_client s c (CPush k))))).
    rewrite Hc, sz_add_wrap. f_equal. lia.
  - change (submitted s ++ [k] ≡ₚ executed s ++ pending (set_client s c (CPush k))).
    by rewrite Hp, Ht, (assoc (++)).
Qed.

Lemma pool_push s c k : pool_inv s → clients s !! c = Some (CPush k) →
  pool_inv (set_client (set_pool_tasks s (tasks s ++ [k])) c CIdle).
Proof.
  intros [Hc Ht] E. pose proof (client_outstanding s c (CPush k) CIdle E) as Ho.
  pose proof (client_pending s c (CPush k) CIdle E) as Hp. simpl in Ho, Hp.
  rewrite app_nil_r in Hp. split.
  - change (count_tasks s = wrap64 (Z.of_nat (outstanding (set_pool_tasks (set_client s c CIdle) (tasks s ++ [k]))))).
    rewrite Hc. do 2 f_equal. unfold outstanding in *. simpl in *. rewrite length_app. simpl. lia.
  - change (submitted s ≡ₚ executed s ++ pending (set_pool_tasks (set_client s c CIdle) (tasks s ++ [k]))).
    rewrite Ht. apply Permutation_app_head. rewrite <- Hp. unfold pending. simpl.
    rewrite <-!(assoc (++)). apply Permutation_app_head. rewrite !(assoc (++)).
    by rewrite (Permutation_app_comm _ [k]).
Qed.

Lemma pool_client_inv s c s' : pool_inv s → client_step s c = Some s' → pool_inv s'.
Proof.
  intros Hinv Hstep. unfold client_step in Hstep. destruct (clients s !! c) as [p|] eqn:E; [|done].
  simpl in Hstep. destruct p as [|k|k|k| | | |i|i| | | |i| |]; simplify_eq.
  - apply (client_idle_inv s c (CCheck k)); try done; by destruct (shutdown_ s).
  - by apply pool_add.
  - by apply pool_push.
  - apply (client_idle_inv s c CTest); try done; by case_decide.
  - by apply (client_idle_inv s c CBlock).
  - case_decide; simplify_eq; [|by apply (client_idle_inv s c (CCount i))].
    apply (client_idle_inv (set_count_workers s _) c (CCount i)); try done. by destruct Hinv.
  - apply (client_idle_inv (spawn s) c (CSpawn i)); try done. by apply spawn_inv.
  - apply (client_idle_inv (StartShutdown s) c CShut); try done. by destruct Hinv.
  - apply (client_idle_inv s c CWait); try done; by case_decide.
  - destruct (workers s !! i) as [[]|]; simplify_eq;
      apply (client_idle_inv s c (CJoin i)); try done; by case_decide.
Qed.

(** Taking a task, its end, and [RemoveTask]. *)
Lemma pool_take s w k ks : pool_inv s → workers s !! w = Some WTake → tasks s = k :: ks →
  pool_inv (set_worker (set_pool_tasks s ks) w (WRun k)).
Proof.
  intros [Hc Ht] E Et. pose proof (worker_outstanding s w WTake (WRun k) E) as Ho.
  pose proof (worker_pending s w WTake (WRun k) E) as Hp. simpl in Ho, Hp.
  rewrite app_nil_r in Hp. unfold outstanding, pending in *. simpl in *. rewrite Et in *. split.
  - simpl. rewrite Hc. do 2 f_equal. unfold outstanding. simpl in *. lia.
  - simpl. rewrite Ht. apply Permutation_app_head. unfold pending. simpl in *.
    apply (Permutation_cons_inv (a := k)). rewrite Hp.
    by rewrite (Permutation_app_comm _ [k]).
Qed.

Lemma pool_finish s w k : pool_inv s → workers s !! w = Some (WRun k) →
  pool_inv (set_worker (finish_task s k) w WRemove).
Proof.
  intros [Hc Ht] E. pose proof (worker_outstanding s w (WRun k) WRemove E) as Ho.
  pose proof (worker_pending s w (WRun k) WRemove E) as Hp. simpl in Ho, Hp.
  rewrite app_nil_r in Hp. split.
  - change (count_tasks s = wrap64 (Z.of_nat (outstanding (set_worker s w WRemove)))). rewrite Hc.
    do 2 f_equal. lia.
  - change (submitted s ≡ₚ (executed s ++ [k]) ++ pending (set_worker s w WRemove)).
    rewrite Ht, <-Hp, <-(assoc (++)). apply Permutation_app_head.
    by rewrite (Permutation_app_comm _ [k]).
Qed.

Lemma pool_remove s w : pool_inv s → workers s !! w = Some WRemove →
  pool_inv (set_worker (RemoveTask s) w WNotify).
Proof.
  intros [Hc Ht] E. pose proof (worker_outstanding s w WRemove WNotify E) as Ho.
  pose proof (worker_pending s w WRemove WNotify E) as Hp. simpl in Ho, Hp.
  rewrite !app_nil_r in Hp. split.
  - change (sz_sub (count_tasks s) 1 = wrap64 (Z.of_nat (outstanding (set_worker s w WNotify)))).
    rewrite Hc, sz_sub_wrap. f_equal. lia.
  - change (submitted s ≡ₚ executed s ++ pending (set_worker s w WNotify)). by rewrite Hp.
Qed.

Lemma pool_worker_inv s w s' : pool_inv s → worker_step s w = Some s' → pool_inv s'.
Proof.
  intros Hinv Hstep. unfold worker_step in Hstep. destruct (workers s !! w) as [p|] eqn:E; [|done].
  simpl in Hstep. destruct p as [| |k| | | | | |]; simplify_eq.
  - apply (worker_idle_inv (set_current s _) w WStart); try done. by destruct Hinv.
  - destruct (tasks s) as [|k ks] eqn:Et; simplify_eq.
    + by apply (worker_idle_inv s w WTake).
    + by apply pool_take.
  - by apply pool_finish.
  - by apply pool_remove.
  - apply (worker_idle_inv (NotifyAll s) w WNotify); try done. by apply notify_inv.
  - apply (worker_idle_inv s w WCheck); try done; by destruct (shutdown_ s).
  - apply (worker_idle_inv (set_count_workers s _) w WExit); try done. by destruct Hinv.
  - apply (worker_idle_inv (notify_one s) w WNotifyOne); try done; [by apply notify_one_inv|].
    unfold notify_one. by destruct (clients s !! 0) as [[]|].
Qed.

Lemma call_inv s c p s' : pool_inv s → call s c p = Some s' →
  pushing p = 0 → pushing_task p = [] → pool_inv s'.
Proof.
  intros Hinv Hstep. unfold call in Hstep. destruct (clients s !! c) as [[]|] eqn:E; simplify_eq.
  intros. by eapply client_idle_inv.
Qed.

Lemma pool_invariant n m : invariant (thread_pool n m) pool_inv.
Proof.
  apply invariant_intro.
  - intros s ->. split; unfold outstanding, pending; simpl.
    + assert (∀ i, sum_list_with pushing (replicate i CIdle) = 0) as -> by (by induction i). done.
    + assert (∀ i, replicate i CIdle ≫= pushing_task = []) as -> by (by induction i). done.
  - intros [| |c k|c|c|c|w] s s' Hinv Hstep; simpl in Hstep.
    1-4: by eapply call_inv.
    + by eapply pool_client_inv.
    + destruct (clients s !! c) as [[]|] eqn:E; simplify_eq; by eapply client_idle_inv.
    + by eapply pool_worker_inv.
Qed.

Lemma no_busy_no_task ws : sum_list_with busy ws = 0 → ws ≫= running_task = [].
Proof. induction ws as [|p ws IH]; csimpl; [done|]. intros. rewrite IH by lia. by destruct p. Qed.

Lemma no_pushing_no_task cs : sum_list_with pushing cs = 0 → cs ≫= pushing_task = [].
Proof. induction cs as [|p cs IH]; csimpl; [done|]. intros. rewrite IH by lia. by destruct p. Qed.

(** ** Theorems *)

(** C29: [WaitIdle] returns only when there is nothing left to run: if the loop's
    condition lets a client out, then (fewer than 2^64 tasks being in flight) no task
    is queued, in hand of a client or being run, and the tasks executed are exactly
    the tasks submitted so far. *)
Theorem pool_wait_idle n m s c s' :
  reachable (thread_pool n m) s → (Z.of_nat (outstanding s) < size_bound)%Z →
  clients s !! c = Some CTest → client_step s c = Some s' → clients s' !! c = Some CIdle →
  tasks s = [] ∧ (∀ w k, workers s !! w ≠ Some (WRun k)) ∧ submitted s ≡ₚ executed s.
Proof.
  intros Hr Hb Hc Hstep Hi. destruct (pool_invariant n m s Hr) as [Hcount Htasks].
  unfold client_step in Hstep. rewrite Hc in Hstep. simpl in Hstep. simplify_eq. simpl in Hi.
  rewrite list_lookup_insert_eq in Hi by (by apply lookup_lt_is_Some_1).
  case_decide as Hz; [|done]. rewrite wrap64_small in Hcount by (unfold is_size; lia).
  assert (outstanding s = 0) as Ho by lia. unfold outstanding in Ho.
  assert (tasks s = []) as Ht by (apply nil_length_inv; lia). split; [done|].
  assert (sum_list_with busy (workers s) = 0) as Hbusy by lia. split.
  - intros w k E. pose proof (sum_list_with_insert busy _ w WTake _ E). simpl in *. lia.
  - rewrite Htasks. unfold pending. rewrite Ht, no_busy_no_task by done.
    rewrite no_pushing_no_task by lia. by rewrite !app_nil_r.
Qed.

(** The owner starts the pool, and each worker its loop. *)
Definition start_pool (n : nat) : list pool_label :=
  CallStart :: repeat (ClientStep 0) (S (2 * n)) ++ (WorkerStep <$> seq 0 n).

(** [Submit] and its steps. *)
Definition submit_one (c : nat) (k : task) : list pool_label :=
  CallSubmit c k :: repeat (ClientStep c) 3.

Definition pool_after (n m : nat) (tr : list pool_label) : pool :=
  default (new_pool n m) (run (thread_pool n m) tr (new_pool n m)).

Definition idle_pool : pool :=
  pool_after 2 1 (start_pool 2 ++ submit_one 0 7 ++ repeat (WorkerStep 1) 3 ++ [CallWaitIdle 0]).

Lemma pool_wait_idle_witness :
  tasks idle_pool = [] ∧ (∀ w k, workers idle_pool !! w ≠ Some (WRun k)) ∧
  submitted idle_pool ≡ₚ executed idle_pool.
Proof.
  apply (pool_wait_idle 2 1 idle_pool 0 (default idle_pool (client_step idle_pool 0)));
    [|vm_compute; reflexivity..].
  apply (run_reachable (thread_pool 2 1)); [done|]. vm_compute. eauto.
Defined.

(** *** A wake-up can be lost *)

(** Nothing to run, and client [c] asleep in [WaitIdle]. *)
Record asleep (c : nat) (s : pool) : Prop := Asleep {
  as_tasks : tasks s = [];
  as_open : shutdown_ s = false;
  as_workers : ∀ w p, workers s !! w = Some p → p = WTake ∨ p = WCheck;
  as_client : clients s !! c = Some CBlocked
}.

Definition is_worker_step (l : pool_label) : Prop :=
  match l with WorkerStep _ => True | _ => False end.

Lemma asleep_worker c s w s' : asleep c s → worker_step s w = Some s' → asleep c s'.
Proof.
  intros [Ht Ho Hw Hc] Hstep. unfold worker_step in Hstep.
  destruct (workers s !! w) as [p|] eqn:E; [|done]. simpl in Hstep.
  assert (∀ q u x, q = WTake ∨ q = WCheck → <[w := q]> (workers s) !! u = Some x →
    x = WTake ∨ x = WCheck) as Hset.
  { intros q u x Hq. destruct (decide (w = u)) as [->|Hne].
    - rewrite list_lookup_insert_eq by (by eapply lookup_lt_Some). by intros [= <-].
    - rewrite list_lookup_insert_ne by done. apply Hw. }
  destruct (Hw w p E) as [->| ->].
  - rewrite Ht in Hstep. simplify_eq. split; simpl; try done. intros u x. apply Hset. auto.
  - rewrite Ho in Hstep. simplify_eq. split; simpl; try done. intros u x. apply Hset. auto.
Qed.

Definition sleepy_pool : pool :=
  pool_after 2 1 (start_pool 2 ++ submit_one 0 7 ++ [WorkerStep 1; CallWaitIdle 0; ClientStep 0] ++
    repeat (WorkerStep 1) 3 ++ [ClientStep 0]).

(** [WaitIdle] can miss its notification: [RemoveTask] and [NotifyAll] run without
    the mutex, so they can both fall between a client's reading a non-zero counter
    and its starting to wait.  In the state reached, the counter is zero, every task
    submitted has run, and whatever the workers go on to do, the client stays asleep. *)
Lemma pool_lost_wakeup :
  ∃ s, reachable (thread_pool 2 1) s ∧ count_tasks s = 0%Z ∧ submitted s = executed s ∧
    ∀ tr s', Forall is_worker_step tr → run (thread_pool 2 1) tr s = Some s' →
      clients s' !! 0 = Some CBlocked.
Proof.
  exists sleepy_pool. split.
  { apply (run_reachable (thread_pool 2 1)); [done|]. vm_compute. eauto. }
  split; [vm_compute; reflexivity|]. split; [vm_compute; reflexivity|].
  assert (asleep 0 sleepy_pool) as Ha.
  { split; try (vm_compute; reflexivity). intros w p.
    destruct w as [|[|w]]; vm_compute; [intros [= <-]; auto..|done]. }
  intros tr. revert Ha. generalize sleepy_pool. induction tr as [|l tr IH]; intros s Ha s' Htr Hr.
  - simpl in Hr. simplify_eq. apply (as_client _ _ Ha).
  - apply Forall_cons in Htr as [Hl Htr]. destruct l as [| | | | | |w]; try done. simpl in Hr.
    destruct (worker_step s w) as [s1|] eqn:E; simpl in Hr; [|done].
    apply (IH s1); [by eapply asleep_worker|done..].
Qed.

(** The destructor can drop a task whose [Submit] had returned: a worker that found
    the queue empty before the [Submit] reads the shutdown flag after it, and leaves.
    The task is never run and the destructor's assertion on the counter fails. *)
Theorem pool_destructor_drops_task :
  ∃ s s' tr, reachable (thread_pool 1 1) s ∧ clients s = [CIdle] ∧ submitted s = [7] ∧
    run (thread_pool 1 1) tr s = Some s' ∧ workers s' = [WDone] ∧
    tasks s' = [7] ∧ executed s' = [] ∧ clients s' = [CFailed].
Proof.
  set (tr1 := start_pool 1 ++ [WorkerStep 0] ++ submit_one 0 7).
  set (tr2 := [CallDestroy; ClientStep 0] ++ repeat (WorkerStep 0) 3 ++ repeat (ClientStep 0) 3).
  exists (pool_after 1 1 tr1), (pool_after 1 1 (tr1 ++ tr2)), tr2. split.
  { apply (run_reachable (thread_pool 1 1)); [done|]. vm_compute. eauto. }
  by vm_compute.
Qed.
