(* ===== verification/PoolShutdown.v ===== *)
(** * executor/pool/intrusive_pool: the end of the pool

    [~IntrusiveThreadPool]: it stops the workers, waits for their count to be zero and
    joins them.  The count is that of the workers that have not left, the destructor
    waits only while there is one, and a measure bounds the steps left once the
    shutdown has begun; and [Current()] on the threads of the workers. *)

From stdpp Require Import prelude list.
From S2P Require Import Prelude.
From S2P Require Import IntrusivePool.

(** ** The invariant *)

Definition started (p : worker_pc) : bool := match p with WStart => false | _ => true end.

Definition counted (p : worker_pc) : nat := match p with WNotifyOne | WDone => 0 | _ => 1 end.

Definition spawning (p : client_pc) : nat := match p with CSpawn _ => 1 | _ => 0 end.

(** The positions of [Start] and the destructor. *)
Definition stopping (p : client_pc) : bool :=
  match p with CWait | CWaiting | CJoin _ | CGone | CFailed => true | _ => false end.

Definition owner_only (p : client_pc) : bool :=
  match p with CCount _ | CSpawn _ | CShut => true | _ => stopping p end.

Definition all_done (ws : list worker_pc) : Prop := ∀ w p, ws !! w = Some p → p = WDone.

(** What is known of the workers where the owner is. *)
Definition owner_knows (ws : list worker_pc) (p : client_pc) : Prop :=
  match p with
  | CWaiting => ¬ all_done ws
  | CJoin i => ∀ j, j < i → ws !! j = Some WDone
  | CGone | CFailed => all_done ws
  | _ => True
  end.

Record pool_life (s : pool) : Prop := PoolLife {
  pl_current : CurrentPool s = started <$> workers s;
  pl_count : count_workers_ s = wrap64 (Z.of_nat
    (sum_list_with counted (workers s) + sum_list_with spawning (clients s)));
  pl_owner : ∀ c p, clients s !! c = Some p → owner_only p = true → c = 0;
  pl_shutdown : shutdown_ s = from_option stopping false (clients s !! 0);
  pl_knows : ∀ p, clients s !! 0 = Some p → owner_knows (workers s) p
}.

(** ** Clients *)

(** A client moves; the owner learns what it has to know. *)
Lemma life_client s c p q :
  pool_life s → clients s !! c = Some p → spawning q = spawning p →
  (owner_only q = true → c = 0) → (c = 0 → stopping q = stopping p ∧ owner_knows (workers s) q) →
  pool_life (set_client s c q).
Proof.
  intros [H1 H2 H3 H4 H5] E Hs Ho Hk. split; simpl; try done.
  - rewrite H2. do 2 f_equal. pose proof (sum_list_with_insert spawning _ c q p E). lia.
  - intros u x. rewrite (lookup_updated _ c _ p) by done. case_decide as Hu; [|eauto].
    subst. intros [= <-]. exact Ho.
  - rewrite H4, (lookup_updated _ c _ p) by done. case_decide as Hu; [|done].
    subst. rewrite E. simpl. symmetry. by apply Hk.
  - intros x. rewrite (lookup_updated _ c _ p) by done. case_decide as Hu; [|eauto].
    subst. intros [= <-]. by apply Hk.
Qed.

(** Fields that the invariant does not mention. *)
Lemma life_fields s s' :
  pool_life s → CurrentPool s' = CurrentPool s → workers s' = workers s →
  count_workers_ s' = count_workers_ s → clients s' = clients s → shutdown_ s' = shutdown_ s →
  pool_life s'.
Proof. intros [] E1 E2 E3 E4 E5. split; rewrite ?E1, ?E2, ?E3, ?E4, ?E5; auto. Qed.

(** Clients other than the owner know nothing of the workers, and the workers' notification
    moves only clients that do not. *)
Lemma life_notify s : pool_life s → pool_life (NotifyAll s).
Proof.
  intros [H1 H2 H3 H4 H5]. split; simpl; try done.
  - rewrite H2. do 3 f_equal. clear. induction (clients s) as [|p l IH]; csimpl; [done|].
    rewrite IH. by destruct p.
  - intros c q. rewrite list_lookup_fmap. destruct (clients s !! c) as [p|] eqn:E; [|done].
    simpl. intros [= <-] Hq. apply (H3 c p E). by destruct p.
  - rewrite H4, list_lookup_fmap. destruct (clients s !! 0) as [p|]; [by destruct p|done].
  - intros q. rewrite list_lookup_fmap. destruct (clients s !! 0) as [p|] eqn:E; [|done].
    simpl. intros [= <-]. specialize (H5 p eq_refl). by destruct p.
Qed.

Lemma life_notify_one s : pool_life s → pool_life (notify_one s).
Proof.
  intros Hl. unfold notify_one. destruct (clients s !! 0) as [[]|] eqn:E; try done.
  by apply (life_client s 0 CWaiting).
Qed.

(** ** Workers *)

Lemma knows_moved ws w p q x :
  ws !! w = Some p → p ≠ WDone → (q = WDone → x ≠ CWaiting) →
  owner_knows ws x → owner_knows (<[w := q]> ws) x.
Proof.
  intros E Hp Hq Hk. destruct x; simpl in *; try done.
  - intros Hd. assert (q = WDone) as ->; [|by apply Hq].
    apply (Hd w). rewrite (lookup_updated _ w _ p) by done. by rewrite decide_True.
  - intros j Hj. rewrite (lookup_updated _ w _ p) by done. case_decide; [subst|auto].
    specialize (Hk w Hj). congruence.
  - by apply Hk in E.
  - by apply Hk in E.
Qed.

(** A worker that has not left moves, and the count with it; if it is done, the owner does
    not wait. *)
Lemma life_worker s w p q n :
  pool_life s → workers s !! w = Some p → p ≠ WDone → started p = true → started q = true →
  n = wrap64 (Z.of_nat (sum_list_with counted (<[w := q]> (workers s)) +
    sum_list_with spawning (clients s))) →
  (q = WDone → clients s !! 0 ≠ Some CWaiting) →
  pool_life (set_worker (set_count_workers s n) w q).
Proof.
  intros [H1 H2 H3 H4 H5] E Hp Hst Hst' Hn Hq. split; simpl; try done.
  - rewrite H1, list_fmap_insert, Hst'. symmetry. apply list_insert_id.
    by rewrite list_lookup_fmap, E, <-Hst.
  - intros x Ex. apply (knows_moved _ w p); auto. intros Hd%Hq ->. congruence.
Qed.

Lemma count_moved s w p q : pool_life s → workers s !! w = Some p → counted q = counted p →
  count_workers_ s = wrap64 (Z.of_nat (sum_list_with counted (<[w := q]> (workers s)) +
    sum_list_with spawning (clients s))).
Proof.
  intros Hl E Hc. rewrite (pl_count _ Hl). do 2 f_equal.
  pose proof (sum_list_with_insert counted _ w q p E). lia.
Qed.

(** The same without the count. *)
Lemma life_worker_move s w p q :
  pool_life s → workers s !! w = Some p → p ≠ WDone → started p = true → started q = true →
  counted q = counted p → (q = WDone → clients s !! 0 ≠ Some CWaiting) → pool_life (set_worker s w q).
Proof.
  intros Hl E Hp Hs Hs' Hc Hq.
  apply (life_fields (set_worker (set_count_workers s (count_workers_ s)) w q)); [|done..].
  apply (life_worker s w p); try done. by eapply count_moved.
Qed.

Lemma life_started s w :
  pool_life s → workers s !! w = Some WStart →
  pool_life (set_worker (set_current s (<[w := true]> (CurrentPool s))) w WTake).
Proof.
  intros Hl E. pose proof (count_moved s w WStart WTake Hl E eq_refl) as Hc.
  destruct Hl as [H1 H2 H3 H4 H5]. split; simpl; try done.
  - by rewrite H1, list_fmap_insert.
  - intros x Ex. by apply (knows_moved _ w WStart); auto.
Qed.

(** A counted worker leaves. *)
Lemma life_exit s w : pool_life s → workers s !! w = Some WExit →
  pool_life (set_worker (set_count_workers s (sz_sub (count_workers_ s) 1)) w WNotifyOne).
Proof.
  intros Hl E. apply (life_worker s w WExit); try done. rewrite (pl_count _ Hl), sz_sub_wrap. f_equal.
  pose proof (sum_list_with_insert counted _ w WNotifyOne WExit E) as Hs. simpl in Hs. lia.
Qed.

Lemma pool_worker_life s w s' : pool_life s → worker_step s w = Some s' → pool_life s'.
Proof.
  intros Hl Hstep. unfold worker_step in Hstep. destruct (workers s !! w) as [p|] eqn:E; [|done].
  simpl in Hstep. destruct p as [| |k| | | | | |]; simplify_eq.
  - by apply life_started.
  - destruct (tasks s) as [|k ks]; simplify_eq; [by apply (life_worker_move s w WTake)|].
    apply (life_worker_move (set_pool_tasks s ks) w WTake); try done. by apply (life_fields s).
  - apply (life_worker_move (finish_task s k) w (WRun k)); try done. by apply (life_fields s).
  - apply (life_worker_move (RemoveTask s) w WRemove); try done. by apply (life_fields s).
  - apply (life_worker_move (NotifyAll s) w WNotify); try done. by apply life_notify.
  - apply (life_worker_move s w WCheck); try done; by destruct (shutdown_ s).
  - by apply life_exit.
  - apply (life_worker_move (notify_one s) w WNotifyOne); try done.
    + by apply life_notify_one.
    + unfold notify_one. by destruct (clients s !! 0) as [[]|].
    + intros _. unfold notify_one. destruct (clients s !! 0) as [[]|] eqn:Ec; rewrite ?Ec; try done.
      simpl. by rewrite list_lookup_insert_eq by (by eapply lookup_lt_Some).
Qed.

(** ** The owner *)

(** No other client can be in [Start]. *)
Lemma not_spawning s p : pool_life s → clients s !! 0 = Some p → spawning p = 0 →
  sum_list_with spawning (clients s) = 0.
Proof.
  intros Hl E Hp. apply sum_list_with_zero. intros q [c Ec]%list_elem_of_lookup.
  destruct (decide (c = 0)) as [->|Hc]; [congruence|].
  destruct q; try done. by destruct Hc; apply (pl_owner _ Hl c _ Ec).
Qed.

Lemma counted_none ws : all_done ws → sum_list_with counted ws = 0.
Proof.
  intros Hd. apply sum_list_with_zero. intros p [w E]%list_elem_of_lookup. by rewrite (Hd w p E).
Qed.

(** The owner moves, with what it changes. *)
Lemma life_owner s s' p q :
  pool_life s → clients s !! 0 = Some p → clients s' = <[0 := q]> (clients s) →
  CurrentPool s' = started <$> workers s' →
  count_workers_ s' = wrap64 (Z.of_nat
    (sum_list_with counted (workers s') + sum_list_with spawning (<[0 := q]> (clients s)))) →
  shutdown_ s' = stopping q → owner_knows (workers s') q → pool_life s'.
Proof.
  intros Hl E Ec H1 H2 H3 H4. split; rewrite ?Ec; try done.
  - intros u x. rewrite (lookup_updated _ 0 _ p) by done. case_decide; [done|apply Hl].
  - by rewrite (lookup_updated _ 0 _ p) by done.
  - intros x. rewrite (lookup_updated _ 0 _ p) by done. simpl. by intros [= <-].
Qed.

(** The owner counts a thread, and creates it. *)
Lemma life_count s i : pool_life s → clients s !! 0 = Some (CCount i) →
  pool_life (set_client (set_count_workers s (sz_add (count_workers_ s) 1)) 0 (CSpawn i)).
Proof.
  intros Hl E. apply (life_owner s _ (CCount i) (CSpawn i)); try done; simpl.
  - apply Hl.
  - rewrite (pl_count _ Hl), sz_add_wrap. f_equal.
    pose proof (sum_list_with_insert spawning _ 0 (CSpawn i) _ E) as Hs. simpl in Hs. lia.
  - by rewrite (pl_shutdown _ Hl), E.
Qed.

Lemma life_spawn s i : pool_life s → clients s !! 0 = Some (CSpawn i) →
  pool_life (set_client (spawn s) 0 (CCount (S i))).
Proof.
  intros Hl E. apply (life_owner s _ (CSpawn i) (CCount (S i))); try done; simpl.
  - by rewrite (pl_current _ Hl), fmap_app.
  - rewrite (pl_count _ Hl). do 2 f_equal. rewrite sum_list_with_app. simpl.
    pose proof (sum_list_with_insert spawning _ 0 (CCount (S i)) _ E) as Hs. simpl in Hs. lia.
  - by rewrite (pl_shutdown _ Hl), E.
Qed.

Lemma life_shut s : pool_life s → clients s !! 0 = Some CShut →
  pool_life (set_client (StartShutdown s) 0 CWait).
Proof.
  intros Hl E. apply (life_owner s _ CShut CWait); try done; simpl; [apply Hl|].
  rewrite (pl_count _ Hl). do 2 f_equal.
  pose proof (sum_list_with_insert spawning _ 0 CWait _ E) as Hs. simpl in Hs. lia.
Qed.

(** The destructor finds workers to wait for, or none. *)
Lemma life_wait s : pool_life s → clients s !! 0 = Some CWait →
  pool_life (set_client s 0 (if decide (0 = count_workers_ s)%Z then CJoin 0 else CWaiting)).
Proof.
  intros Hl E. case_decide as Hz.
  - apply (life_client s 0 CWait); try done. split; [done|]. simpl. lia.
  - apply (life_client s 0 CWait); try done. split; [done|]. intros Hd. apply Hz.
    by rewrite (pl_count _ Hl), counted_none, (not_spawning s CWait).
Qed.

(** It joins a thread, or has joined them all. *)
Lemma life_join s i s' : pool_life s → clients s !! 0 = Some (CJoin i) → client_step s 0 = Some s' →
  pool_life s'.
Proof.
  intros Hl E Hstep. unfold client_step in Hstep. rewrite E in Hstep. simpl in Hstep.
  pose proof (pl_knows _ Hl _ E) as Hk. simpl in Hk.
  destruct (workers s !! i) as [p|] eqn:Ei.
  - destruct p; simplify_eq. apply (life_client s 0 (CJoin i)); try done. split; [done|].
    intros j Hj. destruct (decide (j = i)) as [->|Hne]; [done|]. apply Hk. lia.
  - simplify_eq. assert (all_done (workers s)) as Hd.
    { intros w p Ew. apply lookup_ge_None in Ei. pose proof (lookup_lt_Some _ _ _ Ew) as Hw.
      rewrite Hk in Ew by lia. by simplify_eq. }
    case_decide; by apply (life_client s 0 (CJoin i)).
Qed.

Lemma pool_client_life s c s' : pool_life s → client_step s c = Some s' → pool_life s'.
Proof.
  intros Hl Hstep. pose proof Hstep as Hj. unfold client_step in Hstep.
  destruct (clients s !! c) as [p|] eqn:E; [|done].
  pose proof (pl_owner _ Hl c p E) as Ho.
  simpl in Hstep. destruct p as [|k|k|k| | | |i|i| | | |i| |]; simplify_eq; simpl in Ho.
  - destruct (shutdown_ s); by apply (life_client s c (CCheck k)).
  - apply (life_client (AddTask s k) c (CAdd k)); try done. by apply (life_fields s).
  - apply (life_client (set_pool_tasks s _) c (CPush k)); try done. by apply (life_fields s).
  - case_decide; by apply (life_client s c CTest).
  - by apply (life_client s c CBlock).
  - rewrite (Ho eq_refl) in *. case_decide; simplify_eq; [by apply life_count|].
    by apply (life_client s 0 (CCount i)).
  - rewrite (Ho eq_refl) in *. by apply life_spawn.
  - rewrite (Ho eq_refl) in *. by apply life_shut.
  - rewrite (Ho eq_refl) in *. by apply life_wait.
  - rewrite (Ho eq_refl) in *. by eapply life_join.
Qed.

Lemma call_life s c p s' : pool_life s → call s c p = Some s' → spawning p = 0 → stopping p = false →
  (owner_only p = true → c = 0) → owner_knows (workers s) p → pool_life s'.
Proof.
  intros Hl Hstep Hs Hp Ho Hk. unfold call in Hstep. destruct (clients s !! c) as [[]|] eqn:E; simplify_eq.
  by apply (life_client s c CIdle).
Qed.

Lemma pool_lives n m : invariant (thread_pool n m) pool_life.
Proof.
  apply invariant_intro.
  - intros s ->. split; simpl.
    + done.
    + rewrite sum_list_with_zero; [done|]. by intros p [-> _]%elem_of_replicate.
    + intros c p [-> _]%lookup_replicate. done.
    + destruct m; done.
    + intros p [-> _]%lookup_replicate. done.
  - intros [| |c k|c|c|c|w] s s' Hl Hstep; simpl in Hstep.
    1-4: by eapply call_life.
    + by eapply pool_client_life.
    + destruct (clients s !! c) as [[]|] eqn:E; simplify_eq; [by apply (life_client s c CBlocked)|].
      assert (c = 0) as -> by (by apply (pl_owner _ Hl c _ E)). by apply (life_client s 0 CWaiting).
    + by eapply pool_worker_life.
Qed.

(** ** The shutdown ends *)

(** A step of a client or a worker that nobody causes from outside. *)
Definition own_step (l : pool_label) : Prop :=
  match l with ClientStep _ | WorkerStep _ => True | _ => False end.

Section measure.
  Context (nclients nworkers : nat).

(** What a notification can add to the clients' steps. *)
Definition notify_cost : nat := S (2 * nclients).

Definition worker_work (p : worker_pc) : nat :=
  match p with
  | WStart => 6
  | WTake => 5
  | WRun _ => 7 + notify_cost
  | WRemove => 6 + notify_cost
  | WNotify => 5 + notify_cost
  | WCheck => 4
  | WExit => 3
  | WNotifyOne => 2
  | WDone => 0
  end.

Definition task_work : nat := 3 + notify_cost.

Definition client_work (p : client_pc) : nat :=
  match p with
  | CCheck _ => 1
  | CAdd _ => 2 + task_work
  | CPush _ => 1 + task_work
  | CTest => 2
  | CBlock => 1
  | CWait => 3 + nworkers
  | CWaiting => 2 + nworkers
  | CJoin i => 1 + (nworkers - i)
  | CIdle | CBlocked | CCount _ | CSpawn _ | CShut | CGone | CFailed => 0
  end.

Definition work_left (s : pool) : nat :=
  sum_list_with worker_work (workers s) + task_work * length (tasks s) +
  sum_list_with client_work (clients s).

Lemma worker_work_left s w p q : workers s !! w = Some p →
  work_left (set_worker s w q) + worker_work p = work_left s + worker_work q.
Proof.
  intros E. unfold work_left. simpl. pose proof (sum_list_with_insert worker_work _ w q p E). lia.
Qed.

Lemma client_work_left s c p q : clients s !! c = Some p →
  work_left (set_client s c q) + client_work p = work_left s + client_work q.
Proof.
  intros E. unfold work_left. simpl. pose proof (sum_list_with_insert client_work _ c q p E). lia.
Qed.

Lemma push_work s k : work_left (set_pool_tasks s (tasks s ++ [k])) = work_left s + task_work.
Proof.
  unfold work_left. cbn [tasks workers clients set_pool_tasks]. rewrite length_app, Nat.mul_add_distr_l.
  simpl length. lia.
Qed.

Lemma pop_work s k ks : tasks s = k :: ks →
  work_left (set_pool_tasks s ks) + task_work = work_left s.
Proof.
  intros E. unfold work_left. cbn [tasks workers clients set_pool_tasks]. rewrite E. cbn [length].
  rewrite Nat.mul_succ_r. lia.
Qed.

Lemma notify_work s : length (clients s) = nclients → work_left (NotifyAll s) <= work_left s + 2 * nclients.
Proof.
  intros Hn. unfold work_left. simpl.
  assert (sum_list_with client_work (notified <$> clients s) <=
    sum_list_with client_work (clients s) + 2 * length (clients s)); [|lia].
  clear Hn. induction (clients s) as [|p l IH]; csimpl; [lia|]. destruct p; simpl in *; lia.
Qed.

Lemma notify_one_work s : work_left (notify_one s) <= S (work_left s).
Proof.
  unfold notify_one. destruct (clients s !! 0) as [[]|] eqn:E; try lia.
  pose proof (client_work_left s 0 _ CWait E) as Hw. simpl in Hw. lia.
Qed.

Lemma worker_decreases s w s' : length (clients s) = nclients → shutdown_ s = true →
  worker_step s w = Some s' → work_left s' < work_left s.
Proof.
  intros Hn Hd Hstep. unfold worker_step in Hstep. destruct (workers s !! w) as [p|] eqn:E; [|done].
  pose proof (worker_work_left s w p) as Hw.
  simpl in Hstep. destruct p as [| |k| | | | | |]; simplify_eq; simpl in Hw.
  - specialize (Hw WTake E). unfold work_left in *. simpl in *. lia.
  - destruct (tasks s) as [|k ks] eqn:Et; simplify_eq.
    + specialize (Hw WCheck E). simpl in Hw. lia.
    + pose proof (worker_work_left (set_pool_tasks s ks) w WTake (WRun k) E) as Hv. simpl in Hv.
      pose proof (pop_work s k ks Et) as Hk. unfold task_work in Hk. lia.
  - specialize (Hw WRemove E). unfold work_left in *. simpl in *. lia.
  - specialize (Hw WNotify E). unfold work_left in *. simpl in *. lia.
  - pose proof (worker_work_left (NotifyAll s) w WNotify WTake E) as Hv. simpl in Hv.
    pose proof (notify_work s Hn). unfold notify_cost in Hv. lia.
  - rewrite Hd. specialize (Hw WExit E). simpl in Hw. lia.
  - specialize (Hw WNotifyOne E). unfold work_left in *. simpl in *. lia.
  - assert (workers (notify_one s) !! w = Some WNotifyOne) as E'.
    { unfold notify_one. by destruct (clients s !! 0) as [[]|]. }
    pose proof (worker_work_left (notify_one s) w WNotifyOne WDone E') as Hv. simpl in Hv.
    pose proof (notify_one_work s). lia.
Qed.

Lemma client_decreases s c s' : length (workers s) = nworkers → pool_life s → shutdown_ s = true →
  client_step s c = Some s' → work_left s' < work_left s.
Proof.
  intros Hn Hl Hd Hstep. unfold client_step in Hstep. destruct (clients s !! c) as [p|] eqn:E; [|done].
  pose proof (client_work_left s c p) as Hw. pose proof (pl_owner _ Hl c p E) as Ho.
  assert (c = 0 → stopping p = true) as Hs.
  { intros ->. pose proof (pl_shutdown _ Hl) as Hsh. by rewrite Hd, E in Hsh. }
  simpl in Hstep. destruct p as [|k|k|k| | | |i|i| | | |i| |]; simplify_eq; simpl in Ho, Hs, Hw;
    try (by discriminate (Hs (Ho eq_refl))).
  - rewrite Hd. specialize (Hw CIdle E). simpl in Hw. lia.
  - specialize (Hw (CPush k) E). unfold work_left in *. simpl in *. lia.
  - pose proof (client_work_left (set_pool_tasks s (tasks s ++ [k])) c (CPush k) CIdle E) as Hv.
    pose proof (push_work s k) as Hk. cbn [client_work] in Hv. lia.
  - case_decide; [specialize (Hw CIdle E)|specialize (Hw CBlock E)]; simpl in Hw; lia.
  - specialize (Hw CBlocked E). simpl in Hw. lia.
  - case_decide; [specialize (Hw (CJoin 0) E)|specialize (Hw CWaiting E)]; simpl in Hw; lia.
  - destruct (workers s !! i) as [[]|] eqn:Ei; simplify_eq.
    + specialize (Hw (CJoin (S i)) E). apply lookup_lt_Some in Ei. simpl in Hw. lia.
    + case_decide; [specialize (Hw CGone E)|specialize (Hw CFailed E)]; simpl in Hw; lia.
Qed.
End measure.

(** ** What is stuck has ended *)

Lemma done_or_not ws : all_done ws ∨ ∃ w p, ws !! w = Some p ∧ p ≠ WDone.
Proof.
  destruct (decide (Forall (λ p, p = WDone) ws)) as [Hd|Hd].
  - left. intros w p. intros Ew. by eapply (Forall_lookup_1 _ _ _ _ Hd).
  - right. apply not_Forall_Exists in Hd; [|apply _].
    apply Exists_exists in Hd as (p & [w Ew]%list_elem_of_lookup & Hp). eauto.
Qed.

Lemma worker_enabled s w p : workers s !! w = Some p → p ≠ WDone → is_Some (worker_step s w).
Proof.
  intros E Hp. unfold worker_step. rewrite E. simpl. destruct p; try done; try by eexists. by destruct (tasks s); eexists.
Qed.

Lemma pusher_or_not cs : sum_list_with pushing cs = 0 ∨ ∃ c k, cs !! c = Some (CPush k).
Proof.
  induction cs as [|p cs IH]; [by left|].
  destruct IH as [IH|(c & k & IH)]; [|by right; exists (S c), k].
  destruct p as [| | |k| | | | | | | | | | |]; try by left. right. by exists 0, k.
Qed.

(** When no thread can move, the destructor has returned. *)
Lemma stuck_stopped s : pool_life s → shutdown_ s = true → all_done (workers s) →
  client_step s 0 = None → clients s !! 0 = Some CGone ∨ clients s !! 0 = Some CFailed.
Proof.
  intros Hl Hd Hw Hstep. pose proof (pl_shutdown _ Hl) as Hs. rewrite Hd in Hs.
  unfold client_step in Hstep.
  destruct (clients s !! 0) as [p|] eqn:E; [|done]. simpl in Hs, Hstep. pose proof (pl_knows _ Hl _ E) as Hk.
  destruct p as [| | | | | | | | | | | |i| |]; try done; auto.
  destruct (workers s !! i) as [p|] eqn:Ei; [|done]. apply Hw in Ei. by subst.
Qed.

Lemma stuck_tasks s : pool_inv s → all_done (workers s) → sum_list_with pushing (clients s) = 0 →
  submitted s ≡ₚ executed s ++ tasks s.
Proof.
  intros [_ Ht] Hw Hp. rewrite Ht. unfold pending. rewrite no_busy_no_task, no_pushing_no_task by
    (done || apply sum_list_with_zero; intros p [w Ew]%list_elem_of_lookup; by rewrite (Hw w p Ew)).
  by rewrite !app_nil_r.
Qed.

Lemma pool_ends s : pool_inv s → pool_life s → shutdown_ s = true →
  (∃ l s', own_step l ∧ pool_step l s = Some s') ∨
  ((clients s !! 0 = Some CGone ∨ clients s !! 0 = Some CFailed) ∧ all_done (workers s) ∧
    submitted s ≡ₚ executed s ++ tasks s).
Proof.
  intros Hi Hl Hd. destruct (done_or_not (workers s)) as [Hw|(w & p & Ew & Hp)].
  - destruct (pusher_or_not (clients s)) as [Hn|(c & k & Ec)].
    + destruct (client_step s 0) as [s'|] eqn:E; [left; by exists (ClientStep 0), s'|].
      right. split; [by apply stuck_stopped|]. split; [done|]. by apply stuck_tasks.
    + left. exists (ClientStep c). simpl. unfold client_step. rewrite Ec. by eexists.
  - left. destruct (worker_enabled s w p Ew Hp) as [s' E]. by exists (WorkerStep w), s'.
Qed.

(** The steps of the threads keep their numbers once the shutdown has begun. *)
Lemma own_step_fields l s s' : pool_life s → shutdown_ s = true → own_step l → pool_step l s = Some s' →
  shutdown_ s' = true ∧ length (clients s') = length (clients s) ∧ length (workers s') = length (workers s).
Proof.
  intros Hl Hd Hown Hstep. destruct l as [| | | |c| |w]; try done; simpl in Hstep.
  - unfold client_step in Hstep. destruct (clients s !! c) as [p|] eqn:E; [|done].
    pose proof (pl_owner _ Hl c p E) as Ho. pose proof (pl_shutdown _ Hl) as Hs.
    simpl in Hstep. destruct p as [|k|k|k| | | |i|i| | | |i| |]; simplify_eq; simpl;
      try (by rewrite ?length_insert); repeat case_match; simplify_eq; simpl;
      rewrite ?length_insert; try done.
    rewrite (Ho eq_refl) in E. by rewrite Hd, E in Hs.
  - unfold worker_step in Hstep. destruct (workers s !! w) as [p|] eqn:E; [|done]. simpl in Hstep.
    destruct p; simplify_eq; simpl; unfold notify_one; repeat case_match; simplify_eq; simpl;
      by rewrite ?length_insert, ?length_fmap.
Qed.

(** C30: the destruction of the pool ends: once the shutdown has begun, the steps of the
    threads (spurious wake-ups and new calls aside) are bounded, whatever their order,
    and when no thread can move the destructor has returned or failed its assertion,
    every worker has left, and every task submitted has been executed or is still in
    the queue. *)
Theorem pool_shutdown_terminates n m s tr s' :
  reachable (thread_pool n m) s → shutdown_ s = true → Forall own_step tr →
  run (thread_pool n m) tr s = Some s' →
  length tr <= work_left (length (clients s)) (length (workers s)) s ∧
  ((∃ l s'', own_step l ∧ pool_step l s' = Some s'') ∨
   ((clients s' !! 0 = Some CGone ∨ clients s' !! 0 = Some CFailed) ∧ all_done (workers s') ∧
     submitted s' ≡ₚ executed s' ++ tasks s')).
Proof.
  intros Hr Hd Hown Hrun.
  set (nc := length (clients s)). set (nw := length (workers s)).
  set (I x := reachable (thread_pool n m) x ∧ shutdown_ x = true ∧
    length (clients x) = nc ∧ length (workers x) = nw).
  assert (∀ l x x', own_step l → I x → pool_step l x = Some x' → I x' ∧ work_left nc nw x' < work_left nc nw x)
    as Hstep.
  { intros l x x' Hl (Hx & Hsx & Hc & Hw) Hstep. pose proof (pool_lives n m x Hx) as Hlx.
    destruct (own_step_fields l x x' Hlx Hsx Hl Hstep) as (Hsx' & Hc' & Hw'). split.
    - split; [by eapply reachable_step|]. by rewrite Hc', Hw'.
    - destruct l as [| | | |c| |w]; try done; [by eapply client_decreases|by eapply worker_decreases]. }
  destruct (run_measure (thread_pool n m) own_step I _ Hstep tr s s' Hown) as [(Hr' & Hd' & _) Hlen]; [done..|].
  split; [lia|]. apply pool_ends; [by eapply pool_invariant|by eapply pool_lives|done].
Qed.

(** Two workers; one task is running and one is queued when the destructor is called. *)
Definition stopped_pool : pool :=
  pool_after 2 2 (start_pool 2 ++ submit_one 0 7 ++ submit_one 1 8 ++ [WorkerStep 0; CallDestroy; ClientStep 0]).

Definition shutdown_schedule : list pool_label :=
  [ClientStep 0] ++ repeat (WorkerStep 0) 11 ++ repeat (WorkerStep 1) 4 ++ repeat (ClientStep 0) 4.

Lemma pool_shutdown_terminates_witness :
  let s' := default stopped_pool (run (thread_pool 2 2) shutdown_schedule stopped_pool) in
  executed s' = [7; 8] ∧ clients s' !! 0 = Some CGone ∧
  length shutdown_schedule <= work_left 2 2 stopped_pool ∧
  ((∃ l s'', own_step l ∧ pool_step l s' = Some s'') ∨
   ((clients s' !! 0 = Some CGone ∨ clients s' !! 0 = Some CFailed) ∧ all_done (workers s') ∧
     submitted s' ≡ₚ executed s' ++ tasks s')).
Proof.
  split; [vm_compute; reflexivity|]. split; [vm_compute; reflexivity|].
  apply (pool_shutdown_terminates 2 2 stopped_pool shutdown_schedule).
  - apply (run_reachable (thread_pool 2 2)); [done|]. vm_compute. eauto.
  - vm_compute. reflexivity.
  - repeat (apply Forall_cons; split; [exact I|]). apply Forall_nil. done.
  - vm_compute. reflexivity.
Defined.

(** [Current()] is the pool on the thread of a worker that is past the first statement of
    its thread, so inside every task it runs, and null on every other thread. *)
Lemma pool_current n m s w k :
  reachable (thread_pool n m) s → workers s !! w = Some (WRun k) →
  Current s (Some w) = true ∧ Current s None = false.
Proof.
  intros Hr E. split; [|done]. pose proof (pool_lives n m s Hr) as Hl. unfold Current.
  by rewrite (pl_current _ Hl), list_lookup_fmap, E.
Qed.
