(* ===== verification/DistributedPool.v ===== *)
(** * executor/pool/distributed_pool and executor/pool/internal/worker

    [DistributedPool] and its [Worker]s: a global queue and one queue per worker.
    A task is pushed to the queue of the worker that first ran it ([SetWorker] is
    sticky), or to the global queue when nobody has.  [Worker::Process] runs in a
    stackful coroutine that suspends when the worker has nothing to do;
    [Worker::Loop] resumes it.

    The queues are FIFO queues (their lock-free implementation is [MSQueue.v]).
    [Worker::Push] is a step for each of its accesses; when it is not the worker itself
    that pushes, those that follow the push to the queue are left to whoever is in
    [pushing], and who pushed is not made to wait for them (none of them waits).
    [CanCloseWorker] is one step, at its read of the counter, as the shutdown flag is
    never cleared.  A task is a fiber: while a worker is inside its [Run], the fiber may
    suspend and its awaiter hand it to somebody else, who may submit it again before
    [Run] has returned.

    The semaphore of a worker counts what is released and not acquired.  A
    [std::binary_semaphore] must not be released past its [max()], which the
    implementation chooses and may be 1: [smph_high] is the highest count there has been,
    so that what is said of the pool is said of the implementations whose [max()] is not
    below it. *)

From stdpp Require Import prelude list gmap.
From S2P Require Import Prelude.

Abbreviation task := nat.
Abbreviation wid := nat.

(** [StateTask], as far as [Submit] looks at it. *)
Inductive StateTask := PLANNED | RUNNING | FINISHED.

#[export] Instance StateTask_eq : EqDecision StateTask.
Proof. solve_decision. Defined.

(** [Worker::Push], after the push to the queue: its next access. *)
Inductive push_pc :=
| PStore                (** [counter_empty_tasks.store(0)] *)
| PWake                 (** [WakeUpSuspendedWorker()] *)
| PRelease.             (** [smph.release(1)] *)

#[export] Instance push_pc_eq : EqDecision push_pc.
Proof. solve_decision. Defined.

Inductive worker_pc :=
| PTry                  (** [Process]: [local_tasks.TryPop] *)
| PRun (k : task)       (** inside [task->Run()] *)
| PTail (k : task)      (** the same, after the fiber has been handed to its awaiter *)
| PRemove (k : task)    (** [RemoveTask()], [k] having completed *)
| PGlobal               (** [global_tasks.TryPop] *)
| PPush (k : task)      (** [Push] of the task popped from the global queue *)
| PPushed (p : push_pc) (** the rest of this [Push] *)
| PClose                (** [CanCloseWorker()] *)
| PSub                  (** [counter_empty_tasks.fetch_sub(1)] *)
| PLoad                 (** the test of the counter and of [shutdown] *)
| PSuspend              (** [AddSuspendedWorker(); coro->Suspend()] *)
| PNotify               (** [NotifyAll()], the end of the iteration *)
| LCheck (done : bool)  (** [Loop]: [Resume] has returned; has the coroutine completed? *)
| LAcquire (done : bool) (** [Loop]: [smph.try_acquire_for] *)
| LResume (done : bool) (** [Loop]: [coro->Resume()] *)
| LDone
| LAbort.               (** resumed a completed coroutine *)

#[export] Instance dist_worker_pc_eq : EqDecision worker_pc.
Proof. solve_decision. Defined.

(** Ghost: who has the task. *)
Inductive place :=
| Outside               (** a client's: new, or suspended and handed to its awaiter *)
| Submitting
| InGlobal
| Moving (w : wid)      (** popped from the global queue by [w] *)
| InLocal (w : wid)
| RunningOn (w : wid)
| Completed.

#[export] Instance place_eq : EqDecision place.
Proof. solve_decision. Defined.

Record Worker := MkWorker {
  local_tasks : list task;
  counter_empty_tasks : Z;
  smph : Z;
  wk_shutdown : bool;
  wk_pc : worker_pc
}.

Record TaskBase := MkTask {
  tk_state : StateTask;
  tk_worker : option wid;
  tk_place : place
}.

Record dpool := MkDPool {
  count_tasks : Z;
  shutdown_ : bool;
  suspended_workers : Z;
  global_tasks : list task;
  dworkers : wid → Worker;
  dtasks : task → TaskBase;
  run_log : list (task * wid);
  pushing : list (wid * push_pc);  (** the calls of [Push] under way, but those of the worker itself *)
  smph_high : Z
}.

Inductive dist_label :=
| CallSubmit (k : task)     (** [Submit]: the state test, [AddTask] and [ProgressState] *)
| Route (k : task)          (** [Submit]: the push *)
| Suspended (w : wid)       (** the fiber suspends and is handed to its awaiter *)
| Finished (w : wid)        (** the fiber completes *)
| Step (w : wid) (timeout : bool)
| BeginShutdown             (** [WaitShutdown]: [StartShutdown()] *)
| WakeForShutdown (w : wid) (** [WaitShutdown]: [WakUpForShutdown()] *)
| DestroyWorker (w : wid)   (** [~Worker]: [shutdown.store(true); smph.release(1)] *)
| PushOn (i : nat).         (** the next access of a [Push] under way *)

Definition set_dworker (s : dpool) (w : wid) (x : Worker) : dpool :=
  MkDPool (count_tasks s) (shutdown_ s) (suspended_workers s) (global_tasks s)
    (dworkers s)⟦w ↦ x⟧ (dtasks s) (run_log s) (pushing s) (smph_high s).

Definition set_pc (s : dpool) (w : wid) (p : worker_pc) : dpool :=
  let x := dworkers s w in
  set_dworker s w (MkWorker (local_tasks x) (counter_empty_tasks x) (smph x) (wk_shutdown x) p).

Definition set_dtask (s : dpool) (k : task) (x : TaskBase) : dpool :=
  MkDPool (count_tasks s) (shutdown_ s) (suspended_workers s) (global_tasks s) (dworkers s)
    (dtasks s)⟦k ↦ x⟧ (run_log s) (pushing s) (smph_high s).

Definition set_place (s : dpool) (k : task) (p : place) : dpool :=
  set_dtask s k (MkTask (tk_state (dtasks s k)) (tk_worker (dtasks s k)) p).

Definition set_count (s : dpool) (n : Z) : dpool :=
  MkDPool n (shutdown_ s) (suspended_workers s) (global_tasks s) (dworkers s) (dtasks s) (run_log s)
    (pushing s) (smph_high s).

Definition set_suspended (s : dpool) (n : Z) : dpool :=
  MkDPool (count_tasks s) (shutdown_ s) n (global_tasks s) (dworkers s) (dtasks s) (run_log s)
    (pushing s) (smph_high s).

Definition set_global (s : dpool) (ks : list task) : dpool :=
  MkDPool (count_tasks s) (shutdown_ s) (suspended_workers s) ks (dworkers s) (dtasks s) (run_log s)
    (pushing s) (smph_high s).

Definition set_shutdown (s : dpool) : dpool :=
  MkDPool (count_tasks s) true (suspended_workers s) (global_tasks s) (dworkers s) (dtasks s) (run_log s)
    (pushing s) (smph_high s).

Definition log_run (s : dpool) (k : task) (w : wid) : dpool :=
  MkDPool (count_tasks s) (shutdown_ s) (suspended_workers s) (global_tasks s) (dworkers s)
    (dtasks s) (run_log s ++ [(k, w)]) (pushing s) (smph_high s).

Definition set_pushing (s : dpool) (ps : list (wid * push_pc)) : dpool :=
  MkDPool (count_tasks s) (shutdown_ s) (suspended_workers s) (global_tasks s) (dworkers s)
    (dtasks s) (run_log s) ps (smph_high s).

Definition set_high (s : dpool) (n : Z) : dpool :=
  MkDPool (count_tasks s) (shutdown_ s) (suspended_workers s) (global_tasks s) (dworkers s)
    (dtasks s) (run_log s) (pushing s) n.

(** [smph.release(1)], which requires the new count not to exceed [max()]. *)
Definition release_smph (s : dpool) (w : wid) : dpool :=
  let x := dworkers s w in
  set_dworker (set_high s (smph_high s `max` (smph x + 1))) w
    (MkWorker (local_tasks x) (counter_empty_tasks x) (smph x + 1) (wk_shutdown x) (wk_pc x)).

(** [Worker::Push]: [local_tasks.Push(task)]. *)
Definition Push (s : dpool) (w : wid) (k : task) : dpool :=
  let x := dworkers s w in
  set_dworker s w (MkWorker (local_tasks x ++ [k]) (counter_empty_tasks x) (smph x) (wk_shutdown x) (wk_pc x)).

(** [Worker::Push]: the accesses that follow. *)
Definition push_access (s : dpool) (w : wid) (p : push_pc) : dpool :=
  let x := dworkers s w in
  match p with
  | PStore => set_dworker s w (MkWorker (local_tasks x) 0 (smph x) (wk_shutdown x) (wk_pc x))
  | PWake => set_suspended s (sz_sub (suspended_workers s) 1)
  | PRelease => release_smph s w
  end.

Definition next_access (p : push_pc) : option push_pc :=
  match p with PStore => Some PWake | PWake => Some PRelease | PRelease => None end.

Definition push_on (s : dpool) (i : nat) : option dpool :=
  match pushing s !! i with
  | Some (w, p) =>
      Some (set_pushing (push_access s w p)
        (match next_access p with Some p' => <[i := (w, p')]> (pushing s) | None => delete i (pushing s) end))
  | None => None
  end.

(** [TaskBase::SetWorker] *)
Definition SetWorker (t : TaskBase) (w : wid) : TaskBase :=
  match tk_worker t with
  | None => MkTask (tk_state t) (Some w) (tk_place t)
  | Some _ => t
  end.

(** [DistributedPool::Submit]: count a task that has not started. *)
Definition Submit_count (s : dpool) (k : task) : dpool :=
  let t := dtasks s k in
  match tk_state t with
  | PLANNED => set_dtask (set_count s (sz_add (count_tasks s) 1)) k (MkTask RUNNING (tk_worker t) Submitting)
  | _ => set_place s k Submitting
  end.

(** [DistributedPool::Submit]: the push, to the task's worker if it has one. *)
Definition Submit_route (s : dpool) (k : task) : dpool :=
  match tk_worker (dtasks s k) with
  | Some w => set_place (set_pushing (Push s w k) (pushing s ++ [(w, PStore)])) k (InLocal w)
  | None => set_place (set_global s (global_tasks s ++ [k])) k InGlobal
  end.

Definition CanCloseWorker (s : dpool) : bool := shutdown_ s && bool_decide (0 = count_tasks s)%Z.

Definition MaxEmptyTasksInLoop : Z := 1.

(** [Worker::Process] and [Worker::Loop]. *)
Definition worker_step (s : dpool) (w : wid) (timeout : bool) : option dpool :=
  let x := dworkers s w in
  match wk_pc x with
  | PTry =>
      match local_tasks x with
      | [] => Some (set_pc s w PGlobal)
      | k :: ks =>
          let t := SetWorker (dtasks s k) w in
          let s := set_dworker s w (MkWorker ks (counter_empty_tasks x) (smph x) (wk_shutdown x) (PRun k)) in
          Some (log_run (set_dtask s k (MkTask (tk_state t) (tk_worker t) (RunningOn w))) k w)
      end
  | PTail k => Some (set_pc s w PNotify)
  | PRemove _ => Some (set_pc (set_count s (sz_sub (count_tasks s) 1)) w PNotify)
  | PGlobal =>
      match global_tasks s with
      | [] => Some (set_pc s w PClose)
      | k :: ks => Some (set_pc (set_place (set_global s ks) k (Moving w)) w (PPush k))
      end
  | PPush k => Some (set_place (Push (set_pc s w (PPushed PStore)) w k) k (InLocal w))
  | PPushed p => Some (set_pc (push_access s w p) w (match next_access p with Some p' => PPushed p' | None => PNotify end))
  | PClose => Some (set_pc s w (if CanCloseWorker s then LCheck true else PSub))
  | PSub =>
      Some (set_dworker s w (MkWorker (local_tasks x) (sz_sub (counter_empty_tasks x) 1) (smph x)
        (wk_shutdown x) PLoad))
  | PLoad =>
      Some (set_pc s w
        (if bool_decide (MaxEmptyTasksInLoop <= counter_empty_tasks x)%Z && negb (wk_shutdown x)
         then PSuspend else PNotify))
  | PSuspend => Some (set_pc (set_suspended s (sz_add (suspended_workers s) 1)) w (LCheck false))
  | PNotify => Some (set_pc s w PTry)
  | LCheck b => Some (set_pc s w (if CanCloseWorker s then LDone else LAcquire b))
  | LAcquire b =>
      if wk_shutdown x then Some (set_pc s w (LResume b))
      else if decide (0 < smph x)%Z
      then Some (set_dworker s w (MkWorker (local_tasks x) (counter_empty_tasks x) (smph x - 1)
        (wk_shutdown x) (LResume b)))
      else if timeout then Some (set_pc s w (LResume b)) else None
  | LResume b => Some (set_pc s w (if b : bool then LAbort else PNotify))
  | PRun _ | LDone | LAbort => None
  end.

Definition dist_step (l : dist_label) (s : dpool) : option dpool :=
  match l with
  | CallSubmit k =>
      if decide (tk_place (dtasks s k) = Outside) then Some (Submit_count s k) else None
  | Route k =>
      if decide (tk_place (dtasks s k) = Submitting) then Some (Submit_route s k) else None
  | Suspended w =>
      match wk_pc (dworkers s w) with
      | PRun k => Some (set_pc (set_place s k Outside) w (PTail k))
      | _ => None
      end
  | Finished w =>
      match wk_pc (dworkers s w) with
      | PRun k => Some (set_pc (set_place s k Completed) w (PRemove k))
      | _ => None
      end
  | Step w timeout => worker_step s w timeout
  | BeginShutdown => Some (set_shutdown s)
  | WakeForShutdown w => Some (release_smph s w)
  | DestroyWorker w =>
      let x := dworkers s w in
      Some (release_smph (set_dworker s w (MkWorker (local_tasks x) (counter_empty_tasks x) (smph x)
        true (wk_pc x))) w)
  | PushOn i => push_on s i
  end.

(** A started pool. *)
Definition new_dpool : dpool :=
  MkDPool 0 false 0 [] (λ _, MkWorker [] 0 0 false PTry) (λ _, MkTask PLANNED None Outside) [] [] 0.

Definition distributed_pool : lts dpool dist_label := Lts (λ s, s = new_dpool) dist_step.

(** ** The invariant: one place for a task, and its worker's only *)

Definition running_on (p : worker_pc) : option task :=
  match p with PRun k | PTail k => Some k | _ => None end.

Record dist_inv (s : dpool) : Prop := DistInv {
  di_global : ∀ k, k ∈ global_tasks s → tk_place (dtasks s k) = InGlobal;
  di_global_nodup : NoDup (global_tasks s);
  di_local : ∀ w k, k ∈ local_tasks (dworkers s w) → tk_place (dtasks s k) = InLocal w;
  di_local_nodup : ∀ w, NoDup (local_tasks (dworkers s w));
  di_push : ∀ w k, wk_pc (dworkers s w) = PPush k → tk_place (dtasks s k) = Moving w;
  di_run : ∀ w k, wk_pc (dworkers s w) = PRun k → tk_place (dtasks s k) = RunningOn w;
  di_running : ∀ w k, running_on (wk_pc (dworkers s w)) = Some k → tk_worker (dtasks s k) = Some w;
  di_unassigned : ∀ k, tk_place (dtasks s k) = InGlobal → tk_worker (dtasks s k) = None;
  di_moving : ∀ k w, tk_place (dtasks s k) = Moving w → tk_worker (dtasks s k) = None;
  di_assigned : ∀ k w, tk_place (dtasks s k) = InLocal w ∨ tk_place (dtasks s k) = RunningOn w →
    tk_worker (dtasks s k) = None ∨ tk_worker (dtasks s k) = Some w;
  di_log : ∀ k w, (k, w) ∈ run_log s → tk_worker (dtasks s k) = Some w
}.

Section preservation.
  Implicit Types s : dpool.

(** A step that changes only counters, or a worker's position, with nothing in hand. *)
Lemma dist_local s s' :
  dist_inv s → global_tasks s' = global_tasks s → dtasks s' = dtasks s → run_log s' = run_log s →
  (∀ w, local_tasks (dworkers s' w) = local_tasks (dworkers s w)) →
  (∀ w, wk_pc (dworkers s' w) = wk_pc (dworkers s w) ∨
    (running_on (wk_pc (dworkers s' w)) = None ∧ ∀ k, wk_pc (dworkers s' w) ≠ PPush k)) →
  dist_inv s'.
Proof.
  intros [H1 H2 H3 H4 H5 H6 H7 H8 H9 H10 H11] Eg Et El Ew Ep.
  split; rewrite ?Eg, ?Et, ?El; try done.
  - intros w k. rewrite Ew. apply H3.
  - intros w. rewrite Ew. apply H4.
  - intros w k E. destruct (Ep w) as [E'|[_ Hn]]; [rewrite E' in E; by apply H5|by destruct (Hn k)].
  - intros w k E. destruct (Ep w) as [E'|[Hn _]]; [rewrite E' in E; by apply H6|by rewrite E in Hn].
  - intros w k E. destruct (Ep w) as [E'|[Hn _]]; [rewrite E' in E; by apply H7|by rewrite E in Hn].
Qed.

Lemma dist_pc s w p : dist_inv s → running_on p = None → (∀ k, p ≠ PPush k) →
  dist_inv (set_pc s w p).
Proof.
  intros Hinv H1 H2. apply (dist_local s); try done; intros u; simpl; upd_cases; auto.
Qed.

(** A client's task is being submitted. *)
Lemma dist_submitting s k st :
  dist_inv s → tk_place (dtasks s k) = Outside →
  dist_inv (set_dtask s k (MkTask st (tk_worker (dtasks s k)) Submitting)).
Proof.
  intros [H1 H2 H3 H4 H5 H6 H7 H8 H9 H10 H11] Hk.
  split; simpl; try done.
  - intros j Hj. apply H1 in Hj. upd_cases.
  - intros w j Hj. apply H3 in Hj. upd_cases.
  - intros w j Hj. apply H5 in Hj. upd_cases.
  - intros w j Hj. apply H6 in Hj. upd_cases.
  - intros w j Hj. upd_cases; simpl; by apply H7.
  - intros j. upd_cases; simpl; [done|apply H8].
  - intros j w. upd_cases; simpl; [done|apply H9].
  - intros j w. upd_cases; simpl; [by intros [?|?]|apply H10].
  - intros j w Hj. upd_cases; simpl; by apply H11.
Qed.

(** An access of [Push] that is not the one to the queue. *)
Lemma access_fields s w p :
  global_tasks (push_access s w p) = global_tasks s ∧ dtasks (push_access s w p) = dtasks s ∧
  run_log (push_access s w p) = run_log s ∧ count_tasks (push_access s w p) = count_tasks s ∧
  shutdown_ (push_access s w p) = shutdown_ s ∧ pushing (push_access s w p) = pushing s ∧
  (∀ u, local_tasks (dworkers (push_access s w p) u) = local_tasks (dworkers s u)) ∧
  (∀ u, wk_pc (dworkers (push_access s w p) u) = wk_pc (dworkers s u)).
Proof. destruct p; split_and!; try done; intros u; simpl; by upd_cases. Qed.

Lemma push_on_fields s i s' : push_on s i = Some s' →
  global_tasks s' = global_tasks s ∧ dtasks s' = dtasks s ∧ run_log s' = run_log s ∧
  count_tasks s' = count_tasks s ∧ shutdown_ s' = shutdown_ s ∧
  (∀ u, local_tasks (dworkers s' u) = local_tasks (dworkers s u)) ∧
  (∀ u, wk_pc (dworkers s' u) = wk_pc (dworkers s u)).
Proof.
  unfold push_on. destruct (pushing s !! i) as [[w p]|]; [|done]. intros [= <-].
  destruct (access_fields s w p) as (? & ? & ? & ? & ? & _ & ? & ?). by split_and!.
Qed.

Lemma dist_push_on s i s' : dist_inv s → push_on s i = Some s' → dist_inv s'.
Proof.
  intros Hinv (? & ? & ? & _ & _ & ? & Hp)%push_on_fields. apply (dist_local s); auto.
Qed.

(** Pushing a task that is in no queue to a worker's queue. *)
Lemma dist_push s w k :
  dist_inv s → tk_place (dtasks s k) = Submitting ∨ tk_place (dtasks s k) = Moving w →
  tk_worker (dtasks s k) = None ∨ tk_worker (dtasks s k) = Some w →
  (∀ u, wk_pc (dworkers s u) ≠ PPush k) →
  dist_inv (set_place (Push s w k) k (InLocal w)).
Proof.
  intros [H1 H2 H3 H4 H5 H6 H7 H8 H9 H10 H11] Hk Hw Hpush.
  assert (∀ u, k ∉ local_tasks (dworkers s u)) as Hnl.
  { intros u Hin%H3. destruct Hk; congruence. }
  set (s' := set_place _ _ _).
  assert (∀ u, wk_pc (dworkers s' u) = wk_pc (dworkers s u)) as Epc.
  { intros u. simpl. by upd_cases. }
  assert (∀ u j, j ∈ local_tasks (dworkers s' u) →
    j ∈ local_tasks (dworkers s u) ∨ (u = w ∧ j = k)) as Eloc.
  { intros u j. simpl. upd_cases; simpl; [|auto].
    rewrite elem_of_app, list_elem_of_singleton. naive_solver. }
  assert (∀ j, dtasks s' j = if decide (k = j) then MkTask (tk_state (dtasks s k))
    (tk_worker (dtasks s k)) (InLocal w) else dtasks s j) as Et by done.
  split; try done.
  - intros j Hj. rewrite Et. case_decide; subst; [|auto]. apply H1 in Hj. destruct Hk; congruence.
  - intros u j [Hj|[-> ->]]%Eloc; rewrite Et; [|by rewrite decide_True].
    case_decide; subst; [by destruct (Hnl u)|auto].
  - intros u. simpl. upd_cases; simpl; [|auto]. apply NoDup_app. split; [auto|].
    split; [|apply NoDup_singleton]. intros j Hj. rewrite list_elem_of_singleton. intros ->.
    by destruct (Hnl u).
  - intros u j. rewrite Epc, Et. intros Hj. case_decide; subst; [by destruct (Hpush u)|auto].
  - intros u j. rewrite Epc, Et. intros Hj%H6. case_decide; subst; [|done]. destruct Hk; congruence.
  - intros u j. rewrite Epc, Et. intros Hj%H7. case_decide; by subst.
  - intros j. rewrite Et. case_decide; [done|apply H8].
  - intros j u. rewrite Et. case_decide; [done|apply H9].
  - intros j u. rewrite Et. case_decide; [|apply H10]. by intros [[= <-]|?].
  - intros j u Hj. rewrite Et. case_decide; subst; by apply H11.
Qed.

(** Pushing a task nobody has run to the global queue. *)
Lemma dist_submit_global s k :
  dist_inv s → tk_place (dtasks s k) = Submitting → tk_worker (dtasks s k) = None →
  dist_inv (set_place (set_global s (global_tasks s ++ [k])) k InGlobal).
Proof.
  intros [H1 H2 H3 H4 H5 H6 H7 H8 H9 H10 H11] Hk Hw.
  assert (k ∉ global_tasks s) as Hng by (intros Hin%H1; congruence).
  split; simpl; try done.
  - intros j Hj. upd_cases; [done|]. rewrite elem_of_app, list_elem_of_singleton in Hj. naive_solver.
  - apply NoDup_app. split; [done|]. split; [|apply NoDup_singleton].
    intros j Hj. rewrite list_elem_of_singleton. by intros ->.
  - intros w j Hj. apply H3 in Hj. upd_cases.
  - intros w j Hj. apply H5 in Hj. upd_cases.
  - intros w j Hj. apply H6 in Hj. upd_cases.
  - intros w j Hj. upd_cases; simpl; by apply H7.
  - intros j. upd_cases; simpl; [done|apply H8].
  - intros j w. upd_cases; simpl; [done|apply H9].
  - intros j w. upd_cases; simpl; [by intros [?|?]|apply H10].
  - intros j w Hj. upd_cases; simpl; by apply H11.
Qed.

(** [w] takes the first task of its queue and starts running it. *)
Lemma dist_take s w k ks :
  dist_inv s → wk_pc (dworkers s w) = PTry → local_tasks (dworkers s w) = k :: ks →
  ∀ timeout s', worker_step s w timeout = Some s' → dist_inv s'.
Proof.
  intros [H1 H2 H3 H4 H5 H6 H7 H8 H9 H10 H11] Epc El timeout s' Hstep.
  unfold worker_step in Hstep.
  rewrite Epc, El in Hstep. simplify_eq.
  pose proof (H4 w) as Hnd. rewrite El in Hnd. apply NoDup_cons in Hnd as [Hk Hnd].
  assert (tk_place (dtasks s k) = InLocal w) as Hpl by (apply H3; rewrite El; set_solver).
  assert (tk_worker (SetWorker (dtasks s k) w) = Some w) as Ew.
  { unfold SetWorker. by destruct (H10 k w (or_introl Hpl)) as [E|E]; rewrite E. }
  set (s' := log_run _ _ _).
  assert (∀ u, dworkers s' u = if decide (w = u) then MkWorker ks (counter_empty_tasks (dworkers s w))
    (smph (dworkers s w)) (wk_shutdown (dworkers s w)) (PRun k) else dworkers s u) as Eu by done.
  assert (∀ j, dtasks s' j = if decide (k = j) then MkTask (tk_state (SetWorker (dtasks s k) w))
    (tk_worker (SetWorker (dtasks s k) w)) (RunningOn w) else dtasks s j) as Et by done.
  split; try done.
  - intros j Hj. rewrite Et. case_decide; subst; [|auto]. apply H1 in Hj. congruence.
  - intros u j. rewrite Eu, Et. intros Hj. destruct (decide (w = u)) as [<-|Hne].
    + rewrite decide_False by (intros ->; done). apply H3. rewrite El. set_solver.
    + case_decide; subst; [|auto]. apply H3 in Hj. congruence.
  - intros u. rewrite Eu. case_decide; [done|auto].
  - intros u j. rewrite Eu, Et. case_decide; [done|]. intros Hj%H5. case_decide; congruence.
  - intros u j. rewrite Eu, Et. destruct (decide (w = u)) as [<-|Hne].
    + intros [= <-]. by rewrite decide_True.
    + intros Hj%H6. case_decide; congruence.
  - intros u j. rewrite Eu, Et. destruct (decide (w = u)) as [<-|Hne].
    + intros [= <-]. by rewrite decide_True.
    + intros Hj%H7. case_decide; subst; [|done]. simpl. rewrite Ew.
      destruct (H10 j w (or_introl Hpl)); congruence.
  - intros j. rewrite Et. case_decide; [done|apply H8].
  - intros j u. rewrite Et. case_decide; [done|apply H9].
  - intros j u. rewrite Et. case_decide; [|apply H10]. simpl. intros [?|[= <-]]; [done|by right].
  - intros j u. simpl. rewrite elem_of_app, list_elem_of_singleton. intros [Hj|[= -> ->]].
    + apply H11 in Hj. upd_cases. simpl. rewrite Ew. destruct (H10 j w (or_introl Hpl)); congruence.
    + rewrite upd_eq. done.
Qed.

(** [w] takes the first task of the global queue. *)
Lemma dist_global s w k ks :
  dist_inv s → wk_pc (dworkers s w) = PGlobal → global_tasks s = k :: ks →
  dist_inv (set_pc (set_place (set_global s ks) k (Moving w)) w (PPush k)).
Proof.
  intros [H1 H2 H3 H4 H5 H6 H7 H8 H9 H10 H11] Epc Eg.
  assert (tk_place (dtasks s k) = InGlobal) as Hpl by (apply H1; rewrite Eg; set_solver).
  rewrite Eg in H2. apply NoDup_cons in H2 as [Hk Hnd]. set (s' := set_pc _ _ _).
  assert (∀ u, local_tasks (dworkers s' u) = local_tasks (dworkers s u)) as El
    by (intros u; simpl; by upd_cases).
  assert (∀ u, wk_pc (dworkers s' u) = if decide (w = u) then PPush k else wk_pc (dworkers s u)) as Ep
    by (intros u; simpl; by upd_cases).
  assert (∀ j, dtasks s' j = if decide (k = j) then MkTask (tk_state (dtasks s k))
    (tk_worker (dtasks s k)) (Moving w) else dtasks s j) as Et by done.
  split; try done.
  - intros j Hj. rewrite Et. rewrite decide_False by (intros ->; done). apply H1. rewrite Eg.
    change (j ∈ ks) in Hj. set_solver.
  - intros u j. rewrite El, Et. intros Hj%H3. case_decide; congruence.
  - intros u. rewrite El. auto.
  - intros u j. rewrite Ep, Et. destruct (decide (w = u)) as [<-|Hne].
    + intros [= <-]. by rewrite decide_True.
    + intros Hj%H5. case_decide; congruence.
  - intros u j. rewrite Ep, Et. case_decide; [done|]. intros Hj%H6. case_decide; congruence.
  - intros u j. rewrite Ep, Et. case_decide; [done|]. intros Hj%H7. case_decide; by subst.
  - intros j. rewrite Et. case_decide; [done|apply H8].
  - intros j u. rewrite Et. case_decide; [|apply H9]. simpl. intros _. by apply H8.
  - intros j u. rewrite Et. case_decide; [|apply H10]. simpl. by intros [?|?].
  - intros j u Hj. rewrite Et. case_decide; subst; by apply H11.
Qed.

(** The fiber a worker runs leaves it, or completes. *)
Lemma dist_leave s w k p q :
  dist_inv s → wk_pc (dworkers s w) = PRun k → p = Outside ∨ p = Completed →
  q = PTail k ∨ q = PRemove k → dist_inv (set_pc (set_place s k p) w q).
Proof.
  intros Hinv Epc Hp Hq. pose proof (di_run _ Hinv w k Epc) as Hpl.
  pose proof Hinv as [H1 H2 H3 H4 H5 H6 H7 H8 H9 H10 H11]. set (s' := set_pc _ _ _).
  assert (∀ u, local_tasks (dworkers s' u) = local_tasks (dworkers s u)) as El
    by (intros u; simpl; by upd_cases).
  assert (∀ u, wk_pc (dworkers s' u) = if decide (w = u) then q else wk_pc (dworkers s u)) as Ep
    by (intros u; simpl; by upd_cases).
  assert (∀ j, dtasks s' j = if decide (k = j) then MkTask (tk_state (dtasks s k))
    (tk_worker (dtasks s k)) p else dtasks s j) as Et by done.
  split; try done.
  - intros j Hj. rewrite Et. apply H1 in Hj. case_decide; congruence.
  - intros u j. rewrite El, Et. intros Hj%H3. case_decide; congruence.
  - intros u. rewrite El. auto.
  - intros u j. rewrite Ep, Et. case_decide; [destruct Hq; congruence|].
    intros Hj%H5. case_decide; congruence.
  - intros u j. rewrite Ep, Et. case_decide; [destruct Hq; congruence|].
    intros Hj%H6. case_decide; congruence.
  - intros u j. rewrite Ep, Et. destruct (decide (w = u)) as [<-|Hne].
    + intros Hj. assert (k = j) as <- by (destruct Hq as [->| ->]; simpl in Hj; congruence).
      rewrite decide_True by done. simpl. apply H7. by rewrite Epc.
    + intros Hj%H7. case_decide; by subst.
  - intros j. rewrite Et. case_decide; [|apply H8]. simpl. destruct Hp; congruence.
  - intros j u. rewrite Et. case_decide; [|apply H9]. simpl. destruct Hp; congruence.
  - intros j u. rewrite Et. case_decide; [|apply H10]. simpl. destruct Hp; naive_solver congruence.
  - intros j u Hj. rewrite Et. case_decide; subst; by apply H11.
Qed.

Lemma dist_worker s w b s' : dist_inv s → worker_step s w b = Some s' → dist_inv s'.
Proof.
  intros Hinv Hstep. pose proof Hstep as Htake. unfold worker_step in Hstep.
  destruct (wk_pc (dworkers s w)) as [|k|k|k| |k|q| | | | | |d|d|d| |] eqn:Epc; try done;
    try (injection Hstep as <-).
  - destruct (local_tasks (dworkers s w)) as [|k ks] eqn:El.
    + simplify_eq. by apply dist_pc.
    + by eapply dist_take.
  - by apply dist_pc.
  - apply dist_pc; [|done..]. apply (dist_local s); auto.
  - destruct (global_tasks s) as [|k ks] eqn:Eg; simplify_eq; [by apply dist_pc|].
    by apply dist_global.
  - pose proof (di_push _ Hinv w k Epc) as Hpl. pose proof (di_moving _ Hinv k w Hpl) as Hw.
    assert (dist_inv (set_pc s w (PPushed PStore))) as Hinv' by (by apply dist_pc).
    apply dist_push; auto. intros u. simpl. upd_cases; [done|].
    intros Hu%(di_push _ Hinv). congruence.
  - destruct (access_fields s w q) as (? & ? & ? & _ & _ & _ & ? & Hp).
    apply dist_pc; [apply (dist_local s); auto|by destruct q..].
  - apply dist_pc; [done|..]; by destruct (CanCloseWorker s).
  - apply (dist_local s); try done; intros u; simpl; upd_cases; auto.
  - apply dist_pc; [done|..]; by case_match.
  - apply dist_pc; [|done..]. apply (dist_local s); auto.
  - by apply dist_pc.
  - apply dist_pc; [done|..]; by destruct (CanCloseWorker s).
  - destruct (wk_shutdown (dworkers s w)); simplify_eq; [by apply dist_pc|].
    case_decide; simplify_eq; [|destruct b; simplify_eq; by apply dist_pc].
    apply (dist_local s); try done; intros u; simpl; upd_cases; auto.
  - apply dist_pc; [done|..]; by destruct d.
Qed.
End preservation.

(** ** What a step touches *)

(** The worker that moves, and the task in its hands. *)
Definition mover (l : dist_label) : option wid :=
  match l with Suspended w | Finished w | Step w _ => Some w | _ => None end.

Definition task_of (l : dist_label) (s : dpool) : option task :=
  match l with
  | CallSubmit k | Route k => Some k
  | Suspended w | Finished w => running_on (wk_pc (dworkers s w))
  | Step w _ =>
      match wk_pc (dworkers s w) with
      | PTry => head (local_tasks (dworkers s w))
      | PGlobal => head (global_tasks s)
      | PPush k => Some k
      | _ => None
      end
  | _ => None
  end.

Lemma worker_others s w b s' u : worker_step s w b = Some s' → u ≠ w →
  wk_pc (dworkers s' u) = wk_pc (dworkers s u).
Proof.
  unfold worker_step. intros Hstep Hu.
  destruct (wk_pc (dworkers s w)) as [|k|k|k| |k|q| | | | | |d|d|d| |] eqn:E; try done;
    try (destruct q); repeat case_match; simplify_eq; simpl; rewrite ?upd_ne by done; simpl; rewrite ?upd_ne by done;
    simpl; rewrite ?upd_ne by done; done.
Qed.

Lemma Push_pc s w k u : wk_pc (dworkers (Push s w k) u) = wk_pc (dworkers s u).
Proof.
  simpl. destruct (decide (w = u)) as [<-|Hne]; [by rewrite !upd_eq|by rewrite !upd_ne].
Qed.

Lemma release_pc s w u : wk_pc (dworkers (release_smph s w) u) = wk_pc (dworkers s u).
Proof. simpl. by upd_cases. Qed.

Lemma other_workers l s s' u : dist_step l s = Some s' → mover l ≠ Some u →
  wk_pc (dworkers s' u) = wk_pc (dworkers s u).
Proof.
  intros Hstep Hu. destruct l as [k|k|w|w|w b| |w|w|i]; simpl in Hstep, Hu.
  - unfold Submit_count in Hstep. repeat case_match; by simplify_eq.
  - unfold Submit_route in Hstep. repeat case_match; simplify_eq; unfold set_place, set_dtask, set_pushing;
      cbn [dworkers]; by rewrite ?Push_pc.
  - repeat case_match; simplify_eq. simpl. by rewrite upd_ne by congruence.
  - repeat case_match; simplify_eq. simpl. by rewrite upd_ne by congruence.
  - eapply worker_others; [done|congruence].
  - by simplify_eq.
  - simplify_eq. by rewrite release_pc.
  - simplify_eq. rewrite release_pc. simpl. by upd_cases.
  - apply push_on_fields in Hstep. apply Hstep.
Qed.

Lemma other_tasks l s s' k : dist_step l s = Some s' → task_of l s ≠ Some k →
  dtasks s' k = dtasks s k.
Proof.
  intros Hstep Hk. destruct l as [j|j|w|w|w b| |w|w|i]; simpl in Hstep, Hk.
  - unfold Submit_count in Hstep. repeat case_match; simplify_eq; simpl; by rewrite upd_ne by congruence.
  - unfold Submit_route in Hstep. repeat case_match; simplify_eq; simpl; by rewrite upd_ne by congruence.
  - repeat case_match; simplify_eq; simpl in *; by rewrite upd_ne by congruence.
  - repeat case_match; simplify_eq; simpl in *; by rewrite upd_ne by congruence.
  - unfold worker_step, push_access in Hstep. repeat case_match; simplify_eq; simpl in *; try done;
      by rewrite upd_ne by congruence.
  - by simplify_eq.
  - by simplify_eq.
  - by simplify_eq.
  - by destruct (push_on_fields _ _ _ Hstep) as (_ & -> & _).
Qed.

(** Only submitting a task takes it out of its first state. *)
Lemma planned_stays l s s' k : dist_step l s = Some s' → tk_state (dtasks s k) = PLANNED →
  tk_state (dtasks s' k) = PLANNED ∨ l = CallSubmit k.
Proof.
  intros Hstep Hk. destruct l as [j|j|w|w|w b| |w|w|i]; simpl in Hstep.
  - destruct (decide (j = k)) as [->|Hne]; [by right|left]. unfold Submit_count in Hstep.
    repeat case_match; simplify_eq; simpl; by rewrite upd_ne by done.
  - left. unfold Submit_route in Hstep. repeat case_match; simplify_eq; simpl; by upd_cases.
  - left. repeat case_match; simplify_eq; simpl; by upd_cases.
  - left. repeat case_match; simplify_eq; simpl; by upd_cases.
  - left. unfold worker_step, push_access in Hstep. unfold SetWorker in Hstep.
    repeat case_match; simplify_eq; simpl; try done; by upd_cases.
  - left. by simplify_eq.
  - left. by simplify_eq.
  - left. by simplify_eq.
  - left. by destruct (push_on_fields _ _ _ Hstep) as (_ & -> & _).
Qed.

Lemma planned_before l s s' k : dist_step l s = Some s' → tk_state (dtasks s' k) = PLANNED →
  tk_state (dtasks s k) = PLANNED.
Proof.
  intros Hstep Hk. destruct l as [j|j|w|w|w b| |w|w|i]; simpl in Hstep.
  - unfold Submit_count in Hstep. repeat case_match; simplify_eq/=; by upd_cases.
  - unfold Submit_route in Hstep. repeat case_match; simplify_eq/=; by upd_cases.
  - repeat case_match; simplify_eq/=; by upd_cases.
  - repeat case_match; simplify_eq/=; by upd_cases.
  - unfold worker_step, push_access, SetWorker in Hstep. repeat case_match; simplify_eq/=; try done; by upd_cases.
  - by simplify_eq.
  - by simplify_eq.
  - by simplify_eq.
  - by destruct (push_on_fields _ _ _ Hstep) as (_ & <- & _).
Qed.

(** Only the end of its fiber completes a task. *)
Lemma completed_by l s s' k : dist_step l s = Some s' → tk_place (dtasks s' k) = Completed →
  tk_place (dtasks s k) = Completed ∨ ∃ w, l = Finished w ∧ wk_pc (dworkers s w) = PRun k.
Proof.
  intros Hstep Hk. destruct l as [j|j|w|w|w b| |w|w|i]; simpl in Hstep.
  - unfold Submit_count in Hstep. repeat case_match; simplify_eq/=; left; by upd_cases.
  - unfold Submit_route in Hstep. repeat case_match; simplify_eq/=; left; by upd_cases.
  - repeat case_match; simplify_eq/=; left; by upd_cases.
  - destruct (wk_pc (dworkers s w)) as [|j| | | | | | | | | | | | | | |] eqn:E; simplify_eq/=.
    destruct (decide (j = k)) as [->|Hne]; [right; by exists w|left; by rewrite upd_ne in Hk].
  - left. unfold worker_step, push_access in Hstep. repeat case_match; simplify_eq/=; try done; by upd_cases.
  - left. by simplify_eq.
  - left. by simplify_eq.
  - left. by simplify_eq.
  - left. by destruct (push_on_fields _ _ _ Hstep) as (_ & <- & _).
Qed.

(** [SetWorker] and nothing else changes a task's worker. *)
Lemma dist_sticky l s s' k w : dist_step l s = Some s' →
  tk_worker (dtasks s k) = Some w → tk_worker (dtasks s' k) = Some w.
Proof.
  intros Hstep Hk. destruct l as [j|j|u|u|u b| |u|u|i]; simpl in Hstep.
  - unfold Submit_count in Hstep. repeat case_match; simplify_eq; simpl; by upd_cases.
  - unfold Submit_route in Hstep. repeat case_match; simplify_eq; simpl; by upd_cases.
  - repeat case_match; simplify_eq; simpl; by upd_cases.
  - repeat case_match; simplify_eq; simpl; by upd_cases.
  - unfold worker_step, push_access, SetWorker in Hstep. repeat case_match; simplify_eq; simpl; try done; by upd_cases.
  - by simplify_eq.
  - by simplify_eq.
  - by simplify_eq.
  - by destruct (push_on_fields _ _ _ Hstep) as (_ & -> & _).
Qed.

(** A task stays between the two halves of its submission until the second. *)
Lemma submitting_until l s s' k : dist_inv s → dist_step l s = Some s' → tk_place (dtasks s k) = Submitting →
  tk_place (dtasks s' k) = Submitting ∨ l = Route k.
Proof.
  intros Hd Hstep Hk. destruct (decide (task_of l s = Some k)) as [Ht|Ht]; [|left; by rewrite (other_tasks l s s' k)].
  destruct l as [j|j|w|w|w b| |w|w|i]; simpl in Hstep, Ht; simplify_eq; [|by right|left..].
  - left. case_decide; congruence.
  - destruct (wk_pc (dworkers s w)) as [|j| | | | | | | | | | | | | | |] eqn:E; simplify_eq/=.
    apply (di_run _ Hd) in E. congruence.
  - destruct (wk_pc (dworkers s w)) as [|j| | | | | | | | | | | | | | |] eqn:E; simplify_eq/=.
    apply (di_run _ Hd) in E. congruence.
  - destruct (wk_pc (dworkers s w)) as [|j|j|j| |j|q| | | | | |e|e|e| |] eqn:E; try done.
    + destruct (local_tasks (dworkers s w)) as [|j js] eqn:El; simplify_eq/=.
      rewrite (di_local _ Hd w k) in Hk by (rewrite El; by left). done.
    + destruct (global_tasks s) as [|j js] eqn:El; simplify_eq/=.
      rewrite (di_global _ Hd k) in Hk by (rewrite El; by left). done.
    + simplify_eq. apply (di_push _ Hd) in E. congruence.
Qed.

Lemma dist_inv_step l s s' : dist_inv s → dist_step l s = Some s' → dist_inv s'.
Proof.
  intros Hinv Hstep. destruct l as [k|k|w|w|w b| |w|w|i]; simpl in Hstep.
  - case_decide as Hp; simplify_eq. unfold Submit_count.
    destruct (tk_state (dtasks s k)); try (by apply dist_submitting).
    apply (dist_submitting (set_count s (sz_add (count_tasks s) 1))); [|done].
    by apply (dist_local s); auto.
  - case_decide as Hp; simplify_eq. unfold Submit_route.
    destruct (tk_worker (dtasks s k)) as [w|] eqn:Ew.
    + apply (dist_push (set_pushing s (pushing s ++ [(w, PStore)]))); auto; [by apply (dist_local s); auto|].
      intros u Hu%(di_push _ Hinv). congruence.
    + by apply dist_submit_global.
  - destruct (wk_pc (dworkers s w)) as [|k| | | | | | | | | | | | | | |] eqn:E; simplify_eq.
    apply dist_leave; auto.
  - destruct (wk_pc (dworkers s w)) as [|k| | | | | | | | | | | | | | |] eqn:E; simplify_eq.
    apply dist_leave; auto.
  - by eapply dist_worker.
  - simplify_eq. apply (dist_local s); auto.
  - simplify_eq. apply (dist_local s); try done; intros u; simpl; upd_cases; auto.
  - simplify_eq. apply (dist_local s); try done; intros u; simpl; upd_cases; auto.
  - by eapply dist_push_on.
Qed.

Lemma dist_invariant : invariant distributed_pool dist_inv.
Proof.
  apply invariant_intro; [|by intros l s s' Hinv; apply dist_inv_step].
  intros s ->. split; simpl; try (intros; apply NoDup_nil_2); try done; set_solver.
Qed.

(** ** The counter *)

(** [X] is the set of tasks counted: submitted, and not yet removed. *)
Record dist_count (s : dpool) (X : gset task) : Prop := DistCount {
  dc_count : count_tasks s = wrap64 (Z.of_nat (size X));
  dc_fresh : ∀ k, tk_state (dtasks s k) = PLANNED → k ∉ X ∧ tk_place (dtasks s k) = Outside;
  dc_live : ∀ k, tk_state (dtasks s k) ≠ PLANNED → tk_place (dtasks s k) ≠ Completed → k ∈ X;
  dc_remove : ∀ w k, wk_pc (dworkers s w) = PRemove k → k ∈ X ∧ tk_place (dtasks s k) = Completed;
  dc_remove_one : ∀ w u k, wk_pc (dworkers s w) = PRemove k → wk_pc (dworkers s u) = PRemove k → w = u
}.

(** A step that neither counts, completes nor removes a task. *)
Lemma count_local s s' X :
  dist_count s X → count_tasks s' = count_tasks s →
  (∀ k, tk_state (dtasks s' k) = tk_state (dtasks s k)) →
  (∀ k, tk_place (dtasks s' k) = tk_place (dtasks s k) ∨ (tk_state (dtasks s k) ≠ PLANNED ∧
    tk_place (dtasks s k) ≠ Completed ∧ tk_place (dtasks s' k) ≠ Completed)) →
  (∀ w, wk_pc (dworkers s' w) = wk_pc (dworkers s w) ∨ ∀ k, wk_pc (dworkers s' w) ≠ PRemove k) →
  dist_count s' X.
Proof.
  intros [H1 H2 H3 H4 H5] Ec Es Ep Ew.
  assert (∀ w k, wk_pc (dworkers s' w) = PRemove k → wk_pc (dworkers s w) = PRemove k) as Er.
  { intros w k E. destruct (Ew w) as [<-|Hn]; [done|by destruct (Hn k)]. }
  split; try congruence.
  - intros k. rewrite Es. intros Hk. destruct (H2 k Hk). destruct (Ep k) as [->|(? & _)]; done.
  - intros k. rewrite Es. intros Hk Hp. apply H3; [done|]. destruct (Ep k) as [<-|(_ & ? & _)]; done.
  - intros w k E%Er. destruct (H4 w k E) as [Hx Hc]. split; [done|].
    destruct (Ep k) as [->|(_ & ? & _)]; done.
  - intros w u k Hw%Er Hu%Er. by eapply H5.
Qed.

Lemma count_pc s w p X : dist_count s X → (∀ k, p ≠ PRemove k) → dist_count (set_pc s w p) X.
Proof.
  intros Hc Hp. apply (count_local s); auto. intros u. simpl. upd_cases; auto.
Qed.

(** The worker removes the completed task from the count. *)
Lemma count_remove s w k X :
  dist_count s X → wk_pc (dworkers s w) = PRemove k →
  ∃ X', dist_count (set_pc (set_count s (sz_sub (count_tasks s) 1)) w PNotify) X'.
Proof.
  intros Hc E. destruct (dc_remove _ _ Hc w k E) as [Hk Hcomp].
  destruct Hc as [H1 H2 H3 H4 H5]. exists (X ∖ {[k]}). split; simpl.
  - rewrite H1, sz_sub_wrap, size_difference by set_solver. rewrite size_singleton. f_equal.
    assert (size X ≠ 0) by (apply size_non_empty_iff; set_solver). lia.
  - intros j Hj. destruct (H2 j Hj). set_solver.
  - intros j Hj Hp. specialize (H3 j Hj Hp). set_solver.
  - intros u j. upd_cases; simpl; [done|]. intros Hu. destruct (H4 u j Hu). split; [|done].
    assert (j ≠ k) by (intros ->; by destruct n; eapply H5). set_solver.
  - intros u v j. upd_cases; simpl; try done. apply H5.
Qed.

(** A task completes: its worker is the one that will remove it. *)
Lemma count_complete s w k X :
  dist_inv s → dist_count s X → wk_pc (dworkers s w) = PRun k →
  dist_count (set_pc (set_place s k Completed) w (PRemove k)) X.
Proof.
  intros Hinv [H1 H2 H3 H4 H5] E. pose proof (di_run _ Hinv w k E) as Hp.
  assert (tk_state (dtasks s k) ≠ PLANNED) as Hs by (intros Hs; destruct (H2 k Hs); congruence).
  assert (k ∈ X) by (apply H3; congruence).
  assert (∀ u, wk_pc (dworkers s u) ≠ PRemove k) as Hnr.
  { intros u Hu%H4. destruct Hu. congruence. }
  split; simpl; try done.
  - intros j. upd_cases; simpl; try done; apply H2.
  - intros j. upd_cases; simpl; try done; apply H3.
  - intros u j Hu. destruct (decide (w = u)) as [<-|Hne].
    + rewrite upd_eq in Hu. simpl in Hu. simplify_eq. by rewrite upd_eq.
    + rewrite upd_ne in Hu by done. destruct (H4 u j Hu). by upd_cases.
  - intros u v j. destruct (decide (w = u)) as [<-|Hu], (decide (w = v)) as [<-|Hv]; [done|..];
      rewrite ?upd_eq, ?(upd_ne _ w u), ?(upd_ne _ w v) by done; simpl.
    + intros [= <-] E'. by destruct (Hnr v).
    + intros E' [= <-]. by destruct (Hnr u).
    + apply H5.
Qed.

Lemma count_worker s w b s' X :
  dist_inv s → dist_count s X → worker_step s w b = Some s' → ∃ X', dist_count s' X'.
Proof.
  intros Hinv Hc Hstep. unfold worker_step in Hstep.
  assert (∀ k, tk_place (dtasks s k) ≠ Outside → tk_state (dtasks s k) ≠ PLANNED) as Hpl.
  { intros k Hk Hs. by destruct (dc_fresh _ _ Hc k Hs). }
  destruct (wk_pc (dworkers s w)) as [|k|k|k| |k|q| | | | | |d|d|d| |] eqn:Epc; try done.
  2: { injection Hstep as <-. exists X. by apply count_pc. }
  2: { injection Hstep as <-. by eapply count_remove. }
  all: exists X; try (injection Hstep as <-).
  - destruct (local_tasks (dworkers s w)) as [|k ks] eqn:El; simplify_eq; [by apply count_pc|].
    pose proof (di_local _ Hinv w k ltac:(rewrite El; set_solver)) as Hp.
    apply (count_local s); auto; simpl.
    + intros j. upd_cases. simpl. unfold SetWorker. by destruct (tk_worker (dtasks s j)).
    + intros j. upd_cases; [|auto]. right. rewrite Hp. split; [|done]. apply Hpl. by rewrite Hp.
    + intros u. upd_cases; simpl; first [by left|right; by intros j].
  - destruct (global_tasks s) as [|k ks] eqn:Eg; simplify_eq; [by apply count_pc|].
    pose proof (di_global _ Hinv k ltac:(rewrite Eg; set_solver)) as Hp.
    apply (count_local s); auto; simpl.
    + intros j. by upd_cases.
    + intros j. upd_cases; [|auto]. right. rewrite Hp. split; [|done]. apply Hpl. by rewrite Hp.
    + intros u. upd_cases; simpl; first [by left|right; by intros j].
  - pose proof (di_push _ Hinv w k Epc) as Hp. apply (count_local s); auto; simpl.
    + intros j. by upd_cases.
    + intros j. upd_cases; [|auto]. right. rewrite Hp. split; [|done]. apply Hpl. by rewrite Hp.
    + intros u. upd_cases; simpl; first [by left|right; by intros j].
  - destruct (access_fields s w q) as (_ & Et & _ & Ec & _ & _ & _ & Ep).
    apply count_pc; [|by destruct q]. apply (count_local s); rewrite ?Et; auto.
  - apply count_pc; [done|]. by destruct (CanCloseWorker s).
  - apply (count_local s); auto. intros u. simpl. upd_cases; simpl; first [by left|right; by intros j].
  - apply count_pc; [done|]. by case_match.
  - apply (count_local s); auto. intros u. simpl. upd_cases; simpl; first [by left|right; by intros j].
  - by apply count_pc.
  - apply count_pc; [done|]. by destruct (CanCloseWorker s).
  - destruct (wk_shutdown (dworkers s w)); simplify_eq; [by apply count_pc|].
    case_decide; simplify_eq; [|destruct b; simplify_eq; by apply count_pc].
    apply (count_local s); auto. intros u. simpl. upd_cases; simpl; first [by left|right; by intros j].
  - apply count_pc; [done|]. by destruct d.
Qed.

Lemma count_submit s k X : dist_count s X → tk_place (dtasks s k) = Outside →
  ∃ X', dist_count (Submit_count s k) X'.
Proof.
  intros Hc Hp. unfold Submit_count. destruct (tk_state (dtasks s k)) eqn:Es.
  2-3: exists X; apply (count_local s); auto; intros j; simpl; upd_cases; auto;
    right; rewrite Hp, Es; done.
  destruct Hc as [H1 H2 H3 H4 H5]. destruct (H2 k Es) as [Hk _]. exists ({[k]} ∪ X). split; simpl.
  - rewrite H1, sz_add_wrap, size_union by set_solver. rewrite size_singleton. f_equal. lia.
  - intros j. upd_cases; [done|]. intros Hj. destruct (H2 j Hj). set_solver.
  - intros j. upd_cases; [set_solver|]. intros Hj Hpj. specialize (H3 j Hj Hpj). set_solver.
  - intros w j Hw. destruct (H4 w j Hw) as [Hj Hcj]. upd_cases. set_solver.
  - done.
Qed.

Lemma dist_count_invariant : invariant distributed_pool (λ s, dist_inv s ∧ ∃ X, dist_count s X).
Proof.
  intros s Hs. split; [by apply dist_invariant|]. revert s Hs.
  apply (invariant_on_top _ dist_inv); [apply dist_invariant|..].
  - intros s ->. exists ∅. split; simpl; try done; set_solver.
  - intros l s s' Hinv [X Hc] Hstep. destruct l as [k|k|w|w|w b| |w|w|i]; simpl in Hstep.
    + case_decide; simplify_eq. by eapply count_submit.
    + case_decide as Hp; simplify_eq. exists X.
      assert (tk_state (dtasks s k) ≠ PLANNED) as Hs.
      { intros Hs. destruct (dc_fresh _ _ Hc k Hs). congruence. }
      unfold Submit_route. destruct (tk_worker (dtasks s k)) as [w|];
        (apply (count_local s); auto; intros j; simpl; upd_cases; auto;
         right; rewrite Hp; done).
    + destruct (wk_pc (dworkers s w)) as [|k| | | | | | | | | | | | | | |] eqn:E; simplify_eq. exists X.
      pose proof (di_run _ Hinv w k E) as Hp.
      apply (count_local s); auto; simpl.
      * intros j. by upd_cases.
      * intros j. upd_cases; [right|by left]. rewrite Hp. split; [|done].
        intros Hs. destruct (dc_fresh _ _ Hc j Hs). congruence.
      * intros u. upd_cases; simpl; first [by left|right; by intros j].
    + destruct (wk_pc (dworkers s w)) as [|k| | | | | | | | | | | | | | |] eqn:E; simplify_eq. exists X.
      by apply count_complete.
    + by eapply count_worker.
    + simplify_eq. exists X. by apply (count_local s); auto.
    + simplify_eq. exists X. apply (count_local s); auto. intros u. simpl. upd_cases; auto.
    + simplify_eq. exists X. apply (count_local s); auto. intros u. simpl. upd_cases; auto.
    + destruct (push_on_fields _ _ _ Hstep) as (_ & Et & _ & Ec & _ & _ & Ep).
      exists X. apply (count_local s); rewrite ?Et; auto.
Qed.

(** ** Theorems *)

(** A task sticks to one worker: all the workers that ever started it are the
    same, and so are all the workers inside its [Run] now, even when the fiber has
    been resubmitted before [Run] returned.  This is the affinity under which the
    fiber primitives are safe. *)
Lemma dist_affine s k w1 w2 :
  reachable distributed_pool s →
  ((k, w1) ∈ run_log s → (k, w2) ∈ run_log s → w1 = w2) ∧
  (running_on (wk_pc (dworkers s w1)) = Some k → running_on (wk_pc (dworkers s w2)) = Some k → w1 = w2).
Proof.
  intros Hr. pose proof (dist_invariant s Hr) as Hinv. split.
  - intros H1%(di_log _ Hinv) H2%(di_log _ Hinv). congruence.
  - intros H1%(di_running _ Hinv) H2%(di_running _ Hinv). congruence.
Qed.

(** Task 5 is submitted, moved by worker 1 to its queue and run; the fiber suspends,
    is resubmitted while [Run] has not returned, and run again. *)
Definition sticky_schedule : list dist_label :=
  [CallSubmit 5; Route 5] ++ repeat (Step 1 false) 8 ++
  [Suspended 1; CallSubmit 5; Route 5; Step 1 false; Step 1 false; Step 1 false].

Definition dist_after (tr : list dist_label) : dpool := default new_dpool (run distributed_pool tr new_dpool).

Lemma dist_after_reachable tr : is_Some (run distributed_pool tr new_dpool) →
  reachable distributed_pool (dist_after tr).
Proof. by apply (run_reachable distributed_pool). Qed.

Lemma dist_affine_witness :
  run_log (dist_after sticky_schedule) = [(5, 1); (5, 1)] ∧
  ((5, 1) ∈ run_log (dist_after sticky_schedule) → (5, 1) ∈ run_log (dist_after sticky_schedule) → 1 = 1) ∧
  (running_on (wk_pc (dworkers (dist_after sticky_schedule) 1)) = Some 5 →
   running_on (wk_pc (dworkers (dist_after sticky_schedule) 1)) = Some 5 → 1 = 1).
Proof.
  split; [vm_compute; reflexivity|]. apply (dist_affine (dist_after sticky_schedule) 5 1 1).
  apply dist_after_reachable. vm_compute. eauto.
Defined.

(** Submitted, and not completed. *)
Definition in_flight (s : dpool) (k : task) : Prop :=
  tk_state (dtasks s k) ≠ PLANNED ∧ tk_place (dtasks s k) ≠ Completed.

(** The counter counts what is in flight, so at zero nothing is. *)
Lemma zero_idle s :
  reachable distributed_pool s → count_tasks s = 0%Z →
  (∀ X : gset task, (∀ k, k ∈ X → tk_state (dtasks s k) ≠ PLANNED) → (Z.of_nat (size X) < size_bound)%Z) →
  dist_count s ∅.
Proof.
  intros Hr Hz Hb. destruct (dist_count_invariant s Hr) as [_ [X Hc]].
  assert (Z.of_nat (size X) < size_bound)%Z as Hs.
  { apply Hb. intros j Hj Hp. by destruct (dc_fresh _ _ Hc j Hp). }
  pose proof (dc_count _ _ Hc) as Hn. rewrite wrap64_small in Hn by (unfold is_size; lia).
  rewrite Hz in Hn. assert (size X = 0) as He by lia. apply size_empty_inv in He.
  by apply leibniz_equiv in He as ->.
Qed.

Lemma close_zero s : CanCloseWorker s = true → count_tasks s = 0%Z.
Proof. intros [_ Hz%bool_decide_eq_true]%andb_prop. done. Qed.

Lemma counted_none_in_flight s k : dist_count s ∅ → ¬ in_flight s k.
Proof. intros Hc [H1 H2]. pose proof (dc_live _ _ Hc k H1 H2). set_solver. Qed.

(** A worker closes only when nothing is in flight: when [CanCloseWorker] holds
    (fewer than 2^64 tasks being counted), every task ever submitted has completed:
    none is queued, being run, or suspended with an awaiter. *)
Lemma dist_close_safe s :
  reachable distributed_pool s → CanCloseWorker s = true →
  (∀ X : gset task, (∀ k, k ∈ X → tk_state (dtasks s k) ≠ PLANNED) → (Z.of_nat (size X) < size_bound)%Z) →
  ∀ k, ¬ in_flight s k.
Proof.
  intros Hr Hclose%close_zero Hb k. by apply counted_none_in_flight, zero_idle.
Qed.

(** One task has been submitted, run and removed, and the pool is shutting down. *)
Definition closing_schedule : list dist_label :=
  [CallSubmit 5; Route 5] ++ repeat (Step 1 false) 8 ++
  [Finished 1; Step 1 false; BeginShutdown].

Lemma dist_close_safe_witness :
  tk_place (dtasks (dist_after closing_schedule) 5) = Completed ∧
  ∀ k, ¬ in_flight (dist_after closing_schedule) k.
Proof.
  split; [vm_compute; reflexivity|]. apply (dist_close_safe (dist_after closing_schedule)).
  - apply dist_after_reachable. vm_compute. eauto.
  - vm_compute. reflexivity.
  - intros X HX. assert (X ⊆ {[5]}) as Hsub.
    { intros k Hk. specialize (HX k Hk). destruct (decide (k = 5)) as [->|Hne]; [set_solver|].
      destruct HX. unfold dist_after. vm_compute.
      destruct k as [|[|[|[|[|[|k]]]]]]; [reflexivity..|congruence|reflexivity]. }
    apply subseteq_size in Hsub. rewrite size_singleton in Hsub.
    assert (1 < size_bound)%Z by reflexivity. lia.
Defined.

(** A worker can resume a coroutine that has completed, which aborts: [Process]
    leaves its loop because the pool may close, a task is submitted before [Loop]
    tests the same condition again, and [Loop] goes round to [coro->Resume()]. *)
Lemma dist_resumes_completed :
  ∃ s w, reachable distributed_pool s ∧ wk_pc (dworkers s w) = LAbort.
Proof.
  exists (dist_after [BeginShutdown; Step 0 false; Step 0 false; Step 0 false; CallSubmit 7;
    Step 0 false; Step 0 true; Step 0 false]), 0.
  split; [|vm_compute; reflexivity]. apply dist_after_reachable. vm_compute. eauto.
Qed.

(** The counters do not count what they are named for: in a pool whose first task
    has just been moved to a worker that never suspended, the number of suspended
    workers is 2^64 - 1; a worker's first empty iteration takes its number of empty
    iterations from 0 to 2^64 - 1, past the limit of 1; and two pushes in a row
    release the binary semaphore beyond its maximum of 1. *)
Lemma dist_counters_wrap :
  (∃ s, reachable distributed_pool s ∧ suspended_workers s = (size_bound - 1)%Z) ∧
  (∃ s, reachable distributed_pool s ∧
    counter_empty_tasks (dworkers s 0) = (size_bound - 1)%Z ∧ wk_pc (dworkers s 0) = PSuspend) ∧
  (∃ s, reachable distributed_pool s ∧ smph (dworkers s 0) = 2%Z ∧ smph_high s = 2%Z).
Proof.
  split; [|split].
  - exists (dist_after ([CallSubmit 5; Route 5] ++ repeat (Step 0 false) 5)).
    split; [|vm_compute; reflexivity]. apply dist_after_reachable. vm_compute. eauto.
  - exists (dist_after (repeat (Step 0 false) 5)).
    split; [|vm_compute; auto]. apply dist_after_reachable. vm_compute. eauto.
  - exists (dist_after ([CallSubmit 5; Route 5] ++ repeat (Step 0 false) 8 ++
      [Suspended 0; Step 0 false; Step 0 false; CallSubmit 5; Route 5; PushOn 0; PushOn 0; PushOn 0])).
    split; [|vm_compute; auto]. apply dist_after_reachable. vm_compute. eauto.
Qed.
