(* ===== verification/DistShutdown.v ===== *)
(** * executor/pool/distributed_pool: the owner of the pool

    The life of a [DistributedPool] as its owner makes it: [Start], [WaitShutdown] and
    the destructor, with the threads of the workers and their thread-local
    [CurrentPool], around the steps of [DistributedPool.v].  The clients are polite:
    they submit no new task when the shutdown has begun and nothing is in flight (a task
    may still submit others, and fibers that have run be submitted again by the one who
    wakes them). *)

From stdpp Require Import prelude list gmap.
From S2P Require Import Prelude.
From S2P Require Import DistributedPool.

Inductive owner_pc :=
| ONew                          (** constructed *)
| OStart (i : nat)              (** [Start]: the loop over the workers *)
| OReady
| OShut (final : bool)          (** [WaitShutdown], by itself or in the destructor: [StartShutdown()] *)
| OWake (final : bool) (i : nat) (** [WaitShutdown]: [WakUpForShutdown()] *)
| OJoin (final : bool) (i : nat) (** [WaitShutdown]: [Join()] *)
| ODestroy (i : nat)            (** [~Worker]: [shutdown.store(true); smph.release(1)] *)
| OJoinLast (i : nat)           (** [~Worker]: [Join()] *)
| OAssert (i : nat)             (** [~Worker]: the assertion *)
| OGone
| OFailed.                      (** [assert(0 == ex->GetTasks())] failed *)

#[export] Instance owner_pc_eq : EqDecision owner_pc.
Proof. solve_decision. Defined.

Record owned := MkOwned {
  od_pool : dpool;
  od_thread : wid → bool;       (** [Worker::thread] has been created *)
  CurrentPool : wid → bool;     (** thread-local: whether it points to the pool *)
  od_owner : owner_pc
}.

Inductive owned_label :=
| CallStart
| CallWaitShutdown
| CallDestroy
| OwnerStep
| Pool (l : dist_label).

Definition set_owner (s : owned) (p : owner_pc) : owned :=
  MkOwned (od_pool s) (od_thread s) (CurrentPool s) p.

Definition set_pool (s : owned) (d : dpool) : owned :=
  MkOwned d (od_thread s) (CurrentPool s) (od_owner s).

(** [Worker::Start]: create the thread. *)
Definition Start_worker (s : owned) (w : wid) : owned :=
  MkOwned (od_pool s) (od_thread s)⟦w ↦ true⟧ (CurrentPool s) (od_owner s).

(** [Worker::Join] returns: the thread was never created, or it has ended. *)
Definition joined (s : owned) (w : wid) : bool :=
  negb (od_thread s w) || match wk_pc (dworkers (od_pool s) w) with LDone => true | _ => false end.

(** [Worker::Current()] on the thread of a worker. *)
Definition Current (s : owned) (w : wid) : bool := CurrentPool s w.

Section owner.
  Context (count_workers ntasks : nat).

(** [~Worker], for each worker in turn. *)
Definition destroy_worker_step (s : owned) : option owned :=
  let d := od_pool s in
  match od_owner s with
  | ODestroy i =>
      if decide (i < count_workers)
      then d' ← dist_step (DestroyWorker i) d; Some (set_owner (set_pool s d') (OJoinLast i))
      else Some (set_owner s OGone)
  | OJoinLast i => if joined s i then Some (set_owner s (OAssert i)) else None
  | OAssert i =>
      Some (set_owner s (if decide (0 = count_tasks d)%Z then ODestroy (S i) else OFailed))
  | _ => None
  end.

(** [Start], [WaitShutdown] and the destructor. *)
Definition owner_step (s : owned) : option owned :=
  let d := od_pool s in
  match od_owner s with
  | OStart i =>
      Some (if decide (i < count_workers) then set_owner (Start_worker s i) (OStart (S i))
        else set_owner s OReady)
  | OShut b => d' ← dist_step BeginShutdown d; Some (set_owner (set_pool s d') (OWake b 0))
  | OWake b i =>
      if decide (i < count_workers)
      then d' ← dist_step (WakeForShutdown i) d; Some (set_owner (set_pool s d') (OJoin b i))
      else Some (set_owner s (if b : bool then ODestroy 0 else OReady))
  | OJoin b i => if joined s i then Some (set_owner s (OWake b (S i))) else None
  | _ => destroy_worker_step s
  end.

(** What the others may do: clients submit tasks, but no new one when the workers may
    close; only the workers that have a thread make steps. *)
Definition allowed (l : dist_label) (s : owned) : bool :=
  match l with
  | CallSubmit k =>
      bool_decide (k < ntasks) &&
      match tk_state (dtasks (od_pool s) k) with PLANNED => negb (CanCloseWorker (od_pool s)) | _ => true end
  | Step w _ => od_thread s w
  | Route _ | Suspended _ | Finished _ | PushOn _ => true
  | BeginShutdown | WakeForShutdown _ | DestroyWorker _ => false
  end.

(** [CurrentPool = ex], at the start of an iteration of [Process]. *)
Definition run_worker (l : dist_label) (s : owned) : wid → bool :=
  match l with
  | Step w _ =>
      match wk_pc (dworkers (od_pool s) w) with PTry => (CurrentPool s)⟦w ↦ true⟧ | _ => CurrentPool s end
  | _ => CurrentPool s
  end.

Definition owned_step (l : owned_label) (s : owned) : option owned :=
  match l with
  | CallStart => match od_owner s with ONew => Some (set_owner s (OStart 0)) | _ => None end
  | CallWaitShutdown =>
      match od_owner s with ONew | OReady => Some (set_owner s (OShut false)) | _ => None end
  | CallDestroy =>
      match od_owner s with ONew | OReady => Some (set_owner s (OShut true)) | _ => None end
  | OwnerStep => owner_step s
  | Pool l =>
      if allowed l s
      then d ← dist_step l (od_pool s);
        Some (MkOwned d (od_thread s) (run_worker l s) (od_owner s))
      else None
  end.

Definition owned_pool : lts owned owned_label :=
  Lts (λ s, s = MkOwned new_dpool (λ _, false) (λ _, false) ONew) owned_step.
End owner.

(** ** Closing *)

(** Workers leave their loops only when the pool may close, and never go back. *)
Definition closes (c : bool) (p : worker_pc) : Prop :=
  match p with
  | LCheck true | LDone => c = true
  | LAcquire true | LResume true | LAbort => False
  | _ => True
  end.

Lemma worker_closes s w b s' : worker_step s w b = Some s' →
  closes (CanCloseWorker s) (wk_pc (dworkers s w)) → closes (CanCloseWorker s) (wk_pc (dworkers s' w)).
Proof.
  unfold worker_step. intros Hstep Hc.
  destruct (wk_pc (dworkers s w)) as [|k|k|k| |k|q| | | | | |[]|[]|[]| |] eqn:E; simpl in Hc; try done;
    try (destruct q); repeat case_match; simplify_eq; simpl; rewrite ?upd_eq; simpl; rewrite ?upd_eq; simpl; rewrite ?upd_eq;
    simpl; try done.
Qed.

(** The counter stays when no new task comes and none is removed. *)
Lemma counter_stays l s s' :
  dist_step l s = Some s' → (∀ w k, wk_pc (dworkers s w) ≠ PRemove k) →
  (∀ k, l = CallSubmit k → tk_state (dtasks s k) ≠ PLANNED) →
  count_tasks s' = count_tasks s ∧ (shutdown_ s = true → shutdown_ s' = true).
Proof.
  intros Hstep Hr Hp. destruct l as [k|k|w|w|w b| |w|w|i]; simpl in Hstep.
  - specialize (Hp k eq_refl). unfold Submit_count in Hstep.
    destruct (tk_state (dtasks s k)); repeat case_match; by simplify_eq.
  - unfold Submit_route in Hstep. repeat case_match; by simplify_eq.
  - repeat case_match; by simplify_eq.
  - repeat case_match; by simplify_eq.
  - unfold worker_step in Hstep. specialize (Hr w).
    destruct (wk_pc (dworkers s w)) as [|k|k|k| |k|q| | | | | |d|d|d| |] eqn:E;
      try (destruct q); repeat case_match; simplify_eq; try done. by destruct (Hr k).
  - by simplify_eq.
  - by simplify_eq.
  - by simplify_eq.
  - by destruct (push_on_fields _ _ _ Hstep) as (_ & _ & _ & -> & -> & _).
Qed.

(** So does the condition for closing. *)
Lemma close_stays l s s' :
  dist_step l s = Some s' → CanCloseWorker s = true → (∀ w k, wk_pc (dworkers s w) ≠ PRemove k) →
  (∀ k, l = CallSubmit k → tk_state (dtasks s k) ≠ PLANNED) → CanCloseWorker s' = true.
Proof.
  intros Hstep Hc Hr Hp. destruct (counter_stays l s s' Hstep Hr Hp) as [Ec Es].
  unfold CanCloseWorker in *. apply andb_prop in Hc as [Hs Hz]. by rewrite Ec, Es, Hz.
Qed.

Lemma label_closes l s s' : dist_step l s = Some s' → ∀ u,
  closes (CanCloseWorker s) (wk_pc (dworkers s u)) → closes (CanCloseWorker s) (wk_pc (dworkers s' u)).
Proof.
  intros Hstep u Hu. destruct l as [k|k|w|w|w b| |w|w|i]; simpl in Hstep.
  - unfold Submit_count in Hstep. repeat case_match; by simplify_eq.
  - unfold Submit_route in Hstep. repeat case_match; simplify_eq; [|done].
    unfold set_place, set_dtask, set_pushing. cbn [dworkers]. by rewrite Push_pc.
  - repeat case_match; simplify_eq; simpl; by upd_cases.
  - repeat case_match; simplify_eq; simpl; by upd_cases.
  - destruct (decide (u = w)) as [->|Hne]; [by eapply worker_closes|].
    by rewrite (worker_others s w b s' u Hstep Hne).
  - by simplify_eq.
  - simplify_eq. simpl. by upd_cases.
  - simplify_eq. simpl. by upd_cases.
  - destruct (push_on_fields _ _ _ Hstep) as (_ & _ & _ & _ & _ & _ & Ep). by rewrite Ep.
Qed.

(** A worker that has left stays so. *)
Lemma done_stays l s s' u : dist_step l s = Some s' → wk_pc (dworkers s u) = LDone →
  wk_pc (dworkers s' u) = LDone.
Proof.
  intros Hstep Hu. destruct l as [k|k|w|w|w b| |w|w|i]; simpl in Hstep.
  - unfold Submit_count in Hstep. repeat case_match; by simplify_eq.
  - unfold Submit_route in Hstep. repeat case_match; simplify_eq; [|done].
    unfold set_place, set_dtask, set_pushing. cbn [dworkers]. by rewrite Push_pc.
  - repeat case_match; simplify_eq; simpl; upd_cases; simpl; congruence.
  - repeat case_match; simplify_eq; simpl; upd_cases; simpl; congruence.
  - destruct (decide (u = w)) as [->|Hne]; [|by rewrite (worker_others s w b s' u Hstep Hne)].
    unfold worker_step in Hstep. by rewrite Hu in Hstep.
  - by simplify_eq.
  - simplify_eq. simpl. by upd_cases.
  - simplify_eq. simpl. by upd_cases.
  - destruct (push_on_fields _ _ _ Hstep) as (_ & _ & _ & _ & _ & _ & Ep). by rewrite Ep.
Qed.

(** ** The owner's invariant *)

Section shutdown.
  Context (count_workers ntasks : nat) (Hsize : (Z.of_nat ntasks < size_bound)%Z).
  Implicit Types (s : owned) (d : dpool).

Definition all_or_none s : Prop :=
  (∀ w, w < count_workers → od_thread s w = true) ∨ (∀ w, od_thread s w = false).

Definition joined_below s (i : nat) : Prop := ∀ w, w < i → w < count_workers → joined s w = true.

Definition owner_ok s (p : owner_pc) : Prop :=
  match p with
  | ONew => ∀ w, od_thread s w = false
  | OStart i => ∀ w, od_thread s w = bool_decide (w < i)
  | OReady | OShut _ => all_or_none s
  | OWake _ i => all_or_none s ∧ joined_below s i
  | OJoin _ i => all_or_none s ∧ joined_below s i ∧ i < count_workers
  | ODestroy _ | OGone => all_or_none s ∧ joined_below s count_workers
  | OJoinLast i | OAssert i => all_or_none s ∧ joined_below s count_workers ∧ i < count_workers
  | OFailed => ∀ w, od_thread s w = false
  end.

Record owned_ok s : Prop := OwnedOk {
  ow_base : reachable distributed_pool (od_pool s);
  ow_tasks : ∀ k, tk_state (dtasks (od_pool s) k) ≠ PLANNED → k < ntasks;
  ow_closes : ∀ w, closes (CanCloseWorker (od_pool s)) (wk_pc (dworkers (od_pool s) w));
  ow_current : ∀ w, CurrentPool s w = true ∨ wk_pc (dworkers (od_pool s) w) = PTry;
  ow_owner : owner_ok s (od_owner s)
}.

(** When the counter is zero, nothing is counted. *)
Lemma owned_idle s : owned_ok s → count_tasks (od_pool s) = 0%Z → dist_count (od_pool s) ∅.
Proof using Hsize.
  intros Hok Hz. apply zero_idle; [apply Hok|done|]. intros X HX.
  assert (X ⊆ set_seq 0 ntasks) as Hs.
  { intros k Hk. apply elem_of_set_seq. split; [lia|]. by apply (ow_tasks _ Hok), HX. }
  apply subseteq_size in Hs. rewrite size_set_seq in Hs. lia.
Qed.

(** A step of the pool that no new task comes with. *)
Lemma pool_moves s l d' :
  owned_ok s → dist_step l (od_pool s) = Some d' →
  (∀ k, l = CallSubmit k → k < ntasks ∧
    (tk_state (dtasks (od_pool s) k) = PLANNED → CanCloseWorker (od_pool s) = false)) →
  reachable distributed_pool d' ∧ (∀ k, tk_state (dtasks d' k) ≠ PLANNED → k < ntasks) ∧
  (∀ w, closes (CanCloseWorker d') (wk_pc (dworkers d' w))) ∧
  (∀ w, joined s w = true → joined (set_pool s d') w = true).
Proof using Hsize.
  intros Hok Hstep Hl. split; [by eapply reachable_step; [apply Hok|]|]. split; [|split].
  - intros k Hk. destruct (tk_state (dtasks (od_pool s) k)) eqn:Es;
      try (by apply (ow_tasks _ Hok); rewrite Es).
    destruct (planned_stays l _ _ k Hstep Es) as [?| ->]; [done|]. by apply Hl.
  - intros w. pose proof (label_closes l _ _ Hstep w (ow_closes _ Hok w)) as Hc.
    destruct (CanCloseWorker (od_pool s)) eqn:Ec.
    + rewrite (close_stays l _ _ Hstep Ec); [done|..].
      * intros u k Hu. destruct (dc_remove _ _ (owned_idle s Hok (close_zero _ Ec)) u k Hu) as [Hk _]. set_solver.
      * intros k -> Hp. destruct (Hl k eq_refl) as [_ Hs]. specialize (Hs Hp).
        congruence.
    + destruct (wk_pc (dworkers d' w)) as [| | | | | | | | | | | |[]| | | |]; done.
  - intros w. unfold joined. simpl. rewrite !orb_true_iff. intros [?|Hw]; [by left|right].
    destruct (wk_pc (dworkers (od_pool s) w)) eqn:Ew; try done. by rewrite (done_stays l _ _ w Hstep Ew).
Qed.

(** The owner's knowledge is about threads and about workers that have left. *)
Lemma owner_keeps s s' p :
  od_thread s' = od_thread s → (∀ w, joined s w = true → joined s' w = true) →
  owner_ok s p → owner_ok s' p.
Proof.
  intros Et Hj. unfold owner_ok, all_or_none, joined_below. destruct p; rewrite Et; naive_solver.
Qed.

(** Only [CurrentPool] and the positions of the workers are left. *)
Lemma current_moves s l d' :
  (∀ w, CurrentPool s w = true ∨ wk_pc (dworkers (od_pool s) w) = PTry) →
  dist_step l (od_pool s) = Some d' →
  ∀ w, run_worker l s w = true ∨ wk_pc (dworkers d' w) = PTry.
Proof.
  intros Hc Hstep u. destruct l as [k|k|w|w|w b| |w|w|i]; simpl in Hstep.
  - unfold Submit_count in Hstep. repeat case_match; by simplify_eq.
  - unfold Submit_route in Hstep. repeat case_match; simplify_eq; [|apply Hc].
    unfold set_place, set_dtask, set_pushing. cbn [dworkers]. rewrite Push_pc. apply Hc.
  - repeat case_match; simplify_eq; simpl; upd_cases; [|apply Hc].
    left. destruct (Hc u); [done|congruence].
  - repeat case_match; simplify_eq; simpl; upd_cases; [|apply Hc].
    left. destruct (Hc u); [done|congruence].
  - simpl. destruct (decide (u = w)) as [->|Hne].
    + left. destruct (Hc w) as [E|E]; [case_match; rewrite ?E; [by rewrite upd_eq|done..]|].
      by rewrite E, upd_eq.
    + rewrite (worker_others _ w b d' u Hstep Hne). case_match; rewrite ?upd_ne by done; apply Hc.
  - simplify_eq. apply Hc.
  - simplify_eq. rewrite release_pc. apply Hc.
  - simplify_eq. simpl. upd_cases; [|apply Hc]. simpl. apply Hc.
  - destruct (push_on_fields _ _ _ Hstep) as (_ & _ & _ & _ & _ & _ & Ep). rewrite Ep. apply Hc.
Qed.

Lemma owned_set_owner s p : owned_ok s → owner_ok s p → owned_ok (set_owner s p).
Proof. by intros [H1 H2 H3 H4 H5] Hp. Qed.

(** The owner acts on the pool, and moves. *)
Lemma owned_acts s l d' p :
  owned_ok s → dist_step l (od_pool s) = Some d' → (∀ k, l ≠ CallSubmit k) → (∀ w b, l ≠ Step w b) →
  owner_ok s p → owned_ok (set_owner (set_pool s d') p).
Proof using Hsize.
  intros Hok Hstep Hl Hw Hp. destruct (pool_moves s l d' Hok Hstep) as (H1 & H2 & H3 & H4).
  { intros k ->. by destruct (Hl k). }
  split; try done.
  - intros w. pose proof (current_moves s l d' (ow_current _ Hok) Hstep w) as Hc.
    destruct l; try done. by destruct (Hw w0 timeout).
  - by apply (owner_keeps s).
Qed.

Lemma joined_next s i : joined_below s i → joined s i = true → joined_below s (S i).
Proof. intros Hb Hi w Hw Hn. destruct (decide (w = i)) as [->|Hne]; [done|apply Hb; lia]. Qed.

(** The assertion of [~Worker] holds once a worker has run. *)
Lemma owned_assert s i : owned_ok s → joined_below s count_workers → i < count_workers →
  all_or_none s → (0 ≠ count_tasks (od_pool s))%Z → ∀ w, od_thread s w = false.
Proof using Hsize.
  intros Hok Hj Hi Ha Hz. destruct Ha as [Ha|Ha]; [exfalso|done].
  specialize (Hj i Hi Hi). unfold joined in Hj. rewrite Ha in Hj by done. simpl in Hj.
  pose proof (ow_closes _ Hok i) as Hc. destruct (wk_pc (dworkers (od_pool s) i)); try done.
  simpl in Hc. pose proof (dc_count _ _ (owned_idle s Hok (close_zero _ Hc))) as Hn. rewrite size_empty in Hn. by destruct Hz.
Qed.

Lemma owner_step_ok s s' : owned_ok s → owner_step count_workers s = Some s' → owned_ok s'.
Proof using Hsize.
  intros Hok Hstep. pose proof (ow_owner _ Hok) as Ho. unfold owner_step, destroy_worker_step in Hstep.
  destruct (od_owner s) as [|i| |b|b i|b i|i|i|i| |] eqn:Eo; try done; simpl in Ho.
  - case_decide; simplify_eq.
    + destruct Hok as [H1 H2 H3 H4 _]. split; try done. simpl. intros w. upd_cases.
      * by rewrite bool_decide_true by lia.
      * rewrite Ho. apply bool_decide_ext. lia.
    + apply owned_set_owner; [done|]. left. intros w Hw. rewrite Ho. apply bool_decide_true. lia.
  - destruct (dist_step _ _) as [d'|] eqn:E; simplify_eq/=.
    apply (owned_acts s BeginShutdown); try done. split; [done|]. intros w Hw. lia.
  - destruct Ho as [Ha Hj]. case_decide as Hi.
    + destruct (dist_step _ _) as [d'|] eqn:E; simplify_eq/=. by apply (owned_acts s (WakeForShutdown i)).
    + simplify_eq. apply owned_set_owner; [done|]. destruct b; [|done].
      split; [done|]. intros w Hw Hn. apply Hj; lia.
  - destruct Ho as (Ha & Hj & Hi). destruct (joined s i) eqn:E; simplify_eq.
    apply owned_set_owner; [done|]. split; [done|]. by apply joined_next.
  - destruct Ho as [Ha Hj]. case_decide as Hi; [|simplify_eq; by apply owned_set_owner].
    destruct (dist_step _ _) as [d'|] eqn:E; simplify_eq/=. by apply (owned_acts s (DestroyWorker i)).
  - destruct (joined s i) eqn:E; simplify_eq. by apply owned_set_owner.
  - simplify_eq. apply owned_set_owner; [done|]. destruct Ho as (Ha & Hj & Hi).
    case_decide; [done|]. intros w. by eapply owned_assert.
Qed.

Lemma owned_invariant : invariant (owned_pool count_workers ntasks) owned_ok.
Proof using Hsize.
  apply invariant_intro.
  - intros s ->. split; simpl; try done; [by apply reachable_init|auto].
  - intros l s s' Hok Hstep. destruct l as [| | | |l]; simpl in Hstep.
    1-3: pose proof (ow_owner _ Hok) as Ho; destruct (od_owner s); simplify_eq;
      (apply owned_set_owner; [exact Hok|]); simpl in *; try done; by right.
    + by apply owner_step_ok in Hstep.
    + destruct (allowed ntasks l s) eqn:Ea; [|done].
      destruct (dist_step l (od_pool s)) as [d'|] eqn:E; simplify_eq/=.
      destruct (pool_moves s l d' Hok E) as (H1 & H2 & H3 & H4).
      { intros k ->. simpl in Ea. apply andb_prop in Ea as [Hk Ha]. apply bool_decide_eq_true in Hk.
        split; [done|]. intros Hp. rewrite Hp in Ha. by destruct (CanCloseWorker (od_pool s)). }
      split; try done; simpl.
      * apply (current_moves s l d' (ow_current _ Hok) E).
      * apply (owner_keeps s); [done|exact H4|apply Hok].
Qed.

(** C31: the pool ends well when no new task is submitted while its workers may close: no
    worker resumes a completed coroutine; the assertion of [~Worker] fails only if the
    pool was never started; when the destructor has returned, every worker has left its
    loop and, if there was one, every task ever submitted has completed; and inside
    every task [Current()] is the pool. *)
Theorem dist_shutdown_clean s :
  reachable (owned_pool count_workers ntasks) s →
  (∀ w, wk_pc (dworkers (od_pool s) w) ≠ LAbort) ∧
  (od_owner s = OFailed → ∀ w, od_thread s w = false) ∧
  (od_owner s = OGone → ∀ w, w < count_workers → od_thread s w = true →
    wk_pc (dworkers (od_pool s) w) = LDone ∧ ∀ k, ¬ in_flight (od_pool s) k) ∧
  (∀ w k, running_on (wk_pc (dworkers (od_pool s) w)) = Some k → Current s w = true).
Proof using Hsize.
  intros Hr. pose proof (owned_invariant s Hr) as Hok. pose proof (ow_owner _ Hok) as Ho.
  split; [|split; [|split]].
  - intros w E. pose proof (ow_closes _ Hok w) as Hc. by rewrite E in Hc.
  - intros E. by rewrite E in Ho.
  - intros Eo w Hw Et. rewrite Eo in Ho. destruct Ho as [_ Hj].
    specialize (Hj w Hw Hw). unfold joined in Hj. rewrite Et in Hj. pose proof (ow_closes _ Hok w) as Hc.
    destruct (wk_pc (dworkers (od_pool s) w)); try done. split; [done|].
    intros k. by apply counted_none_in_flight, owned_idle, close_zero.
  - intros w k E. destruct (ow_current _ Hok w) as [?|Hp]; [done|]. by rewrite Hp in E.
Qed.
End shutdown.

(** A pool of two workers runs one task, is stopped and destroyed. *)
Definition owned_schedule : list owned_label :=
  [CallStart] ++ repeat OwnerStep 3 ++ (Pool <$> sticky_schedule) ++ [Pool (Finished 1); Pool (Step 1 false)] ++
  [CallDestroy] ++ repeat OwnerStep 2 ++ (Pool <$> repeat (Step 0 true) 4) ++
  (Pool <$> repeat (Step 1 true) 5) ++ repeat OwnerStep 11.

Definition owned_start : owned := MkOwned new_dpool (λ _, false) (λ _, false) ONew.

Definition owned_after (tr : list owned_label) : owned :=
  default owned_start (run (owned_pool 2 8) tr owned_start).

Lemma dist_shutdown_clean_witness :
  od_owner (owned_after owned_schedule) = OGone ∧
  (∀ w, wk_pc (dworkers (od_pool (owned_after owned_schedule)) w) ≠ LAbort) ∧
  (od_owner (owned_after owned_schedule) = OFailed → ∀ w, od_thread (owned_after owned_schedule) w = false) ∧
  (od_owner (owned_after owned_schedule) = OGone → ∀ w, w < 2 → od_thread (owned_after owned_schedule) w = true →
    wk_pc (dworkers (od_pool (owned_after owned_schedule)) w) = LDone ∧
    ∀ k, ¬ in_flight (od_pool (owned_after owned_schedule)) k) ∧
  (∀ w k, running_on (wk_pc (dworkers (od_pool (owned_after owned_schedule)) w)) = Some k →
    Current (owned_after owned_schedule) w = true).
Proof.
  split; [vm_compute; reflexivity|]. apply (dist_shutdown_clean 2 8 eq_refl (owned_after owned_schedule)).
  apply (run_reachable (owned_pool 2 8)); [done|]. apply is_Some_alt. vm_compute. exact I.
Defined.
