(* ===== verification/WaitIdle.v ===== *)
(** * executor/executor.h: [WaitIdle] of the distributed pool

    The clients that wait in [Shutdowner::WaitIdle], around the pool and its owner of
    DistShutdown.v.  A worker notifies them at the end of each iteration of
    [Worker::Process].  As in IntrusivePool.v, neither [RemoveTask] nor [NotifyAll] takes
    the mutex, which only excludes the clients from each other: reading the counter,
    starting to wait and being notified are separate steps. *)

From stdpp Require Import prelude list gmap.
From S2P Require Import Prelude.
From S2P Require Import DistributedPool.
From S2P Require Import DistShutdown.

Inductive idle_pc :=
| IOut
| ITest      (** the condition of the loop *)
| IBlock     (** the condition was true, [wait] not yet reached *)
| IBlocked.  (** waiting for a notification *)

#[export] Instance idle_pc_eq : EqDecision idle_pc.
Proof. solve_decision. Defined.

(** [empty_tasks_.notify_all()] *)
Definition notified (p : idle_pc) : idle_pc := match p with IBlocked => ITest | _ => p end.

(** The next step of [WaitIdle]. *)
Definition WaitIdle_step (d : dpool) (p : idle_pc) : option idle_pc :=
  match p with
  | ITest => Some (if decide (0 = count_tasks d)%Z then IOut else IBlock)
  | IBlock => Some IBlocked
  | IOut | IBlocked => None
  end.

(** A worker is at [NotifyAll()]. *)
Definition notifies (l : dist_label) (d : dpool) : bool :=
  match l with Step w _ => match wk_pc (dworkers d w) with PNotify => true | _ => false end | _ => false end.

Record idling := MkIdling {
  il_owned : owned;
  il_clients : list idle_pc
}.

Abbreviation il_pool s := (od_pool (il_owned s)).

Inductive idle_label :=
| CallWaitIdle (c : nat)
| ClientStep (c : nat)
| SpuriousWake (c : nat)
| Owned (l : owned_label).

Definition set_client (s : idling) (c : nat) (p : idle_pc) : idling :=
  MkIdling (il_owned s) (<[c := p]> (il_clients s)).

Section idle.
  Context (count_workers ntasks : nat).

(** The owner destroys the pool when nobody waits any more. *)
Definition idle_step (l : idle_label) (s : idling) : option idling :=
  match l with
  | CallWaitIdle c =>
      match il_clients s !! c, od_owner (il_owned s) with
      | Some IOut, (ONew | OReady) => Some (set_client s c ITest)
      | _, _ => None
      end
  | ClientStep c => p ← il_clients s !! c; q ← WaitIdle_step (il_pool s) p; Some (set_client s c q)
  | SpuriousWake c =>
      match il_clients s !! c with Some IBlocked => Some (set_client s c ITest) | _ => None end
  | Owned l =>
      if match l with CallDestroy => bool_decide (Forall (λ p, p = IOut) (il_clients s)) | _ => true end
      then
        o ← owned_step count_workers ntasks l (il_owned s);
        Some (MkIdling o (match l with
          | Pool d => if notifies d (il_pool s) then notified <$> il_clients s else il_clients s
          | _ => il_clients s
          end))
      else None
  end.

Definition idle_pool (nclients : nat) : lts idling idle_label :=
  Lts (λ s, s = MkIdling (MkOwned new_dpool (λ _, false) (λ _, false) ONew) (replicate nclients IOut)) idle_step.
End idle.

(** What the owner does to the pool. *)
Definition by_owner (d : dist_label) : bool :=
  match d with BeginShutdown | WakeForShutdown _ | DestroyWorker _ => true | _ => false end.

(** ** A pool with nothing to do *)

(** The number of its own steps in which an idle worker has notified. *)
Definition to_notify (p : worker_pc) : nat :=
  match p with
  | PNotify => 1
  | PTail _ | LResume _ | PPushed PRelease => 2
  | LAcquire _ | PPushed PWake => 3
  | LCheck _ | PPushed PStore => 4
  | PSuspend => 5 | PLoad => 6 | PSub => 7 | PClose => 8 | PGlobal => 9 | PTry => 10
  | _ => 1
  end.

Lemma to_notify_range p : 1 ≤ to_notify p ≤ 10.
Proof. destruct p as [| | | | | |[]| | | | | | | | | |]; simpl; lia. Qed.

(** No task is in a worker's hands or in a queue. *)
Record at_rest (d : dpool) : Prop := AtRest {
  ar_global : global_tasks d = [];
  ar_local : ∀ w, local_tasks (dworkers d w) = [];
  ar_workers : ∀ w, match wk_pc (dworkers d w) with PRun _ | PPush _ | PRemove _ => False | _ => True end
}.

Lemma placed_at_rest d : dist_inv d → (∀ w k, wk_pc (dworkers d w) ≠ PRemove k) →
  (∀ k, tk_place (dtasks d k) = Outside ∨ tk_place (dtasks d k) = Submitting ∨ tk_place (dtasks d k) = Completed) →
  at_rest d.
Proof.
  intros Hi Hr Hp. split.
  - destruct (global_tasks d) as [|k ks] eqn:E; [done|].
    pose proof (di_global _ Hi k ltac:(rewrite E; by left)). destruct (Hp k) as [|[|]]; congruence.
  - intros w. destruct (local_tasks (dworkers d w)) as [|k ks] eqn:E; [done|].
    pose proof (di_local _ Hi w k ltac:(rewrite E; by left)). destruct (Hp k) as [|[|]]; congruence.
  - intros w. destruct (wk_pc (dworkers d w)) as [|k|k|k| |k|q| | | | | |b|b|b| |] eqn:E; try done.
    + pose proof (di_run _ Hi w k E). destruct (Hp k) as [|[|]]; congruence.
    + by destruct (Hr w k).
    + pose proof (di_push _ Hi w k E). destruct (Hp k) as [|[|]]; congruence.
Qed.

Lemma idle_at_rest d : dist_inv d → dist_count d ∅ → at_rest d.
Proof.
  intros Hi Hc. apply placed_at_rest; [done| |].
  - intros w k E. destruct (dc_remove _ _ Hc w k E). set_solver.
  - intros k. destruct (decide (tk_place (dtasks d k) = Completed)); [auto|left].
    destruct (decide (tk_state (dtasks d k) = PLANNED)) as [E|E]; [by apply (dc_fresh _ _ Hc)|].
    pose proof (dc_live _ _ Hc k E n). set_solver.
Qed.

(** An idle worker comes closer to its notification. *)
Lemma rest_step d w b d' : at_rest d → worker_step d w b = Some d' →
  wk_pc (dworkers d w) = PNotify ∨
  to_notify (wk_pc (dworkers d' w)) < to_notify (wk_pc (dworkers d w)).
Proof.
  intros [Hg Hl Hw] Hstep. specialize (Hl w). specialize (Hw w). unfold worker_step in Hstep.
  rewrite Hl, Hg in Hstep.
  destruct (wk_pc (dworkers d w)) as [|k|k|k| |k|q| | | | | |e|e|e| |] eqn:E; try done; try (by left); right;
    try (destruct q; cbn [next_access] in Hstep); repeat case_match; simplify_eq; simpl; rewrite ?upd_eq; simpl; rewrite ?upd_eq; simpl;
    repeat case_match; lia.
Qed.

(** And can always do so, but for waiting out its time. *)
Lemma rest_can_step d w : at_rest d → wk_pc (dworkers d w) ≠ LDone → wk_pc (dworkers d w) ≠ LAbort →
  is_Some (worker_step d w true).
Proof.
  intros [Hg Hl Hw] H1 H2. specialize (Hl w). specialize (Hw w). unfold worker_step.
  rewrite Hl, Hg. destruct (wk_pc (dworkers d w)); try done; repeat case_match; by eexists.
Qed.

(** Nothing is removed from the counter, and only a new task is added to it. *)
Lemma rest_count l d d' : dist_count d ∅ → dist_step l d = Some d' →
  (∀ k, l ≠ CallSubmit k) → count_tasks d' = count_tasks d.
Proof.
  intros Hc Hstep Hl. apply (counter_stays l d d' Hstep); [|by intros k ->; destruct (Hl k)].
  intros w k E. destruct (dc_remove _ _ Hc w k E). set_solver.
Qed.

(** ** The clients *)

Section wait_idle.
  Context (count_workers ntasks nclients : nat) (Hsize : (Z.of_nat ntasks < size_bound)%Z).
  Implicit Types (s : idling).

Notation system := (idle_pool count_workers ntasks nclients).

Lemma idle_owned : invariant system (λ s, owned_ok count_workers ntasks (il_owned s)).
Proof using Hsize.
  assert (invariant system (λ s, reachable (owned_pool count_workers ntasks) (il_owned s))) as Hr.
  { apply invariant_intro; [intros s ->; by apply reachable_init|]. intros [c|c|c|l] s s' Hs Hstep; simpl in Hstep.
    - repeat case_match; by simplify_eq.
    - apply bind_Some in Hstep as (p & _ & Hstep). by apply bind_Some in Hstep as (q & _ & [= <-]).
    - repeat case_match; by simplify_eq.
    - destruct (match l with CallDestroy => _ | _ => _ end); [|done].
      apply bind_Some in Hstep as (o & Eo & [= <-]). by apply (reachable_step _ l (il_owned s)). }
  intros s Hs. by apply owned_invariant, Hr.
Qed.

Lemma rest_of s : reachable system s → count_tasks (il_pool s) = 0%Z →
  dist_count (il_pool s) ∅ ∧ at_rest (il_pool s).
Proof using Hsize.
  intros Hr Hz. pose proof (idle_owned s Hr) as Hok. pose proof (owned_idle _ _ Hsize _ Hok Hz) as Hc.
  split; [done|]. apply idle_at_rest; [|done]. apply dist_invariant, Hok.
Qed.

(** What the owner, the workers and the clients of the pool do to it. *)
Lemma owned_moves l (o o' : owned) : owned_step count_workers ntasks l o = Some o' →
  match l with
  | Pool d => dist_step d (od_pool o) = Some (od_pool o')
  | _ => od_pool o' = od_pool o ∨ ∃ d, dist_step d (od_pool o) = Some (od_pool o') ∧ by_owner d = true
  end.
Proof.
  intros Hstep. destruct l as [| | | |d]; simpl in Hstep;
    [by destruct (od_owner o); simplify_eq; left..| |].
  - unfold owner_step, destroy_worker_step in Hstep.
    destruct (od_owner o); try done; repeat case_match; simplify_eq; try (by left);
      apply bind_Some in Hstep as (d' & E & [= <-]); right; by eexists.
  - destruct (allowed ntasks d o); [|done]. by apply bind_Some in Hstep as (d' & E & [= <-]).
Qed.

(** Submits no task; a step of [w]. *)
Definition quiet (l : idle_label) : bool :=
  match l with Owned (Pool (CallSubmit _)) => false | _ => true end.

Definition steps_of (w : wid) (l : idle_label) : nat :=
  match l with Owned (Pool (Step u _)) => if decide (u = w) then 1 else 0 | _ => 0 end.

Lemma quiet_zero l s s' : reachable system s → count_tasks (il_pool s) = 0%Z → quiet l = true →
  idle_step count_workers ntasks l s = Some s' → count_tasks (il_pool s') = 0%Z.
Proof using Hsize.
  intros Hr Hz Hq Hstep. destruct (rest_of s Hr Hz) as [Hc _].
  destruct l as [c|c|c|l]; simpl in Hstep.
  - repeat case_match; by simplify_eq.
  - apply bind_Some in Hstep as (p & _ & Hstep). by apply bind_Some in Hstep as (q & _ & [= <-]).
  - repeat case_match; by simplify_eq.
  - destruct (match l with CallDestroy => _ | _ => _ end); [|done].
    apply bind_Some in Hstep as (o & Eo & [= <-]).
    pose proof (owned_moves l _ _ Eo) as Hm. simpl.
    assert (∀ d, dist_step d (il_pool s) = Some (od_pool o) → (∀ k, d ≠ CallSubmit k) →
      count_tasks (od_pool o) = 0%Z) as Hd by (intros d E Hd; by rewrite (rest_count d _ _ Hc E Hd)).
    destruct l as [| | | |d]; [destruct Hm as [E|(d & E & Hb)]; [congruence|by apply (Hd d); [|by intros k ->]]..|].
    apply (Hd d); [done|]. by intros k ->.
Qed.

(** [c] is not about to sleep. *)
Definition awake (c : nat) s : Prop := ∃ p, il_clients s !! c = Some p ∧ (p = IOut ∨ p = ITest).

Lemma notified_lookup (cs : list idle_pc) (b : bool) c : (if b then notified <$> cs else cs) !! c =
  (if b then notified else id) <$> (cs !! c).
Proof. destruct b; [apply list_lookup_fmap|]. by destruct (cs !! c). Qed.

Lemma awake_stays c l s s' : count_tasks (il_pool s) = 0%Z → awake c s →
  idle_step count_workers ntasks l s = Some s' → awake c s'.
Proof.
  intros Hz (p & Ep & Hp) Hstep. unfold awake.
  destruct l as [c'|c'|c'|l]; simpl in Hstep.
  - destruct (il_clients s !! c') as [[]|] eqn:E; try done. destruct (od_owner (il_owned s)); simplify_eq; simpl;
      rewrite (lookup_updated _ _ _ _ ITest E); case_decide; eauto.
  - apply bind_Some in Hstep as (p' & E' & Hstep). apply bind_Some in Hstep as (q & Eq & [= <-]). simpl.
    rewrite (lookup_updated _ _ _ _ q E'). case_decide; [|eauto]. subst. eexists. split; [done|].
    assert (p' = p) as -> by congruence. destruct Hp as [-> | ->]; simplify_eq/=. rewrite decide_True by done. by left.
  - destruct (il_clients s !! c') as [[]|] eqn:E; simplify_eq; simpl.
    rewrite (lookup_updated _ _ _ _ ITest E); case_decide; eauto.
  - destruct (match l with CallDestroy => _ | _ => _ end); [|done].
    apply bind_Some in Hstep as (o & Eo & [= <-]). simpl. destruct l as [| | | |d]; [eauto..|].
    rewrite notified_lookup, Ep. simpl. eexists. split; [done|].
    destruct (notifies d (il_pool s)), Hp as [-> | ->]; simpl; auto.
Qed.

(** A worker's step, whoever's it is. *)
Lemma owned_approach w l (o o' : owned) : at_rest (od_pool o) → owned_step count_workers ntasks l o = Some o' →
  (∃ b, l = Pool (Step w b) ∧ wk_pc (dworkers (od_pool o) w) = PNotify) ∨
  to_notify (wk_pc (dworkers (od_pool o') w)) + steps_of w (Owned l) ≤ to_notify (wk_pc (dworkers (od_pool o) w)).
Proof.
  intros Hrest Hstep. apply owned_moves in Hstep.
  assert (∀ d, dist_step d (od_pool o) = Some (od_pool o') → mover d ≠ Some w →
    wk_pc (dworkers (od_pool o') w) = wk_pc (dworkers (od_pool o) w)) as Ho by (intros; by eapply other_workers).
  destruct l as [| | | |d];
    [right; destruct Hstep as [E|(d & E & Hb)]; [rewrite E|rewrite (Ho d E) by (by destruct d)]; simpl; lia..|].
  destruct (decide (mover d = Some w)) as [Hm|Hm].
  - pose proof (ar_workers _ Hrest w) as Hw.
    destruct d as [k|k|u|u|u b| |u|u|i]; simplify_eq/=; try (by destruct (wk_pc (dworkers (od_pool o) w))).
    rewrite decide_True by done. destruct (rest_step _ w b _ Hrest Hstep); [left; by exists b|right; lia].
  - right. rewrite (Ho d Hstep Hm). destruct d as [k|k|u|u|u b| |u|u|i]; simpl; try lia.
    simpl in Hm. case_decide; [congruence|lia].
Qed.

Lemma sleeper_notified c w l s s' : reachable system s → count_tasks (il_pool s) = 0%Z →
  il_clients s !! c = Some IBlocked → idle_step count_workers ntasks l s = Some s' →
  awake c s' ∨ il_clients s' !! c = Some IBlocked ∧
    to_notify (wk_pc (dworkers (il_pool s') w)) + steps_of w l ≤ to_notify (wk_pc (dworkers (il_pool s) w)).
Proof using Hsize.
  intros Hr Hz Hb Hstep. destruct (rest_of s Hr Hz) as [_ Hrest].
  destruct l as [c'|c'|c'|l]; simpl in Hstep.
  - right. repeat case_match; simplify_eq; simpl; rewrite list_lookup_insert_ne by (intros ->; congruence);
      (split; [done|lia]).
  - right. apply bind_Some in Hstep as (p' & E' & Hstep). apply bind_Some in Hstep as (q & Eq & [= <-]). simpl.
    rewrite list_lookup_insert_ne by (intros ->; rewrite Hb in E'; by simplify_eq). split; [done|lia].
  - destruct (il_clients s !! c') as [[]|] eqn:E; simplify_eq. unfold awake. simpl.
    rewrite (lookup_updated _ _ _ _ ITest E). case_decide; [left; eauto|right; split; [done|lia]].
  - destruct (match l with CallDestroy => _ | _ => _ end); [|done].
    apply bind_Some in Hstep as (o & Eo & [= <-]). unfold awake. cbn [il_clients il_owned].
    pose proof (owned_approach w l _ _ Hrest Eo) as Hw.
    destruct l as [| | | |d]; [destruct Hw as [(b & ? & _)|Hw]; [done|by right]..|].
    rewrite notified_lookup, Hb. destruct (notifies d (il_pool s)) eqn:En; [left; simpl; eauto|right].
    split; [done|]. destruct Hw as [(b & [= ->] & Ep)|Hw]; [simpl in En; by rewrite Ep in En|done].
Qed.

(** While no task is submitted. *)
Lemma quiet_run tr s s' : reachable system s → count_tasks (il_pool s) = 0%Z → Forall (λ l, quiet l = true) tr →
  run system tr s = Some s' → count_tasks (il_pool s') = 0%Z ∧ ∀ c, awake c s → awake c s'.
Proof using Hsize.
  intros Hr Hz Hq. revert s Hr Hz. induction Hq as [|l tr Hl Hq IH]; intros s Hr Hz Hrun.
  { simpl in Hrun. by simplify_eq. }
  apply bind_Some in Hrun as (s1 & Es & Hrun). destruct (IH s1) as [H1 H2].
  - by apply (reachable_step system l s).
  - by eapply quiet_zero.
  - done.
  - split; [done|]. intros c Ha. by apply H2, (awake_stays c l s).
Qed.

Lemma sleeper_returns c w tr s s' : reachable system s → count_tasks (il_pool s) = 0%Z → Forall (λ l, quiet l = true) tr →
  il_clients s !! c = Some IBlocked → to_notify (wk_pc (dworkers (il_pool s) w)) ≤ sum_list_with (steps_of w) tr →
  run system tr s = Some s' → awake c s'.
Proof using Hsize.
  intros Hr Hz Hq. revert s Hr Hz. induction Hq as [|l tr Hl Hq IH]; intros s Hr Hz Hb Hn Hrun.
  { simpl in Hn. pose proof (to_notify_range (wk_pc (dworkers (il_pool s) w))). lia. }
  apply bind_Some in Hrun as (s1 & Es & Hrun). pose proof (reachable_step system l s s1 Hr Es) as Hr1.
  pose proof (quiet_zero l s s1 Hr Hz Hl Es) as Hz1.
  destruct (sleeper_notified c w l s s1 Hr Hz Hb Es) as [Ha|[Hb1 Hw]].
  - by destruct (quiet_run tr s1 s' Hr1 Hz1 Hq Hrun) as [_ Haw]; apply Haw.
  - apply (IH s1); try done. simpl in Hn. lia.
Qed.

(** C32: [WaitIdle] of the distributed pool, whatever the order of the steps (fewer than
    2^64 tasks).  When it returns, nothing is in flight: every task submitted has
    completed.  A notification can come before the client waits for it, but another one
    follows: when the counter is zero and no task is submitted, a client that waits, or
    that reads the counter, is not waiting any more once any one worker has made ten of
    its own steps, and its next step is to return; and a worker can always make its next
    step, unless it has left its loop. *)
Theorem dist_wait_idle s c p :
  reachable system s → il_clients s !! c = Some p → p ≠ IOut →
  (WaitIdle_step (il_pool s) p = Some IOut → ∀ k, ¬ in_flight (il_pool s) k) ∧
  (count_tasks (il_pool s) = 0%Z → p ≠ IBlock →
    (∀ w tr s', Forall (λ l, quiet l = true) tr → run system tr s = Some s' →
      10 ≤ sum_list_with (steps_of w) tr →
      ∃ q, il_clients s' !! c = Some q ∧ (q = IOut ∨ WaitIdle_step (il_pool s') q = Some IOut)) ∧
    (∀ w, od_thread (il_owned s) w = true → wk_pc (dworkers (il_pool s) w) = LDone ∨
      is_Some (idle_step count_workers ntasks (Owned (Pool (Step w true))) s))).
Proof using Hsize.
  intros Hr Hc Hp. pose proof (idle_owned s Hr) as Hok. split.
  - intros Hret k. assert (count_tasks (il_pool s) = 0%Z) as Hz.
    { destruct p; simplify_eq/=. by case_decide. }
    by apply counted_none_in_flight, (owned_idle count_workers ntasks Hsize).
  - intros Hz Hnb. split.
    + intros w tr s' Hq Hrun Hn. destruct (quiet_run tr s s' Hr Hz Hq Hrun) as [Hz' Haw].
      assert (awake c s') as (q & Eq & Hq').
      { destruct (decide (p = IBlocked)) as [->|Hb]; [|apply Haw; exists p; split; [done|]; destruct p; naive_solver].
        apply (sleeper_returns c w tr s); try done. pose proof (to_notify_range (wk_pc (dworkers (il_pool s) w))). lia. }
      exists q. split; [done|]. destruct Hq' as [-> | ->]; [by left|right]. simpl. by rewrite Hz', decide_True.
    + intros w Ht. destruct (decide (wk_pc (dworkers (il_pool s) w) = LDone)) as [|Hd]; [by left|right].
      destruct (rest_of s Hr Hz) as [_ Hrest]. assert (wk_pc (dworkers (il_pool s) w) ≠ LAbort) as Ha.
      { intros E. pose proof (ow_closes _ _ _ Hok w) as Hcl. by rewrite E in Hcl. }
      destruct (rest_can_step _ w Hrest Hd Ha) as [d Ed].
      simpl. rewrite Ht. simpl. rewrite Ed. by eexists.
Qed.
End wait_idle.

(** One worker, one client.  The task completes and the worker notifies between the
    client's reading the counter and its starting to wait; the next iteration of the
    worker, which first sleeps, notifies again. *)
Definition iterate (n : nat) : list idle_label := repeat (Owned (Pool (Step 0 true))) n.

Definition missed_notification : list idle_label :=
  (Owned <$> [CallStart; OwnerStep; OwnerStep; Pool (CallSubmit 5); Pool (Route 5)]) ++ iterate 8 ++
  [CallWaitIdle 0; ClientStep 0; Owned (Pool (Finished 0))] ++ iterate 2 ++ [ClientStep 0].

Definition idle_start : idling := MkIdling (MkOwned new_dpool (λ _, false) (λ _, false) ONew) [IOut].

Definition idle_after (tr : list idle_label) : idling :=
  default idle_start (run (idle_pool 1 8 1) tr idle_start).

Lemma dist_wait_idle_witness :
  il_clients (idle_after missed_notification) !! 0 = Some IBlocked ∧
  ∃ q, il_clients (idle_after (missed_notification ++ iterate 10)) !! 0 = Some q ∧
    (q = IOut ∨ WaitIdle_step (il_pool (idle_after (missed_notification ++ iterate 10))) q = Some IOut).
Proof.
  split; [vm_compute; reflexivity|].
  destruct (dist_wait_idle 1 8 1 eq_refl (idle_after missed_notification) 0 IBlocked) as [_ Hl].
  - apply (run_reachable (idle_pool 1 8 1)); [done|]. apply is_Some_alt. vm_compute. exact I.
  - vm_compute. reflexivity.
  - discriminate.
  - destruct Hl as [Hl _]; [vm_compute; reflexivity|discriminate|]. apply (Hl 0 (iterate 10)).
    + repeat constructor.
    + vm_compute. reflexivity.
    + vm_compute. lia.
Defined.

(** The repair fails when the pool shuts down first: the worker that has missed the client
    leaves its loop without another notification, and the client waits for ever. *)
Lemma wait_idle_stranded :
  let s := idle_after (missed_notification ++ (Owned <$> [CallWaitShutdown; OwnerStep]) ++ iterate 4) in
  reachable (idle_pool 1 8 1) s ∧ il_clients s !! 0 = Some IBlocked ∧ wk_pc (dworkers (il_pool s) 0) = LDone.
Proof.
  cbv zeta. split; [|vm_compute; auto].
  apply (run_reachable (idle_pool 1 8 1)); [done|]. apply is_Some_alt. vm_compute. exact I.
Qed.
