(* ===== verification/PoolFibers.v ===== *)
(** * Fibers on the distributed pool

    The pool of DistributedPool.v and the suspension protocol of Parking.v, composed.  A
    fiber is a task: its operations move while a worker is inside its [Run], its
    suspension hands the worker to [AwaitSuspend], a wake-up is a [Submit], and it resumes
    when a worker takes it from its queue.  One primitive is followed; what the fibers do
    besides (other primitives, [Yield], new fibers, completion) is the pool's steps.

    Nothing is assumed of where fibers resume: that the pool never resumes a fiber whose
    [AwaitSuspend] has not returned, the assumption [affine] of Parking.v, is proved. *)

From stdpp Require Import prelude list gmap.
From S2P Require Import Prelude.
From S2P Require Import Lock.
From S2P Require Import Parking.
From S2P Require Import AsyncMutex.
From S2P Require Import DistributedPool.

Record pool_fibers (D Op U : Type) := MkPoolFibers {
  pf_pool : dpool;
  pf_park : parking D Op U
}.
Arguments MkPoolFibers {D Op U} _ _.
Arguments pf_pool {D Op U} _.
Arguments pf_park {D Op U} _.

Inductive pf_label (Op : Type) :=
| Enter (w : wid) (op : Op)     (** the fiber on [w] calls an operation *)
| Move (w : wid)                (** the fiber on [w] takes its next step in it *)
| Count (w : wid)               (** it wakes a waiter: the first half of [Submit] *)
| Await (w : wid)               (** [w] is inside [AwaitSuspend] *)
| Take (w : wid) (timeout : bool) (** [w] takes a fiber suspended in the primitive *)
| Elsewhere (l : dist_label).   (** the pool, and fibers outside the primitive *)
Arguments Enter {Op} _ _.
Arguments Move {Op} _.
Arguments Count {Op} _.
Arguments Await {Op} _.
Arguments Take {Op} _ _.
Arguments Elsewhere {Op} _.

(** The fiber that runs on [w]; the fiber whose [AwaitSuspend] does. *)
Definition on_stack (p : dpool) (w : wid) : option task :=
  match wk_pc (dworkers p w) with PRun k => Some k | _ => None end.

Definition in_tail (p : dpool) (w : wid) : option task :=
  match wk_pc (dworkers p w) with PTail k => Some k | _ => None end.

(** The waiter a fiber is about to schedule. *)
Definition next_wake {Op} (p : fiber_pc Op) : option tid :=
  match p with WakeIn _ (g :: _) _ | Wake _ (g :: _) => Some g | _ => None end.

Section composition.
  Context {D Op U : Type} `{PrimitiveLaws D Op U}.
  Implicit Types (s : pool_fibers D Op U) (m : parking D Op U).

Definition outside m (f : tid) : bool := match fb_pc (pk_fibers m f) with Out => true | _ => false end.

(** A step of the pool that moves no fiber inside the primitive: a worker returns from
    [Run] only when [AwaitSuspend] has returned. *)
Definition elsewhere (l : dist_label) s : bool :=
  let '(MkPoolFibers p m) := s in
  match l with
  | CallSubmit k | Route k => outside m k
  | Suspended w | Finished w => match on_stack p w with Some k => outside m k | None => false end
  | Step w _ =>
      match wk_pc (dworkers p w) with
      | PTry => match local_tasks (dworkers p w) with k :: _ => outside m k | [] => true end
      | PTail k => match fb_worker (pk_fibers m k) with WNone => true | _ => false end
      | _ => true
      end
  | _ => true
  end.

Definition pf_step (l : pf_label Op) s : option (pool_fibers D Op U) :=
  let '(MkPoolFibers p m) := s in
  match l with
  | Enter w op => f ← on_stack p w; m' ← call_step f op m; Some (MkPoolFibers p m')
  | Count w =>
      f ← on_stack p w;
      g ← next_wake (fb_pc (pk_fibers m f));
      p' ← dist_step (CallSubmit g) p;
      Some (MkPoolFibers p' m)
  | Move w =>
      f ← on_stack p w;
      m' ← fiber_step f m;
      p' ← match next_wake (fb_pc (pk_fibers m f)) with
           | Some g => dist_step (Route g) p
           | None => if suspended (pk_fibers m' f) then dist_step (Suspended w) p else Some p
           end;
      Some (MkPoolFibers p' m')
  | Await w => f ← in_tail p w; m' ← AwaitSuspend_step f m; Some (MkPoolFibers p m')
  | Take w timeout =>
      match wk_pc (dworkers p w), local_tasks (dworkers p w) with
      | PTry, k :: _ =>
          m' ← resume_step false k m;
          p' ← dist_step (Step w timeout) p;
          Some (MkPoolFibers p' m')
      | _, _ => None
      end
  | Elsewhere l => if elsewhere l s then p' ← dist_step l p; Some (MkPoolFibers p' m) else None
  end.

Definition pf_system : lts (pool_fibers D Op U) (pf_label Op) :=
  Lts (λ s, ∃ d, data0 d ∧ s = MkPoolFibers new_dpool (park_init d)) pf_step.

(** ** The invariant *)

(** A suspended fiber: handed to its awaiter by its own worker, which stays in
    [AwaitSuspend] until this returns; scheduled, in the queue of that worker. *)
Definition placed (p : dpool) (f : tid) (fb : fiber Op U) : Prop :=
  ∃ w, tk_worker (dtasks p f) = Some w ∧ (fb_worker fb ≠ WNone → wk_pc (dworkers p w) = PTail f) ∧
    match fb_scheduled fb with
    | 0 => tk_place (dtasks p f) = Outside ∨ tk_place (dtasks p f) = Submitting
    | _ => tk_place (dtasks p f) = InLocal w
    end.

(** Where a fiber is in the pool, from where it is in the primitive. *)
Definition located (p : dpool) (f : tid) (fb : fiber Op U) : Prop :=
  match fb_pc fb with
  | Out => True
  | Susp _ => placed p f fb
  | _ => ∃ w, wk_pc (dworkers p w) = PRun f
  end.

Record pf_inv s : Prop := PfInv {
  pf_dist : dist_inv (pf_pool s);
  pf_prot : reachable (parking_system true) (pf_park s);
  pf_where : ∀ f, located (pf_pool s) f (pk_fibers (pf_park s) f)
}.

(** A fiber that the pool's step does not concern stays where it is. *)
Lemma located_stays l p p' f fb : dist_step l p = Some p' → task_of l p ≠ Some f →
  (∀ w, mover l = Some w → wk_pc (dworkers p w) = PTail f → fb_worker fb = WNone) →
  located p f fb → located p' f fb.
Proof.
  intros Hstep Hk Hw. unfold located.
  assert (∀ w, wk_pc (dworkers p w) = PRun f → wk_pc (dworkers p' w) = PRun f) as Hrun.
  { intros w E. rewrite (other_workers l p p' w Hstep); [done|]. intros Hm. apply Hk.
    destruct l; simplify_eq/=; try (by rewrite E).
    simpl in Hstep. unfold worker_step in Hstep. by rewrite E in Hstep. }
  destruct (fb_pc fb); try done; try (by intros (w & E); exists w; auto).
  intros (w & E1 & E2 & E3). exists w. rewrite (other_tasks l p p' f) by done.
  split_and!; [done| |done]. intros Hn. rewrite (other_workers l p p' w Hstep); [auto|].
  intros Hm. apply Hn, (Hw w Hm), E2, Hn.
Qed.

(** ** The steps of the protocol *)

Lemma next_wake_parked m f g : park_inv m → next_wake (fb_pc (pk_fibers m f)) = Some g →
  parked (pk_fibers m g) ∧ g ≠ f.
Proof.
  intros Hinv E. assert (g ∈ wakes (fb_pc (pk_fibers m f))) as Hg.
  { destruct (fb_pc (pk_fibers m f)) as [| | | |op [|x xs] o| | | |op [|x xs]|]; simplify_eq/=; set_solver. }
  destruct (pi_wakes _ Hinv f g Hg) as [Hp _]. split; [done|]. intros ->.
  destruct Hp as [Hs _]. unfold suspended in Hs. by destruct (fb_pc (pk_fibers m f)).
Qed.

(** What a fiber's step does to the others: it schedules the waiter it wakes. *)
Lemma fiber_step_others m m' f g : park_inv m → fiber_step f m = Some m' → g ≠ f →
  pk_fibers m' g =
    if decide (next_wake (fb_pc (pk_fibers m f)) = Some g)
    then set_fb_scheduled (pk_fibers m g) 1 else pk_fibers m g.
Proof.
  intros Hinv Hstep Hne.
  pose proof (next_wake_parked m f g Hinv) as Hnext. unfold fiber_step in Hstep.
  destruct (fb_pc (pk_fibers m f)) as [|op|op|op|op [|x xs] o|op o|op o|op o|op [|x xs]|]; simpl in Hstep;
    try (destruct (acquire f (pk_spin m)); simpl in Hstep); step_cases Hstep; simpl; simplify_eq; simpl; rewrite ?upd_ne by done; try done.
  all: case_decide as Hd; simplify_eq; [|by upd_cases].
  all: destruct (Hnext eq_refl) as [(_ & _ & E) _]; rewrite upd_eq, upd_ne by done; by rewrite E.
Qed.

(** What it does to the fiber: inside the primitive, or just suspended, or out. *)
Lemma fiber_step_self m m' f : park_inv m → fiber_step f m = Some m' → park_inv m' →
  suspended (pk_fibers m' f) = true →
  next_wake (fb_pc (pk_fibers m f)) = None ∧ fb_scheduled (pk_fibers m' f) = 0.
Proof.
  intros Hinv Hstep Hinv' Hs. pose proof (pi_fiber _ Hinv' f) as [Hok _].
  pose proof (next_wake_parked m f) as Hnext. unfold fiber_step in Hstep.
  destruct (fb_pc (pk_fibers m f)) as [|op|op|op|op [|x xs] o|op o|op o|op o|op [|x xs]|] eqn:E; simpl in Hstep;
    try (destruct (acquire f (pk_spin m)); simpl in Hstep); step_cases Hstep; simplify_eq; simpl in *;
    try (destruct (Hnext x Hinv eq_refl) as [_ Hx]); rewrite ?(upd_ne _ x f) in Hs by done;
    rewrite upd_eq in *; try done.
  all: unfold suspended in Hs; simpl in Hs; repeat case_match; try done; split; [done|apply Hok].
Qed.

(** The operation of a fiber that has run its body. *)
Definition leaving (p : fiber_pc Op) : option Op :=
  match p with
  | WakeIn op _ _ | Dtor op _ | Rel op _ | Clr op _ | Wake op _ => Some op
  | _ => None
  end.

(** A fiber takes the lock, runs its body, or is on its way out. *)
Lemma fiber_step_kinds f m m' : park_inv m → fiber_step f m = Some m' → park_inv m' →
  let fb := pk_fibers m f in let fb' := pk_fibers m' f in
  (∃ op, fb_pc fb = Ctor op ∧ fb_pc fb' = Crit op ∧ pk_data m' = pk_data m ∧ fb_client fb' = fb_client fb) ∨
  (∃ op d ws v, fb_pc fb = Crit op ∧ crit op (pk_data m) (pk_waiters m) = (d, ws, v) ∧ pk_data m' = d ∧
    fb_client fb' = fb_client fb ∧ fb_pc fb' = match v with Park => Susp op | Leave i o => WakeIn op i o end) ∨
  (∃ op, leaving (fb_pc fb) = Some op ∧ pk_data m' = pk_data m ∧
    (leaving (fb_pc fb') = Some op ∧ fb_client fb' = fb_client fb ∧
       (∀ x, x ∈ wakes (fb_pc fb') → x ∈ wakes (fb_pc fb)) ∨
     fb_pc fb' = Out ∧ fb_client fb' = client_after op (fb_client fb))).
Proof.
  cbv zeta. intros Hinv Hstep Hinv'. pose proof (pi_fiber _ Hinv' f) as [Hok _].
  pose proof (next_wake_parked m f) as Hnext. unfold fiber_step in Hstep.
  destruct (fb_pc (pk_fibers m f)) as [|op|op|op|op [|x xs] o|op o|op o|op o|op [|x xs]|] eqn:E; simpl in Hstep; try done.
  - left. destruct (acquire f (pk_spin m)); simplify_eq/=. exists op. by rewrite upd_eq.
  - right; left. destruct (crit op (pk_data m) (pk_waiters m)) as [[d ws] v] eqn:Ec. exists op, d, ws, v.
    destruct v; simplify_eq/=; by rewrite upd_eq.
  - right; right. simplify_eq/=. exists op. rewrite upd_eq. split_and!; [done..|]. by left.
  - right; right. simplify_eq/=. exists op. destruct (Hnext x Hinv eq_refl) as [_ Hx].
    rewrite (upd_ne _ x f), upd_eq by done. split_and!; [done..|]. left. split_and!; [done..|].
    simpl. set_solver.
  - right; right. simplify_eq/=. exists op. rewrite upd_eq. split_and!; [done..|]. left.
    by destruct (fb_is_owner (pk_fibers m f)).
  - right; right. exists op. destruct (release f (pk_spin m)); simplify_eq/=; rewrite upd_eq in *; [|done].
    split_and!; [done..|]. by left.
  - right; right. simplify_eq/=. exists op. rewrite upd_eq. split_and!; [done..|]. by left.
  - right; right. simplify_eq/=. exists op. rewrite upd_eq. split_and!; [done..|]. by right.
  - right; right. simplify_eq/=. exists op. destruct (Hnext x Hinv eq_refl) as [_ Hx].
    rewrite (upd_ne _ x f), upd_eq by done. split_and!; [done..|]. left. split_and!; [done..|].
    simpl. set_solver.
Qed.

Lemma await_step_effect m m' f : park_inv m → AwaitSuspend_step f m = Some m' →
  suspended (pk_fibers m f) = true ∧ fb_worker (pk_fibers m f) ≠ WNone ∧
  moved m m' f (pk_fibers m' f) ∧ fb_pc (pk_fibers m' f) = fb_pc (pk_fibers m f) ∧
  fb_scheduled (pk_fibers m' f) = fb_scheduled (pk_fibers m f) ∧
  fb_client (pk_fibers m' f) = fb_client (pk_fibers m f) ∧ pk_data m' = pk_data m.
Proof.
  intros Hinv Hstep. pose proof (pi_fiber _ Hinv f) as [Hok _]. unfold AwaitSuspend_step in Hstep.
  destruct (fb_worker (pk_fibers m f)) eqn:E; step_cases Hstep; simplify_eq; simpl; rewrite upd_eq;
    (split; [unfold suspended; by destruct (fb_pc (pk_fibers m f)); naive_solver|]);
    (split; [done|]); (split; [by apply moved_with_fiber|done]).
Qed.

(** ** The steps of the composition *)

Lemma pf_park_inv s : pf_inv s → park_inv (pf_park s).
Proof. intros Hi. apply park_invariant, Hi. Qed.

(** A fiber is on one worker at most, and then not suspended. *)
Lemma on_stack_not_placed p w f fb : dist_inv p → wk_pc (dworkers p w) = PRun f → ¬ placed p f fb.
Proof.
  intros Hd E (u & _ & _ & Hp). pose proof (di_run _ Hd w f E) as Hr.
  destruct (fb_scheduled fb); [destruct Hp|]; congruence.
Qed.

Lemma on_stack_running s w f : pf_inv s → on_stack (pf_pool s) w = Some f →
  wk_pc (dworkers (pf_pool s) w) = PRun f ∧ suspended (pk_fibers (pf_park s) f) = false.
Proof.
  unfold on_stack. intros Hi E. destruct (wk_pc (dworkers (pf_pool s) w)) eqn:Ew; simplify_eq.
  split; [done|]. pose proof (pf_where _ Hi f) as Hl. unfold located, suspended in *.
  destruct (fb_pc (pk_fibers (pf_park s) f)); try done. by apply (on_stack_not_placed _ w) in Hl; [|apply Hi|].
Qed.

Lemma located_run p w f fb : suspended fb = false → wk_pc (dworkers p w) = PRun f → located p f fb.
Proof. unfold suspended, located. intros Hs E. destruct (fb_pc fb); try done; by exists w. Qed.

Lemma pf_enter s w op s' : pf_inv s → pf_step (Enter w op) s = Some s' → pf_inv s'.
Proof.
  destruct s as [p m]. intros Hi Hstep. cbn [pf_step] in Hstep.
  apply bind_Some in Hstep as (f & Ef & Hstep). apply bind_Some in Hstep as (m' & E & [= <-]).
  destruct (on_stack_running _ w f Hi Ef) as [Ew Hs]. destruct Hi as [Hd Hr Hl]. split; [done| |].
  - by apply (reachable_step (parking_system true) (CallOp f op) m).
  - simpl. intros g. unfold call_step in E. step_cases E. simplify_eq/=. upd_cases; [|apply Hl].
    by apply (located_run p w).
Qed.

Lemma pf_await s w s' : pf_inv s → pf_step (Await w) s = Some s' → pf_inv s'.
Proof.
  destruct s as [p m]. intros Hi Hstep. cbn [pf_step] in Hstep. pose proof (pf_park_inv _ Hi) as Hm.
  apply bind_Some in Hstep as (f & Ef & Hstep). apply bind_Some in Hstep as (m' & E & [= <-]).
  destruct (await_step_effect m m' f Hm E) as (Hs & Hw & [_ Ho] & Epc & Esc & _).
  destruct Hi as [Hd Hr Hl]. split; [done| |].
  - by apply (reachable_step (parking_system true) (WorkerStep f) m).
  - simpl in *. intros g. destruct (decide (g = f)) as [->|Hne]; [|rewrite Ho by done; apply Hl].
    specialize (Hl f). unfold located, suspended in *. rewrite Epc.
    destruct (fb_pc (pk_fibers m f)); try done. unfold placed in *. rewrite Esc.
    destruct Hl as (u & E1 & E2 & E3). exists u. eauto.
Qed.

Lemma outside_out m f : outside m f = true → fb_pc (pk_fibers m f) = Out.
Proof. unfold outside. by destruct (fb_pc (pk_fibers m f)). Qed.

(** A step elsewhere has no fiber inside the primitive in hand, and ends no [Run] early. *)
Lemma elsewhere_task l p m f : dist_inv p → elsewhere l (MkPoolFibers p m) = true →
  located p f (pk_fibers m f) → task_of l p = Some f → is_Some (dist_step l p) → fb_pc (pk_fibers m f) = Out.
Proof.
  intros Hd He Hl Ht Hs. destruct l as [k|k|w|w|w b| |w|w|i]; simplify_eq/=; try (by apply outside_out).
  - unfold on_stack in He. destruct (wk_pc (dworkers p w)); simplify_eq/=; by apply outside_out.
  - unfold on_stack in He. destruct (wk_pc (dworkers p w)); simplify_eq/=; by apply outside_out.
  - destruct (wk_pc (dworkers p w)) as [|k|k|k| |k|q| | | | | |d|d|d| |] eqn:E; simplify_eq.
    + destruct (local_tasks (dworkers p w)); simplify_eq/=. by apply outside_out.
    + destruct (global_tasks p) as [|k ks] eqn:Eg; simplify_eq/=.
      assert (tk_place (dtasks p f) = InGlobal) as Hp by (apply (di_global _ Hd); rewrite Eg; by left).
      pose proof (di_unassigned _ Hd f Hp). unfold located in Hl.
      destruct (fb_pc (pk_fibers m f)); try done; try (destruct Hl as (u & Hu%(di_run _ Hd)); congruence).
      destruct Hl as (u & ? & _). congruence.
    + pose proof (di_push _ Hd w f E) as Hp. pose proof (di_moving _ Hd f w Hp).
      unfold located in Hl.
      destruct (fb_pc (pk_fibers m f)); try done; try (destruct Hl as (u & Hu%(di_run _ Hd)); congruence).
      destruct Hl as (u & ? & _). congruence.
Qed.

Lemma pf_elsewhere s l s' : pf_inv s → pf_step (Elsewhere l) s = Some s' → pf_inv s'.
Proof.
  destruct s as [p m]. intros Hi Hstep. cbn [pf_step] in Hstep.
  destruct (elsewhere l (MkPoolFibers p m)) eqn:El; [|done].
  apply bind_Some in Hstep as (p' & E & [= <-]). destruct Hi as [Hd Hr Hl]. simpl in *.
  split; [|done|]; simpl; [by apply (dist_inv_step l p)|].
  intros f. destruct (decide (task_of l p = Some f)) as [Ht|Ht].
  - unfold located. by rewrite (elsewhere_task l p m f Hd El (Hl f) Ht) by eauto.
  - apply (located_stays l p); [done..| |apply Hl]. intros w Hm Ew.
    destruct l as [k|k|u|u|u b| |u|u|i]; simplify_eq/=; unfold on_stack in El; rewrite Ew in El; try done.
    by destruct (fb_worker (pk_fibers m f)).
Qed.

Lemma pf_count s w s' : pf_inv s → pf_step (Count w) s = Some s' → pf_inv s'.
Proof.
  destruct s as [p m]. intros Hi Hstep. cbn [pf_step] in Hstep. pose proof (pf_park_inv _ Hi) as Hm. simpl in Hm.
  apply bind_Some in Hstep as (f & Ef & Hstep). apply bind_Some in Hstep as (g & Eg & Hstep).
  apply bind_Some in Hstep as (p' & E & [= <-]).
  destruct (next_wake_parked m f g Hm Eg) as [(Hs & _ & Hc) _]. destruct Hi as [Hd Hr Hl]. simpl in *.
  split; [|done|]; simpl; [by apply (dist_inv_step (CallSubmit g) p)|].
  intros x. destruct (decide (x = g)) as [->|Hne].
  - specialize (Hl g). unfold located, suspended in *. destruct (fb_pc (pk_fibers m g)); try done.
    destruct Hl as (u & E1 & E2 & _). exists u. rewrite Hc. split_and!.
    + by apply (dist_sticky (CallSubmit g) p).
    + by rewrite (other_workers (CallSubmit g) p p' u E).
    + right. simpl in E. case_decide; [|done]. simplify_eq. unfold Submit_count.
      destruct (tk_state (dtasks p g)); simpl; by rewrite upd_eq.
  - apply (located_stays (CallSubmit g) p); [done| |done|apply Hl]. simpl. congruence.
Qed.

Lemma pf_take s w b s' : pf_inv s → pf_step (Take w b) s = Some s' → pf_inv s'.
Proof.
  destruct s as [p m]. intros Hi Hstep. cbn [pf_step] in Hstep.
  pose proof (pf_park_inv _ Hi) as Hm. destruct Hi as [Hd Hr Hl]. simpl in *.
  destruct (wk_pc (dworkers p w)) eqn:Ew; try done.
  destruct (local_tasks (dworkers p w)) as [|f fs] eqn:Eq; [done|].
  apply bind_Some in Hstep as (m' & E & Hstep). apply bind_Some in Hstep as (p' & Ep & [= <-]).
  assert (tk_place (dtasks p f) = InLocal w) as Hpl by (apply (di_local _ Hd); rewrite Eq; by left).
  assert (resume_step true f m = Some m' ∧ (∀ x, x ≠ f → pk_fibers m' x = pk_fibers m x) ∧
    suspended (pk_fibers m' f) = false) as (E' & Ho & Hs').
  { unfold resume_step in *. specialize (Hl f). unfold located in Hl.
    destruct (fb_pc (pk_fibers m f)) as [| | |op| | | | | |] eqn:Epc; try done.
    destruct (fb_scheduled (pk_fibers m f)) as [|n] eqn:En; [done|]. simpl in E. simplify_eq.
    destruct Hl as (u & E1 & E2 & E3). rewrite En in E3.
    assert (fb_worker (pk_fibers m f) = WNone) as Ewk.
    { destruct (di_assigned _ Hd f w) as [?|?]; [by left|congruence|].
      destruct (fb_worker (pk_fibers m f)); [done|..]; exfalso; specialize (E2 ltac:(done)); congruence. }
    rewrite Ewk. split; [done|]. split; simpl; [intros; by rewrite upd_ne|by rewrite upd_eq]. }
  split; simpl; [by apply (dist_inv_step (Step w b) p)| |].
  - by apply (reachable_step (parking_system true) (Resume f) m).
  - intros g. destruct (decide (g = f)) as [->|Hne].
    + apply (located_run p' w); [done|]. simpl in Ep. unfold worker_step in Ep. rewrite Ew, Eq in Ep. simplify_eq.
      simpl. by rewrite upd_eq.
    + rewrite Ho by done. apply (located_stays (Step w b) p); [done| | |apply Hl].
      * simpl. rewrite Ew, Eq. simpl. congruence.
      * simpl. intros ? [= <-]. by rewrite Ew.
Qed.


(** The fiber that runs suspends: its worker is in [AwaitSuspend] now. *)
Lemma suspend_located p p' w f (fb : fiber Op U) : dist_inv p → wk_pc (dworkers p w) = PRun f →
  dist_step (Suspended w) p = Some p' → fb_scheduled fb = 0 → placed p' f fb.
Proof.
  intros Hd Ew E Hc. assert (tk_worker (dtasks p f) = Some w) as Ek by (apply (di_running _ Hd); by rewrite Ew).
  exists w. rewrite Hc. split_and!.
  - by apply (dist_sticky (Suspended w) p).
  - intros _. simpl in E. rewrite Ew in E. simplify_eq. simpl. by rewrite upd_eq.
  - left. simpl in E. rewrite Ew in E. simplify_eq. simpl. by rewrite upd_eq.
Qed.

(** The waiter that is woken goes to the queue of its worker. *)
Lemma route_located p p' g (fb : fiber Op U) : dist_step (Route g) p = Some p' →
  placed p g fb → placed p' g (set_fb_scheduled fb 1).
Proof.
  intros E (u & E1 & E2 & _). exists u. simpl. split_and!.
  - by apply (dist_sticky (Route g) p).
  - intros Hw. rewrite (other_workers (Route g) p p' u E) by done. auto.
  - simpl in E. case_decide; [|done]. simplify_eq. unfold Submit_route. rewrite E1. simpl. by rewrite upd_eq.
Qed.

Lemma pf_move s w s' : pf_inv s → pf_step (Move w) s = Some s' → pf_inv s'.
Proof.
  destruct s as [p m]. intros Hi Hstep. cbn [pf_step] in Hstep. pose proof (pf_park_inv _ Hi) as Hm.
  apply bind_Some in Hstep as (f & Ef & Hstep). apply bind_Some in Hstep as (m' & E & Hstep).
  apply bind_Some in Hstep as (p' & Ep & [= <-]).
  destruct (on_stack_running _ w f Hi Ef) as [Ew Hs]. destruct Hi as [Hd Hr Hl]. simpl in Hd, Hr, Hl, Hs, Ew, Hm.
  assert (reachable (parking_system true) m') as Hr' by (by apply (reachable_step (parking_system true) (FiberStep f) m)).
  pose proof (fiber_step_self m m' f Hm E (park_invariant _ Hr')) as Hself.
  destruct (next_wake (fb_pc (pk_fibers m f))) as [g|] eqn:Eg.
  - destruct (next_wake_parked m f g Hm Eg) as [(Hsg & _) Hgf].
    split; [by apply (dist_inv_step (Route g) p)|done|]. simpl. intros x.
    destruct (decide (x = f)) as [->|Hx].
    + apply (located_run p' w); [by destruct (suspended (pk_fibers m' f)); naive_solver|].
      by rewrite (other_workers (Route g) p p' w Ep).
    + rewrite (fiber_step_others m m' f x), Eg by done. specialize (Hl x). destruct (decide (Some g = Some x)) as [Hxg|Hxg].
      * simplify_eq. unfold located, suspended in *. simpl.
        destruct (fb_pc (pk_fibers m x)); try done. by apply (route_located p).
      * apply (located_stays (Route g) p); [done| |done..]. simpl. congruence.
  - assert (∀ x, x ≠ f → pk_fibers m' x = pk_fibers m x) as Ho.
    { intros x Hx. rewrite (fiber_step_others m m' f x), Eg by done. by case_decide. }
    destruct (suspended (pk_fibers m' f)) eqn:Es'.
    + split; [by apply (dist_inv_step (Suspended w) p)|done|]. simpl. intros x.
      destruct (decide (x = f)) as [->|Hx].
      * destruct (Hself eq_refl) as [_ Hc]. unfold located, suspended in *.
        destruct (fb_pc (pk_fibers m' f)); try done. by apply (suspend_located p p' w).
      * rewrite Ho by done. apply (located_stays (Suspended w) p); [done| | |apply Hl]; simpl; rewrite ?Ew; simpl.
        -- congruence.
        -- intros ? [= <-]. by rewrite Ew.
    + simplify_eq. split; [done..|]. simpl. intros x.
      destruct (decide (x = f)) as [->|Hx]; [by apply (located_run p' w)|]. rewrite Ho by done. apply Hl.
Qed.

Lemma pf_invariant : invariant pf_system pf_inv.
Proof.
  apply invariant_intro.
  - intros s (d & Hd & ->). split; simpl; [by apply dist_invariant, reachable_init| |done].
    apply reachable_init. by exists d.
  - intros [w op|w|w|w|w b|l] s s' Hi Hstep.
    + by apply (pf_enter s w op).
    + by apply (pf_move s w).
    + by apply (pf_count s w).
    + by apply (pf_await s w).
    + by apply (pf_take s w b).
    + by apply (pf_elsewhere s l).
Qed.

(** The pool does what the pool does: each step is one of its steps, or none. *)
Lemma pf_pool_reachable s : reachable pf_system s → reachable distributed_pool (pf_pool s).
Proof.
  apply (invariant_intro pf_system (λ s, reachable distributed_pool (pf_pool s))).
  - intros ? (d & _ & ->). by apply reachable_init.
  - intros l [p m] s' Hr Hstep. simpl in Hr. cbn [lts_step pf_system] in Hstep.
    assert (∀ l' p', dist_step l' p = Some p' → reachable distributed_pool p') as Hs.
    { intros l' p' E. by apply (reachable_step distributed_pool l' p). }
    destruct l as [w op|w|w|w|w b|l]; cbn [pf_step] in Hstep.
    + apply bind_Some in Hstep as (f & _ & Hstep). by apply bind_Some in Hstep as (m' & _ & [= <-]).
    + apply bind_Some in Hstep as (f & _ & Hstep). apply bind_Some in Hstep as (m' & _ & Hstep).
      apply bind_Some in Hstep as (p' & E & [= <-]).
      destruct (next_wake _) as [g|]; [by eapply Hs|]. destruct (suspended _); [by eapply Hs|by simplify_eq].
    + apply bind_Some in Hstep as (f & _ & Hstep). apply bind_Some in Hstep as (g & _ & Hstep).
      apply bind_Some in Hstep as (p' & E & [= <-]). by eapply Hs.
    + apply bind_Some in Hstep as (f & _ & Hstep). by apply bind_Some in Hstep as (m' & _ & [= <-]).
    + destruct (wk_pc (dworkers p w)); try done. destruct (local_tasks (dworkers p w)); [done|].
      apply bind_Some in Hstep as (m' & _ & Hstep). apply bind_Some in Hstep as (p' & E & [= <-]). by eapply Hs.
    + destruct (elsewhere l (MkPoolFibers p m)); [|done]. apply bind_Some in Hstep as (p' & E & [= <-]). by eapply Hs.
Qed.

(** What a step of the primitive does to the pool: it submits a suspended fiber, queues
    it, suspends a fiber, or takes one; it completes none. *)
Lemma pf_step_pool l p m p' m' : pf_inv (MkPoolFibers p m) →
  pf_step l (MkPoolFibers p m) = Some (MkPoolFibers p' m') → (∀ l', l ≠ Elsewhere l') →
  p' = p ∨ ∃ l', dist_step l' p = Some p' ∧ (∀ w, l' ≠ Finished w) ∧
    ∀ k, l' = CallSubmit k ∨ l' = Route k → outside m k = false.
Proof.
  intros Hi Hstep Hl. pose proof (pf_park_inv _ Hi) as Hm. simpl in Hm.
  destruct l as [w op|w|w|w|w b|l]; cbn [pf_step] in Hstep; [| | | | |by destruct (Hl l)].
  - apply bind_Some in Hstep as (f & _ & Hstep). apply bind_Some in Hstep as (m1 & _ & [= <- <-]). by left.
  - apply bind_Some in Hstep as (f & _ & Hstep). apply bind_Some in Hstep as (m1 & _ & Hstep).
    apply bind_Some in Hstep as (p1 & E & [= <- <-]).
    destruct (next_wake _) as [g|] eqn:Eg.
    + right. exists (Route g). split_and!; [done..|]. intros k [?|[= <-]]; [done|].
      destruct (next_wake_parked m f g Hm Eg) as [[Hs _] _].
      unfold suspended, outside in *. by destruct (fb_pc (pk_fibers m g)).
    + destruct (suspended _); [|left; by simplify_eq].
      right. exists (Suspended w). split_and!; [done..|by intros k [?|?]].
  - apply bind_Some in Hstep as (f & _ & Hstep). apply bind_Some in Hstep as (g & Eg & Hstep).
    apply bind_Some in Hstep as (p1 & E & [= <- <-]). right. exists (CallSubmit g). split_and!; [done..|].
    intros k [[= <-]|?]; [|done]. destruct (next_wake_parked m f g Hm Eg) as [[Hs _] _].
    unfold suspended, outside in *. by destruct (fb_pc (pk_fibers m g)).
  - apply bind_Some in Hstep as (f & _ & Hstep). apply bind_Some in Hstep as (m1 & _ & [= <- <-]). by left.
  - destruct (wk_pc (dworkers p w)); try done. destruct (local_tasks (dworkers p w)); [done|].
    apply bind_Some in Hstep as (m1 & _ & Hstep). apply bind_Some in Hstep as (p1 & E & [= <- <-]).
    right. exists (Step w b). split_and!; [done..|by intros k [?|?]].
Qed.

(** ** Progress *)

(** A step of worker [w]. *)
Definition step_of (w : wid) (l : pf_label Op) : Prop :=
  match l with
  | Enter u _ | Move u | Count u | Await u | Take u _ => u = w
  | Elsewhere l => mover l = Some w
  end.

Definition can_move s (w : wid) : Prop := ∃ l, step_of w l ∧ is_Some (pf_step l s).

(** Its fiber waits for the spinlock, in the constructor of the guard. *)
Definition spins s (w : wid) : Prop := ∃ f op, on_stack (pf_pool s) w = Some f ∧
  fb_pc (pk_fibers (pf_park s) f) = Ctor op ∧ pk_spin (pf_park s) ≠ None.

(** Inside an operation it goes on, unless it spins. *)
Definition goes_on s (w : wid) : Prop := ∃ l, (l = Move w ∨ l = Count w) ∧ is_Some (pf_step l s).

Lemma goes_on_moves s w : goes_on s w → can_move s w.
Proof. intros (l & [-> | ->] & E); [by exists (Move w)|by exists (Count w)]. Qed.

Lemma move_enabled p m w f m' : pf_inv (MkPoolFibers p m) → on_stack p w = Some f →
  fiber_step f m = Some m' → goes_on (MkPoolFibers p m) w.
Proof.
  intros Hi Hf E. pose proof (pf_park_inv _ Hi) as Hm. simpl in Hm.
  destruct (on_stack_running _ w f Hi Hf) as [Ew _]. simpl in Ew.
  destruct (next_wake (fb_pc (pk_fibers m f))) as [g|] eqn:Eg.
  - destruct (next_wake_parked m f g Hm Eg) as [(Hs & _ & Hc) _].
    pose proof (pf_where _ Hi g) as Hl. simpl in Hl. unfold located, suspended in *.
    destruct (fb_pc (pk_fibers m g)); try done. destruct Hl as (u & _ & _ & Hp). rewrite Hc in Hp.
    destruct Hp as [Hp|Hp].
    + exists (Count w). split; [by right|]. cbn [pf_step]. rewrite Hf. simpl. rewrite Eg. simpl.
      rewrite Hp. by eexists.
    + exists (Move w). split; [by left|]. cbn [pf_step]. rewrite Hf. simpl. rewrite E. simpl. rewrite Eg. simpl.
      rewrite Hp. by eexists.
  - exists (Move w). split; [by left|]. cbn [pf_step]. rewrite Hf. simpl. rewrite E. simpl. rewrite Eg.
    destruct (suspended (pk_fibers m' f)); simpl; [|by eexists]. rewrite Ew. by eexists.
Qed.

Lemma inside_goes_on p m w f : pf_inv (MkPoolFibers p m) → on_stack p w = Some f → outside m f = false →
  goes_on (MkPoolFibers p m) w ∨ spins (MkPoolFibers p m) w.
Proof.
  intros Hi Hf Hin. destruct (on_stack_running _ w f Hi Hf) as [Ew Hs]. simpl in Ew, Hs.
  destruct (fiber_step f m) as [m'|] eqn:E; [left; by apply (move_enabled p m w f m')|].
  pose proof (pi_fiber _ (pf_park_inv _ Hi) f) as [Hok _]. simpl in Hok.
  unfold fiber_step in E. unfold outside in Hin.
  destruct (fb_pc (pk_fibers m f)) as [|op|op| |op [|x xs] o|op o|op o|op o|op [|x xs]|] eqn:Epc; try done.
  - right. exists f, op. split_and!; [done..|]. simpl. by destruct (pk_spin m).
  - by destruct (crit op (pk_data m) (pk_waiters m)) as [[d ws] []].
  - unfold suspended in Hs. by rewrite Epc in Hs.
  - by destruct (release f (pk_spin m)).
Qed.

Lemma on_stack_moves p m w f : pf_inv (MkPoolFibers p m) → on_stack p w = Some f →
  can_move (MkPoolFibers p m) w ∨ spins (MkPoolFibers p m) w.
Proof.
  intros Hi Hf. destruct (outside m f) eqn:Ho.
  - left. exists (Elsewhere (Finished w)). split; [done|]. cbn [pf_step elsewhere].
    destruct (on_stack_running _ w f Hi Hf) as [Ew _]. simpl in Ew.
    rewrite Hf, Ho. simpl. rewrite Ew. by eexists.
  - destruct (inside_goes_on p m w f Hi Hf Ho); [left; by apply goes_on_moves|by right].
Qed.

(** The other workers: inside [AwaitSuspend], between two tasks, or in the loop. *)
Lemma await_enabled p m w f : pf_inv (MkPoolFibers p m) → wk_pc (dworkers p w) = PTail f →
  fb_worker (pk_fibers m f) ≠ WNone → is_Some (pf_step (Await w) (MkPoolFibers p m)).
Proof.
  intros Hi Ew Hn. pose proof (pi_fiber _ (pf_park_inv _ Hi) f) as [Hok _]. simpl in Hok.
  cbn [pf_step]. unfold in_tail. rewrite Ew. simpl. unfold AwaitSuspend_step.
  destruct (fb_worker (pk_fibers m f)) eqn:E; try done; try (by eexists).
  - destruct (release f (pk_spin m)); by eexists.
  - destruct (fb_pc (pk_fibers m f)); naive_solver.
Qed.

Lemma in_tail_moves p m w f : pf_inv (MkPoolFibers p m) → wk_pc (dworkers p w) = PTail f →
  can_move (MkPoolFibers p m) w.
Proof.
  intros Hi Ew. destruct (fb_worker (pk_fibers m f)) eqn:E;
    [|exists (Await w); split; [done|]; apply (await_enabled p m w f Hi Ew); by rewrite E..].
  exists (Elsewhere (Step w false)). split; [done|]. cbn [pf_step elsewhere]. rewrite Ew, E.
  simpl. unfold worker_step. rewrite Ew. by eexists.
Qed.

Lemma take_enabled p m w k ks : pf_inv (MkPoolFibers p m) → wk_pc (dworkers p w) = PTry →
  local_tasks (dworkers p w) = k :: ks → outside m k = false → is_Some (pf_step (Take w false) (MkPoolFibers p m)).
Proof.
  intros Hi Ew Eq Ho. destruct Hi as [Hd _ Hl]. specialize (Hl k). simpl in Hd, Hl.
  assert (tk_place (dtasks p k) = InLocal w) as Hp by (apply (di_local _ Hd); rewrite Eq; by left).
  cbn [pf_step]. rewrite Ew, Eq. unfold located, outside, resume_step in *.
  destruct (fb_pc (pk_fibers m k)); try done; try (destruct Hl as (u & Hu%(di_run _ Hd)); congruence).
  destruct Hl as (u & _ & _ & Hu).
  destruct (fb_scheduled (pk_fibers m k)); [destruct Hu; congruence|]. simpl.
  unfold worker_step. rewrite Ew, Eq. by eexists.
Qed.

Lemma take_moves p m w k ks : pf_inv (MkPoolFibers p m) → wk_pc (dworkers p w) = PTry →
  local_tasks (dworkers p w) = k :: ks → can_move (MkPoolFibers p m) w.
Proof.
  intros Hi Ew Eq. destruct (outside m k) eqn:Ho; [|exists (Take w false); split; [done|]; by eapply take_enabled].
  exists (Elsewhere (Step w false)). split; [done|]. cbn [pf_step elsewhere]. rewrite Ew, Eq, Ho.
  simpl. unfold worker_step. rewrite Ew, Eq. by eexists.
Qed.

(** Whoever holds the spinlock is in a worker's hands: it runs, or is about to be parked. *)
Lemma spin_holder p m : pf_inv (MkPoolFibers p m) → pk_spin m ≠ None → ∃ w f,
  holds_spin (pk_fibers m f) = true ∧ running_on (wk_pc (dworkers p w)) = Some f.
Proof.
  intros Hi Hs. pose proof (pf_park_inv _ Hi) as Hm. simpl in Hm.
  destruct (pk_spin m) as [f|] eqn:E; [|done]. apply (pi_spin _ Hm) in E.
  pose proof (pf_where _ Hi f) as Hl. simpl in Hl. unfold located in Hl. pose proof E as E'. unfold holds_spin in E'.
  destruct (fb_pc (pk_fibers m f)); try done; try (destruct Hl as [w Ew]; exists w, f; by rewrite Ew).
  destruct Hl as (w & _ & Hw & _). exists w, f. split; [done|].
  rewrite Hw; [done|]. by destruct (fb_worker (pk_fibers m f)).
Qed.

Lemma worker_moves s w : pf_inv s → can_move s w ∨ spins s w ∨
  wk_pc (dworkers (pf_pool s) w) = LDone ∨ wk_pc (dworkers (pf_pool s) w) = LAbort.
Proof.
  destruct s as [p m]. intros Hi. simpl.
  destruct (wk_pc (dworkers p w)) as [|k|k|k| |k|q| | | | | |d|d|d| |] eqn:Ew; auto.
  1: destruct (local_tasks (dworkers p w)) as [|k ks] eqn:Eq; [|left; by apply (take_moves p m w k ks)].
  2: destruct (on_stack_moves p m w k Hi); [|by left|by right; left]; unfold on_stack; by rewrite Ew.
  2: left; by apply (in_tail_moves p m w k).
  all: left; exists (Elsewhere (Step w true)); split; [done|]; cbn [pf_step elsewhere];
    rewrite Ew, ?Eq; simpl; unfold worker_step; rewrite Ew, ?Eq; repeat case_match; by eexists.
Qed.
End composition.

(** C12: the fiber primitives on the distributed pool.  Whatever the workers, the fibers
    and other clients of the pool do, the pool does what DistributedPool.v says, and the
    primitive goes through its protocol with the assumption [affine]: no fiber resumes
    before its [AwaitSuspend] has returned, although nothing in the composition forbids
    it.  A suspended fiber stays with the worker that first ran it: scheduled, it is in
    the queue of this worker, and until then in no queue.  No worker is stuck: it can
    move, or its fiber waits for the spinlock of the primitive, or it has left its loop
    (or resumed its completed coroutine, which aborts). *)
Theorem pool_fibers_affine {D Op U} `{PrimitiveLaws D Op U} (s : pool_fibers D Op U) :
  reachable pf_system s →
  reachable distributed_pool (pf_pool s) ∧ reachable (parking_system true) (pf_park s) ∧
  (∀ f, suspended (pk_fibers (pf_park s) f) = true → placed (pf_pool s) f (pk_fibers (pf_park s) f)) ∧
  (∀ w, can_move s w ∨ spins s w ∨
    wk_pc (dworkers (pf_pool s) w) = LDone ∨ wk_pc (dworkers (pf_pool s) w) = LAbort).
Proof.
  intros Hr. pose proof (pf_invariant s Hr) as Hi. split_and!.
  - by apply pf_pool_reachable.
  - apply Hi.
  - intros f Hf. pose proof (pf_where _ Hi f) as Hl. unfold located, suspended in *.
    by destruct (fb_pc (pk_fibers (pf_park s) f)).
  - intros w. by apply worker_moves.
Qed.

(** ** The fiber mutex on the distributed pool *)

Abbreviation pool_mutex := (pool_fibers bool mutex_op bool).

Definition new_pool_mutex : pool_mutex := MkPoolFibers new_dpool (park_init false).

(** Fiber [f] is submitted, and worker [w] takes it. *)
Definition start_on (f : task) (w : wid) : list (pf_label mutex_op) :=
  Elsewhere (CallSubmit f) :: Elsewhere (Route f) :: repeat (Elsewhere (Step w false)) 8.

(** Fiber 0 has the mutex when fiber 1 suspends, and hands it over while worker 1 has not
    yet cleared the flag of the guard. *)
Definition early_schedule : list (pf_label mutex_op) :=
  start_on 0 0 ++ start_on 1 1 ++
  (Enter 0 Lock :: repeat (Move 0) 7) ++ [Enter 1 Lock; Move 1; Move 1; Await 1; Await 1] ++
  (Enter 0 Unlock :: repeat (Move 0) 6) ++ [Count 0; Move 0; Move 0].

(** Worker 1 returns from [AwaitSuspend] and takes the fiber, which has the mutex then. *)
Definition handed_schedule : list (pf_label mutex_op) :=
  early_schedule ++ [Await 1; Elsewhere (Step 1 false); Elsewhere (Step 1 false); Take 1 false] ++
  repeat (Move 1) 2.

Definition pf_after (tr : list (pf_label mutex_op)) : pool_mutex :=
  default new_pool_mutex (run pf_system tr new_pool_mutex).

Lemma pf_after_reachable tr : is_Some (run pf_system tr new_pool_mutex) → reachable pf_system (pf_after tr).
Proof. apply (run_reachable pf_system). by exists false. Qed.

(** The mutex excludes on the pool. *)
Lemma pool_mutex_exclusive (s : pool_mutex) f g : reachable pf_system s →
  in_critical_section (pf_park s) f → in_critical_section (pf_park s) g → f = g.
Proof.
  intros Hr [E1 F1] [E2 F2]. pose proof (pf_prot _ (pf_invariant s Hr)) as Hp.
  destruct (mutex_invariant _ Hp) as [_ Hm].
  apply (mi_one _ Hm); left; unfold own_local; by rewrite ?E1, ?E2.
Qed.

Lemma pool_fibers_affine_witness :
  (fb_scheduled (pk_fibers (pf_park (pf_after early_schedule)) 1) = 1 ∧
   fb_worker (pk_fibers (pf_park (pf_after early_schedule)) 1) = WClear ∧
   in_critical_section (pf_park (pf_after handed_schedule)) 1) ∧
  placed (pf_pool (pf_after early_schedule)) 1 (pk_fibers (pf_park (pf_after early_schedule)) 1).
Proof.
  split; [vm_compute; auto|].
  apply (pool_fibers_affine (pf_after early_schedule)); [|vm_compute; reflexivity].
  apply pf_after_reachable. vm_compute. eauto.
Defined.
