(* ===== verification/ThreadPoolFibers.v ===== *)
(** * Fibers on the thread pool

    [IntrusiveThreadPool] (IntrusivePool.v) and the suspension protocol of Parking.v,
    composed as PoolFibers.v does for the distributed pool.  A worker inside [task->Run()]
    runs the fiber's operation, then [AwaitSuspend]; a wake-up is [Submit] by the thread of
    the worker, which is client [S w] of the pool; any worker takes the fiber from the
    queue.  The pool has been started, and is not destroyed while the fibers use the
    primitive.

    With one worker a fiber cannot resume before its [AwaitSuspend] has returned; with
    two it can, and the fiber mutex releases its spinlock twice. *)

From stdpp Require Import prelude list.
From S2P Require Import Prelude.
From S2P Require Import Lock.
From S2P Require Import Parking.
From S2P Require Import AsyncMutex.
From S2P Require Import PoolFibers.
From S2P Require Import IntrusivePool.

Record tp_fibers (D Op U : Type) := MkTpFibers {
  tp_pool : pool;
  tp_park : parking D Op U;
  tp_tail : nat → bool      (** the fiber in the worker's hands has left its stack *)
}.
Arguments MkTpFibers {D Op U} _ _ _.
Arguments tp_pool {D Op U} _.
Arguments tp_park {D Op U} _.
Arguments tp_tail {D Op U} _ _.

Inductive tp_label (Op : Type) :=
| TEnter (w : nat) (op : Op)  (** the fiber on [w] calls an operation *)
| TSubmit (w : nat)           (** it wakes a waiter: [Submit], up to the push *)
| TMove (w : nat)             (** its next step in the operation; the push *)
| TAwait (w : nat)            (** [w] is inside [AwaitSuspend] *)
| TTake (w : nat)             (** [w] takes a fiber suspended in the primitive *)
| TElse (l : pool_label).     (** the pool, and fibers outside the primitive *)
Arguments TEnter {Op} _ _.
Arguments TSubmit {Op} _.
Arguments TMove {Op} _.
Arguments TAwait {Op} _.
Arguments TTake {Op} _.
Arguments TElse {Op} _.

#[local] Instance await_pc_eq : EqDecision Parking.worker_pc.
Proof. solve_decision. Defined.

(** The thread of a worker, as a client of the pool. *)
Definition thread_of (w : nat) : nat := S w.

(** The pool once [Start] has returned and the workers have begun. *)
Definition started_pool (n e : nat) : pool :=
  MkPool n 0 false [] (replicate n WTake) (wrap64 (Z.of_nat n)) (replicate n true)
    (replicate (S n + e) CIdle) [] [].

(** [Schedule(g)] by the fiber on [w]: [Submit] up to its push, and the push. *)
Definition submit_step (p : pool) (w : nat) (g : task) : option pool :=
  match clients p !! thread_of w with
  | Some CIdle => pool_step (CallSubmit (thread_of w) g) p
  | Some (CCheck _) | Some (CAdd _) => pool_step (ClientStep (thread_of w)) p
  | _ => None
  end.

Definition submit_push (p : pool) (w : nat) (g : task) : option pool :=
  match clients p !! thread_of w with
  | Some (CPush h) => if decide (h = g) then pool_step (ClientStep (thread_of w)) p else None
  | _ => None
  end.

Section composition.
  Context {D Op U : Type} `{PrimitiveLaws D Op U}.
  Implicit Types (s : tp_fibers D Op U) (m : parking D Op U) (p : pool).

(** The fiber that runs on [w]; the fiber whose [AwaitSuspend] does. *)
Definition fiber_on s (w : nat) : option task :=
  match workers (tp_pool s) !! w with Some (WRun k) => if tp_tail s w then None else Some k | _ => None end.

Definition await_on s (w : nat) : option task :=
  match workers (tp_pool s) !! w with Some (WRun k) => if tp_tail s w then Some k else None | _ => None end.

Definition client_idle p (c : nat) : bool := match clients p !! c with Some CIdle => true | _ => false end.

(** A thread that is not inside the primitive: a client's, or a worker's with a fiber outside. *)
Definition free_thread s (c : nat) : bool :=
  match c with
  | 0 => true
  | S w => match workers (tp_pool s) !! w, fiber_on s w with
           | None, _ => true
           | _, Some k => outside (tp_park s) k
           | _, None => false
           end
  end.

(** A step of the pool that moves no fiber inside the primitive. *)
Definition elsewhere_tp (l : pool_label) s : bool :=
  let m := tp_park s in
  match l with
  | CallStart | CallDestroy => false
  | CallSubmit c k => outside m k && free_thread s c
  | CallWaitIdle c | ClientStep c => free_thread s c
  | SpuriousWake _ => true
  | WorkerStep w =>
      match workers (tp_pool s) !! w with
      | Some WTake => match tasks (tp_pool s) with k :: _ => outside m k | [] => true end
      | Some (WRun k) => client_idle (tp_pool s) (thread_of w) &&
          (if tp_tail s w then match fb_worker (pk_fibers m k) with WNone => true | _ => false end
           else outside m k)
      | _ => true
      end
  end.

(** A worker returns from [Run]. *)
Definition leave_tail (l : pool_label) s : nat → bool :=
  match l with WorkerStep w => (tp_tail s)⟦w ↦ false⟧ | _ => tp_tail s end.

Definition tp_step (l : tp_label Op) s : option (tp_fibers D Op U) :=
  let p := tp_pool s in let m := tp_park s in
  match l with
  | TEnter w op =>
      f ← fiber_on s w;
      if client_idle p (thread_of w)
      then m' ← call_step f op m; Some (MkTpFibers p m' (tp_tail s))
      else None
  | TSubmit w =>
      f ← fiber_on s w;
      g ← next_wake (fb_pc (pk_fibers m f));
      p' ← submit_step p w g;
      Some (MkTpFibers p' m (tp_tail s))
  | TMove w =>
      f ← fiber_on s w;
      m' ← fiber_step f m;
      match next_wake (fb_pc (pk_fibers m f)) with
      | Some g => p' ← submit_push p w g; Some (MkTpFibers p' m' (tp_tail s))
      | None => Some (MkTpFibers p m' (tp_tail s)⟦w ↦ suspended (pk_fibers m' f)⟧)
      end
  | TAwait w => f ← await_on s w; m' ← AwaitSuspend_step f m; Some (MkTpFibers p m' (tp_tail s))
  | TTake w =>
      match workers p !! w, tasks p with
      | Some WTake, k :: _ =>
          m' ← resume_step false k m;
          p' ← pool_step (WorkerStep w) p;
          Some (MkTpFibers p' m' (tp_tail s)⟦w ↦ false⟧)
      | _, _ => None
      end
  | TElse l =>
      if elsewhere_tp l s then p' ← pool_step l p; Some (MkTpFibers p' m (leave_tail l s)) else None
  end.

Definition tp_system (n e : nat) : lts (tp_fibers D Op U) (tp_label Op) :=
  Lts (λ s, ∃ d, data0 d ∧ s = MkTpFibers (started_pool n e) (park_init d) (λ _, false)) tp_step.
End composition.

(** ** [Start] *)

Definition starting_pool (n e i : nat) (p : client_pc) : pool :=
  MkPool n 0 false [] (replicate i WStart) (wrap64 (Z.of_nat i)) (replicate i false)
    (p :: replicate (n + e) CIdle) [] [].

Lemma start_counts (p : pool) cs i : clients p = CCount i :: cs →
  client_step p 0 = Some (if decide (i < workers_count_ p)
    then set_client (set_count_workers p (sz_add (count_workers_ p) 1)) 0 (CSpawn i)
    else set_client p 0 CIdle).
Proof. intros E. unfold client_step. rewrite E. simpl. by case_decide. Qed.

Lemma start_spawns (p : pool) cs i : clients p = CSpawn i :: cs →
  client_step p 0 = Some (set_client (spawn p) 0 (CCount (S i))).
Proof. intros E. unfold client_step. by rewrite E. Qed.

Lemma start_loop n e i : i ≤ n →
  run (thread_pool n (S n + e)) (repeat (ClientStep 0) (i + i)) (starting_pool n e 0 (CCount 0)) =
  Some (starting_pool n e i (CCount i)).
Proof.
  induction i as [|i IH]; intros Hi; [done|].
  replace (S i + S i) with ((i + i) + 2) by lia. rewrite repeat_app, run_app, IH by lia. cbn [mbind option_bind].
  cbn [repeat run lts_step thread_pool pool_step].
  rewrite (start_counts _ (replicate (n + e) CIdle) i), decide_True by (done || simpl; lia). cbn [mbind option_bind].
  rewrite (start_spawns _ (replicate (n + e) CIdle) i) by done. cbn. rewrite sz_add_wrap.
  unfold starting_pool. rewrite !replicate_S_end. replace (Z.of_nat i + 1)%Z with (Z.of_nat (S i)) by lia.
  done.
Qed.

Definition beginning_pool (n e i : nat) : pool :=
  MkPool n 0 false [] (replicate i WTake ++ replicate (n - i) WStart) (wrap64 (Z.of_nat n))
    (replicate i true ++ replicate (n - i) false) (replicate (S n + e) CIdle) [] [].

Lemma lookup_turned {A} (a b : A) i k : (replicate i a ++ b :: k) !! i = Some b.
Proof. by induction i. Qed.

Lemma insert_turned {A} (a b : A) i k : <[i := a]> (replicate i a ++ b :: k) = replicate (S i) a ++ k.
Proof. induction i as [|i IH]; [done|]. simpl. by rewrite IH. Qed.

Lemma begin_loop n e i : i ≤ n →
  run (thread_pool n (S n + e)) (WorkerStep <$> seq 0 i) (beginning_pool n e 0) = Some (beginning_pool n e i).
Proof.
  induction i as [|i IH]; intros Hi; [done|]. rewrite seq_S, fmap_app, run_app, IH by lia.
  cbn [mbind option_bind fmap list_fmap run lts_step thread_pool pool_step]. unfold worker_step, beginning_pool.
  cbn [workers]. replace (n - i) with (S (n - S i)) by lia. cbn [replicate]. rewrite lookup_turned.
  cbn [mbind option_bind]. unfold set_worker, set_workers, set_current.
  cbn [workers_count_ count_tasks shutdown_ tasks workers count_workers_ CurrentPool clients submitted executed].
  rewrite !insert_turned. done.
Qed.

Lemma started_reachable n e : reachable (thread_pool n (S n + e)) (started_pool n e).
Proof.
  assert (reachable (thread_pool n (S n + e)) (beginning_pool n e 0)) as Hb.
  { apply (reachable_run (thread_pool n (S n + e)) (CallStart :: repeat (ClientStep 0) (n + n) ++ [ClientStep 0])
      (new_pool n (S n + e))); [by apply reachable_init|].
    change (run (thread_pool n (S n + e)) (repeat (ClientStep 0) (n + n) ++ [ClientStep 0])
      (starting_pool n e 0 (CCount 0)) = Some (beginning_pool n e 0)).
    rewrite run_app, start_loop by lia. cbn [mbind option_bind run lts_step thread_pool pool_step].
    rewrite (start_counts _ (replicate (n + e) CIdle) n), decide_False by (done || simpl; lia).
    unfold beginning_pool. by rewrite Nat.sub_0_r. }
  assert (started_pool n e = beginning_pool n e n) as ->.
  { unfold started_pool, beginning_pool. by rewrite Nat.sub_diag, !app_nil_r. }
  by apply (reachable_run _ (WorkerStep <$> seq 0 n) (beginning_pool n e 0)), begin_loop.
Qed.

(** ** What the composition keeps *)

Section refinement.
  Context {D Op U : Type} `{PrimitiveLaws D Op U} (n e : nat).
  Implicit Types (s : tp_fibers D Op U) (m : parking D Op U) (p : pool).

(** No client starts or destroys the pool, so the workers stay what they are. *)
Definition waits_or_submits (c : client_pc) : bool :=
  match c with CIdle | CCheck _ | CAdd _ | CPush _ | CTest | CBlock | CBlocked => true | _ => false end.

Definition tame p : Prop := ∀ c x, clients p !! c = Some x → waits_or_submits x = true.

Lemma tame_set p p' c x : tame p → clients p' = <[c := x]> (clients p) → waits_or_submits x = true → tame p'.
Proof.
  intros Ht E Hx d y. rewrite E. intros [(_ & <- & _)|[_ Hd]]%list_lookup_insert_Some; [done|by apply (Ht d)].
Qed.

Definition moves_worker (l : pool_label) : option nat := match l with WorkerStep w => Some w | _ => None end.

Lemma tame_worker p w p' : tame p → worker_step p w = Some p' → tame p' ∧
  length (workers p') = length (workers p) ∧ ∀ u, u ≠ w → workers p' !! u = workers p !! u.
Proof.
  intros Ht Hstep. unfold worker_step in Hstep. destruct (workers p !! w) as [x|] eqn:E; [|done]. simpl in Hstep.
  assert (∀ q y, workers q = workers p → length (workers (set_worker q w y)) = length (workers p) ∧
    ∀ u, u ≠ w → workers (set_worker q w y) !! u = workers p !! u) as Hw.
  { intros q y Eq. simpl. rewrite Eq. rewrite length_insert. split; [done|]. intros u Hu. by rewrite list_lookup_insert_ne. }
  destruct x; repeat case_match; simplify_eq; try (split; [exact Ht|by apply Hw]).
  - split; [|by apply Hw]. intros c y. simpl. rewrite list_lookup_fmap. intros (z & Hz%Ht & ->)%fmap_Some. by destruct z.
  - unfold notify_one. destruct (clients p !! 0) as [z|] eqn:Ez; [|split; [exact Ht|by apply Hw]].
    pose proof (Ht 0 z Ez). by destruct z; try done; (split; [exact Ht|by apply Hw]).
Qed.

Lemma tame_client p c p' : tame p → client_step p c = Some p' → tame p' ∧ workers p' = workers p.
Proof.
  intros Ht Hstep. unfold client_step in Hstep. destruct (clients p !! c) as [x|] eqn:E; [|done]. simpl in Hstep.
  pose proof (Ht c x E) as Hx. destruct x; try done; simplify_eq;
    (split; [|done]);
    (eapply (tame_set p _ c); [done|reflexivity|by repeat case_match]).
Qed.

Lemma tame_step p l p' : tame p → pool_step l p = Some p' → (l ≠ CallStart ∧ l ≠ CallDestroy) → tame p' ∧
  length (workers p') = length (workers p) ∧ ∀ u, moves_worker l ≠ Some u → workers p' !! u = workers p !! u.
Proof.
  intros Ht Hstep [Hl1 Hl2].
  assert (∀ c x, call p c x = Some p' → waits_or_submits x = true → tame p' ∧ workers p' = workers p) as Hcall.
  { intros c x Hc Hx. unfold call in Hc. destruct (clients p !! c) as [[]|]; simplify_eq. split; [|done].
    eapply (tame_set p _ c); [done|reflexivity|done]. }
  destruct l as [| |c k|c|c|c|w]; try done; simpl in Hstep |- *.
  - destruct (Hcall _ _ Hstep) as [? ->]; [done|]. done.
  - destruct (Hcall _ _ Hstep) as [? ->]; [done|]. done.
  - destruct (tame_client p c p' Ht Hstep) as [? ->]. done.
  - destruct (clients p !! c) as [x|] eqn:E; [|done]. pose proof (Ht c x E) as Hx. destruct x; simplify_eq/=.
    split; [|done]. eapply (tame_set p _ c); [done|reflexivity|done].
  - destruct (tame_worker p w p' Ht Hstep) as (? & ? & Ho). split_and!; [done..|]. intros u Hu. apply Ho. congruence.
Qed.

(** With one worker, the one inside [AwaitSuspend] is it. *)
Record tp_inv s : Prop := TpInv {
  ti_pool : reachable (thread_pool n (S n + e)) (tp_pool s);
  ti_park : reachable (parking_system (bool_decide (n ≤ 1))) (tp_park s);
  ti_tame : tame (tp_pool s);
  ti_workers : length (workers (tp_pool s)) = n;
  ti_tail : n ≤ 1 → ∀ f, fb_worker (pk_fibers (tp_park s) f) ≠ WNone →
    ∃ w, workers (tp_pool s) !! w = Some (WRun f) ∧ tp_tail s w = true
}.

Lemma one_worker s w u x y : tp_inv s → n ≤ 1 →
  workers (tp_pool s) !! w = Some x → workers (tp_pool s) !! u = Some y → w = u.
Proof.
  intros Hi Hn Hw%lookup_lt_Some Hu%lookup_lt_Some. rewrite (ti_workers _ Hi) in Hw, Hu. lia.
Qed.

(** The pool moves, without the worker. *)
Lemma inv_client s l p' : tp_inv s → pool_step l (tp_pool s) = Some p' → l ≠ CallStart → l ≠ CallDestroy →
  moves_worker l = None → tp_inv (MkTpFibers p' (tp_park s) (tp_tail s)).
Proof.
  intros [H1 H2 H3 H4 H5] Hstep Hl1 Hl2 Hm.
  destruct (tame_step _ l p' H3 Hstep) as (Ht & Hlen & Ho); [done|].
  split; simpl; [by apply (reachable_step _ l (tp_pool s))|done|done|congruence|].
  intros Hn f Hf. destruct (H5 Hn f Hf) as (w & Ew & Et). exists w. split; [|done]. rewrite Ho; [done|]. by rewrite Hm.
Qed.

(** The primitive moves. *)
Lemma tp_inv_park s l m' : tp_inv s → park_step (bool_decide (n ≤ 1)) l (tp_park s) = Some m' →
  (∀ f, fb_worker (pk_fibers m' f) ≠ WNone → fb_worker (pk_fibers (tp_park s) f) ≠ WNone) →
  tp_inv (MkTpFibers (tp_pool s) m' (tp_tail s)).
Proof.
  intros [H1 H2 H3 H4 H5] Hstep Hw.
  split; simpl; [done|by apply (reachable_step (parking_system (bool_decide (n ≤ 1))) l (tp_park s))|done|done|].
  intros Hn f Hf%Hw. by apply H5.
Qed.

(** Who is inside [AwaitSuspend], after the steps of the protocol. *)
Lemma fiber_step_worker m m' f : fiber_step f m = Some m' → ∀ g,
  fb_worker (pk_fibers m' g) = fb_worker (pk_fibers m g) ∨
  (g = f ∧ suspended (pk_fibers m' f) = true ∧ next_wake (fb_pc (pk_fibers m f)) = None).
Proof.
  intros Hstep g. unfold fiber_step in Hstep.
  destruct (fb_pc (pk_fibers m f)) as [|op|op|op|op [|x xs] o|op o|op o|op o|op [|x xs]|] eqn:E; simpl in Hstep;
    try (destruct (acquire f (pk_spin m)); simpl in Hstep); step_cases Hstep; simplify_eq; simpl;
    try (left; unfold upd; repeat case_decide; by subst).
  all: destruct (decide (g = f)) as [->|Hne]; [right; by rewrite upd_eq|left; by rewrite upd_ne].
Qed.

Lemma call_step_worker m m' f op : call_step f op m = Some m' → ∀ g,
  fb_worker (pk_fibers m' g) = fb_worker (pk_fibers m g).
Proof. unfold call_step. intros E g. step_cases E. simplify_eq/=. unfold upd. by case_decide; subst. Qed.

Lemma resume_step_worker b m m' f : resume_step b f m = Some m' → ∀ g,
  fb_worker (pk_fibers m' g) = fb_worker (pk_fibers m g).
Proof. unfold resume_step. intros E g. step_cases E. simplify_eq/=. unfold upd. by case_decide; subst. Qed.

Lemma await_step_worker m m' f : AwaitSuspend_step f m = Some m' → ∀ g,
  fb_worker (pk_fibers m' g) ≠ WNone → fb_worker (pk_fibers m g) ≠ WNone.
Proof.
  unfold AwaitSuspend_step. intros E g. destruct (fb_worker (pk_fibers m f)) eqn:Ef; step_cases E; simplify_eq/=;
    unfold upd; case_decide; subst; simpl; congruence.
Qed.

(** A resumed fiber has left [AwaitSuspend], if it must. *)
Lemma resume_affine (b : bool) m m' f : (b = true → fb_worker (pk_fibers m f) = WNone) →
  resume_step false f m = Some m' → resume_step b f m = Some m'.
Proof.
  unfold resume_step. intros Hb. destruct (fb_pc (pk_fibers m f)); try done.
  destruct (fb_scheduled (pk_fibers m f)); [done|]. simpl. destruct b; [|done]. by rewrite Hb.
Qed.

Lemma fiber_on_worker s w f : fiber_on s w = Some f → workers (tp_pool s) !! w = Some (WRun f) ∧ tp_tail s w = false.
Proof.
  unfold fiber_on. intros E. destruct (workers (tp_pool s) !! w) as [[]|]; try done. by destruct (tp_tail s w); simplify_eq.
Qed.

(** A fiber on the one worker: nobody is inside [AwaitSuspend]. *)
Lemma on_worker_none s w f g : tp_inv s → n ≤ 1 → fiber_on s w = Some f → fb_worker (pk_fibers (tp_park s) g) = WNone.
Proof.
  intros Hi Hn [Ew Et]%fiber_on_worker. destruct (decide (fb_worker (pk_fibers (tp_park s) g) = WNone)) as [|Hg]; [done|].
  destruct (ti_tail _ Hi Hn g Hg) as (u & Eu & Etu). rewrite (one_worker s w u _ _ Hi Hn Ew Eu) in Et. congruence.
Qed.

(** The worker returns from [Run]. *)
Lemma inv_worker s w p' : tp_inv s → pool_step (WorkerStep w) (tp_pool s) = Some p' →
  (∀ f, workers (tp_pool s) !! w = Some (WRun f) → tp_tail s w = true → fb_worker (pk_fibers (tp_park s) f) = WNone) →
  tp_inv (MkTpFibers p' (tp_park s) (tp_tail s)⟦w ↦ false⟧).
Proof.
  intros Hi Hstep Hw. pose proof Hi as [H1 H2 H3 H4 H5]. destruct (tame_step _ _ p' H3 Hstep) as (Ht & Hlen & Ho); [done|].
  split; simpl; [by apply (reachable_step _ (WorkerStep w) (tp_pool s))|done|done|congruence|].
  intros Hn f Hf. destruct (H5 Hn f Hf) as (u & Eu & Etu). exists u.
  assert (w ≠ u) as Hne by (intros ->; by destruct Hf; apply Hw). rewrite upd_ne by done.
  split; [|done]. rewrite Ho; [done|]. simpl. congruence.
Qed.

Lemma tp_step_inv l s s' : tp_inv s → tp_step l s = Some s' → tp_inv s'.
Proof.
  intros Hi Hstep. destruct l as [w op|w|w|w|w|l]; cbn [tp_step] in Hstep.
  - apply bind_Some in Hstep as (f & Ef & Hstep). destruct (client_idle _ _); [|done].
    apply bind_Some in Hstep as (m' & Em & [= <-]). apply (tp_inv_park s (CallOp f op) m' Hi Em).
    intros g. by rewrite (call_step_worker _ _ _ _ Em).
  - apply bind_Some in Hstep as (f & Ef & Hstep). apply bind_Some in Hstep as (g & Eg & Hstep).
    apply bind_Some in Hstep as (p' & Ep & [= <-]). unfold submit_step in Ep.
    destruct (clients (tp_pool s) !! thread_of w) as [[]|]; try done; by eapply (inv_client s); [|exact Ep|..].
  - apply bind_Some in Hstep as (f & Ef & Hstep). apply bind_Some in Hstep as (m' & Em & Hstep).
    pose proof (fiber_step_worker _ _ _ Em) as Hw.
    destruct (next_wake _) as [g|] eqn:Eg.
    + apply bind_Some in Hstep as (p' & Ep & [= <-]).
      assert (tp_inv (MkTpFibers (tp_pool s) m' (tp_tail s))) as Hi'.
      { apply (tp_inv_park s (FiberStep f) m' Hi Em). intros x. destruct (Hw x) as [->|(_ & _ & ?)]; done. }
      unfold submit_push in Ep. destruct (clients (tp_pool s) !! thread_of w) as [[]|]; try done. case_decide; [|done].
      by apply (inv_client _ (ClientStep (thread_of w)) p' Hi').
    + injection Hstep as <-. pose proof Hi as [H1 H2 H3 H4 H5]. destruct (fiber_on_worker _ _ _ Ef) as [Ew Et].
      split; simpl; [done|by apply (reachable_step (parking_system _) (FiberStep f) (tp_park s))|done|done|].
      intros Hn x Hx. destruct (Hw x) as [E|(-> & Hs & _)].
      * rewrite E in Hx. by rewrite (on_worker_none s w f x Hi Hn Ef) in Hx.
      * exists w. by rewrite upd_eq.
  - apply bind_Some in Hstep as (f & Ef & Hstep). apply bind_Some in Hstep as (m' & Em & [= <-]).
    apply (tp_inv_park s (Parking.WorkerStep f) m' Hi Em). by apply (await_step_worker _ _ f).
  - destruct (workers (tp_pool s) !! w) as [[]|] eqn:Ew; try done. destruct (tasks (tp_pool s)) as [|k ks]; [done|].
    apply bind_Some in Hstep as (m' & Em & Hstep). apply bind_Some in Hstep as (p' & Ep & [= <-]).
    assert (tp_inv (MkTpFibers (tp_pool s) m' (tp_tail s))) as Hi'.
    { apply (tp_inv_park s (Resume k) m' Hi); [|intros x; by rewrite (resume_step_worker _ _ _ _ Em)].
      apply resume_affine; [|done]. intros Hn%bool_decide_eq_true.
      destruct (decide (fb_worker (pk_fibers (tp_park s) k) = WNone)) as [|Hk]; [done|].
      destruct (ti_tail _ Hi Hn k Hk) as (u & Eu & _). rewrite (one_worker s w u _ _ Hi Hn Ew Eu) in Ew. congruence. }
    apply (inv_worker _ w p' Hi' Ep). simpl. congruence.
  - destruct (elsewhere_tp l s) eqn:El; [|done]. apply bind_Some in Hstep as (p' & Ep & [= <-]).
    destruct l as [| |c k|c|c|c|w]; try done; simpl; try (by eapply (inv_client s); [|exact Ep|..]).
    apply (inv_worker s w p' Hi Ep). intros f Ew Et. simpl in El. rewrite Ew, Et in El.
    apply andb_prop in El as [_ El]. by destruct (fb_worker _).
Qed.
End refinement.

Lemma tp_invariant {D Op U} `{PrimitiveLaws D Op U} n e : invariant (tp_system n e) (tp_inv n e).
Proof.
  apply invariant_intro; [|by intros l s s'; apply tp_step_inv].
  intros s (d & Hd & ->). split; simpl; [apply started_reachable|apply reachable_init; by exists d| | |done].
  - intros c x [-> _]%lookup_replicate. done.
  - apply length_replicate.
Qed.

(** C13: the fiber primitives on the thread pool.  Whatever the workers, the fibers and the
    other clients do, the pool does what IntrusivePool.v says and the primitive goes
    through its protocol: with the assumption [affine] if the pool has one worker, so
    that no spinlock is released twice, no worker is inside [AwaitSuspend] for a fiber
    that runs, and the spinlock is held by at most one fiber. *)
Theorem thread_pool_fibers {D Op U} `{PrimitiveLaws D Op U} n e (s : tp_fibers D Op U) :
  reachable (tp_system n e) s →
  reachable (thread_pool n (S n + e)) (tp_pool s) ∧
  reachable (parking_system (bool_decide (n ≤ 1))) (tp_park s) ∧
  (n ≤ 1 → ∀ f, fb_pc (pk_fibers (tp_park s) f) ≠ Broken ∧
    (∀ w, fiber_on s w = Some f → fb_worker (pk_fibers (tp_park s) f) = WNone) ∧
    ∀ g, holds_spin (pk_fibers (tp_park s) f) = true → holds_spin (pk_fibers (tp_park s) g) = true → f = g).
Proof.
  intros Hr. pose proof (tp_invariant n e s Hr) as Hi. split_and!; [apply Hi..|]. intros Hn f.
  pose proof (ti_park _ _ _ Hi) as Hp. rewrite bool_decide_true in Hp by done.
  pose proof (park_invariant _ Hp) as Hm. split_and!.
  - intros E. pose proof (pi_fiber _ Hm f) as [Hok _]. by rewrite E in Hok.
  - intros w Hw. by apply (on_worker_none n e s w f).
  - intros g Hf%(pi_spin _ Hm) Hg%(pi_spin _ Hm). congruence.
Qed.

(** ** The fiber mutex on the thread pool *)

Abbreviation tp_mutex := (tp_fibers bool mutex_op bool).

Definition new_tp_mutex (n : nat) : tp_mutex := MkTpFibers (started_pool n 0) (park_init false) (λ _, false).

(** The owner submits [f], and worker [w] takes it, or leaves it. *)
Definition submitted_by_owner (f : task) : list (tp_label mutex_op) :=
  TElse (CallSubmit 0 f) :: repeat (TElse (ClientStep 0)) 3.

Definition pool_moves (w n : nat) : list (tp_label mutex_op) := repeat (TElse (WorkerStep w)) n.

(** An operation without a waiter, and one that wakes a waiter in its guard's destructor. *)
Definition uncontended (w : nat) (op : mutex_op) : list (tp_label mutex_op) := TEnter w op :: repeat (TMove w) 7.

Definition handing_over (w : nat) : list (tp_label mutex_op) :=
  TEnter w Unlock :: repeat (TMove w) 6 ++ repeat (TSubmit w) 3 ++ repeat (TMove w) 2.

Definition tp_after (n : nat) (tr : list (tp_label mutex_op)) : tp_mutex :=
  default (new_tp_mutex n) (run (tp_system n 0) tr (new_tp_mutex n)).

(** On one worker, fiber 0 has the mutex and leaves the worker; fiber 1 suspends; fiber 0
    comes back and hands the mutex over, and fiber 1 resumes. *)
Definition one_worker_schedule : list (tp_label mutex_op) :=
  submitted_by_owner 0 ++ pool_moves 0 1 ++ uncontended 0 Lock ++ submitted_by_owner 1 ++ submitted_by_owner 0 ++
  pool_moves 0 4 ++ [TEnter 0 Lock; TMove 0; TMove 0; TAwait 0; TAwait 0; TAwait 0] ++ pool_moves 0 4 ++
  handing_over 0 ++ pool_moves 0 3 ++ [TTake 0; TMove 0; TMove 0].

Lemma thread_pool_fibers_witness :
  in_critical_section (tp_park (tp_after 1 one_worker_schedule)) 1 ∧
  reachable (parking_system true) (tp_park (tp_after 1 one_worker_schedule)) ∧
  fb_pc (pk_fibers (tp_park (tp_after 1 one_worker_schedule)) 1) ≠ Broken.
Proof.
  destruct (thread_pool_fibers 1 0 (tp_after 1 one_worker_schedule)) as (_ & Hp & Hn).
  - apply (run_reachable (tp_system 1 0)); [by exists false|]. apply is_Some_alt. vm_compute. exact I.
  - split; [vm_compute; auto|]. split; [exact Hp|]. by apply Hn.
Defined.

(** With two workers, as in example/workload/mutex, which has four: worker 0 takes fiber 1,
    which has just been given the mutex, while worker 1 is still between the two stores
    of [guard.Release()].  The destructor of the guard releases the spinlock again. *)
Definition two_workers_schedule : list (tp_label mutex_op) :=
  submitted_by_owner 0 ++ submitted_by_owner 1 ++ pool_moves 0 1 ++ pool_moves 1 1 ++
  uncontended 0 Lock ++ [TEnter 1 Lock; TMove 1; TMove 1; TAwait 1; TAwait 1] ++
  handing_over 0 ++ pool_moves 0 3 ++ [TTake 0; TMove 0; TMove 0].

Lemma thread_pool_double_release : ∃ s : tp_mutex,
  reachable (tp_system 2 0) s ∧ fb_pc (pk_fibers (tp_park s) 1) = Broken.
Proof.
  exists (tp_after 2 two_workers_schedule). split; [|vm_compute; reflexivity].
  apply (run_reachable (tp_system 2 0)); [by exists false|]. apply is_Some_alt. vm_compute. exact I.
Qed.
