(* ===== verification/PoolObjects.v ===== *)
(** * Two primitives on the distributed pool

    Fibers that use two primitives, as the composition of PoolFibers.v twice over one
    pool: what one primitive does to the pool is, for the other, a step elsewhere. *)

From stdpp Require Import prelude list gmap.
From S2P Require Import Prelude.
From S2P Require Import Parking.
From S2P Require Import DistributedPool.
From S2P Require Import PoolFibers.

Record pool_objects (D1 Op1 U1 D2 Op2 U2 : Type) := MkPoolObjects {
  px_pool : dpool;
  px_one : parking D1 Op1 U1;
  px_two : parking D2 Op2 U2
}.
Arguments MkPoolObjects {D1 Op1 U1 D2 Op2 U2} _ _ _.
Arguments px_pool {D1 Op1 U1 D2 Op2 U2} _.
Arguments px_one {D1 Op1 U1 D2 Op2 U2} _.
Arguments px_two {D1 Op1 U1 D2 Op2 U2} _.

Inductive px_label (Op1 Op2 : Type) :=
| One (l : pf_label Op1)
| Two (l : pf_label Op2)
| Neither (l : dist_label).
Arguments One {Op1 Op2} _.
Arguments Two {Op1 Op2} _.
Arguments Neither {Op1 Op2} _.

(** A fiber enters an operation when it is in none; the rest of [l] is a primitive's own. *)
Definition may_enter {Op D' Op' U'} (l : pf_label Op) (p : dpool) (m' : parking D' Op' U') : bool :=
  match l with
  | Enter w _ => match on_stack p w with Some f => outside m' f | None => false end
  | Elsewhere _ => false
  | _ => true
  end.

(** No fiber is inside both. *)
Definition apart {D Op U D' Op' U'} (m : parking D Op U) (m' : parking D' Op' U') : Prop :=
  ∀ f, outside m f = true ∨ outside m' f = true.

Section bystander.
  Context {D Op U : Type} `{PrimitiveLaws D Op U} {D' Op' U' : Type} `{PrimitiveLaws D' Op' U'}.
  Implicit Types (m : parking D Op U) (n : parking D' Op' U').

Lemma apart_outside m n f : apart m n → fb_pc (pk_fibers m f) ≠ Out → outside n f = true.
Proof. intros Ha Hf. destruct (Ha f) as [Ho%outside_out|]; done. Qed.

Lemma apart_suspended m n f : apart m n → suspended (pk_fibers m f) = true → outside n f = true.
Proof. intros Ha Hs. apply (apart_outside m n f Ha). unfold suspended in Hs. by destruct (fb_pc (pk_fibers m f)). Qed.

Lemma call_step_pc m m' f op : call_step f op m = Some m' → ∀ g, g ≠ f → pk_fibers m' g = pk_fibers m g.
Proof. unfold call_step. intros E g Hg. step_cases E. simplify_eq/=. by rewrite upd_ne. Qed.

Lemma resume_step_pc m m' f b : resume_step b f m = Some m' →
  (∃ op, fb_pc (pk_fibers m f) = Susp op ∧ fb_pc (pk_fibers m' f) = Dtor op []) ∧
  fb_scheduled (pk_fibers m f) ≠ 0 ∧ fb_client (pk_fibers m' f) = fb_client (pk_fibers m f) ∧
  pk_data m' = pk_data m ∧ ∀ g, g ≠ f → pk_fibers m' g = pk_fibers m g.
Proof.
  unfold resume_step. intros E. destruct (fb_pc (pk_fibers m f)) as [| | |op| | | | | |]; try done.
  destruct (fb_scheduled (pk_fibers m f)); [done|]. destruct (_ || _); simplify_eq/=. rewrite upd_eq.
  split; [by exists op|]. split_and!; [done..|]. intros g Hg. by rewrite upd_ne.
Qed.

Lemma resume_step_suspended m m' f b : resume_step b f m = Some m' → suspended (pk_fibers m f) = true.
Proof. intros ((op & E & _) & _)%resume_step_pc. unfold suspended. by rewrite E. Qed.

(** A step of the primitive takes no fiber into an operation, but the one that enters. *)
Lemma step_outside p m l p' m' f : pf_inv (MkPoolFibers p m) →
  pf_step l (MkPoolFibers p m) = Some (MkPoolFibers p' m') → outside m f = true →
  outside m' f = true ∨ ∃ w op, l = Enter w op ∧ on_stack p w = Some f.
Proof.
  intros Hi Hstep Hf. pose proof (pf_park_inv _ Hi) as Hm. simpl in Hm. apply outside_out in Hf as E.
  destruct l as [w op|w|w|w|w b|l]; cbn [pf_step] in Hstep.
  - apply bind_Some in Hstep as (g & Eg & Hstep). apply bind_Some in Hstep as (m1 & Em & [= <- <-]).
    destruct (decide (f = g)) as [->|Hne]; [right; by exists w, op|left].
    unfold outside. by rewrite (call_step_pc m m1 g op Em f Hne), E.
  - apply bind_Some in Hstep as (g & Eg & Hstep). apply bind_Some in Hstep as (m1 & Em & Hstep).
    apply bind_Some in Hstep as (p1 & _ & [= <- <-]). left.
    destruct (decide (f = g)) as [->|Hne]; [unfold fiber_step in Em; by rewrite E in Em|].
    unfold outside. rewrite (fiber_step_others m m1 g f Hm Em Hne). case_decide; simpl; by rewrite E.
  - apply bind_Some in Hstep as (g & Eg & Hstep). apply bind_Some in Hstep as (h & Em & Hstep).
    apply bind_Some in Hstep as (p1 & _ & [= <- <-]). by left.
  - apply bind_Some in Hstep as (g & Eg & Hstep). apply bind_Some in Hstep as (m1 & Em & [= <- <-]).
    destruct (await_step_effect m m1 g Hm Em) as (Hs & _ & [_ Ho] & _). left.
    destruct (decide (f = g)) as [->|Hne]; [unfold suspended in Hs; by rewrite E in Hs|].
    unfold outside. by rewrite Ho, E.
  - destruct (wk_pc (dworkers p w)); try done. destruct (local_tasks (dworkers p w)) as [|g ks]; [done|].
    apply bind_Some in Hstep as (m1 & Em & Hstep). apply bind_Some in Hstep as (p1 & _ & [= <- <-]).
    destruct (resume_step_pc m m1 g false Em) as ((op & Es & _) & _ & _ & _ & Ho). left.
    destruct (decide (f = g)) as [->|Hne]; [congruence|].
    unfold outside. by rewrite Ho, E.
  - destruct (elsewhere l _); [|done]. apply bind_Some in Hstep as (p1 & _ & [= <- <-]). by left.
Qed.

(** The other primitive sees a step of the pool that does not concern it, or nothing. *)
Lemma bystander p m n l p' m' : pf_inv (MkPoolFibers p m) → apart m n → may_enter l p n = true →
  pf_step l (MkPoolFibers p m) = Some (MkPoolFibers p' m') →
  p' = p ∨ ∃ l', pf_step (Elsewhere l') (MkPoolFibers p n) = Some (MkPoolFibers p' n).
Proof.
  intros Hi Ha Hen Hstep. pose proof (pf_park_inv _ Hi) as Hm. simpl in Hm.
  assert (∀ l', elsewhere l' (MkPoolFibers p n) = true → dist_step l' p = Some p' →
    ∃ l', pf_step (Elsewhere l') (MkPoolFibers p n) = Some (MkPoolFibers p' n)) as Hby.
  { intros l' He E. exists l'. cbn [pf_step]. by rewrite He, E. }
  destruct l as [w op|w|w|w|w b|l]; cbn [pf_step] in Hstep; [| | | | |done].
  - apply bind_Some in Hstep as (g & Eg & Hstep). apply bind_Some in Hstep as (m1 & Em & [= <- <-]). by left.
  - apply bind_Some in Hstep as (g & Eg & Hstep). apply bind_Some in Hstep as (m1 & Em & Hstep).
    apply bind_Some in Hstep as (p1 & Ep & [= <- <-]).
    destruct (next_wake (fb_pc (pk_fibers m g))) as [h|] eqn:Eh.
    + right. apply (Hby (Route h)); [|done]. destruct (next_wake_parked m g h Hm Eh) as [[Hs _] _].
      by apply (apart_suspended m n).
    + destruct (suspended (pk_fibers m1 g)); [|by left; simplify_eq].
      right. apply (Hby (Suspended w)); [|done]. simpl. rewrite Eg. apply (apart_outside m n g Ha).
      intros E. unfold fiber_step in Em. by rewrite E in Em.
  - apply bind_Some in Hstep as (g & Eg & Hstep). apply bind_Some in Hstep as (h & Eh & Hstep).
    apply bind_Some in Hstep as (p1 & Ep & [= <- <-]). right. apply (Hby (CallSubmit h)); [|done].
    destruct (next_wake_parked m g h Hm Eh) as [[Hs _] _]. by apply (apart_suspended m n).
  - apply bind_Some in Hstep as (g & Eg & Hstep). apply bind_Some in Hstep as (m1 & Em & [= <- <-]). by left.
  - destruct (wk_pc (dworkers p w)) eqn:Ew; try done.
    destruct (local_tasks (dworkers p w)) as [|g ks] eqn:Eq; [done|].
    apply bind_Some in Hstep as (m1 & Em & Hstep). apply bind_Some in Hstep as (p1 & Ep & [= <- <-]).
    right. apply (Hby (Step w b)); [|done]. simpl. rewrite Ew, Eq. apply (apart_suspended m n g Ha).
    by apply (resume_step_suspended m m1 g false).
Qed.
End bystander.

Section objects.
  Context {D1 Op1 U1 : Type} `{PrimitiveLaws D1 Op1 U1} {D2 Op2 U2 : Type} `{PrimitiveLaws D2 Op2 U2}.
  Implicit Types (s : pool_objects D1 Op1 U1 D2 Op2 U2).

Definition px_step (l : px_label Op1 Op2) s : option (pool_objects D1 Op1 U1 D2 Op2 U2) :=
  let '(MkPoolObjects p m n) := s in
  match l with
  | One l =>
      if may_enter l p n then s' ← pf_step l (MkPoolFibers p m); Some (MkPoolObjects (pf_pool s') (pf_park s') n)
      else None
  | Two l =>
      if may_enter l p m then s' ← pf_step l (MkPoolFibers p n); Some (MkPoolObjects (pf_pool s') m (pf_park s'))
      else None
  | Neither l =>
      if elsewhere l (MkPoolFibers p m) && elsewhere l (MkPoolFibers p n)
      then p' ← dist_step l p; Some (MkPoolObjects p' m n)
      else None
  end.

Definition px_system : lts (pool_objects D1 Op1 U1 D2 Op2 U2) (px_label Op1 Op2) :=
  Lts (λ s, ∃ d1 d2, data0 d1 ∧ data0 d2 ∧ s = MkPoolObjects new_dpool (park_init d1) (park_init d2)) px_step.

Definition px_left s : pool_fibers D1 Op1 U1 := MkPoolFibers (px_pool s) (px_one s).
Definition px_right s : pool_fibers D2 Op2 U2 := MkPoolFibers (px_pool s) (px_two s).

(** Each primitive is alone on the pool, as far as it can tell. *)
Record px_inv s : Prop := PxInv {
  px_one_ok : reachable pf_system (px_left s);
  px_two_ok : reachable pf_system (px_right s);
  px_apart : apart (px_one s) (px_two s)
}.

Lemma px_step_inv l s s' : px_inv s → px_step l s = Some s' → px_inv s'.
Proof.
  destruct s as [p m n]. intros [Hr1 Hr2 Ha] Hstep. unfold px_left, px_right in Hr1, Hr2. simpl in Hr1, Hr2, Ha.
  pose proof (pf_invariant _ Hr1) as Hi1. pose proof (pf_invariant _ Hr2) as Hi2.
  destruct l as [l|l|l]; cbn [px_step] in Hstep.
  - destruct (may_enter l p n) eqn:He; [|done].
    apply bind_Some in Hstep as ([p' m'] & E & [= <-]). split; unfold px_left, px_right; simpl.
    + by apply (reachable_step pf_system l (MkPoolFibers p m)).
    + destruct (bystander p m n l p' m' Hi1 Ha He E) as [->|[l' E']]; [done|].
      by apply (reachable_step pf_system (Elsewhere l') (MkPoolFibers p n)).
    + intros f. destruct (Ha f) as [Hf|Hf]; [|by right].
      destruct (step_outside p m l p' m' f Hi1 E Hf) as [?|(w & op & -> & Ew)]; [by left|].
      right. simpl in He. by rewrite Ew in He.
  - destruct (may_enter l p m) eqn:He; [|done].
    apply bind_Some in Hstep as ([p' n'] & E & [= <-]). split; unfold px_left, px_right; simpl.
    + assert (apart n m) as Ha' by (intros f; destruct (Ha f); auto).
      destruct (bystander p n m l p' n' Hi2 Ha' He E) as [->|[l' E']]; [done|].
      by apply (reachable_step pf_system (Elsewhere l') (MkPoolFibers p m)).
    + by apply (reachable_step pf_system l (MkPoolFibers p n)).
    + intros f. destruct (Ha f) as [Hf|Hf]; [by left|].
      destruct (step_outside p n l p' n' f Hi2 E Hf) as [?|(w & op & -> & Ew)]; [by right|].
      left. simpl in He. by rewrite Ew in He.
  - destruct (elsewhere l (MkPoolFibers p m)) eqn:E1, (elsewhere l (MkPoolFibers p n)) eqn:E2; try done.
    apply bind_Some in Hstep as (p' & E & [= <-]). split; unfold px_left, px_right; simpl; [..|done].
    + apply (reachable_step pf_system (Elsewhere l) (MkPoolFibers p m)); [done|].
      cbn [lts_step pf_system pf_step]. by rewrite E1, E.
    + apply (reachable_step pf_system (Elsewhere l) (MkPoolFibers p n)); [done|].
      cbn [lts_step pf_system pf_step]. by rewrite E2, E.
Qed.

Lemma px_invariant : invariant px_system px_inv.
Proof.
  apply invariant_intro; [|by intros l s s'; apply px_step_inv].
  intros s (d1 & d2 & Hd1 & Hd2 & ->). split; [apply reachable_init; by eexists..|by left].
Qed.

(** The steps, taken apart. *)
Lemma px_neither_step l s s' : px_step (Neither l) s = Some s' →
  dist_step l (px_pool s) = Some (px_pool s') ∧ px_one s' = px_one s ∧ px_two s' = px_two s ∧
  elsewhere l (px_left s) = true ∧ elsewhere l (px_right s) = true.
Proof.
  destruct s as [p m n]. cbn [px_step]. unfold px_left, px_right. cbn [px_pool px_one px_two].
  destruct (elsewhere l (MkPoolFibers p m)), (elsewhere l (MkPoolFibers p n)); try done.
  by intros (p' & E & [= <-])%bind_Some.
Qed.

Lemma px_one_step l s s' : px_step (One l) s = Some s' →
  may_enter l (px_pool s) (px_two s) = true ∧ pf_step l (px_left s) = Some (px_left s') ∧ px_two s' = px_two s.
Proof.
  destruct s as [p m n]. cbn [px_step]. unfold px_left. cbn [px_pool px_one px_two].
  destruct (may_enter l p n); [|done]. by intros ([p' m'] & E & [= <-])%bind_Some.
Qed.

Lemma px_two_step l s s' : px_step (Two l) s = Some s' →
  may_enter l (px_pool s) (px_one s) = true ∧ pf_step l (px_right s) = Some (px_right s') ∧ px_one s' = px_one s.
Proof.
  destruct s as [p m n]. cbn [px_step]. unfold px_right. cbn [px_pool px_one px_two].
  destruct (may_enter l p m); [|done]. by intros ([p' m'] & E & [= <-])%bind_Some.
Qed.

Lemma may_enter_own {Op D' Op' U'} (l : pf_label Op) p (m' : parking D' Op' U') :
  may_enter l p m' = true → ∀ l', l ≠ Elsewhere l'.
Proof. by intros E l' ->. Qed.
(** A step of one of them is a step of the composition. *)
Lemma px_one_enabled l s : may_enter l (px_pool s) (px_two s) = true →
  is_Some (pf_step l (px_left s)) → is_Some (px_step (One l) s).
Proof. destruct s as [p m n]. unfold px_left. cbn [px_step px_pool px_one px_two]. intros -> [s' ->]. by eexists. Qed.

Lemma px_two_enabled l s : may_enter l (px_pool s) (px_one s) = true →
  is_Some (pf_step l (px_right s)) → is_Some (px_step (Two l) s).
Proof. destruct s as [p m n]. unfold px_right. cbn [px_step px_pool px_one px_two]. intros -> [s' ->]. by eexists. Qed.

Lemma px_neither_enabled l s : elsewhere l (px_left s) = true → elsewhere l (px_right s) = true →
  is_Some (dist_step l (px_pool s)) → is_Some (px_step (Neither l) s).
Proof.
  destruct s as [p m n]. unfold px_left, px_right. cbn [px_step px_pool px_one px_two].
  intros -> -> [p' ->]. by eexists.
Qed.
End objects.
