(* ===== verification/PoolWorkload.v ===== *)
(** * The workload on the distributed pool

    The routines of example/workload/pool (those of bench/bench_pool.cpp are the same) on
    the executor they use: fiber 0 adds [kTasks] to a wait group, starts fibers 1 to
    [kTasks], each of which increments a counter under the fiber mutex and reports to the
    group, waits, and asserts that the counter is [kTasks].  Any worker takes the next
    step; a fiber's accesses to the counter are steps of their own.

    The counter here is one that outlives the fibers.  The programs' counters are local
    variables: PoolProgram.v, which adds the main thread to these steps, says of each
    access whether the variable still exists. *)

From stdpp Require Import prelude list gmap.
From S2P Require Import Prelude.
From S2P Require Import Parking.
From S2P Require Import AsyncMutex.
From S2P Require Import WaitGroup.
From S2P Require Import DistributedPool.
From S2P Require Import PoolFibers.
From S2P Require Import PoolObjects.

(** Where a fiber is in its routine, between or at the calls of operations. *)
Inductive routine_pc :=
| Adding              (** [wg.Add(kTasks)] *)
| Starting (i : nat)  (** the loop's condition, and the first half of [Go] *)
| Routing (i : nat)   (** [Go]: the push of the new fiber *)
| Waiting             (** [wg.Wait()] *)
| Checking            (** [assert(counter == kTasks)] *)
| Checked
| Failed
| Locking             (** [std::lock_guard lock(mutex)] *)
| Reading             (** [counter++] *)
| Writing (v : Z)
| Unlocking           (** the end of the guard's block *)
| Reporting           (** [wg.Done()] *)
| Reported.

Abbreviation objects := (pool_objects bool mutex_op bool Z wg_op unit).

Record work := MkWork {
  wl_objects : objects;
  wl_counter : Z;
  wl_pc : tid → routine_pc
}.

Abbreviation wl_pool s := (px_pool (wl_objects s)).
Abbreviation wl_mutex s := (px_one (wl_objects s)).
Abbreviation wl_group s := (px_two (wl_objects s)).

Inductive work_label :=
| PoolMoves (l : dist_label)        (** the workers' loops, and [main] *)
| InMutex (l : pf_label mutex_op)
| InGroup (l : pf_label wg_op)
| OwnCode (w : wid)                 (** the code of the fiber on [w] between operations *)
| Return (w : wid).                 (** the routine of the fiber on [w] ends *)

(** The number of tasks, a constant of the program. *)
Class Tasks := kTasks : nat.

Section workload.
  Context {T : Tasks}.
  Implicit Types (s : work).

Definition mutex_call (p : routine_pc) : option mutex_op :=
  match p with Locking => Some Lock | Unlocking => Some Unlock | _ => None end.

Definition group_call (p : routine_pc) : option wg_op :=
  match p with
  | Adding => Some (Add (Z.of_nat kTasks)) | Waiting => Some Wait | Reporting => Some Done
  | _ => None
  end.

(** After the operation. *)
Definition after_call (p : routine_pc) : routine_pc :=
  match p with
  | Adding => Starting 0 | Waiting => Checking
  | Locking => Reading | Unlocking => Reporting | Reporting => Reported
  | _ => p
  end.

(** A fiber calls the operation at which it is. *)
Definition calls {Op} `{EqDecision Op} (call : routine_pc → option Op) (l : pf_label Op) s : bool :=
  match l with
  | Enter w op => match on_stack (wl_pool s) w with
                  | Some f => bool_decide (call (wl_pc s f) = Some op)
                  | None => false
                  end
  | _ => true
  end.

(** The operation returns with the last step of the fiber in it. *)
Definition returns {D Op U} (l : pf_label Op) (m : parking D Op U) s : tid → routine_pc :=
  match l with
  | Move w => match on_stack (wl_pool s) w with
              | Some f => if outside m f then (wl_pc s)⟦f ↦ after_call (wl_pc s f)⟧ else wl_pc s
              | None => wl_pc s
              end
  | _ => wl_pc s
  end.

(** What moves besides the fibers' routines: [main] starts fiber 0. *)
Definition main_or_loop (l : dist_label) s : bool :=
  match l with
  | CallSubmit k => bool_decide (k = 0 ∧ tk_state (dtasks (wl_pool s) 0) = PLANNED)
  | Route k => bool_decide (k = 0)
  | Suspended _ | Finished _ => false
  | _ => true
  end.

Definition own_code (f : tid) s : option work :=
  let at_pc p := (wl_pc s)⟦f ↦ p⟧ in
  match wl_pc s f with
  | Starting i =>
      if decide (i < kTasks)
      then o ← px_step (Neither (CallSubmit (S i))) (wl_objects s);
        Some (MkWork o (wl_counter s) (at_pc (Routing i)))
      else Some (MkWork (wl_objects s) (wl_counter s) (at_pc Waiting))
  | Routing i =>
      o ← px_step (Neither (Route (S i))) (wl_objects s);
      Some (MkWork o (wl_counter s) (at_pc (Starting (S i))))
  | Checking =>
      Some (MkWork (wl_objects s) (wl_counter s)
        (at_pc (if decide (wl_counter s = Z.of_nat kTasks) then Checked else Failed)))
  | Reading => Some (MkWork (wl_objects s) (wl_counter s) (at_pc (Writing (wl_counter s))))
  | Writing v => Some (MkWork (wl_objects s) (sz_add v 1) (at_pc Unlocking))
  | _ => None
  end.

Definition finished (p : routine_pc) : bool := match p with Checked | Reported => true | _ => false end.

Definition work_step (l : work_label) s : option work :=
  match l with
  | PoolMoves l =>
      if main_or_loop l s
      then o ← px_step (Neither l) (wl_objects s); Some (MkWork o (wl_counter s) (wl_pc s))
      else None
  | InMutex l =>
      if calls mutex_call l s
      then o ← px_step (One l) (wl_objects s); Some (MkWork o (wl_counter s) (returns l (px_one o) s))
      else None
  | InGroup l =>
      if calls group_call l s
      then o ← px_step (Two l) (wl_objects s); Some (MkWork o (wl_counter s) (returns l (px_two o) s))
      else None
  | OwnCode w =>
      f ← on_stack (wl_pool s) w;
      if outside (wl_mutex s) f && outside (wl_group s) f then own_code f s else None
  | Return w =>
      f ← on_stack (wl_pool s) w;
      if finished (wl_pc s f)
      then o ← px_step (Neither (Finished w)) (wl_objects s); Some (MkWork o (wl_counter s) (wl_pc s))
      else None
  end.

Definition new_work : work :=
  MkWork (MkPoolObjects new_dpool (park_init false) (park_init 0%Z)) 0
    (λ f, if decide (f = 0) then Adding else Locking).

Definition work_system : lts work work_label := Lts (λ s, s = new_work) work_step.

(** ** What the objects know of the routines *)

(** A fiber is inside the operation its routine is at, and the client of an object is in
    the state that the routine says. *)
Definition agrees {Op U} (call : routine_pc → option Op) (client : routine_pc → U)
    (p : routine_pc) (fb : fiber Op U) : Prop :=
  (∀ op, pc_op (fb_pc fb) = Some op → call p = Some op) ∧ fb_client fb = client p.

Section one_object.
  Context {D Op U : Type} `{PrimitiveLaws D Op U} `{EqDecision Op}.
  Context (call : routine_pc → option Op) (client : routine_pc → U).
  Context (call_after : ∀ p op, call p = Some op → client_after op (client p) = client (after_call p)).
  Implicit Types (m : parking D Op U).

Lemma agrees_pc p fb fb' : pc_op (fb_pc fb') = pc_op (fb_pc fb) → fb_client fb' = fb_client fb →
  agrees call client p fb → agrees call client p fb'.
Proof. intros E1 E2 [Ho Hc]. split; [intros op; rewrite E1; auto|congruence]. Qed.

Lemma inside_pc m f op : pc_op (fb_pc (pk_fibers m f)) = Some op → outside m f = false.
Proof. unfold outside. by destruct (fb_pc (pk_fibers m f)). Qed.

(** The fiber that moves, and the others. *)
Lemma move_agrees m m1 g s : park_inv m → fiber_step g m = Some m1 → park_inv m1 →
  (∀ f, agrees call client (wl_pc s f) (pk_fibers m f)) → ∀ f,
  agrees call client ((if outside m1 g then (wl_pc s)⟦g ↦ after_call (wl_pc s g)⟧ else wl_pc s) f) (pk_fibers m1 f).
Proof.
  intros Hm Em Hm1 Ha f. destruct (decide (f = g)) as [->|Hne].
  - specialize (Ha g). destruct (fiber_step_kinds g m m1 Hm Em Hm1) as
      [(op & E1 & E2 & _ & Ec)|[(op & d & ws & v & E1 & _ & _ & Ec & E2)|(op & E1 & _ & [(E2 & Ec & _)|[E2 Ec]])]].
    + rewrite (inside_pc m1 g op) by (by rewrite E2).
      apply (agrees_pc _ (pk_fibers m g)); [by rewrite E1, E2|done..].
    + rewrite (inside_pc m1 g op) by (rewrite E2; by destruct v).
      apply (agrees_pc _ (pk_fibers m g)); [rewrite E1, E2; by destruct v|done..].
    + rewrite (inside_pc m1 g op) by (by destruct (fb_pc (pk_fibers m1 g))).
      apply (agrees_pc _ (pk_fibers m g)); [|done..].
      by destruct (fb_pc (pk_fibers m1 g)), (fb_pc (pk_fibers m g)); simplify_eq/=.
    + unfold outside. rewrite E2, upd_eq. destruct Ha as [Ha1 Ha2]. split; [by rewrite E2|].
      rewrite Ec, Ha2. apply call_after, Ha1. by destruct (fb_pc (pk_fibers m g)); simplify_eq/=.
  - assert ((if outside m1 g then (wl_pc s)⟦g ↦ after_call (wl_pc s g)⟧ else wl_pc s) f = wl_pc s f) as ->
      by (destruct (outside m1 g); [by rewrite upd_ne|done]).
    apply (agrees_pc _ (pk_fibers m f)); [..|done]; rewrite (fiber_step_others m m1 g f Hm Em Hne);
      by case_decide.
Qed.

Lemma object_agrees l m p' m' s : pf_inv (MkPoolFibers (wl_pool s) m) → (∀ l', l ≠ Elsewhere l') →
  calls call l s = true → pf_step l (MkPoolFibers (wl_pool s) m) = Some (MkPoolFibers p' m') →
  (∀ f, agrees call client (wl_pc s f) (pk_fibers m f)) →
  ∀ f, agrees call client (returns l m' s f) (pk_fibers m' f).
Proof.
  intros Hi Hl Hc Hstep Ha f. pose proof (pf_park_inv _ Hi) as Hm. simpl in Hm.
  destruct l as [w op|w|w|w|w b|l]; cbn [pf_step] in Hstep; [| | | | |by destruct (Hl l)]; simpl in Hc |- *.
  - apply bind_Some in Hstep as (g & Eg & Hstep). apply bind_Some in Hstep as (m1 & Em & [= _ <-]).
    destruct (decide (f = g)) as [->|Hne]; [|by rewrite (call_step_pc m m1 g op Em f Hne)].
    rewrite Eg in Hc. apply bool_decide_eq_true in Hc. unfold call_step in Em. step_cases Em.
    simplify_eq/=. rewrite upd_eq. split; [by intros ? [= <-]|apply Ha].
  - apply bind_Some in Hstep as (g & Eg & Hstep). apply bind_Some in Hstep as (m1 & Em & Hstep).
    apply bind_Some in Hstep as (p1 & _ & [= _ <-]). rewrite Eg. apply (move_agrees m m1 g s Hm Em); [|done].
    apply park_invariant. apply (reachable_step (parking_system true) (FiberStep g) m); [apply Hi|done].
  - apply bind_Some in Hstep as (g & Eg & Hstep). apply bind_Some in Hstep as (h & Em & Hstep).
    apply bind_Some in Hstep as (p1 & _ & [= _ <-]). apply Ha.
  - apply bind_Some in Hstep as (g & Eg & Hstep). apply bind_Some in Hstep as (m1 & Em & [= _ <-]).
    destruct (await_step_effect m m1 g Hm Em) as (_ & _ & [_ Ho] & Epc & _ & Ec & _).
    destruct (decide (f = g)) as [->|Hne]; [|by rewrite Ho].
    apply (agrees_pc _ (pk_fibers m g)); [by rewrite Epc|done..].
  - destruct (wk_pc (dworkers (wl_pool s) w)); try done.
    destruct (local_tasks (dworkers (wl_pool s) w)) as [|g ks]; [done|].
    apply bind_Some in Hstep as (m1 & Em & Hstep). apply bind_Some in Hstep as (p1 & _ & [= _ <-]).
    destruct (resume_step_pc m m1 g false Em) as ((op & E1 & E2) & _ & Ec & _ & Ho).
    destruct (decide (f = g)) as [->|Hne]; [|by rewrite Ho].
    apply (agrees_pc _ (pk_fibers m g)); [by rewrite E1, E2|done..].
Qed.
End one_object.

(** ** Who does what *)

(** Fiber 0 runs the first routine, the others the second; the mutex is locked by those
    between [lock] and [unlock]. *)
Definition main_ok (p : routine_pc) : Prop :=
  match p with
  | Starting i => i ≤ kTasks | Routing i => i < kTasks
  | Adding | Waiting | Checking | Checked | Failed => True
  | _ => False
  end.

Definition task_ok (p : routine_pc) : Prop :=
  match p with Locking | Reading | Writing _ | Unlocking | Reporting | Reported => True | _ => False end.

Definition in_section (p : routine_pc) : bool :=
  match p with Reading | Writing _ | Unlocking => true | _ => false end.

(** Fiber [f] has been started, when fiber 0 is at [p]. *)
Definition started (p : routine_pc) (f : nat) : bool :=
  match p with
  | Adding => false
  | Starting i => bool_decide (f ≤ i) | Routing i => bool_decide (f ≤ S i)
  | _ => bool_decide (f ≤ kTasks)
  end.

Record roles_inv s : Prop := RolesInv {
  ri_objects : px_inv (wl_objects s);
  ri_main : main_ok (wl_pc s 0);
  ri_task : ∀ f, f ≠ 0 → task_ok (wl_pc s f);
  ri_mutex : ∀ f, agrees mutex_call in_section (wl_pc s f) (pk_fibers (wl_mutex s) f);
  ri_group : ∀ f, agrees group_call (λ _, tt) (wl_pc s f) (pk_fibers (wl_group s) f);
  ri_fresh : ∀ f, f ≠ 0 → started (wl_pc s 0) f = false →
    tk_state (dtasks (wl_pool s) f) = PLANNED ∧ outside (wl_mutex s) f = true ∧ wl_pc s f = Locking;
  ri_planned : ∀ f, tk_state (dtasks (wl_pool s) f) = PLANNED → wl_pc s f = (if decide (f = 0) then Adding else Locking);
  ri_done : ∀ f, tk_place (dtasks (wl_pool s) f) = Completed → finished (wl_pc s f) = true
}.

(** A running fiber has been submitted, and has not completed. *)
Lemma on_stack_state s w f : roles_inv s → on_stack (wl_pool s) w = Some f →
  tk_state (dtasks (wl_pool s) f) ≠ PLANNED ∧ tk_place (dtasks (wl_pool s) f) = RunningOn w.
Proof.
  intros Hr Ef. pose proof (pf_pool_reachable _ (px_one_ok _ (ri_objects _ Hr))) as Hp. simpl in Hp.
  destruct (dist_count_invariant _ Hp) as [Hd [X Hc]]. unfold on_stack in Ef.
  destruct (wk_pc (dworkers (wl_pool s) w)) eqn:Ew; simplify_eq.
  pose proof (di_run _ Hd w f Ew) as Hrun. split; [|done].
  intros E%(dc_fresh _ _ Hc). destruct E. congruence.
Qed.

Lemma on_stack_started s w f : roles_inv s → on_stack (wl_pool s) w = Some f → f ≠ 0 →
  started (wl_pc s 0) f = true.
Proof.
  intros Hr Ef Hf. destruct (started (wl_pc s 0) f) eqn:E; [done|].
  destruct (on_stack_state s w f Hr Ef) as [[] _]. by apply (ri_fresh _ Hr).
Qed.

(** The changes of the routines: the fiber on some worker goes on, and the pool does not
    submit a fiber that has not been started, nor complete one that has not finished. *)
Definition pool_change s s' : Prop :=
  wl_pool s' = wl_pool s ∨ ∃ l, dist_step l (wl_pool s) = Some (wl_pool s') ∧
    (∀ k, l = CallSubmit k → k = 0 ∨ outside (wl_mutex s) k = false ∨ started (wl_pc s' 0) k = true) ∧
    (∀ w k, l = Finished w → wk_pc (dworkers (wl_pool s) w) = PRun k → finished (wl_pc s' k) = true).

Definition pc_change s s' : Prop :=
  wl_pc s' = wl_pc s ∨ ∃ w f q, on_stack (wl_pool s) w = Some f ∧ wl_pc s' = (wl_pc s)⟦f ↦ q⟧ ∧
    (main_ok (wl_pc s f) → main_ok q ∧ ∀ k, started (wl_pc s f) k = true → started q k = true) ∧
    (task_ok (wl_pc s f) → task_ok q) ∧ finished (wl_pc s f) = false.

Lemma roles_change s s' : roles_inv s → px_inv (wl_objects s') → pool_change s s' → pc_change s s' →
  (∀ f, agrees mutex_call in_section (wl_pc s' f) (pk_fibers (wl_mutex s') f)) →
  (∀ f, agrees group_call (λ _, tt) (wl_pc s' f) (pk_fibers (wl_group s') f)) →
  (∀ f, outside (wl_mutex s) f = true → outside (wl_mutex s') f = true ∨ ∃ w, on_stack (wl_pool s) w = Some f) →
  roles_inv s'.
Proof.
  intros Hr Hpx Hpool Hpc Hm Hg Ho.
  assert (∀ f, f ≠ 0 → started (wl_pc s 0) f = false → ∀ w, on_stack (wl_pool s) w ≠ Some f) as Hns.
  { intros f Hf Hs w Ew. by rewrite (on_stack_started s w f) in Hs. }
  assert (∀ k, started (wl_pc s' 0) k = false → started (wl_pc s 0) k = false) as Hst.
  { intros k. destruct Hpc as [->|(w & f & q & Ef & -> & Hmain & _)]; [done|].
    upd_cases. intros Hq. destruct (started (wl_pc s 0) k) eqn:E; [|done].
    destruct (Hmain (ri_main _ Hr)) as [_ Hk]. by rewrite Hk in Hq. }
  split; [done| | |done|done| | |].
  - destruct Hpc as [->|(w & f & q & Ef & -> & Hmain & _)]; [apply Hr|].
    destruct (decide (f = 0)) as [->|Hf]; [rewrite upd_eq; apply Hmain|rewrite upd_ne by done]; apply Hr.
  - intros k Hk. destruct Hpc as [->|(w & f & q & Ef & -> & _ & Ht & _)]; [by apply Hr|].
    destruct (decide (f = k)) as [->|Hf]; [rewrite upd_eq; apply Ht|rewrite upd_ne by done]; by apply Hr.
  - intros k Hk Hs'. pose proof (Hst k Hs') as Hs. destruct (ri_fresh _ Hr k Hk Hs) as (E1 & E2 & E3).
    split_and!.
    + destruct Hpool as [->|(l & El & Hsub & _)]; [done|].
      destruct (planned_stays l _ _ k El E1) as [?|Hl]; [done|].
      destruct (Hsub k Hl) as [?|[?|?]]; congruence.
    + destruct (Ho k E2) as [?|[w Ew]]; [done|]. by destruct (Hns k Hk Hs w).
    + destruct Hpc as [->|(w & f & q & Ef & -> & _)]; [done|]. upd_cases. by destruct (Hns k Hk Hs w).
  - intros k Hk. assert (tk_state (dtasks (wl_pool s) k) = PLANNED) as Hp.
    { destruct Hpool as [Ep|(l & El & _)]; [by rewrite <- Ep|by apply (planned_before l _ (wl_pool s'))]. }
    rewrite <- (ri_planned _ Hr k Hp). destruct Hpc as [->|(w & f & q & Ef & -> & _)]; [done|].
    apply upd_ne. intros ->. by destruct (on_stack_state s w k Hr Ef).
  - intros k Hk. destruct Hpool as [Ep|(l & El & _ & Hfin)].
    + rewrite Ep in Hk. destruct Hpc as [->|(w & f & q & Ef & -> & _ & _ & Hnf)]; [by apply Hr|].
      upd_cases; [|by apply Hr]. apply (ri_done _ Hr) in Hk. congruence.
    + destruct (completed_by l _ _ k El Hk) as [Hc|(w & -> & Ew)]; [|by apply (Hfin w k)].
      apply (ri_done _ Hr) in Hc. destruct Hpc as [->|(w & f & q & Ef & -> & _ & _ & Hnf)]; [done|].
      by upd_cases.
Qed.

(** An operation that returns takes the routine on. *)
Definition is_call (p : routine_pc) : Prop := is_Some (mutex_call p) ∨ is_Some (group_call p).

Lemma after_call_ok p : is_call p →
  (main_ok p → main_ok (after_call p) ∧ ∀ k, started p k = true → started (after_call p) k = true) ∧
  (task_ok p → task_ok (after_call p)) ∧ finished p = false.
Proof. intros [[o E]|[o E]]; destruct p; try done; split_and!; simpl; try done; intros _; split; [lia|done]. Qed.

Lemma mutex_call_after p op : mutex_call p = Some op →
  client_after op (in_section p) = in_section (after_call p).
Proof. by destruct p; intros; simplify_eq/=. Qed.

(** The fiber that returns from an operation was inside it. *)
Lemma returns_change {D Op U} `{PrimitiveLaws D Op U} (call : routine_pc → option Op) client l p' m m' s :
  (∀ f, agrees call client (wl_pc s f) (pk_fibers m f)) →
  pf_inv (MkPoolFibers (wl_pool s) m) → pf_step l (MkPoolFibers (wl_pool s) m) = Some (MkPoolFibers p' m') →
  returns l m' s = wl_pc s ∨ ∃ w f, on_stack (wl_pool s) w = Some f ∧
    returns l m' s = (wl_pc s)⟦f ↦ after_call (wl_pc s f)⟧ ∧ outside m f = false ∧ is_Some (call (wl_pc s f)).
Proof.
  intros Ha Hi Hstep. unfold returns. destruct l as [|w| | | |]; try (by left).
  cbn [pf_step] in Hstep. apply bind_Some in Hstep as (f & Ef & Hstep). rewrite Ef.
  apply bind_Some in Hstep as (m1 & Em & Hstep). apply bind_Some in Hstep as (p1 & _ & [= _ <-]).
  destruct (outside m1 f) eqn:Eo; [right|by left]. exists w, f.
  assert (∃ op, pc_op (fb_pc (pk_fibers m f)) = Some op) as [op Hop].
  { unfold fiber_step in Em. pose proof (pi_fiber _ (pf_park_inv _ Hi) f) as [Hok _]. simpl in Hok.
    destruct (fb_pc (pk_fibers m f)); try done; by eexists. }
  split_and!; [done..|by apply (inside_pc m f op)|]. destruct (Ha f) as [Hf _]. rewrite (Hf op Hop). by eexists.
Qed.

(** A step in the mutex, or in the group, taken apart. *)
Lemma mutex_step l s s' : roles_inv s → work_step (InMutex l) s = Some s' →
  (calls mutex_call l s = true ∧ (∀ l', l ≠ Elsewhere l') ∧ pf_inv (MkPoolFibers (wl_pool s) (wl_mutex s)) ∧
   pf_step l (MkPoolFibers (wl_pool s) (wl_mutex s)) = Some (MkPoolFibers (wl_pool s') (wl_mutex s'))) ∧
  wl_group s' = wl_group s ∧ px_inv (wl_objects s') ∧ wl_counter s' = wl_counter s ∧
  wl_pc s' = returns l (wl_mutex s') s ∧
  (wl_pc s' = wl_pc s ∨ ∃ w f, on_stack (wl_pool s) w = Some f ∧ wl_pc s' = (wl_pc s)⟦f ↦ after_call (wl_pc s f)⟧ ∧
    outside (wl_mutex s) f = false ∧ is_Some (mutex_call (wl_pc s f))).
Proof.
  intros Hr Hstep. cbn [work_step] in Hstep. destruct (calls mutex_call l s) eqn:Hc; [|done].
  apply bind_Some in Hstep as (o & Eo & [= <-]). pose proof (ri_objects _ Hr) as Hpx.
  destruct (px_one_step l _ _ Eo) as (Hen & Hp & Htwo).
  pose proof (pf_invariant _ (px_one_ok _ Hpx)) as Hi. unfold px_left in Hp, Hi.
  split_and!; simpl; [done|by eapply may_enter_own|done|done|done|by apply (px_step_inv (One l) (wl_objects s))|done..|].
  by apply (returns_change mutex_call in_section l (px_pool o) (wl_mutex s)); [apply Hr|..].
Qed.

Lemma group_step l s s' : roles_inv s → work_step (InGroup l) s = Some s' →
  (calls group_call l s = true ∧ (∀ l', l ≠ Elsewhere l') ∧ pf_inv (MkPoolFibers (wl_pool s) (wl_group s)) ∧
   pf_step l (MkPoolFibers (wl_pool s) (wl_group s)) = Some (MkPoolFibers (wl_pool s') (wl_group s'))) ∧
  wl_mutex s' = wl_mutex s ∧ px_inv (wl_objects s') ∧ wl_counter s' = wl_counter s ∧
  wl_pc s' = returns l (wl_group s') s ∧
  (wl_pc s' = wl_pc s ∨ ∃ w f, on_stack (wl_pool s) w = Some f ∧ wl_pc s' = (wl_pc s)⟦f ↦ after_call (wl_pc s f)⟧ ∧
    outside (wl_group s) f = false ∧ is_Some (group_call (wl_pc s f))).
Proof.
  intros Hr Hstep. cbn [work_step] in Hstep. destruct (calls group_call l s) eqn:Hc; [|done].
  apply bind_Some in Hstep as (o & Eo & [= <-]). pose proof (ri_objects _ Hr) as Hpx.
  destruct (px_two_step l _ _ Eo) as (Hen & Hp & Hone).
  pose proof (pf_invariant _ (px_two_ok _ Hpx)) as Hi. unfold px_right in Hp, Hi.
  split_and!; simpl; [done|by eapply may_enter_own|done|done|done|by apply (px_step_inv (Two l) (wl_objects s))|done..|].
  by apply (returns_change group_call (λ _, tt) l (px_pool o) (wl_group s)); [apply Hr|..].
Qed.

(** A routine that returns from an operation goes on, as its fiber's role says. *)
Lemma call_change s s' (call : routine_pc → Prop) : (∀ p, call p → is_call p) →
  (wl_pc s' = wl_pc s ∨ ∃ w f, on_stack (wl_pool s) w = Some f ∧ wl_pc s' = (wl_pc s)⟦f ↦ after_call (wl_pc s f)⟧ ∧
    call (wl_pc s f)) → pc_change s s'.
Proof.
  intros Hcall [E|(w & f & Ef & E & Hf)]; [by left|right]. exists w, f, (after_call (wl_pc s f)).
  split_and!; [done..| | |]; by apply after_call_ok, Hcall.
Qed.

(** The one object is not concerned by a fiber inside the other. *)
Lemma other_agrees {Op U} (call : routine_pc → option Op) (client : routine_pc → U) p q (fb : fiber Op U) :
  agrees call client p fb → pc_op (fb_pc fb) = None → client q = client p → agrees call client q fb.
Proof. intros [_ H2] Hn E. split; [by rewrite Hn|congruence]. Qed.

Lemma roles_mutex l s s' : roles_inv s → work_step (InMutex l) s = Some s' → roles_inv s'.
Proof.
  intros Hr Hstep.
  destruct (mutex_step l s s' Hr Hstep) as ((Hc & Hown & Hi & Hp) & Htwo & Hpx' & _ & Hpc & Hret).
  apply (roles_change s); [done|done|..].
  - destruct (pf_step_pool l _ _ _ _ Hi Hp Hown) as [E|(l' & El & Hnf & Hsub)]; [by left|right].
    exists l'. split_and!; [done|intros k Hk; right; left; apply Hsub; by left|intros w k Hw; by destruct (Hnf w)].
  - apply (call_change s s' (λ p, is_Some (mutex_call p))); [by left|naive_solver].
  - rewrite Hpc. by apply (object_agrees mutex_call in_section mutex_call_after l (wl_mutex s) (wl_pool s')); [..|apply Hr].
  - rewrite Htwo. intros f. destruct Hret as [->|(w & g & Eg & -> & Hg & Hcall)]; [apply Hr|].
    destruct (decide (g = f)) as [->|Hne]; [rewrite upd_eq|rewrite upd_ne by done; apply Hr].
    apply (other_agrees _ _ (wl_pc s f)); [apply Hr| |done].
    destruct (pc_op _) as [op|] eqn:E; [|done]. apply inside_pc in E. destruct (px_apart _ (ri_objects _ Hr) f); congruence.
  - intros f Hf. destruct (step_outside _ _ _ _ _ f Hi Hp Hf) as [?|(w & op & _ & Ew)]; [by left|right; by exists w].
Qed.

(** No fiber that waits in the group is one that has not been started. *)
Lemma in_group_started s k : roles_inv s → k ≠ 0 → outside (wl_group s) k = false → started (wl_pc s 0) k = true.
Proof.
  intros Hr Hk Ho. destruct (started (wl_pc s 0) k) eqn:Es; [done|].
  destruct (ri_fresh _ Hr k Hk Es) as (_ & _ & Ek). destruct (ri_group _ Hr k) as [Hg _].
  pose proof (pi_fiber _ (pf_park_inv _ (pf_invariant _ (px_two_ok _ (ri_objects _ Hr)))) k) as [Hok _].
  simpl in Hok. rewrite Ek in Hg. unfold outside in Ho.
  destruct (fb_pc (pk_fibers (wl_group s) k)); try done; by specialize (Hg _ eq_refl).
Qed.

Lemma roles_group l s s' : roles_inv s → work_step (InGroup l) s = Some s' → roles_inv s'.
Proof.
  intros Hr Hstep.
  destruct (group_step l s s' Hr Hstep) as ((Hc & Hown & Hi & Hp) & Hone & Hpx' & _ & Hpc & Hret).
  assert (pc_change s s') as Hch by (apply (call_change s s' (λ p, is_Some (group_call p))); [by right|naive_solver]).
  apply (roles_change s); [done|done| |done|..].
  - destruct (pf_step_pool l _ _ _ _ Hi Hp Hown) as [E|(l' & El & Hnf & Hsub)]; [by left|right].
    exists l'. split_and!; [done| |intros w k Hw; by destruct (Hnf w)].
    intros k Hk. destruct (decide (k = 0)) as [|Hne]; [by left|right; right].
    pose proof (in_group_started s k Hr Hne (Hsub k (or_introl Hk))) as Hs.
    destruct Hch as [->|(w & f & q & _ & -> & Hmain & _)]; [done|].
    destruct (decide (f = 0)) as [->|?]; [rewrite upd_eq|by rewrite upd_ne]. by apply Hmain; [apply Hr|].
  - rewrite Hone. intros f. destruct Hret as [->|(w & g & Eg & -> & Hg & [op Hop])]; [apply Hr|].
    destruct (decide (g = f)) as [->|Hne]; [rewrite upd_eq|rewrite upd_ne by done; apply Hr].
    apply (other_agrees _ _ (wl_pc s f)); [apply Hr| |by destruct (wl_pc s f)].
    destruct (pc_op _) as [op'|] eqn:E; [|done]. apply inside_pc in E. destruct (px_apart _ (ri_objects _ Hr) f); congruence.
  - rewrite Hpc. by apply (object_agrees group_call (λ _, tt) ltac:(done) l (wl_group s) (wl_pool s')); [..|apply Hr].
  - intros f Hf. left. by rewrite Hone.
Qed.

(** The steps that leave the objects alone, but for the pool. *)
Lemma roles_outside s s' : roles_inv s → px_inv (wl_objects s') → pool_change s s' → pc_change s s' →
  wl_mutex s' = wl_mutex s → wl_group s' = wl_group s →
  (∀ f, wl_pc s' f = wl_pc s f ∨ outside (wl_mutex s) f = true ∧ outside (wl_group s) f = true ∧
    in_section (wl_pc s' f) = in_section (wl_pc s f)) → roles_inv s'.
Proof.
  intros Hr Hpx Hpool Hpc Em Eg Hch. apply (roles_change s); try done; rewrite ?Em, ?Eg; [..|by left].
  - intros f. destruct (Hch f) as [->|(Ho & _ & E)]; [apply Hr|]. destruct (ri_mutex _ Hr f) as [_ Hc].
    split; [intros op Hop%inside_pc; congruence|congruence].
  - intros f. destruct (Hch f) as [->|(_ & Ho & _)]; [apply Hr|].
    split; [intros op Hop%inside_pc; congruence|by destruct (fb_client _)].
Qed.

Lemma roles_pool l s s' : roles_inv s → work_step (PoolMoves l) s = Some s' → roles_inv s'.
Proof.
  intros Hr Hstep. cbn [work_step] in Hstep. destruct (main_or_loop l s) eqn:Hl; [|done].
  apply bind_Some in Hstep as (o & Eo & [= <-]).
  destruct (px_neither_step l _ _ Eo) as (El & Em & Eg & _).
  apply (roles_outside s); simpl; [done| | | |done|done|by left].
  - by apply (px_step_inv (Neither l) (wl_objects s)); [apply Hr|].
  - right. exists l. split_and!; [done| |by intros w k ->].
    intros k ->. simpl in Hl. apply bool_decide_eq_true in Hl as [-> _]. by left.
  - by left.
Qed.

Lemma roles_return w s s' : roles_inv s → work_step (Return w) s = Some s' → roles_inv s'.
Proof.
  intros Hr Hstep. cbn [work_step] in Hstep. apply bind_Some in Hstep as (f & Ef & Hstep).
  destruct (finished (wl_pc s f)) eqn:Hf; [|done]. apply bind_Some in Hstep as (o & Eo & [= <-]).
  destruct (px_neither_step _ _ _ Eo) as (El & Em & Eg & _).
  apply (roles_outside s); simpl; [done| | | |done|done|by left].
  - by apply (px_step_inv (Neither (Finished w)) (wl_objects s)); [apply Hr|].
  - right. exists (Finished w). split_and!; [done..|]. intros u k [= <-] Ew. simpl.
    unfold on_stack in Ef. rewrite Ew in Ef. congruence.
  - by left.
Qed.

(** What [own_code] does: the objects change at most by a submission, [f]'s routine goes on. *)
Lemma own_code_effect f s s' : own_code f s = Some s' → ∃ q, wl_pc s' = (wl_pc s)⟦f ↦ q⟧ ∧
  (wl_objects s' = wl_objects s ∨ ∃ l, px_step (Neither l) (wl_objects s) = Some (wl_objects s') ∧
    (∀ w, l ≠ Finished w) ∧ ∀ k, l = CallSubmit k → started q k = true ∧ ¬ task_ok (wl_pc s f)) ∧
  (main_ok (wl_pc s f) → main_ok q ∧ ∀ k, started (wl_pc s f) k = true → started q k = true) ∧
  (task_ok (wl_pc s f) → task_ok q) ∧ finished (wl_pc s f) = false ∧ in_section q = in_section (wl_pc s f).
Proof.
  unfold own_code. intros Hstep. destruct (wl_pc s f) as [|i|i| | | | | | |v| | |] eqn:E; try done.
  - case_decide as Hi.
    + apply bind_Some in Hstep as (o & Eo & [= <-]). exists (Routing i). split_and!; [done| |..|done|done|done].
      * right. exists (CallSubmit (S i)). split_and!; [done..|]. intros k [= <-]. split; [by apply bool_decide_eq_true|by intros []].
      * intros _. split; [done|]. simpl. intros k Hk%bool_decide_eq_true. apply bool_decide_eq_true. lia.
    + simplify_eq/=. eexists. split_and!; [done|by left| |done..].
      intros Hm. split; [done|]. simpl. intros k Hk%bool_decide_eq_true. apply bool_decide_eq_true. lia.
  - apply bind_Some in Hstep as (o & Eo & [= <-]). exists (Starting (S i)). split_and!; [done| |by simpl|done..].
    right. by exists (Route (S i)).
  - simplify_eq/=. eexists. split_and!; [done|by left|..]; by repeat case_decide.
  - simplify_eq/=. eexists. split_and!; [done|by left|..]; done.
  - simplify_eq/=. eexists. split_and!; [done|by left|..]; done.
Qed.

Lemma roles_own w s s' : roles_inv s → work_step (OwnCode w) s = Some s' → roles_inv s'.
Proof.
  intros Hr Hstep. cbn [work_step] in Hstep. apply bind_Some in Hstep as (f & Ef & Hstep).
  destruct (outside (wl_mutex s) f) eqn:Eo1, (outside (wl_group s) f) eqn:Eo2; try done. simpl in Hstep.
  destruct (own_code_effect f s s' Hstep) as (q & Eq & Hobj & Hmain & Htask & Hnf & Hsec).
  assert (wl_mutex s' = wl_mutex s ∧ wl_group s' = wl_group s ∧ px_inv (wl_objects s')) as (Em & Eg & Hpx').
  { destruct Hobj as [->|(l & El & _)]; [split_and!; [done..|apply Hr]|].
    destruct (px_neither_step l _ _ El) as (_ & -> & -> & _). split_and!; [done..|].
    by apply (px_step_inv (Neither l) (wl_objects s)); [apply Hr|]. }
  apply (roles_outside s); try done.
  - destruct Hobj as [E|(l & El & Hnfin & Hsub)]; [left; by rewrite E|right].
    destruct (px_neither_step l _ _ El) as (E & _). exists l. split_and!; [done| |intros u k Hu; by destruct (Hnfin u)].
    intros k ->. right; right. destruct (Hsub k eq_refl) as [Hs Ht].
    destruct (decide (f = 0)) as [->|Hf]; [by rewrite Eq, upd_eq|]. by destruct Ht; apply (ri_task _ Hr).
  - right. by exists w, f, q.
  - intros g. rewrite Eq. destruct (decide (f = g)) as [->|Hne]; [|left; by rewrite upd_ne].
    right. by rewrite upd_eq.
Qed.

Lemma roles_invariant : invariant work_system roles_inv.
Proof.
  apply invariant_intro.
  - intros s ->. split; simpl; try done.
    + apply px_invariant, reachable_init. by exists false, 0%Z.
    + intros f Hf. by rewrite decide_False.
    + intros f. split; [done|]. by case_decide.
    + intros f Hf _. by rewrite decide_False.
  - intros [l|l|l|w|w] s s' Hr Hstep.
    + by apply (roles_pool l s).
    + by apply (roles_mutex l s).
    + by apply (roles_group l s).
    + by apply (roles_own w s).
    + by apply (roles_return w s).
Qed.
End workload.

(** ** Two tasks on three workers *)

Definition pool_steps (w : wid) (n : nat) : list work_label := repeat (PoolMoves (Step w false)) n.
Definition mutex_moves (w : wid) (n : nat) : list work_label := repeat (InMutex (Move w)) n.
Definition group_moves (w : wid) (n : nat) : list work_label := repeat (InGroup (Move w)) n.

(** Fiber 2 waits for the mutex while fiber 1 increments; fiber 0 waits for both. *)
Definition two_tasks_workers : list work_label :=
  pool_steps 0 8 ++
  [InGroup (Enter 0 (Add 2))] ++ group_moves 0 7 ++ repeat (OwnCode 0) 5 ++
  [InGroup (Enter 0 Wait)] ++ group_moves 0 2 ++ repeat (InGroup (Await 0)) 3 ++
  pool_steps 1 8 ++ pool_steps 2 8 ++
  [InMutex (Enter 1 Lock)] ++ mutex_moves 1 7 ++ [OwnCode 1] ++
  [InMutex (Enter 2 Lock)] ++ mutex_moves 2 2 ++ repeat (InMutex (Await 2)) 3 ++ pool_steps 2 2 ++
  [OwnCode 1; InMutex (Enter 1 Unlock)] ++ mutex_moves 1 6 ++ [InMutex (Count 1)] ++ mutex_moves 1 2 ++
  [InGroup (Enter 1 Done)] ++ group_moves 1 7 ++ [Return 1] ++
  [InMutex (Take 2 false)] ++ mutex_moves 2 2 ++ [OwnCode 2; OwnCode 2; InMutex (Enter 2 Unlock)] ++ mutex_moves 2 7 ++
  [InGroup (Enter 2 Done)] ++ group_moves 2 6 ++ [InGroup (Count 2)] ++ group_moves 2 2 ++ [Return 2] ++
  pool_steps 0 2 ++ [InGroup (Take 0 false)] ++ group_moves 0 2 ++ [OwnCode 0; Return 0].

Definition two_tasks : list work_label :=
  [PoolMoves (CallSubmit 0); PoolMoves (Route 0)] ++ two_tasks_workers ++
  [PoolMoves BeginShutdown] ++ pool_steps 0 1 ++ pool_steps 1 1 ++ pool_steps 2 1.

#[local] Instance two : Tasks := 2.

Definition work_after (tr : list work_label) : work := default new_work (run work_system tr new_work).

Example two_tasks_run :
  let s := work_after two_tasks in
  wl_pc s 0 = Checked ∧ wl_pc s 1 = Reported ∧ wl_pc s 2 = Reported ∧ wl_counter s = 2%Z ∧
  CanCloseWorker (wl_pool s) = true.
Proof. vm_compute. auto. Qed.
