(* ===== verification/PoolReports.v ===== *)
(** * The workload on the pool: the counter and the wait group

    The counter of PoolWorkload.v is the number of increments, and that of the wait group
    the number of fibers that have not reported; [Wait] returns when all have. *)

From stdpp Require Import prelude list gmap.
From S2P Require Import Prelude.
From S2P Require Import Lock.
From S2P Require Import Parking.
From S2P Require Import AsyncMutex.
From S2P Require Import WaitGroup.
From S2P Require Import DistributedPool.
From S2P Require Import PoolFibers.
From S2P Require Import PoolObjects.
From S2P Require Import PoolWorkload.

(** [size_t] can count the tasks. *)
Class FewTasks `{Tasks} : Prop := few_tasks : (Z.of_nat kTasks < size_bound)%Z.

Section reports.
  Context {T : Tasks} {few : FewTasks}.
  Implicit Types (s : work).

Lemma kTasks_small : (Z.of_nat kTasks < size_bound)%Z.
Proof. exact few. Qed.

(** ** No increment is lost *)

Definition inc (p : routine_pc) : nat := match p with Unlocking | Reporting | Reported => 1 | _ => 0 end.

(** Over the fibers that increment. *)
Definition total (count : tid → nat) : nat := sum_list_with count (seq 1 kTasks).

Lemma total_ext (h1 h2 : tid → nat) : (∀ f, h1 f = h2 f) → total h1 = total h2.
Proof. intros H. by apply sum_list_with_ext. Qed.

Lemma total_le (h : tid → nat) : (∀ f, h f ≤ 1) → total h ≤ kTasks.
Proof.
  intros H. unfold total. rewrite <- (length_seq kTasks 1) at 2. by apply sum_le_length.
Qed.

Lemma total_full (h : tid → nat) f : (∀ g, h g ≤ 1) → total h = kTasks → 1 ≤ f ≤ kTasks → h f = 1.
Proof.
  intros Hle Ht Hf. apply (sum_full h (seq 1 kTasks)); [done|by rewrite length_seq|apply elem_of_seq; lia].
Qed.

Lemma total_step (h1 h2 : tid → nat) f : 1 ≤ f ≤ kTasks → (∀ g, g ≠ f → h1 g = h2 g) →
  total h1 + h2 f = total h2 + h1 f.
Proof. intros Hf H. apply sum_one; [apply NoDup_seq|apply elem_of_seq; lia|done]. Qed.

Lemma inc_le p : inc p ≤ 1.
Proof. destruct p; simpl; lia. Qed.

Record count_inv s : Prop := CountInv {
  ci_value : wl_counter s = Z.of_nat (total (λ f, inc (wl_pc s f)));
  ci_write : ∀ f v, wl_pc s f = Writing v → v = wl_counter s
}.

(** The fiber at the counter has the mutex, and is the only one. *)
Lemma at_counter s f : roles_inv s → in_section (wl_pc s f) = true → mutex_call (wl_pc s f) = None →
  in_critical_section (wl_mutex s) f.
Proof.
  intros Hr Hs Hc. destruct (ri_mutex _ Hr f) as [Hop Hcl]. split; [|by rewrite Hcl].
  pose proof (pf_invariant _ (px_one_ok _ (ri_objects _ Hr))) as Hi.
  pose proof (pi_fiber _ (pf_park_inv _ Hi) f) as [Hok _]. simpl in Hok. rewrite Hc in Hop.
  destruct (fb_pc (pk_fibers (wl_mutex s) f)); try done; by specialize (Hop _ eq_refl).
Qed.

Lemma at_counter_one s f g : roles_inv s → in_section (wl_pc s f) = true → mutex_call (wl_pc s f) = None →
  in_section (wl_pc s g) = true → mutex_call (wl_pc s g) = None → f = g.
Proof.
  intros Hr Hf Cf Hg Cg. by apply (pool_mutex_exclusive (px_left (wl_objects s)));
    [apply (ri_objects _ Hr)|apply at_counter..].
Qed.

(** A fiber that runs a task is one of those counted. *)
Lemma runs_task s w f : roles_inv s → on_stack (wl_pool s) w = Some f → task_ok (wl_pc s f) → 1 ≤ f ≤ kTasks.
Proof.
  intros Hr Ef Ht. destruct (decide (f = 0)) as [->|Hf].
  { pose proof (ri_main _ Hr). by destruct (wl_pc s 0). }
  pose proof (on_stack_started s w f Hr Ef Hf) as Hs. pose proof (ri_main _ Hr) as Hm. split; [lia|].
  destruct (wl_pc s 0); simpl in Hs, Hm; try done; apply bool_decide_eq_true in Hs; lia.
Qed.

Lemma count_same s s' : count_inv s → wl_counter s' = wl_counter s →
  (∀ f, inc (wl_pc s' f) = inc (wl_pc s f)) →
  (∀ f v, wl_pc s' f = Writing v → wl_pc s f = Writing v ∨ v = wl_counter s) → count_inv s'.
Proof.
  intros [H1 H2] Ec Ei Hw. split.
  - rewrite Ec, H1. f_equal. apply total_ext. intros f. by rewrite Ei.
  - intros f v E. rewrite Ec. destruct (Hw f v E) as [E'|?]; [by apply (H2 f)|done].
Qed.

Lemma count_returns s s' : count_inv s → wl_counter s' = wl_counter s →
  (wl_pc s' = wl_pc s ∨ ∃ f, wl_pc s' = (wl_pc s)⟦f ↦ after_call (wl_pc s f)⟧ ∧ is_call (wl_pc s f)) → count_inv s'.
Proof.
  intros Hc Ec Hpc. apply (count_same s); [done..| |].
  - intros f. destruct Hpc as [->|(g & -> & [[op Hg]|[op Hg]])]; [done|..]; upd_cases; by destruct (wl_pc s f).
  - intros f v. destruct Hpc as [->|(g & -> & [[op Hg]|[op Hg]])]; [by left|..]; upd_cases; try (by left);
      by destruct (wl_pc s f).
Qed.

Lemma counter_own w s s' : roles_inv s → count_inv s → work_step (OwnCode w) s = Some s' → count_inv s'.
Proof.
  intros Hr Hc Hstep. cbn [work_step] in Hstep. apply bind_Some in Hstep as (f & Ef & Hstep).
  destruct (_ && _); [|done]. unfold own_code in Hstep.
  assert (∀ q, wl_counter s' = wl_counter s → wl_pc s' = (wl_pc s)⟦f ↦ q⟧ → inc q = inc (wl_pc s f) →
    (∀ v, q = Writing v → v = wl_counter s) → count_inv s') as Hsame.
  { intros q Ec Eq Ei Hw. apply (count_same s); [done..| |].
    - intros g. rewrite Eq. by upd_cases.
    - intros g v. rewrite Eq. upd_cases; auto. }
  destruct (wl_pc s f) as [|i|i| | | | | | |v| | |] eqn:E; try done.
  - case_decide; [apply bind_Some in Hstep as (o & _ & [= <-])|simplify_eq]; by eapply Hsame.
  - apply bind_Some in Hstep as (o & _ & [= <-]). by eapply Hsame.
  - simplify_eq. eapply Hsame; [done..| |]; by case_decide.
  - simplify_eq. eapply Hsame; [done..|]. by intros v [= <-].
  - simplify_eq. rewrite (ci_write _ Hc f v E).
    pose proof (runs_task s w f Hr Ef) as Hf. rewrite E in Hf. specialize (Hf I).
    set (pc' := (wl_pc s)⟦f ↦ Unlocking⟧).
    assert (total (λ g, inc (pc' g)) = S (total (λ g, inc (wl_pc s g)))) as Et.
    { pose proof (total_step (λ g, inc (pc' g)) (λ g, inc (wl_pc s g)) f Hf) as Ht. simpl in Ht.
      unfold pc' in *. rewrite upd_eq, E in Ht. simpl in Ht. rewrite <- (Nat.add_1_r (total _)), <- Ht; [lia|].
      intros g Hg. by rewrite upd_ne. }
    pose proof (total_le (λ g, inc (pc' g)) ltac:(intros; apply inc_le)) as Hle.
    pose proof kTasks_small. rewrite (ci_value _ Hc). split; simpl.
    + rewrite sz_add_small; [rewrite Et; lia|]. unfold is_size. lia.
    + intros g v'. unfold pc'. destruct (decide (f = g)) as [->|Hne]; [by rewrite upd_eq|].
      rewrite upd_ne by done. intros Eg. destruct Hne.
      by apply (at_counter_one s f g); rewrite ?E, ?Eg.
Qed.

Lemma count_invariant : invariant work_system count_inv.
Proof.
  apply (invariant_on_top _ roles_inv); [apply roles_invariant|..].
  - intros s ->. split; simpl; [|by intros f v; case_decide].
    unfold total. rewrite sum_list_with_zero; [done|]. intros f _. by case_decide.
  - intros [l|l|l|w|w] s s' Hr Hc Hstep.
    + cbn [lts_step work_system work_step] in Hstep. destruct (main_or_loop l s); [|done].
      apply bind_Some in Hstep as (o & _ & [= <-]). apply (count_returns s); auto.
    + destruct (mutex_step l s s' Hr Hstep) as (_ & _ & _ & Ec & _ & Hret).
      apply (count_returns s); [done..|]. destruct Hret as [|(w & f & _ & E & _ & Hf)]; [by left|right].
      exists f. split; [done|by left].
    + destruct (group_step l s s' Hr Hstep) as (_ & _ & _ & Ec & _ & Hret).
      apply (count_returns s); [done..|]. destruct Hret as [|(w & f & _ & E & _ & Hf)]; [by left|right].
      exists f. split; [done|by right].
    + by apply (counter_own w s).
    + cbn [lts_step work_system work_step] in Hstep. apply bind_Some in Hstep as (f & _ & Hstep). destruct (finished _); [|done].
      apply bind_Some in Hstep as (o & _ & [= <-]). apply (count_returns s); auto.
Qed.

(** ** [Wait] returns when every fiber has reported *)

(** The body of [Done] has run, and that of [Add]. *)
Definition reported (p : routine_pc) (fb : fiber wg_op unit) : nat :=
  match p with
  | Reported => 1
  | Reporting => if leaving (fb_pc fb) then 1 else 0
  | _ => 0
  end.

Definition added (p : routine_pc) (fb : fiber wg_op unit) : bool :=
  match p with Adding => if leaving (fb_pc fb) then true else false | _ => true end.

(** The wait of fiber 0 is over, or about to be. *)
Definition woken (g : wg_state) : Prop :=
  fb_scheduled (pk_fibers g 0) ≠ 0 ∨ ∃ h, 0 ∈ wakes (fb_pc (pk_fibers g h)).

Definition released (p : routine_pc) (g : wg_state) : Prop :=
  match p with
  | Checking | Checked | Failed => True
  | Waiting =>
      match fb_pc (pk_fibers g 0) with
      | Susp _ => woken g
      | _ => is_Some (leaving (fb_pc (pk_fibers g 0)))
      end
  | _ => False
  end.

Definition reports s : nat := total (λ f, reported (wl_pc s f) (pk_fibers (wl_group s) f)).

Record group_inv s : Prop := GroupInv {
  gi_susp : ∀ f op, fb_pc (pk_fibers (wl_group s) f) = Susp op → op = Wait;
  gi_data : (pk_data (wl_group s) + Z.of_nat (reports s))%Z =
    Z.of_nat (if added (wl_pc s 0) (pk_fibers (wl_group s) 0) then kTasks else 0);
  gi_released : released (wl_pc s 0) (wl_group s) → reports s = kTasks
}.

Lemma reports_le s : reports s ≤ kTasks.
Proof. apply total_le. intros f. unfold reported. repeat case_match; lia. Qed.

(** A step that changes nothing that counts. *)
Lemma group_keep s s' : group_inv s → pk_data (wl_group s') = pk_data (wl_group s) →
  (∀ f, reported (wl_pc s' f) (pk_fibers (wl_group s') f) = reported (wl_pc s f) (pk_fibers (wl_group s) f)) →
  added (wl_pc s' 0) (pk_fibers (wl_group s') 0) = added (wl_pc s 0) (pk_fibers (wl_group s) 0) →
  (∀ f op, fb_pc (pk_fibers (wl_group s') f) = Susp op → op = Wait) →
  (released (wl_pc s' 0) (wl_group s') → released (wl_pc s 0) (wl_group s)) → group_inv s'.
Proof.
  intros [H1 H2 H3] Ed Er Ea Hs Hre. assert (reports s' = reports s) as E by (by apply total_ext).
  split; rewrite ?Ed, ?E, ?Ea; auto.
Qed.

Lemma group_outside s f : outside (wl_group s) f = true → leaving (fb_pc (pk_fibers (wl_group s) f)) = None.
Proof. intros Ho%outside_out. by rewrite Ho. Qed.

(** A fiber at a call of the group is fiber 0 or a task. *)
Lemma main_call s f : roles_inv s → (∃ op, group_call (wl_pc s f) = Some op ∧ op ≠ Done) → f = 0.
Proof.
  intros Hr (op & E & Hop). destruct (decide (f = 0)) as [|Hf]; [done|].
  pose proof (ri_task _ Hr f Hf). destruct (wl_pc s f); simplify_eq/=.
Qed.

Lemma group_mutex l s s' : roles_inv s → group_inv s → work_step (InMutex l) s = Some s' → group_inv s'.
Proof.
  intros Hr Hg Hstep. destruct (mutex_step l s s' Hr Hstep) as (_ & Eg & _ & _ & _ & Hret).
  destruct Hret as [E|(w & f & _ & E & Ho & Hf)].
  { apply (group_keep s); rewrite ?Eg, ?E; try done. apply Hg. }
  assert (f ≠ 0) as Hne.
  { intros ->. pose proof (ri_main _ Hr). destruct Hf as [op Hf]. by destruct (wl_pc s 0). }
  apply (group_keep s); rewrite ?Eg, ?E, ?upd_ne by done; try done; [|apply Hg].
  intros x. destruct (decide (f = x)) as [->|Hx]; [rewrite upd_eq|by rewrite upd_ne].
  destruct (px_apart _ (ri_objects _ Hr) x) as [?|Hx%group_outside]; [congruence|].
  unfold reported. rewrite Hx. destruct Hf as [op Hf]. by destruct (wl_pc s x).
Qed.

Lemma group_own w s s' : roles_inv s → group_inv s → work_step (OwnCode w) s = Some s' → group_inv s'.
Proof.
  intros Hr Hg Hstep. cbn [work_step] in Hstep. apply bind_Some in Hstep as (f & Ef & Hstep).
  destruct (outside (wl_mutex s) f) eqn:Eo1, (outside (wl_group s) f) eqn:Eo2; try done. simpl in Hstep.
  pose proof (group_outside s f Eo2) as Hl.
  assert (∀ q, wl_pc s' = (wl_pc s)⟦f ↦ q⟧ → wl_group s' = wl_group s →
    reported q (pk_fibers (wl_group s) f) = reported (wl_pc s f) (pk_fibers (wl_group s) f) →
    (f = 0 → added q (pk_fibers (wl_group s) 0) = added (wl_pc s 0) (pk_fibers (wl_group s) 0) ∧
      (released q (wl_group s) → released (wl_pc s 0) (wl_group s))) → group_inv s') as Hkeep.
  { intros q Eq Eg Hrep H0. apply (group_keep s); rewrite ?Eg, ?Eq; try done; [..|apply Hg|].
    - intros x. destruct (decide (f = x)) as [->|Hx]; [by rewrite upd_eq|by rewrite upd_ne].
    - destruct (decide (f = 0)) as [->|Hx]; [rewrite upd_eq; by apply H0|by rewrite upd_ne].
    - destruct (decide (f = 0)) as [->|Hx]; [rewrite upd_eq; by apply H0|by rewrite upd_ne]. }
  unfold own_code in Hstep. destruct (wl_pc s f) as [|i|i| | | | | | |v| | |] eqn:E; try done.
  - case_decide.
    + apply bind_Some in Hstep as (o & Eo & [= <-]). destruct (px_neither_step _ _ _ Eo) as (_ & _ & Eg & _).
      eapply Hkeep; [done..|]. intros ->. by rewrite E.
    + simplify_eq. eapply Hkeep; [done..|]. intros ->. rewrite E. split; [done|]. simpl.
      rewrite Hl. apply outside_out in Eo2. rewrite Eo2. by intros [].
  - apply bind_Some in Hstep as (o & Eo & [= <-]). destruct (px_neither_step _ _ _ Eo) as (_ & _ & Eg & _).
    eapply Hkeep; [done..|]. intros ->. by rewrite E.
  - simplify_eq. eapply Hkeep; [done|done|by case_decide|]. intros ->. rewrite E. by case_decide.
  - simplify_eq. eapply Hkeep; [done..|]. intros ->. by rewrite E.
  - simplify_eq. eapply Hkeep; [done..|]. intros ->. by rewrite E.
Qed.

(** What a fiber's step does to the waiting of fiber 0, if it is another fiber's. *)
Lemma step_woken g g' f : park_inv g → fiber_step f g = Some g' → f ≠ 0 →
  (∀ x, x ∈ wakes (fb_pc (pk_fibers g' f)) → x ∈ wakes (fb_pc (pk_fibers g f))) →
  fb_pc (pk_fibers g' 0) = fb_pc (pk_fibers g 0) ∧ (woken g' → woken g).
Proof.
  intros Hi Hstep Hf Hw. assert (∀ x, x ≠ f → fb_pc (pk_fibers g' x) = fb_pc (pk_fibers g x)) as Ho.
  { intros x Hx. rewrite (fiber_step_others g g' f x Hi Hstep Hx). by case_decide. }
  split; [by apply Ho|]. intros [Hs|[h Hh]].
  - rewrite (fiber_step_others g g' f 0 Hi Hstep) in Hs by done. case_decide as Hn; [|by left].
    right. exists f. destruct (fb_pc (pk_fibers g f)) as [| | | |op [|x xs] o| | | |op [|x xs]|]; simplify_eq/=; set_solver.
  - right. exists h. destruct (decide (h = f)) as [->|Hne]; [by apply Hw|by rewrite <- Ho].
Qed.

(** Before [Add] nobody runs. *)
Lemma adding_none s : roles_inv s → wl_pc s 0 = Adding → reports s = 0.
Proof.
  intros Hr E. apply sum_list_with_zero. intros f Hf%elem_of_seq.
  destruct (ri_fresh _ Hr f) as (_ & _ & ->); [lia|by rewrite E|done].
Qed.

(** The steps of a fiber in the group. *)
Section move.
  Context (w : wid) (s s' : work) (f : tid).
  Context (Hr : roles_inv s) (Hg : group_inv s) (Ef : on_stack (wl_pool s) w = Some f).
  Context (Hm : park_inv (wl_group s)) (Hm' : park_inv (wl_group s')).
  Context (Hstep : fiber_step f (wl_group s) = Some (wl_group s')).

Lemma move_others x : x ≠ f → fb_pc (pk_fibers (wl_group s') x) = fb_pc (pk_fibers (wl_group s) x).
Proof. intros Hx. rewrite (fiber_step_others _ _ f x Hm Hstep Hx). by case_decide. Qed.

Lemma reported_others x : x ≠ f → wl_pc s' x = wl_pc s x →
  reported (wl_pc s' x) (pk_fibers (wl_group s') x) = reported (wl_pc s x) (pk_fibers (wl_group s) x).
Proof. intros Hx E. unfold reported. by rewrite E, move_others. Qed.

Lemma move_kept : wl_pc s' = wl_pc s → pk_data (wl_group s') = pk_data (wl_group s) →
  leaving (fb_pc (pk_fibers (wl_group s') f)) = leaving (fb_pc (pk_fibers (wl_group s) f)) →
  (∀ op, fb_pc (pk_fibers (wl_group s') f) ≠ Susp op) →
  (∀ op, fb_pc (pk_fibers (wl_group s) f) ≠ Susp op) →
  (∀ x, x ∈ wakes (fb_pc (pk_fibers (wl_group s') f)) → x ∈ wakes (fb_pc (pk_fibers (wl_group s) f))) →
  group_inv s'.
Proof.
  intros Epc Ed El Hns Hns0 Hw. apply (group_keep s); [done|done| | | |].
  - intros x. destruct (decide (x = f)) as [->|Hx]; [|by apply reported_others; rewrite ?Epc].
    unfold reported. by rewrite Epc, El.
  - unfold added. rewrite Epc. destruct (decide (f = 0)) as [->|Hf]; [by rewrite El|by rewrite move_others].
  - intros x op. destruct (decide (x = f)) as [->|Hx]; [by intros ?%Hns|rewrite move_others by done; apply Hg].
  - rewrite Epc. unfold released. destruct (wl_pc s 0); try done. destruct (decide (f = 0)) as [->|Hf].
    + rewrite El. destruct (fb_pc (pk_fibers (wl_group s') 0)) eqn:E'; try done;
        destruct (fb_pc (pk_fibers (wl_group s) 0)) eqn:E; try done; try (by edestruct Hns0); by edestruct Hns.
    + destruct (step_woken _ _ f Hm Hstep Hf Hw) as [-> Hwk]. by destruct (fb_pc (pk_fibers (wl_group s) 0)).
Qed.

(** The operation returns. *)
Lemma move_returns op : wl_pc s' = (wl_pc s)⟦f ↦ after_call (wl_pc s f)⟧ →
  pk_data (wl_group s') = pk_data (wl_group s) → leaving (fb_pc (pk_fibers (wl_group s) f)) = Some op →
  fb_pc (pk_fibers (wl_group s') f) = Out → group_call (wl_pc s f) = Some op → group_inv s'.
Proof.
  intros Epc Ed El Eo Hcall.
  assert (∀ x, x ≠ f → wl_pc s' x = wl_pc s x) as Hpc by (intros x Hx; by rewrite Epc, upd_ne).
  assert (wl_pc s' f = after_call (wl_pc s f)) as Epf by (by rewrite Epc, upd_eq).
  apply (group_keep s); [done|done| | | |].
  - intros x. destruct (decide (x = f)) as [->|Hx]; [|by apply reported_others; auto].
    rewrite Epf. unfold reported. rewrite El. by destruct (wl_pc s f).
  - destruct (decide (f = 0)) as [->|Hf].
    + rewrite Epf. unfold added. rewrite El. by destruct (wl_pc s 0).
    + unfold added. rewrite Hpc, move_others by done. done.
  - intros x op'. destruct (decide (x = f)) as [->|Hx]; [by rewrite Eo|rewrite move_others by done; apply Hg].
  - destruct (decide (f = 0)) as [->|Hf].
    + rewrite Epf. unfold released. rewrite El. destruct (wl_pc s 0); try done.
      destruct (fb_pc (pk_fibers (wl_group s) 0)); by eauto.
    + rewrite Hpc by done. unfold released. destruct (wl_pc s 0); try done.
      destruct (step_woken _ _ f Hm Hstep Hf) as [-> Hwk]; [by rewrite Eo; intros x ?%elem_of_nil|].
      by destruct (fb_pc (pk_fibers (wl_group s) 0)).
Qed.

(** The body of an operation. *)
Context (Hpc : wl_pc s' = wl_pc s).

Lemma body_add out : wl_pc s f = Adding → fb_pc (pk_fibers (wl_group s) f) = Crit (Add (Z.of_nat kTasks)) →
  fb_pc (pk_fibers (wl_group s') f) = WakeIn (Add (Z.of_nat kTasks)) [] out →
  pk_data (wl_group s') = sz_add (pk_data (wl_group s)) (Z.of_nat kTasks) → group_inv s'.
Proof.
  intros Ep E E' Ed. assert (f = 0) as H0 by (apply (main_call s f Hr); rewrite Ep; by eexists).
  rewrite H0 in Ep, E, E'.
  pose proof (gi_data _ Hg) as Hd. rewrite Ep in Hd. simpl in Hd. rewrite E in Hd. simpl in Hd.
  assert (reports s' = reports s) as Erep.
  { apply total_ext. intros x. destruct (decide (x = 0)) as [->|Hx]; [|by apply reported_others; rewrite ?H0, ?Hpc].
    by rewrite Hpc, Ep. }
  rewrite (adding_none s Hr Ep) in Hd, Erep. split; rewrite ?Hpc, ?Ep; [|simpl; rewrite E', Erep; simpl|done].
  - intros x op. destruct (decide (x = 0)) as [->|Hx]; [by rewrite E'|rewrite move_others by (by rewrite H0); apply Hg].
  - pose proof kTasks_small. rewrite Ed, sz_add_small; unfold is_size; lia.
Qed.

Lemma body_done out : wl_pc s f = Reporting → fb_pc (pk_fibers (wl_group s) f) = Crit Done →
  fb_pc (pk_fibers (wl_group s') f) = WakeIn Done [] out →
  pk_data (wl_group s') = sz_sub (pk_data (wl_group s)) 1 → (out ≠ [] → pk_data (wl_group s') = 0%Z) → group_inv s'.
Proof.
  intros Ep E E' Ed Hout. pose proof (runs_task s w f Hr Ef) as Hf. rewrite Ep in Hf. specialize (Hf I).
  assert (f ≠ 0) as Hf0 by lia. pose proof (on_stack_started s w f Hr Ef Hf0) as Hst.
  assert (added (wl_pc s 0) (pk_fibers (wl_group s) 0) = true) as Ha by (by destruct (wl_pc s 0)).
  pose proof (gi_data _ Hg) as Hd. rewrite Ha in Hd.
  assert (reports s' = S (reports s)) as Erep.
  { pose proof (total_step (λ x, reported (wl_pc s' x) (pk_fibers (wl_group s') x))
      (λ x, reported (wl_pc s x) (pk_fibers (wl_group s) x)) f Hf) as Ht. unfold reports.
    rewrite <- (Nat.add_1_r (total (λ x, reported (wl_pc s x) _))). simpl in Ht.
    rewrite Hpc, Ep in Ht. simpl in Ht. rewrite E, E' in Ht. simpl in Ht. rewrite <- Ht, Nat.add_0_r, Hpc; [done|].
    intros x Hx. unfold reported. by rewrite move_others. }
  pose proof (reports_le s') as Hle. pose proof kTasks_small.
  assert (pk_data (wl_group s') = pk_data (wl_group s) - 1)%Z as Ed'.
  { rewrite Ed. unfold sz_sub. apply wrap64_small. unfold is_size. lia. }
  assert (reports s ≠ kTasks) as Hnot by lia.
  split; rewrite ?Hpc, ?Erep.
  - intros x op. destruct (decide (x = f)) as [->|Hx]; [by rewrite E'|rewrite move_others by done; apply Hg].
  - assert (added (wl_pc s 0) (pk_fibers (wl_group s') 0) = true) as ->; [|lia].
    unfold added in *. by rewrite move_others.
  - intros Hrel. destruct (decide (out = [])) as [->|Ho]; [|specialize (Hout Ho); lia].
    destruct Hnot. apply (gi_released _ Hg). unfold released in *. destruct (wl_pc s 0); try done.
    destruct (step_woken _ _ f Hm Hstep Hf0) as [E0 Hwk]; [by rewrite E'; intros x ?%elem_of_nil|].
    revert Hrel. rewrite E0. by destruct (fb_pc (pk_fibers (wl_group s) 0)).
Qed.

Lemma body_wait : wl_pc s f = Waiting → fb_pc (pk_fibers (wl_group s) f) = Crit Wait →
  pk_data (wl_group s') = pk_data (wl_group s) →
  (fb_pc (pk_fibers (wl_group s') f) = Susp Wait ∨
   fb_pc (pk_fibers (wl_group s') f) = WakeIn Wait [] [] ∧ (pk_data (wl_group s) ≤ 0)%Z) → group_inv s'.
Proof.
  intros Ep E Ed E'. assert (f = 0) as H0 by (apply (main_call s f Hr); rewrite Ep; by eexists).
  rewrite H0 in Ep, E, E'.
  pose proof (gi_data _ Hg) as Hd. rewrite Ep in Hd. simpl in Hd.
  assert (reports s' = reports s) as Erep.
  { apply total_ext. intros x. destruct (decide (x = 0)) as [->|Hx]; [|by apply reported_others; rewrite ?H0, ?Hpc].
    by rewrite Hpc, Ep. }
  pose proof (reports_le s). split; rewrite ?Erep, ?Hpc, ?Ep, ?Ed; [|done|].
  - intros x op. destruct (decide (x = 0)) as [->|Hx]; [|rewrite move_others by (by rewrite H0); apply Hg].
    destruct E' as [->|[-> _]]; [by intros [= <-]|done].
  - destruct E' as [E'|[E' Hz]]; [|intros _; lia]. simpl. rewrite E'. intros [Hs|[h Hh]].
    + destruct Hs. destruct (fiber_step_self _ _ f Hm Hstep Hm') as [_ Hsc]; [unfold suspended; by rewrite H0, E'|].
      by rewrite H0 in Hsc.
    + destruct (decide (h = 0)) as [->|Hne]; [rewrite E' in Hh; by apply elem_of_nil in Hh|].
      rewrite move_others in Hh by (by rewrite H0). destruct (pi_wakes _ Hm h 0 Hh) as [[Hsu _] _].
      unfold suspended in Hsu. by rewrite E in Hsu.
Qed.
End move.

Lemma group_move w s s' : roles_inv s → group_inv s → work_step (InGroup (Move w)) s = Some s' → group_inv s'.
Proof.
  intros Hr Hg Hstep. pose proof (roles_group _ _ _ Hr Hstep) as Hr'.
  destruct (group_step _ s s' Hr Hstep) as ((_ & _ & Hi & Hp) & _ & _ & _ & Hpc & _).
  pose proof (pf_park_inv _ Hi) as Hm. simpl in Hm.
  pose proof (pf_park_inv _ (pf_invariant _ (px_two_ok _ (ri_objects _ Hr')))) as Hm'. simpl in Hm'.
  cbn [pf_step] in Hp. apply bind_Some in Hp as (f & Ef & Hp). apply bind_Some in Hp as (g & Em & Hp).
  apply bind_Some in Hp as (p1 & _ & [= _ ->]). simpl in Hpc. rewrite Ef in Hpc.
  destruct (ri_group _ Hr f) as [Hcall _].
  destruct (fiber_step_kinds f _ _ Hm Em Hm') as
    [(op & E1 & E2 & Ed & _)|[(op & d & ws & v & E1 & Ec & Ed & _ & E2)|(op & E1 & Ed & [(E2 & _ & Hw)|[E2 _]])]].
  - rewrite (inside_pc _ f op) in Hpc by (by rewrite E2).
    apply (move_kept w s s' f Hg Ef Hm Em Hpc Ed); rewrite ?E1, ?E2; done.
  - assert (group_call (wl_pc s f) = Some op) as Eop by (apply Hcall; by rewrite E1).
    rewrite (inside_pc _ f op) in Hpc by (rewrite E2; by destruct v).
    destruct op as [n| |]; simpl in Ec.
    + assert (wl_pc s f = Adding ∧ n = Z.of_nat kTasks) as [Ep ->] by (destruct (wl_pc s f); by simplify_eq/=).
      unfold Add_body in Ec. simplify_eq. by apply (body_add s s' f Hr Hg Hm Em Hpc []).
    + assert (wl_pc s f = Reporting) as Ep by (destruct (wl_pc s f); by simplify_eq/=).
      unfold Done_body in Ec. case_decide; simplify_eq;
        eapply (body_done w s s' f Hr Hg Ef Hm Em Hpc); try done. by intros _; congruence.
    + assert (wl_pc s f = Waiting) as Ep by (destruct (wl_pc s f); by simplify_eq/=).
      unfold Wait_body in Ec. apply (body_wait s s' f Hr Hg Hm Hm' Em Hpc Ep E1);
        case_decide; simplify_eq; auto; right; (split; [done|lia]).
  - rewrite (inside_pc _ f op) in Hpc by (by destruct (fb_pc (pk_fibers (wl_group s') f))).
    apply (move_kept w s s' f Hg Ef Hm Em Hpc Ed); [congruence| | |done]; intros op' E.
    + by rewrite E in E2.
    + by rewrite E in E1.
  - unfold outside in Hpc. rewrite E2 in Hpc. apply (move_returns w s s' f Hg Ef Hm Em op Hpc Ed E1 E2).
    apply Hcall. by destruct (fb_pc (pk_fibers (wl_group s) f)).
Qed.

(** A step that moves a fiber's position only into an operation, or nobody's. *)
Lemma group_quiet s s' : group_inv s → wl_pc s' = wl_pc s → pk_data (wl_group s') = pk_data (wl_group s) →
  (∀ x, leaving (fb_pc (pk_fibers (wl_group s') x)) = leaving (fb_pc (pk_fibers (wl_group s) x))) →
  (∀ x op, fb_pc (pk_fibers (wl_group s') x) = Susp op → fb_pc (pk_fibers (wl_group s) x) = Susp op) →
  (∀ x, wakes (fb_pc (pk_fibers (wl_group s') x)) = wakes (fb_pc (pk_fibers (wl_group s) x))) →
  (∀ x, fb_scheduled (pk_fibers (wl_group s') x) = fb_scheduled (pk_fibers (wl_group s) x)) → group_inv s'.
Proof.
  intros Hg Epc Ed Hl Hs Hw Hsc. apply (group_keep s); rewrite ?Epc; [done|done| | | |].
  - intros x. unfold reported. by rewrite Hl.
  - unfold added. by rewrite Hl.
  - intros x op E%Hs. by apply (gi_susp _ Hg x).
  - assert (woken (wl_group s') → woken (wl_group s)) as Hwk.
    { unfold woken. rewrite Hsc. intros [?|[h Hh]]; [by left|right]. exists h. by rewrite <- Hw. }
    unfold released. specialize (Hl 0). specialize (Hs 0). destruct (wl_pc s 0); try done.
    destruct (fb_pc (pk_fibers (wl_group s') 0)) as [| | |op| | | | | |];
      [..|]; try (by rewrite (Hs op eq_refl)); rewrite Hl; destruct (fb_pc (pk_fibers (wl_group s) 0)); try done;
      by intros [].
Qed.

Lemma group_group l s s' : roles_inv s → group_inv s → work_step (InGroup l) s = Some s' → group_inv s'.
Proof.
  intros Hr Hg Hstep. destruct (group_step _ s s' Hr Hstep) as ((Hc & Hown & Hi & Hp) & _ & _ & _ & Hpc & _).
  pose proof (pf_park_inv _ Hi) as Hm. simpl in Hm. unfold returns in Hpc.
  destruct l as [w op|w|w|w|w b|l]; [|by apply (group_move w s)| | | |by destruct (Hown l)];
    cbn [pf_step] in Hp.
  - apply bind_Some in Hp as (f & Ef & Hp). apply bind_Some in Hp as (g & Em & [= _ ->]).
    pose proof (call_step_pc _ _ f op Em) as Ho.
    assert (fb_pc (pk_fibers (wl_group s) f) = Out ∧ fb_pc (pk_fibers (wl_group s') f) = Ctor op ∧
      fb_scheduled (pk_fibers (wl_group s') f) = fb_scheduled (pk_fibers (wl_group s) f) ∧
      pk_data (wl_group s') = pk_data (wl_group s)) as (E1 & E2 & Esc & Ed).
    { unfold call_step in Em. destruct (fb_pc (pk_fibers (wl_group s) f)) eqn:E; try done. case_match; [|done].
      injection Em as <-. simpl. by rewrite upd_eq. }
    apply (group_quiet s); [done..| | | |]; intros x; (destruct (decide (x = f)) as [->|Hne]; [|by rewrite Ho]);
      rewrite ?E1, ?E2; done.
  - apply bind_Some in Hp as (f & Ef & Hp). apply bind_Some in Hp as (h & Em & Hp).
    apply bind_Some in Hp as (p1 & _ & [= _ Eg]). by apply (group_quiet s); rewrite <- ?Eg.
  - apply bind_Some in Hp as (f & Ef & Hp). apply bind_Some in Hp as (g & Em & [= _ ->]).
    destruct (await_step_effect _ _ f Hm Em) as (_ & _ & [_ Ho] & Epc & Esc & _ & Ed).
    apply (group_quiet s); [done..| | | |]; intros x; (destruct (decide (x = f)) as [->|Hne]; [|by rewrite Ho]);
      by rewrite ?Epc.
  - destruct (wk_pc (dworkers (wl_pool s) w)); try done. destruct (local_tasks (dworkers (wl_pool s) w)) as [|f ks]; [done|].
    apply bind_Some in Hp as (g & Em & Hp). apply bind_Some in Hp as (p1 & _ & [= _ ->]).
    destruct (resume_step_pc _ _ f false Em) as ((op & E1 & E2) & Esc & _ & Ed & Ho).
    pose proof (gi_susp _ Hg f op E1) as ->. destruct (ri_group _ Hr f) as [Hcall _].
    assert (wl_pc s f = Waiting) as Ep.
    { specialize (Hcall Wait). rewrite E1 in Hcall. by destruct (wl_pc s f); specialize (Hcall eq_refl). }
    assert (f = 0) as -> by (apply (main_call s f Hr); rewrite Ep; by eexists).
    apply (group_keep s); rewrite ?Hpc; [done|done| | | |].
    + intros x. destruct (decide (x = 0)) as [->|Hne]; [by rewrite Ep|by rewrite Ho].
    + by rewrite Ep.
    + intros x op. destruct (decide (x = 0)) as [->|Hne]; [by rewrite E2|rewrite Ho by done; apply Hg].
    + intros _. rewrite Ep. simpl. rewrite E1. by left.
Qed.

Lemma group_invariant : invariant work_system group_inv.
Proof.
  apply (invariant_on_top _ roles_inv); [apply roles_invariant|..].
  - intros s ->. split; simpl; [done|by rewrite (adding_none new_work) by (done || by apply roles_invariant, reachable_init)|done].
  - intros [l|l|l|w|w] s s' Hr Hg Hstep.
    + cbn [lts_step work_system work_step] in Hstep. destruct (main_or_loop l s); [|done].
      apply bind_Some in Hstep as (o & Eo & [= <-]). destruct (px_neither_step _ _ _ Eo) as (_ & _ & Eg & _).
      by apply (group_quiet s); simpl; rewrite ?Eg.
    + by apply (group_mutex l s).
    + by apply (group_group l s).
    + by apply (group_own w s).
    + cbn [lts_step work_system work_step] in Hstep. apply bind_Some in Hstep as (f & _ & Hstep). destruct (finished _); [|done].
      apply bind_Some in Hstep as (o & Eo & [= <-]). destruct (px_neither_step _ _ _ Eo) as (_ & _ & Eg & _).
      by apply (group_quiet s); simpl; rewrite ?Eg.
Qed.
End reports.
