(* ===== verification/PoolProgress.v ===== *)
(** * The workload on the pool: no worker is stuck

    Between the two halves of [Go] the new fiber is nobody else's, and every worker of
    PoolWorkload.v can take a step, unless its fiber spins, or it has left its loop. *)

From stdpp Require Import prelude list gmap.
From S2P Require Import Prelude.
From S2P Require Import Lock.
From S2P Require Import Parking.
From S2P Require Import AsyncMutex.
From S2P Require Import WaitGroup.
From S2P Require Import DistributedPool.
From S2P Require Import PoolFibers.
From S2P Require Import PoolObjects.
From S2P Require Import PoolWorkload.
From S2P Require Import PoolReports.

Section progress.
  Context {T : Tasks} {few : FewTasks}.
  Implicit Types (s : work).

(** ** The fiber that is being started *)

Definition routing_inv s : Prop := ∀ i, wl_pc s 0 = Routing i →
  tk_place (dtasks (wl_pool s) (S i)) = Submitting ∧ outside (wl_mutex s) (S i) = true ∧
  wl_pc s (S i) = Locking.

Lemma no_call_outside s f : roles_inv s → group_call (wl_pc s f) = None → outside (wl_group s) f = true.
Proof.
  intros Hr E. destruct (ri_group _ Hr f) as [Hg _]. rewrite E in Hg.
  pose proof (pi_fiber _ (pf_park_inv _ (pf_invariant _ (px_two_ok _ (ri_objects _ Hr)))) f) as [Hok _].
  simpl in Hok. unfold outside. destruct (fb_pc (pk_fibers (wl_group s) f)); try done; by specialize (Hg _ eq_refl).
Qed.

Lemma pool_inv_of s : roles_inv s → dist_inv (wl_pool s).
Proof. intros Hr. apply (pf_dist _ (pf_invariant _ (px_one_ok _ (ri_objects _ Hr)))). Qed.

(** Whatever does not route it leaves it where it is. *)
Lemma routing_change s s' : roles_inv s → routing_inv s →
  (∀ i, wl_pc s' 0 = Routing i → wl_pc s 0 = Routing i) →
  (wl_pool s' = wl_pool s ∨ ∃ l, dist_step l (wl_pool s) = Some (wl_pool s') ∧
    ∀ i, wl_pc s 0 = Routing i → l ≠ Route (S i)) →
  (∀ f, (∀ w, on_stack (wl_pool s) w ≠ Some f) → outside (wl_mutex s) f = true →
    outside (wl_mutex s') f = true ∧ wl_pc s' f = wl_pc s f) → routing_inv s'.
Proof.
  intros Hr Hi Hpc Hpool Hf i E%Hpc. destruct (Hi i E) as (E1 & E2 & E3).
  destruct (Hf (S i)) as [Ho Ep]; [|done|].
  { intros w Ew. destruct (on_stack_state s w (S i) Hr Ew) as [_ Hp]. congruence. }
  split_and!; [|done|congruence]. destruct Hpool as [->|(l & El & Hl)]; [done|].
  destruct (submitting_until l _ _ (S i) (pool_inv_of s Hr) El E1) as [?|?]; [done|by destruct (Hl i E)].
Qed.

(** The fiber that returns from a call. *)
Lemma routing_returns s s' (call : routine_pc → Prop) : (∀ p, call p → is_call p) →
  (wl_pc s' = wl_pc s ∨ ∃ w f, on_stack (wl_pool s) w = Some f ∧ wl_pc s' = (wl_pc s)⟦f ↦ after_call (wl_pc s f)⟧ ∧
    call (wl_pc s f)) →
  (∀ i, wl_pc s' 0 = Routing i → wl_pc s 0 = Routing i) ∧
  (∀ f, (∀ w, on_stack (wl_pool s) w ≠ Some f) → wl_pc s' f = wl_pc s f).
Proof.
  intros Hcall [->|(w & f & Ef & -> & Hf%Hcall)]; [done|]. split.
  - intros i. destruct (decide (f = 0)) as [->|Hne]; [rewrite upd_eq|by rewrite upd_ne].
    destruct Hf as [[op Hf]|[op Hf]]; by destruct (wl_pc s 0).
  - intros g Hg. destruct (decide (f = g)) as [->|Hne]; [by destruct (Hg w)|by rewrite upd_ne].
Qed.

Lemma routing_mutex l s s' : roles_inv s → routing_inv s → work_step (InMutex l) s = Some s' → routing_inv s'.
Proof.
  intros Hr Hi Hstep. destruct (mutex_step l s s' Hr Hstep) as ((_ & Hown & Hp & Hs) & _ & _ & _ & _ & Hret).
  destruct (routing_returns s s' (λ p, is_Some (mutex_call p))) as [H1 H2]; [by left|naive_solver|].
  apply (routing_change s); [done..| |].
  - destruct (pf_step_pool l _ _ _ _ Hp Hs Hown) as [?|(l' & El & _ & Hl)]; [by left|right]. exists l'. split; [done|].
    intros i E ->. destruct (Hi i E) as (_ & Ho & _). by rewrite (Hl (S i)) in Ho by by right.
  - intros f Hf Ho. split; [|by apply H2].
    destruct (step_outside _ _ _ _ _ f Hp Hs Ho) as [?|(w & op & _ & Ew)]; [done|by destruct (Hf w)].
Qed.

Lemma routing_group l s s' : roles_inv s → routing_inv s → work_step (InGroup l) s = Some s' → routing_inv s'.
Proof.
  intros Hr Hi Hstep. destruct (group_step l s s' Hr Hstep) as ((_ & Hown & Hp & Hs) & Em & _ & _ & _ & Hret).
  destruct (routing_returns s s' (λ p, is_Some (group_call p))) as [H1 H2]; [by right|naive_solver|].
  apply (routing_change s); [done..| |].
  - destruct (pf_step_pool l _ _ _ _ Hp Hs Hown) as [?|(l' & El & _ & Hl)]; [by left|right]. exists l'. split; [done|].
    intros i E ->. destruct (Hi i E) as (_ & _ & Ep).
    assert (outside (wl_group s) (S i) = true) as Ho by (apply no_call_outside; [done|by rewrite Ep]).
    by rewrite (Hl (S i)) in Ho by by right.
  - intros f Hf Ho. rewrite Em. auto.
Qed.

Lemma routing_own w s s' : roles_inv s → routing_inv s → work_step (OwnCode w) s = Some s' → routing_inv s'.
Proof.
  intros Hr Hi Hstep. cbn [work_step] in Hstep. apply bind_Some in Hstep as (f & Ef & Hstep).
  destruct (_ && _); [|done]. pose proof (ri_task _ Hr f) as Htask.
  unfold own_code in Hstep. destruct (wl_pc s f) as [|i|i| | | | | | |v| | |] eqn:E; try done.
  1-3: assert (f = 0) as -> by (destruct (decide (f = 0)); [done|by destruct Htask]).
  - case_decide as Hk; [|by simplify_eq; intros j; simpl; rewrite upd_eq].
    apply bind_Some in Hstep as (o & Eo & [= <-]). destruct (px_neither_step _ _ _ Eo) as (Ep & Em & _).
    intros j. simpl. rewrite upd_eq, Em, upd_ne by done. intros [= <-].
    destruct (ri_fresh _ Hr (S i)) as (_ & Ho & El); [done|rewrite E; apply bool_decide_eq_false; lia|].
    split_and!; [|done..]. simpl in Ep. case_decide; [|done]. injection Ep as <-. unfold Submit_count.
    destruct (tk_state (dtasks (wl_pool s) (S i))); simpl; by rewrite upd_eq.
  - apply bind_Some in Hstep as (o & _ & [= <-]). intros j. simpl. by rewrite upd_eq.
  - simplify_eq. intros j. simpl. rewrite upd_eq. by case_decide.
  - simplify_eq. apply (routing_change s); simpl; [done..| |by left|].
    + intros j. destruct (decide (f = 0)) as [->|Hne]; [by rewrite upd_eq|by rewrite upd_ne].
    + intros g Hg Ho. split; [done|]. apply upd_ne. intros ->. by destruct (Hg w).
  - simplify_eq. apply (routing_change s); simpl; [done..| |by left|].
    + intros j. destruct (decide (f = 0)) as [->|Hne]; [by rewrite upd_eq|by rewrite upd_ne].
    + intros g Hg Ho. split; [done|]. apply upd_ne. intros ->. by destruct (Hg w).
Qed.

Lemma routing_invariant : invariant work_system routing_inv.
Proof.
  apply (invariant_on_top _ roles_inv); [apply roles_invariant|by intros s ->|].
  intros [l|l|l|w|w] s s' Hr Hi Hstep.
  - cbn [lts_step work_system work_step] in Hstep. destruct (main_or_loop l s) eqn:Hl; [|done].
    apply bind_Some in Hstep as (o & Eo & [= <-]). destruct (px_neither_step _ _ _ Eo) as (Ep & Em & _).
    apply (routing_change s); simpl; [done..| |by rewrite Em]. right. exists l. split; [done|].
    by intros i _ ->.
  - by apply (routing_mutex l s).
  - by apply (routing_group l s).
  - by apply (routing_own w s).
  - cbn [lts_step work_system work_step] in Hstep. apply bind_Some in Hstep as (f & _ & Hstep). destruct (finished _); [|done].
    apply bind_Some in Hstep as (o & Eo & [= <-]). destruct (px_neither_step _ _ _ Eo) as (Ep & Em & _).
    apply (routing_change s); simpl; [done..| |by rewrite Em]. right. by exists (Finished w).
Qed.

(** ** Every worker can move *)

Definition work_step_of (w : wid) (l : work_label) : Prop :=
  match l with
  | PoolMoves l => mover l = Some w
  | InMutex l => step_of w l
  | InGroup l => step_of w l
  | OwnCode u | Return u => u = w
  end.

Definition work_can_move s (w : wid) : Prop := ∃ l, work_step_of w l ∧ is_Some (work_step l s).

Lemma mutex_enabled s w l : step_of w l → calls mutex_call l s = true →
  may_enter l (wl_pool s) (wl_group s) = true → is_Some (pf_step l (px_left (wl_objects s))) → work_can_move s w.
Proof.
  intros Hw Hc Hm Hs. exists (InMutex l). split; [done|]. cbn [work_step]. rewrite Hc.
  destruct (px_one_enabled l _ Hm Hs) as [o ->]. by eexists.
Qed.

Lemma group_enabled s w l : step_of w l → calls group_call l s = true →
  may_enter l (wl_pool s) (wl_mutex s) = true → is_Some (pf_step l (px_right (wl_objects s))) → work_can_move s w.
Proof.
  intros Hw Hc Hm Hs. exists (InGroup l). split; [done|]. cbn [work_step]. rewrite Hc.
  destruct (px_two_enabled l _ Hm Hs) as [o ->]. by eexists.
Qed.

Lemma loop_enabled s w b : elsewhere (Step w b) (px_left (wl_objects s)) = true →
  elsewhere (Step w b) (px_right (wl_objects s)) = true → is_Some (worker_step (wl_pool s) w b) → work_can_move s w.
Proof.
  intros H1 H2 Hs. exists (PoolMoves (Step w b)). split; [done|]. cbn [work_step main_or_loop].
  destruct (px_neither_enabled (Step w b) _ H1 H2 Hs) as [o ->]. by eexists.
Qed.

(** A fiber outside calls the operation that its routine is at. *)
Lemma enter_mutex s w f op : roles_inv s → on_stack (wl_pool s) w = Some f → outside (wl_mutex s) f = true →
  outside (wl_group s) f = true → mutex_call (wl_pc s f) = Some op → work_can_move s w.
Proof.
  intros Hr Ef Ho Hg Hop. apply (mutex_enabled s w (Enter w op));
    [done|cbn [calls]; rewrite Ef; by apply bool_decide_eq_true|cbn [may_enter]; by rewrite Ef|].
  unfold px_left. cbn [pf_step]. rewrite Ef. simpl. unfold call_step. rewrite (outside_out _ _ Ho).
  destruct (ri_mutex _ Hr f) as [_ ->]. destruct (wl_pc s f); simplify_eq/=; by eexists.
Qed.

Lemma enter_group s w f op : roles_inv s → on_stack (wl_pool s) w = Some f → outside (wl_mutex s) f = true →
  outside (wl_group s) f = true → group_call (wl_pc s f) = Some op → work_can_move s w.
Proof.
  intros Hr Ef Ho Hg Hop. apply (group_enabled s w (Enter w op));
    [done|cbn [calls]; rewrite Ef; by apply bool_decide_eq_true|cbn [may_enter]; by rewrite Ef|].
  unfold px_right. cbn [pf_step]. rewrite Ef. simpl. unfold call_step. rewrite (outside_out _ _ Hg).
  pose proof kTasks_small. destruct (wl_pc s f); simplify_eq/=; try (by eexists).
  rewrite bool_decide_true by lia. by eexists.
Qed.

(** A fiber that has not been started can be submitted, and one submitted can be routed. *)
Lemma own_enabled s w f : roles_inv s → routing_inv s → on_stack (wl_pool s) w = Some f →
  outside (wl_mutex s) f = true → outside (wl_group s) f = true → mutex_call (wl_pc s f) = None →
  group_call (wl_pc s f) = None → finished (wl_pc s f) = false → wl_pc s f ≠ Failed → work_can_move s w.
Proof.
  intros Hr Hi Ef Ho Hg Em Eg En Hnf. exists (OwnCode w). split; [done|]. cbn [work_step]. rewrite Ef. simpl.
  rewrite Ho, Hg. simpl. pose proof (ri_task _ Hr f) as Htask.
  unfold own_code. destruct (wl_pc s f) as [|i|i| | | | | | |v| | |] eqn:E; try done; try (by eexists).
  all: assert (f = 0) as -> by (destruct (decide (f = 0)); [done|by destruct Htask]).
  - case_decide as Hk; [|by eexists].
    destruct (ri_fresh _ Hr (S i)) as (Hp & Hom & El); [done|rewrite E; apply bool_decide_eq_false; lia|].
    pose proof (pf_pool_reachable _ (px_one_ok _ (ri_objects _ Hr))) as Hpool. simpl in Hpool.
    destruct (dist_count_invariant _ Hpool) as [_ [X Hc]]. destruct (dc_fresh _ _ Hc _ Hp) as [_ Hout].
    destruct (px_neither_enabled (CallSubmit (S i)) (wl_objects s)) as [o ->]; [done| | |by eexists].
    + simpl. apply no_call_outside; [done|by rewrite El].
    + simpl. rewrite Hout. by eexists.
  - destruct (Hi i E) as (Hp & Hom & El).
    destruct (px_neither_enabled (Route (S i)) (wl_objects s)) as [o ->]; [done| | |by eexists].
    + simpl. apply no_call_outside; [done|by rewrite El].
    + simpl. rewrite Hp. by eexists.
Qed.

Lemma return_enabled s w f : roles_inv s → on_stack (wl_pool s) w = Some f →
  outside (wl_mutex s) f = true → outside (wl_group s) f = true → finished (wl_pc s f) = true → work_can_move s w.
Proof.
  intros Hr Ef Ho Hg Hf. exists (Return w). split; [done|]. cbn [work_step]. rewrite Ef. simpl. rewrite Hf.
  destruct (px_neither_enabled (Finished w) (wl_objects s)) as [o ->]; [| | |by eexists]; simpl; rewrite ?Ef; try done.
  unfold on_stack in Ef. destruct (wk_pc (dworkers (wl_pool s) w)); simplify_eq. by eexists.
Qed.

Lemma on_stack_enabled s w f : roles_inv s → routing_inv s → wl_pc s 0 ≠ Failed → on_stack (wl_pool s) w = Some f →
  work_can_move s w ∨ spins (px_left (wl_objects s)) w ∨ spins (px_right (wl_objects s)) w.
Proof.
  intros Hr Hi Hn Ef. destruct (ri_objects _ Hr) as [H1%pf_invariant H2%pf_invariant _].
  destruct (outside (wl_mutex s) f) eqn:Ho.
  2: { destruct (inside_goes_on _ _ w f H1 Ef Ho) as [(l & Hl & E)|?]; [left|by right; left].
       destruct Hl as [-> | ->]; [by apply (mutex_enabled s w (Move w))|by apply (mutex_enabled s w (Count w))]. }
  destruct (outside (wl_group s) f) eqn:Hg.
  2: { destruct (inside_goes_on _ _ w f H2 Ef Hg) as [(l & Hl & E)|?]; [left|by right; right].
       destruct Hl as [-> | ->]; [by apply (group_enabled s w (Move w))|by apply (group_enabled s w (Count w))]. }
  left. destruct (mutex_call (wl_pc s f)) as [op|] eqn:E1; [by apply (enter_mutex s w f op)|].
  destruct (group_call (wl_pc s f)) as [op|] eqn:E2; [by apply (enter_group s w f op)|].
  destruct (finished (wl_pc s f)) eqn:E3; [by apply (return_enabled s w f)|].
  apply (own_enabled s w f); try done. intros E. pose proof (ri_task _ Hr f) as Ht. rewrite E in Ht.
  destruct (decide (f = 0)) as [->|Hf]; [done|by apply Ht].
Qed.

(** [w] can move; or its fiber waits for one of the two spinlocks. *)
Definition goes_or_spins s w : Prop :=
  work_can_move s w ∨ spins (px_left (wl_objects s)) w ∨ spins (px_right (wl_objects s)) w.

Lemma workers_go s w : roles_inv s → routing_inv s → wl_pc s 0 ≠ Failed → goes_or_spins s w ∨
  wk_pc (dworkers (wl_pool s) w) = LDone ∨ wk_pc (dworkers (wl_pool s) w) = LAbort.
Proof.
  intros Hr Hi Hn. destruct (ri_objects _ Hr) as [H1%pf_invariant H2%pf_invariant _].
  destruct (wk_pc (dworkers (wl_pool s) w)) as [|k|k|k| |k|q| | | | | |d|d|d| |] eqn:Ew; auto; left.
  2: { apply (on_stack_enabled s w k); try done. unfold on_stack. by rewrite Ew. }
  all: left.
  3-14: apply (loop_enabled s w true); simpl; unfold worker_step; rewrite ?Ew; try done;
    repeat case_match; by eexists.
  - destruct (local_tasks (dworkers (wl_pool s) w)) as [|k ks] eqn:Eq.
    { apply (loop_enabled s w false); simpl; unfold worker_step; rewrite ?Ew, ?Eq; first [done|by eexists]. }
    destruct (outside (wl_mutex s) k) eqn:Ho.
    2: { eapply (mutex_enabled s w (Take w false)); [done..|by eapply take_enabled]. }
    destruct (outside (wl_group s) k) eqn:Hg.
    2: { eapply (group_enabled s w (Take w false)); [done..|by eapply take_enabled]. }
    apply (loop_enabled s w false); simpl; unfold worker_step; rewrite ?Ew, ?Eq; first [done|by eexists].
  - destruct (fb_worker (pk_fibers (wl_mutex s) k)) eqn:E1.
    2-5: eapply (mutex_enabled s w (Await w)); [done..|eapply await_enabled; [done|done|simpl; by rewrite E1]].
    destruct (fb_worker (pk_fibers (wl_group s) k)) eqn:E2.
    2-5: eapply (group_enabled s w (Await w)); [done..|eapply await_enabled; [done|done|simpl; by rewrite E2]].
    apply (loop_enabled s w false); simpl; unfold worker_step; rewrite ?Ew, ?E1, ?E2; first [done|by eexists].
Qed.
End progress.
