(* ===== verification/PoolAssertion.v ===== *)
(** * The workload on the pool: its assertion

    Where fiber 0 checks the counter, every increment has been made and no other fiber
    uses the mutex or the wait group, which are locals of fiber 0. *)

From stdpp Require Import prelude list gmap.
From S2P Require Import Prelude.
From S2P Require Import Lock.
From S2P Require Import Parking.
From S2P Require Import AsyncMutex.
From S2P Require Import WaitGroup.
From S2P Require Import DistributedPool.
From S2P Require Import PoolFibers.
From S2P Require Import PoolObjects.
From S2P Require Import PoolWorkload.
From S2P Require Import PoolReports.
From S2P Require Import PoolProgress.

Section assertion.
  Context {T : Tasks} {few : FewTasks}.
  Implicit Types (s : work).

(** ** The mutex and the group are locals of fiber 0 *)

(** Fiber 0 runs, or is about to run, what follows [Wait]. *)
Definition resumed (p : routine_pc) (g : wg_state) : Prop :=
  match p with
  | Checking | Checked | Failed => True
  | Waiting =>
      match fb_pc (pk_fibers g 0) with
      | Susp _ => fb_scheduled (pk_fibers g 0) ≠ 0
      | _ => is_Some (leaving (fb_pc (pk_fibers g 0)))
      end
  | _ => False
  end.

(** Nobody else is under the spinlock of the group then, nor on the way to wake it. *)
Record locals_inv s : Prop := LocalsInv {
  li_inside : ∀ f op i o, fb_pc (pk_fibers (wl_group s) f) = WakeIn op i o → i = [];
  li_wakes : ∀ h f, 0 ∈ wakes (fb_pc (pk_fibers (wl_group s) h)) → f ≠ h →
    holds_spin (pk_fibers (wl_group s) f) = false;
  li_resumed : resumed (wl_pc s 0) (wl_group s) → ∀ f, f ≠ 0 → holds_spin (pk_fibers (wl_group s) f) = false
}.

Lemma locals_keep s s' : locals_inv s →
  (∀ f, holds_spin (pk_fibers (wl_group s') f) = true → holds_spin (pk_fibers (wl_group s) f) = true) →
  (∀ f op i o, fb_pc (pk_fibers (wl_group s') f) = WakeIn op i o → i = []) →
  (∀ h, 0 ∈ wakes (fb_pc (pk_fibers (wl_group s') h)) → 0 ∈ wakes (fb_pc (pk_fibers (wl_group s) h))) →
  (resumed (wl_pc s' 0) (wl_group s') → resumed (wl_pc s 0) (wl_group s)) → locals_inv s'.
Proof.
  intros [H1 H2 H3] Hh Hi Hw Hre. split; [done| |].
  - intros h f Hin%Hw Hf. specialize (H2 h f Hin Hf). specialize (Hh f).
    destruct (holds_spin (pk_fibers (wl_group s') f)); [by rewrite Hh in H2|done].
  - intros Hr f Hf. specialize (H3 (Hre Hr) f Hf). specialize (Hh f).
    destruct (holds_spin (pk_fibers (wl_group s') f)); [by rewrite Hh in H3|done].
Qed.

Lemma locals_same s s' : locals_inv s → wl_group s' = wl_group s →
  (resumed (wl_pc s' 0) (wl_group s) → resumed (wl_pc s 0) (wl_group s)) → locals_inv s'.
Proof. intros Hl Eg Hre. apply (locals_keep s); rewrite ?Eg; try done. apply Hl. Qed.

(** When all have reported, nobody asks for the spinlock of the group. *)
Lemma all_reported s f : reports s = kTasks → 1 ≤ f ≤ kTasks →
  wl_pc s f = Reported ∨ wl_pc s f = Reporting ∧ is_Some (leaving (fb_pc (pk_fibers (wl_group s) f))).
Proof.
  intros Hrep Hf. assert (reported (wl_pc s f) (pk_fibers (wl_group s) f) = 1) as E.
  { apply (total_full (λ g, reported (wl_pc s g) (pk_fibers (wl_group s) g)) f); [|done|done].
    intros g. unfold reported. repeat case_match; lia. }
  unfold reported in E. destruct (wl_pc s f); try done; [right|by left].
  destruct (leaving _); [by split; [|eexists]|done].
Qed.

Lemma resumed_released s : resumed (wl_pc s 0) (wl_group s) → released (wl_pc s 0) (wl_group s).
Proof.
  unfold resumed, released, woken. destruct (wl_pc s 0); try done.
  destruct (fb_pc (pk_fibers (wl_group s) 0)); try done. by left.
Qed.

Lemma wakes_released s h : roles_inv s → group_inv s → 0 ∈ wakes (fb_pc (pk_fibers (wl_group s) h)) →
  released (wl_pc s 0) (wl_group s).
Proof.
  intros Hr Hg Hin. pose proof (pf_park_inv _ (pf_invariant _ (px_two_ok _ (ri_objects _ Hr)))) as Hm. simpl in Hm.
  destruct (pi_wakes _ Hm h 0 Hin) as [[Hsu _] _]. unfold suspended in Hsu.
  destruct (fb_pc (pk_fibers (wl_group s) 0)) as [| | |op| | | | | |] eqn:E; try done.
  pose proof (gi_susp _ Hg 0 op E) as ->. destruct (ri_group _ Hr 0) as [Hcall _].
  specialize (Hcall Wait). rewrite E in Hcall. specialize (Hcall eq_refl).
  unfold released. destruct (wl_pc s 0); simplify_eq/=. rewrite E. right. by exists h.
Qed.

(** A fiber on its way out takes no lock. *)
Lemma leaving_holds (g g' : wg_state) f : park_inv g → fiber_step f g = Some g' →
  is_Some (leaving (fb_pc (pk_fibers g f))) → holds_spin (pk_fibers g' f) = true → holds_spin (pk_fibers g f) = true.
Proof.
  intros Hm Hstep Hl. pose proof (next_wake_parked g f) as Hnext. unfold fiber_step in Hstep.
  destruct (fb_pc (pk_fibers g f)) as [|op|op|op|op [|x xs] o|op o|op o|op o|op [|x xs]|] eqn:E; simpl in Hstep;
    try (by destruct Hl); unfold holds_spin at 2; rewrite E; try done; step_cases Hstep; simplify_eq; simpl;
    try (destruct (Hnext x Hm eq_refl) as [_ Hx]; rewrite (upd_ne _ x f) by done); rewrite upd_eq; try done.
Qed.

Lemma leaving_inside (g g' : wg_state) f op i o : park_inv g → fiber_step f g = Some g' →
  is_Some (leaving (fb_pc (pk_fibers g f))) → fb_pc (pk_fibers g' f) = WakeIn op i o →
  ∃ x, fb_pc (pk_fibers g f) = WakeIn op (x :: i) o.
Proof.
  intros Hm Hstep Hl. pose proof (next_wake_parked g f) as Hnext. unfold fiber_step in Hstep.
  destruct (fb_pc (pk_fibers g f)) as [|op'|op'|op'|op' [|x xs] o'|op' o'|op' o'|op' o'|op' [|x xs]|] eqn:E; simpl in Hstep;
    try (by destruct Hl); step_cases Hstep; simplify_eq; simpl;
    try (destruct (Hnext x Hm eq_refl) as [_ Hx]; rewrite (upd_ne _ x f) by done); rewrite upd_eq; try done; simpl.
  intros [= -> -> ->]. by exists x.
Qed.

Section locals_move.
  Context (w : wid) (s s' : work) (f : tid).
  Context (Hr : roles_inv s) (Hr' : roles_inv s') (Hg' : group_inv s') (Hl : locals_inv s).
  Context (Ef : on_stack (wl_pool s) w = Some f).
  Context (Hm : park_inv (wl_group s)) (Hm' : park_inv (wl_group s')).
  Context (Hstep : fiber_step f (wl_group s) = Some (wl_group s')).
  Context (Hpc : ∀ x, x ≠ f → wl_pc s' x = wl_pc s x).

Lemma holds_others x : x ≠ f → holds_spin (pk_fibers (wl_group s') x) = holds_spin (pk_fibers (wl_group s) x).
Proof. intros Hx. rewrite (fiber_step_others _ _ f x Hm Hstep Hx). by case_decide. Qed.

Lemma inside_others x op i o : x ≠ f → fb_pc (pk_fibers (wl_group s') x) = WakeIn op i o → i = [].
Proof. intros Hx. rewrite (fiber_step_others _ _ f x Hm Hstep Hx). case_decide; apply Hl. Qed.

Lemma resumed_others : f ≠ 0 → next_wake (fb_pc (pk_fibers (wl_group s) f)) ≠ Some 0 →
  resumed (wl_pc s' 0) (wl_group s') → resumed (wl_pc s 0) (wl_group s).
Proof.
  intros Hf Hn. rewrite Hpc by done. unfold resumed.
  by rewrite (fiber_step_others _ _ f 0 Hm Hstep), decide_False by done.
Qed.

(** It takes the lock: not after the last report. *)
Lemma locals_lock op : fb_pc (pk_fibers (wl_group s) f) = Ctor op → fb_pc (pk_fibers (wl_group s') f) = Crit op →
  locals_inv s'.
Proof.
  intros E E'. destruct (ri_group _ Hr' f) as [Hcall _]. specialize (Hcall op). rewrite E' in Hcall.
  specialize (Hcall eq_refl). assert (released (wl_pc s' 0) (wl_group s') → f = 0) as Hnot.
  { intros Hrel. destruct (decide (f = 0)) as [|Hf]; [done|].
    pose proof (on_stack_started s w f Hr Ef Hf) as Hs. pose proof (ri_main _ Hr) as Hmain.
    assert (1 ≤ f ≤ kTasks) as Hk.
    { split; [lia|]. destruct (wl_pc s 0); simpl in Hs, Hmain; try done; apply bool_decide_eq_true in Hs; lia. }
    destruct (all_reported s' f (gi_released _ Hg' Hrel) Hk) as [E1|[_ E1]]; [by rewrite E1 in Hcall|].
    rewrite E' in E1. by destruct E1. }
  split.
  - intros x op' i o. destruct (decide (x = f)) as [->|Hx]; [by rewrite E'|by apply inside_others].
  - intros h x Hin _. exfalso. pose proof (Hnot (wakes_released s' h Hr' Hg' Hin)) as H0. rewrite H0 in E'.
    destruct (pi_wakes _ Hm' h 0 Hin) as [[Hsu _] _]. unfold suspended in Hsu. by rewrite E' in Hsu.
  - intros Hres x _. exfalso. pose proof (Hnot (resumed_released s' Hres)) as H0. rewrite H0 in E', Hcall.
    unfold resumed in Hres. rewrite E' in Hres. destruct (wl_pc s' 0); try done. by destruct Hres.
Qed.

(** It runs the body, alone under the lock. *)
Lemma locals_body op : fb_pc (pk_fibers (wl_group s) f) = Crit op →
  (∀ op i o, fb_pc (pk_fibers (wl_group s') f) = WakeIn op i o → i = []) → locals_inv s'.
Proof.
  intros E Hi. assert (holds_spin (pk_fibers (wl_group s) f) = true) as Hf by (unfold holds_spin; by rewrite E).
  assert (∀ x, x ≠ f → holds_spin (pk_fibers (wl_group s') x) = false) as Hno.
  { intros x Hx. rewrite holds_others by done. destruct (holds_spin (pk_fibers (wl_group s) x)) eqn:Ex; [|done].
    apply (pi_spin _ Hm) in Ex. apply (pi_spin _ Hm) in Hf. congruence. }
  split.
  - intros x op' i o. destruct (decide (x = f)) as [->|Hx]; [apply Hi|by apply inside_others].
  - intros h x Hin Hx. destruct (decide (h = f)) as [->|Hh]; [by apply Hno|].
    rewrite (fiber_step_others _ _ f h Hm Hstep Hh) in Hin.
    pose proof (li_wakes _ Hl h f) as Hw. rewrite Hf in Hw. case_decide; by specialize (Hw Hin (not_eq_sym Hh)).
  - intros Hres x Hx. destruct (decide (f = 0)) as [H0|H0]; [by apply Hno; rewrite H0|].
    pose proof (li_resumed _ Hl (resumed_others H0 ltac:(by rewrite E) Hres) f H0). congruence.
Qed.

(** It leaves. *)
Lemma locals_leave : is_Some (leaving (fb_pc (pk_fibers (wl_group s) f))) →
  (∀ x, x ∈ wakes (fb_pc (pk_fibers (wl_group s') f)) → x ∈ wakes (fb_pc (pk_fibers (wl_group s) f))) →
  (∀ op i o, fb_pc (pk_fibers (wl_group s') f) = WakeIn op i o → i = []) →
  (f = 0 → resumed (wl_pc s' 0) (wl_group s') → resumed (wl_pc s 0) (wl_group s)) → locals_inv s'.
Proof.
  intros Hlv Hw Hi H0.
  assert (∀ x, holds_spin (pk_fibers (wl_group s') x) = true → holds_spin (pk_fibers (wl_group s) x) = true) as Hh.
  { intros x. destruct (decide (x = f)) as [->|Hx]; [by apply leaving_holds|by rewrite holds_others]. }
  assert (∀ x op i o, fb_pc (pk_fibers (wl_group s') x) = WakeIn op i o → i = []) as Hi'.
  { intros x op i o. destruct (decide (x = f)) as [->|Hx]; [apply Hi|by apply inside_others]. }
  destruct (decide (next_wake (fb_pc (pk_fibers (wl_group s) f)) = Some 0)) as [En|En].
  - assert (∀ x, holds_spin (pk_fibers (wl_group s') x) = false) as Hno.
    { intros x. destruct (holds_spin (pk_fibers (wl_group s') x)) eqn:Ex; [|done]. apply Hh in Ex.
      destruct (decide (x = f)) as [->|Hx].
      - unfold holds_spin in Ex.
        destruct (fb_pc (pk_fibers (wl_group s) f)) as [| | | |op [|y ys] o| | | |op [|y ys]|] eqn:E; try done.
        by apply (li_inside _ Hl) in E.
      - rewrite (li_wakes _ Hl f x) in Ex; [done| |done].
        destruct (fb_pc (pk_fibers (wl_group s) f)) as [| | | |op [|y ys] o| | | |op [|y ys]|]; simplify_eq/=; set_solver. }
    split; [apply Hi'|auto..].
  - apply (locals_keep s); [done..| |].
    + intros h. destruct (decide (h = f)) as [->|Hx]; [apply Hw|].
      rewrite (fiber_step_others _ _ f h Hm Hstep Hx). by case_decide.
    + destruct (decide (f = 0)) as [E0|E0]; [by apply H0|by apply resumed_others].
Qed.
End locals_move.

Lemma locals_move w s s' : roles_inv s → group_inv s → locals_inv s →
  work_step (InGroup (Move w)) s = Some s' → locals_inv s'.
Proof.
  intros Hr Hg Hl Hstep. pose proof (roles_group _ _ _ Hr Hstep) as Hr'.
  pose proof (group_group _ _ _ Hr Hg Hstep) as Hg'.
  destruct (group_step _ s s' Hr Hstep) as ((_ & _ & Hi & Hp) & _ & _ & _ & Hpc & _).
  pose proof (pf_park_inv _ Hi) as Hm. simpl in Hm.
  pose proof (pf_park_inv _ (pf_invariant _ (px_two_ok _ (ri_objects _ Hr')))) as Hm'. simpl in Hm'.
  cbn [pf_step] in Hp. apply bind_Some in Hp as (f & Ef & Hp). apply bind_Some in Hp as (g & Em & Hp).
  apply bind_Some in Hp as (p1 & _ & [= _ ->]). simpl in Hpc. rewrite Ef in Hpc.
  assert (∀ x, x ≠ f → wl_pc s' x = wl_pc s x) as Ho.
  { intros x Hx. rewrite Hpc. destruct (outside _ f); [by rewrite upd_ne|done]. }
  destruct (ri_group _ Hr f) as [Hcall _].
  destruct (fiber_step_kinds f _ _ Hm Em Hm') as
    [(op & E1 & E2 & _)|[(op & d & ws & v & E1 & Ec & _ & _ & E2)|(op & E1 & _ & [(E2 & _ & Hw)|[E2 _]])]].
  - by apply (locals_lock w s s' f Hr Hr' Hg' Hl Ef Hm Hm' Em op).
  - apply (locals_body s s' f Hl Hm Em Ho op E1). intros op' i o. rewrite E2.
    destruct op as [n| |]; simpl in Ec; unfold Add_body, Done_body, Wait_body in Ec;
      repeat case_match; simplify_eq; by intros [= _ <- _].
  - rewrite (inside_pc _ f op) in Hpc by (by destruct (fb_pc (pk_fibers (wl_group s') f))).
    apply (locals_leave w s s' f Hr Hr' Hg' Hl Ef Hm Hm' Em Ho); [by rewrite E1|done| |].
    + intros op' i o E. destruct (leaving_inside _ _ f op' i o Hm Em ltac:(by rewrite E1) E) as [x Ex].
      by apply (li_inside _ Hl) in Ex.
    + intros ->. rewrite Hpc. unfold resumed. rewrite E1.
      destruct (wl_pc s 0); try done. by destruct (fb_pc (pk_fibers (wl_group s) 0)).
  - unfold outside in Hpc. rewrite E2 in Hpc. apply (locals_leave w s s' f Hr Hr' Hg' Hl Ef Hm Hm' Em Ho); [by rewrite E1| | |].
    + rewrite E2. by intros x ?%elem_of_nil.
    + by rewrite E2.
    + intros ->. rewrite Hpc, upd_eq. unfold resumed. rewrite E1.
      assert (group_call (wl_pc s 0) = Some op) as Ecall by (apply Hcall; by destruct (fb_pc (pk_fibers (wl_group s) 0))).
      destruct (wl_pc s 0); try done. destruct (fb_pc (pk_fibers (wl_group s) 0)); by eauto.
Qed.

(** [AwaitSuspend] only lets go of the lock. *)
Lemma locals_await s s' f : park_inv (wl_group s) → locals_inv s →
  AwaitSuspend_step f (wl_group s) = Some (wl_group s') → wl_pc s' = wl_pc s → locals_inv s'.
Proof.
  intros Hm Hl Em Hpc. destruct (await_step_effect _ _ f Hm Em) as (Hs & _ & [_ Ho] & Epc & Esc & _ & Ed).
  assert (∀ x, fb_pc (pk_fibers (wl_group s') x) = fb_pc (pk_fibers (wl_group s) x)) as Hx.
  { intros x. destruct (decide (x = f)) as [->|Hne]; [done|by rewrite Ho]. }
  assert (∀ x, fb_scheduled (pk_fibers (wl_group s') x) = fb_scheduled (pk_fibers (wl_group s) x)) as Hsc.
  { intros x. destruct (decide (x = f)) as [->|Hne]; [done|by rewrite Ho]. }
  apply (locals_keep s); [done|..].
  - intros x. destruct (decide (x = f)) as [->|Hne]; [|by rewrite Ho].
    unfold holds_spin. rewrite Epc. unfold suspended in Hs.
    destruct (fb_pc (pk_fibers (wl_group s) f)); try done. unfold AwaitSuspend_step in Em.
    destruct (fb_worker (pk_fibers (wl_group s) f)); try done.
    step_cases Em; rewrite <- Em; simpl; by rewrite upd_eq.
  - intros x op i o. rewrite Hx. apply Hl.
  - intros x. by rewrite Hx.
  - rewrite Hpc. unfold resumed. by rewrite Hx, Hsc.
Qed.

Lemma locals_group l s s' : roles_inv s → group_inv s → locals_inv s →
  work_step (InGroup l) s = Some s' → locals_inv s'.
Proof.
  intros Hr Hg Hl Hstep. destruct (group_step _ s s' Hr Hstep) as ((Hc & Hown & Hi & Hp) & _ & _ & _ & Hpc & _).
  pose proof (pf_park_inv _ Hi) as Hm. simpl in Hm. unfold returns in Hpc.
  destruct l as [w op|w|w|w|w b|l]; [|by apply (locals_move w s)| | | |by destruct (Hown l)];
    cbn [pf_step] in Hp.
  - apply bind_Some in Hp as (f & Ef & Hp). apply bind_Some in Hp as (g & Em & [= _ ->]).
    pose proof (call_step_pc _ _ f op Em) as Ho.
    assert (fb_pc (pk_fibers (wl_group s') f) = Ctor op) as E2.
    { unfold call_step in Em. step_cases Em. rewrite <- Em. simpl. by rewrite upd_eq. }
    apply (locals_keep s); [done|..].
    + intros x. destruct (decide (x = f)) as [->|Hx]; [unfold holds_spin; by rewrite E2|by rewrite Ho].
    + intros x op' i o. destruct (decide (x = f)) as [->|Hx]; [by rewrite E2|rewrite Ho by done; apply Hl].
    + intros x. destruct (decide (x = f)) as [->|Hx]; [rewrite E2; by intros ?%elem_of_nil|by rewrite Ho].
    + rewrite Hpc. unfold resumed. destruct (wl_pc s 0); try done.
      destruct (decide (0 = f)) as [<-|Hx]; [rewrite E2; by intros []|by rewrite Ho].
  - apply bind_Some in Hp as (f & Ef & Hp). apply bind_Some in Hp as (h & Em & Hp).
    apply bind_Some in Hp as (p1 & _ & [= _ Eg]). apply (locals_same s); [done..|by rewrite Hpc].
  - apply bind_Some in Hp as (f & Ef & Hp). apply bind_Some in Hp as (g & Em & [= _ ->]).
    by apply (locals_await s s' f Hm Hl).
  - destruct (wk_pc (dworkers (wl_pool s) w)); try done. destruct (local_tasks (dworkers (wl_pool s) w)) as [|f ks]; [done|].
    apply bind_Some in Hp as (g & Em & Hp). apply bind_Some in Hp as (p1 & _ & [= _ ->]).
    destruct (resume_step_pc _ _ f false Em) as ((op & E1 & E2) & Esc & _ & Ed & Ho).
    pose proof (gi_susp _ Hg f op E1) as ->. destruct (ri_group _ Hr f) as [Hcall _].
    assert (wl_pc s f = Waiting) as Ep.
    { specialize (Hcall Wait). rewrite E1 in Hcall. by destruct (wl_pc s f); specialize (Hcall eq_refl). }
    assert (f = 0) as -> by (apply (main_call s f Hr); rewrite Ep; by eexists).
    split.
    + intros x op i o. destruct (decide (x = 0)) as [->|Hx]; [by rewrite E2|rewrite Ho by done; apply Hl].
    + intros h f Hin. exfalso. destruct (decide (h = 0)) as [->|Hx]; [rewrite E2 in Hin; by apply elem_of_nil in Hin|].
      rewrite Ho in Hin by done. by destruct (pi_wakes _ Hm h 0 Hin) as [(_ & _ & ?) _].
    + intros _ f Hf. rewrite Ho by done. apply (li_resumed _ Hl); [|done]. rewrite Ep. simpl. by rewrite E1.
Qed.

Lemma own_code_resumed s s' : own_code 0 s = Some s' → outside (wl_group s) 0 = true →
  resumed (wl_pc s' 0) (wl_group s) → resumed (wl_pc s 0) (wl_group s).
Proof.
  unfold own_code. intros Hstep Ho%outside_out.
  destruct (wl_pc s 0) as [|i|i| | | | | | |v| | |] eqn:E; try done.
  - case_decide.
    + by apply bind_Some in Hstep as (o & _ & [= <-]).
    + simplify_eq/=. rewrite Ho. by intros [].
  - by apply bind_Some in Hstep as (o & _ & [= <-]).
  - by simplify_eq/=.
  - by simplify_eq/=.
Qed.

Lemma locals_invariant : invariant work_system locals_inv.
Proof.
  apply (invariant_on_top _ (λ s, roles_inv s ∧ group_inv s)).
  { intros s Hs. split; [by apply roles_invariant|by apply group_invariant]. }
  - intros s ->. split; simpl; [done|by intros h f ?%elem_of_nil|done].
  - intros [l|l|l|w|w] s s' [Hr Hg] Hl Hstep.
    + cbn [lts_step work_system work_step] in Hstep. destruct (main_or_loop l s); [|done].
      apply bind_Some in Hstep as (o & Eo & [= <-]). destruct (px_neither_step _ _ _ Eo) as (_ & _ & Eg & _).
      by apply (locals_same s).
    + destruct (mutex_step l s s' Hr Hstep) as (_ & Eg & _ & _ & _ & Hret). apply (locals_same s); [done..|].
      destruct Hret as [->|(w & f & _ & -> & _ & [op Hop])]; [done|].
      pose proof (ri_main _ Hr). destruct (decide (f = 0)) as [->|Hf]; [by destruct (wl_pc s 0)|by rewrite upd_ne].
    + by apply (locals_group l s).
    + cbn [lts_step work_system work_step] in Hstep. apply bind_Some in Hstep as (f & Ef & Hstep).
      destruct (outside (wl_mutex s) f) eqn:Eo1, (outside (wl_group s) f) eqn:Eo2; try done. simpl in Hstep.
      destruct (own_code_effect f s s' Hstep) as (q & Eq & Hobj & _).
      assert (wl_group s' = wl_group s) as Eg.
      { destruct Hobj as [->|(l & El & _)]; [done|]. by destruct (px_neither_step _ _ _ El) as (_ & _ & -> & _). }
      apply (locals_same s); [done..|].
      destruct (decide (f = 0)) as [->|Hf]; [by apply own_code_resumed|by rewrite Eq, upd_ne].
    + cbn [lts_step work_system work_step] in Hstep. apply bind_Some in Hstep as (f & _ & Hstep). destruct (finished _); [|done].
      apply bind_Some in Hstep as (o & Eo & [= <-]). destruct (px_neither_step _ _ _ Eo) as (_ & _ & Eg & _).
      by apply (locals_same s).
Qed.

(** ** The assertion *)

(** A fiber that may still read or write the spinlock, the counter or the list of the
    group; the others in [Done] have released the guard. *)
Definition uses_group (fb : fiber wg_op unit) : bool :=
  match fb_pc fb with
  | Out | Clr _ _ | Wake _ _ => false
  | Dtor _ _ => fb_is_owner fb
  | _ => true
  end.

(** Where the counter is checked, every task has incremented it. *)
Lemma checked_counter s : roles_inv s → count_inv s → reports s = kTasks → wl_counter s = Z.of_nat kTasks.
Proof.
  intros Hr Hc Hrep. rewrite (ci_value _ Hc). f_equal. apply Nat.le_antisymm; [apply total_le; intros; apply inc_le|].
  rewrite <- Hrep. unfold reports, total. induction (seq 1 kTasks) as [|x l IH]; simpl; [lia|].
  assert (reported (wl_pc s x) (pk_fibers (wl_group s) x) ≤ inc (wl_pc s x)); [|lia].
  unfold reported. destruct (wl_pc s x); simpl; try lia. case_match; lia.
Qed.

Lemma not_failed : invariant work_system (λ s, wl_pc s 0 ≠ Failed).
Proof.
  apply (invariant_on_top _ (λ s, roles_inv s ∧ count_inv s ∧ group_inv s)).
  { intros s Hs. split; [|split]; [by apply roles_invariant|by apply count_invariant|by apply group_invariant]. }
  - by intros s ->.
  - intros [l|l|l|w|w] s s' (Hr & Hc & Hg) Hn Hstep.
    + cbn [lts_step work_system work_step] in Hstep. destruct (main_or_loop l s); [|done].
      by apply bind_Some in Hstep as (o & _ & [= <-]).
    + destruct (mutex_step l s s' Hr Hstep) as (_ & _ & _ & _ & _ & [->|(w & f & _ & -> & _)]); [done|].
      destruct (decide (f = 0)) as [->|Hf]; [rewrite upd_eq|by rewrite upd_ne]. by destruct (wl_pc s 0).
    + destruct (group_step l s s' Hr Hstep) as (_ & _ & _ & _ & _ & [->|(w & f & _ & -> & _)]); [done|].
      destruct (decide (f = 0)) as [->|Hf]; [rewrite upd_eq|by rewrite upd_ne]. by destruct (wl_pc s 0).
    + cbn [lts_step work_system work_step] in Hstep. apply bind_Some in Hstep as (f & Ef & Hstep).
      destruct (_ && _); [|done]. destruct (own_code_effect f s s' Hstep) as (q & Eq & _).
      destruct (decide (f = 0)) as [->|Hf]; [|by rewrite Eq, upd_ne].
      unfold own_code in Hstep. destruct (wl_pc s 0) as [|i|i| | | | | | |v| | |] eqn:E; try done;
        [case_match; [apply bind_Some in Hstep as (o & _ & [= <-])|simplify_eq]; simpl; by rewrite upd_eq| | |..];
        try (apply bind_Some in Hstep as (o & _ & [= <-]); simpl; by rewrite upd_eq);
        simplify_eq; simpl; rewrite upd_eq; try done.
      assert (reports s = kTasks) as Hrep by (apply (gi_released _ Hg); by rewrite E).
      by rewrite (checked_counter s Hr Hc Hrep), decide_True.
    + cbn [lts_step work_system work_step] in Hstep. apply bind_Some in Hstep as (f & _ & Hstep).
      destruct (finished _); [|done]. by apply bind_Some in Hstep as (o & _ & [= <-]).
Qed.

(** After [Wait], no task is inside the mutex, nor at the spinlock of the group. *)
Lemma locals_unused s f : roles_inv s → group_inv s → locals_inv s →
  wl_pc s 0 = Checking ∨ wl_pc s 0 = Checked → f ≠ 0 →
  outside (wl_mutex s) f = true ∧ uses_group (pk_fibers (wl_group s) f) = false.
Proof.
  intros Hr Hg Hl Hp Hf.
  assert (resumed (wl_pc s 0) (wl_group s)) as Hres by (destruct Hp as [->| ->]; done).
  pose proof (li_resumed _ Hl Hres f Hf) as Hh. pose proof (gi_released _ Hg (resumed_released s Hres)) as Hrep.
  destruct (ri_mutex _ Hr f) as [Hm _]. destruct (ri_group _ Hr f) as [Hgc _].
  pose proof (pi_fiber _ (pf_park_inv _ (pf_invariant _ (px_one_ok _ (ri_objects _ Hr)))) f) as [Hok1 _].
  pose proof (pi_fiber _ (pf_park_inv _ (pf_invariant _ (px_two_ok _ (ri_objects _ Hr)))) f) as [Hok2 _].
  simpl in Hok1, Hok2.
  assert (mutex_call (wl_pc s f) = None → outside (wl_mutex s) f = true) as Hout.
  { intros E. rewrite E in Hm. unfold outside.
    destruct (fb_pc (pk_fibers (wl_mutex s) f)); try done; by specialize (Hm _ eq_refl). }
  assert (group_call (wl_pc s f) = None → uses_group (pk_fibers (wl_group s) f) = false) as Hout'.
  { intros E. rewrite E in Hgc. unfold uses_group.
    destruct (fb_pc (pk_fibers (wl_group s) f)); try done; by specialize (Hgc _ eq_refl). }
  destruct (decide (f ≤ kTasks)) as [Hk|Hk].
  - destruct (all_reported s f Hrep ltac:(lia)) as [E|[E El]]; rewrite E in *; split; auto.
    unfold uses_group, holds_spin in *. by destruct (fb_pc (pk_fibers (wl_group s) f)); try done; destruct El.
  - assert (started (wl_pc s 0) f = false) as Hs by (destruct Hp as [->| ->]; by apply bool_decide_eq_false).
    destruct (ri_fresh _ Hr f Hf Hs) as (_ & Ho & E). rewrite E in *. auto.
Qed.

Lemma in_range s f : roles_inv s → f ≠ 0 → kTasks < f → tk_state (dtasks (wl_pool s) f) = PLANNED.
Proof.
  intros Hr Hf Hk. apply (ri_fresh _ Hr f Hf). pose proof (ri_main _ Hr).
  destruct (wl_pc s 0); simpl in *; try done; apply bool_decide_eq_false; lia.
Qed.

(** When nothing is counted, fiber 0 has passed the assertion, and all have ended. *)
Lemma closed_complete s : (Z.of_nat kTasks + 1 < size_bound)%Z → roles_inv s → group_inv s → wl_pc s 0 ≠ Failed →
  count_tasks (wl_pool s) = 0%Z → tk_state (dtasks (wl_pool s) 0) ≠ PLANNED →
  wl_pc s 0 = Checked ∧ ∀ f, 1 ≤ f ≤ kTasks → wl_pc s f = Reported.
Proof.
  intros Hk Hr Hg Hnf Hzero H0.
  pose proof (pf_pool_reachable _ (px_one_ok _ (ri_objects _ Hr))) as Hp. simpl in Hp.
  assert (∀ f, ¬ in_flight (wl_pool s) f) as Hidle.
  { intros k. apply counted_none_in_flight, (zero_idle _ Hp Hzero). intros X HX.
    assert (X ⊆ list_to_set (seq 0 (S kTasks))) as Hsub%subseteq_size.
    { intros f Hf. apply elem_of_list_to_set, elem_of_seq. destruct (decide (f ≤ kTasks)); [lia|].
      destruct (HX f Hf). apply (in_range s f); [done|lia..]. }
    rewrite size_list_to_set, length_seq in Hsub by apply NoDup_seq. lia. }
  assert (∀ f, tk_state (dtasks (wl_pool s) f) ≠ PLANNED → finished (wl_pc s f) = true) as Hfin.
  { intros f Hf. apply (ri_done _ Hr). destruct (decide (tk_place (dtasks (wl_pool s) f) = Completed)); [done|].
    by destruct (Hidle f). }
  assert (wl_pc s 0 = Checked) as E0.
  { pose proof (Hfin 0 H0) as Hf. pose proof (ri_main _ Hr). by destruct (wl_pc s 0). }
  split; [done|]. intros f Hf. assert (reports s = kTasks) as Hrep by (apply (gi_released _ Hg); by rewrite E0).
  assert (tk_state (dtasks (wl_pool s) f) ≠ PLANNED) as Hst.
  { intros E. apply (ri_planned _ Hr) in E. rewrite decide_False in E by lia.
    destruct (all_reported s f Hrep Hf) as [E'|[E' _]]; congruence. }
  pose proof (Hfin f Hst) as Hend. destruct (all_reported s f Hrep Hf) as [E|[E _]]; [done|by rewrite E in Hend].
Qed.
End assertion.

(** The workload on the distributed pool, its counter being alive (see PoolProgram.v),
    however many workers take its steps and in whatever order: the assertion never fails; from
    the assertion on the counter is [kTasks], and no other fiber is inside the mutex or
    at the spinlock of the wait group, so that fiber 0 may return and destroy both; and
    when the pool may close its workers, which is when [WaitShutdown] can return, fiber 0
    has passed the assertion and every fiber has ended.  No worker is stuck: it can move,
    or its fiber waits for one of the two spinlocks, or it has left its loop (or resumed
    its completed coroutine, which aborts). *)
Lemma pool_workload_correct `{Tasks} (s : work) :
  (Z.of_nat kTasks + 1 < size_bound)%Z → reachable work_system s →
  wl_pc s 0 ≠ Failed ∧
  (wl_pc s 0 = Checking ∨ wl_pc s 0 = Checked → wl_counter s = Z.of_nat kTasks ∧
    ∀ f, f ≠ 0 → outside (wl_mutex s) f = true ∧ uses_group (pk_fibers (wl_group s) f) = false) ∧
  (CanCloseWorker (wl_pool s) = true → tk_state (dtasks (wl_pool s) 0) ≠ PLANNED →
    wl_pc s 0 = Checked ∧ ∀ f, 1 ≤ f ≤ kTasks → wl_pc s f = Reported) ∧
  (∀ w, goes_or_spins s w ∨
    wk_pc (dworkers (wl_pool s) w) = LDone ∨ wk_pc (dworkers (wl_pool s) w) = LAbort).
Proof.
  intros Hk Hs. assert FewTasks as Hfew by (unfold FewTasks; lia).
  pose proof (roles_invariant s Hs) as Hr. pose proof (group_invariant s Hs) as Hg.
  pose proof (not_failed s Hs) as Hn. split_and!; [done| | |].
  - intros Hp. split.
    + apply (checked_counter s Hr (count_invariant s Hs)), (gi_released _ Hg).
      by destruct Hp as [->| ->].
    + intros f. by apply (locals_unused s f Hr Hg (locals_invariant s Hs)).
  - intros Hc. apply (closed_complete s); try done. by apply close_zero.
  - intros w. by apply workers_go; [|apply routing_invariant|].
Qed.

(** Two tasks: see PoolWorkload.v. *)
Lemma pool_workload_correct_witness :
  (wl_pc (work_after two_tasks) 0 = Checked ∧ CanCloseWorker (wl_pool (work_after two_tasks)) = true) ∧
  wl_pc (work_after two_tasks) 0 = Checked ∧ ∀ f, 1 ≤ f ≤ 2 → wl_pc (work_after two_tasks) f = Reported.
Proof.
  split; [vm_compute; auto|]. apply (@pool_workload_correct 2 (work_after two_tasks)).
  - reflexivity.
  - apply (run_reachable (@work_system 2)); [done|]. vm_compute. eauto.
  - vm_compute. reflexivity.
  - vm_compute. discriminate.
Defined.
