(* ===== verification/PoolProgram.v ===== *)
(** * The programs that run the workload on the pool

    bench/bench_pool.cpp and example/workload/pool from end to end: the main thread starts
    the pool, starts fiber 0 with [Go], waits with [WaitIdle] (the benchmark, once
    [bench_logic] has returned) or stops the pool with [WaitShutdown] (the example), and
    destroys the pool; the workers, once they have a thread, take the steps of
    PoolWorkload.v.  The owner's side of the pool is that of DistShutdown.v and WaitIdle.v.

    Two things can make the behaviour of these programs undefined, and then there are no
    further steps.  The counter is a local variable which the fibers' routines refer to:
    of [main] in the example, of [bench_logic] in the benchmark, which does not wait for
    the fibers; an access when it is no more sets [pg_dangling].  And a worker's
    [std::binary_semaphore] must not be released past its [max()], a parameter. *)

From stdpp Require Import prelude list gmap.
From S2P Require Import Prelude.
From S2P Require Import Lock.
From S2P Require Import Parking.
From S2P Require Import AsyncMutex.
From S2P Require Import WaitGroup.
From S2P Require Import DistributedPool.
From S2P Require Import DistShutdown.
From S2P Require Import WaitIdle.
From S2P Require Import PoolFibers.
From S2P Require Import PoolObjects.
From S2P Require Import PoolWorkload.
From S2P Require Import PoolReports.
From S2P Require Import PoolProgress.
From S2P Require Import PoolAssertion.

(** The position of the main thread. *)
Inductive main_pc :=
| Constructed            (** the pool is constructed; [pool.Start()] *)
| InStart
| Submitting0            (** [Go(pool, ...)]: the first half of [Submit] *)
| Pushing0               (** [Go(pool, ...)]: the push *)
| Returning0             (** [Go] has returned; [bench_logic] returns next *)
| Idling (p : idle_pc)   (** [pool.WaitIdle()] *)
| Stopping               (** [pool.WaitShutdown()] *)
| InStop
| Leaving                (** the destructor of the pool *)
| InDestructor.

Record program := MkProgram {
  pg_work : work;
  pg_thread : wid → bool;
  pg_current : wid → bool;
  pg_owner : owner_pc;
  pg_main : main_pc;
  pg_dangling : bool      (** a fiber has accessed the counter after the end of its lifetime *)
}.

Abbreviation pg_pool s := (wl_pool (pg_work s)).

Inductive program_label :=
| MainStep
| SpuriousMain                 (** the main thread wakes without a notification *)
| Submitter (i : nat)          (** a thread inside [Push] makes its next access *)
| Thread (l : work_label).     (** a worker makes a step *)

(** The worker that makes the step; [None] for what the main thread does. *)
Definition pf_worker {Op} (l : pf_label Op) : option wid :=
  match l with
  | Enter w _ | Move w | Count w | Await w | Take w _ => Some w
  | Elsewhere _ => None
  end.

Definition worker_of (l : work_label) : option wid :=
  match l with
  | PoolMoves (Step w _) | OwnCode w | Return w => Some w
  | PoolMoves _ => None
  | InMutex l => pf_worker l
  | InGroup l => pf_worker l
  end.

(** The pool as its owner knows it. *)
Definition owned_of (s : program) : owned :=
  MkOwned (pg_pool s) (pg_thread s) (pg_current s) (pg_owner s).

Definition put_pool (s : work) (d : dpool) : work :=
  MkWork (MkPoolObjects d (wl_mutex s) (wl_group s)) (wl_counter s) (wl_pc s).

Definition put_owned (s : program) (o : owned) (p : main_pc) : program :=
  MkProgram (put_pool (pg_work s) (od_pool o)) (od_thread o) (CurrentPool o) (od_owner o) p (pg_dangling s).

Definition set_main (s : program) (p : main_pc) : program :=
  MkProgram (pg_work s) (pg_thread s) (pg_current s) (pg_owner s) p (pg_dangling s).

Definition set_work (s : program) (w : work) (p : main_pc) : program :=
  MkProgram w (pg_thread s) (pg_current s) (pg_owner s) p (pg_dangling s).

Definition dangle (s : program) : program :=
  MkProgram (pg_work s) (pg_thread s) (pg_current s) (pg_owner s) (pg_main s) true.

(** The number of workers, [CountThreads]; which program it is: the benchmark [idles]; and
    the [max()] of the implementation's [std::binary_semaphore]. *)
Class Program := { CountThreads : nat; idles : bool; smph_max : Z }.

Section program.
  Context {T : Tasks} {P : Program}.
  Implicit Types (s : program).

(** A call of the main thread on the pool, or its next step inside. *)
Definition on_pool (l : owned_label) (p : main_pc) s : option program :=
  o ← owned_step CountThreads (S kTasks) l (owned_of s); Some (put_owned s o p).

(** Inside [Start], [WaitShutdown] or the destructor, until it returns. *)
Definition inside (next : main_pc) s : option program :=
  match pg_owner s with
  | OReady => Some (set_main s next)
  | _ => on_pool OwnerStep (pg_main s) s
  end.

Definition main_step s : option program :=
  match pg_main s with
  | Constructed => on_pool CallStart InStart s
  | InStart => inside Submitting0 s
  | Submitting0 => w ← work_step (PoolMoves (CallSubmit 0)) (pg_work s); Some (set_work s w Pushing0)
  | Pushing0 =>
      w ← work_step (PoolMoves (Route 0)) (pg_work s);
      Some (set_work s w Returning0)
  | Returning0 => Some (set_main s (if idles then Idling ITest else Stopping))
  | Idling IOut => Some (set_main s Leaving)
  | Idling p => q ← WaitIdle_step (pg_pool s) p; Some (set_main s (Idling q))
  | Stopping => on_pool CallWaitShutdown InStop s
  | InStop => inside Leaving s
  | Leaving => on_pool CallDestroy InDestructor s
  | InDestructor => inside InDestructor s
  end.

(** [NotifyAll()], for the main thread. *)
Definition notified_main (p : main_pc) : main_pc :=
  match p with Idling p => Idling (notified p) | _ => p end.

(** A step of worker [w], which has a thread. *)
Definition worker_moves (w : wid) (l : work_label) s : option program :=
  if pg_thread s w
  then
    x ← work_step l (pg_work s);
    Some (MkProgram x (pg_thread s) (run_worker (Step w false) (owned_of s)) (pg_owner s)
      (if notifies (Step w false) (pg_pool s) then notified_main (pg_main s) else pg_main s) (pg_dangling s))
  else None.

(** The counter, which the fibers' routines refer to, is a local variable: of [bench_logic]
    in the benchmark, of [main] in the example. *)
Definition alive (p : main_pc) : bool :=
  match p with
  | Submitting0 | Pushing0 | Returning0 => true
  | Stopping | InStop => negb idles
  | _ => false
  end.

(** The step accesses the counter. *)
Definition touches (l : work_label) (x : work) : bool :=
  match l with
  | OwnCode w =>
      match on_stack (wl_pool x) w with
      | Some f => match wl_pc x f with Checking | Reading | Writing _ => true | _ => false end
      | None => false
      end
  | _ => false
  end.

(** An access to a counter whose lifetime has ended is undefined: nothing is said of what
    is read or written. *)
Definition thread_moves (w : wid) (l : work_label) s : option program :=
  s' ← worker_moves w l s;
  Some (if touches l (pg_work s) && negb (alive (pg_main s)) then dangle s else s').

Definition moves (l : program_label) s : option program :=
  match l with
  | MainStep => main_step s
  | SpuriousMain =>
      match pg_main s with Idling IBlocked => Some (set_main s (Idling ITest)) | _ => None end
  | Submitter i => x ← work_step (PoolMoves (PushOn i)) (pg_work s); Some (set_work s x (pg_main s))
  | Thread l => w ← worker_of l; thread_moves w l s
  end.

(** The behaviour is undefined: of the access, or of a [release] past [max()]. *)
Definition undefined s : bool := pg_dangling s || bool_decide (smph_max < smph_high (pg_pool s))%Z.

Definition program_step (l : program_label) s : option program :=
  if undefined s then None else moves l s.

Definition new_program : program := MkProgram new_work (λ _, false) (λ _, false) ONew Constructed false.

Definition program_system : lts program program_label := Lts (λ s, s = new_program) program_step.

(** ** What a worker does to the pool *)

(** The steps of the pool that the code of a fiber on [w] makes. *)
Definition fiber_label (w : wid) (d : dist_label) : Prop :=
  match d with
  | CallSubmit k => k ≤ kTasks
  | Route _ => True
  | Suspended u | Finished u => u = w
  | _ => False
  end.

(** One of these, an iteration of the worker, or nothing. *)
Definition moved_by (w : wid) (p p' : dpool) (own : dist_label → Prop) : Prop :=
  p' = p ∧ running_on (wk_pc (dworkers p w)) ≠ None ∨ (∃ b, worker_step p w b = Some p') ∨
  ∃ d, is_Some (on_stack p w) ∧ dist_step d p = Some p' ∧ own d.

Lemma running_on_stack p w f : on_stack p w = Some f → running_on (wk_pc (dworkers p w)) ≠ None.
Proof. unfold on_stack. by destruct (wk_pc (dworkers p w)). Qed.

Lemma pf_moved_by {D Op U} `{PrimitiveLaws D Op U} l p (m : parking D Op U) p' m' w :
  pf_inv (MkPoolFibers p m) → pf_step l (MkPoolFibers p m) = Some (MkPoolFibers p' m') → pf_worker l = Some w →
  moved_by w p p' (λ d, match d with
    | CallSubmit k => outside m k = false | Route _ => True | Suspended u => u = w | _ => False end).
Proof.
  intros Hi Hstep Hw. pose proof (pf_park_inv _ Hi) as Hm. simpl in Hm.
  destruct l as [u op|u|u|u|u b|l]; simplify_eq/=; cbn [pf_step] in Hstep.
  - apply bind_Some in Hstep as (f & Ef & Hstep). apply bind_Some in Hstep as (m1 & _ & [= <- <-]).
    left. split; [done|by eapply running_on_stack].
  - apply bind_Some in Hstep as (f & Ef & Hstep). apply bind_Some in Hstep as (m1 & _ & Hstep).
    apply bind_Some in Hstep as (p1 & E & [= <- <-]).
    destruct (next_wake _) as [g|] eqn:Eg; [right; right; by exists (Route g)|].
    destruct (suspended _); [right; right; by exists (Suspended w)|].
    left. simplify_eq. split; [done|by eapply running_on_stack].
  - apply bind_Some in Hstep as (f & Ef & Hstep). apply bind_Some in Hstep as (g & Eg & Hstep).
    apply bind_Some in Hstep as (p1 & E & [= <- <-]). right; right. exists (CallSubmit g). split_and!; [done..|].
    destruct (next_wake_parked m f g Hm Eg) as [[Hs _] _].
    unfold suspended, outside in *. by destruct (fb_pc (pk_fibers m g)).
  - apply bind_Some in Hstep as (f & Ef & Hstep). apply bind_Some in Hstep as (m1 & _ & [= <- <-]).
    left. split; [done|]. unfold in_tail in Ef. by destruct (wk_pc (dworkers p w)).
  - destruct (wk_pc (dworkers p w)); try done. destruct (local_tasks (dworkers p w)); [done|].
    apply bind_Some in Hstep as (m1 & _ & Hstep). apply bind_Some in Hstep as (p1 & E & [= <- <-]).
    right; left. by exists b.
Qed.

Lemma moved_by_weaken w p p' (own own' : dist_label → Prop) : (∀ d, own d → own' d) →
  moved_by w p p' own → moved_by w p p' own'.
Proof. intros Hd [?|[?|(d & ? & ? & ?)]]; [by left|by right; left|right; right; exists d; auto]. Qed.

(** A fiber that waits in the mutex or in the group is one of the program's. *)
Lemma waiting_in_range (s : work) k : roles_inv s → outside (wl_mutex s) k = false ∨ outside (wl_group s) k = false →
  k ≤ kTasks.
Proof.
  intros Hr Ho. destruct (decide (k = 0)) as [->|Hk]; [lia|].
  assert (started (wl_pc s 0) k = true) as Hs.
  { destruct Ho as [Ho|Ho]; [|by apply in_group_started].
    destruct (started (wl_pc s 0) k) eqn:E; [done|]. destruct (ri_fresh _ Hr k Hk E) as (_ & ? & _). congruence. }
  pose proof (ri_main _ Hr). destruct (wl_pc s 0); simpl in *; try done; apply bool_decide_eq_true in Hs; lia.
Qed.

Lemma work_moved_by l (s s' : work) w : roles_inv s → work_step l s = Some s' → worker_of l = Some w →
  moved_by w (wl_pool s) (wl_pool s') (fiber_label w).
Proof.
  intros Hr Hstep Hw. pose proof (λ k H, waiting_in_range s k Hr H) as Hk.
  destruct l as [l|l|l|u|u]; simpl in Hw.
  - cbn [work_step] in Hstep. destruct (main_or_loop l s); [|done]. apply bind_Some in Hstep as (o & Eo & [= <-]).
    destruct (px_neither_step l _ _ Eo) as (El & _). destruct l as [| | | |u b| | | |]; simplify_eq. right; left. by exists b.
  - destruct (mutex_step l s s' Hr Hstep) as ((_ & _ & Hi & Hp) & _).
    generalize (pf_moved_by l _ _ _ _ w Hi Hp Hw). apply moved_by_weaken. intros [k|k|u|u|u b| |u|u|i]; simpl; naive_solver.
  - destruct (group_step l s s' Hr Hstep) as ((_ & _ & Hi & Hp) & _).
    generalize (pf_moved_by l _ _ _ _ w Hi Hp Hw). apply moved_by_weaken. intros [k|k|u|u|u b| |u|u|i]; simpl; naive_solver.
  - simplify_eq. cbn [work_step] in Hstep. apply bind_Some in Hstep as (f & Ef & Hstep).
    destruct (_ && _); [|done]. unfold own_code in Hstep.
    assert (∀ s1 : work, wl_pool s1 = wl_pool s → moved_by w (wl_pool s) (wl_pool s1) (fiber_label w)) as Hsame.
    { intros s1 ->. left. split; [done|by eapply running_on_stack]. }
    destruct (wl_pc s f) as [|i|i| | | | | | |v| | |]; try done; try (simplify_eq; by apply Hsame).
    + case_decide; [|simplify_eq; by apply Hsame]. apply bind_Some in Hstep as (o & Eo & [= <-]).
      destruct (px_neither_step _ _ _ Eo) as (El & _). right; right. eexists. split_and!; [done|exact El|simpl; lia].
    + apply bind_Some in Hstep as (o & Eo & [= <-]).
      destruct (px_neither_step _ _ _ Eo) as (El & _). right; right. by eexists.
  - simplify_eq. cbn [work_step] in Hstep. apply bind_Some in Hstep as (f & Ef & Hstep).
    destruct (finished _); [|done]. apply bind_Some in Hstep as (o & Eo & [= <-]).
    destruct (px_neither_step _ _ _ Eo) as (El & _). right; right. by eexists.
Qed.

(** At rest, it only iterates. *)
Lemma rest_work l (s s' : work) w : at_rest (wl_pool s) → roles_inv s → work_step l s = Some s' →
  worker_of l = Some w → wl_pc s' = wl_pc s ∧ (wl_pool s' = wl_pool s ∨ ∃ b, worker_step (wl_pool s) w b = Some (wl_pool s')).
Proof.
  intros Hrest Hr Hstep Hw.
  assert (∀ u, on_stack (wl_pool s) u = None) as Hn.
  { intros u. unfold on_stack. pose proof (ar_workers _ Hrest u). by destruct (wk_pc (dworkers (wl_pool s) u)). }
  split; [|destruct (work_moved_by l s s' w Hr Hstep Hw) as [[? _]|[?|(d & [f Ef] & _)]]; auto; by rewrite Hn in Ef].
  destruct l as [l|l|l|u|u].
  - cbn [work_step] in Hstep. destruct (main_or_loop l s); [|done]. by apply bind_Some in Hstep as (o & Eo & [= <-]).
  - destruct (mutex_step l s s' Hr Hstep) as (_ & _ & _ & _ & -> & _). unfold returns.
    destruct l; try done. by rewrite Hn.
  - destruct (group_step l s s' Hr Hstep) as (_ & _ & _ & _ & -> & _). unfold returns.
    destruct l; try done. by rewrite Hn.
  - cbn [work_step] in Hstep. by rewrite Hn in Hstep.
  - cbn [work_step] in Hstep. by rewrite Hn in Hstep.
Qed.

(** ** The program is one of the pool's owners *)

Context (Hthreads : 0 < CountThreads) (Hsize : (Z.of_nat (S kTasks) < size_bound)%Z).

Notation owner_system := (owned_pool CountThreads (S kTasks)).

Record base s : Prop := Base {
  pb_work : reachable work_system (pg_work s);
  pb_owned : reachable owner_system (owned_of s)
}.

Lemma base_ok s : base s → owned_ok CountThreads (S kTasks) (owned_of s).
Proof using Hsize. intros [_ Hr]. by apply owned_invariant. Qed.

Lemma base_idle s : base s → count_tasks (pg_pool s) = 0%Z → dist_count (pg_pool s) ∅ ∧ at_rest (pg_pool s).
Proof using Hsize.
  intros Hb Hz. pose proof (base_ok s Hb) as Hok.
  assert (dist_count (pg_pool s) ∅) as Hc by apply (owned_idle _ _ Hsize _ Hok Hz).
  split; [done|]. apply idle_at_rest; [|done]. apply dist_invariant, Hok.
Qed.

(** The owner's steps are steps of the workload. *)
Lemma put_pool_step d (x : work) p' : by_owner d = true → dist_step d (wl_pool x) = Some p' →
  work_step (PoolMoves d) x = Some (put_pool x p').
Proof.
  intros Hd E. destruct x as [[p m g] v pcs]. cbn [work_step]. assert (main_or_loop d (MkWork (MkPoolObjects p m g) v pcs) = true) as ->
    by (by destruct d).
  cbn [px_step wl_objects]. assert (elsewhere d (MkPoolFibers p m) = true) as -> by (by destruct d).
  assert (elsewhere d (MkPoolFibers p g) = true) as -> by (by destruct d).
  unfold px_pool in E. cbn [wl_objects] in E. simpl. by rewrite E.
Qed.

Lemma put_pool_same (x : work) : put_pool x (wl_pool x) = x.
Proof. by destruct x as [[p m g] v pcs]. Qed.

Lemma base_put l s o p : base s → owned_step CountThreads (S kTasks) l (owned_of s) = Some o →
  (∀ d, l ≠ Pool d) → base (put_owned s o p).
Proof using Hsize.
  intros [Hw Ho] E Hl. split.
  - pose proof (owned_moves _ _ l _ _ E) as Hm. unfold put_owned. cbn [pg_work]. simpl in Hm.
    assert (od_pool o = pg_pool s ∨ ∃ d, dist_step d (pg_pool s) = Some (od_pool o) ∧ by_owner d = true) as [->|(d & Ed & Hd)].
    { destruct l as [| | | |d]; [exact Hm..|by destruct (Hl d)]. }
    + by rewrite put_pool_same.
    + apply (reachable_step work_system (PoolMoves d) (pg_work s)); [done|]. by apply put_pool_step.
  - assert (owned_of (put_owned s o p) = o) as -> by (by destruct o). by apply (reachable_step _ l (owned_of s)).
Qed.

Lemma base_thread w l s s' : base s → worker_of l = Some w → worker_moves w l s = Some s' → base s'.
Proof using Hsize Hthreads.
  intros Hb Hw Hstep. pose proof (base_ok s Hb) as Hok. unfold worker_moves in Hstep.
  destruct (pg_thread s w) eqn:Et; [|done]. apply bind_Some in Hstep as (x & Ex & [= <-]).
  pose proof (roles_invariant _ (pb_work _ Hb)) as Hr.
  split; [by apply (reachable_step work_system l (pg_work s)); [apply Hb|]|].
  assert (∀ d, dist_step d (pg_pool s) = Some (wl_pool x) → allowed (S kTasks) d (owned_of s) = true →
    run_worker d (owned_of s) = run_worker (Step w false) (owned_of s) →
    reachable owner_system (MkOwned (wl_pool x) (pg_thread s) (run_worker (Step w false) (owned_of s)) (pg_owner s))) as Hd.
  { intros d E Ha Hrun. apply (reachable_step _ (Pool d) (owned_of s)); [apply Hb|].
    cbn [lts_step owned_pool owned_step]. rewrite Ha. change (od_pool (owned_of s)) with (pg_pool s).
    rewrite E. cbn [mbind option_bind]. by rewrite Hrun. }
  unfold owned_of. cbn [pg_work pg_thread pg_current pg_owner].
  destruct (work_moved_by l _ _ w Hr Ex Hw) as [[-> Hn]|[[b E]|(d & [f Ef] & E & Hf)]].
  - simpl. destruct (wk_pc (dworkers (pg_pool s) w)); simpl in Hn; try done; apply Hb.
  - by apply (Hd (Step w b)).
  - unfold on_stack in Ef. destruct (wk_pc (dworkers (pg_pool s) w)) eqn:Ew; simplify_eq.
    assert (run_worker (Step w false) (owned_of s) = pg_current s) as Hc by (simpl; by rewrite Ew).
    rewrite Hc in Hd. apply (Hd d); [done| |by destruct d].
    destruct d as [k|k|u|u|u b| |u|u|i]; try done. simpl in Hf |- *. rewrite bool_decide_true by lia. simpl.
    destruct (tk_state _); [|done..]. destruct (CanCloseWorker (pg_pool s)) eqn:Ec; [|done].
    destruct (base_idle s Hb (close_zero _ Ec)) as [_ Hrest]. pose proof (ar_workers _ Hrest w) as Hp.
    by rewrite Ew in Hp.
Qed.

(** ** Where the main thread is *)

Definition positions_ok (p : main_pc) (o : owner_pc) : Prop :=
  match p with
  | Constructed => o = ONew
  | InStart => o = OReady ∨ ∃ i, o = OStart i
  | Submitting0 | Pushing0 | Returning0 | Idling _ | Stopping | Leaving => o = OReady
  | InStop => match o with OReady | OShut false | OWake false _ | OJoin false _ => True | _ => False end
  | InDestructor =>
      match o with
      | OShut true | OWake true _ | OJoin true _ | ODestroy _ | OJoinLast _ | OAssert _ | OGone => True
      | _ => False
      end
  end.

(** Before it stops the pool. *)
Definition opened (p : main_pc) : Prop :=
  match p with InStop | Leaving | InDestructor => False | _ => True end.

(** It has waited, for the counter or for the workers. *)
Definition waited (p : main_pc) (o : owner_pc) : Prop :=
  match p with Idling IOut | Leaving | InDestructor => True | InStop => o = OReady | _ => False end.

(** How far fiber 0 is from having been submitted. *)
Definition first_ok (p : main_pc) (x : work) : Prop :=
  match p with
  | Constructed | InStart | Submitting0 => tk_state (dtasks (wl_pool x) 0) = PLANNED
  | Pushing0 => tk_state (dtasks (wl_pool x) 0) ≠ PLANNED ∧ tk_place (dtasks (wl_pool x) 0) = Submitting ∧ wl_pc x 0 = Adding
  | _ => tk_state (dtasks (wl_pool x) 0) ≠ PLANNED
  end.

Definition threads_ok (o : owner_pc) (threads : wid → bool) : Prop :=
  match o with ONew | OStart _ => True | _ => ∀ w, w < CountThreads → threads w = true end.

Record program_inv s : Prop := ProgramInv {
  pv_base : base s;
  pv_positions : positions_ok (pg_main s) (pg_owner s);
  pv_open : opened (pg_main s) → shutdown_ (pg_pool s) = false;
  pv_threads : threads_ok (pg_owner s) (pg_thread s);
  pv_first : first_ok (pg_main s) (pg_work s);
  pv_waited : waited (pg_main s) (pg_owner s) → count_tasks (pg_pool s) = 0%Z
}.

(** Until fiber 0 has been pushed, the workers have nothing to do. *)
Lemma first_rest p (x : work) : roles_inv x → reachable distributed_pool (wl_pool x) → first_ok p x →
  match p with Constructed | InStart | Submitting0 | Pushing0 => at_rest (wl_pool x) | _ => True end.
Proof.
  intros Hr Hp Hf. destruct (dist_count_invariant _ Hp) as [Hd [X Hc]].
  assert (wl_pc x 0 = Adding → tk_place (dtasks (wl_pool x) 0) = Outside ∨ tk_place (dtasks (wl_pool x) 0) = Submitting →
    at_rest (wl_pool x)) as H0.
  { intros E0 Ep. assert (∀ k, k ≠ 0 → tk_place (dtasks (wl_pool x) k) = Outside) as Ho.
    { intros k Hk. apply (dc_fresh _ _ Hc), (ri_fresh _ Hr k Hk). by rewrite E0. }
    assert (∀ k, tk_place (dtasks (wl_pool x) k) = Outside ∨ tk_place (dtasks (wl_pool x) k) = Submitting) as Hall.
    { intros k. destruct (decide (k = 0)) as [->|Hk]; auto. }
    apply placed_at_rest; [done| |intros k; destruct (Hall k); auto].
    intros w k E. destruct (dc_remove _ _ Hc w k E). destruct (Hall k); congruence. }
  destruct p; try done; simpl in Hf;
    try (apply H0; [apply (ri_planned _ Hr 0 Hf)|left; by apply (dc_fresh _ _ Hc)]).
  destruct Hf as (_ & Ep & E0). auto.
Qed.

(** An iteration at rest leaves the tasks alone. *)
Lemma rest_tasks d w b d' k : at_rest d → worker_step d w b = Some d' → dtasks d' k = dtasks d k.
Proof.
  intros [Hg Hl Hw] Hstep. apply (other_tasks (Step w b)); [done|]. simpl. specialize (Hw w).
  destruct (wk_pc (dworkers d w)); try done; by rewrite ?Hl, ?Hg.
Qed.

(** A worker's step keeps what the main thread knows. *)
Lemma thread_first w l p (x x' : work) : roles_inv x → reachable distributed_pool (wl_pool x) →
  work_step l x = Some x' → worker_of l = Some w → first_ok p x → first_ok p x'.
Proof.
  intros Hr Hp Hstep Hw Hf. pose proof (first_rest p x Hr Hp Hf) as Hrest.
  assert (at_rest (wl_pool x) → wl_pc x' = wl_pc x ∧ ∀ k, dtasks (wl_pool x') k = dtasks (wl_pool x) k) as Hq.
  { intros Ha. destruct (rest_work l x x' w Ha Hr Hstep Hw) as [E [->|[b Eb]]]; [done|].
    split; [done|]. intros k. by eapply rest_tasks. }
  assert (tk_state (dtasks (wl_pool x) 0) ≠ PLANNED → tk_state (dtasks (wl_pool x') 0) ≠ PLANNED) as Hpl.
  { intros Hn E. apply Hn. destruct (work_moved_by l x x' w Hr Hstep Hw) as [[Ex _]|[[b Eb]|(d & _ & Ed & _)]].
    - by rewrite Ex in E.
    - by apply (planned_before (Step w b) _ (wl_pool x')).
    - by apply (planned_before d _ (wl_pool x')). }
  destruct p; simpl in Hf |- *; try (by apply Hpl); destruct (Hq Hrest) as [Epc Ek]; by rewrite ?Epc, !Ek.
Qed.

Lemma shutdown_by d p p' : dist_step d p = Some p' → d ≠ BeginShutdown → shutdown_ p' = shutdown_ p.
Proof.
  intros Hstep Hd. destruct d as [k|k|w|w|w b| |w|w|i]; simpl in Hstep; try done.
  5: { unfold worker_step in Hstep. destruct (wk_pc (dworkers p w)) as [| | | | | |[]| | | | | | | | | |];
         repeat case_match; by simplify_eq. }
  7: by destruct (push_on_fields _ _ _ Hstep) as (_ & _ & _ & _ & -> & _).
  all: unfold Submit_count, Submit_route in Hstep; repeat case_match; by simplify_eq.
Qed.

Lemma moved_by_shutdown w p p' : moved_by w p p' (fiber_label w) → shutdown_ p' = shutdown_ p.
Proof.
  intros [[-> _]|[[b E]|(d & _ & E & Hd)]]; [done|by apply (shutdown_by (Step w b))|].
  apply (shutdown_by d); [done|]. by intros ->.
Qed.

Lemma thread_effect w l s s' : worker_moves w l s = Some s' →
  work_step l (pg_work s) = Some (pg_work s') ∧ pg_thread s' = pg_thread s ∧ pg_owner s' = pg_owner s ∧
  (pg_main s' = pg_main s ∨ pg_main s' = notified_main (pg_main s)).
Proof.
  unfold worker_moves. intros Hstep. destruct (pg_thread s w); [|done].
  apply bind_Some in Hstep as (x & Ex & [= <-]). split_and!; [done..|]. simpl. case_match; auto.
Qed.

Lemma inv_thread w l s s' : program_inv s → worker_of l = Some w → worker_moves w l s = Some s' → program_inv s'.
Proof using Hsize Hthreads.
  intros [Hb Hp Ho Ht Hf Hz] Hw Hstep. pose proof (base_thread w l s s' Hb Hw Hstep) as Hb'.
  pose proof (roles_invariant _ (pb_work _ Hb)) as Hr.
  destruct (thread_effect w l s s' Hstep) as (Ex & Et & Eo & Em).
  pose proof (thread_first w l (pg_main s) _ _ Hr (ow_base _ _ _ (base_ok s Hb)) Ex Hw Hf) as Hf'.
  pose proof (work_moved_by l _ _ w Hr Ex Hw) as Hm.
  assert (waited (pg_main s) (pg_owner s) → count_tasks (pg_pool s') = 0%Z) as Hz'.
  { intros Hzero%Hz. destruct (base_idle s Hb Hzero) as [Hc Hrest].
    destruct (rest_work l _ _ w Hrest Hr Ex Hw) as [_ [->|[b Eb]]]; [done|].
    by rewrite (rest_count (Step w b) _ _ Hc Eb) by done. }
  pose proof (moved_by_shutdown _ _ _ Hm) as Es.
  split; [done|..]; rewrite ?Et, ?Eo, ?Es; try done;
    destruct Em as [-> | ->], (pg_main s) as [| | | | |[]| | | |]; simpl in *; auto.
Qed.

Lemma owner_tasks l s o : owned_step CountThreads (S kTasks) l (owned_of s) = Some o → (∀ d, l ≠ Pool d) →
  (∀ k, dtasks (od_pool o) k = dtasks (pg_pool s) k) ∧
  (base s → count_tasks (pg_pool s) = 0%Z → count_tasks (od_pool o) = 0%Z).
Proof using Hsize.
  intros E Hl. pose proof (owned_moves _ _ l _ _ E) as Hm. simpl in Hm.
  assert (od_pool o = pg_pool s ∨ ∃ d, dist_step d (pg_pool s) = Some (od_pool o) ∧ by_owner d = true) as [->|(d & Ed & Hd)].
  { destruct l as [| | | |d]; [exact Hm..|by destruct (Hl d)]. }
  { done. }
  split; [intros k; apply (other_tasks d); [done|by destruct d]|].
  intros Hb Hz. destruct (base_idle s Hb Hz) as [Hc _]. rewrite (rest_count d _ _ Hc Ed); [done|]. by intros k ->.
Qed.

(** A step of the owner. *)
Lemma inv_put l s o p : program_inv s → owned_step CountThreads (S kTasks) l (owned_of s) = Some o →
  (∀ d, l ≠ Pool d) → positions_ok p (od_owner o) → (opened p → shutdown_ (od_pool o) = false) →
  threads_ok (od_owner o) (od_thread o) → (first_ok (pg_main s) (pg_work s) → first_ok p (pg_work s)) →
  (waited p (od_owner o) → count_tasks (od_pool o) = 0%Z) → program_inv (put_owned s o p).
Proof using Hsize.
  intros [Hb Hp Ho Ht Hf Hz] E Hl Hp' Ho' Ht' Hf' Hz'. destruct (owner_tasks l s o E Hl) as [Ek _].
  split; cbn [pg_main pg_owner pg_work pg_thread put_owned]; try done; [by eapply base_put|].
  specialize (Hf' Hf). unfold first_ok in *. simpl. by destruct p; rewrite Ek.
Qed.

Lemma inv_main s p : program_inv s → positions_ok p (pg_owner s) → (opened p → opened (pg_main s)) →
  first_ok p (pg_work s) → (waited p (pg_owner s) → count_tasks (pg_pool s) = 0%Z) → program_inv (set_main s p).
Proof. intros [Hb Hp Ho Ht Hf Hz] Hp' Ho' Hf' Hz'. split; try done; simpl; [|by auto]. by destruct Hb. Qed.

(** All workers having ended, nothing is counted. *)
Lemma joined_idle s : base s → threads_ok (pg_owner s) (pg_thread s) → pg_thread s 0 = true →
  joined_below CountThreads (owned_of s) CountThreads → count_tasks (pg_pool s) = 0%Z.
Proof using Hsize Hthreads.
  intros Hb Ht E0 Hj. specialize (Hj 0 Hthreads Hthreads). unfold joined in Hj. simpl in Hj. rewrite E0 in Hj.
  simpl in Hj. pose proof (ow_closes _ _ _ (base_ok s Hb) 0) as Hc. simpl in Hc.
  destruct (wk_pc (dworkers (pg_pool s) 0)); try done. by apply close_zero.
Qed.

(** [Start] and the ways to stop the pool, step by step. *)
Lemma inv_start s i o : program_inv s → pg_main s = InStart → pg_owner s = OStart i →
  owner_step CountThreads (owned_of s) = Some o → program_inv (put_owned s o InStart).
Proof using Hsize Hthreads.
  intros Hi Em Eo E. pose proof (pv_base _ Hi) as Hb. pose proof (ow_owner _ _ _ (base_ok s Hb)) as Hw.
  simpl in Hw. rewrite Eo in Hw. simpl in Hw. pose proof (pv_open _ Hi) as Ho. rewrite Em in Ho.
  apply (inv_put OwnerStep s o InStart Hi); [done|done|..]; rewrite ?Em;
    unfold owner_step in E; simpl in E; rewrite Eo in E; case_decide; simplify_eq; simpl; try done; eauto.
  intros w Hlt. rewrite Hw. apply bool_decide_eq_true. lia.
Qed.

Lemma inv_stop s o : program_inv s → pg_main s = InStop → pg_owner s ≠ OReady →
  owner_step CountThreads (owned_of s) = Some o → program_inv (put_owned s o InStop).
Proof using Hsize Hthreads.
  intros Hi Em Eo E. pose proof (pv_base _ Hi) as Hb. pose proof (ow_owner _ _ _ (base_ok s Hb)) as Hw.
  pose proof (pv_positions _ Hi) as Hp. pose proof (pv_threads _ Hi) as Ht. rewrite Em in Hp. simpl in Hw, Hp.
  apply (inv_put OwnerStep s o InStop Hi); [done|done|..]; rewrite ?Em; try done;
    unfold owner_step in E; simpl in E; destruct (pg_owner s) as [|i| |[]|[] i|[] i|i|i|i| |] eqn:Eow; try done;
    repeat case_match; simplify_eq; simpl; try done.
  intros _. destruct Hw as [_ Hj]. apply joined_idle; [done|by rewrite Eow|by apply Ht|].
  intros w H1 H2. apply Hj; [lia|done].
Qed.

Lemma inv_destroy s o : program_inv s → pg_main s = InDestructor →
  owner_step CountThreads (owned_of s) = Some o → program_inv (put_owned s o InDestructor).
Proof using Hsize Hthreads.
  intros Hi Em E. pose proof (pv_base _ Hi) as Hb. pose proof (pv_positions _ Hi) as Hp.
  pose proof (pv_threads _ Hi) as Ht. pose proof (pv_waited _ Hi) as Hz. rewrite Em in Hp, Hz. specialize (Hz I).
  destruct (owner_tasks OwnerStep s o E) as [_ Hz']; [done|]. specialize (Hz' Hb Hz).
  apply (inv_put OwnerStep s o InDestructor Hi); [done|done|..]; rewrite ?Em; try done;
    unfold owner_step, destroy_worker_step in E; simpl in E, Hp;
    destruct (pg_owner s) as [|i| |[]|[] i|[] i|i|i|i| |] eqn:Eow; try done;
    repeat case_match; simplify_eq; simpl; try done; congruence.
Qed.

(** [Go]: the two halves of [Submit]. *)
Lemma inv_go d s x p : program_inv s → opened (pg_main s) → pg_owner s = OReady →
  work_step (PoolMoves d) (pg_work s) = Some x → (d = CallSubmit 0 ∨ d = Route 0) →
  positions_ok p OReady → first_ok p x → (waited p OReady → False) → program_inv (set_work s x p).
Proof using Hsize Hthreads.
  intros [Hb Hp Ho Ht Hf Hz] Hop Eo Ex Hd Hp' Hf' Hz'. specialize (Ho Hop).
  pose proof (reachable_step work_system _ _ _ (pb_work _ Hb) Ex) as Hrx. cbn [work_step] in Ex.
  destruct (main_or_loop d (pg_work s)); [|done]. apply bind_Some in Ex as (o & Eobj & [= <-]).
  destruct (px_neither_step d _ _ Eobj) as (Ed & _).
  split; cbn [pg_main pg_owner pg_work pg_thread set_work]; rewrite ?Eo; try done.
  - split; [done|]. apply (reachable_step _ (Pool d) (owned_of s)); [apply Hb|].
    cbn [lts_step owned_pool owned_step].
    assert (allowed (S kTasks) d (owned_of s) = true) as ->.
    { destruct Hd as [-> | ->]; [|done]. simpl. unfold CanCloseWorker. rewrite Ho. by destruct (tk_state _). }
    change (od_pool (owned_of s)) with (pg_pool s). rewrite Ed. by destruct Hd as [-> | ->].
  - intros _. simpl. rewrite (shutdown_by d _ _ Ed); [done|]. by destruct Hd as [-> | ->].
  - by rewrite Eo in Ht.
Qed.

Lemma inv_main_step s s' : program_inv s → main_step s = Some s' → program_inv s'.
Proof using Hsize Hthreads.
  intros Hi Hstep. pose proof (pv_positions _ Hi) as Hp. pose proof (pv_open _ Hi) as Ho.
  pose proof (pv_threads _ Hi) as Ht. pose proof (pv_first _ Hi) as Hf. pose proof (pv_waited _ Hi) as Hz.
  unfold main_step in Hstep. destruct (pg_main s) as [| | | | |p| | | |] eqn:Em; simpl in Hp, Hf.
  - unfold on_pool in Hstep. apply bind_Some in Hstep as (o & E & [= <-]).
    apply (inv_put CallStart s o InStart Hi E); [done|..]; rewrite ?Em; simpl in E; rewrite Hp in E; simplify_eq; simpl;
      try done; eauto.
  - unfold inside in Hstep. destruct Hp as [Hp|[i Hp]]; rewrite Hp in Hstep.
    + simplify_eq. by apply (inv_main s Submitting0 Hi); rewrite ?Em.
    + apply bind_Some in Hstep as (o & E & [= <-]). rewrite Em. by apply (inv_start s i).
  - apply bind_Some in Hstep as (x & Ex & [= <-]).
    apply (inv_go (CallSubmit 0) s x Pushing0 Hi); rewrite ?Em; try done; [by left|]. simpl.
    pose proof (ri_planned _ (roles_invariant _ (pb_work _ (pv_base _ Hi))) 0 Hf) as E0.
    cbn [work_step] in Ex. destruct (main_or_loop _ _); [|done]. apply bind_Some in Ex as (o & Eo & [= <-]).
    destruct (px_neither_step _ _ _ Eo) as (Ed & _). simpl in Ed. case_decide; [|done]. injection Ed as Ed.
    simpl. rewrite <- Ed, E0. unfold Submit_count. by rewrite Hf.
  - apply bind_Some in Hstep as (x & Ex & [= <-]). destruct Hf as (Hf & _).
    assert (tk_state (dtasks (wl_pool x) 0) ≠ PLANNED) as Hx.
    { cbn [work_step] in Ex. destruct (main_or_loop _ _); [|done]. apply bind_Some in Ex as (o & Eo & [= <-]).
      destruct (px_neither_step _ _ _ Eo) as (Ed & _). intros E. by apply Hf, (planned_before (Route 0) _ (px_pool o)). }
    by apply (inv_go (Route 0) s x _ Hi); rewrite ?Em; try done; right.
  - simplify_eq. by apply (inv_main s _ Hi); rewrite ?Em; destruct idles.
  - destruct p; simpl in Hstep; simplify_eq.
    + by apply (inv_main s Leaving Hi); rewrite ?Em.
    + apply (inv_main s _ Hi); rewrite ?Em; try done. simpl. by case_decide.
    + by apply (inv_main s _ Hi); rewrite ?Em.
  - unfold on_pool in Hstep. apply bind_Some in Hstep as (o & E & [= <-]).
    apply (inv_put CallWaitShutdown s o InStop Hi E); [done|..]; rewrite ?Em; simpl in E; rewrite Hp in *; simplify_eq; done.
  - unfold inside in Hstep. destruct (decide (pg_owner s = OReady)) as [E|E].
    + rewrite E in Hstep. simplify_eq. apply (inv_main s Leaving Hi); rewrite ?Em; try done. intros _. by apply Hz.
    + assert (on_pool OwnerStep (pg_main s) s = Some s') as Hs by (by destruct (pg_owner s)).
      apply bind_Some in Hs as (o & Eo & [= <-]). rewrite Em. by apply inv_stop.
  - unfold on_pool in Hstep. apply bind_Some in Hstep as (o & E & [= <-]).
    apply (inv_put CallDestroy s o InDestructor Hi E); [done|..]; rewrite ?Em; simpl in E; rewrite Hp in *; simplify_eq; done.
  - unfold inside in Hstep.
    assert (on_pool OwnerStep (pg_main s) s = Some s') as Hs by (by destruct (pg_owner s)).
    apply bind_Some in Hs as (o & Eo & [= <-]). rewrite Em. by apply inv_destroy.
Qed.

(** An access of somebody's [Push]. *)
Lemma push_moves i (x x' : work) : work_step (PoolMoves (PushOn i)) x = Some x' →
  push_on (wl_pool x) i = Some (wl_pool x') ∧ wl_pc x' = wl_pc x.
Proof.
  intros Ex. cbn [work_step] in Ex. destruct (main_or_loop _ _); [|done].
  apply bind_Some in Ex as (o & Eo & [= <-]). by destruct (px_neither_step _ _ _ Eo) as (Ed & _).
Qed.

Lemma inv_submitter i s x : program_inv s → work_step (PoolMoves (PushOn i)) (pg_work s) = Some x →
  program_inv (set_work s x (pg_main s)).
Proof using Hsize Hthreads.
  intros [Hb Hp Ho Ht Hf Hz] Ex. destruct (push_moves i _ _ Ex) as [Ed Epc].
  destruct (push_on_fields _ _ _ Ed) as (_ & Et & _ & Ec & Es & _ & _).
  split; cbn [pg_main pg_owner pg_work pg_thread set_work]; rewrite ?Es, ?Ec; try done.
  - split; [by apply (reachable_step work_system (PoolMoves (PushOn i)) (pg_work s)); [apply Hb|]|].
    apply (reachable_step _ (Pool (PushOn i)) (owned_of s)); [apply Hb|]. simpl. by rewrite Ed.
  - unfold first_ok in *. by rewrite Et, Epc.
Qed.

Lemma inv_dangle s : program_inv s → program_inv (dangle s).
Proof. intros [[Hw Ho] Hp H1 H2 H3 H4]. by split. Qed.

(** A defined step, or the access that is not. *)
Lemma thread_moves_cases w l s s' : thread_moves w l s = Some s' →
  worker_moves w l s = Some s' ∨
  s' = dangle s ∧ touches l (pg_work s) = true ∧ alive (pg_main s) = false ∧ is_Some (work_step l (pg_work s)).
Proof.
  intros (s1 & E & Hs)%bind_Some. destruct (touches _ _) eqn:Et, (alive _) eqn:Ea; simplify_eq/=; auto.
  right. split_and!; [done..|]. unfold worker_moves in E. destruct (pg_thread s w); [|done].
  apply bind_Some in E as (x & -> & _). by eexists.
Qed.

Lemma program_moves l s s' : program_step l s = Some s' → undefined s = false ∧ moves l s = Some s'.
Proof. unfold program_step. by destruct (undefined s). Qed.

Lemma program_invariant : invariant program_system program_inv.
Proof using Hsize Hthreads.
  apply invariant_intro.
  - intros s ->. split; try done. split; by apply reachable_init.
  - intros [| |i|l] s s' Hi [_ Hstep]%program_moves; cbn [moves] in Hstep.
    + by apply (inv_main_step s).
    + destruct (pg_main s) as [| | | | |[]| | | |] eqn:Em; simplify_eq. pose proof (pv_positions _ Hi) as Hp.
      pose proof (pv_first _ Hi) as Hf. apply (inv_main s _ Hi); rewrite ?Em in *; done.
    + apply bind_Some in Hstep as (x & Ex & [= <-]). by apply (inv_submitter i).
    + apply bind_Some in Hstep as (w & Hw & Hstep).
      destruct (thread_moves_cases w l s s' Hstep) as [E|[-> _]]; [by apply (inv_thread w l s)|by apply inv_dangle].
Qed.

(** ** The lifetime of the counter *)

(** In the example the counter outlives the fibers; only the benchmark calls [WaitIdle]. *)
Definition lifetime_ok s : Prop :=
  (∀ p, pg_main s = Idling p → idles = true) ∧ (idles = false → pg_dangling s = false).

Lemma rest_untouched l (x : work) : at_rest (wl_pool x) → touches l x = false.
Proof.
  intros Hrest. destruct l as [l|l|l|w|w]; try done. simpl. unfold on_stack.
  pose proof (ar_workers _ Hrest w) as Hw. by destruct (wk_pc (dworkers (wl_pool x) w)).
Qed.

(** Before fiber 0 is submitted, and once the workers have been joined, nobody is there
    to access it. *)
Lemma dead_untouched l s : program_inv s → (∀ p, pg_main s = Idling p → idles = true) → idles = false →
  alive (pg_main s) = false → touches l (pg_work s) = false.
Proof using Hsize.
  intros Hi Hidle Ei Ha. pose proof (base_ok s (pv_base _ Hi)) as Hok.
  assert (waited (pg_main s) (pg_owner s) → touches l (pg_work s) = false) as Hwait.
  { intros Hw. apply rest_untouched, (base_idle s (pv_base _ Hi)), (pv_waited _ Hi Hw). }
  pose proof (first_rest _ _ (roles_invariant _ (pb_work _ (pv_base _ Hi))) (ow_base _ _ _ Hok) (pv_first _ Hi)) as Hrest.
  unfold alive in Ha. rewrite Ei in Ha. destruct (pg_main s) as [| | | | |p| | | |]; try done;
    try (by apply rest_untouched); try (by apply Hwait). by specialize (Hidle p eq_refl); rewrite Ei in Hidle.
Qed.

Lemma main_lifetime s s' : main_step s = Some s' → pg_dangling s' = pg_dangling s ∧
  ∀ q, pg_main s' = Idling q → idles = true ∨ ∃ p, pg_main s = Idling p.
Proof.
  intros Hstep. assert (∀ l p, on_pool l p s = Some s' → pg_dangling s' = pg_dangling s ∧ pg_main s' = p) as Hp.
  { intros l p (o & _ & [= <-])%bind_Some. done. }
  assert (∀ p, inside p s = Some s' → pg_dangling s' = pg_dangling s ∧ (pg_main s' = p ∨ pg_main s' = pg_main s)) as Hin.
  { intros p. unfold inside. destruct (pg_owner s); try (intros H%Hp; naive_solver). intros [= <-]. auto. }
  unfold main_step in Hstep. destruct (pg_main s) as [| | | | |p| | | |] eqn:Em.
  1,7,9: apply Hp in Hstep as [-> ->]; split; [done|naive_solver].
  1,6,7: apply Hin in Hstep as [-> [-> | ->]]; split; [done|naive_solver|done|naive_solver].
  1,2: apply bind_Some in Hstep as (x & _ & [= <-]); split; [done|naive_solver].
  - simplify_eq. split; [done|]. simpl. destruct idles; naive_solver.
  - destruct p; simpl in Hstep; simplify_eq; split; try done; simpl; eauto.
Qed.

Lemma lifetime_invariant : invariant program_system lifetime_ok.
Proof using Hsize Hthreads.
  apply (invariant_on_top _ program_inv); [apply program_invariant|by intros s ->|].
  intros [| |i|l] s s' Hi [Hidle Hd] [_ Hstep]%program_moves; cbn [moves] in Hstep.
  - destruct (main_lifetime s s' Hstep) as [E H]. split; [|by rewrite E].
    intros q Hq. destruct (H q Hq) as [?|[p Hp]]; [done|by eapply Hidle].
  - destruct (pg_main s) as [| | | | |[]| | | |] eqn:Em; simplify_eq. split; [|done]. intros _ _. by eapply Hidle.
  - apply bind_Some in Hstep as (x & _ & [= <-]). by split.
  - apply bind_Some in Hstep as (w & Hw & Hstep).
    destruct (thread_moves_cases w l s s' Hstep) as [E|(-> & Ht & Ha & _)].
    + unfold worker_moves in E. destruct (pg_thread s w); [|done]. apply bind_Some in E as (x & _ & [= <-]).
      split; [|done]. simpl. intros q Hq. case_match; [|by eapply Hidle].
      destruct (pg_main s) as [| | | | |p| | | |] eqn:Em; try done. by eapply Hidle.
    + split; [done|]. intros Ei. by rewrite (dead_untouched l s Hi Hidle Ei Ha) in Ht.
Qed.

(** ** The threads of the program *)

(** A worker that has begun has a thread. *)
Definition begun s : Prop := ∀ w, wk_pc (dworkers (pg_pool s) w) = PTry ∨ pg_thread s w = true.

(** The workers move with their threads, and nobody moves them otherwise. *)
Lemma begun_keep s s' : begun s → (∀ w, pg_thread s w = true → pg_thread s' w = true) →
  (∀ w, wk_pc (dworkers (pg_pool s') w) = wk_pc (dworkers (pg_pool s) w) ∨ pg_thread s' w = true) → begun s'.
Proof. intros Hb Ht Hp w. destruct (Hp w) as [->|?]; [|by right]. destruct (Hb w); auto. Qed.

Lemma begun_put s l o p : begun s → owned_step CountThreads (S kTasks) l (owned_of s) = Some o →
  (∀ d, l ≠ Pool d) → begun (put_owned s o p).
Proof.
  intros Hb E Hl. apply (begun_keep s _ Hb); intros w; [|left]; simpl.
  - assert (od_thread o = pg_thread s ∨ ∃ i, od_thread o = (pg_thread s)⟦i ↦ true⟧) as [->|[i ->]]; [|done|by upd_cases].
    destruct l as [| | | |d]; simpl in E; [destruct (pg_owner s); simplify_eq; by left..| |by destruct (Hl d)].
    unfold owner_step, destroy_worker_step in E. simpl in E.
    destruct (pg_owner s); try done; repeat case_match; simplify_eq; simpl; eauto;
      apply bind_Some in E as (d' & _ & [= <-]); by left.
  - pose proof (owned_moves _ _ l _ _ E) as Hm. simpl in Hm.
    assert (od_pool o = pg_pool s ∨ ∃ d, dist_step d (pg_pool s) = Some (od_pool o) ∧ by_owner d = true) as [->|(d & Ed & Hd)].
    { destruct l as [| | | |d]; [exact Hm..|by destruct (Hl d)]. }
    + done.
    + apply (other_workers d _ _ w Ed). by destruct d.
Qed.

Lemma begun_invariant : invariant program_system begun.
Proof using Hsize Hthreads.
  apply (invariant_on_top _ program_inv); [apply program_invariant|intros s ->; by left|].
  intros [| |i|l] s s' Hi Hb [_ Hstep]%program_moves; cbn [moves] in Hstep.
  - assert (∀ l p, (∀ d, l ≠ Pool d) → on_pool l p s = Some s' → begun s') as Hp.
    { intros l p Hl Ho. apply bind_Some in Ho as (o & E & [= <-]). by apply (begun_put s l). }
    assert (∀ q, inside q s = Some s' → begun s') as Hins.
    { intros q. unfold inside. destruct (pg_owner s); try (by apply (Hp OwnerStep)). by intros [= <-]. }
    assert (∀ d p, (d = CallSubmit 0 ∨ d = Route 0) → (x ← work_step (PoolMoves d) (pg_work s); Some (set_work s x p)) = Some s' →
      begun s') as Hgo.
    { intros d p Hd Hx. apply bind_Some in Hx as (x & Ex & [= <-]). apply (begun_keep s _ Hb); [done|]. intros w. left.
      cbn [work_step] in Ex. destruct (main_or_loop _ _); [|done]. apply bind_Some in Ex as (o & Eo & [= <-]).
      destruct (px_neither_step _ _ _ Eo) as (Ed & _). apply (other_workers d _ _ w Ed). by destruct Hd as [-> | ->]. }
    unfold main_step in Hstep. destruct (pg_main s) as [| | | | |[]| | | |]; simpl in Hstep; simplify_eq; eauto.
    1-3: by eapply Hp; [|exact Hstep].
  - destruct (pg_main s) as [| | | | |[]| | | |]; by simplify_eq.
  - apply bind_Some in Hstep as (x & Ex & [= <-]). destruct (push_moves i _ _ Ex) as [Ed _].
    destruct (push_on_fields _ _ _ Ed) as (_ & _ & _ & _ & _ & _ & Ep). apply (begun_keep s _ Hb); [done|]. by left.
  - apply bind_Some in Hstep as (w & Hw & Hstep). pose proof (roles_invariant _ (pb_work _ (pv_base _ Hi))) as Hr.
    apply thread_moves_cases in Hstep as [Hstep|[-> _]]; [|by apply (begun_keep s _ Hb); [|by left]].
    assert (pg_thread s w = true) as Et by (unfold worker_moves in Hstep; by destruct (pg_thread s w)).
    destruct (thread_effect w l s s' Hstep) as (Ex & Eth & _).
    apply (begun_keep s _ Hb); rewrite Eth; [done|]. intros u. destruct (decide (u = w)) as [->|Hu]; [by right|left].
    destruct (work_moved_by l _ _ w Hr Ex Hw) as [[-> _]|[[b E]|(d & _ & E & Hd)]]; [done|by apply (worker_others _ w b)|].
    apply (other_workers d _ _ u E). destruct d; simpl in Hd; naive_solver.
Qed.

(** ** Somebody can move *)

Definition can_go s : Prop := ∃ l, is_Some (moves l s).

Lemma few_tasks_of : FewTasks.
Proof using Hsize. clear Hthreads. unfold FewTasks. lia. Qed.

Lemma worker_can s w : pg_thread s w = true → work_can_move (pg_work s) w → can_go s.
Proof.
  intros Et (l & Hl & [x Ex]).
  assert (worker_of l = Some w) as Hw.
  { destruct l as [d|l|l|u|u]; cbn [work_step] in Ex; simpl in Hl |- *; try congruence.
    - destruct d; simpl in *; congruence.
    - destruct (calls _ _ _); [|done]. apply bind_Some in Ex as (o & Eo & _).
      destruct (px_one_step l _ _ Eo) as (Hen & _). destruct l; simpl in *; congruence.
    - destruct (calls _ _ _); [|done]. apply bind_Some in Ex as (o & Eo & _).
      destruct (px_two_step l _ _ Eo) as (Hen & _). destruct l; simpl in *; congruence. }
  exists (Thread l). cbn [moves]. rewrite Hw. cbn [mbind option_bind]. unfold thread_moves, worker_moves. rewrite Et, Ex. by eexists.
Qed.

(** A worker that holds a spinlock does not spin, on either. *)
Lemma holder_can s : program_inv s → begun s → wl_pc (pg_work s) 0 ≠ Failed →
  (∃ w f, holds_spin (pk_fibers (wl_mutex (pg_work s)) f) = true ∧ running_on (wk_pc (dworkers (pg_pool s) w)) = Some f) ∨
  (∃ w f, holds_spin (pk_fibers (wl_group (pg_work s)) f) = true ∧ running_on (wk_pc (dworkers (pg_pool s) w)) = Some f) →
  can_go s.
Proof using Hsize.
  intros Hi Hb Hn Hh. pose proof few_tasks_of as Hfew. pose proof (pb_work _ (pv_base _ Hi)) as Hw.
  pose proof (roles_invariant _ Hw) as Hr. pose proof (routing_invariant _ Hw) as Hro.
  pose proof (px_apart _ (ri_objects _ Hr)) as Hap.
  assert (∀ w f, running_on (wk_pc (dworkers (pg_pool s) w)) = Some f →
    (∀ op, fb_pc (pk_fibers (wl_mutex (pg_work s)) f) ≠ Ctor op) →
    (∀ op, fb_pc (pk_fibers (wl_group (pg_work s)) f) ≠ Ctor op) → can_go s) as Hgo.
  { intros w f Hf Hm Hg. apply (worker_can s w).
    { destruct (Hb w) as [E|?]; [by rewrite E in Hf|done]. }
    destruct (workers_go (pg_work s) w Hr Hro Hn) as [[?|[Hs|Hs]]|[E|E]]; [done|..]; try (by rewrite E in Hf).
    - destruct Hs as (g & op & Eg & Ec & _). unfold on_stack in Eg. simpl in Eg, Ec.
      destruct (wk_pc (dworkers (pg_pool s) w)); simplify_eq/=. by destruct (Hm op).
    - destruct Hs as (g & op & Eg & Ec & _). unfold on_stack in Eg. simpl in Eg, Ec.
      destruct (wk_pc (dworkers (pg_pool s) w)); simplify_eq/=. by destruct (Hg op). }
  destruct Hh as [(w & f & Hh & Hf)|(w & f & Hh & Hf)]; apply (Hgo w f Hf); intros op E.
  - unfold holds_spin in Hh. by rewrite E in Hh.
  - destruct (Hap f) as [E'%outside_out|E'%outside_out]; [|congruence]. unfold holds_spin in Hh. by rewrite E' in Hh.
  - destruct (Hap f) as [E'%outside_out|E'%outside_out]; [congruence|]. unfold holds_spin in Hh. by rewrite E' in Hh.
  - unfold holds_spin in Hh. by rewrite E in Hh.
Qed.

(** While a worker has not left its loop, somebody can move: it, or the one it waits for. *)
Lemma worker_or_holder s w : program_inv s → begun s → wl_pc (pg_work s) 0 ≠ Failed → pg_thread s w = true →
  wk_pc (dworkers (pg_pool s) w) ≠ LDone → can_go s.
Proof using Hsize.
  intros Hi Hb Hn Et Hd. pose proof few_tasks_of as Hfew. pose proof (pb_work _ (pv_base _ Hi)) as Hw.
  pose proof (roles_invariant _ Hw) as Hr. pose proof (routing_invariant _ Hw) as Hro.
  destruct (ri_objects _ Hr) as [H1%pf_invariant H2%pf_invariant _].
  destruct (workers_go (pg_work s) w Hr Hro Hn) as [[Hm|[Hs|Hs]]|[E|E]]; [by apply (worker_can s w)|..|done|].
  - destruct Hs as (f & op & _ & _ & Hs). apply (holder_can s Hi Hb Hn). left. by apply (spin_holder _ _ H1).
  - destruct Hs as (f & op & _ & _ & Hs). apply (holder_can s Hi Hb Hn). right. by apply (spin_holder _ _ H2).
  - pose proof (ow_closes _ _ _ (base_ok s (pv_base _ Hi)) w) as Hc. simpl in Hc. by rewrite E in Hc.
Qed.

(** Fiber 0 is in no operation before its first step. *)
Lemma first_outside (x : work) : roles_inv x → group_inv x → at_rest (wl_pool x) → wl_pc x 0 = Adding →
  outside (wl_mutex x) 0 = true ∧ outside (wl_group x) 0 = true.
Proof.
  intros Hr Hg Hrest E. destruct (ri_objects _ Hr) as [H1%pf_invariant H2%pf_invariant _].
  assert (∀ w, wk_pc (dworkers (wl_pool x) w) ≠ PRun 0) as Hn.
  { intros w Ew. pose proof (ar_workers _ Hrest w) as Hw. by rewrite Ew in Hw. }
  destruct (ri_mutex _ Hr 0) as [Hm _]. destruct (ri_group _ Hr 0) as [Hgc _]. rewrite E in Hm, Hgc.
  pose proof (pf_where _ H1 0) as L1. pose proof (pf_where _ H2 0) as L2. simpl in L1, L2. unfold located, outside in *.
  pose proof (gi_susp _ Hg 0) as Hs. split.
  - destruct (fb_pc (pk_fibers (wl_mutex x) 0)); try done; try (by destruct L1 as [w ?%Hn]). by specialize (Hm _ eq_refl).
  - destruct (fb_pc (pk_fibers (wl_group x) 0)) as [| | |op| | | | | |]; try done; try (by destruct L2 as [w ?%Hn]).
    specialize (Hs op eq_refl). subst. by specialize (Hgc _ eq_refl).
Qed.

(** The owner moves, or waits for a worker that has not left. *)
Lemma owner_can s : threads_ok (pg_owner s) (pg_thread s) → owned_ok CountThreads (S kTasks) (owned_of s) →
  match pg_owner s with ONew | OReady | OGone | OFailed => False | _ => True end →
  is_Some (owner_step CountThreads (owned_of s)) ∨
  ∃ w, pg_thread s w = true ∧ wk_pc (dworkers (pg_pool s) w) ≠ LDone.
Proof.
  intros Ht Hok Ho. pose proof (ow_owner _ _ _ Hok) as Hw. simpl in Hw. unfold owner_step, destroy_worker_step. simpl.
  assert (∀ i o, i < CountThreads → (∀ w, w < CountThreads → pg_thread s w = true) →
    is_Some (if joined (owned_of s) i then Some (set_owner (owned_of s) o) else None) ∨
    ∃ w, pg_thread s w = true ∧ wk_pc (dworkers (pg_pool s) w) ≠ LDone) as Hj.
  { intros i o Hi Hth. destruct (joined (owned_of s) i) eqn:E; [left; by eexists|right]. exists i. split; [by apply Hth|].
    intros Ed. unfold joined in E. simpl in E. by rewrite Ed, orb_true_r in E. }
  destruct (pg_owner s) as [|i| |b|b i|b i|i|i|i| |]; try done; simpl in Hw, Ht |- *; try (left; by eexists).
  - left. case_decide; by eexists.
  - apply Hj; [apply Hw|done].
  - left. case_decide; by eexists.
  - apply Hj; [apply Hw|done].
Qed.

Lemma main_can s : program_inv s → begun s → wl_pc (pg_work s) 0 ≠ Failed → pg_owner s ≠ OGone → can_go s.
Proof using Hsize Hthreads.
  intros Hi Hb Hn Hg. pose proof (pv_positions _ Hi) as Hp. pose proof (pv_threads _ Hi) as Ht.
  pose proof (base_ok s (pv_base _ Hi)) as Hok. pose proof (pb_work _ (pv_base _ Hi)) as Hw.
  pose proof few_tasks_of as Hfew.
  assert (is_Some (main_step s) → can_go s) as Hmain by (intros E; by exists MainStep).
  assert (∀ next, match pg_owner s with ONew | OGone | OFailed => False | _ => True end →
    is_Some (inside next s) ∨ can_go s) as Hins.
  { intros next Ho. destruct (decide (pg_owner s = OReady)) as [E|E]; [left; unfold inside; rewrite E; by eexists|].
    destruct (owner_can s Ht Hok) as [[o Eo]|(w & Et & Ed)]; [by destruct (pg_owner s)| |right; by apply (worker_or_holder s w)].
    left. unfold inside, on_pool. simpl. rewrite Eo. destruct (pg_owner s); by eexists. }
  assert (∀ p, opened (pg_main s) → pg_main s = Idling p → can_go s) as Hidle.
  { intros p Ho E. destruct p; try (apply Hmain; unfold main_step; rewrite E; by eexists).
    rewrite E in Hp. simpl in Hp. rewrite Hp in Ht. apply (worker_or_holder s 0); try done; [by apply Ht|].
    intros Ed. pose proof (ow_closes _ _ _ Hok 0) as Hc. simpl in Hc. rewrite Ed in Hc. simpl in Hc.
    unfold CanCloseWorker in Hc. by rewrite (pv_open _ Hi Ho) in Hc. }
  pose proof (pv_first _ Hi) as Hf. pose proof (roles_invariant _ Hw) as Hr.
  pose proof (first_rest _ _ Hr (ow_base _ _ _ Hok) Hf) as Hrest.
  assert (∀ d, at_rest (pg_pool s) → wl_pc (pg_work s) 0 = Adding → main_or_loop d (pg_work s) = true →
    d = CallSubmit 0 ∨ d = Route 0 → is_Some (dist_step d (pg_pool s)) → is_Some (work_step (PoolMoves d) (pg_work s))) as Hgo.
  { intros d Ha E Hl Hd Hs. destruct (first_outside _ Hr (group_invariant _ Hw) Ha E) as [O1 O2].
    cbn [work_step]. rewrite Hl. destruct (px_neither_enabled d (wl_objects (pg_work s))) as [o ->]; [..|by eexists]; try done;
      by destruct Hd as [-> | ->]. }
  destruct (pg_main s) as [| | | | |p| | | |] eqn:Em; simpl in Hp, Hf.
  - apply Hmain. unfold main_step, on_pool. rewrite Em. simpl. rewrite Hp. by eexists.
  - destruct (Hins Submitting0) as [E|?]; [by destruct Hp as [-> | [i ->]]| |done]. apply Hmain. unfold main_step. by rewrite Em.
  - apply Hmain. unfold main_step. rewrite Em. destruct (Hgo (CallSubmit 0) Hrest) as [x ->]; [|..|by eexists]; try auto.
    + apply (ri_planned _ Hr 0 Hf).
    + by apply bool_decide_eq_true.
    + destruct (dist_count_invariant _ (ow_base _ _ _ Hok)) as [_ [X Hc]].
      destruct (dc_fresh _ _ Hc _ Hf) as [_ Ho]. simpl in Ho |- *. rewrite Ho. by eexists.
  - apply Hmain. unfold main_step. rewrite Em. destruct Hf as (_ & Ep & E0).
    destruct (Hgo (Route 0) Hrest E0) as [x ->]; [|..|by eexists]; try auto. simpl. rewrite Ep. by eexists.
  - apply Hmain. unfold main_step. rewrite Em. by eexists.
  - by apply (Hidle p).
  - apply Hmain. unfold main_step, on_pool. rewrite Em. simpl. rewrite Hp. by eexists.
  - destruct (Hins Leaving) as [E|?]; [by destruct (pg_owner s)| |done]. apply Hmain. unfold main_step. by rewrite Em.
  - apply Hmain. unfold main_step, on_pool. rewrite Em. simpl. rewrite Hp. by eexists.
  - destruct (Hins InDestructor) as [E|?]; [by destruct (pg_owner s)| |done]. apply Hmain. unfold main_step. by rewrite Em.
Qed.

(** What has been waited for. *)
Lemma waited_complete s : program_inv s → waited (pg_main s) (pg_owner s) →
  wl_pc (pg_work s) 0 = Checked ∧ (∀ f, 1 ≤ f ≤ kTasks → wl_pc (pg_work s) f = Reported) ∧
  ∀ k, ¬ in_flight (pg_pool s) k.
Proof using Hsize.
  clear Hthreads. intros Hi Hwait. pose proof few_tasks_of as Hfew. pose proof (pb_work _ (pv_base _ Hi)) as Hw.
  pose proof (pv_waited _ Hi Hwait) as Hz. pose proof (pv_first _ Hi) as Hf.
  destruct (pool_workload_correct (pg_work s)) as (Hnf & _ & _); [lia|done|].
  assert (tk_state (dtasks (pg_pool s) 0) ≠ PLANNED) as Hsub by (by destruct (pg_main s)).
  destruct (closed_complete (pg_work s)) as [E1 E2]; try done;
    [lia|by apply roles_invariant|by apply group_invariant|].
  split_and!; [done..|]. intros k. by apply counted_none_in_flight, (base_idle s (pv_base _ Hi)).
Qed.
End program.

(** C8: the example of the pool and the benchmark, from the construction of the pool to its
    destruction, on any number of workers, whatever the order of the steps of their
    threads and of the main thread.  In the example the counter outlives the fibers: none
    accesses it after its lifetime.  And unless the behaviour has become undefined -- in
    the benchmark, by such an access; in either, by a [release] of a worker's semaphore
    past its [max()], whatever that is -- no assertion fails, neither that of the workload
    nor that of [~Worker], and no completed coroutine is resumed.  Where the counter is
    checked it is [kTasks], and the mutex and the wait group are fiber 0's alone.  When
    [WaitIdle] or [WaitShutdown] returns, every fiber has ended; when the destructor
    does, every worker has left its loop.  Inside a task [Current()] is the pool.  And
    until then there is no deadlock: some thread can make a step. *)
Theorem pool_program_correct `{Tasks} `{Program} (s : program) :
  0 < CountThreads → (Z.of_nat (S kTasks) < size_bound)%Z → reachable program_system s →
  (idles = false → pg_dangling s = false) ∧
  (undefined s = false →
    (wl_pc (pg_work s) 0 ≠ Failed ∧ pg_owner s ≠ OFailed ∧ ∀ w, wk_pc (dworkers (pg_pool s) w) ≠ LAbort) ∧
    (wl_pc (pg_work s) 0 = Checking ∨ wl_pc (pg_work s) 0 = Checked →
      wl_counter (pg_work s) = Z.of_nat kTasks ∧ ∀ f, f ≠ 0 →
        outside (wl_mutex (pg_work s)) f = true ∧ uses_group (pk_fibers (wl_group (pg_work s)) f) = false) ∧
    (waited (pg_main s) (pg_owner s) →
      wl_pc (pg_work s) 0 = Checked ∧ (∀ f, 1 ≤ f ≤ kTasks → wl_pc (pg_work s) f = Reported) ∧
      ∀ k, ¬ in_flight (pg_pool s) k) ∧
    (pg_owner s = OGone → ∀ w, w < CountThreads → wk_pc (dworkers (pg_pool s) w) = LDone) ∧
    (∀ w k, running_on (wk_pc (dworkers (pg_pool s) w)) = Some k → pg_current s w = true) ∧
    (pg_owner s ≠ OGone → ∃ l, is_Some (program_step l s))).
Proof.
  intros Hth Hsize Hs. pose proof (program_invariant Hth Hsize s Hs) as Hi.
  pose proof (pb_work _ (pv_base _ Hi)) as Hw. pose proof (base_ok Hsize s (pv_base _ Hi)) as Hok.
  split; [apply (lifetime_invariant Hth Hsize s Hs)|]. intros Hu.
  destruct (pool_workload_correct (pg_work s)) as (Hnf & Hlocals & _); [lia|done|].
  assert (FewTasks) as Hfew by (unfold FewTasks; lia). split_and!; [done| | |done|..].
  - pose proof (pv_positions _ Hi) as Hp. intros E. rewrite E in Hp. destruct (pg_main s); simpl in Hp; try done.
    by destruct Hp as [|[]].
  - intros w E. pose proof (ow_closes _ _ _ Hok w) as Hc. simpl in Hc. by rewrite E in Hc.
  - intros Hwait. by apply (waited_complete Hsize).
  - intros Eo w Hlt. pose proof (ow_owner _ _ _ Hok) as Ho. simpl in Ho. rewrite Eo in Ho. destruct Ho as [_ Hj].
    pose proof (pv_threads _ Hi) as Ht. rewrite Eo in Ht. specialize (Hj w Hlt Hlt). unfold joined in Hj.
    simpl in Hj. rewrite Ht in Hj by done. by destruct (wk_pc (dworkers (pg_pool s) w)).
  - intros w k E. destruct (ow_current _ _ _ Hok w) as [?|Hp]; [done|]. simpl in Hp. by rewrite Hp in E.
  - intros Hg. unfold program_step. rewrite Hu. apply (main_can Hth Hsize s); [done|by apply (begun_invariant Hth Hsize)|done..].
Qed.

(** ** Runs of three workers with two tasks: see PoolWorkload.v *)

Definition example_program (n : Z) : Program := {| CountThreads := 3; idles := false; smph_max := n |}.
Definition benchmark (n : Z) : Program := {| CountThreads := 3; idles := true; smph_max := n |}.

(** Fiber 2 waits for the mutex while fiber 1 increments; fiber 0 waits for both.  A
    worker that has nothing to do waits for its semaphore before it is pushed to. *)
Definition submitted : list program_label := repeat (Submitter 0) 3.

Definition two_tasks_settled : list program_label :=
  (Thread <$> pool_steps 0 8 ++
    [InGroup (Enter 0 (Add 2))] ++ group_moves 0 7 ++ repeat (OwnCode 0) 5 ++ pool_steps 1 8 ++ pool_steps 2 8 ++
    [InGroup (Enter 0 Wait)] ++ group_moves 0 2 ++ repeat (InGroup (Await 0)) 3 ++ pool_steps 0 19 ++
    [InMutex (Enter 1 Lock)] ++ mutex_moves 1 7 ++ [OwnCode 1] ++
    [InMutex (Enter 2 Lock)] ++ mutex_moves 2 2 ++ repeat (InMutex (Await 2)) 3 ++ pool_steps 2 19 ++
    [OwnCode 1; InMutex (Enter 1 Unlock)] ++ mutex_moves 1 6 ++ [InMutex (Count 1)] ++ mutex_moves 1 2) ++ submitted ++
  (Thread <$> [InGroup (Enter 1 Done)] ++ group_moves 1 7 ++ [Return 1] ++ pool_steps 2 3 ++
    [InMutex (Take 2 false)] ++ mutex_moves 2 2 ++ [OwnCode 2; OwnCode 2; InMutex (Enter 2 Unlock)] ++ mutex_moves 2 7 ++
    [InGroup (Enter 2 Done)] ++ group_moves 2 6 ++ [InGroup (Count 2)] ++ group_moves 2 2) ++ submitted ++
  (Thread <$> [Return 2] ++ pool_steps 0 3 ++ [InGroup (Take 0 false)] ++ group_moves 0 2 ++ [OwnCode 0; Return 0] ++
    pool_steps 0 9 ++ pool_steps 1 19 ++ pool_steps 2 9).

(** The main thread stops the pool: it wakes and joins each worker in turn. *)
Definition stopping : list program_label :=
  flat_map (λ w, repeat MainStep 2 ++ (Thread <$> pool_steps w 7)) [0; 1; 2].

(** The fibers run while the main thread is still in [Go]. *)
Definition example_schedule : list program_label :=
  repeat MainStep 8 ++ two_tasks_settled ++ repeat MainStep 2 ++ stopping ++ repeat MainStep 22.

Definition benchmark_schedule : list program_label :=
  repeat MainStep 8 ++ two_tasks_settled ++ repeat MainStep 4 ++ stopping ++ repeat MainStep 12.

Definition program_after {P : Program} (tr : list program_label) : program :=
  default new_program (run (@program_system 2 P) tr new_program).

Lemma pool_program_correct_witness :
  let s := program_after (P := example_program 2) example_schedule in
  pg_owner s = OGone ∧
  (wl_pc (pg_work s) 0 = Checked ∧ (∀ f, 1 ≤ f ≤ 2 → wl_pc (pg_work s) f = Reported) ∧ ∀ k, ¬ in_flight (pg_pool s) k) ∧
  ∀ w, w < 3 → wk_pc (dworkers (pg_pool s) w) = LDone.
Proof.
  intros s. assert (pg_owner s = OGone) as E by (vm_compute; reflexivity).
  destruct (@pool_program_correct 2 (example_program 2) s) as [_ Hs].
  - simpl. lia.
  - reflexivity.
  - apply (run_reachable (@program_system 2 (example_program 2))); [done|]. apply is_Some_alt. vm_compute. exact I.
  - destruct Hs as (_ & _ & Hw & Hg & _); [vm_compute; reflexivity|].
    split; [exact E|]. split; [apply Hw; vm_compute; exact I|exact (Hg E)].
Defined.

(** The benchmark to its end, when [bench_logic] is slower than the fibers. *)
Example benchmark_run :
  let s := program_after (P := benchmark 1) benchmark_schedule in
  pg_owner s = OGone ∧ @undefined (benchmark 1) s = false ∧ wl_pc (pg_work s) 0 = Checked.
Proof. intros s. split_and!; vm_compute; reflexivity. Qed.

(** When it is not, fiber 1 increments a variable that is no more. *)
Example benchmark_dangles : ∃ s, reachable (@program_system 2 (benchmark 1)) s ∧ pg_dangling s = true.
Proof.
  exists (program_after (P := benchmark 1) (repeat MainStep 9 ++ take 71 two_tasks_settled)). split; [|by vm_compute].
  apply (run_reachable (@program_system 2 (benchmark 1))); [done|]. apply is_Some_alt. vm_compute. exact I.
Qed.

(** Where [max()] is 1, the example releases a semaphore past it: to stop the pool twice,
    by [WaitShutdown] and in the destructor, and then to destroy the worker, is to release
    it twice after its last [try_acquire_for]. *)
Example example_overruns : ∃ s, reachable (@program_system 2 (example_program 1)) s ∧
  (smph_max (Program := example_program 1) < smph_high (pg_pool s))%Z ∧ pg_main s = InDestructor.
Proof.
  exists (program_after (P := example_program 1)
    (repeat MainStep 8 ++ two_tasks_settled ++ repeat MainStep 2 ++ stopping ++ repeat MainStep 13)).
  split; [|by vm_compute]. apply (run_reachable (@program_system 2 (example_program 1))); [done|].
  apply is_Some_alt. vm_compute. exact I.
Qed.
