(* ===== verification/Context.v ===== *)
(** * context/buffer: stack switching on x86-64

    The two routines of prepare_context.s as programs of the instructions they are
    written in, run on a machine with the registers they use and a memory of 64-bit
    words; and [BufferContext] on top.  Every access the routines make is to an
    address that is a multiple of 8, so the memory maps such addresses to words.
    Addresses and the immediate arithmetic wrap around at 64 bits. *)

From stdpp Require Import prelude list.
From S2P Require Import Prelude.

Open Scope Z_scope.

Inductive reg := rax | rbx | rbp | rsp | rdi | rsi | rdx | r11 | r12 | r13 | r14 | r15.

Record regfile := Regs {
  v_rax : Z; v_rbx : Z; v_rbp : Z; v_rsp : Z; v_rdi : Z; v_rsi : Z; v_rdx : Z;
  v_r11 : Z; v_r12 : Z; v_r13 : Z; v_r14 : Z; v_r15 : Z
}.

Record machine := Machine {
  file : regfile;
  mem : Z → Z;
  rip : Z
}.

Definition regs (m : machine) (r : reg) : Z :=
  let f := file m in
  match r with
  | rax => v_rax f | rbx => v_rbx f | rbp => v_rbp f | rsp => v_rsp f | rdi => v_rdi f
  | rsi => v_rsi f | rdx => v_rdx f | r11 => v_r11 f | r12 => v_r12 f | r13 => v_r13 f
  | r14 => v_r14 f | r15 => v_r15 f
  end.

Definition set_file (f : regfile) (r : reg) (v : Z) : regfile :=
  let '(Regs a b c d e f g h i j k l) := f in
  match r with
  | rax => Regs v b c d e f g h i j k l | rbx => Regs a v c d e f g h i j k l
  | rbp => Regs a b v d e f g h i j k l | rsp => Regs a b c v e f g h i j k l
  | rdi => Regs a b c d v f g h i j k l | rsi => Regs a b c d e v g h i j k l
  | rdx => Regs a b c d e f v h i j k l | r11 => Regs a b c d e f g v i j k l
  | r12 => Regs a b c d e f g h v j k l | r13 => Regs a b c d e f g h i v k l
  | r14 => Regs a b c d e f g h i j v l | r15 => Regs a b c d e f g h i j k v
  end.

Definition set_reg (m : machine) (r : reg) (v : Z) : machine :=
  Machine (set_file (file m) r v) (mem m) (rip m).

(** [Mov src dst]; [Store src off base] is [movq %src, off(%base)]; [Load] the converse. *)
Inductive operand := R (r : reg) | I (n : Z).

Inductive instr :=
| Mov (src dst : reg)
| Store (src : reg) (off : Z) (base : reg)
| Load (off : Z) (base dst : reg)
| Add (n : Z) (dst : reg)
| Sub (n : Z) (dst : reg)
| And (n : Z) (dst : reg)
| PushQ (src : operand)
| PopQ (dst : reg)
| Ret.

(** Memory with one word written. *)
Definition write (f : Z → Z) (a v : Z) : Z → Z := λ x, if decide (a = x) then v else f x.
#[global] Arguments write : simpl never.

Definition set_mem (m : machine) (a v : Z) : machine :=
  Machine (file m) (write (mem m) a v) (rip m).

Definition value (m : machine) (o : operand) : Z :=
  match o with R r => regs m r | I n => n end.

Definition exec1 (i : instr) (m : machine) : machine :=
  match i with
  | Mov src dst => set_reg m dst (regs m src)
  | Store src off base => set_mem m (wrap64 (regs m base + off)) (regs m src)
  | Load off base dst => set_reg m dst (mem m (wrap64 (regs m base + off)))
  | Add n dst => set_reg m dst (sz_add (regs m dst) n)
  | Sub n dst => set_reg m dst (sz_sub (regs m dst) n)
  | And n dst => set_reg m dst (Z.land (regs m dst) (wrap64 n))
  | PushQ o =>
      let a := sz_sub (regs m rsp) 8 in set_mem (set_reg m rsp a) a (value m o)
  | PopQ dst =>
      let a := regs m rsp in set_reg (set_reg m rsp (sz_add a 8)) dst (mem m a)
  | Ret =>
      let a := regs m rsp in
      let m := set_reg m rsp (sz_add a 8) in Machine (file m) (mem m) (mem m a)
  end.

Definition exec (code : list instr) (m : machine) : machine := foldl (flip exec1) m code.

(** ** The code *)

Definition PrepareContextInBuffer : list instr := [
  Mov rsp r11;
  Mov rdi rsp;
  Sub 64 rsp;
  And (-16) rsp;
  Add 8 rsp;
  Store rdx 8 rsp;
  PushQ (R rsi);
  PushQ (I 0);
  PushQ (I 0);
  PushQ (I 0);
  PushQ (I 0);
  PushQ (I 0);
  PushQ (I 0);
  Mov rsp rax;
  Mov r11 rsp;
  Ret
].

Definition SwitchBufferContext : list instr := [
  PushQ (R r15);
  PushQ (R r14);
  PushQ (R r13);
  PushQ (R r12);
  PushQ (R rbx);
  PushQ (R rbp);
  Store rsp 0 rdi;
  Load 0 rsi rsp;
  PopQ rbp;
  PopQ rbx;
  PopQ r12;
  PopQ r13;
  PopQ r14;
  PopQ r15;
  Ret
].

(** A call by the System V convention: arguments in rdi, rsi and rdx, the return
    address pushed, and the callee's code run to its [Ret]. *)
Definition call (code : list instr) (ret a1 a2 a3 : Z) (m : machine) : machine :=
  exec code (exec1 (PushQ (I ret)) (set_reg (set_reg (set_reg m rdi a1) rsi a2) rdx a3)).

(** [target_buffer.back()] of a buffer of [size] bytes at [base]. *)
Definition back (base size : Z) : Z := base + size - 1.

(** [BufferContext::Setup]: the new context's saved stack pointer is stored in [rsp_],
    the field at address [self]. *)
Definition Setup (self base size CallRunner runner ret : Z) (m : machine) : machine :=
  let m := call PrepareContextInBuffer ret (back base size) CallRunner runner m in
  set_mem m self (regs m rax).

(** [BufferContext::SwitchTo]: from the context at [self] to the one at [target]. *)
Definition SwitchTo (self target ret : Z) (m : machine) : machine :=
  call SwitchBufferContext ret self target (regs m rdx) m.

(** The stack pointer from which a fresh context starts. *)
Definition entry (base size : Z) : Z := Z.land (back base size - 64) (-16) + 8.

Definition callee_saved : list reg := [rbx; rbp; rsp; r12; r13; r14; r15].

(** ** Facts about addresses *)

Lemma write_eq f a v : write f a v a = v.
Proof. unfold write. by rewrite decide_True. Qed.

Lemma write_ne f a b v : a ≠ b → write f a v b = f b.
Proof. intros. unfold write. by rewrite decide_False. Qed.

(** [andq $-16] rounds down to a multiple of 16. *)
Lemma align16 x : is_size x → Z.land x (wrap64 (-16)) = x - x mod 16.
Proof.
  intros Hx. change (wrap64 (-16)) with (Z.land (Z.ones 64) (Z.lnot (Z.ones 4))).
  rewrite Z.land_assoc, Z.land_ones by lia. change (2 ^ 64) with size_bound.
  rewrite (Z.mod_small x) by done. change (Z.land x (Z.lnot (Z.ones 4))) with (Z.land x (Z.lnot (Z.ones 4))).
  rewrite <- Z.ldiff_land, Z.ldiff_ones_r, Z.shiftl_mul_pow2, Z.shiftr_div_pow2 by lia.
  change (2 ^ 4) with 16. pose proof (Z.div_mod x 16 ltac:(lia)). lia.
Qed.

Lemma sz_sub_def a b : sz_sub a b = wrap64 (a - b).
Proof. done. Qed.

Lemma sz_add_def a b : sz_add a b = wrap64 (a + b).
Proof. done. Qed.

(** What [SwitchBufferContext] leaves on a stack it switches away from. *)
Record frame := Frame {
  fr_rbp : Z; fr_rbx : Z; fr_r12 : Z; fr_r13 : Z; fr_r14 : Z; fr_r15 : Z; fr_rip : Z
}.

Definition saved_frame (f : Z → Z) (p : Z) (fr : frame) : Prop :=
  f p = fr_rbp fr ∧ f (p + 8) = fr_rbx fr ∧ f (p + 16) = fr_r12 fr ∧ f (p + 24) = fr_r13 fr ∧
  f (p + 32) = fr_r14 fr ∧ f (p + 40) = fr_r15 fr ∧ f (p + 48) = fr_rip fr.

Definition frame_of (m : machine) (ret : Z) : frame :=
  Frame (regs m rbp) (regs m rbx) (regs m r12) (regs m r13) (regs m r14) (regs m r15) ret.

(** The callee-saved registers hold a frame, and control is where it returns to. *)
Definition running_frame (m : machine) (sp : Z) (fr : frame) : Prop :=
  regs m rsp = sp ∧ regs m rbp = fr_rbp fr ∧ regs m rbx = fr_rbx fr ∧ regs m r12 = fr_r12 fr ∧
  regs m r13 = fr_r13 fr ∧ regs m r14 = fr_r14 fr ∧ regs m r15 = fr_r15 fr ∧
  rip m = fr_rip fr ∧ regs m rsp = sp.

(** The words [a] in [lo, lo + 8 n). *)
Definition within (a lo n : Z) : Prop := lo <= a < lo + 8 * n.

(** ** Executing the routines *)

Lemma exec_app c1 c2 m : exec (c1 ++ c2) m = exec c2 (exec c1 m).
Proof. apply foldl_app. Qed.

(** Resolve the address arithmetic innermost first, where it does not wrap. *)
Ltac plain_addresses :=
  repeat match goal with
  | |- context [sz_sub ?a ?b] =>
      lazymatch a with
      | context [sz_sub _ _] => fail | context [sz_add _ _] => fail
      | _ => rewrite (sz_sub_small a b) by (unfold is_size, size_bound in *; lia)
      end
  | |- context [sz_add ?a ?b] =>
      lazymatch a with
      | context [sz_sub _ _] => fail | context [sz_add _ _] => fail
      | _ => rewrite (sz_add_small a b) by (unfold is_size, size_bound in *; lia)
      end
  | |- context [wrap64 (?a + ?b)] =>
      rewrite (wrap64_small (a + b)) by (unfold is_size, size_bound in *; lia)
  end.

(** Read through the writes to other addresses. *)
Ltac read_memory :=
  repeat first
    [ rewrite write_eq | rewrite write_ne by lia
    | match goal with |- context [write _ ?a _ ?b] => replace b with a by lia; rewrite write_eq end ].

Definition save_part : list instr := firstn 7 SwitchBufferContext.
Definition restore_part : list instr := skipn 7 SwitchBufferContext.

(** The first half pushes the callee-saved registers and stores the stack pointer. *)
Lemma exec_save self target ret m (sp := regs m rsp) :
  56 <= sp < size_bound → is_size self → (self < sp - 56 ∨ sp <= self) →
  let m' := exec save_part (exec1 (PushQ (I ret)) (set_reg (set_reg (set_reg m rdi self) rsi target)
    rdx (regs m rdx))) in
  saved_frame (mem m') (sp - 56) (frame_of m ret) ∧ mem m' self = sp - 56 ∧
  (∀ a, a ≠ self → ¬ sp - 56 <= a < sp → mem m' a = mem m a) ∧ regs m' rsi = target.
Proof.
  destruct m as [[] f ip]. subst sp. unfold save_part, SwitchBufferContext. cbn -[sz_sub sz_add wrap64].
  intros Hsp Hself Hout. plain_addresses. rewrite Z.add_0_r.
  unfold saved_frame, frame_of. cbn -[sz_sub sz_add wrap64].
  split; [|split; [|split; [|done]]].
  - repeat split; read_memory; done.
  - read_memory. lia.
  - intros a Ha Hn. by read_memory.
Qed.

(** The second half loads the saved stack pointer and pops the frame. *)
Lemma exec_restore target p fr m :
  regs m rsi = target → is_size target → mem m target = p → 0 <= p → p + 56 < size_bound →
  saved_frame (mem m) p fr →
  let m' := exec restore_part m in
  running_frame m' (p + 56) fr ∧ mem m' = mem m.
Proof.
  destruct m as [[] f ip]. unfold restore_part, SwitchBufferContext. cbn -[sz_sub sz_add wrap64].
  intros -> Ht Hp H1 H2 (F1 & F2 & F3 & F4 & F5 & F6 & F7). rewrite Z.add_0_r, (wrap64_small target) by done.
  rewrite Hp. plain_addresses.
  replace (p + 8 + 8) with (p + 16) by lia. replace (p + 16 + 8) with (p + 24) by lia.
  replace (p + 24 + 8) with (p + 32) by lia. replace (p + 32 + 8) with (p + 40) by lia.
  replace (p + 40 + 8) with (p + 48) by lia. replace (p + 48 + 8) with (p + 56) by lia.
  split; [|done]. unfold running_frame. cbn -[sz_sub sz_add wrap64]. by rewrite F1, F2, F3, F4, F5, F6, F7.
Qed.

(** The words a saved frame occupies, and disjointness from a range. *)
Definition apart (a lo hi : Z) : Prop := a < lo ∨ hi <= a.

Lemma saved_frame_ext f g p fr :
  (∀ a, p <= a < p + 56 → g a = f a) → saved_frame f p fr → saved_frame g p fr.
Proof.
  intros H (F1 & F2 & F3 & F4 & F5 & F6 & F7). unfold saved_frame. rewrite !H by lia. auto 10.
Qed.

Lemma SwitchTo_spec self target ret p fr m (sp := regs m rsp) :
  56 <= sp < size_bound → is_size self → is_size target → 0 <= p → p + 56 < size_bound →
  apart self (sp - 56) sp → apart target (sp - 56) sp → (p + 56 <= sp - 56 ∨ sp <= p) →
  apart self p (p + 56) → self ≠ target → mem m target = p → saved_frame (mem m) p fr →
  let m' := SwitchTo self target ret m in
  running_frame m' (p + 56) fr ∧ saved_frame (mem m') (sp - 56) (frame_of m ret) ∧
  mem m' self = sp - 56 ∧ ∀ a, a ≠ self → ¬ sp - 56 <= a < sp → mem m' a = mem m a.
Proof.
  intros Hsp Hs Ht Hp Hpb Hss Hts Hps Hsf Hne Hm Hf.
  change (SwitchTo self target ret m) with (exec (save_part ++ restore_part)
    (exec1 (PushQ (I ret)) (set_reg (set_reg (set_reg m rdi self) rsi target) rdx (regs m rdx)))).
  rewrite exec_app. unfold apart in *.
  destruct (exec_save self target ret m) as (H1 & H2 & H3 & H4); [done|done|done|].
  set (m1 := exec save_part _) in *.
  destruct (exec_restore target p fr m1) as [H5 H6]; [done|done| |done|done| |].
  { rewrite H3; [done|congruence|lia]. }
  { apply (saved_frame_ext (mem m)); [|done]. intros a Ha. apply H3; lia. }
  cbv zeta. rewrite H6. exact (conj H5 (conj H1 (conj H2 H3))).
Qed.

(** C19: a switch comes back as if it had been an ordinary call: if context [a] switches
    to [b], and later (whatever has run in between, as long as it has not written
    [a]'s saved frame nor its [rsp_]) some context switches to [a], then control is
    at the return address of the first switch, with the stack pointer and every
    callee-saved register as they were when it was called, and with the memory the
    other context left, except for that context's own saved frame and [rsp_]. *)
Theorem switch_round_trip a b c ret ret' m m2 (sp := regs m rsp) (sp2 := regs m2 rsp) :
  112 <= sp < size_bound → 56 <= sp2 < size_bound → is_size a → is_size b → is_size c →
  apart a (sp - 56) sp → apart b (sp - 56) sp → a ≠ b → a ≠ c →
  (* the context [b] is suspended on a stack of its own *)
  0 <= mem m b → mem m b + 56 < size_bound → (mem m b + 56 <= sp - 56 ∨ sp <= mem m b) →
  apart a (mem m b) (mem m b + 56) →
  (* what ran in between left the saved frame and [rsp_] of [a] alone *)
  (∀ x, sp - 56 <= x < sp ∨ x = a → mem m2 x = mem (SwitchTo a b ret m) x) →
  (* the context [c] that switches back is on another stack *)
  apart c (sp2 - 56) sp2 → apart a (sp2 - 56) sp2 → (sp <= sp2 - 56 ∨ sp2 <= sp - 56) →
  apart c (sp - 56) sp →
  let m3 := SwitchTo c a ret' m2 in
  running_frame m3 sp (frame_of m ret) ∧
  ∀ x, x ≠ c → ¬ sp2 - 56 <= x < sp2 → mem m3 x = mem m2 x.
Proof.
  intros Hsp Hsp2 Ha Hb Hc Has Hbs Hab Hac Hp1 Hp2 Hp3 Hp4 Hmid Hc2 Ha2 Hd Hcs.
  destruct (SwitchTo_spec a b ret (mem m b) (Frame (mem m (mem m b)) (mem m (mem m b + 8))
    (mem m (mem m b + 16)) (mem m (mem m b + 24)) (mem m (mem m b + 32)) (mem m (mem m b + 40))
    (mem m (mem m b + 48))) m) as (_ & H1 & H2 & _); try done; [lia|].
  unfold apart in *. fold sp in H1, H2.
  destruct (SwitchTo_spec c a ret' (sp - 56) (frame_of m ret) m2) as (H3 & _ & _ & H4);
    unfold apart; try done; try lia.
  - rewrite Hmid by auto. by rewrite H2.
  - eapply saved_frame_ext; [|exact H1]. intros x Hx. apply Hmid. left. lia.
  - replace (sp - 56 + 56) with sp in H3 by lia. auto.
Qed.

(** ** A fresh context *)

(** [Setup] leaves in the buffer what the first switch needs, and writes nothing else
    but the context's [rsp_] and its own return address. *)
Lemma Setup_spec self base size CallRunner runner ret m (sp := regs m rsp) (e := entry base size) :
  0 <= base → 128 <= size → base + size <= size_bound → 8 <= sp < size_bound →
  apart (sp - 8) base (base + size) → self ≠ sp - 8 →
  apart self base (base + size) →
  let m' := Setup self base size CallRunner runner ret m in
  (base <= e - 56 ∧ e + 16 <= base + size ∧ e mod 16 = 8) ∧
  (∀ r, r ∈ callee_saved → regs m' r = regs m r) ∧ rip m' = ret ∧
  (∀ x, ¬ e - 56 <= x < e + 16 → x ≠ self → x ≠ sp - 8 → mem m' x = mem m x) ∧
  mem m' self = e - 56 ∧ saved_frame (mem m') (e - 56) (Frame 0 0 0 0 0 0 CallRunner) ∧
  mem m' (e + 8) = runner.
Proof.
  intros Hb Hs Hbs Hsp Hret Hself Hself'. unfold apart in *.
  assert (e = back base size - 64 - (back base size - 64) mod 16 + 8) as He.
  { unfold e, entry. rewrite <- align16; [|unfold back, is_size; lia].
    change (wrap64 (-16)) with (Z.land (Z.ones 64) (-16)).
    rewrite Z.land_assoc, Z.land_ones by lia. change (2 ^ 64) with size_bound.
    by rewrite Z.mod_small by (unfold back; lia). }
  pose proof (Z.mod_pos_bound (back base size - 64) 16 ltac:(lia)) as Hmod.
  assert (base <= e - 56 ∧ e + 16 <= base + size ∧ e mod 16 = 8) as He'.
  { pose proof (Z.div_mod (back base size - 64) 16 ltac:(lia)) as Hdiv.
    split; [unfold back in *; lia|]. split; [unfold back in *; lia|].
    replace e with (8 + (back base size - 64) / 16 * 16) by lia. by rewrite Z_mod_plus_full. }
  split; [done|]. destruct He' as (He1 & He2 & _).
  assert (sz_add (Z.land (sz_sub (back base size) 64) (wrap64 (-16))) 8 = e) as Ee.
  { rewrite sz_sub_small by (unfold back, is_size in *; lia).
    rewrite align16 by (unfold back, is_size in *; lia).
    rewrite sz_add_small; unfold is_size in *; lia. }
  subst sp. clearbody e. destruct m as [[] f ip].
  unfold Setup, call, exec, PrepareContextInBuffer. cbn -[sz_sub sz_add wrap64 back Z.land] in *.
  rewrite Ee. clear Ee He Hmod. plain_addresses. unfold saved_frame. cbn -[sz_sub sz_add wrap64].
  split; [|split; [|split; [|split; [|split]]]].
  - intros r Hr. repeat (apply elem_of_cons in Hr as [->|Hr]; [cbn -[write]; lia|]).
    by apply elem_of_nil in Hr.
  - read_memory. done.
  - intros x H1 H2 H3. by read_memory.
  - read_memory. lia.
  - repeat split; read_memory; done.
  - read_memory. done.
Qed.

(** C20: on a buffer of at least 128 bytes, [Setup] returns to its caller with the stack
    pointer and the callee-saved registers unchanged, and writes only inside the
    buffer (besides the context's [rsp_] and its own return address); and the first
    switch to the context, from any machine that has kept the buffer and [rsp_] as
    they were left, starts [CallRunner] on that stack as the System V convention
    requires: the stack pointer is 8 modulo 16, the seventh argument, at 8 above it,
    is the runner, and the callee-saved registers are zero. *)
Theorem context_first_switch self base size CallRunner runner ret m c ret2 m2
    (sp := regs m rsp) (sp2 := regs m2 rsp) (e := entry base size)
    (m' := Setup self base size CallRunner runner ret m) :
  0 <= base → 128 <= size → base + size <= size_bound → 8 <= sp < size_bound →
  apart (sp - 8) base (base + size) → apart self base (base + size) → self ≠ sp - 8 →
  (* the machine the context is first switched to from *)
  (∀ x, base <= x < base + size ∨ x = self → mem m2 x = mem m' x) →
  56 <= sp2 < size_bound → is_size self → is_size c → c ≠ self →
  apart c base (base + size) → apart c (sp2 - 56) sp2 → apart self (sp2 - 56) sp2 →
  (base + size <= sp2 - 56 ∨ sp2 <= base) →
  let m3 := SwitchTo c self ret2 m2 in
  (∀ r, r ∈ callee_saved → regs m' r = regs m r) ∧ rip m' = ret ∧
  (∀ x, ¬ base <= x < base + size → x ≠ self → x ≠ sp - 8 → mem m' x = mem m x) ∧
  running_frame m3 e (Frame 0 0 0 0 0 0 CallRunner) ∧
  regs m3 rsp mod 16 = 8 ∧ mem m3 (regs m3 rsp + 8) = runner.
Proof.
  intros Hb Hs Hbs Hsp Hret Hself Hself2 Hm2 Hsp2 Hss Hcs Hne Hc1 Hc2 Hs2 Hd.
  destruct (Setup_spec self base size CallRunner runner ret m) as
    ((He1 & He2 & He3) & H1 & H2 & H3 & H4 & H5 & H6); try done.
  fold m' in H1, H2, H3, H4, H5, H6. fold e in He1, He2, He3, H3, H4, H5, H6. unfold apart in *.
  destruct (SwitchTo_spec c self ret2 (e - 56) (Frame 0 0 0 0 0 0 CallRunner) m2)
    as (H7 & _ & _ & H8); unfold apart; try done; try lia.
  - rewrite Hm2 by auto. done.
  - eapply saved_frame_ext; [|exact H5]. intros x Hx. apply Hm2. left. lia.
  - replace (e - 56 + 56) with e in H7 by lia. cbv zeta. pose proof H7 as (Hrsp & _).
    split; [done|]. split; [done|]. split; [intros x Hx; apply H3; lia|]. split; [done|].
    rewrite Hrsp. split; [done|]. rewrite H8 by lia. rewrite Hm2 by lia. done.
Qed.

(** A machine whose stack is at 0x7000, and a buffer of 256 bytes at 0x1000. *)
Definition demo_machine : machine :=
  Machine (Regs 0 2 3 0x7000 0 0 0 0 12 13 14 15) (λ _, 0) 0x400000.

Lemma context_first_switch_witness :
  let m' := Setup 0x9000 0x1000 256 0x401000 0x5000 0x400100 demo_machine in
  let m3 := SwitchTo 0x9100 0x9000 0x400200 m' in
  (∀ r, r ∈ callee_saved → regs m' r = regs demo_machine r) ∧ rip m' = 0x400100 ∧
  (∀ x, ¬ 0x1000 <= x < 0x1000 + 256 → x ≠ 0x9000 → x ≠ 0x7000 - 8 → mem m' x = mem demo_machine x) ∧
  running_frame m3 (entry 0x1000 256) (Frame 0 0 0 0 0 0 0x401000) ∧
  regs m3 rsp mod 16 = 8 ∧ mem m3 (regs m3 rsp + 8) = 0x5000.
Proof.
  apply (context_first_switch 0x9000 0x1000 256 0x401000 0x5000 0x400100 demo_machine 0x9100 0x400200
    (Setup 0x9000 0x1000 256 0x401000 0x5000 0x400100 demo_machine));
    try (vm_compute; intuition discriminate).
Defined.

(** Context at 0x9100 switches to the fresh one, which switches back at once. *)
Lemma switch_round_trip_witness :
  let m' := Setup 0x9000 0x1000 256 0x401000 0x5000 0x400100 demo_machine in
  let m2 := SwitchTo 0x9100 0x9000 0x400200 m' in
  let m3 := SwitchTo 0x9000 0x9100 0x401100 m2 in
  running_frame m3 0x7000 (frame_of m' 0x400200) ∧
  ∀ x, x ≠ 0x9000 → ¬ regs m2 rsp - 56 <= x < regs m2 rsp → mem m3 x = mem m2 x.
Proof.
  cbv zeta. set (m' := Setup 0x9000 0x1000 256 0x401000 0x5000 0x400100 demo_machine).
  set (m2 := SwitchTo 0x9100 0x9000 0x400200 m').
  assert (regs m' rsp = 0x7000) as E by (vm_compute; reflexivity).
  assert (regs m2 rsp = entry 0x1000 256) as E2 by (vm_compute; reflexivity).
  change (entry 0x1000 256) with 0x10b8 in E2.
  assert (mem m' 0x9000 = 0x1080) as E3 by (vm_compute; reflexivity).
  rewrite <- E.
  apply (switch_round_trip 0x9100 0x9000 0x9000 0x400200 0x401100 m' m2);
    rewrite ?E, ?E2, ?E3; unfold apart, is_size, size_bound; try lia; try done.
Defined.
