(* ===== verification/Coro.v ===== *)
(** * coro: stackful coroutines, and the buffers they run on

    [Coroutine] (with the thread-local [current_coro]) and [StackfullCoroutine].
    The context switches are those of [Context.v]: a switch to a coroutine runs it
    from where it last left off until it switches back.  A routine is what is left
    of its execution: the effects it has, its suspensions, the coroutines it resumes
    and how it ends. *)

From stdpp Require Import prelude list gmap.
From S2P Require Import Prelude.

(** ** context/buffer/buffer: the stack of a coroutine *)

(** The arrays allocated and not yet deleted. *)
Abbreviation heap := (gset nat).

(** [Alloc]: the array and its size; a moved-from buffer has a null one. *)
Record Buffer := MkBuffer { data : ptr nat; bytes : Z }.

Definition AllocBytes (fresh : nat) (n : Z) (h : heap) : Buffer * heap :=
  (MkBuffer (Some fresh) n, {[ fresh ]} ∪ h).

(** The move constructor: the new buffer, and what is left of the old one. *)
Definition move (b : Buffer) : Buffer * Buffer := (b, MkBuffer None 0).

(** The destructor; deleting a null pointer does nothing, deleting an array twice is
    undefined. *)
Definition destroy (b : Buffer) (h : heap) : option heap :=
  match data b with
  | None => Some h
  | Some p => if decide (p ∈ h) then Some (h ∖ {[ p ]}) else None
  end.

(** ** coro: routines *)

Abbreviation cid := nat.

Inductive routine (A : Type) :=
| Finish                                   (** returns *)
| Throw                                    (** throws an exception *)
| Emit (a : A) (k : routine A)             (** has an effect *)
| SuspendThen (k : routine A)              (** calls [Suspend] *)
| ResumeThen (c : cid) (k : routine A).    (** calls [c.Resume()] *)
Arguments Finish {A}.
Arguments Throw {A}.
Arguments Emit {A} _ _.
Arguments SuspendThen {A} _.
Arguments ResumeThen {A} _ _.

Section coroutines.
  Context {A : Type}.

Record Coroutine := MkCoro {
  rest : routine A;          (** what is left to run: [routine_] and [coro_ctx_] *)
  is_completed_ : bool;
  active : bool              (** its [Resume] has not returned *)
}.

Record thread := MkThread {
  current_coro : ptr cid;    (** thread-local *)
  coros : gmap cid Coroutine
}.

Definition set_coro (th : thread) (c : cid) (x : Coroutine) : thread :=
  MkThread (current_coro th) (<[c := x]> (coros th)).

Definition set_current (th : thread) (p : ptr cid) : thread := MkThread p (coros th).

(** [Coroutine::Coroutine] *)
Definition new_coro (r : routine A) : Coroutine := MkCoro r false false.

(** [Run] to the next switch back to the caller.  An exception is caught: either way
    the coroutine is completed and [ExitTo] goes back to the caller.  [Suspend] is
    static: it suspends the coroutine that [current_coro] names; if that is not the
    one running, its saved context is stale.  Resuming a completed coroutine returns
    into [ExitTo] and aborts; resuming one whose [Resume] has not returned would
    overwrite the context it has to come back to. *)
Fixpoint run_coro (fuel : nat) (th : thread) (c : cid) (r : routine A) : res (thread * list A) :=
  match fuel with
  | 0 => NoFuel
  | S fuel' =>
      match r with
      | Finish | Throw => Ret (set_coro th c (MkCoro Finish true true), [])
      | Emit a k => '(th', out) ← run_coro fuel' th c k; Ret (th', a :: out)
      | SuspendThen k =>
          match current_coro th with
          | None => Ub
          | Some c' => if decide (c' = c) then Ret (set_coro th c (MkCoro k false true), []) else Ub
          end
      | ResumeThen d k =>
          x ← checked (coros th !! d);
          if is_completed_ x || active x then Ub
          else
            let caller_coro := current_coro th in
            let th1 := set_current (set_coro th d (MkCoro (rest x) false true)) (Some d) in
            '(th2, out1) ← run_coro fuel' th1 d (rest x);
            x' ← checked (coros th2 !! d);
            let th3 := set_current (set_coro th2 d (MkCoro (rest x') (is_completed_ x') false)) caller_coro in
            '(th4, out2) ← run_coro fuel' th3 c k;
            Ret (th4, out1 ++ out2)
      end
  end.

(** [Resume], called outside any coroutine or inside one. *)
Definition Resume (fuel : nat) (th : thread) (d : cid) : res (thread * list A) :=
  x ← checked (coros th !! d);
  if is_completed_ x || active x then Ub
  else
    let caller_coro := current_coro th in
    let th1 := set_current (set_coro th d (MkCoro (rest x) false true)) (Some d) in
    '(th2, out) ← run_coro fuel th1 d (rest x);
    x' ← checked (coros th2 !! d);
    Ret (set_current (set_coro th2 d (MkCoro (rest x') (is_completed_ x') false)) caller_coro, out).

(** ** Specification: the segments of a routine that resumes nobody *)

Fixpoint flat (r : routine A) : bool :=
  match r with
  | Finish | Throw => true
  | Emit _ k | SuspendThen k => flat k
  | ResumeThen _ _ => false
  end.

(** The effects up to the next suspension or the end, and what follows it. *)
Fixpoint segment (r : routine A) : list A * option (routine A) :=
  match r with
  | Finish | Throw | ResumeThen _ _ => ([], None)
  | Emit a k => let '(out, k') := segment k in (a :: out, k')
  | SuspendThen k => ([], Some k)
  end.

Fixpoint suspensions (r : routine A) : nat :=
  match r with
  | Finish | Throw => 0
  | Emit _ k | ResumeThen _ k => suspensions k
  | SuspendThen k => S (suspensions k)
  end.

Fixpoint effects (r : routine A) : list A :=
  match r with
  | Finish | Throw => []
  | Emit a k => a :: effects k
  | SuspendThen k | ResumeThen _ k => effects k
  end.

Fixpoint steps (r : routine A) : nat :=
  match r with
  | Finish | Throw => 1
  | Emit _ k | SuspendThen k | ResumeThen _ k => S (steps k)
  end.

(** ** StackfullCoroutine: the same without the thread-local *)

(** [Resume]: run to the next switch back; [None] when it aborts. *)
Definition StackfullResume (x : Coroutine) : option (Coroutine * list A) :=
  if is_completed_ x then None
  else
    let '(out, k) := segment (rest x) in
    Some (match k with
          | Some k' => MkCoro k' false false
          | None => MkCoro Finish true false
          end, out).
End coroutines.
Arguments Coroutine : clear implicits.
Arguments thread : clear implicits.

(** ** The thread-local and the call stack *)

Section safety.
  Context {A : Type}.
  Implicit Types (th : thread A) (r : routine A).

(** The coroutines keep their activity, but for those a run has resumed. *)
Definition same_activity th th' : Prop :=
  ∀ d, active <$> coros th !! d = active <$> coros th' !! d.

Lemma same_activity_set th c x y :
  coros th !! c = Some y → active x = active y → same_activity th (set_coro th c x).
Proof.
  intros E Ha d. simpl. destruct (decide (c = d)) as [<-|Hne].
  - rewrite E, lookup_insert_eq. simpl. by rewrite Ha.
  - by rewrite lookup_insert_ne.
Qed.

Lemma same_activity_trans th1 th2 th3 :
  same_activity th1 th2 → same_activity th2 th3 → same_activity th1 th3.
Proof. intros H1 H2 d. by rewrite H1. Qed.

(** Running a coroutine that is active leaves [current_coro] as it was, and the same
    coroutines active. *)
Lemma run_coro_balanced fuel th c r th' out x :
  coros th !! c = Some x → active x = true → run_coro fuel th c r = Ret (th', out) →
  current_coro th' = current_coro th ∧ same_activity th th'.
Proof.
  revert th c r th' out x. induction fuel as [|fuel IH]; intros th c r th' out x E Ha Hr; [done|].
  destruct r as [| |a k|k|d k]; simpl in Hr.
  - simplify_eq. split; [done|]. by eapply same_activity_set.
  - simplify_eq. split; [done|]. by eapply same_activity_set.
  - destruct (run_coro fuel th c k) as [[th1 out1]| |] eqn:E1; simplify_eq/=. by eapply IH.
  - destruct (current_coro th) as [c'|] eqn:Ec; [|done]. case_decide; simplify_eq.
    split; [by simpl|]. by eapply same_activity_set.
  - destruct (coros th !! d) as [y|] eqn:Ed; [|done]. simpl in Hr.
    destruct (is_completed_ y || active y) eqn:Ey; [done|].
    apply orb_false_elim in Ey as [_ Ey].
    set (th1 := set_current _ (Some d)) in Hr.
    destruct (run_coro fuel th1 d (rest y)) as [[th2 out1]| |] eqn:E1; [|done..]. simpl in Hr.
    assert (coros th1 !! d = Some (MkCoro (rest y) false true)) as Ed1.
    { simpl. by rewrite lookup_insert_eq. }
    destruct (IH _ _ _ _ _ _ Ed1 eq_refl E1) as [_ Hact].
    destruct (coros th2 !! d) as [x'|] eqn:Ed2; [|done]. simpl in Hr.
    set (th3 := set_current _ (current_coro th)) in Hr.
    destruct (run_coro fuel th3 c k) as [[th4 out2]| |] eqn:E2; simplify_eq/=.
    assert (same_activity th th3) as H3.
    { intros e. simpl. destruct (decide (d = e)) as [<-|Hne].
      - rewrite Ed, lookup_insert_eq. simpl. by rewrite Ey.
      - rewrite lookup_insert_ne by done. rewrite <- (Hact e). simpl. by rewrite lookup_insert_ne. }
    assert (current_coro th3 = current_coro th) as Hcur by done. clearbody th3.
    assert (∃ z, coros th3 !! c = Some z ∧ active z = true) as (z & Ez & Hz).
    { pose proof (H3 c) as Hc. rewrite E in Hc. simpl in Hc.
      destruct (coros th3 !! c) as [z|]; [|done]. exists z. split; [done|].
      injection Hc as Hc. congruence. }
    destruct (IH _ _ _ _ _ _ Ez Hz E2) as [H4 H5]. split; [by rewrite H4, Hcur|].
    by eapply same_activity_trans.
Qed.

(** [Resume] is properly nested: whatever the coroutine does, including resuming
    others, when [Resume] returns, [current_coro] is the caller's again and exactly
    the coroutines that were active before are active. *)
Lemma coro_resume_balanced fuel th d th' out :
  Resume fuel th d = Ret (th', out) →
  current_coro th' = current_coro th ∧ same_activity th th'.
Proof.
  unfold Resume. intros Hr. destruct (coros th !! d) as [y|] eqn:Ed; [|done]. simpl in Hr.
  destruct (is_completed_ y || active y) eqn:Ey; [done|]. apply orb_false_elim in Ey as [_ Ey].
  set (th1 := set_current _ (Some d)) in Hr.
  destruct (run_coro fuel th1 d (rest y)) as [[th2 out1]| |] eqn:E1; [|done..]. simpl in Hr.
  destruct (coros th2 !! d) as [x'|] eqn:Ed2; [|done]. simpl in Hr. simplify_eq.
  split; [done|]. intros e. simpl.
  assert (coros th1 !! d = Some (MkCoro (rest y) false true)) as Ed1.
  { simpl. by rewrite lookup_insert_eq. }
  destruct (run_coro_balanced _ _ _ _ _ _ _ Ed1 eq_refl E1) as [_ Hact].
  destruct (decide (d = e)) as [<-|Hne].
  - rewrite Ed, lookup_insert_eq. simpl. by rewrite Ey.
  - rewrite lookup_insert_ne by done. rewrite <- (Hact e). simpl. by rewrite lookup_insert_ne.
Qed.
End safety.

(** Coroutine 0 resumes coroutine 1 between its own effects. *)
Definition nested_thread : thread nat :=
  MkThread None {[ 0 := new_coro (Emit 1 (ResumeThen 1 (Emit 3 (SuspendThen (Emit 4 Finish)))));
                   1 := new_coro (Emit 2 (SuspendThen Throw)) ]}.

Lemma coro_resume_balanced_witness :
  ∃ th', Resume 10 nested_thread 0 = Ret (th', [1; 2; 3]) ∧
    current_coro th' = None ∧ same_activity nested_thread th'.
Proof.
  destruct (Resume 10 nested_thread 0) as [[th' out]| |] eqn:E; [|vm_compute in E; discriminate..].
  pose proof E as E'. apply coro_resume_balanced in E. vm_compute in E'.
  exists th'. injection E' as <- <-. split; [done|exact E].
Defined.

(** ** The life of a coroutine *)

Section lifecycle.
  Context {A : Type}.
  Implicit Types (th : thread A) (r : routine A).

(** The state of a coroutine after a segment. *)
Definition after_segment (k : option (routine A)) (b : bool) : Coroutine A :=
  match k with Some k' => MkCoro k' false b | None => MkCoro Finish true b end.

Lemma run_coro_flat r th c x fuel :
  coros th !! c = Some x → current_coro th = Some c → flat r = true → steps r <= fuel →
  run_coro fuel th c r =
    Ret (set_coro th c (after_segment (snd (segment r)) true), fst (segment r)).
Proof.
  revert fuel. induction r as [| |a k IH|k IH|d k IH]; intros [|fuel] Ex Ec Hf Hs; simpl in *;
    try lia; try done.
  - rewrite (IH fuel) by (done || lia). simpl. by destruct (segment k).
  - by rewrite Ec, decide_True.
Qed.

(** One [Resume] of a coroutine that resumes no other: it returns, having had the
    effects up to the next suspension, and changes no other coroutine. *)
Lemma Resume_flat th d x fuel :
  coros th !! d = Some x → is_completed_ x = false → active x = false → flat (rest x) = true →
  steps (rest x) <= fuel →
  Resume fuel th d = Ret (MkThread (current_coro th)
    (<[d := after_segment (snd (segment (rest x))) false]> (coros th)), fst (segment (rest x))).
Proof.
  intros Ex Hc Ha Hf Hs. unfold Resume. rewrite Ex. simpl. rewrite Hc, Ha. simpl.
  set (th1 := set_current _ _).
  rewrite (run_coro_flat (rest x) th1 d (MkCoro (rest x) false true)); try done.
  2: { simpl. by rewrite lookup_insert_eq. }
  simpl. rewrite !insert_insert_eq, lookup_insert_eq. simpl.
  unfold set_current, set_coro. simpl. rewrite !insert_insert_eq. by destruct (segment (rest x)) as [out []].
Qed.

(** Resume [n] times, collecting the effects of each. *)
Fixpoint resume_n (fuel n : nat) th (d : cid) : res (thread A * list (list A)) :=
  match n with
  | 0 => Ret (th, [])
  | S n' =>
      '(th1, out) ← Resume fuel th d;
      '(th2, outs) ← resume_n fuel n' th1 d;
      Ret (th2, out :: outs)
  end.

Lemma segment_flat r : flat r = true →
  match snd (segment r) with
  | Some k => flat k = true ∧ suspensions r = S (suspensions k) ∧ steps k <= steps r ∧
      effects r = fst (segment r) ++ effects k
  | None => suspensions r = 0 ∧ effects r = fst (segment r)
  end.
Proof.
  induction r as [| |a k IH|k IH|d k IH]; simpl; intros Hf; try done.
  - specialize (IH Hf). destruct (segment k) as [out [k'|]]; simpl in *.
    + destruct IH as (? & ? & ? & ->). repeat split; auto.
    + destruct IH as (? & ->). done.
  - repeat split; try done. lia.
Qed.

(** The life of a coroutine: a routine with [n] suspensions that resumes no other
    coroutine takes exactly [n + 1] calls of [Resume] to complete; each returns, runs
    the next segment and only that one, and together they have the effects of the
    routine in order.  An exception completes it like a return.  A further [Resume]
    aborts. *)
Lemma coro_lifecycle r th d fuel :
  flat r = true → coros th !! d = Some (new_coro r) → steps r <= fuel →
  ∃ th' outs, resume_n fuel (S (suspensions r)) th d = Ret (th', outs) ∧
    concat outs = effects r ∧
    (is_completed_ <$> coros th' !! d) = Some true ∧ current_coro th' = current_coro th ∧
    (∀ n th'' outs', n <= suspensions r → resume_n fuel n th d = Ret (th'', outs') →
      (is_completed_ <$> coros th'' !! d) = Some false) ∧
    Resume fuel th' d = Ub.
Proof.
  remember (suspensions r) as n eqn:En. revert r th En. induction n as [|n IH]; intros r th En Hf Ed Hs.
  - pose proof (segment_flat r Hf) as Hseg. cbn [resume_n].
    rewrite (Resume_flat th d _ fuel Ed) by done. simpl. destruct (segment r) as [out [k|]]; simpl in *.
    { destruct Hseg as (_ & ? & _). lia. }
    destruct Hseg as [_ ->]. eexists _, _. split; [done|]. simpl. rewrite app_nil_r, lookup_insert_eq.
    split; [done|]. split; [done|]. split; [done|]. split.
    + intros [|m] th'' outs' Hm Hr; [|lia]. simpl in Hr. simplify_eq. by rewrite Ed.
    + unfold Resume. simpl. by rewrite lookup_insert_eq.
  - pose proof (segment_flat r Hf) as Hseg. pose proof (Resume_flat th d _ fuel Ed eq_refl eq_refl Hf Hs) as Hres.
    simpl in Hres. destruct (segment r) as [out [k|]] eqn:Eseg; simpl in *; [|lia].
    destruct Hseg as (Hfk & Hsk & Hst & Heff). set (th1 := MkThread _ _) in Hres.
    destruct (IH k th1) as (th' & outs & Hr & Hcat & Hcomp & Hcur & Hbefore & Hub); try done; try lia.
    { simpl. by rewrite lookup_insert_eq. }
    exists th', (out :: outs). rewrite Hres. cbn. cbn in Hr. rewrite Hr. cbn.
    split; [done|]. split; [by rewrite Hcat, Heff|]. split; [done|]. split; [by rewrite Hcur|].
    split; [|done]. intros [|m] th'' outs' Hm Hrm.
    + simpl in Hrm. simplify_eq. by rewrite Ed.
    + simpl in Hrm. rewrite Hres in Hrm. cbn in Hrm.
      destruct (resume_n fuel m th1 d) as [[th2 outs2]| |] eqn:Em; simplify_eq/=.
      eapply (Hbefore m); [lia|done].
Qed.
End lifecycle.

Definition demo_routine : routine nat := Emit 1 (SuspendThen (Emit 2 (Emit 3 (SuspendThen Throw)))).

Definition demo_thread : thread nat := MkThread None {[ 0 := new_coro demo_routine ]}.

Lemma coro_lifecycle_witness :
  ∃ th' outs, resume_n 7 3 demo_thread 0 = Ret (th', outs) ∧ concat outs = [1; 2; 3] ∧
    (is_completed_ <$> coros th' !! 0) = Some true ∧ current_coro th' = None ∧
    (∀ n th'' outs', n <= 2 → resume_n 7 n demo_thread 0 = Ret (th'', outs') →
      (is_completed_ <$> coros th'' !! 0) = Some false) ∧
    Resume 7 th' 0 = Ub.
Proof. apply (coro_lifecycle demo_routine demo_thread 0 7); [done|done|simpl; lia]. Defined.

(** [StackfullCoroutine::Resume] agrees with [Coroutine::Resume]. *)
Lemma stackfull_agrees {A} (th : thread A) d x fuel :
  coros th !! d = Some x → active x = false → flat (rest x) = true → steps (rest x) <= fuel →
  match StackfullResume x with
  | Some (x', out) => Resume fuel th d = Ret (MkThread (current_coro th) (<[d := x']> (coros th)), out)
  | None => Resume fuel th d = Ub
  end.
Proof.
  intros Ex Ha Hf Hs. unfold StackfullResume. destruct (is_completed_ x) eqn:Ec.
  - unfold Resume. rewrite Ex. simpl. by rewrite Ec.
  - rewrite (Resume_flat th d x fuel Ex Ec Ha Hf Hs). destruct (segment (rest x)) as [out [k|]]; done.
Qed.

(** A buffer moved from owns nothing: destroying both frees the array once. *)
Lemma buffer_moved p n h : p ∉ h →
  let '(b, h1) := AllocBytes p n h in
  let '(b1, b0) := move b in
  destroy b0 h1 = Some h1 ∧ destroy b1 h1 = Some h ∧ (destroy b1 h1 ≫= destroy b1) = None.
Proof.
  intros Hp. simpl. unfold destroy. simpl. rewrite decide_True by set_solver. simpl.
  split; [done|]. assert (({[p]} ∪ h) ∖ {[p]} = h) as -> by set_solver.
  by rewrite decide_False.
Qed.
