(* ===== verification/Sanitizer.v ===== *)
(** * context/context.cpp, context/sanitizer: switches with sanitizer annotations

    [Context] wraps every switch of a [BufferContext] in the hooks of a
    [SanitizerContext], of which there are three: an empty one, one that tells
    ThreadSanitizer which fiber runs, and one that tells AddressSanitizer which stack
    is in use.  The hooks are a class, and [Context] is written against it.  The
    coroutines create, resume, suspend and finish contexts on any thread; the
    continuation after a switch is the target's, as [Context.v] proves of the assembly.
    The runtimes of the sanitizers are parameters with their documented behaviour as
    laws.  [None] is a call that the runtime forbids, or a null dereference. *)

From stdpp Require Import prelude list.
From S2P Require Import Prelude.

(** ** Contexts *)

Abbreviation cid := nat.

(** The two contexts of a coroutine. *)
Inductive context := CallerCtx (c : cid) | CoroCtx (c : cid).

#[export] Instance context_eq : EqDecision context.
Proof. solve_decision. Defined.

(** A stack: its lowest address and its size. *)
Abbreviation BufferView := (Z * Z)%type.

(** The sanitizer parts of all contexts, and the state of the runtime. *)
Record world (A R : Type) := MkWorld { ctxs : context → A; rt : R }.
Arguments MkWorld {A R} _ _.
Arguments ctxs {A R} _ _.
Arguments rt {A R} _.

Definition put {A R} (w : world A R) (i : context) (x : A) : world A R :=
  MkWorld (λ j, if decide (i = j) then x else ctxs w j) (rt w).

Definition set_rt {A R} (w : world A R) (r : R) : world A R := MkWorld (ctxs w) r.

(** The hooks of [SanitizerContext], called by thread [t] on context [i]. *)
Class SanitizerContext (A R : Type) := {
  new_context : A;
  san_Setup : BufferView → context → world A R → option (world A R);
  AfterStart : tid → context → world A R → option (world A R);
  BeforeSwitch : tid → context → context → world A R → option (world A R);
  AfterSwitch : tid → context → world A R → option (world A R);
  BeforeExit : tid → context → context → world A R → option (world A R)
}.

(** ** sanitizer/empty *)

#[export] Instance empty_sanitizer : SanitizerContext unit unit := {
  new_context := ();
  san_Setup _ _ w := Some w;
  AfterStart _ _ w := Some w;
  BeforeSwitch _ _ _ w := Some w;
  AfterSwitch _ _ w := Some w;
  BeforeExit _ _ _ w := Some w
}.

(** ** sanitizer/thread *)

(** [__tsan_create_fiber], [__tsan_get_current_fiber], [__tsan_switch_to_fiber],
    [__tsan_destroy_fiber]. *)
Class TsanRuntime (R F : Type) := {
  create_fiber : R → F * R;
  current_fiber : tid → R → F;
  switch_to_fiber : tid → F → R → option R;
  destroy_fiber : F → R → option R
}.

Record tsan_context (F : Type) := MkTsan { fiber_ : ptr F; exit_from_ : ptr context }.
Arguments MkTsan {F} _ _.
Arguments fiber_ {F} _.
Arguments exit_from_ {F} _.

Section tsan.
  Context {R F : Type} `{TsanRuntime R F}.
  Implicit Types w : world (tsan_context F) R.

Definition tsan_Setup (_ : BufferView) (i : context) w : option (world (tsan_context F) R) :=
  let '(f, r) := create_fiber (rt w) in
  Some (put (set_rt w r) i (MkTsan (Some f) (exit_from_ (ctxs w i)))).

(** [After]: destroy the fiber of the context that exited. *)
Definition tsan_After (_ : tid) (i : context) w : option (world (tsan_context F) R) :=
  match exit_from_ (ctxs w i) with
  | Some j =>
      f ← fiber_ (ctxs w j);
      r ← destroy_fiber f (rt w);
      Some (put (set_rt w r) i (MkTsan (fiber_ (ctxs w i)) None))
  | None => Some w
  end.

Definition tsan_switch (t : tid) (target : context) w : option (world (tsan_context F) R) :=
  f ← fiber_ (ctxs w target); r ← switch_to_fiber t f (rt w); Some (set_rt w r).

Definition tsan_BeforeSwitch (t : tid) (i target : context) w : option (world (tsan_context F) R) :=
  tsan_switch t target (put w i (MkTsan (Some (current_fiber t (rt w))) (exit_from_ (ctxs w i)))).

Definition tsan_BeforeExit (t : tid) (i target : context) w : option (world (tsan_context F) R) :=
  tsan_switch t target (put w target (MkTsan (fiber_ (ctxs w target)) (Some i))).
End tsan.

#[export] Instance tsan_sanitizer {R F} `{TsanRuntime R F} : SanitizerContext (tsan_context F) R := {
  new_context := MkTsan None None;
  san_Setup := tsan_Setup;
  AfterStart := tsan_After;
  BeforeSwitch := tsan_BeforeSwitch;
  AfterSwitch := tsan_After;
  BeforeExit := tsan_BeforeExit
}.

(** ** sanitizer/address *)

(** [__sanitizer_start_switch_fiber], whose first argument is null or receives the fake
    stack, and [__sanitizer_finish_switch_fiber], which returns the old stack. *)
Class AsanRuntime (R FS : Type) := {
  start_switch : tid → bool → BufferView → R → option (FS * R);
  finish_switch : tid → ptr FS → R → option (BufferView * R)
}.

(** The members have no initialisers. *)
Record asan_context (FS : Type) := MkAsan {
  stack_ : ptr BufferView;      (** [stack_] and [stack_size_] *)
  fake_stack_ : ptr FS;
  from_ : ptr context
}.
Arguments MkAsan {FS} _ _ _.
Arguments stack_ {FS} _.
Arguments fake_stack_ {FS} _.
Arguments from_ {FS} _.

Section asan.
  Context {R FS : Type} `{AsanRuntime R FS}.
  Implicit Types w : world (asan_context FS) R.

Definition asan_Setup (stack : BufferView) (i : context) w : option (world (asan_context FS) R) :=
  let x := ctxs w i in Some (put w i (MkAsan (Some stack) (fake_stack_ x) (from_ x))).

(** [target.from_ = this]. *)
Definition set_from (target i : context) w : world (asan_context FS) R :=
  let x := ctxs w target in put w target (MkAsan (stack_ x) (fake_stack_ x) (Some i)).

(** The stack that was left is recorded in the context it was left by. *)
Definition asan_finish (t : tid) (fake : ptr FS) (i : context) w : option (world (asan_context FS) R) :=
  j ← from_ (ctxs w i);
  '(old, r) ← finish_switch t fake (rt w);
  let x := ctxs w j in Some (put (set_rt w r) j (MkAsan (Some old) (fake_stack_ x) (from_ x))).

Definition asan_AfterStart (t : tid) (i : context) w : option (world (asan_context FS) R) :=
  asan_finish t None i w.

(** [fake_stack_] is the value [start] has stored, or garbage. *)
Definition asan_AfterSwitch (t : tid) (i : context) w : option (world (asan_context FS) R) :=
  fs ← fake_stack_ (ctxs w i); asan_finish t (Some fs) i w.

Definition asan_BeforeSwitch (t : tid) (i target : context) w : option (world (asan_context FS) R) :=
  let w := set_from target i w in
  stack ← stack_ (ctxs w target);
  '(fs, r) ← start_switch t true stack (rt w);
  let x := ctxs w i in Some (put (set_rt w r) i (MkAsan (stack_ x) (Some fs) (from_ x))).

Definition asan_BeforeExit (t : tid) (i target : context) w : option (world (asan_context FS) R) :=
  let w := set_from target i w in
  stack ← stack_ (ctxs w target);
  '(_, r) ← start_switch t false stack (rt w);
  Some (set_rt w r).
End asan.

#[export] Instance asan_sanitizer {R FS} `{AsanRuntime R FS} : SanitizerContext (asan_context FS) R := {
  new_context := MkAsan None None None;
  san_Setup := asan_Setup;
  AfterStart := asan_AfterStart;
  BeforeSwitch := asan_BeforeSwitch;
  AfterSwitch := asan_AfterSwitch;
  BeforeExit := asan_BeforeExit
}.

(** ** Context and the coroutines that use it *)

(** Where a coroutine is: not created, suspended (its routine has started or not),
    running on a thread, possibly below coroutines it has resumed, or completed. *)
Inductive coro_status := Absent | Suspended (started : bool) | Running (t : tid) | Completed.

Section contexts.
  Context {A R : Type} `{SanitizerContext A R}.

Record coroutines := MkCoros {
  cworld : world A R;
  buffers : cid → BufferView;
  status : cid → coro_status;
  active : tid → list cid;       (** the coroutines running on a thread, the innermost first *)
  broken : bool                  (** a hook has failed *)
}.

Inductive coro_label :=
| Create (c : cid) (buffer : BufferView)
| Resume (t : tid) (c : cid)
| Suspend (t : tid)
| Finish (t : tid).

(** [Context::Setup]. *)
Definition Setup (i : context) (stack : BufferView) (w : world A R) : option (world A R) := san_Setup stack i w.

(** [Context::SwitchTo] up to the switch of the buffer context. *)
Definition SwitchTo (t : tid) (i target : context) (w : world A R) : option (world A R) := BeforeSwitch t i target w.

(** [Context::SwitchTo] after the switch, when another context has switched back. *)
Definition switched_back (t : tid) (i : context) (w : world A R) : option (world A R) := AfterSwitch t i w.

(** [Context::ExitTo], which does not return. *)
Definition ExitTo (t : tid) (i target : context) (w : world A R) : option (world A R) := BeforeExit t i target w.

(** [Context::Run], entered by the first switch to the context, up to [runner_->Run()]. *)
Definition Run (t : tid) (i : context) (w : world A R) : option (world A R) := AfterStart t i w.

Definition with_world (s : coroutines) (o : option (world A R)) : coroutines :=
  match o with
  | Some w => MkCoros w (buffers s) (status s) (active s) (broken s)
  | None => MkCoros (cworld s) (buffers s) (status s) (active s) true
  end.

Definition set_status (s : coroutines) (c : cid) (x : coro_status) (t : tid) (cs : list cid) : coroutines :=
  MkCoros (cworld s) (buffers s) (status s)⟦c ↦ x⟧ (active s)⟦t ↦ cs⟧ (broken s).

(** [Coroutine::Coroutine], [Resume], [Suspend], and the end of [Run]. *)
Definition coro_step (l : coro_label) (s : coroutines) : option coroutines :=
  match l with
  | Create c b =>
      match status s c with
      | Absent =>
          let s := MkCoros (cworld s) (buffers s)⟦c ↦ b⟧ (status s)⟦c ↦ Suspended false⟧ (active s) (broken s) in
          Some (with_world s (Setup (CoroCtx c) b (cworld s)))
      | _ => None
      end
  | Resume t c =>
      match status s c with
      | Suspended started =>
          Some (with_world (set_status s c (Running t) t (c :: active s t))
            (w ← SwitchTo t (CallerCtx c) (CoroCtx c) (cworld s);
             if started then switched_back t (CoroCtx c) w else Run t (CoroCtx c) w))
      | _ => None
      end
  | Suspend t =>
      match active s t with
      | c :: cs =>
          Some (with_world (set_status s c (Suspended true) t cs)
            (w ← SwitchTo t (CoroCtx c) (CallerCtx c) (cworld s); switched_back t (CallerCtx c) w))
      | [] => None
      end
  | Finish t =>
      match active s t with
      | c :: cs =>
          Some (with_world (set_status s c Completed t cs)
            (w ← ExitTo t (CoroCtx c) (CallerCtx c) (cworld s); switched_back t (CallerCtx c) w))
      | [] => None
      end
  end.

Definition no_coroutines (r : R) : coroutines :=
  MkCoros (MkWorld (λ _, new_context) r) (λ _, (0, 0)%Z) (λ _, Absent) (λ _, []) false.

Definition coroutine_system (r : R) : lts coroutines coro_label := Lts (λ s, s = no_coroutines r) coro_step.

(** ** Lines of execution *)

(** The threads and the coroutines. *)
Inductive line := OfThread (t : tid) | OfCoro (c : cid).

(** What runs on [t] when the coroutines [cs] are active there. *)
Definition line_of (t : tid) (cs : list cid) : line :=
  match cs with [] => OfThread t | c :: _ => OfCoro c end.

(** A coroutine is active on the thread that runs it, once. *)
Record nested (s : coroutines) : Prop := Nested {
  ns_running : ∀ c t, c ∈ active s t ↔ status s c = Running t;
  ns_once : ∀ t, NoDup (active s t)
}.
End contexts.
Arguments coroutines : clear implicits.

#[export] Instance line_eq : EqDecision line.
Proof. solve_decision. Defined.

Lemma put_eq {A R} (w : world A R) i x : ctxs (put w i x) i = x.
Proof. simpl. by rewrite decide_True. Qed.

Lemma put_ne {A R} (w : world A R) i j x : i ≠ j → ctxs (put w i x) j = ctxs w j.
Proof. intros. simpl. by rewrite decide_False. Qed.

(** [P c l]: the caller context of the active coroutine [c] stands for the line [l],
    the one below it. *)
Definition callers_ok (act : tid → list cid) (P : cid → line → Prop) : Prop :=
  ∀ t pre c cs, act t = pre ++ c :: cs → P c (line_of t cs).

Section lines.
  Context {A R : Type} `{SanitizerContext A R}.
  Implicit Types s : coroutines A R.

Lemma callers_head act P t c cs : callers_ok act P → act t = c :: cs → P c (line_of t cs).
Proof. intros Hc E. by apply (Hc t []). Qed.

Lemma callers_push act (P P' : cid → line → Prop) t c :
  callers_ok act P → (∀ u, c ∉ act u) → (∀ d l, d ≠ c → P d l → P' d l) → P' c (line_of t (act t)) →
  callers_ok act⟦t ↦ c :: act t⟧ P'.
Proof.
  intros Hc Hn Hold Hnew u pre d cs. unfold upd. case_decide as Eu.
  - subst u. destruct pre as [|e pre]; simpl; intros [= <- E]; [by rewrite <-E|].
    apply Hold; [|by eapply Hc]. intros ->. apply (Hn t). rewrite E. set_solver.
  - intros E. apply Hold; [|by eapply Hc]. intros ->. apply (Hn u). rewrite E. set_solver.
Qed.

Lemma callers_pop s (P P' : cid → line → Prop) t c cs :
  nested s → callers_ok (active s) P → active s t = c :: cs → (∀ d l, d ≠ c → P d l → P' d l) →
  callers_ok (active s)⟦t ↦ cs⟧ P'.
Proof.
  intros Hn Hc Ea Hold u pre d ds. unfold upd. case_decide as Eu.
  - subst u. intros E. apply Hold; [|apply (Hc t (c :: pre)); by rewrite Ea, E].
    intros ->. pose proof (ns_once _ Hn t) as Hnd. rewrite Ea in Hnd. apply NoDup_cons in Hnd as [Hnd _].
    apply Hnd. rewrite E. set_solver.
  - intros E. apply Hold; [|by eapply Hc]. intros ->. assert (t = u); [|done].
    assert (c ∈ active s t) as H1 by (rewrite Ea; by left). assert (c ∈ active s u) as H2 by (rewrite E; set_solver).
    apply (ns_running _ Hn) in H1, H2. congruence.
Qed.

Lemma callers_same act (P P' : cid → line → Prop) :
  callers_ok act P → (∀ d l, P d l → P' d l) → callers_ok act P'.
Proof. intros Hc Hp t pre c cs E. by apply Hp, (Hc t pre). Qed.

(** What two threads run is different, also below what is active. *)
Lemma lines_apart s t u pre cs :
  nested s → active s t = pre ++ cs → u ≠ t → line_of u (active s u) ≠ line_of t cs.
Proof.
  intros Hn Ea Hu E. destruct (active s u) as [|d ds] eqn:Eu; destruct cs as [|c cs]; simplify_eq/=.
  assert (c ∈ active s t) as H1 by (rewrite Ea; set_solver). assert (c ∈ active s u) as H2 by (rewrite Eu; by left).
  apply (ns_running _ Hn) in H1, H2. congruence.
Qed.

Lemma line_of_new s t cs c : nested s → (∀ u, status s c ≠ Running u) → active s t = cs → line_of t cs ≠ OfCoro c.
Proof.
  intros Hn Hs Ea. destruct cs as [|d cs]; simpl; [done|]. intros [= ->]. apply (Hs t), (ns_running _ Hn).
  rewrite Ea. by left.
Qed.

Lemma active_new s c : nested s → (∀ u, status s c ≠ Running u) → ∀ u, c ∉ active s u.
Proof. intros Hn Hs u Hc. by apply (Hs u), (ns_running _ Hn). Qed.

Lemma active_top s t c cs : nested s → active s t = c :: cs → status s c = Running t ∧ c ∉ cs.
Proof.
  intros Hn Ea. split; [apply (ns_running _ Hn); rewrite Ea; by left|].
  pose proof (ns_once _ Hn t) as Hnd. rewrite Ea in Hnd. by apply NoDup_cons in Hnd as [? _].
Qed.

(** The structure does not depend on what the hooks do. *)
Lemma nested_push s s' t c :
  nested s → (∀ u, status s c ≠ Running u) → status s' = (status s)⟦c ↦ Running t⟧ →
  active s' = (active s)⟦t ↦ c :: active s t⟧ → nested s'.
Proof.
  intros Hn Hs E1 E2. pose proof (active_new s c Hn Hs) as Hnew. split.
  - intros d u. rewrite E1, E2. pose proof (ns_running _ Hn d u). specialize (Hnew u).
    unfold upd. repeat case_decide; subst; try done; rewrite ?elem_of_cons; [|naive_solver..].
    split; [done|]. by left.
  - intros u. rewrite E2. unfold upd. case_decide; [|apply Hn]. subst. apply NoDup_cons.
    split; [done|apply Hn].
Qed.

Lemma nested_pop s s' t c cs x :
  nested s → active s t = c :: cs → (∀ u, x ≠ Running u) → status s' = (status s)⟦c ↦ x⟧ →
  active s' = (active s)⟦t ↦ cs⟧ → nested s'.
Proof.
  intros Hn Ea Hx E1 E2. destruct (active_top s t c cs Hn Ea) as [Hc Hcs]. split.
  - intros d u. rewrite E1, E2. pose proof (ns_running _ Hn d u) as Hd. unfold upd.
    destruct (decide (c = d)), (decide (t = u)); subst; try done.
    + split; [done|]. by intros ?%Hx.
    + rewrite Hd, Hc. split; [congruence|]. by intros ?%Hx.
    + rewrite <-Hd, Ea, elem_of_cons. naive_solver.
  - intros u. rewrite E2. unfold upd. case_decide; [|apply Hn]. subst. pose proof (ns_once _ Hn u) as Hnd.
    rewrite Ea in Hnd. by apply NoDup_cons in Hnd as [_ ?].
Qed.

Lemma nested_create s s' c :
  nested s → status s c = Absent → status s' = (status s)⟦c ↦ Suspended false⟧ → active s' = active s → nested s'.
Proof.
  intros Hn Hc E1 E2. split; [|intros u; rewrite E2; apply Hn].
  intros d u. rewrite E1, E2, (ns_running _ Hn d u). unfold upd. case_decide; [subst|done]. by rewrite Hc.
Qed.
(** The coroutine on top leaves: its line is none of those that are left. *)
Lemma below_apart s t c cs u :
  nested s → active s t = c :: cs → line_of u ((active s)⟦t ↦ cs⟧ u) ≠ OfCoro c.
Proof.
  intros Hn Ea E. destruct (active_top s t c cs Hn Ea) as [Hc Hcs]. unfold upd in E. case_decide as Eu.
  - destruct cs as [|d cs]; simplify_eq/=. set_solver.
  - destruct (active s u) as [|d ds] eqn:Eau; simplify_eq/=.
    assert (c ∈ active s u) as Hin by (rewrite Eau; by left). apply (ns_running _ Hn) in Hin. congruence.
Qed.

End lines.

(** ** ThreadSanitizer is told what runs *)

(** The documented behaviour: a fiber is created and destroyed once, a switch goes to a
    fiber that exists and does not run on another thread, and a fiber that runs
    is not destroyed. *)
Class TsanLaws (R F : Type) `{TsanRuntime R F} := {
  fiber_alive : R → F → Prop;
  create_law : ∀ r f r', create_fiber r = (f, r') →
    ¬ fiber_alive r f ∧ (∀ g, fiber_alive r' g ↔ fiber_alive r g ∨ g = f) ∧
    ∀ t, current_fiber t r' = current_fiber t r;
  switch_law : ∀ t f r, fiber_alive r f → (∀ u, u ≠ t → current_fiber u r ≠ f) →
    ∃ r', switch_to_fiber t f r = Some r' ∧ (∀ g, fiber_alive r' g ↔ fiber_alive r g) ∧
      ∀ u, current_fiber u r' = if decide (u = t) then f else current_fiber u r;
  destroy_law : ∀ f r, fiber_alive r f → (∀ u, current_fiber u r ≠ f) →
    ∃ r', destroy_fiber f r = Some r' ∧ (∀ g, fiber_alive r' g ↔ fiber_alive r g ∧ g ≠ f) ∧
      ∀ u, current_fiber u r' = current_fiber u r
}.

(** A line that runs or will run again. *)
Definition unfinished (x : coro_status) : Prop :=
  match x with Suspended _ | Running _ => True | _ => False end.

Section tsan_proof.
  Context {R F : Type} `{TsanLaws R F} (r0 : R).
  Implicit Types s : coroutines (tsan_context F) R.

Definition tsan_live (st : cid → coro_status) (l : line) : Prop :=
  match l with OfThread _ => True | OfCoro c => unfinished (st c) end.

(** Every line has its fiber, and there are no others. *)
Record fibers_of (s : coroutines (tsan_context F) R) (fiber_of : line → F) : Prop := FibersOf {
  fb_inj : ∀ l l', tsan_live (status s) l → tsan_live (status s) l' → fiber_of l = fiber_of l' → l = l';
  fb_thread : ∀ t, fiber_of (OfThread t) = current_fiber t r0;
  fb_alive : ∀ f, fiber_alive (rt (cworld s)) f ↔ ∃ l, tsan_live (status s) l ∧ fiber_of l = f;
  fb_current : ∀ t, current_fiber t (rt (cworld s)) = fiber_of (line_of t (active s t));
  fb_coro : ∀ c, unfinished (status s c) → fiber_ (ctxs (cworld s) (CoroCtx c)) = Some (fiber_of (OfCoro c));
  fb_callers : callers_ok (active s) (λ c l, fiber_ (ctxs (cworld s) (CallerCtx c)) = Some (fiber_of l))
}.

Record tsan_inv s : Prop := TsanInv {
  ti_nested : nested s;
  ti_ok : broken s = false;
  ti_exit : ∀ i, exit_from_ (ctxs (cworld s) i) = None;
  ti_fibers : ∃ fiber_of, fibers_of s fiber_of
}.

Lemma live_below s t pre cs : nested s → active s t = pre ++ cs → tsan_live (status s) (line_of t cs).
Proof.
  intros Hn Ea. destruct cs as [|c cs]; simpl; [done|].
  assert (status s c = Running t) as ->; [|done]. apply (ns_running _ Hn). rewrite Ea. set_solver.
Qed.

(** A switch on thread [t] to the fiber of a line that no other thread runs. *)
Lemma switch_to_line s fo t l :
  fibers_of s fo → nested s → tsan_live (status s) l → (∀ u, u ≠ t → line_of u (active s u) ≠ l) →
  ∃ r', switch_to_fiber t (fo l) (rt (cworld s)) = Some r' ∧
    (∀ g, fiber_alive r' g ↔ fiber_alive (rt (cworld s)) g) ∧
    ∀ u, current_fiber u r' = if decide (u = t) then fo l else fo (line_of u (active s u)).
Proof.
  intros Hf Hn Hl Hu. destruct (switch_law t (fo l) (rt (cworld s))) as (r' & E & Ha & Hc).
  - apply (fb_alive _ _ Hf). eauto.
  - intros u Hne E. rewrite (fb_current _ _ Hf) in E. apply (Hu u Hne), (fb_inj _ _ Hf); [|done|done].
    by apply (live_below s u []).
  - exists r'. split; [done|]. split; [done|]. intros u. rewrite Hc. by rewrite <-(fb_current _ _ Hf).
Qed.

Lemma tsan_resume s t c b :
  tsan_inv s → status s c = Suspended b → ∃ s', coro_step (Resume t c) s = Some s' ∧ tsan_inv s'.
Proof.
  intros [Hn Hok He [fo Hf]] Hs. unfold coro_step. rewrite Hs. eexists. split; [done|].
  assert (∀ u, status s c ≠ Running u) as Hnr by (intros u; by rewrite Hs).
  destruct (switch_to_line s fo t (OfCoro c) Hf Hn) as (r' & E & Ha & Hc).
  { simpl. by rewrite Hs. } { intros u _. by apply (line_of_new s u _ c Hn Hnr). }
  unfold SwitchTo, switched_back, Run. simpl. unfold tsan_BeforeSwitch, tsan_switch. rewrite put_ne by done.
  rewrite (fb_coro _ _ Hf c) by (by rewrite Hs). simpl. rewrite E. simpl.
  set (w1 := set_rt _ _). assert ((if b then tsan_After t (CoroCtx c) w1 else tsan_After t (CoroCtx c) w1) = Some w1) as ->.
  { assert (tsan_After t (CoroCtx c) w1 = Some w1) as -> by (unfold tsan_After, w1; simpl; by rewrite He).
    by destruct b. }
  assert (∀ x, tsan_live (status s)⟦c ↦ Running t⟧ x ↔ tsan_live (status s) x) as Hlive.
  { intros [u|d]; simpl; [done|]. unfold upd. case_decide; [subst; by rewrite Hs|done]. }
  split; [by apply (nested_push s _ t c)|done| |].
  - intros i. simpl. case_decide; [subst; apply He|apply He].
  - exists fo. split; simpl.
    + intros l l'. rewrite !Hlive. apply Hf.
    + apply Hf.
    + intros f. rewrite Ha, (fb_alive _ _ Hf). by setoid_rewrite Hlive.
    + intros u. rewrite Hc. unfold upd. repeat case_decide; subst; done.
    + intros d Hd. apply (fb_coro _ _ Hf). by apply (Hlive (OfCoro d)).
    + apply (callers_push (active s) _ _ t c (fb_callers _ _ Hf)).
      * by apply active_new.
      * intros d l Hne Hd. by rewrite decide_False by congruence.
      * rewrite decide_True by done. simpl. by rewrite <-(fb_current _ _ Hf).
Qed.

Lemma tsan_suspend s t c cs :
  tsan_inv s → active s t = c :: cs → ∃ s', coro_step (Suspend t) s = Some s' ∧ tsan_inv s'.
Proof.
  intros [Hn Hok He [fo Hf]] Ea. unfold coro_step. rewrite Ea. eexists. split; [done|].
  destruct (active_top s t c cs Hn Ea) as [Hc Hcs].
  destruct (switch_to_line s fo t (line_of t cs) Hf Hn) as (r' & E & Ha & Hcur).
  { by apply (live_below s t [c]). } { intros u Hu. by apply (lines_apart s t u [c]). }
  unfold SwitchTo, switched_back. simpl. unfold tsan_BeforeSwitch, tsan_switch. rewrite put_ne by done.
  rewrite (callers_head _ _ t c cs (fb_callers _ _ Hf) Ea). simpl. rewrite E. simpl.
  set (w1 := set_rt _ _). assert (tsan_After t (CallerCtx c) w1 = Some w1) as ->
    by (unfold tsan_After, w1; simpl; by rewrite He).
  assert (∀ x, tsan_live (status s)⟦c ↦ Suspended true⟧ x ↔ tsan_live (status s) x) as Hlive.
  { intros [u|d]; simpl; [done|]. unfold upd. case_decide; [subst; by rewrite Hc|done]. }
  split; [by apply (nested_pop s _ t c cs (Suspended true))|done| |].
  - intros i. simpl. case_decide; [subst; apply He|apply He].
  - exists fo. split; simpl.
    + intros l l'. rewrite !Hlive. apply Hf.
    + apply Hf.
    + intros f. rewrite Ha, (fb_alive _ _ Hf). by setoid_rewrite Hlive.
    + intros u. rewrite Hcur. unfold upd. repeat case_decide; subst; done.
    + intros d Hd. destruct (decide (CoroCtx c = CoroCtx d)) as [[= <-]|Hne].
      * simpl. by rewrite (fb_current _ _ Hf), Ea.
      * apply (fb_coro _ _ Hf). by apply (Hlive (OfCoro d)).
    + by apply (callers_pop s _ _ t c cs Hn (fb_callers _ _ Hf)).
Qed.

Lemma tsan_finish s t c cs :
  tsan_inv s → active s t = c :: cs → ∃ s', coro_step (Finish t) s = Some s' ∧ tsan_inv s'.
Proof.
  intros [Hn Hok He [fo Hf]] Ea. unfold coro_step. rewrite Ea. eexists. split; [done|].
  destruct (active_top s t c cs Hn Ea) as [Hc Hcs].
  destruct (switch_to_line s fo t (line_of t cs) Hf Hn) as (r' & E & Ha & Hcur).
  { by apply (live_below s t [c]). } { intros u Hu. by apply (lines_apart s t u [c]). }
  assert (∀ u, current_fiber u r' = fo (line_of u ((active s)⟦t ↦ cs⟧ u))) as Hcur'.
  { intros u. rewrite Hcur. unfold upd. repeat case_decide; subst; done. }
  assert (∀ x, tsan_live (status s)⟦c ↦ Completed⟧ x ↔ tsan_live (status s) x ∧ x ≠ OfCoro c) as Hlive.
  { intros [u|d]; simpl; [done|]. unfold upd. case_decide; [subst; naive_solver|]. naive_solver. }
  assert (∀ u, tsan_live (status s) (line_of u ((active s)⟦t ↦ cs⟧ u))) as Hlu.
  { intros u. unfold upd. case_decide; [subst; by apply (live_below s u [c])|by apply (live_below s u [])]. }
  destruct (destroy_law (fo (OfCoro c)) r') as (r'' & E' & Ha' & Hc').
  { apply Ha, (fb_alive _ _ Hf). exists (OfCoro c). simpl. by rewrite Hc. }
  { intros u. rewrite Hcur'. intros Eq. apply (below_apart s t c cs u Hn Ea), (fb_inj _ _ Hf); [apply Hlu| |done].
    simpl. by rewrite Hc. }
  unfold ExitTo, switched_back. simpl. unfold tsan_BeforeExit, tsan_switch, tsan_After. rewrite !put_eq. simpl.
  rewrite (callers_head _ _ t c cs (fb_callers _ _ Hf) Ea). simpl. rewrite E. simpl. rewrite decide_True by done. simpl.
  rewrite (fb_coro _ _ Hf c) by (by rewrite Hc). simpl. rewrite E'. simpl.
  split; [by apply (nested_pop s _ t c cs Completed)|done| |].
  - intros i. simpl. repeat case_decide; [done|apply He].
  - exists fo. split; simpl.
    + intros l l' [? _]%Hlive [? _]%Hlive. by apply Hf.
    + apply Hf.
    + intros f. rewrite Ha', Ha, (fb_alive _ _ Hf). setoid_rewrite Hlive. split.
      * intros [(l & Hl & <-) Hne]. exists l. split; [split; [done|]|done]. by intros ->.
      * intros (l & [Hl Hne] & <-). split; [by exists l|]. intros Eq. apply Hne, (fb_inj _ _ Hf); [done| |done].
        simpl. by rewrite Hc.
    + intros u. by rewrite Hc', Hcur'.
    + intros d Hd. apply (fb_coro _ _ Hf). by apply (Hlive (OfCoro d)).
    + apply (callers_pop s _ _ t c cs Hn (fb_callers _ _ Hf) Ea). intros d l Hne Hd.
      by rewrite !decide_False by congruence.
Qed.

Lemma tsan_create s c b :
  tsan_inv s → status s c = Absent → ∃ s', coro_step (Create c b) s = Some s' ∧ tsan_inv s'.
Proof.
  intros [Hn Hok He [fo Hf]] Hc. unfold coro_step. rewrite Hc. eexists. split; [done|].
  unfold Setup. simpl. unfold tsan_Setup. destruct (create_fiber (rt (cworld s))) as [f r'] eqn:Ef.
  destruct (create_law _ _ _ Ef) as (Hnew & Ha & Hcur). simpl.
  assert (∀ x, tsan_live (status s)⟦c ↦ Suspended false⟧ x ↔ tsan_live (status s) x ∨ x = OfCoro c) as Hlive.
  { intros [u|d]; simpl; [by split; [left|]|]. unfold upd. case_decide; [subst; rewrite Hc; naive_solver|naive_solver]. }
  assert (¬ tsan_live (status s) (OfCoro c)) as Hnc by (simpl; rewrite Hc; by intros []).
  assert (∀ u, line_of u (active s u) ≠ OfCoro c) as Hlu.
  { intros u. apply (line_of_new s u _ c Hn); [by rewrite Hc|done]. }
  split; [by apply (nested_create s _ c)|done| |].
  - intros i. simpl. case_decide; [apply He|apply He].
  - exists (λ l, if decide (l = OfCoro c) then f else fo l). split; simpl.
    + intros l l' Hl Hl'. apply Hlive in Hl, Hl'. repeat case_decide; subst; try done.
      * destruct Hl' as [Hl'|]; [|done]. intros ->. destruct Hnew. apply (fb_alive _ _ Hf). eauto.
      * destruct Hl as [Hl|]; [|done]. intros <-. destruct Hnew. apply (fb_alive _ _ Hf). eauto.
      * destruct Hl as [?|?], Hl' as [?|?]; try done. by apply (fb_inj _ _ Hf).
    + apply Hf.
    + intros g. rewrite Ha, (fb_alive _ _ Hf). setoid_rewrite Hlive. split.
      * intros [(l & Hl & <-)| ->]; [|exists (OfCoro c); by rewrite decide_True by done; auto].
        exists l. rewrite decide_False by (by intros ->). auto.
      * intros (l & Hl & <-). case_decide; [auto|]. destruct Hl as [Hl|?]; [eauto|done].
    + intros u. rewrite Hcur, decide_False by done. apply Hf.
    + intros d Hd. case_decide as E; [simplify_eq|].
      * by rewrite decide_True by done.
      * rewrite decide_False by congruence. apply (fb_coro _ _ Hf).
        unfold upd in Hd. case_decide; [congruence|done].
    + intros t pre d cs Ea. rewrite decide_False; [by apply (fb_callers _ _ Hf t pre)|].
      intros El. pose proof (live_below s t (pre ++ [d]) cs Hn) as Hl. rewrite El in Hl. apply Hnc, Hl.
      by rewrite <-(assoc (++)).
Qed.

Lemma tsan_step l s s' : tsan_inv s → coro_step l s = Some s' → tsan_inv s'.
Proof.
  intros Hi Hstep. assert ((∃ s1, coro_step l s = Some s1 ∧ tsan_inv s1) → tsan_inv s') as Hgo.
  { intros (s1 & E & H1). rewrite E in Hstep. by simplify_eq. }
  apply Hgo. destruct l as [c b|t c|t|t]; simpl in Hstep.
  - destruct (status s c) eqn:E; try done. by apply tsan_create.
  - destruct (status s c) eqn:E; try done. by eapply tsan_resume.
  - destruct (active s t) eqn:E; try done. by eapply tsan_suspend.
  - destruct (active s t) eqn:E; try done. by eapply tsan_finish.
Qed.

Context (Hinj : ∀ t u, current_fiber t r0 = current_fiber u r0 → t = u).
Context (Halive : ∀ f, fiber_alive r0 f ↔ ∃ t, current_fiber t r0 = f).

Lemma tsan_invariant : invariant (coroutine_system r0) tsan_inv.
Proof using Hinj Halive.
  apply invariant_intro; [|intros l s s'; apply tsan_step].
  intros s ->. split; try done; [split; [by intros c t; split; [intros ?%elem_of_nil|]|intros; apply NoDup_nil_2]|].
  exists (λ l, match l with OfThread t => current_fiber t r0 | OfCoro _ => current_fiber 0 r0 end).
  split; simpl; try done.
  - intros [t|c] [u|d] Hl Hl'; simpl in *; try done. by intros ->%Hinj.
  - intros f. rewrite Halive. split; [intros [t <-]; by exists (OfThread t)|].
    intros ([t|c] & Hl & <-); [eauto|done].
  - by intros t pre c cs ?%app_cons_not_nil.
Qed.
End tsan_proof.

Section asan_proof.
  Context {R FS : Type}.

(** The documented behaviour: [start] announces the stack the thread switches to and
    saves the fake stack in use, or frees it; [finish] makes the announced stack the
    current one, returns the one that was left, and takes up a fake stack that was
    saved and is not in use, or a new one. *)
Class AsanLaws `{AsanRuntime R FS} := {
  as_stack : tid → R → BufferView;
  as_pending : tid → R → option BufferView;
  as_fake : tid → R → FS;
  fake_alive : R → FS → Prop;
  start_law : ∀ t save v r, as_pending t r = None →
    ∃ r', start_switch t save v r = Some (as_fake t r, r') ∧
      (∀ u, as_pending u r' = if decide (u = t) then Some v else as_pending u r) ∧
      (∀ u, as_stack u r' = as_stack u r) ∧ (∀ u, u ≠ t → as_fake u r' = as_fake u r) ∧
      (∀ g, fake_alive r' g ↔ fake_alive r g ∧ (save = true ∨ g ≠ as_fake t r));
  finish_law : ∀ t fs v r, as_pending t r = Some v → fake_alive r fs →
    (∀ u, as_pending u r = None → as_fake u r ≠ fs) →
    ∃ r', finish_switch t (Some fs) r = Some (as_stack t r, r') ∧
      (∀ u, as_pending u r' = if decide (u = t) then None else as_pending u r) ∧
      (∀ u, as_stack u r' = if decide (u = t) then v else as_stack u r) ∧
      (∀ u, as_fake u r' = if decide (u = t) then fs else as_fake u r) ∧
      (∀ g, fake_alive r' g ↔ fake_alive r g);
  finish_new_law : ∀ t v r, as_pending t r = Some v →
    ∃ r', finish_switch t None r = Some (as_stack t r, r') ∧
      (∀ u, as_pending u r' = if decide (u = t) then None else as_pending u r) ∧
      (∀ u, as_stack u r' = if decide (u = t) then v else as_stack u r) ∧
      (∀ u, u ≠ t → as_fake u r' = as_fake u r) ∧
      ¬ fake_alive r (as_fake t r') ∧ (∀ g, fake_alive r' g ↔ fake_alive r g ∨ g = as_fake t r')
}.

Context `{AsanLaws} (r0 : R).
Implicit Types (r : R) (s : coroutines (asan_context FS) R).

(** A thread leaves its stack and takes up a saved fake stack. *)
Lemma asan_switch_back t save v fs r :
  (∀ u, as_pending u r = None) → fake_alive r fs → fs ≠ as_fake t r → (∀ u, u ≠ t → as_fake u r ≠ fs) →
  ∃ r1 r2, start_switch t save v r = Some (as_fake t r, r1) ∧ finish_switch t (Some fs) r1 = Some (as_stack t r, r2) ∧
    (∀ u, as_pending u r2 = None) ∧ (∀ u, as_stack u r2 = if decide (u = t) then v else as_stack u r) ∧
    (∀ u, as_fake u r2 = if decide (u = t) then fs else as_fake u r) ∧
    (∀ g, fake_alive r2 g ↔ fake_alive r g ∧ (save = true ∨ g ≠ as_fake t r)).
Proof.
  intros Hp Ha Hne Hu. destruct (start_law t save v r (Hp t)) as (r1 & E1 & P1 & S1 & F1 & A1).
  destruct (finish_law t fs v r1) as (r2 & E2 & P2 & S2 & F2 & A2).
  - by rewrite P1, decide_True.
  - apply A1. auto.
  - intros u. rewrite P1. case_decide; [done|]. intros _. rewrite F1 by done. by apply Hu.
  - exists r1, r2. split; [done|]. rewrite S1 in E2. split; [done|]. split; [|split; [|split]].
    + intros u. rewrite P2, P1. by case_decide.
    + intros u. rewrite S2. case_decide; [done|apply S1].
    + intros u. rewrite F2. case_decide; [done|by apply F1].
    + intros g. by rewrite A2, A1.
Qed.

(** The same to a stack without a fake stack yet. *)
Lemma asan_switch_first t v r :
  (∀ u, as_pending u r = None) →
  ∃ r1 r2, start_switch t true v r = Some (as_fake t r, r1) ∧ finish_switch t None r1 = Some (as_stack t r, r2) ∧
    (∀ u, as_pending u r2 = None) ∧ (∀ u, as_stack u r2 = if decide (u = t) then v else as_stack u r) ∧
    (∀ u, u ≠ t → as_fake u r2 = as_fake u r) ∧
    ¬ fake_alive r (as_fake t r2) ∧ (∀ g, fake_alive r2 g ↔ fake_alive r g ∨ g = as_fake t r2).
Proof.
  intros Hp. destruct (start_law t true v r (Hp t)) as (r1 & E1 & P1 & S1 & F1 & A1).
  assert (∀ g, fake_alive r1 g ↔ fake_alive r g) as A1' by (intros g; rewrite A1; naive_solver).
  destruct (finish_new_law t v r1) as (r2 & E2 & P2 & S2 & F2 & N2 & A2); [by rewrite P1, decide_True|].
  exists r1, r2. split; [done|]. rewrite S1 in E2. split; [done|]. split; [|split; [|split; [|split]]].
  - intros u. rewrite P2, P1. by case_decide.
  - intros u. rewrite S2. case_decide; [done|apply S1].
  - intros u Hu. by rewrite F2, F1.
  - by rewrite <-A1'.
  - intros g. by rewrite A2, A1'.
Qed.

Definition asan_live (st : cid → coro_status) (l : line) : Prop :=
  match l with
  | OfThread _ => True
  | OfCoro c => match st c with Running _ | Suspended true => True | _ => False end
  end.

(** The stack a line runs on. *)
Definition own_stack (bufs : cid → BufferView) (l : line) : BufferView :=
  match l with OfThread t => as_stack t r0 | OfCoro c => bufs c end.

(** Every line that has started has its fake stack, and there are no others. *)
Record stacks_of s (fake_of : line → FS) : Prop := StacksOf {
  sk_inj : ∀ l l', asan_live (status s) l → asan_live (status s) l' → fake_of l = fake_of l' → l = l';
  sk_alive : ∀ g, fake_alive (rt (cworld s)) g ↔ ∃ l, asan_live (status s) l ∧ fake_of l = g;
  sk_pending : ∀ t, as_pending t (rt (cworld s)) = None;
  sk_fake : ∀ t, as_fake t (rt (cworld s)) = fake_of (line_of t (active s t));
  sk_stack : ∀ t, as_stack t (rt (cworld s)) = own_stack (buffers s) (line_of t (active s t));
  sk_coro : ∀ c, unfinished (status s c) → stack_ (ctxs (cworld s) (CoroCtx c)) = Some (buffers s c);
  sk_saved : ∀ c, status s c = Suspended true →
    fake_stack_ (ctxs (cworld s) (CoroCtx c)) = Some (fake_of (OfCoro c));
  sk_callers : callers_ok (active s) (λ c l, stack_ (ctxs (cworld s) (CallerCtx c)) = Some (own_stack (buffers s) l) ∧
    fake_stack_ (ctxs (cworld s) (CallerCtx c)) = Some (fake_of l))
}.

Record asan_inv s : Prop := AsanInv {
  ai_nested : nested s;
  ai_ok : broken s = false;
  ai_stacks : ∃ fake_of, stacks_of s fake_of
}.

Lemma asan_live_below s t pre cs : nested s → active s t = pre ++ cs → asan_live (status s) (line_of t cs).
Proof.
  intros Hn Ea. destruct cs as [|c cs]; simpl; [done|].
  assert (status s c = Running t) as ->; [|done]. apply (ns_running _ Hn). rewrite Ea. set_solver.
Qed.

(** The fake stacks of other lines are not that of [l]. *)
Lemma fake_apart s fo l u :
  stacks_of s fo → nested s → asan_live (status s) l → line_of u (active s u) ≠ l → as_fake u (rt (cworld s)) ≠ fo l.
Proof.
  intros Hf Hn Hl Hne E. rewrite (sk_fake _ _ Hf) in E. apply Hne, (sk_inj _ _ Hf); [|done|done].
  by apply (asan_live_below s u []).
Qed.

Lemma asan_resume_started s t c :
  asan_inv s → status s c = Suspended true → ∃ s', coro_step (Resume t c) s = Some s' ∧ asan_inv s'.
Proof.
  intros [Hn Hok [fo Hf]] Hs. unfold coro_step. rewrite Hs. eexists. split; [done|].
  assert (∀ u, status s c ≠ Running u) as Hnr by (intros u; by rewrite Hs).
  assert (∀ u, line_of u (active s u) ≠ OfCoro c) as Hlu by (intros u; by apply (line_of_new s u _ c Hn Hnr)).
  assert (asan_live (status s) (OfCoro c)) as Hlc by (simpl; by rewrite Hs).
  destruct (asan_switch_back t true (buffers s c) (fo (OfCoro c)) (rt (cworld s)))
    as (r1 & r2 & E1 & E2 & HP & HS & HF & HA).
  { apply Hf. } { apply (sk_alive _ _ Hf). eauto. } { intros E. by apply (fake_apart s fo (OfCoro c) t Hf Hn Hlc (Hlu t)). }
  { intros u _. by apply (fake_apart s fo). }
  unfold SwitchTo, switched_back. simpl. unfold asan_BeforeSwitch, set_from. rewrite put_eq. simpl.
  rewrite (sk_coro _ _ Hf c) by (by rewrite Hs). simpl. rewrite E1. simpl.
  unfold asan_AfterSwitch, asan_finish. simpl. rewrite decide_True by done. simpl.
  rewrite (sk_saved _ _ Hf c Hs). simpl. rewrite E2. simpl.
  assert (∀ x, asan_live (status s)⟦c ↦ Running t⟧ x ↔ asan_live (status s) x) as Hlive.
  { intros [u|d]; simpl; [done|]. unfold upd. case_decide; [subst; by rewrite Hs|done]. }
  split; [by apply (nested_push s _ t c)|done|]. exists fo. split; simpl.
  - intros l l'. rewrite !Hlive. apply Hf.
  - intros g. rewrite HA, (sk_alive _ _ Hf). setoid_rewrite Hlive. naive_solver.
  - done.
  - intros u. rewrite HF. unfold upd. repeat case_decide; subst; try done. apply Hf.
  - intros u. rewrite HS. unfold upd. repeat case_decide; subst; try done. apply Hf.
  - intros d Hd. assert (unfinished (status s d)) as Hd'
      by (unfold upd in Hd; case_decide; [subst; by rewrite Hs|done]).
    case_decide; simplify_eq/=; [done|by apply Hf].
  - intros d. unfold upd. case_decide as Ed; [done|]. intros Hd. rewrite decide_False by congruence. by apply Hf.
  - apply (callers_push (active s) _ _ t c (sk_callers _ _ Hf)).
    + by apply active_new.
    + intros d l Hne Hd. rewrite !decide_False by congruence. done.
    + rewrite !decide_True by done. simpl. split; [by rewrite (sk_stack _ _ Hf)|by rewrite (sk_fake _ _ Hf)].
Qed.

Lemma asan_resume_new s t c :
  asan_inv s → status s c = Suspended false → ∃ s', coro_step (Resume t c) s = Some s' ∧ asan_inv s'.
Proof.
  intros [Hn Hok [fo Hf]] Hs. unfold coro_step. rewrite Hs. eexists. split; [done|].
  assert (∀ u, status s c ≠ Running u) as Hnr by (intros u; by rewrite Hs).
  assert (∀ u, line_of u (active s u) ≠ OfCoro c) as Hlu by (intros u; by apply (line_of_new s u _ c Hn Hnr)).
  destruct (asan_switch_first t (buffers s c) (rt (cworld s))) as (r1 & r2 & E1 & E2 & HP & HS & HF & HN & HA);
    [apply Hf|].
  unfold SwitchTo, Run. simpl. unfold asan_BeforeSwitch, set_from. rewrite put_eq. simpl.
  rewrite (sk_coro _ _ Hf c) by (by rewrite Hs). simpl. rewrite E1. simpl.
  unfold asan_AfterStart, asan_finish. simpl. rewrite decide_True by done. simpl. rewrite E2. simpl.
  assert (∀ x, asan_live (status s)⟦c ↦ Running t⟧ x ↔ asan_live (status s) x ∨ x = OfCoro c) as Hlive.
  { intros [u|d]; simpl; [by split; [left|]|]. unfold upd. case_decide; [subst; rewrite Hs; naive_solver|naive_solver]. }
  assert (∀ l, asan_live (status s) l → fo l ≠ as_fake t r2) as Hnew.
  { intros l Hl E. apply HN, (sk_alive _ _ Hf). eauto. }
  split; [by apply (nested_push s _ t c)|done|].
  exists (λ l, if decide (l = OfCoro c) then as_fake t r2 else fo l). split; simpl.
  - intros l l' Hl Hl'. apply Hlive in Hl, Hl'. repeat case_decide; subst; try done.
    + destruct Hl' as [Hl'|]; [|done]. intros E. by apply Hnew in Hl'.
    + destruct Hl as [Hl|]; [|done]. intros E. by apply Hnew in Hl.
    + destruct Hl as [?|?], Hl' as [?|?]; try done. by apply (sk_inj _ _ Hf).
  - intros g. rewrite HA, (sk_alive _ _ Hf). setoid_rewrite Hlive. split.
    + intros [(l & Hl & <-)| ->]; [|exists (OfCoro c); by rewrite decide_True by done; auto].
      exists l. rewrite decide_False; [auto|]. intros ->. simpl in Hl. by rewrite Hs in Hl.
    + intros (l & Hl & <-). case_decide; [auto|]. destruct Hl as [Hl|?]; [eauto|done].
  - done.
  - intros u. destruct (decide (t = u)) as [<-|Hne].
    + rewrite upd_eq. simpl. by rewrite decide_True.
    + rewrite upd_ne, HF, decide_False by (done || apply Hlu). apply Hf.
  - intros u. rewrite HS. unfold upd. repeat case_decide; subst; try done. apply Hf.
  - intros d Hd. assert (unfinished (status s d)) as Hd'
      by (unfold upd in Hd; case_decide; [subst; by rewrite Hs|done]).
    case_decide; simplify_eq/=; [done|by apply Hf].
  - intros d. unfold upd. case_decide as Ed; [done|]. intros Hd. rewrite !decide_False by congruence. by apply Hf.
  - apply (callers_push (active s) (λ d l, (stack_ (ctxs (cworld s) (CallerCtx d)) = Some (own_stack (buffers s) l) ∧
      fake_stack_ (ctxs (cworld s) (CallerCtx d)) = Some (fo l)) ∧ l ≠ OfCoro c)).
    + intros u pre d cs Ea. split; [by apply (sk_callers _ _ Hf u pre)|]. intros El.
      pose proof (asan_live_below s u (pre ++ [d]) cs Hn) as Hl. rewrite El in Hl. simpl in Hl. rewrite Hs in Hl.
      apply Hl. by rewrite <-(assoc (++)).
    + by apply active_new.
    + intros d l Hne [Hd Hl]. rewrite !decide_False by congruence. done.
    + rewrite !decide_True by done. rewrite decide_False by done. simpl.
      split; [by rewrite (sk_stack _ _ Hf)|by rewrite (sk_fake _ _ Hf)].
Qed.

(** The top coroutine [c] of thread [t] switches to what is below it. *)
Lemma asan_leave s fo t c cs save :
  nested s → stacks_of s fo → active s t = c :: cs →
  ∃ r1 r2, start_switch t save (own_stack (buffers s) (line_of t cs)) (rt (cworld s)) = Some (fo (OfCoro c), r1) ∧
    finish_switch t (Some (fo (line_of t cs))) r1 = Some (buffers s c, r2) ∧
    (∀ u, as_pending u r2 = None) ∧ (∀ u, as_stack u r2 = own_stack (buffers s) (line_of u ((active s)⟦t ↦ cs⟧ u))) ∧
    (∀ u, as_fake u r2 = fo (line_of u ((active s)⟦t ↦ cs⟧ u))) ∧
    (∀ g, fake_alive r2 g ↔ fake_alive (rt (cworld s)) g ∧ (save = true ∨ g ≠ fo (OfCoro c))).
Proof.
  intros Hn Hf Ea. destruct (active_top s t c cs Hn Ea) as [Hc Hcs].
  assert (asan_live (status s) (line_of t cs)) as Hlb by (by apply (asan_live_below s t [c])).
  assert (line_of t (active s t) = OfCoro c) as Et by (by rewrite Ea).
  destruct (asan_switch_back t save (own_stack (buffers s) (line_of t cs)) (fo (line_of t cs)) (rt (cworld s)))
    as (r1 & r2 & E1 & E2 & HP & HS & HF & HA).
  - apply Hf.
  - apply (sk_alive _ _ Hf). eauto.
  - intros E. apply (fake_apart s fo (line_of t cs) t Hf Hn Hlb); [|done]. rewrite Et. intros E'.
    apply (below_apart s t c cs t Hn Ea). by rewrite upd_eq.
  - intros u Hu. apply (fake_apart s fo); try done. by apply (lines_apart s t u [c]).
  - rewrite (sk_fake _ _ Hf), Et in E1, HA. rewrite (sk_stack _ _ Hf), Et in E2. exists r1, r2.
    split; [done|]. split; [done|]. split; [done|]. split; [|split; [|done]]; intros u; rewrite ?HS, ?HF;
      unfold upd; repeat case_decide; subst; try done; apply Hf.
Qed.

Lemma asan_suspend s t c cs :
  asan_inv s → active s t = c :: cs → ∃ s', coro_step (Suspend t) s = Some s' ∧ asan_inv s'.
Proof.
  intros [Hn Hok [fo Hf]] Ea. unfold coro_step. rewrite Ea. eexists. split; [done|].
  destruct (active_top s t c cs Hn Ea) as [Hc Hcs].
  destruct (callers_head _ _ t c cs (sk_callers _ _ Hf) Ea) as [Hst Hfs].
  destruct (asan_leave s fo t c cs true Hn Hf Ea) as (r1 & r2 & E1 & E2 & HP & HS & HF & HA).
  unfold SwitchTo, switched_back. simpl. unfold asan_BeforeSwitch, set_from. rewrite put_eq. simpl.
  rewrite Hst. simpl. rewrite E1. simpl. unfold asan_AfterSwitch, asan_finish. simpl.
  rewrite !decide_True by done. simpl. rewrite Hfs. simpl. rewrite E2. simpl.
  assert (∀ x, asan_live (status s)⟦c ↦ Suspended true⟧ x ↔ asan_live (status s) x) as Hlive.
  { intros [u|d]; simpl; [done|]. unfold upd. case_decide; [subst; by rewrite Hc|done]. }
  split; [by apply (nested_pop s _ t c cs (Suspended true))|done|]. exists fo. split; simpl; try done.
  - intros l l'. rewrite !Hlive. apply Hf.
  - intros g. rewrite HA, (sk_alive _ _ Hf). setoid_rewrite Hlive. naive_solver.
  - intros d Hd. case_decide; simplify_eq/=; [done|]. apply (sk_coro _ _ Hf).
    unfold upd in Hd. case_decide; [congruence|done].
  - intros d Hd. case_decide as Ed; simplify_eq/=.
    + by rewrite decide_True by done.
    + apply (sk_saved _ _ Hf). unfold upd in Hd. case_decide; [congruence|done].
  - apply (callers_pop s _ _ t c cs Hn (sk_callers _ _ Hf) Ea). intros d l Hne Hd.
    by rewrite !decide_False by congruence.
Qed.

Lemma asan_finish_coro s t c cs :
  asan_inv s → active s t = c :: cs → ∃ s', coro_step (Finish t) s = Some s' ∧ asan_inv s'.
Proof.
  intros [Hn Hok [fo Hf]] Ea. unfold coro_step. rewrite Ea. eexists. split; [done|].
  destruct (active_top s t c cs Hn Ea) as [Hc Hcs].
  destruct (callers_head _ _ t c cs (sk_callers _ _ Hf) Ea) as [Hst Hfs].
  destruct (asan_leave s fo t c cs false Hn Hf Ea) as (r1 & r2 & E1 & E2 & HP & HS & HF & HA).
  unfold ExitTo, switched_back. simpl. unfold asan_BeforeExit, set_from. rewrite put_eq. simpl.
  rewrite Hst. simpl. rewrite E1. simpl. unfold asan_AfterSwitch, asan_finish. simpl.
  rewrite !decide_True by done. simpl. rewrite Hfs. simpl. rewrite E2. simpl.
  assert (∀ x, asan_live (status s)⟦c ↦ Completed⟧ x ↔ asan_live (status s) x ∧ x ≠ OfCoro c) as Hlive.
  { intros [u|d]; simpl; [done|]. unfold upd. case_decide; [subst; naive_solver|naive_solver]. }
  assert (asan_live (status s) (OfCoro c)) as Hlc by (simpl; by rewrite Hc).
  split; [by apply (nested_pop s _ t c cs Completed)|done|]. exists fo. split; simpl; try done.
  - intros l l' [? _]%Hlive [? _]%Hlive. by apply Hf.
  - intros g. rewrite HA, (sk_alive _ _ Hf). setoid_rewrite Hlive. split.
    + intros [(l & Hl & <-) Hne]. destruct Hne as [|Hne]; [done|]. exists l. split; [split; [done|]|done]. by intros ->.
    + intros (l & [Hl Hne] & <-). split; [by exists l|]. right. intros E. by apply Hne, (sk_inj _ _ Hf).
  - intros d Hd. unfold upd in Hd. case_decide; [done|]. rewrite decide_False by congruence. by apply Hf.
  - intros d Hd. unfold upd in Hd. case_decide; [done|]. rewrite decide_False by congruence. by apply Hf.
  - apply (callers_pop s _ _ t c cs Hn (sk_callers _ _ Hf) Ea). intros d l Hne Hd.
    by rewrite !decide_False by congruence.
Qed.

Lemma asan_create s c b :
  asan_inv s → status s c = Absent → ∃ s', coro_step (Create c b) s = Some s' ∧ asan_inv s'.
Proof.
  intros [Hn Hok [fo Hf]] Hc. unfold coro_step. rewrite Hc. eexists. split; [done|].
  assert (∀ t pre cs, active s t = pre ++ cs → line_of t cs ≠ OfCoro c) as Hlu.
  { intros t pre cs Ea El. pose proof (asan_live_below s t pre cs Hn Ea) as Hl. rewrite El in Hl. simpl in Hl. by rewrite Hc in Hl. }
  assert (∀ x, asan_live (status s)⟦c ↦ Suspended false⟧ x ↔ asan_live (status s) x) as Hlive.
  { intros [u|d]; simpl; [done|]. unfold upd. case_decide; [subst; by rewrite Hc|done]. }
  assert (∀ l, l ≠ OfCoro c → own_stack (buffers s)⟦c ↦ b⟧ l = own_stack (buffers s) l) as Hown.
  { intros [u|d] Hl; simpl; [done|]. apply upd_ne. congruence. }
  split; [by apply (nested_create s _ c)|done|]. exists fo. split; simpl; try apply Hf.
  - intros l l'. rewrite !Hlive. apply Hf.
  - intros g. rewrite (sk_alive _ _ Hf). by setoid_rewrite Hlive.
  - intros t. rewrite Hown; [apply Hf|by apply (Hlu t [])].
  - intros d Hd. destruct (decide (c = d)) as [->|Hne].
    + by rewrite decide_True, upd_eq by done.
    + rewrite decide_False, upd_ne by congruence. apply (sk_coro _ _ Hf). unfold upd in Hd. by case_decide.
  - intros d Hd. unfold upd in Hd. case_decide; [done|]. rewrite decide_False by congruence. by apply Hf.
  - intros t pre d cs Ea. rewrite Hown; [by apply (sk_callers _ _ Hf t pre)|].
    apply (Hlu t (pre ++ [d])). by rewrite <-(assoc (++)).
Qed.

Lemma asan_step l s s' : asan_inv s → coro_step l s = Some s' → asan_inv s'.
Proof.
  intros Hi Hstep. assert ((∃ s1, coro_step l s = Some s1 ∧ asan_inv s1) → asan_inv s') as Hgo.
  { intros (s1 & E & H1). rewrite E in Hstep. by simplify_eq. }
  apply Hgo. destruct l as [c b|t c|t|t]; simpl in Hstep.
  - destruct (status s c) eqn:E; try done. by apply asan_create.
  - destruct (status s c) as [|[]| |] eqn:E; try done; [by apply asan_resume_started|by apply asan_resume_new].
  - destruct (active s t) eqn:E; try done. by eapply asan_suspend.
  - destruct (active s t) eqn:E; try done. by eapply asan_finish_coro.
Qed.

Context (Hinj : ∀ t u, as_fake t r0 = as_fake u r0 → t = u).
Context (Halive : ∀ g, fake_alive r0 g ↔ ∃ t, as_fake t r0 = g).
Context (Hpend : ∀ t, as_pending t r0 = None).

Lemma asan_invariant : invariant (coroutine_system r0) asan_inv.
Proof using Hinj Halive Hpend.
  apply invariant_intro; [|intros l s s'; apply asan_step].
  intros s ->. split; try done; [split; [by intros c t; split; [intros ?%elem_of_nil|]|intros; apply NoDup_nil_2]|].
  exists (λ l, match l with OfThread t => as_fake t r0 | OfCoro _ => as_fake 0 r0 end).
  split; simpl; try done.
  - intros [t|c] [u|d] Hl Hl'; simpl in *; try done. by intros ->%Hinj.
  - intros f. rewrite Halive. split; [intros [t <-]; by exists (OfThread t)|].
    intros ([t|c] & Hl & <-); [eauto|done].
  - by intros t pre c cs ?%app_cons_not_nil.
Qed.
End asan_proof.
Arguments AsanLaws R FS {_}.

(** ** Theorems *)

(** C39: ThreadSanitizer follows the coroutines: whatever the threads create, resume,
    suspend and finish, in nested resumptions and moving coroutines between threads,
    the runtime is never asked for something it forbids; the fiber it takes for
    the current one of a thread is that of the innermost active coroutine, or the
    thread's own; and the fibers that exist are the threads' and one for every
    coroutine that has not finished. *)
Theorem tsan_follows_contexts {R F} `{TsanLaws R F} (r0 : R) s :
  (∀ t u, current_fiber t r0 = current_fiber u r0 → t = u) →
  (∀ f, fiber_alive r0 f ↔ ∃ t, current_fiber t r0 = f) →
  reachable (coroutine_system r0) s →
  broken s = false ∧
  (∀ t, match active s t with
        | [] => current_fiber t (rt (cworld s)) = current_fiber t r0
        | c :: _ => fiber_ (ctxs (cworld s) (CoroCtx c)) = Some (current_fiber t (rt (cworld s)))
        end) ∧
  ∀ f, fiber_alive (rt (cworld s)) f ↔
    (∃ t, current_fiber t r0 = f) ∨
    ∃ c, unfinished (status s c) ∧ fiber_ (ctxs (cworld s) (CoroCtx c)) = Some f.
Proof.
  intros Hinj Ha Hr. destruct (tsan_invariant r0 Hinj Ha s Hr) as [Hn Hok _ [fo Hf]].
  split; [done|]. split.
  - intros t. rewrite (fb_current _ _ _ Hf). destruct (active s t) as [|c cs] eqn:Ea; simpl; [apply Hf|].
    apply (fb_coro _ _ _ Hf). destruct (active_top s t c cs Hn Ea) as [Hc _]. by rewrite Hc.
  - intros f. rewrite (fb_alive _ _ _ Hf). split.
    + intros ([t|c] & Hl & <-); [left; exists t; by rewrite (fb_thread _ _ _ Hf)|].
      right. exists c. split; [done|]. by apply (fb_coro _ _ _ Hf).
    + intros [[t <-]|(c & Hc & E)]; [exists (OfThread t); split; [done|apply Hf]|].
      exists (OfCoro c). split; [done|]. rewrite (fb_coro _ _ _ Hf c Hc) in E. by simplify_eq.
Qed.

(** C40: AddressSanitizer follows the coroutines: the hooks never give it a stack or a fake
    stack that is unknown, freed or in use elsewhere; between the switches it holds the
    stack of the innermost active coroutine of a thread, or the thread's own, for
    the current one; and a coroutine that is suspended keeps its fake stack alive. *)
Theorem asan_follows_contexts {R FS} `{AsanLaws R FS} (r0 : R) s :
  (∀ t u, as_fake t r0 = as_fake u r0 → t = u) → (∀ g, fake_alive r0 g ↔ ∃ t, as_fake t r0 = g) →
  (∀ t, as_pending t r0 = None) → reachable (coroutine_system r0) s →
  broken s = false ∧
  (∀ t, as_pending t (rt (cworld s)) = None ∧
    as_stack t (rt (cworld s)) = match active s t with [] => as_stack t r0 | c :: _ => buffers s c end) ∧
  (∀ c, status s c = Suspended true →
    ∃ fs, fake_stack_ (ctxs (cworld s) (CoroCtx c)) = Some fs ∧ fake_alive (rt (cworld s)) fs ∧
      ∀ t, as_fake t (rt (cworld s)) ≠ fs).
Proof.
  intros Hinj Ha Hp Hr. destruct (asan_invariant r0 Hinj Ha Hp s Hr) as [Hn Hok [fo Hf]].
  split; [done|]. split.
  - intros t. split; [apply Hf|]. rewrite (sk_stack _ _ _ Hf). by destruct (active s t).
  - intros c Hc. exists (fo (OfCoro c)). assert (asan_live (status s) (OfCoro c)) as Hl by (simpl; by rewrite Hc).
    split; [by apply (sk_saved _ _ _ Hf)|]. split; [apply (sk_alive _ _ _ Hf); eauto|].
    intros t. apply (fake_apart r0 s fo); try done. apply (line_of_new s t _ c Hn); [by rewrite Hc|done].
Qed.

(** ** Runtimes that behave as documented *)

(** Resources: those of the threads, and those that were created. *)
Abbreviation resource := (tid + nat)%type.

Record pool := MkPool { gone : list tid; live : list nat }.

Definition in_pool (p : pool) (x : resource) : Prop :=
  match x with inl t => t ∉ gone p | inr n => n ∈ live p end.

#[export] Instance in_pool_dec p x : Decision (in_pool p x).
Proof. unfold in_pool. destruct x; apply _. Defined.

Definition alloc (p : pool) : resource * pool :=
  let n := S (sum_list (live p)) in (inr n, MkPool (gone p) (n :: live p)).

Definition free (p : pool) (x : resource) : pool :=
  match x with
  | inl t => MkPool (t :: gone p) (live p)
  | inr n => MkPool (gone p) (filter (λ k, k ≠ n) (live p))
  end.

Lemma alloc_spec p : ¬ in_pool p (alloc p).1 ∧ ∀ y, in_pool (alloc p).2 y ↔ in_pool p y ∨ y = (alloc p).1.
Proof.
  split; simpl.
  - intros Hin. assert (∀ k l, k ∈ l → k <= sum_list l) as H; [|apply H in Hin; lia].
    intros k l. induction l as [|a l IH]; [by intros ?%elem_of_nil|].
    simpl. intros [->|Hk]%elem_of_cons; [lia|apply IH in Hk; lia].
  - intros [t|n]; simpl; [naive_solver|]. rewrite elem_of_cons. naive_solver.
Qed.

Lemma free_spec p x y : in_pool (free p x) y ↔ in_pool p y ∧ y ≠ x.
Proof.
  destruct x as [t|n], y as [u|k]; simpl; rewrite ?not_elem_of_cons, ?list_elem_of_filter; naive_solver.
Qed.

Record tsan_state := MkTsanState { tpool : pool; currents : tid → resource }.

#[export] Instance demo_tsan : TsanRuntime tsan_state resource := {
  create_fiber r := let '(f, p) := alloc (tpool r) in (f, MkTsanState p (currents r));
  current_fiber t r := currents r t;
  switch_to_fiber t f r :=
    if decide (in_pool (tpool r) f) then Some (MkTsanState (tpool r) (currents r)⟦t ↦ f⟧) else None;
  destroy_fiber f r :=
    if decide (in_pool (tpool r) f) then Some (MkTsanState (free (tpool r) f) (currents r)) else None
}.

#[export, refine] Instance demo_tsan_laws : TsanLaws tsan_state resource := {
  fiber_alive r f := in_pool (tpool r) f;
  create_law := _; switch_law := _; destroy_law := _
}.
Proof.
  - intros r f r'. pose proof (alloc_spec (tpool r)) as Hs. cbn [create_fiber current_fiber demo_tsan]. revert Hs.
    destruct (alloc (tpool r)) as [x p]. simpl. intros [H1 H2] [= <- <-]. done.
  - intros t f r Hf _. simpl. rewrite decide_True by done. eexists. split; [done|]. split; [done|].
    intros u. simpl. unfold upd. repeat case_decide; by subst.
  - intros f r Hf _. simpl. rewrite decide_True by done. eexists. split; [done|]. split; [|done].
    intros g. simpl. apply free_spec.
Defined.

Record asan_state := MkAsanState {
  apool : pool;
  stacks : tid → BufferView;
  pendings : tid → option BufferView;
  fakes : tid → resource
}.

#[export] Instance demo_asan : AsanRuntime asan_state resource := {
  start_switch t save v r :=
    match pendings r t with
    | None => Some (fakes r t,
        MkAsanState (if save : bool then apool r else free (apool r) (fakes r t)) (stacks r)
          (pendings r)⟦t ↦ Some v⟧ (fakes r))
    | Some _ => None
    end;
  finish_switch t o r :=
    v ← pendings r t;
    match o with
    | Some fs =>
        if decide (in_pool (apool r) fs)
        then Some (stacks r t, MkAsanState (apool r) (stacks r)⟦t ↦ v⟧ (pendings r)⟦t ↦ None⟧ (fakes r)⟦t ↦ fs⟧)
        else None
    | None =>
        let '(fs, p) := alloc (apool r) in
        Some (stacks r t, MkAsanState p (stacks r)⟦t ↦ v⟧ (pendings r)⟦t ↦ None⟧ (fakes r)⟦t ↦ fs⟧)
    end
}.

#[export, refine] Instance demo_asan_laws : AsanLaws asan_state resource := {
  as_stack t r := stacks r t;
  as_pending t r := pendings r t;
  as_fake t r := fakes r t;
  fake_alive r g := in_pool (apool r) g;
  start_law := _; finish_law := _; finish_new_law := _
}.
Proof.
  - intros t save v r Hp. simpl. rewrite Hp. eexists. split; [done|]. simpl. split; [|split; [done|split; [done|]]].
    + intros u. unfold upd. repeat case_decide; by subst.
    + intros g. destruct save; [naive_solver|]. rewrite free_spec. naive_solver.
  - intros t fs v r Hp Ha _. simpl. rewrite Hp. simpl. rewrite decide_True by done. eexists. split; [done|].
    simpl. split; [|split; [|split; [|done]]]; intros u; unfold upd; repeat case_decide; by subst.
  - intros t v r Hp. pose proof (alloc_spec (apool r)) as Hs. cbn [finish_switch demo_asan]. rewrite Hp. cbn [mbind option_bind]. revert Hs.
    destruct (alloc (apool r)) as [fs p]. simpl. intros [H1 H2]. eexists. split; [done|]. simpl. rewrite upd_eq.
    split; [|split; [|split; [|done]]]; intros u; [unfold upd; repeat case_decide; by subst..|].
    intros Hu. by apply upd_ne.
Defined.

(** Coroutine 1 is resumed by coroutine 0 on thread 7 and suspends; thread 8 resumes it
    and it finishes there; coroutine 0 suspends; coroutine 2 is new. *)
Definition demo_coroutines : list coro_label :=
  [Create 0 (4096, 64)%Z; Create 1 (8192, 64)%Z; Resume 7 0; Resume 7 1; Suspend 7; Resume 8 1; Finish 8; Suspend 7;
   Create 2 (12288, 64)%Z; Resume 8 2].

Definition tsan_start : tsan_state := MkTsanState (MkPool [] []) inl.
Definition asan_start : asan_state := MkAsanState (MkPool [] []) (λ t, (Z.of_nat t, 8%Z)) (λ _, None) inl.

Definition tsan_demo : coroutines (tsan_context resource) tsan_state :=
  default (no_coroutines tsan_start) (run (coroutine_system tsan_start) demo_coroutines (no_coroutines tsan_start)).
Definition asan_demo : coroutines (asan_context resource) asan_state :=
  default (no_coroutines asan_start) (run (coroutine_system asan_start) demo_coroutines (no_coroutines asan_start)).

Lemma pool_start f : in_pool (MkPool [] []) f ↔ ∃ t : tid, inl t = f.
Proof. destruct f as [t|n]; simpl; rewrite elem_of_nil; naive_solver. Qed.

Lemma tsan_demo_reachable : reachable (coroutine_system tsan_start) tsan_demo.
Proof. apply (run_reachable (coroutine_system tsan_start)); [done|]. apply is_Some_alt. vm_compute. exact I. Qed.

Lemma asan_demo_reachable : reachable (coroutine_system asan_start) asan_demo.
Proof. apply (run_reachable (coroutine_system asan_start)); [done|]. apply is_Some_alt. vm_compute. exact I. Qed.

Lemma tsan_follows_contexts_witness :
  (active tsan_demo 7, active tsan_demo 8) = ([], [2]) ∧ broken tsan_demo = false ∧
  (∀ t, match active tsan_demo t with
        | [] => current_fiber t (rt (cworld tsan_demo)) = current_fiber t tsan_start
        | c :: _ => fiber_ (ctxs (cworld tsan_demo) (CoroCtx c)) = Some (current_fiber t (rt (cworld tsan_demo)))
        end) ∧
  ∀ f, fiber_alive (rt (cworld tsan_demo)) f ↔
    (∃ t, current_fiber t tsan_start = f) ∨
    ∃ c, unfinished (status tsan_demo c) ∧ fiber_ (ctxs (cworld tsan_demo) (CoroCtx c)) = Some f.
Proof.
  split; [vm_compute; reflexivity|].
  apply (tsan_follows_contexts tsan_start tsan_demo).
  - intros t u E. simpl in E. congruence.
  - apply pool_start.
  - apply tsan_demo_reachable.
Defined.

Lemma asan_follows_contexts_witness :
  status asan_demo 0 = Suspended true ∧ broken asan_demo = false ∧
  (∀ t, as_pending t (rt (cworld asan_demo)) = None ∧
    as_stack t (rt (cworld asan_demo)) =
      match active asan_demo t with [] => as_stack t asan_start | c :: _ => buffers asan_demo c end) ∧
  (∀ c, status asan_demo c = Suspended true →
    ∃ fs, fake_stack_ (ctxs (cworld asan_demo) (CoroCtx c)) = Some fs ∧ fake_alive (rt (cworld asan_demo)) fs ∧
      ∀ t, as_fake t (rt (cworld asan_demo)) ≠ fs).
Proof.
  split; [vm_compute; reflexivity|].
  apply (asan_follows_contexts asan_start asan_demo).
  - intros t u E. simpl in E. congruence.
  - apply pool_start.
  - done.
  - apply asan_demo_reachable.
Defined.
