(* ===== verification/Fiber.v ===== *)
(** * fiber, go, executor/task: fibers on an executor

    [AwaiterFiber] (a task whose [Run] resumes a stackful coroutine up to its next
    suspension), [StoppedFiber], the state machine of [TaskBase], [Go] and [Yield].
    [Run] is a function from the program's state to the tasks it submits and the
    new state, which is what the executors of [ManualExecutor.v] run.  The routine
    of a fiber is what is left of it, as in [Coro.v].

    A fiber suspends with an [IAwaiter], whose virtual [AwaitSuspend] is called once it
    has left the thread: the operations that may suspend are a class, [Awaiters], with
    the shared objects they work on; [AwaiterLaws] is what the fibers rely on. *)

From stdpp Require Import prelude list gmap.
From S2P Require Import Prelude.
From S2P Require Import Fifo.
From S2P Require Import ManualExecutor.

(** ** TaskBase *)

Inductive StateTask := PLANNED | RUNNING | FINISHED.

(** [ProgressState] throws on a finished task. *)
Definition ProgressState (state : StateTask) : option StateTask :=
  match state with
  | PLANNED => Some RUNNING
  | RUNNING => Some FINISHED
  | FINISHED => None
  end.

Inductive TaskRunResult := UNCOMPLETED | COMPLETE.

(** ** StoppedFiber *)

Abbreviation fid := nat.

(** A handle: the fiber, or null once released. *)
Abbreviation StoppedFiber := (ptr fid).

Definition IsValid (h : StoppedFiber) : bool := match h with Some _ => true | None => false end.

(** [Release] asserts that the handle is valid and leaves it null. *)
Definition Release (h : StoppedFiber) : option (fid * StoppedFiber) :=
  f ← h; Some (f, None).

(** ** The interface of the awaiters

    [aw_call]: a fiber calls an operation, which schedules fibers, changes the objects
    and suspends the fiber or returns.  [aw_suspend]: the [AwaitSuspend] of the awaiter
    that the operation has left, on the handle of the fiber. *)
Class Awaiters (O St : Type) := {
  aw_call : O → fid → St → list fid * St * bool;
  aw_suspend : O → StoppedFiber → St → option (list fid * St)
}.

(** The objects hold the fibers parked in them, each once.  An operation schedules only
    parked fibers, which it unparks; an awaiter parks its fiber or schedules it. *)
Class AwaiterLaws (O St : Type) `{Awaiters O St} := {
  aw_parked : St → list fid;
  aw_call_parked : ∀ o f st subs st' b, aw_call o f st = (subs, st', b) →
    aw_parked st ≡ₚ subs ++ aw_parked st';
  aw_suspend_parked : ∀ o f st, ∃ subs st', aw_suspend o (Some f) st = Some (subs, st') ∧
    f :: aw_parked st ≡ₚ subs ++ aw_parked st'
}.

(** ** Fibers *)

Section fiber.
  Context {O St : Type} `{Awaiters O St}.

(** What is left of a fiber's routine: its end, an effect, an operation that may suspend
    it, [Go] of another routine. *)
Inductive body := End | Effect (a : nat) (k : body) | AwaitThen (o : O) (k : body) | GoThen (child k : body).

Record AwaiterFiber := MkFiber {
  fiber_coro_ : body;
  is_completed : bool;
  awaiter_ : ptr O;
  state : StateTask
}.

(** The fibers of a program on one executor: the live fibers, the next address, the
    thread-local [current_fiber], the shared objects, the effects with the fiber that
    had them, and whether something undefined or fatal has happened. *)
Record program := MkProgram {
  fibers : gmap fid AwaiterFiber;
  fresh : fid;
  current_fiber : ptr fid;
  objects : St;
  log : list (fid * nat);
  failed : bool
}.

Definition fail (p : program) : program :=
  MkProgram (fibers p) (fresh p) (current_fiber p) (objects p) (log p) true.

Definition set_fibers (p : program) (m : gmap fid AwaiterFiber) : program :=
  MkProgram m (fresh p) (current_fiber p) (objects p) (log p) (failed p).

Definition set_current (p : program) (c : ptr fid) : program :=
  MkProgram (fibers p) (fresh p) c (objects p) (log p) (failed p).

Definition set_objects (p : program) (st : St) : program :=
  MkProgram (fibers p) (fresh p) (current_fiber p) st (log p) (failed p).

Definition emit (p : program) (f : fid) (a : nat) : program :=
  MkProgram (fibers p) (fresh p) (current_fiber p) (objects p) (log p ++ [(f, a)]) (failed p).

(** [Go(scheduler, routine)]: a new fiber, scheduled. *)
Definition Go (p : program) (r : body) : fid * program :=
  let f := fresh p in
  (f, MkProgram (<[f := MkFiber r false None PLANNED]> (fibers p)) (S f) (current_fiber p)
        (objects p) (log p) (failed p)).

(** [Go(routine)] uses the scheduler of the current fiber. *)
Definition GoHere (p : program) (r : body) : list fid * program :=
  match current_fiber p with
  | Some _ => let '(f, p') := Go p r in ([f], p')
  | None => ([], fail p)
  end.

(** [NFibers::Suspend] asserts that a fiber is running. *)
Definition Suspend_current (p : program) : program :=
  match current_fiber p with Some _ => p | None => fail p end.

(** The routine of fiber [f] up to its next suspension: what it submits, the state, and
    the awaiter it suspends with and what is left, or [None] at the end. *)
Fixpoint run_body (f : fid) (b : body) (p : program) : list fid * program * option (O * body) :=
  match b with
  | End => ([], p, None)
  | Effect a k => run_body f k (emit p f a)
  | AwaitThen o k =>
      let '(subs1, st, suspends) := aw_call o f (objects p) in
      if suspends : bool then (subs1, Suspend_current (set_objects p st), Some (o, k))
      else
        let '(subs2, p2, k') := run_body f k (set_objects p st) in
        (subs1 ++ subs2, p2, k')
  | GoThen c k =>
      let '(subs1, p1) := GoHere p c in
      let '(subs2, p2, k') := run_body f k p1 in
      (subs1 ++ subs2, p2, k')
  end.

(** [Suspend(waiter)], by the fiber that is running. *)
Definition Suspend (x : AwaiterFiber) (waiter : O) (k : body) : AwaiterFiber :=
  MkFiber k false (Some waiter) (state x).

(** [AwaiterFiber::Switch]: resume the coroutine with [current_fiber] set. *)
Definition Switch (f : fid) (x : AwaiterFiber) (p : program) : list fid * program :=
  if is_completed x then ([], fail p)
  else
    let '(subs, p1, k) := run_body f (fiber_coro_ x) (set_current p (Some f)) in
    let x' := match k with
              | Some (o, k') => Suspend x o k'
              | None => MkFiber End true (awaiter_ x) (state x)
              end in
    (subs, set_current (set_fibers p1 (<[f := x']> (fibers p1))) None).

(** [awaiter_->AwaitSuspend(StoppedFiber{this})], if there is an awaiter. *)
Definition call_awaiter (f : fid) (x : AwaiterFiber) (p : program) : list fid * program :=
  match awaiter_ x with
  | None => ([], p)
  | Some o =>
      match aw_suspend o (Some f) (objects p) with
      | Some (subs, st) => (subs, set_objects p st)
      | None => ([], fail p)
      end
  end.

(** [AwaiterFiber::Run]: switch to the fiber; a completed one progresses and is
    deleted, a suspended one is handed to the awaiter it left. *)
Definition Run (f : fid) (p : program) : list fid * program * TaskRunResult :=
  match fibers p !! f with
  | None => ([], fail p, UNCOMPLETED)
  | Some x =>
      let '(subs, p1) := Switch f x p in
      match fibers p1 !! f with
      | None => (subs, fail p1, UNCOMPLETED)
      | Some x' =>
          if is_completed x'
          then match ProgressState (state x') with
               | Some _ => (subs, set_fibers p1 (delete f (fibers p1)), COMPLETE)
               | None => (subs, fail p1, COMPLETE)
               end
          else
            let '(subs', p2) := call_awaiter f x' p1 in
            (subs ++ subs', p2, UNCOMPLETED)
      end
  end.

(** [Run] as the executor calls it. *)
Definition fiber_task (f : fid) (p : program) : list fid * program :=
  let '(subs, p', _) := Run f p in (subs, p').

(** ** Measures *)

(** How many times the executor may have to run a routine, with those it starts. *)
Fixpoint turns (b : body) : nat :=
  match b with
  | End => 1
  | Effect _ k => turns k
  | AwaitThen _ k => S (turns k)
  | GoThen c k => turns c + turns k
  end.

(** A routine's own effects, in program order. *)
Fixpoint own_effects (b : body) : list nat :=
  match b with
  | End => []
  | Effect a k => a :: own_effects k
  | AwaitThen _ k => own_effects k
  | GoThen _ k => own_effects k
  end.

(** The effects of fiber [f] so far. *)
Definition effects_of (p : program) (f : fid) : list nat :=
  omap (λ e, if decide (fst e = f) then Some (snd e) else None) (log p).

(** What fiber [f] has still to do. *)
Definition remaining (p : program) (f : fid) : list nat :=
  match fibers p !! f with Some x => own_effects (fiber_coro_ x) | None => [] end.

Definition turns_of (p : program) (f : fid) : nat :=
  match fibers p !! f with Some x => turns (fiber_coro_ x) | None => 0 end.

Definition total_turns (p : program) (q : list fid) : nat := sum_list_with (turns_of p) q.

(** Every operation suspends. *)
Definition always_suspends : Prop := ∀ o f st, snd (aw_call o f st) = true.

End fiber.

Arguments body O : clear implicits.
Arguments AwaiterFiber O : clear implicits.
Arguments program O St : clear implicits.
Arguments End {O}.
Arguments Effect {O} a k.
Arguments AwaitThen {O} o k.
Arguments GoThen {O} child k.

(** ** Facts *)

Section fiber_facts.
  Context {O St : Type} `{AwaiterLaws O St}.
  Implicit Types (p : program O St) (f g : fid) (q subs : list fid) (b : body O).

Definition parked p : list fid := aw_parked (objects p).

(** Every live fiber is queued or parked, exactly once, and has not finished. *)
Record fibers_ok p q : Prop := FibersOk {
  fo_nodup : NoDup (q ++ parked p);
  fo_live : ∀ f, is_Some (fibers p !! f) ↔ f ∈ q ++ parked p;
  fo_fresh : ∀ f, is_Some (fibers p !! f) → f < fresh p;
  fo_running : ∀ f x, fibers p !! f = Some x → is_completed x = false ∧ state x = PLANNED;
  fo_current : current_fiber p = None;
  fo_failed : failed p = false
}.

Lemma effects_of_emit p f g a :
  effects_of (emit p f a) g = effects_of p g ++ (if decide (f = g) then [a] else []).
Proof. unfold effects_of. simpl. rewrite omap_app. simpl. by case_decide. Qed.

(** The fibers created between two states. *)
Definition created p p' : list fid := seq (fresh p) (fresh p' - fresh p).

(** What is left of a routine that has stopped. *)
Definition rest_turns (k : option (O * body O)) : nat := from_option (λ k, turns (snd k)) 0 k.
Definition rest_effects (k : option (O * body O)) : list nat := from_option (λ k, own_effects (snd k)) [] k.

(** What running a routine up to its next suspension does. *)
Record turn f b p subs p' (k : option (O * body O)) : Prop := Turn {
  tn_current : current_fiber p' = current_fiber p;
  tn_failed : failed p' = failed p;
  tn_fresh : fresh p <= fresh p';
  tn_perm : parked p ++ created p p' ≡ₚ subs ++ parked p';
  tn_old : ∀ g, g < fresh p → fibers p' !! g = fibers p !! g;
  tn_new : ∀ g, fresh p <= g < fresh p' → ∃ r, fibers p' !! g = Some (MkFiber r false None PLANNED);
  tn_bound : ∀ g, is_Some (fibers p' !! g) → g < fresh p';
  tn_effects : ∀ g, effects_of p' g ++ (if decide (f = g) then rest_effects k else []) =
    effects_of p g ++ (if decide (f = g) then own_effects b else []);
  tn_turns : S (total_turns p' (created p p') + rest_turns k) <= turns b;
  tn_exact : always_suspends (O := O) (St := St) → S (total_turns p' (created p p') + rest_turns k) = turns b
}.

Lemma turn_created f b p subs p' k :
  turn f b p subs p' k → ∀ g, g ∈ created p p' ↔ fresh p <= g < fresh p'.
Proof. intros Ht g. unfold created. rewrite elem_of_seq. pose proof (tn_fresh _ _ _ _ _ _ Ht). lia. Qed.

(** The end of the routine, or a suspension. *)
Lemma turn_stop f b p subs st k :
  parked p ≡ₚ subs ++ aw_parked st → (∀ g, is_Some (fibers p !! g) → g < fresh p) →
  rest_effects k = own_effects b → S (rest_turns k) = turns b → turn f b p subs (set_objects p st) k.
Proof.
  intros Hp Hb He Ht. assert (created p (set_objects p st) = []) as Ec.
  { unfold created. simpl. by rewrite Nat.sub_diag. }
  split; simpl; try done; rewrite ?Ec; simpl; try done.
  - by rewrite app_nil_r.
  - intros g Hg. lia.
  - intros g. by rewrite He.
  - lia.
Qed.

(** An operation that returns, before the rest. *)
Lemma turn_call f o b p subs1 st subs2 p' k :
  aw_call o f (objects p) = (subs1, st, false) → turn f b (set_objects p st) subs2 p' k →
  turn f (AwaitThen o b) p (subs1 ++ subs2) p' k.
Proof.
  intros Ec [H1 H2 H3 H4 H5 H6 H7 H8 H9 H10]. apply aw_call_parked in Ec as Hp.
  assert (created p p' = created (set_objects p st) p') as Ed by done.
  split; try done; rewrite ?Ed; simpl; [|lia|].
  - unfold parked at 1. by rewrite Hp, <-!(assoc (++)), H4.
  - intros Ha. specialize (Ha o f (objects p)). by rewrite Ec in Ha.
Qed.

(** A fiber started, before the rest. *)
Lemma turn_go f c b p subs2 p' k :
  (∀ g, is_Some (fibers p !! g) → g < fresh p) → turn f b (snd (Go p c)) subs2 p' k →
  turn f (GoThen c b) p (fresh p :: subs2) p' k.
Proof.
  intros Hb [H1 H2 H3 H4 H5 H6 H7 H8 H9 H10]. simpl in *.
  assert (fibers p' !! fresh p = Some (MkFiber c false None PLANNED)) as Hnew.
  { rewrite H5 by lia. by rewrite lookup_insert_eq. }
  assert (created p p' = fresh p :: created (snd (Go p c)) p') as Ed.
  { unfold created. simpl. by replace (fresh p' - fresh p) with (S (fresh p' - S (fresh p))) by lia. }
  assert (total_turns p' (created p p') = turns c + total_turns p' (created (snd (Go p c)) p')) as Et.
  { rewrite Ed. unfold total_turns. cbn [sum_list_with]. unfold turns_of at 1. by rewrite Hnew. }
  split; try done; [lia| | | | |].
  - rewrite Ed. cbn [app]. by rewrite <-H4, <-Permutation_middle.
  - intros g Hg. rewrite H5 by lia. by rewrite lookup_insert_ne by lia.
  - intros g Hg. destruct (decide (g = fresh p)) as [->|Hne]; [by exists c|apply H6; lia].
  - rewrite Et. simpl. lia.
  - intros Ha. rewrite Et. simpl. specialize (H10 Ha). lia.
Qed.

Lemma run_body_turn f b p subs p' k :
  current_fiber p = Some f → (∀ g, is_Some (fibers p !! g) → g < fresh p) →
  run_body f b p = (subs, p', k) → turn f b p subs p' k.
Proof.
  revert p subs p' k. induction b as [|a b IH|o b IH|c _ b IH]; intros p subs p' k Hc Hb Hr; simpl in Hr.
  - simplify_eq. replace p' with (set_objects p' (objects p')) at 2 by (by destruct p').
    by apply turn_stop.
  - destruct (IH (emit p f a) subs p' k Hc Hb Hr) as [H1 H2 H3 H4 H5 H6 H7 H8 H9 H10].
    split; try done. intros g. rewrite H8, effects_of_emit, <-(assoc (++)). f_equal. by case_decide.
  - destruct (aw_call o f (objects p)) as [[subs1 st] susp] eqn:Ec. destruct susp.
    + unfold Suspend_current in Hr. simpl in Hr. rewrite Hc in Hr. simplify_eq.
      apply turn_stop; try done. by eapply aw_call_parked.
    + destruct (run_body f b (set_objects p st)) as [[subs2 p2] k2] eqn:E. simplify_eq.
      apply (turn_call f o b p subs1 st); [done|]. by apply IH.
  - unfold GoHere in Hr. rewrite Hc in Hr. simpl in Hr.
    destruct (run_body f b _) as [[subs2 p2] k2] eqn:E. simplify_eq.
    apply turn_go; [done|]. apply IH; [done| |exact E].
    intros g. simpl. destruct (decide (fresh p = g)) as [<-|Hne]; [lia|].
    rewrite lookup_insert_ne by done. intros Hg%Hb. lia.
Qed.

(** ** One turn of a fiber *)

(** A turn of fiber [f]: its routine has stopped, and then the fiber is gone or has been
    handed to the awaiter it left. *)
Section turn.
  Context f q p (x : AwaiterFiber O) (s1 : list fid) p1 (k : option (O * body O)).
  Context (Hok : fibers_ok p (f :: q)) (Ex : fibers p !! f = Some x).
  Context (Ht : turn f (fiber_coro_ x) (set_current p (Some f)) s1 p1 k).
  Context p2 (subs : list fid) (self : list fid).
  Context (Hne : ∀ g, g ≠ f → fibers p2 !! g = fibers p1 !! g).
  Context (Hself : self = match k with Some _ => [f] | None => [] end).
  Context (Hf : match k with
    | Some (o, b) => ∃ y, fibers p2 !! f = Some y ∧ fiber_coro_ y = b ∧ is_completed y = false ∧ state y = PLANNED
    | None => fibers p2 !! f = None
    end).
  Context (Hsame : current_fiber p2 = None ∧ failed p2 = failed p1 ∧ fresh p2 = fresh p1 ∧ log p2 = log p1).
  Context (Hperm : self ++ parked p1 ≡ₚ subs ++ parked p2).

Lemma turn_live g : g ∈ q ++ parked p → g < fresh p ∧ g ≠ f.
Proof using Hok.
  clear -Hok. intros Hg. pose proof (fo_nodup _ _ Hok) as Hnd. simpl in Hnd. apply NoDup_cons in Hnd as [Hfq _].
  split; [|by intros ->]. apply (fo_fresh _ _ Hok), (fo_live _ _ Hok). simpl. set_solver.
Qed.

Lemma turn_fresh : f < fresh p.
Proof using Hok Ex. apply (fo_fresh _ _ Hok). by exists x. Qed.

Lemma turn_new g : g ∈ created p p1 ↔ fresh p <= g < fresh p1.
Proof using Ht. apply (turn_created _ _ _ _ _ _ Ht). Qed.

(** Who is queued or parked after the turn. *)
Lemma turn_all : q ++ (s1 ++ subs) ++ parked p2 ≡ₚ self ++ (q ++ parked p) ++ created p p1.
Proof using Ht Hperm.
  pose proof (tn_perm _ _ _ _ _ _ Ht) as Hp. change (parked (set_current p (Some f))) with (parked p) in Hp.
  change (created (set_current p (Some f)) p1) with (created p p1) in Hp.
  rewrite <-(assoc (++) s1 subs), <-Hperm, (assoc (++) s1), (Permutation_app_comm s1 self).
  rewrite <-(assoc (++) self s1), <-Hp, <-(assoc (++) q).
  rewrite (assoc (++) q self), (Permutation_app_comm q self). by rewrite <-(assoc (++) self q).
Qed.

Lemma turn_nodup : NoDup (q ++ (s1 ++ subs) ++ parked p2).
Proof using All.
  rewrite turn_all. pose proof (fo_nodup _ _ Hok) as Hnd. simpl in Hnd. apply NoDup_cons in Hnd as [Hfq Hnd].
  pose proof turn_fresh. apply NoDup_app. split; [subst; destruct k; [apply NoDup_singleton|apply NoDup_nil_2]|].
  split; [|apply NoDup_app; split; [done|]; split; [|apply NoDup_seq]].
  - intros g Hg. assert (g = f) as -> by (subst; destruct k; set_solver).
    rewrite elem_of_app, turn_new. intros [?|?]; [done|lia].
  - intros g Hg%turn_live. rewrite turn_new. lia.
Qed.

Lemma turn_is_live g : is_Some (fibers p2 !! g) ↔ g ∈ q ++ (s1 ++ subs) ++ parked p2.
Proof using All.
  rewrite turn_all, elem_of_app, (elem_of_app _ (created p p1)), turn_new. destruct (decide (g = f)) as [->|Hgf].
  - pose proof turn_fresh. subst self. destruct k as [[o b]|].
    + destruct Hf as (y & -> & _). split; [set_solver|by eexists].
    + rewrite Hf. split; [by intros []|]. intros [Hn|[Hn|Hn]]; [set_solver| |lia].
      by apply turn_live in Hn as [].
  - rewrite Hne by done. destruct (decide (g < fresh p)) as [Hlt|Hge].
    + rewrite (tn_old _ _ _ _ _ _ Ht) by done. change (fibers (set_current p (Some f))) with (fibers p).
      rewrite (fo_live _ _ Hok). simpl. rewrite elem_of_cons. split; [intros [?|?]; [done|auto]|].
      intros [Hs|[?|?]]; [|auto|lia]. subst self. destruct k; set_solver.
    + split.
      * intros Hg%(tn_bound _ _ _ _ _ _ Ht). right. right. lia.
      * intros [Hs|[Hs|Hs]].
        -- subst self. destruct k; set_solver.
        -- apply turn_live in Hs as [? _]. lia.
        -- destruct (tn_new _ _ _ _ _ _ Ht g Hs) as [r ->]. eauto.
Qed.

Lemma turn_ok : fibers_ok p2 (q ++ s1 ++ subs).
Proof using All.
  destruct Hsame as (Hc & Hfl & Hfr & _). split; try done.
  - rewrite <-(assoc (++) q). apply turn_nodup.
  - intros g. rewrite <-(assoc (++) q). apply turn_is_live.
  - intros g Hg. rewrite Hfr. destruct (decide (g = f)) as [->|Hgf].
    + pose proof turn_fresh. pose proof (tn_fresh _ _ _ _ _ _ Ht) as Hle. simpl in Hle. lia.
    + rewrite Hne in Hg by done. by apply (tn_bound _ _ _ _ _ _ Ht).
  - intros g y Hy. destruct (decide (g = f)) as [->|Hgf].
    + destruct k as [[o b]|]; [|by rewrite Hf in Hy]. destruct Hf as (z & Ez & _ & ?). by simplify_eq.
    + rewrite Hne in Hy by done. destruct (decide (g < fresh p)) as [Hlt|Hge].
      * rewrite (tn_old _ _ _ _ _ _ Ht) in Hy by done. by apply (fo_running _ _ Hok g).
      * assert (g < fresh p1) by (apply (tn_bound _ _ _ _ _ _ Ht); eauto).
        destruct (tn_new _ _ _ _ _ _ Ht g ltac:(simpl; lia)) as [r Er]. rewrite Er in Hy. by simplify_eq.
  - rewrite Hfl, (tn_failed _ _ _ _ _ _ Ht). apply Hok.
Qed.

(** The work left: a turn less, and what the operations that did not suspend skip. *)
Lemma turn_total_of : total_turns p2 (q ++ (s1 ++ subs) ++ parked p2) =
  total_turns p1 (created p p1) + rest_turns k + total_turns p (q ++ parked p).
Proof using All.
  unfold total_turns. rewrite turn_all, sum_list_with_app, (sum_list_with_app _ _ (created p p1)).
  assert (sum_list_with (turns_of p2) self = rest_turns k) as ->.
  { rewrite Hself. unfold rest_turns. destruct k as [[o b]|]; [|done]. simpl. unfold turns_of.
    destruct Hf as (y & -> & -> & _). lia. }
  rewrite (sum_list_with_ext (turns_of p2) (turns_of p) (q ++ parked p)).
  2: { intros g [Hlt Hgf]%turn_live. unfold turns_of. by rewrite Hne, (tn_old _ _ _ _ _ _ Ht). }
  rewrite (sum_list_with_ext (turns_of p2) (turns_of p1) (created p p1)); [lia|].
  intros g Hg%turn_new. unfold turns_of. rewrite Hne; [done|]. pose proof turn_fresh. lia.
Qed.

Lemma turn_total : S (total_turns p2 (q ++ (s1 ++ subs) ++ parked p2)) <= total_turns p (f :: q ++ parked p).
Proof using All.
  rewrite turn_total_of. unfold total_turns at 3. cbn [sum_list_with]. unfold turns_of at 1. rewrite Ex.
  pose proof (tn_turns _ _ _ _ _ _ Ht) as Hle. fold (total_turns p (q ++ parked p)).
  change (created (set_current p (Some f)) p1) with (created p p1) in Hle. lia.
Qed.

Lemma turn_total_exact : always_suspends (O := O) (St := St) →
  S (total_turns p2 (q ++ (s1 ++ subs) ++ parked p2)) = total_turns p (f :: q ++ parked p).
Proof using All.
  intros Ha. rewrite turn_total_of. unfold total_turns at 3. cbn [sum_list_with]. unfold turns_of at 1.
  rewrite Ex. pose proof (tn_exact _ _ _ _ _ _ Ht Ha) as Hle. fold (total_turns p (q ++ parked p)).
  change (created (set_current p (Some f)) p1) with (created p p1) in Hle. lia.
Qed.

Lemma turn_remaining g : g < fresh p →
  effects_of p2 g ++ remaining p2 g = effects_of p g ++ remaining p g.
Proof using All.
  intros Hg. destruct Hsame as (_ & _ & _ & Hl). unfold effects_of at 1. rewrite Hl. fold (effects_of p1 g).
  pose proof (tn_effects _ _ _ _ _ _ Ht g) as He. destruct (decide (f = g)) as [<-|Hgf].
  - assert (remaining p2 f = rest_effects k) as ->.
    { unfold remaining. destruct k as [[o b]|]; [by destruct Hf as (y & -> & -> & _)|by rewrite Hf]. }
    rewrite He. unfold remaining. by rewrite Ex.
  - rewrite !app_nil_r in He. rewrite He. unfold remaining.
    by rewrite Hne, (tn_old _ _ _ _ _ _ Ht) by done.
Qed.
End turn.

(** What a task does to the queue and the program. *)
Record task_turn f q p subs p' : Prop := TaskTurn {
  tt_ok : fibers_ok p' (q ++ subs);
  tt_total : S (total_turns p' (q ++ subs ++ parked p')) <= total_turns p (f :: q ++ parked p);
  tt_exact : always_suspends (O := O) (St := St) →
    S (total_turns p' (q ++ subs ++ parked p')) = total_turns p (f :: q ++ parked p);
  tt_effects : ∀ g, g < fresh p → effects_of p' g ++ remaining p' g = effects_of p g ++ remaining p g;
  tt_fresh : fresh p <= fresh p';
  tt_created : fresh p' + length (q ++ parked p) <= fresh p + length (q ++ subs ++ parked p')
}.

(** The lemmas of the section above, together. *)
Lemma turn_task f q p x s1 p1 k p2 subs self :
  fibers_ok p (f :: q) → fibers p !! f = Some x →
  turn f (fiber_coro_ x) (set_current p (Some f)) s1 p1 k →
  (∀ g, g ≠ f → fibers p2 !! g = fibers p1 !! g) →
  self = match k with Some _ => [f] | None => [] end →
  match k with
  | Some (o, b) => ∃ y, fibers p2 !! f = Some y ∧ fiber_coro_ y = b ∧ is_completed y = false ∧ state y = PLANNED
  | None => fibers p2 !! f = None
  end →
  current_fiber p2 = None ∧ failed p2 = failed p1 ∧ fresh p2 = fresh p1 ∧ log p2 = log p1 →
  self ++ parked p1 ≡ₚ subs ++ parked p2 → task_turn f q p (s1 ++ subs) p2.
Proof.
  intros Hok Ex Ht Hne Hself Hf Hsame Hperm.
  pose proof (tn_fresh _ _ _ _ _ _ Ht) as Hfr. simpl in Hfr. split.
  - by eapply turn_ok.
  - by eapply turn_total.
  - by eapply turn_total_exact.
  - intros g Hg. by eapply turn_remaining.
  - destruct Hsame as (_ & _ & -> & _). done.
  - destruct Hsame as (_ & _ & -> & _).
    rewrite (turn_all f q p x s1 p1 k Ht p2 subs self Hperm), !length_app.
    unfold created. rewrite length_seq. lia.
Qed.

(** The fiber goes to its awaiter behind what it submitted, or is gone; the work left is
    at least one turn less; no effect is lost or repeated. *)
Lemma fiber_task_turn f q p subs p' :
  fibers_ok p (f :: q) → fiber_task f p = (subs, p') → task_turn f q p subs p'.
Proof.
  intros Hok Hr.
  assert (is_Some (fibers p !! f)) as [x Ex] by (apply (fo_live _ _ Hok); set_solver).
  destruct (fo_running _ _ Hok f x Ex) as [Hx1 Hx2].
  unfold fiber_task, Run, Switch in Hr. rewrite Ex, Hx1 in Hr.
  destruct (run_body f (fiber_coro_ x) (set_current p (Some f))) as [[s1 p1] k] eqn:Eb.
  apply run_body_turn in Eb as Ht; [|done|apply Hok].
  simpl in Hr. rewrite lookup_insert_eq in Hr.
  destruct k as [[o b]|]; simpl in Hr; [|rewrite Hx2 in Hr; simpl in Hr; injection Hr as <- <-].
  - destruct (aw_suspend_parked o f (objects p1)) as (subs' & st & Es & Hperm).
    unfold call_awaiter in Hr. simpl in Hr. rewrite Es in Hr. injection Hr as <- <-.
    eapply (turn_task f q p x s1 p1 (Some (o, b)) _ subs' [f]); try done.
    + intros g Hg. simpl. by rewrite lookup_insert_ne.
    + simpl. rewrite lookup_insert_eq. by eexists.
  - rewrite <-(app_nil_r s1). eapply (turn_task f q p x s1 p1 None _ [] []); try done.
    + intros g Hg. simpl. by rewrite lookup_delete_ne, lookup_insert_ne.
    + simpl. by rewrite lookup_delete_eq.
Qed.

(** A program whose queue is empty: every live fiber is parked. *)
Lemma nothing_queued p : fibers_ok p [] → parked p = [] → fibers p = ∅.
Proof.
  intros Hok Hp. apply map_eq. intros g. rewrite lookup_empty. apply eq_None_not_Some.
  intros Hg%(fo_live _ _ Hok). rewrite Hp in Hg. by apply elem_of_nil in Hg.
Qed.

(** On the abstract FIFO executor, as many runs as the fibers have turns left are enough:
    the queue becomes empty, nothing undefined happens on the way, the fibers still
    there are parked, and each fiber has had its effects once and in program order up
    to where it is. *)
Lemma fibers_spec_run p q k :
  fibers_ok p q → total_turns p (q ++ parked p) <= k →
  ∃ ran p', spec_run fiber_task k q p = (ran, [], p') ∧ fibers_ok p' [] ∧
    length ran + total_turns p' (parked p') <= total_turns p (q ++ parked p) ∧
    (always_suspends (O := O) (St := St) →
      length ran + total_turns p' (parked p') = total_turns p (q ++ parked p)) ∧
    ∀ f, f < fresh p → effects_of p' f ++ remaining p' f = effects_of p f ++ remaining p f.
Proof.
  revert p q. induction k as [|k IH]; intros p [|f q] Hok Hk.
  1, 3: exists [], p; split; [done|]; split; [done|]; simpl; split; [lia|]; by split.
  - exfalso. destruct (fiber_task f p) as [subs p1] eqn:E.
    pose proof (tt_total _ _ _ _ _ (fiber_task_turn f q p subs p1 Hok E)). simpl in *. lia.
  - cbn [spec_run]. destruct (fiber_task f p) as [subs p1] eqn:E.
    destruct (fiber_task_turn f q p subs p1 Hok E) as [Hok1 Ht Hx He Hfr _].
    cbn [app] in Hk |- *. rewrite (assoc (++)) in Ht, Hx.
    destruct (IH p1 (q ++ subs) Hok1 ltac:(lia)) as (ran & p' & Hr & Hok' & Hlen & Hexact & Heff).
    rewrite Hr. exists (f :: ran), p'. split; [done|]. split; [done|]. cbn [length]. split; [lia|]. split.
    + intros Ha. specialize (Hx Ha). specialize (Hexact Ha). lia.
    + intros g Hg. rewrite Heff by lia. by apply He.
Qed.

Lemma turns_pos b : 1 <= turns b.
Proof. induction b; simpl; lia. Qed.

Lemma total_turns_length p q : fibers_ok p q → length (q ++ parked p) <= total_turns p (q ++ parked p).
Proof.
  intros Hok. assert (∀ f, f ∈ q ++ parked p → 1 <= turns_of p f) as Hq.
  { intros f Hf. apply (fo_live _ _ Hok) in Hf as [x Ex]. unfold turns_of. rewrite Ex. apply turns_pos. }
  clear Hok. unfold total_turns. induction (q ++ parked p) as [|f l IH]; simpl; [lia|].
  specialize (IH ltac:(set_solver)). specialize (Hq f ltac:(set_solver)). lia.
Qed.
End fiber_facts.

(** ** Yield *)

Inductive yield_op := Yield.

(** [YieldAwaiter::AwaitSuspend]: schedule the handle it is given. *)
Definition YieldAwaitSuspend (h : StoppedFiber) : option (list fid) :=
  '(f, _) ← Release h; Some [f].

(** [Yield]: always suspends; there is no object. *)
#[export] Instance yield_awaiters : Awaiters yield_op unit := {
  aw_call _ _ u := ([], u, true);
  aw_suspend _ h u := subs ← YieldAwaitSuspend h; Some (subs, u)
}.

#[export, refine] Instance yield_laws : AwaiterLaws yield_op unit := {
  aw_parked _ := []
}.
Proof.
  - intros o f u subs u' b [= <- <- <-]. done.
  - intros o f u. by exists [f], u.
Defined.

Abbreviation YieldThen := (AwaitThen Yield).

(** Fiber 0 starts fiber 2 and yields twice; fiber 1 yields once. *)
Definition demo_program : program yield_op unit :=
  MkProgram {[ 0 := MkFiber (Effect 1 (GoThen (Effect 7 (YieldThen (Effect 8 End)))
      (YieldThen (Effect 2 (YieldThen (Effect 3 End)))))) false None PLANNED;
    1 := MkFiber (Effect 4 (YieldThen (Effect 5 End))) false None PLANNED ]} 2 None tt [] false.

Lemma demo_ok : fibers_ok demo_program [0; 1].
Proof.
  assert (∀ f x, fibers demo_program !! f = Some x → (f = 0 ∨ f = 1) ∧ is_completed x = false ∧ state x = PLANNED) as Hd.
  { intros f x Hf. simpl in Hf. apply lookup_insert_Some in Hf as [[<- <-]|[_ Hf]]; [auto|].
    apply lookup_singleton_Some in Hf as [<- <-]. auto. }
  split; try done.
  - repeat (apply NoDup_cons; split; [set_solver|]). apply NoDup_nil_2.
  - intros f. simpl. rewrite !elem_of_cons, elem_of_nil. split.
    + intros [x Hx]. destruct (Hd f x Hx). tauto.
    + intros [->|[->|[]]]; by eexists.
  - intros f [x Hx]. destruct (Hd f x Hx) as [[->| ->] _]; simpl; lia.
  - intros f x Hx. by destruct (Hd f x Hx).
Qed.
