(* ===== verification/FiberRun.v ===== *)
(** * Fibers on the manual executor

    The fibers of [Fiber.v] as the tasks of [ManualExecutor.v], over any queue with
    the interface of [Fifo.v] and over the intrusive list in particular: the node of
    a fiber's task is linked at the fiber's address. *)

From stdpp Require Import prelude list gmap.
From S2P Require Import Prelude.
From S2P Require Import Fifo.
From S2P Require Import IntrusiveList.
From S2P Require Import ManualExecutor.
From S2P Require Import Fiber.

Section drain.
  Context {O St : Type} `{AwaiterLaws O St}.
  Implicit Types (p : program O St) (q : list fid).

Section addresses.
  Context (bound : nat).

(** The addresses that the run may use. *)
Definition mapped (f : fid) : Prop := f < bound.

(** Every turn that is left either ends a fiber or is the first of a fiber or follows
    an operation, so the turns bound the fibers still to be created. *)
Lemma fibers_disciplined k p q :
  fibers_ok p q → (Z.of_nat (total_turns p (q ++ parked p)) < size_bound)%Z →
  fresh p + total_turns p (q ++ parked p) <= bound + length (q ++ parked p) →
  disciplined_run fiber_task mapped k q p.
Proof.
  revert p q. induction k as [|k IH]; intros p [|f q] Hok Hsz Hb; try done.
  cbn [disciplined_run]. destruct (fiber_task f p) as [subs p1] eqn:E.
  destruct (fiber_task_turn f q p subs p1 Hok E) as [Hok1 Ht _ _ Hfr Hc].
  pose proof (total_turns_length p1 (q ++ subs) Hok1) as Hlen.
  cbn [length app] in Hb, Hsz. rewrite (assoc (++)) in Ht, Hc. split; [|split; [|split]].
  - intros g Hg. unfold mapped. assert (g < fresh p1); [|lia].
    apply (fo_fresh _ _ Hok1), (fo_live _ _ Hok1). set_solver.
  - pose proof (fo_nodup _ _ Hok1) as Hnd. by apply NoDup_app in Hnd as [? _].
  - rewrite !length_app in Hlen. lia.
  - apply IH; [done|lia|]. lia.
Qed.
End addresses.

Context {Q : Type} `{FifoLaws Q fid}.

(** [Drain] of a program of fibers, whatever their awaiters. *)
Lemma fibers_drain bound fuel ex p q :
  manual_wf ex q → (∀ f, f < bound → fq_live (tasks ex) f) → fibers_ok p q →
  (Z.of_nat (total_turns p (q ++ parked p)) < size_bound)%Z →
  fresh p + total_turns p (q ++ parked p) <= bound + length (q ++ parked p) →
  total_turns p (q ++ parked p) < fuel →
  ∃ ran ex' p', spec_run fiber_task (total_turns p (q ++ parked p)) q p = (ran, [], p') ∧
    Drain fiber_task fuel ex p = Ret (Z.of_nat (length ran), ex', p') ∧
    manual_wf ex' [] ∧ fibers_ok p' [] ∧
    length ran + total_turns p' (parked p') <= total_turns p (q ++ parked p) ∧
    (always_suspends (O := O) (St := St) →
      length ran + total_turns p' (parked p') = total_turns p (q ++ parked p)) ∧
    ∀ f, f < fresh p → effects_of p' f ++ remaining p' f = effects_of p f ++ remaining p f.
Proof.
  intros Hwf Hl Hok Hsz Hb Hf. set (n := total_turns p (q ++ parked p)) in *.
  pose proof (fibers_disciplined bound n p q Hok Hsz Hb) as Hd.
  destruct (fibers_spec_run p q n Hok ltac:(lia)) as (ran & p' & Er & Hok' & Hn & Hx & He).
  destruct (Drain_loop_spec fiber_task (mapped bound) n fuel 0 ex q p)
    as (ex' & E & Hwf' & _); rewrite ?Er; try done; unfold is_size; [lia..|].
  rewrite Er in E. simpl in E. exists ran, ex', p'. by split_and!.
Qed.
End drain.

Section run.
  Context {Q : Type} `{FifoLaws Q fid}.
  Implicit Types (p : program yield_op unit).

(** Fibers run to completion on the manual executor: [Drain] empties the queue
    after exactly as many tasks as the routines have turns (one per [Yield] and one per
    fiber, those started by [Go] included) and returns that number; no assertion fails
    on the way, in the queue, the executor or the fibers; every fiber is deleted, and
    has had its effects once and in program order. *)
Lemma fibers_run_to_completion bound fuel ex p q :
  manual_wf ex q → (∀ f, f < bound → fq_live (tasks ex) f) → fibers_ok p q →
  (Z.of_nat (total_turns p q) < size_bound)%Z → fresh p + total_turns p q <= bound + length q →
  total_turns p q < fuel →
  ∃ ex' p', Drain fiber_task fuel ex p = Ret (Z.of_nat (total_turns p q), ex', p') ∧
    manual_wf ex' [] ∧ failed p' = false ∧ fibers p' = ∅ ∧
    ∀ f, f < fresh p → effects_of p' f = effects_of p f ++ remaining p f.
Proof.
  intros Hwf Hl Hok Hsz Hb Hf.
  destruct (fibers_drain bound fuel ex p q) as (ran & ex' & p' & _ & E & Hwf' & Hok' & _ & Hx & He);
    unfold parked in *; simpl; rewrite ?app_nil_r; try done.
  simpl in Hx. rewrite app_nil_r, Nat.add_0_r in Hx.
  exists ex', p'. split; [by rewrite E, Hx|]. split; [done|]. split; [apply Hok'|].
  assert (fibers p' = ∅) as Hn by (by apply nothing_queued). split; [done|].
  intros f Hfr. rewrite <-He by done. unfold remaining. by rewrite Hn, lookup_empty, app_nil_r.
Qed.
End run.

(** The two fibers of [demo_program] and the one they start, linked through the
    intrusive list. *)
Definition demo_queue : nodes * IntrusiveList :=
  ({[ 0 := Some 1; 1 := None; 2 := None; 3 := None; 4 := None; 5 := None; 6 := None ]},
   MkList 2 (Some 0) (Some 1)).

Lemma fibers_run_to_completion_witness :
  ∃ ex' p', Drain fiber_task 8 (MkManual demo_queue 2) demo_program = Ret (7%Z, ex', p') ∧
    manual_wf (A := fid) ex' [] ∧ failed p' = false ∧ fibers p' = ∅ ∧
    ∀ f, f < 2 → effects_of p' f = effects_of demo_program f ++ remaining demo_program f.
Proof.
  apply (fibers_run_to_completion 7 8 (MkManual demo_queue 2) demo_program [0; 1]).
  - split; [|done..]. split; try done; [split; [reflexivity|by eexists]|apply demo_ok].
  - intros f Hf. do 7 (destruct f as [|f]; [vm_compute; by eexists|]). lia.
  - apply demo_ok.
  - reflexivity.
  - vm_compute. lia.
  - vm_compute. lia.
Defined.
