(* ===== verification/SyncFiber.v ===== *)
(** * fiber/sync on the manual executor: programs of fibers that synchronise

    The fiber mutexes, wait groups and events as the objects of the fibers of [Fiber.v].
    An operation runs its body, the one of AsyncMutex.v, WaitGroup.v or Event.v, between
    the construction of its guard and the guard's release: on one thread nothing comes
    in between, so that the operation is one function here and the spinlock is free
    whenever a fiber starts one.  Objects exist from the start, in their initial state,
    one for each number. *)

From stdpp Require Import prelude list gmap.
From S2P Require Import Prelude.
From S2P Require Import Fifo.
From S2P Require Import IntrusiveList.
From S2P Require Import ManualExecutor.
From S2P Require Import Parking.
From S2P Require Import AsyncMutex.
From S2P Require Import WaitGroup.
From S2P Require Import Event.
From S2P Require Import Fiber.
From S2P Require Import FiberRun.

(** ** The objects of one kind *)

Section family.
  Context {D Op U : Type} `{PrimitiveLaws D Op U} (d0 : D).

(** The fields of an object and its waiters. *)
Abbreviation object := (D * list fid)%type.

Definition get_object (m : gmap nat object) (i : nat) : object := default (d0, []) (m !! i).

(** An operation on object [i]: its body, then either the suspension or the wake-ups. *)
Definition call_object (i : nat) (op : Op) (m : gmap nat object) : list fid * gmap nat object * bool :=
  let '(d, ws) := get_object m i in
  let '(d', ws', v) := crit op d ws in
  match v with
  | Park => ([], <[i := (d', ws')]> m, true)
  | Leave inside outside => (inside ++ outside, <[i := (d', ws')]> m, false)
  end.

(** The awaiter's [AwaitSuspend]: [Park], and the guard's [Release]. *)
Definition park_object (i : nat) (h : StoppedFiber) (m : gmap nat object) : option (gmap nat object) :=
  '(f, _) ← Release h;
  let '(d, ws) := get_object m i in Some (<[i := (d, ws ++ [f])]> m).

Definition parked_in (m : gmap nat object) : list fid := map_to_list m ≫= (λ x, snd (snd x)).

Lemma get_insert m i j x : get_object (<[i := x]> m) j = (if decide (i = j) then x else get_object m j).
Proof.
  unfold get_object. case_decide as Hij; [subst; by rewrite lookup_insert_eq|by rewrite lookup_insert_ne].
Qed.

Lemma parked_split m i : parked_in m ≡ₚ snd (get_object m i) ++ parked_in (delete i m).
Proof.
  unfold get_object, parked_in. destruct (m !! i) as [x|] eqn:E; simpl.
  - by rewrite <-(map_to_list_delete m i x E).
  - by rewrite delete_id.
Qed.

Lemma parked_insert m i d ws :
  parked_in (<[i := (d, ws)]> m) ++ snd (get_object m i) ≡ₚ parked_in m ++ ws.
Proof.
  rewrite (parked_split m i), (parked_split (<[i := (d, ws)]> m) i), delete_insert_eq, get_insert, decide_True by done.
  simpl. set (rest := parked_in (delete i m)). set (old := snd (get_object m i)).
  rewrite (Permutation_app_comm _ old), (Permutation_app_comm ws rest). by rewrite (assoc (++)).
Qed.

(** A fiber is parked in one object, once. *)
Lemma parked_once m : NoDup (parked_in m) →
  (∀ i, NoDup (snd (get_object m i))) ∧
  ∀ f i j, f ∈ snd (get_object m i) → f ∈ snd (get_object m j) → i = j.
Proof.
  intros Hnd. assert (∀ i, NoDup (snd (get_object m i) ++ parked_in (delete i m))) as Hi.
  { intros i. by rewrite <-parked_split. }
  split; [intros i; by destruct (proj1 (NoDup_app _ _) (Hi i))|].
  intros f i j Hf Hj. destruct (decide (i = j)) as [|Hne]; [done|exfalso].
  destruct (proj1 (NoDup_app _ _) (Hi i)) as (_ & Hd & _). apply (Hd f Hf).
  rewrite (parked_split (delete i m) j), elem_of_app. left. unfold get_object in *.
  by rewrite lookup_delete_ne.
Qed.

Lemma call_object_parked i op m subs m' b :
  call_object i op m = (subs, m', b) → parked_in m ≡ₚ subs ++ parked_in m'.
Proof.
  intros Hc. unfold call_object in Hc. destruct (get_object m i) as [d ws] eqn:Eo.
  destruct (crit op d ws) as [[d' ws'] v] eqn:Ec. apply crit_waiters in Ec.
  pose proof (parked_insert m i d' ws') as Hp. rewrite Eo in Hp. simpl in Hp.
  destruct v as [|ins outs]; simplify_eq; simpl.
  - symmetry. by apply Permutation_app_inv_r in Hp.
  - apply (Permutation_app_inv_r ws'). rewrite <-Hp.
    by rewrite (Permutation_app_comm (ins ++ outs) (parked_in _)), !(assoc (++)).
Qed.

Lemma park_object_parked i f m :
  ∃ m', park_object i (Some f) m = Some m' ∧ f :: parked_in m ≡ₚ parked_in m'.
Proof.
  unfold park_object. simpl. destruct (get_object m i) as [d ws] eqn:Eo. eexists. split; [done|].
  pose proof (parked_insert m i d (ws ++ [f])) as Hp. rewrite Eo in Hp. simpl in Hp.
  rewrite (assoc (++)), (Permutation_app_comm (parked_in m ++ ws)), (assoc (++)) in Hp.
  symmetry. by apply Permutation_app_inv_r in Hp.
Qed.
End family.

(** ** Mutexes, wait groups and events *)

Inductive sync_op :=
| SYield
| OnMutex (m : nat) (op : mutex_op)
| OnGroup (g : nat) (op : wg_op)
| OnEvent (e : nat) (op : event_op).

Record sync_objects := MkSync {
  mutexes : gmap nat (bool * list fid);
  groups : gmap nat (Z * list fid);
  events : gmap nat (unit * list fid)
}.

(** A mutex is unlocked at first, and a group's counter zero. *)
Abbreviation get_mutex := (get_object false).
Abbreviation get_group := (get_object 0%Z).
Abbreviation get_event := (get_object tt).

Definition sync_call (o : sync_op) (f : fid) (st : sync_objects) : list fid * sync_objects * bool :=
  match o with
  | SYield => ([], st, true)
  | OnMutex m op =>
      let '(subs, x, b) := call_object false m op (mutexes st) in (subs, MkSync x (groups st) (events st), b)
  | OnGroup g op =>
      let '(subs, x, b) := call_object 0%Z g op (groups st) in (subs, MkSync (mutexes st) x (events st), b)
  | OnEvent e op =>
      let '(subs, x, b) := call_object tt e op (events st) in (subs, MkSync (mutexes st) (groups st) x, b)
  end.

Definition sync_suspend (o : sync_op) (h : StoppedFiber) (st : sync_objects) : option (list fid * sync_objects) :=
  match o with
  | SYield => subs ← YieldAwaitSuspend h; Some (subs, st)
  | OnMutex m _ => x ← park_object false m h (mutexes st); Some ([], MkSync x (groups st) (events st))
  | OnGroup g _ => x ← park_object 0%Z g h (groups st); Some ([], MkSync (mutexes st) x (events st))
  | OnEvent e _ => x ← park_object tt e h (events st); Some ([], MkSync (mutexes st) (groups st) x)
  end.

#[export] Instance sync_awaiters : Awaiters sync_op sync_objects := {
  aw_call := sync_call;
  aw_suspend := sync_suspend
}.

Definition sync_parked (st : sync_objects) : list fid :=
  parked_in (mutexes st) ++ parked_in (groups st) ++ parked_in (events st).

Lemma sync_call_parked o f st subs st' b :
  sync_call o f st = (subs, st', b) → sync_parked st ≡ₚ subs ++ sync_parked st'.
Proof.
  intros Hc. unfold sync_parked. destruct o as [|m op|g op|e op]; simpl in Hc; [by simplify_eq|..].
  - destruct (call_object false m op (mutexes st)) as [[ss x] b'] eqn:E. simplify_eq. simpl.
    apply call_object_parked in E as ->. by rewrite <-(assoc (++)).
  - destruct (call_object 0%Z g op (groups st)) as [[ss x] b'] eqn:E. simplify_eq. simpl.
    apply call_object_parked in E as ->.
    by rewrite !(assoc (++)), (Permutation_app_comm (parked_in (mutexes st)) subs).
  - destruct (call_object tt e op (events st)) as [[ss x] b'] eqn:E. simplify_eq. simpl.
    apply call_object_parked in E as ->.
    by rewrite !(assoc (++)), (Permutation_app_comm _ subs), !(assoc (++)).
Qed.

Lemma sync_suspend_parked o f st : ∃ subs st', sync_suspend o (Some f) st = Some (subs, st') ∧
  f :: sync_parked st ≡ₚ subs ++ sync_parked st'.
Proof.
  unfold sync_parked. destruct o as [|m op|g op|e op]; cbn [sync_suspend]; [by exists [f], st|..].
  - destruct (park_object_parked false m f (mutexes st)) as (x & -> & Hp). simpl. do 2 eexists.
    split; [done|]. simpl. by rewrite <-Hp.
  - destruct (park_object_parked 0%Z g f (groups st)) as (x & -> & Hp). simpl. do 2 eexists.
    split; [done|]. simpl. rewrite <-Hp. cbn [app]. by rewrite <-Permutation_middle.
  - destruct (park_object_parked tt e f (events st)) as (x & -> & Hp). simpl. do 2 eexists.
    split; [done|]. simpl. rewrite <-Hp, !(assoc (++)). by rewrite <-Permutation_middle.
Qed.

#[export, refine] Instance sync_laws : AwaiterLaws sync_op sync_objects := {
  aw_parked := sync_parked
}.
Proof.
  - exact sync_call_parked.
  - exact sync_suspend_parked.
Defined.

(** ** Programs of synchronising fibers end or wait *)

Section run.
  Context {Q : Type} `{FifoLaws Q fid}.
  Implicit Types (p : program sync_op sync_objects).

(** On the manual executor, a program of fibers that compute, [Yield], [Go] and use
    mutexes, wait groups and events in any way leaves no work behind: [Drain] empties the
    queue after at most as many tasks as the routines have turns and returns that number;
    no assertion fails; the fibers still there are exactly those parked in an object, each
    in one; and every fiber has had its effects, in program order, up to where it is. *)
Lemma sync_fibers_drain bound fuel ex p q :
  manual_wf ex q → (∀ f, f < bound → fq_live (tasks ex) f) → fibers_ok p q →
  (Z.of_nat (total_turns p (q ++ parked p)) < size_bound)%Z →
  fresh p + total_turns p (q ++ parked p) <= bound + length (q ++ parked p) →
  total_turns p (q ++ parked p) < fuel →
  ∃ n ex' p', Drain fiber_task fuel ex p = Ret (Z.of_nat n, ex', p') ∧
    n <= total_turns p (q ++ parked p) ∧ manual_wf ex' [] ∧ failed p' = false ∧
    NoDup (sync_parked (objects p')) ∧ (∀ f, is_Some (fibers p' !! f) ↔ f ∈ sync_parked (objects p')) ∧
    ∀ f, f < fresh p → effects_of p' f ++ remaining p' f = effects_of p f ++ remaining p f.
Proof.
  intros Hwf Hl Hok Hsz Hb Hf.
  destruct (fibers_drain bound fuel ex p q Hwf Hl Hok Hsz Hb Hf)
    as (ran & ex' & p' & _ & E & Hwf' & [Hnd Hlive _ _ _ Hfail] & Hn & _ & He).
  exists (length ran), ex', p'. split_and!; [done|lia|done..].
Qed.
End run.

(** Fiber 0 starts a fiber and waits for it in group 0, and then for an event that
    nobody fires. *)
Definition waiting_program : program sync_op sync_objects :=
  MkProgram {[ 0 := MkFiber (AwaitThen (OnGroup 0 (Add 1))
      (GoThen (Effect 7 (AwaitThen (OnGroup 0 Done) End)) (AwaitThen (OnGroup 0 Wait)
        (Effect 8 (AwaitThen (OnEvent 0 WaitEvent) (Effect 9 End)))))) false None PLANNED ]}
    1 None (MkSync ∅ ∅ ∅) [] false.

Definition waiting_queue : nodes * IntrusiveList :=
  (gset_to_gmap None (set_seq 0 6), MkList 1 (Some 0) (Some 0)).

Lemma waiting_ok : fibers_ok waiting_program [0].
Proof.
  assert (∀ f x, fibers waiting_program !! f = Some x → f = 0 ∧ is_completed x = false ∧ state x = PLANNED) as Hd.
  { intros f x Hf. simpl in Hf. by apply lookup_singleton_Some in Hf as [<- <-]. }
  split; try done.
  - apply NoDup_singleton.
  - intros f. change ([0] ++ parked waiting_program) with [0]. rewrite list_elem_of_singleton. split.
    + by intros [x []%Hd].
    + intros ->. by eexists.
  - intros f [x [-> _]%Hd]. simpl. lia.
  - intros f x []%Hd. done.
Qed.

Lemma sync_fibers_drain_witness :
  ∃ n ex' p', Drain fiber_task 7 (MkManual waiting_queue 1) waiting_program = Ret (Z.of_nat n, ex', p') ∧
    n <= 6 ∧ manual_wf (A := fid) ex' [] ∧ failed p' = false ∧
    NoDup (sync_parked (objects p')) ∧ (∀ f, is_Some (fibers p' !! f) ↔ f ∈ sync_parked (objects p')) ∧
    ∀ f, f < 1 → effects_of p' f ++ remaining p' f = effects_of waiting_program f ++ remaining waiting_program f.
Proof.
  apply (sync_fibers_drain 6 7 (MkManual waiting_queue 1) waiting_program [0]).
  - split; [|done..]. split; try done; [by eexists|apply waiting_ok].
  - intros f Hf. do 6 (destruct f as [|f]; [vm_compute; by eexists|]). lia.
  - apply waiting_ok.
  - reflexivity.
  - vm_compute. lia.
  - vm_compute. lia.
Defined.

(** It ends with fiber 0 in the event, having had effect 8 and not 9. *)
Example waiting_program_run :
  match Drain fiber_task 7 (MkManual waiting_queue 1) waiting_program with
  | Ret (n, _, p') => n = 3%Z ∧ sync_parked (objects p') = [0] ∧ log p' = [(1, 7); (0, 8)]
  | _ => False
  end.
Proof. by vm_compute. Qed.
