(* ===== verification/Obligations.v ===== *)
(** * Fibers that meet their obligations

    Programs of SyncFiber.v whose fibers use mutexes and wait groups.  Who locks a mutex
    has to unlock it, and who adds to a group owes it that many calls of [Done], which it
    may leave to the fibers it starts.  When a fiber waits only for objects above all
    those it owes something to, in some order of the objects, the program cannot
    deadlock on the manual executor. *)

From stdpp Require Import prelude gmap gmultiset list.
From S2P Require Import Prelude.
From S2P Require Import Fifo.
From S2P Require Import IntrusiveList.
From S2P Require Import ManualExecutor.
From S2P Require Import Parking.
From S2P Require Import AsyncMutex.
From S2P Require Import WaitGroup.
From S2P Require Import Fiber.
From S2P Require Import FiberRun.
From S2P Require Import SyncFiber.

(** ** The discipline *)

Inductive blocker := AMutex (m : nat) | AGroup (g : nat).

#[export] Instance blocker_eq : EqDecision blocker.
Proof. solve_decision. Defined.

#[export, refine] Instance blocker_countable : Countable blocker :=
  inj_countable' (λ X, match X with AMutex m => inl m | AGroup g => inr g end)
    (λ x, match x with inl m => AMutex m | inr g => AGroup g end) _.
Proof. by intros []. Defined.

(** An [Unlock] or a [Done] that is due, for each occurrence. *)
Abbreviation duties := (gmultiset blocker).

(** What is owed once the wait for an object is over. *)
Definition after (X : blocker) (D : duties) : duties :=
  match X with AMutex _ => {[+ X +]} ⊎ D | AGroup _ => D end.

Abbreviation sync_program := (program sync_op sync_objects).

Section discipline.
  Context (level : blocker → nat).

Definition below (X : blocker) (D : duties) : Prop := ∀ Y, Y ∈ D → level Y < level X.

(** The routine, with the duties it has, waits only below the objects it owes to, and has
    met its duties at the end, but those it has left to routines it started. *)
Fixpoint dutiful (D : duties) (b : body sync_op) : Prop :=
  match b with
  | End => D = ∅
  | Effect _ k => dutiful D k
  | AwaitThen SYield k => dutiful D k
  | AwaitThen (OnMutex m Lock) k => below (AMutex m) D ∧ dutiful (after (AMutex m) D) k
  | AwaitThen (OnMutex m Unlock) k => AMutex m ∈ D ∧ dutiful (D ∖ {[+ AMutex m +]}) k
  | AwaitThen (OnGroup g (Add n)) k => ∃ c : nat, n = Z.of_nat c ∧ dutiful (c *: {[+ AGroup g +]} ⊎ D) k
  | AwaitThen (OnGroup g Done) k => AGroup g ∈ D ∧ dutiful (D ∖ {[+ AGroup g +]}) k
  | AwaitThen (OnGroup g Wait) k => below (AGroup g) D ∧ dutiful (after (AGroup g) D) k
  | AwaitThen (OnEvent _ _) _ => False
  | GoThen c k => ∃ left, left ⊆ D ∧ dutiful left c ∧ dutiful (D ∖ left) k
  end.

Definition todo (p : sync_program) (f : fid) : option (body sync_op) := fiber_coro_ <$> fibers p !! f.

Definition locked (st : sync_objects) (m : nat) : bool := fst (get_mutex (mutexes st) m).
Definition count (st : sync_objects) (g : nat) : Z := fst (get_group (groups st) g).

Definition waiters (st : sync_objects) (X : blocker) : list fid :=
  match X with
  | AMutex m => snd (get_mutex (mutexes st) m)
  | AGroup g => snd (get_group (groups st) g)
  end.

(** How much the first [n] fibers owe to an object, [F f] being the duties of [f]. *)
Definition owed (F : fid → duties) (n : nat) (X : blocker) : nat :=
  sum_list_with (λ f, multiplicity X (F f)) (seq 0 n).

(** The objects count what is owed to them. *)
Record accounts (F : fid → duties) (n : nat) (st : sync_objects) : Prop := Accounts {
  ac_mutex : ∀ m, owed F n (AMutex m) = Nat.b2n (locked st m);
  ac_group : ∀ g, count st g = wrap64 (Z.of_nat (owed F n (AGroup g)))
}.

(** What a fiber waits for is owed to, and above what the fiber owes to.  Of [cur], the
    fiber that is running, nothing is said but that it waits for nothing. *)
Record duties_ok (cur : option fid) (F : fid → duties) (p : sync_program) : Prop := DutiesOk {
  do_accounts : accounts F (fresh p) (objects p);
  do_waiting : ∀ X f, f ∈ waiters (objects p) X → owed F (fresh p) X ≠ 0 ∧ below X (F f) ∧
    ∃ b, todo p f = Some b ∧ dutiful (after X (F f)) b;
  do_others : ∀ f, cur ≠ Some f → (∀ X, f ∉ waiters (objects p) X) →
    from_option (dutiful (F f)) (F f = ∅) (todo p f);
  do_cur : ∀ f X, cur = Some f → f ∉ waiters (objects p) X;
  do_once : NoDup (sync_parked (objects p));
  do_events : parked_in (events (objects p)) = []
}.

(** What the running fiber leaves: it has ended, it yields, or it waits. *)
Definition leaves (F : fid → duties) (p : sync_program) (f : fid) (k : option (sync_op * body sync_op)) : Prop :=
  let waits X b := owed F (fresh p) X ≠ 0 ∧ below X (F f) ∧ dutiful (after X (F f)) b in
  match k with
  | None => F f = ∅
  | Some (SYield, b) => dutiful (F f) b
  | Some (OnMutex m Lock, b) => waits (AMutex m) b
  | Some (OnGroup g Wait, b) => waits (AGroup g) b
  | Some _ => False
  end.

(** ** What is owed *)

Section owed.
  Implicit Types (F : fid → duties).

Lemma owed_ext F F' n X : (∀ f, f < n → multiplicity X (F f) = multiplicity X (F' f)) → owed F n X = owed F' n X.
Proof. intros H. apply sum_list_with_ext. intros f Hf%elem_of_seq. apply H. lia. Qed.

Lemma owed_S F n X : owed F (S n) X = owed F n X + multiplicity X (F n).
Proof. unfold owed. rewrite seq_S, sum_list_with_app. simpl. lia. Qed.

(** Replacing the duties of one fiber. *)
Lemma owed_upd F n X f D : f < n →
  owed F⟦f ↦ D⟧ n X + multiplicity X (F f) = owed F n X + multiplicity X D.
Proof.
  induction n as [|n IH]; intros Hf; [lia|]. rewrite !owed_S.
  destruct (decide (f = n)) as [->|Hne].
  - rewrite upd_eq. rewrite (owed_ext F⟦n ↦ D⟧ F n); [lia|]. intros g Hg. by rewrite upd_ne by lia.
  - rewrite upd_ne by done. specialize (IH ltac:(lia)). lia.
Qed.

Lemma owed_someone F n X : owed F n X ≠ 0 → ∃ f, f < n ∧ X ∈ F f.
Proof.
  induction n as [|n IH]; [done|]. rewrite owed_S. intros Hn.
  destruct (decide (X ∈ F n)) as [Hin|Hin]; [exists n; split; [lia|done]|].
  unfold elem_of, gmultiset_elem_of in Hin. destruct IH as (f & ? & ?); [lia|]. exists f. split; [lia|done].
Qed.

Lemma owed_by F n X f : f < n → X ∈ F f → owed F n X ≠ 0.
Proof.
  intros Hf Hin. pose proof (owed_upd F n X f ∅ Hf) as Ho. rewrite multiplicity_empty in Ho.
  unfold elem_of, gmultiset_elem_of in Hin. lia.
Qed.
Lemma owed_add F n X f Y : f < n →
  owed F⟦f ↦ {[+ X +]} ⊎ F f⟧ n Y = owed F n Y + Nat.b2n (bool_decide (X = Y)).
Proof.
  intros Hf. pose proof (owed_upd F n Y f ({[+ X +]} ⊎ F f) Hf) as Ho.
  rewrite multiplicity_disj_union, multiplicity_singleton in Ho.
  case_bool_decide; repeat case_decide; subst; simpl; try done; lia.
Qed.

Lemma owed_adds F n c X f Y : f < n →
  owed F⟦f ↦ c *: {[+ X +]} ⊎ F f⟧ n Y = owed F n Y + (if decide (X = Y) then c else 0).
Proof.
  intros Hf. pose proof (owed_upd F n Y f (c *: {[+ X +]} ⊎ F f) Hf) as Ho.
  rewrite multiplicity_disj_union, multiplicity_scalar_mul, multiplicity_singleton in Ho.
  repeat case_decide; subst; try done; lia.
Qed.

Lemma owed_drop F n X f Y : f < n → X ∈ F f →
  owed F⟦f ↦ F f ∖ {[+ X +]}⟧ n Y + Nat.b2n (bool_decide (X = Y)) = owed F n Y.
Proof.
  intros Hf Hin. pose proof (owed_upd F n Y f (F f ∖ {[+ X +]}) Hf) as Ho.
  rewrite multiplicity_difference, multiplicity_singleton in Ho. unfold elem_of, gmultiset_elem_of in Hin.
  case_bool_decide; repeat case_decide; subst; simpl; try done; lia.
Qed.
End owed.

(** ** Single operations *)

Definition with_mutex (st : sync_objects) (m : nat) (b : bool) (ws : list fid) : sync_objects :=
  MkSync (<[m := (b, ws)]> (mutexes st)) (groups st) (events st).

Definition with_group (st : sync_objects) (g : nat) (n : Z) (ws : list fid) : sync_objects :=
  MkSync (mutexes st) (<[g := (n, ws)]> (groups st)) (events st).

Section objects.
  Implicit Types (st : sync_objects).

Lemma waiters_mutex st m b ws X :
  waiters (with_mutex st m b ws) X = (if decide (X = AMutex m) then ws else waiters st X).
Proof.
  destruct X as [n|g]; cbn [waiters with_mutex mutexes groups]; [|by rewrite decide_False]. rewrite get_insert.
  destruct (decide (m = n)) as [->|]; [by rewrite decide_True|]. rewrite decide_False; [done|congruence].
Qed.

Lemma waiters_group st g n ws X :
  waiters (with_group st g n ws) X = (if decide (X = AGroup g) then ws else waiters st X).
Proof.
  destruct X as [m|h]; cbn [waiters with_group mutexes groups]; [by rewrite decide_False|]. rewrite get_insert.
  destruct (decide (g = h)) as [->|]; [by rewrite decide_True|]. rewrite decide_False; [done|congruence].
Qed.

Lemma locked_mutex st m b ws n : locked (with_mutex st m b ws) n = (if decide (m = n) then b else locked st n).
Proof. unfold locked. simpl. rewrite get_insert. by case_decide. Qed.

Lemma count_group st g n ws h : count (with_group st g n ws) h = (if decide (g = h) then n else count st h).
Proof. unfold count. simpl. rewrite get_insert. by case_decide. Qed.

Lemma waiters_sync_parked st X f : f ∈ waiters st X → f ∈ sync_parked st.
Proof.
  unfold sync_parked. rewrite !elem_of_app. destruct X as [m|g]; simpl; intros Hf.
  - left. rewrite (parked_split false (mutexes st) m), elem_of_app. by left.
  - right; left. rewrite (parked_split 0%Z (groups st) g), elem_of_app. by left.
Qed.

Lemma sync_parked_waiters st f :
  parked_in (events st) = [] → f ∈ sync_parked st → ∃ X, f ∈ waiters st X.
Proof.
  unfold sync_parked. intros ->. rewrite app_nil_r, elem_of_app.
  unfold parked_in. rewrite !list_elem_of_bind. intros [([i [d ws]] & Hf & Hi)|([i [d ws]] & Hf & Hi)];
    apply elem_of_map_to_list in Hi; simpl in Hf; [exists (AMutex i)|exists (AGroup i)];
    simpl; unfold get_object; by rewrite Hi.
Qed.
End objects.

Section operations.
  Context (f : fid).
  Implicit Types (p : sync_program) (F : fid → duties).

(** A call of the running fiber, which wakes [subs]: their waits are over, and their
    duties what they are after the wait. *)
Lemma duties_change F F' p st' subs :
  duties_ok (Some f) F p → accounts F' (fresh p) st' →
  sync_parked (objects p) ≡ₚ subs ++ sync_parked st' → parked_in (events st') = [] →
  (∀ g, g ∉ subs → g ≠ f → F' g = F g) →
  (∀ X g, g ∈ waiters st' X → g ∈ waiters (objects p) X ∧ owed F' (fresh p) X ≠ 0) →
  (∀ X g, g ∈ waiters (objects p) X → g ∈ waiters st' X ∨ F' g = after X (F g)) →
  duties_ok (Some f) F' (set_objects p st').
Proof.
  intros [H1 H2 H3 H4 H5 H6] Hac Hp He Hkeep Hst Hwoken. rewrite Hp in H5. apply NoDup_app in H5 as (_ & Hd & Hnd).
  split; try done.
  - intros X g Hg. destruct (Hst X g Hg) as [Hin Hne]. split; [done|].
    rewrite Hkeep; [by apply H2| |by intros ->; apply (H4 f X)].
    intros Hs. apply (Hd g Hs). by eapply waiters_sync_parked.
  - intros g Hg Hno. change (todo (set_objects p st') g) with (todo p g).
    destruct (decide (g ∈ sync_parked (objects p))) as [Hin|Hin].
    + apply sync_parked_waiters in Hin as [X Hin]; [|done].
      destruct (Hwoken X g Hin) as [Hin'| ->]; [by apply Hno in Hin'|].
      by destruct (H2 X g Hin) as (_ & _ & b & -> & ?).
    + rewrite Hkeep; [|intros Hs; apply Hin; rewrite Hp; set_solver|congruence].
      apply H3; [done|]. intros X HX. by apply Hin, (waiters_sync_parked _ X).
  - intros g X Hg HX. apply Hst in HX as [HX _]. by apply (H4 g X).
Qed.

Lemma accounts_mutex F F' n st m b ws :
  accounts F n st → (∀ X, X ≠ AMutex m → owed F' n X = owed F n X) →
  owed F' n (AMutex m) = Nat.b2n b → accounts F' n (with_mutex st m b ws).
Proof.
  intros [H1 H2] Hs Hm. split.
  - intros k. rewrite locked_mutex. destruct (decide (m = k)) as [->|Hne]; [done|].
    by rewrite Hs, H1 by congruence.
  - intros g. rewrite Hs by done. apply H2.
Qed.

Lemma accounts_group F F' n st g c ws :
  accounts F n st → (∀ X, X ≠ AGroup g → owed F' n X = owed F n X) →
  c = wrap64 (Z.of_nat (owed F' n (AGroup g))) → accounts F' n (with_group st g c ws).
Proof.
  intros [H1 H2] Hs Hm. split.
  - intros m. rewrite Hs by done. apply H1.
  - intros k. rewrite count_group. destruct (decide (g = k)) as [->|Hne]; [done|].
    by rewrite Hs, H2 by congruence.
Qed.

(** [Lock] of a free mutex. *)
Lemma lock_free_ok F p m :
  duties_ok (Some f) F p → f < fresh p → locked (objects p) m = false →
  let st' := with_mutex (objects p) m true (waiters (objects p) (AMutex m)) in
  sync_parked (objects p) ≡ₚ sync_parked st' →
  duties_ok (Some f) F⟦f ↦ after (AMutex m) (F f)⟧ (set_objects p st').
Proof.
  intros Hdo Hf Hm st' Hp. pose proof (do_accounts _ _ _ Hdo) as Hac.
  assert (∀ X, waiters st' X = waiters (objects p) X) as Ew.
  { intros X. unfold st'. rewrite waiters_mutex. by case_decide; subst. }
  apply (duties_change F _ p st' []); simpl; try done.
  - apply (accounts_mutex F); [done|..].
    + intros X HX. rewrite owed_add, bool_decide_false by congruence. simpl. lia.
    + rewrite owed_add, bool_decide_true, (ac_mutex _ _ _ Hac), Hm; done.
  - apply Hdo.
  - intros g _ Hg. by rewrite upd_ne.
  - intros X g. rewrite Ew. intros HX. split; [done|]. rewrite owed_add by done.
    apply (do_waiting _ _ _ Hdo) in HX as [? _]. lia.
  - intros X g HX. left. by rewrite Ew.
Qed.

(** [Unlock] with nobody waiting. *)
Lemma unlock_free_ok F p m :
  duties_ok (Some f) F p → f < fresh p → AMutex m ∈ F f → waiters (objects p) (AMutex m) = [] →
  let st' := with_mutex (objects p) m false [] in
  sync_parked (objects p) ≡ₚ sync_parked st' →
  duties_ok (Some f) F⟦f ↦ F f ∖ {[+ AMutex m +]}⟧ (set_objects p st').
Proof.
  intros Hdo Hf Hm Hw st' Hp. pose proof (do_accounts _ _ _ Hdo) as Hac.
  pose proof (owed_drop F (fresh p) (AMutex m) f) as Hdrop.
  assert (∀ X, waiters st' X = waiters (objects p) X) as Ew.
  { intros X. unfold st'. rewrite waiters_mutex. by case_decide; subst. }
  apply (duties_change F _ p st' []); simpl; try done.
  - apply (accounts_mutex F); [done|..].
    + intros X HX. specialize (Hdrop X Hf Hm). rewrite bool_decide_false in Hdrop by congruence. simpl in Hdrop. lia.
    + specialize (Hdrop (AMutex m) Hf Hm). rewrite bool_decide_true, (ac_mutex _ _ _ Hac) in Hdrop by done.
      destruct (locked (objects p) m); simpl in *; lia.
  - apply Hdo.
  - intros g _ Hg. by rewrite upd_ne.
  - intros X g. rewrite Ew. intros HX. split; [done|]. specialize (Hdrop X Hf Hm).
    rewrite bool_decide_false in Hdrop; [|by intros <-; rewrite Hw in HX; apply elem_of_nil in HX].
    apply (do_waiting _ _ _ Hdo) in HX as [? _]. simpl in Hdrop. lia.
  - intros X g HX. left. by rewrite Ew.
Qed.

(** [Unlock] that hands the mutex, and the duty, over to the first waiter. *)
Lemma unlock_hand_ok F p m w ws :
  duties_ok (Some f) F p → f < fresh p → w < fresh p → AMutex m ∈ F f →
  waiters (objects p) (AMutex m) = w :: ws →
  let st' := with_mutex (objects p) m (locked (objects p) m) ws in
  sync_parked (objects p) ≡ₚ [w] ++ sync_parked st' →
  duties_ok (Some f) F⟦f ↦ F f ∖ {[+ AMutex m +]}⟧⟦w ↦ after (AMutex m) (F w)⟧ (set_objects p st').
Proof.
  intros Hdo Hf Hwf Hm Hw st' Hp. pose proof (do_accounts _ _ _ Hdo) as Hac.
  assert (w ∈ waiters (objects p) (AMutex m)) as Hwm by (rewrite Hw; by left).
  assert (w ≠ f) as Hne by (intros ->; by apply (do_cur _ _ _ Hdo f (AMutex m))).
  assert (∀ X, owed F⟦f ↦ F f ∖ {[+ AMutex m +]}⟧⟦w ↦ after (AMutex m) (F w)⟧ (fresh p) X = owed F (fresh p) X) as Eo.
  { intros X. pose proof (owed_add F⟦f ↦ F f ∖ {[+ AMutex m +]}⟧ (fresh p) (AMutex m) w X Hwf) as Ha.
    rewrite upd_ne in Ha by done. simpl. rewrite Ha. by apply owed_drop. }
  assert (w ∉ sync_parked st') as Hwn.
  { pose proof (do_once _ _ _ Hdo) as Hnd. rewrite Hp in Hnd. by apply NoDup_cons in Hnd as [? _]. }
  apply (duties_change F _ p st' [w]); try done.
  - apply (accounts_mutex F); [done|..].
    + intros X _. apply Eo.
    + rewrite Eo. apply Hac.
  - apply Hdo.
  - intros g Hg Hgf. rewrite !upd_ne; [done..|set_solver].
  - intros X g Hg. rewrite Eo. assert (g ∈ waiters (objects p) X) as HX.
    { unfold st' in Hg. rewrite waiters_mutex in Hg. case_decide; subst; [|done]. rewrite Hw. by right. }
    split; [done|]. by apply (do_waiting _ _ _ Hdo X g).
  - intros X g HX. destruct (decide (g = w)) as [->|Hgw].
    + destruct (decide (X = AMutex m)) as [->|HXm]; [right; by rewrite upd_eq|].
      destruct Hwn. apply (waiters_sync_parked _ X). unfold st'. by rewrite waiters_mutex, decide_False.
    + left. unfold st'. rewrite waiters_mutex. case_decide; subst; [|done].
      rewrite Hw in HX. by apply elem_of_cons in HX as [?|?].
Qed.

(** [Add]. *)
Lemma add_ok F p g c :
  duties_ok (Some f) F p → f < fresh p →
  let st' := with_group (objects p) g (sz_add (count (objects p) g) (Z.of_nat c)) (waiters (objects p) (AGroup g)) in
  sync_parked (objects p) ≡ₚ sync_parked st' →
  duties_ok (Some f) F⟦f ↦ c *: {[+ AGroup g +]} ⊎ F f⟧ (set_objects p st').
Proof.
  intros Hdo Hf st' Hp. pose proof (do_accounts _ _ _ Hdo) as Hac.
  assert (∀ X, waiters st' X = waiters (objects p) X) as Ew.
  { intros X. unfold st'. rewrite waiters_group. by case_decide; subst. }
  apply (duties_change F _ p st' []); try done.
  - apply (accounts_group F); [done|..].
    + intros X HX. rewrite owed_adds, decide_False by congruence. lia.
    + rewrite owed_adds, decide_True, (ac_group _ _ _ Hac), sz_add_wrap by done. f_equal. lia.
  - apply Hdo.
  - intros h _ Hh. by rewrite upd_ne.
  - intros X h. rewrite Ew. intros HX. split; [done|]. rewrite owed_adds by done.
    apply (do_waiting _ _ _ Hdo) in HX as [? _]. lia.
  - intros X h HX. left. by rewrite Ew.
Qed.

(** [Done]: when the counter reaches zero the waiters' wait is over. *)
Lemma done_ok F p g :
  duties_ok (Some f) F p → f < fresh p → AGroup g ∈ F f →
  let n := sz_sub (count (objects p) g) 1 in
  let '(subs, ws) := if decide (n = 0%Z) then (waiters (objects p) (AGroup g), [])
                     else ([], waiters (objects p) (AGroup g)) in
  let st' := with_group (objects p) g n ws in
  sync_parked (objects p) ≡ₚ subs ++ sync_parked st' →
  duties_ok (Some f) F⟦f ↦ F f ∖ {[+ AGroup g +]}⟧ (set_objects p st').
Proof.
  intros Hdo Hf Hg n. destruct (if decide (n = 0%Z) then _ else _) as [subs ws] eqn:Es. intros st' Hp.
  pose proof (do_accounts _ _ _ Hdo) as Hac. set (F' := F⟦f ↦ F f ∖ {[+ AGroup g +]}⟧).
  pose proof (λ X, owed_drop F (fresh p) (AGroup g) f X Hf Hg) as Hdrop. fold F' in Hdrop.
  assert (n = wrap64 (Z.of_nat (owed F' (fresh p) (AGroup g)))) as En.
  { unfold n. rewrite (ac_group _ _ _ Hac), sz_sub_wrap. f_equal. specialize (Hdrop (AGroup g)).
    rewrite bool_decide_true in Hdrop by done. simpl in Hdrop. lia. }
  apply (duties_change F _ p st' subs); try done.
  - apply (accounts_group F); [done| |done]. intros X HX. specialize (Hdrop X).
    rewrite bool_decide_false in Hdrop by congruence. simpl in Hdrop. fold F'. lia.
  - apply Hdo.
  - intros h _ Hh. unfold F'. by rewrite upd_ne.
  - intros X h. unfold st'. rewrite waiters_group. fold F'. specialize (Hdrop X). destruct (decide (X = AGroup g)) as [->|HX].
    + case_decide as Hn; simplify_eq; [by intros ?%elem_of_nil|]. intros HX. split; [done|].
      intros E. apply Hn. by rewrite En, E.
    + rewrite bool_decide_false in Hdrop by congruence. simpl in Hdrop. intros Hh. split; [done|].
      apply (do_waiting _ _ _ Hdo) in Hh as [? _]. lia.
  - intros X h HX. unfold st'. rewrite waiters_group. destruct (decide (X = AGroup g)) as [->|HXg]; [|by left].
    case_decide; simplify_eq; [right|by left]. fold F'. unfold F'.
    rewrite upd_ne; [done|]. intros <-. by apply (do_cur _ _ _ Hdo f (AGroup g)).
Qed.

(** Nothing that matters has changed. *)
Lemma duties_same cur F p p' :
  duties_ok cur F p → fresh p' = fresh p → (∀ g, todo p' g = todo p g) →
  (∀ m, locked (objects p') m = locked (objects p) m) → (∀ g, count (objects p') g = count (objects p) g) →
  (∀ X, waiters (objects p') X = waiters (objects p) X) →
  sync_parked (objects p) ≡ₚ sync_parked (objects p') → parked_in (events (objects p')) = [] →
  duties_ok cur F p'.
Proof.
  intros [[A1 A2] H2 H3 H4 H5 H6] Ef Et El Ec Ew Hp He. split; [split|..]; rewrite ?Ef; try done.
  - intros m. by rewrite El.
  - intros g. by rewrite Ec.
  - intros X g. rewrite Ew, Et. apply H2.
  - intros g Hg. setoid_rewrite Ew. rewrite Et. by apply H3.
  - intros g X. rewrite Ew. apply H4.
  - by rewrite <-Hp.
Qed.

Lemma duties_objects cur F p p' :
  duties_ok cur F p → objects p' = objects p → fresh p' = fresh p → fibers p' = fibers p → duties_ok cur F p'.
Proof.
  intros Hl Eo En Ef. apply (duties_same cur F p); rewrite ?Eo; try done; [|apply Hl].
  intros g. unfold todo. by rewrite Ef.
Qed.

(** Writing back what was read. *)
Lemma duties_mutex cur F p m :
  duties_ok cur F p →
  let st' := with_mutex (objects p) m (locked (objects p) m) (waiters (objects p) (AMutex m)) in
  sync_parked (objects p) ≡ₚ sync_parked st' → duties_ok cur F (set_objects p st').
Proof.
  intros Hl st' Hp. apply (duties_same cur F p); try done; [..|apply Hl].
  - intros n. simpl. unfold st'. rewrite locked_mutex. by case_decide; subst.
  - intros X. simpl objects. unfold st'. rewrite waiters_mutex. by case_decide; subst.
Qed.

Lemma duties_group cur F p g :
  duties_ok cur F p →
  let st' := with_group (objects p) g (count (objects p) g) (waiters (objects p) (AGroup g)) in
  sync_parked (objects p) ≡ₚ sync_parked st' → duties_ok cur F (set_objects p st').
Proof.
  intros Hl st' Hp. apply (duties_same cur F p); try done; [..|apply Hl].
  - intros h. simpl. unfold st'. rewrite count_group. by case_decide; subst.
  - intros X. simpl objects. unfold st'. rewrite waiters_group. by case_decide; subst.
Qed.

(** A fiber starts another, and leaves it some duties. *)
Lemma go_duties F p c D :
  duties_ok (Some f) F p → f < fresh p → D ⊆ F f → dutiful D c →
  (∀ g, is_Some (fibers p !! g) → g < fresh p) →
  duties_ok (Some f) F⟦f ↦ F f ∖ D⟧⟦fresh p ↦ D⟧ (snd (Go p c)).
Proof.
  intros [[A1 A2] H2 H3 H4 H5 H6] Hf HD Hc Hb. set (F' := F⟦f ↦ F f ∖ D⟧⟦fresh p ↦ D⟧).
  assert (∀ g, g ≠ f → g ≠ fresh p → F' g = F g) as EF by (intros g H1 H7; unfold F'; by rewrite !upd_ne).
  assert (∀ X, owed F' (S (fresh p)) X = owed F (fresh p) X) as Eo.
  { intros X. rewrite owed_S. unfold F' at 2. rewrite upd_eq.
    rewrite (owed_ext F' F⟦f ↦ F f ∖ D⟧) by (intros g Hg; unfold F'; by rewrite upd_ne by lia).
    pose proof (owed_upd F (fresh p) X f (F f ∖ D) Hf) as Ho. rewrite multiplicity_difference in Ho.
    specialize (HD X). lia. }
  assert (∀ g, g ≠ fresh p → todo (snd (Go p c)) g = todo p g) as Et.
  { intros g Hg. unfold todo. simpl. by rewrite lookup_insert_ne. }
  assert (todo p (fresh p) = None) as En.
  { unfold todo. destruct (fibers p !! fresh p) eqn:E; [|done]. specialize (Hb (fresh p) ltac:(by eexists)). lia. }
  assert (∀ X g, g ∈ waiters (objects p) X → g ≠ f ∧ g ≠ fresh p) as Hw.
  { intros X g Hg. split; [intros ->; by apply (H4 f X)|]. intros ->.
    destruct (H2 X _ Hg) as (_ & _ & b & Hb' & _). congruence. }
  split; [split|..]; try done.
  - intros m. change (fresh (snd (Go p c))) with (S (fresh p)). rewrite Eo. apply A1.
  - intros g. change (fresh (snd (Go p c))) with (S (fresh p)). rewrite Eo. apply A2.
  - intros X g Hg. change (fresh (snd (Go p c))) with (S (fresh p)).
    destruct (Hw X g Hg). rewrite Eo, EF, Et by done. by apply H2.
  - intros g Hg Hno. destruct (decide (g = fresh p)) as [->|Hne].
    + unfold todo. simpl. rewrite lookup_insert_eq. simpl. unfold F'. by rewrite upd_eq.
    + rewrite Et, EF by congruence. by apply H3.
Qed.

(** ** A turn *)

Lemma waiter_below F p X w :
  duties_ok (Some f) F p → (∀ g, is_Some (fibers p !! g) → g < fresh p) →
  w ∈ waiters (objects p) X → w < fresh p.
Proof.
  intros Hl Hb (_ & _ & b & Hw & _)%(do_waiting _ _ _ Hl). apply Hb.
  unfold todo in Hw. destruct (fibers p !! w); [by eexists|done].
Qed.

Lemma call_mutex_duties F p m op k subs st' susp :
  duties_ok (Some f) F p → (∀ g, is_Some (fibers p !! g) → g < fresh p) → f < fresh p →
  dutiful (F f) (AwaitThen (OnMutex m op) k) → sync_call (OnMutex m op) f (objects p) = (subs, st', susp) →
  if susp then duties_ok (Some f) F (set_objects p st') ∧ leaves F (set_objects p st') f (Some (OnMutex m op, k))
  else ∃ F', duties_ok (Some f) F' (set_objects p st') ∧ dutiful (F' f) k.
Proof.
  intros Hl Hb Hf Ho Hc. pose proof (sync_call_parked _ _ _ _ _ _ Hc) as Hp.
  simpl in Hc. unfold call_object in Hc. rewrite (surjective_pairing (get_mutex (mutexes (objects p)) m)) in Hc.
  fold (locked (objects p) m) in Hc. destruct op;
    simpl in Hc, Ho; fold (waiters (objects p) (AMutex m)) in Hc.
  - destruct Ho as [Hlt Ho]. unfold Lock_body in Hc. destruct (locked (objects p) m) eqn:El; simplify_eq.
    + rewrite <-El in Hp |- *. split; [by apply duties_mutex|]. simpl. split; [|done].
      by rewrite (ac_mutex _ _ _ (do_accounts _ _ _ Hl)), El.
    + eexists. split; [by apply lock_free_ok|]. by rewrite upd_eq.
  - destruct Ho as [Hm Ho]. unfold Unlock_body in Hc.
    destruct (waiters (objects p) (AMutex m)) as [|w ws] eqn:Ew; simpl in Hc; simplify_eq.
    + eexists. split; [by apply unlock_free_ok|]. by rewrite upd_eq.
    + assert (w ∈ waiters (objects p) (AMutex m)) as Hw by (rewrite Ew; by left).
      eexists. split; [apply (unlock_hand_ok F p m w ws); try done; by eapply waiter_below|].
      rewrite upd_ne, upd_eq; [done|]. intros ->. by apply (do_cur _ _ _ Hl f (AMutex m)).
Qed.

Lemma call_group_duties F p g op k subs st' susp :
  duties_ok (Some f) F p → f < fresh p →
  dutiful (F f) (AwaitThen (OnGroup g op) k) → sync_call (OnGroup g op) f (objects p) = (subs, st', susp) →
  if susp then duties_ok (Some f) F (set_objects p st') ∧ leaves F (set_objects p st') f (Some (OnGroup g op, k))
  else ∃ F', duties_ok (Some f) F' (set_objects p st') ∧ dutiful (F' f) k.
Proof.
  intros Hl Hf Ho Hc. pose proof (sync_call_parked _ _ _ _ _ _ Hc) as Hp.
  simpl in Hc. unfold call_object in Hc. rewrite (surjective_pairing (get_group (groups (objects p)) g)) in Hc.
  fold (count (objects p) g) in Hc. destruct op as [n| |];
    simpl in Hc, Ho; fold (waiters (objects p) (AGroup g)) in Hc.
  - destruct Ho as (c & -> & Ho). simplify_eq. eexists. split; [by apply add_ok|]. by rewrite upd_eq.
  - destruct Ho as [Hg Ho]. pose proof (done_ok F p g Hl Hf Hg) as Hd. simpl in Hd.
    unfold Done_body in Hc. case_decide; simplify_eq; eexists; (split; [by apply Hd|by rewrite upd_eq]).
  - destruct Ho as [Hlt Ho]. unfold Wait_body in Hc. case_decide as Hn; simplify_eq.
    + split; [by apply duties_group|]. simpl. split; [|done]. intros E.
      rewrite (ac_group _ _ _ (do_accounts _ _ _ Hl)), E in Hn. by vm_compute in Hn.
    + exists F. split; [by apply duties_group|done].
Qed.

(** The routine of the running fiber, up to where it stops. *)
Lemma body_duties b : ∀ p F subs p' k,
  duties_ok (Some f) F p → dutiful (F f) b → is_Some (fibers p !! f) → current_fiber p = Some f →
  (∀ g, is_Some (fibers p !! g) → g < fresh p) → run_body f b p = (subs, p', k) →
  ∃ F', duties_ok (Some f) F' p' ∧ leaves F' p' f k.
Proof.
  induction b as [|a b IH|o b IH|c _ b IH]; intros p F subs p' k Hl Ho Hf Hc Hb Hr; cbn [run_body] in Hr.
  - simplify_eq. by exists F.
  - apply (IH (emit p f a) F subs p' k); try done. by apply (duties_objects _ _ p).
  - destruct (aw_call o f (objects p)) as [[subs1 st] susp] eqn:E.
    assert (if susp then duties_ok (Some f) F (set_objects p st) ∧ leaves F (set_objects p st) f (Some (o, b))
      else ∃ F', duties_ok (Some f) F' (set_objects p st) ∧ dutiful (F' f) b) as Hcall.
    { destruct o as [|m op|g op|e op]; [|by eapply call_mutex_duties; eauto|by eapply call_group_duties; eauto|done].
      simpl in E. simplify_eq. by destruct p. }
    destruct susp.
    + unfold Suspend_current in Hr. simpl in Hr. rewrite Hc in Hr. simplify_eq. by exists F.
    + destruct Hcall as (F' & Hl' & Ho'). destruct (run_body f b (set_objects p st)) as [[subs2 p2] k2] eqn:Eb.
      simplify_eq. by eapply (IH (set_objects p st) F').
  - destruct Ho as (D & HD & Ho1 & Ho2). unfold GoHere in Hr. rewrite Hc in Hr.
    destruct (Go p c) as [g p1] eqn:Eg. assert (p1 = snd (Go p c)) as -> by (by rewrite Eg).
    destruct (run_body f b _) as [[subs2 p2] k2] eqn:E. simplify_eq. pose proof (Hb f Hf) as Hlt.
    eapply (IH (snd (Go p c)) F⟦f ↦ F f ∖ D⟧⟦fresh p ↦ D⟧); try exact E; try done; [by apply go_duties|..].
    + rewrite upd_ne, upd_eq; [done|lia].
    + simpl. by rewrite lookup_insert_ne by lia.
    + intros h. simpl. destruct (decide (fresh p = h)) as [<-|Hne]; [lia|].
      rewrite lookup_insert_ne by done. intros Hg%Hb. lia.
Qed.
End operations.

Implicit Types (p : sync_program) (F : fid → duties).

(** A turn begins: the fiber was in the queue. *)
Lemma turn_begins F p f q :
  fibers_ok p (f :: q) → duties_ok None F p → duties_ok (Some f) F (set_current p (Some f)) ∧
  ∃ x, fibers p !! f = Some x ∧ dutiful (F f) (fiber_coro_ x).
Proof.
  intros Hok Hl. assert (∀ X, f ∉ waiters (objects p) X) as Hnp.
  { intros X HX%waiters_sync_parked. pose proof (fo_nodup _ _ Hok) as Hnd. simpl in Hnd.
    apply NoDup_cons in Hnd as [Hn _]. apply Hn, elem_of_app. by right. }
  assert (is_Some (fibers p !! f)) as [x Ex] by (apply (fo_live _ _ Hok); set_solver).
  split.
  - destruct Hl as [H1 H2 H3 H4 H5 H6]. split; try done.
    + intros g _ Hg. by apply H3.
    + intros g X [= <-]. apply Hnp.
  - exists x. split; [done|]. pose proof (do_others _ _ _ Hl f ltac:(done) Hnp) as Ho.
    unfold todo in Ho. by rewrite Ex in Ho.
Qed.

(** A turn ends: the fiber is gone, or in the queue. *)
Lemma turn_ends F p f :
  duties_ok (Some f) F p → from_option (dutiful (F f)) (F f = ∅) (todo p f) → duties_ok None F p.
Proof.
  intros [H1 H2 H3 H4 H5 H6] Hf. split; try done.
  intros g _ Hg. destruct (decide (g = f)) as [->|Hne]; [done|apply H3; [congruence|done]].
Qed.

(** Or it waits for [X]. *)
Lemma turn_ends_wait F p f X b st' :
  duties_ok (Some f) F p → owed F (fresh p) X ≠ 0 → below X (F f) → dutiful (after X (F f)) b →
  todo p f = Some b → accounts F (fresh p) st' → events st' = events (objects p) →
  (∀ Y, waiters st' Y = waiters (objects p) Y ++ if decide (Y = X) then [f] else []) →
  f :: sync_parked (objects p) ≡ₚ sync_parked st' → duties_ok None F (set_objects p st').
Proof.
  intros [H1 H2 H3 H4 H5 H6] Hm Hlt Ho Ef Hac He Ew Hp.
  assert (∀ Y g, g ∈ waiters st' Y ↔ g ∈ waiters (objects p) Y ∨ (Y = X ∧ g = f)) as Hw.
  { intros Y g. rewrite Ew, elem_of_app. case_decide; subst; [|set_solver].
    rewrite list_elem_of_singleton. tauto. }
  split; try done.
  - intros Y g [Hg|[-> ->]]%Hw; [by apply H2|]. split; [done|]. split; [done|]. by exists b.
  - intros g _ Hg. destruct (decide (g = f)) as [->|Hne].
    + destruct (Hg X). apply Hw. by right.
    + apply H3; [congruence|]. intros Y HY. apply (Hg Y), Hw. by left.
  - simpl. rewrite <-Hp. apply NoDup_cons. split; [|done].
    intros Hf. apply sync_parked_waiters in Hf as [Y HY]; [|done]. by apply (H4 f Y).
  - simpl. by rewrite He.
Qed.

(** Of the running fiber's record nothing is known. *)
Lemma duties_running F p p' f :
  duties_ok (Some f) F p → objects p' = objects p → fresh p' = fresh p →
  (∀ g, g ≠ f → fibers p' !! g = fibers p !! g) → duties_ok (Some f) F p'.
Proof.
  intros [H1 H2 H3 H4 H5 H6] Eo En Ef.
  assert (∀ g, g ≠ f → todo p' g = todo p g) as Et by (intros g Hg; unfold todo; by rewrite Ef).
  split; rewrite ?Eo, ?En; try done.
  - intros X g Hg. rewrite Et; [by apply H2|]. intros ->. by apply (H4 f X).
  - intros g Hg. rewrite Et by congruence. by apply H3.
Qed.

(** The awaiter of the fiber that leaves. *)
Lemma awaiter_duties F p f o b subs st' :
  duties_ok (Some f) F p → leaves F p f (Some (o, b)) → todo p f = Some b →
  aw_suspend o (Some f) (objects p) = Some (subs, st') → duties_ok None F (set_objects p st').
Proof.
  intros Hl Hk Et Es. pose proof (sync_suspend_parked o f (objects p)) as (subs' & st & Es' & Hp).
  cbn [aw_suspend sync_awaiters] in Es. rewrite Es in Es'. simplify_eq.
  destruct o as [|m [|]|g [| |]|e op]; cbn [leaves] in Hk; try done.
  - simpl in Es. simplify_eq. apply (turn_ends F _ f); [by destruct p|].
    unfold todo in Et |- *. simpl. by rewrite Et.
  - destruct Hk as (H1 & H2 & H3). simpl in Es. unfold park_object in Es. simpl in Es.
    rewrite (surjective_pairing (get_mutex _ m)) in Es. simpl in Es. simplify_eq.
    apply (turn_ends_wait F p f (AMutex m) b); try done.
    + apply (accounts_mutex F); [apply Hl|done|]. apply Hl.
    + intros Y. etrans; [apply (waiters_mutex (objects p))|]. case_decide; subst; [done|by rewrite app_nil_r].
  - destruct Hk as (H1 & H2 & H3). simpl in Es. unfold park_object in Es. simpl in Es.
    rewrite (surjective_pairing (get_group _ g)) in Es. simpl in Es. simplify_eq.
    apply (turn_ends_wait F p f (AGroup g) b); try done.
    + apply (accounts_group F); [apply Hl|done|]. apply Hl.
    + intros Y. etrans; [apply (waiters_group (objects p))|]. case_decide; subst; [done|by rewrite app_nil_r].
Qed.

Lemma task_duties F p f q subs p' :
  fibers_ok p (f :: q) → duties_ok None F p → fiber_task f p = (subs, p') → ∃ F', duties_ok None F' p'.
Proof.
  intros Hok Hl Hr. destruct (turn_begins F p f q Hok Hl) as (Hl0 & x & Ex & Ho).
  destruct (fo_running _ _ Hok f x Ex) as [Hx1 Hx2].
  unfold fiber_task, Run, Switch in Hr. rewrite Ex, Hx1 in Hr.
  destruct (run_body f (fiber_coro_ x) (set_current p (Some f))) as [[s1 p1] k] eqn:Eb.
  destruct (body_duties f _ _ F s1 p1 k Hl0 Ho) as (F' & Hl1 & Hk); [by eexists|done|apply Hok|done|].
  exists F'. simpl in Hr. rewrite lookup_insert_eq in Hr.
  destruct k as [[o b]|]; simpl in Hr.
  - set (p2 := set_current (set_fibers p1 (<[f := Suspend x o b]> (fibers p1))) None) in *.
    assert (todo p2 f = Some b) as Et by (unfold todo; simpl; by rewrite lookup_insert_eq).
    assert (duties_ok (Some f) F' p2) as Hl2.
    { apply (duties_running F' p1); [done..|]. intros g Hg. simpl. by rewrite lookup_insert_ne. }
    unfold call_awaiter in Hr. cbn [Suspend awaiter_] in Hr.
    destruct (sync_suspend_parked o f (objects p2)) as (subs' & st & Es & _).
    cbn [aw_suspend sync_awaiters] in Hr. rewrite Es in Hr. injection Hr as <- <-.
    by apply (awaiter_duties F' p2 f o b subs').
  - rewrite Hx2 in Hr. simpl in Hr. injection Hr as <- <-.
    apply (turn_ends F' _ f).
    + apply (duties_running F' p1); [done..|]. intros g Hg. simpl. by rewrite lookup_delete_ne, lookup_insert_ne.
    + unfold todo. simpl. by rewrite lookup_delete_eq.
Qed.

(** ** No deadlock *)

Lemma strictly_above (l : list nat) : ∃ b, ∀ x, x ∈ l → x < b.
Proof.
  induction l as [|y l [b IH]]; [exists 0; by intros x ?%elem_of_nil|].
  exists (S (y `max` b)). intros x [->|Hx%IH]%elem_of_cons; lia.
Qed.

(** With nothing queued, somebody waits for an object only if somebody waits for one
    above it. *)
Lemma waits_above F p X f : fibers_ok p [] → duties_ok None F p → f ∈ waiters (objects p) X →
  ∃ Y g, level X < level Y ∧ g ∈ waiters (objects p) Y.
Proof.
  intros Hok Hl Hf. apply (do_waiting _ _ _ Hl) in Hf as [Hf _].
  apply owed_someone in Hf as (g & _ & Hg).
  assert (g ∈ parked p) as Hp.
  { apply (fo_live _ _ Hok). destruct (fibers p !! g) eqn:Eg; [by eexists|exfalso].
    assert (todo p g = None) as Et by (unfold todo; by rewrite Eg).
    pose proof (do_others _ _ _ Hl g ltac:(done)) as Ho. rewrite Et in Ho. simpl in Ho.
    rewrite Ho in Hg; [multiset_solver|]. intros Y HY.
    destruct (do_waiting _ _ _ Hl Y g HY) as (_ & _ & b & Eb & _). congruence. }
  apply sync_parked_waiters in Hp as [Y HY]; [|apply Hl].
  exists Y, g. split; [|done]. destruct (do_waiting _ _ _ Hl Y g HY) as (_ & Hlt & _). by apply Hlt.
Qed.

(** The objects that may have waiters. *)
Definition blockers (st : sync_objects) : list blocker :=
  (AMutex <$> elements (dom (mutexes st))) ++ (AGroup <$> elements (dom (groups st))).

Lemma waiters_blockers st X f : f ∈ waiters st X → X ∈ blockers st.
Proof.
  unfold blockers. rewrite elem_of_app, !list_elem_of_fmap. setoid_rewrite elem_of_elements.
  setoid_rewrite elem_of_dom. intros Hf.
  destruct X as [i|i]; simpl in Hf; unfold get_object in Hf; [left|right]; exists i; split; try done;
    match type of Hf with context [?m !! i] => destruct (m !! i) end; by try apply elem_of_nil in Hf.
Qed.

Lemma nobody_waits F p : fibers_ok p [] → duties_ok None F p → ∀ X f, f ∉ waiters (objects p) X.
Proof.
  intros Hok Hl. destruct (strictly_above (level <$> blockers (objects p))) as [b Hb].
  assert (∀ k X f, b - level X <= k → f ∉ waiters (objects p) X) as Hk; [|intros X f; by apply (Hk (b - level X))].
  induction k as [|k IH]; intros X f Hm Hf.
  - assert (level X < b); [|lia]. apply Hb, list_elem_of_fmap_2. by eapply waiters_blockers.
  - destruct (waits_above F p X f Hok Hl Hf) as (Y & g & Hlt & Hg). apply (IH Y g); [lia|done].
Qed.

Lemma no_deadlock F p : fibers_ok p [] → duties_ok None F p →
  fibers p = ∅ ∧ (∀ m, get_mutex (mutexes (objects p)) m = (false, [])) ∧
  ∀ g, get_group (groups (objects p)) g = (0%Z, []).
Proof.
  intros Hok Hl. pose proof (nobody_waits F p Hok Hl) as Hw.
  assert (parked p = []) as Hp.
  { apply elem_of_nil_inv. intros f Hf. apply sync_parked_waiters in Hf as [X HX]; [|apply Hl]. by apply (Hw X f). }
  assert (fibers p = ∅) as Hn by (by apply nothing_queued). split; [done|].
  assert (∀ X, owed F (fresh p) X = 0) as Ho.
  { intros X. apply sum_list_with_zero. intros f _.
    pose proof (do_others _ _ _ Hl f ltac:(done) (λ X, Hw X f)) as Ho. unfold todo in Ho.
    rewrite Hn, lookup_empty in Ho. simpl in Ho. by rewrite Ho, multiplicity_empty. }
  pose proof (do_accounts _ _ _ Hl) as [H1 H2]. split; intros i.
  - rewrite (surjective_pairing (get_mutex _ i)). f_equal; [|apply elem_of_nil_inv, (Hw (AMutex i))].
    specialize (H1 i). rewrite Ho in H1. unfold locked in H1. by destruct (get_mutex _ i) as [[] ?].
  - rewrite (surjective_pairing (get_group _ i)). f_equal; [|apply elem_of_nil_inv, (Hw (AGroup i))].
    specialize (H2 i). by rewrite Ho in H2.
Qed.

(** The program at the start: all mutexes are free, and the fibers owe to the groups what
    has been added to them. *)
Record starts F p : Prop := Starts {
  st_mutexes : mutexes (objects p) = ∅;
  st_events : events (objects p) = ∅;
  st_groups : ∀ g, get_group (groups (objects p)) g = (wrap64 (Z.of_nat (owed F (fresh p) (AGroup g))), []);
  st_owes : ∀ f m, AMutex m ∉ F f;
  st_fibers : ∀ f, from_option (λ x, dutiful (F f) (fiber_coro_ x)) (F f = ∅) (fibers p !! f)
}.

Lemma starts_idle F p X : starts F p → waiters (objects p) X = [].
Proof. intros [H1 _ H3 _ _]. destruct X; simpl; [by rewrite H1|by rewrite H3]. Qed.

Lemma starts_parked F p : starts F p → parked p = [].
Proof.
  intros Hs. apply elem_of_nil_inv. intros f Hf. apply sync_parked_waiters in Hf as [X HX].
  - rewrite (starts_idle F) in HX by done. by apply elem_of_nil in HX.
  - by rewrite (st_events _ _ Hs).
Qed.

Lemma duties_start F p : starts F p → duties_ok None F p.
Proof.
  intros Hs. pose proof (starts_parked F p Hs) as Hp. unfold parked in Hp. simpl in Hp.
  pose proof (λ X, starts_idle F p X Hs) as Hw. destruct Hs as [H1 H2 H3 H4 H5]. split; [split|..]; try done.
  - intros m. unfold locked. rewrite H1. simpl. apply sum_list_with_zero. intros f _.
    specialize (H4 f m). unfold elem_of, gmultiset_elem_of in H4. lia.
  - intros g. unfold count. by rewrite H3.
  - intros X f. rewrite Hw. by intros ?%elem_of_nil.
  - intros f _ _. specialize (H5 f). unfold todo. by destruct (fibers p !! f).
  - rewrite Hp. apply NoDup_nil_2.
  - by rewrite H2.
Qed.
End discipline.

Section run.
  Context {Q : Type} `{FifoLaws Q fid}.
  Implicit Types (p : sync_program).

(** C9: no deadlock: on the manual executor, fibers that unlock the mutexes they lock, and
    have [Done] called as often as they [Add] (by themselves or by fibers they start),
    run to completion, if for some order of mutexes and groups they wait only for objects
    above all those they still owe an [Unlock] or a [Done] to; whatever else they do in
    between (effects, [Yield], [Go]).  [Drain] empties the queue after at most as many
    tasks as the routines have turns; no assertion fails; every fiber is deleted and has
    had its effects in program order, every mutex is free and every counter zero. *)
Theorem dutiful_fibers_complete level F bound fuel ex p q :
  manual_wf ex q → (∀ f, f < bound → fq_live (tasks ex) f) → fibers_ok p q → starts level F p →
  (Z.of_nat (total_turns p q) < size_bound)%Z → fresh p + total_turns p q <= bound + length q →
  total_turns p q < fuel →
  ∃ n ex' p', Drain fiber_task fuel ex p = Ret (Z.of_nat n, ex', p') ∧ n <= total_turns p q ∧
    manual_wf ex' [] ∧ failed p' = false ∧ fibers p' = ∅ ∧
    (∀ m, get_mutex (mutexes (objects p')) m = (false, [])) ∧
    (∀ g, get_group (groups (objects p')) g = (0%Z, [])) ∧
    ∀ f, f < fresh p → effects_of p' f = effects_of p f ++ remaining p f.
Proof.
  intros Hwf Hlv Hok Hst Hsz Hb Hfu. pose proof (starts_parked _ _ _ Hst) as Hp.
  destruct (fibers_drain bound fuel ex p q) as (ran & ex' & p' & Er & E & Hwf' & Hok' & Hn & _ & He);
    rewrite ?Hp, ?app_nil_r; try done.
  rewrite Hp, app_nil_r in Er, Hn.
  destruct (spec_run_preserves fiber_task (λ q p, fibers_ok p q ∧ ∃ G, duties_ok level None G p)
    (total_turns p q) q p) as [_ [G Hl]].
  - intros f ns st [Hf [G Hl]]. destruct (fiber_task f st) as [subs st'] eqn:Et. simpl. split.
    + apply (tt_ok _ _ _ _ _ (fiber_task_turn f ns st subs st' Hf Et)).
    + by eapply task_duties.
  - split; [done|]. exists F. by apply duties_start.
  - rewrite Er in Hl. simpl in Hl. destruct (no_deadlock level G p' Hok' Hl) as (Hem & Hm & Hg).
    exists (length ran), ex', p'. split_and!; try done; [lia|apply Hok'|].
    intros f Hf. rewrite <-He by done. unfold remaining. by rewrite Hem, lookup_empty, app_nil_r.
Qed.
End run.

(** Fiber 0 waits in group 0 for two fibers that it starts; they lock mutexes 0 and 1 in
    this order, and the first yields in between. *)
Abbreviation lock m k := (AwaitThen (OnMutex m Lock) k).
Abbreviation unlock m k := (AwaitThen (OnMutex m Unlock) k).
Abbreviation group_done k := (AwaitThen (OnGroup 0 Done) k).

Definition join_routine : body sync_op :=
  AwaitThen (OnGroup 0 (Add 2))
    (GoThen (lock 0 (AwaitThen SYield (lock 1 (Effect 1 (unlock 1 (unlock 0 (group_done End)))))))
    (GoThen (lock 1 (AwaitThen SYield (Effect 2 (unlock 1 (group_done End)))))
    (AwaitThen (OnGroup 0 Wait) (Effect 3 End)))).

Definition join_program : sync_program :=
  MkProgram {[ 0 := MkFiber join_routine false None PLANNED ]} 1 None (MkSync ∅ ∅ ∅) [] false.

(** The group below the mutexes. *)
Definition join_level (X : blocker) : nat := match X with AGroup _ => 0 | AMutex m => S m end.

Lemma below_elements level X D :
  Forall (λ Y, level Y < level X) (elements D) → below level X D.
Proof. intros H Y HY. rewrite Forall_forall in H. apply H. by apply gmultiset_elem_of_elements. Qed.

Ltac compute_duties :=
  repeat match goal with
  | |- _ ∧ _ => split
  | |- below _ _ _ => apply below_elements; vm_compute; repeat constructor
  | |- _ ∈ _ => apply (bool_decide_unpack _); vm_compute; exact I
  | |- _ ⊆ _ => apply (bool_decide_unpack _); vm_compute; exact I
  | |- _ = ∅ => apply (bool_decide_unpack _); vm_compute; exact I
  end.

Lemma join_dutiful : dutiful join_level ∅ join_routine.
Proof.
  exists 2. split; [done|]. exists {[+ AGroup 0 +]}. cbn [dutiful].
  split; [compute_duties|]. split; [compute_duties|].
  exists {[+ AGroup 0 +]}. compute_duties.
Qed.

Lemma join_starts : starts join_level (λ _, ∅) join_program.
Proof.
  split; try done.
  - intros f m. multiset_solver.
  - intros f. unfold join_program. cbn [fibers]. destruct (decide (f = 0)) as [->|Hne].
    + exact join_dutiful.
    + by rewrite lookup_singleton_ne.
Qed.

Lemma join_ok : fibers_ok join_program [0].
Proof.
  assert (∀ f x, fibers join_program !! f = Some x → f = 0 ∧ is_completed x = false ∧ state x = PLANNED) as Hd.
  { intros f x Hf. simpl in Hf. by apply lookup_singleton_Some in Hf as [<- <-]. }
  split; try done.
  - apply NoDup_singleton.
  - intros f. change ([0] ++ parked join_program) with [0]. rewrite list_elem_of_singleton. split.
    + by intros [x []%Hd].
    + intros ->. by eexists.
  - intros f [x [-> _]%Hd]. simpl. lia.
  - intros f x []%Hd. done.
Qed.

Definition join_queue : nodes * IntrusiveList :=
  (gset_to_gmap None (set_seq 0 15), MkList 1 (Some 0) (Some 0)).

Lemma dutiful_fibers_complete_witness :
  ∃ n ex' p', Drain fiber_task 16 (MkManual join_queue 1) join_program = Ret (Z.of_nat n, ex', p') ∧
    n <= 15 ∧ manual_wf (A := fid) ex' [] ∧ failed p' = false ∧ fibers p' = ∅ ∧
    (∀ m, get_mutex (mutexes (objects p')) m = (false, [])) ∧
    (∀ g, get_group (groups (objects p')) g = (0%Z, [])) ∧
    ∀ f, f < 1 → effects_of p' f = effects_of join_program f ++ remaining join_program f.
Proof.
  apply (dutiful_fibers_complete join_level (λ _, ∅) 15 16 (MkManual join_queue 1) join_program [0]).
  - split; [|done..]. split; try done; [by eexists|apply join_ok].
  - intros f Hf. do 15 (destruct f as [|f]; [vm_compute; by eexists|]). lia.
  - apply join_ok.
  - apply join_starts.
  - reflexivity.
  - vm_compute. lia.
  - vm_compute. lia.
Defined.

(** The two fibers meet at the mutexes, and fiber 0 goes on after both. *)
Example join_program_run :
  match Drain fiber_task 16 (MkManual join_queue 1) join_program with
  | Ret (_, _, p') => log p' = [(2, 2); (1, 1); (0, 3)]
  | _ => False
  end.
Proof. by vm_compute. Qed.
