(* ===== verification/FiberProtocol.v ===== *)
(** * Programs of fibers as executions of the suspension protocol

    What SyncFiber.v runs in one go, Parking.v does step by step, with a spinlock and a
    worker that suspends the fiber.  Here the steps of one fiber in a row are shown to
    add up to an operation, and so a program of fibers that [RunAtMost] or [Drain] of the
    manual executor runs to be an execution of the protocol, for each object: what is
    proved of the protocol holds of such programs. *)

From stdpp Require Import prelude list gmap.
From S2P Require Import Prelude.
From S2P Require Import Fifo.
From S2P Require Import IntrusiveList.
From S2P Require Import ManualExecutor.
From S2P Require Import Lock.
From S2P Require Import Parking.
From S2P Require Import AsyncMutex.
From S2P Require Import WaitGroup.
From S2P Require Import Event.
From S2P Require Import Fiber.
From S2P Require Import FiberRun.
From S2P Require Import SyncFiber.

(** ** An operation, undisturbed *)

Section operation.
  Context {D Op U : Type} `{PrimitiveLaws D Op U}.
  Implicit Types (s : parking D Op U) (f g w : tid) (op : Op) (u : U).

Definition reaches s s' : Prop := ∃ tr, run (parking_system true) tr s = Some s'.

Lemma reaches_refl s : reaches s s.
Proof. by exists []. Qed.

Lemma reaches_step l s s1 s' : park_step true l s = Some s1 → reaches s1 s' → reaches s s'.
Proof. intros Hs [tr Hr]. exists (l :: tr). simpl. by rewrite Hs. Qed.

Lemma reaches_trans s s1 s' : reaches s s1 → reaches s1 s' → reaches s s'.
Proof. intros [t1 H1] [t2 H2]. exists (t1 ++ t2). by rewrite run_app, H1. Qed.

(** Out of any operation. *)
Definition idle u : fiber Op U := Parking.MkFiber Out WNone false 0 u.

(** Suspended, with [n] wake-ups under way. *)
Definition asleep op (n : nat) u : fiber Op U := Parking.MkFiber (Susp op) WNone false n u.

(** The fibers after the wake-ups of [l]. *)
Definition woken (F : tid → fiber Op U) (l : list tid) g : fiber Op U :=
  if decide (g ∈ l) then set_fb_scheduled (F g) (S (fb_scheduled (F g))) else F g.

(** [s'] is [s] but for the fibers. *)
Definition same_object s s' : Prop :=
  pk_spin s' = pk_spin s ∧ pk_data s' = pk_data s ∧ pk_waiters s' = pk_waiters s.

Lemma wake_loop f (mk : list tid → fiber_pc Op) :
  (∀ s w l, fb_pc (pk_fibers s f) = mk (w :: l) →
    fiber_step f s = Some (Schedule w (with_fiber s f (set_fb_pc (pk_fibers s f) (mk l))))) →
  ∀ l s, fb_pc (pk_fibers s f) = mk l → f ∉ l → NoDup l →
  ∃ s', reaches s s' ∧ same_object s s' ∧ pk_fibers s' f = set_fb_pc (pk_fibers s f) (mk []) ∧
    ∀ g, g ≠ f → pk_fibers s' g = woken (pk_fibers s) l g.
Proof.
  intros Hmk. induction l as [|w l IH]; intros s Epc Hf Hnd.
  - exists s. split; [apply reaches_refl|]. split; [done|]. split; [|done].
    destruct (pk_fibers s f). simpl in *. by rewrite <-Epc.
  - apply not_elem_of_cons in Hf as [Hfw Hfl]. apply NoDup_cons in Hnd as [Hw Hnd].
    set (s1 := Schedule w (with_fiber s f (set_fb_pc (pk_fibers s f) (mk l)))).
    assert (pk_fibers s1 f = set_fb_pc (pk_fibers s f) (mk l)) as E1 by (simpl; by rewrite upd_ne, upd_eq).
    destruct (IH s1) as (s' & Hr & Hs & Ef & Eg); [by rewrite E1|done..|].
    exists s'. split; [|split; [done|split]].
    + by apply (reaches_step (FiberStep f) s s1); [apply Hmk|].
    + by rewrite Ef, E1.
    + intros g Hg. rewrite Eg by done. unfold woken. simpl.
      destruct (decide (g = w)) as [->|Hgw].
      * rewrite decide_False by done. rewrite upd_eq, decide_True by set_solver. by rewrite upd_ne.
      * rewrite upd_ne, upd_ne by congruence. by repeat case_decide; set_solver.
Qed.

(** [Suspend]: the call, the body, and the worker's [AwaitSuspend]. *)
Lemma call_park f op u s d' ws' :
  pk_spin s = None → pk_fibers s f = idle u → client_may op u = true →
  crit op (pk_data s) (pk_waiters s) = (d', ws', Park) →
  ∃ s', reaches s s' ∧ pk_spin s' = None ∧ pk_data s' = d' ∧ pk_waiters s' = ws' ++ [f] ∧
    pk_fibers s' f = asleep op 0 u ∧ ∀ g, g ≠ f → pk_fibers s' g = pk_fibers s g.
Proof.
  intros Hsp Ef Hm Hc. eexists. split.
  - apply (reaches_step (CallOp f op) s (with_fiber s f (Parking.MkFiber (Ctor op) WNone false 0 u)));
      [by unfold park_step, call_step; rewrite Ef; simpl; rewrite Hm|].
    eapply (reaches_step (FiberStep f)); [simpl; unfold fiber_step; simpl; rewrite upd_eq; simpl; by rewrite Hsp|].
    eapply (reaches_step (FiberStep f)); [simpl; unfold fiber_step; simpl; rewrite !upd_eq; simpl; by rewrite Hc|].
    do 2 (eapply (reaches_step (WorkerStep f)); [simpl; unfold AwaitSuspend_step; simpl; rewrite !upd_eq; simpl; by rewrite ?decide_True|]).
    eapply (reaches_step (WorkerStep f)); [simpl; unfold AwaitSuspend_step; simpl; by rewrite !upd_eq|].
    apply reaches_refl.
  - simpl. split; [done|]. split; [done|]. split; [done|]. split; [by rewrite !upd_eq|].
    intros g Hg. by rewrite !upd_ne.
Qed.

(** The call and the body of an operation that returns. *)
Lemma body_runs f op u s d' ws' ins outs :
  pk_spin s = None → pk_fibers s f = idle u → client_may op u = true →
  crit op (pk_data s) (pk_waiters s) = (d', ws', Leave ins outs) →
  ∃ s', reaches s s' ∧ pk_spin s' = Some f ∧ pk_data s' = d' ∧ pk_waiters s' = ws' ∧
    pk_fibers s' f = Parking.MkFiber (WakeIn op ins outs) WNone true 0 u ∧
    ∀ g, g ≠ f → pk_fibers s' g = pk_fibers s g.
Proof.
  intros Hsp Ef Hm Hc. eexists. split.
  - apply (reaches_step (CallOp f op) s (with_fiber s f (Parking.MkFiber (Ctor op) WNone false 0 u)));
      [by unfold park_step, call_step; rewrite Ef; simpl; rewrite Hm|].
    eapply (reaches_step (FiberStep f)); [simpl; unfold fiber_step; simpl; rewrite upd_eq; simpl; by rewrite Hsp|].
    eapply (reaches_step (FiberStep f)); [simpl; unfold fiber_step; simpl; rewrite !upd_eq; simpl; by rewrite Hc|].
    apply reaches_refl.
  - simpl. do 3 (split; [done|]). split; [by rewrite !upd_eq|]. intros g Hg. by rewrite !upd_ne.
Qed.

(** The guard's destructor. *)
Lemma guard_released f op u s outs :
  pk_spin s = Some f → pk_fibers s f = Parking.MkFiber (WakeIn op [] outs) WNone true 0 u →
  ∃ s', reaches s s' ∧ pk_spin s' = None ∧ pk_data s' = pk_data s ∧ pk_waiters s' = pk_waiters s ∧
    pk_fibers s' f = Parking.MkFiber (Wake op outs) WNone false 0 u ∧
    ∀ g, g ≠ f → pk_fibers s' g = pk_fibers s g.
Proof.
  intros Hsp Ef. eexists. split.
  - eapply (reaches_step (FiberStep f)); [simpl; unfold fiber_step; by rewrite Ef|].
    eapply (reaches_step (FiberStep f)); [simpl; unfold fiber_step; simpl; by rewrite !upd_eq|].
    eapply (reaches_step (FiberStep f)); [simpl; unfold fiber_step; simpl; rewrite !upd_eq; simpl;
      rewrite Hsp; simpl; by rewrite decide_True|].
    eapply (reaches_step (FiberStep f)); [simpl; unfold fiber_step; simpl; by rewrite !upd_eq|].
    apply reaches_refl.
  - simpl. do 3 (split; [done|]). split; [by rewrite !upd_eq|]. intros g Hg. by rewrite !upd_ne.
Qed.

(** An operation that returns: the call, the body, the wake-ups and the guard's release. *)
Lemma call_leave f op u s d' ws' ins outs :
  pk_spin s = None → pk_fibers s f = idle u → client_may op u = true →
  crit op (pk_data s) (pk_waiters s) = (d', ws', Leave ins outs) →
  NoDup (pk_waiters s) → f ∉ pk_waiters s →
  ∃ s', reaches s s' ∧ pk_spin s' = None ∧ pk_data s' = d' ∧ pk_waiters s' = ws' ∧
    pk_fibers s' f = idle (client_after op u) ∧
    ∀ g, g ≠ f → pk_fibers s' g = woken (pk_fibers s) (ins ++ outs) g.
Proof.
  intros Hsp Ef Hm Hc Hnd Hf. pose proof (crit_waiters _ _ _ _ _ _ Hc) as Hw. simpl in Hw.
  rewrite <-Hw in Hnd, Hf. apply NoDup_app in Hnd as (Hnd & _ & _).
  apply NoDup_app in Hnd as (Hni & Hdis & Hno). rewrite !not_elem_of_app in Hf. destruct Hf as [[Hfi Hfo] _].
  destruct (body_runs f op u s d' ws' ins outs Hsp Ef Hm Hc) as (a1 & R1 & S1 & D1 & W1 & F1 & G1).
  destruct (wake_loop f (λ l, WakeIn op l outs)) with (l := ins) (s := a1)
    as (a2 & R2 & (S2 & D2 & W2) & F2 & G2); [|by rewrite F1|done..|].
  { intros x w l E. unfold fiber_step. by rewrite E. }
  rewrite F1 in F2. destruct (guard_released f op u a2 outs) as (a3 & R3 & S3 & D3 & W3 & F3 & G3); [congruence|done|].
  destruct (wake_loop f (λ l, Wake op l)) with (l := outs) (s := a3)
    as (a4 & R4 & (S4 & D4 & W4) & F4 & G4); [|by rewrite F3|done..|].
  { intros x w l E. unfold fiber_step. by rewrite E. }
  rewrite F3 in F4. simpl in F4.
  exists (with_fiber a4 f (idle (client_after op u))). split; [|simpl; do 3 (split; [congruence|])].
  - eapply reaches_trans; [exact R1|]. eapply reaches_trans; [exact R2|]. eapply reaches_trans; [exact R3|].
    eapply reaches_trans; [exact R4|]. eapply (reaches_step (FiberStep f)); [|apply reaches_refl].
    simpl. unfold fiber_step. by rewrite F4.
  - split; [by rewrite upd_eq|]. intros g Hg.
    rewrite upd_ne, G4 by done. unfold woken at 1. rewrite G3, G2 by done. unfold woken. rewrite G1 by done.
    specialize (Hdis g). repeat case_decide; set_solver.
Qed.

(** The executor runs a fiber that has been woken. *)
Lemma resume_runs f op u s :
  pk_fibers s f = asleep op 1 u →
  ∃ s', reaches s s' ∧ same_object s s' ∧ pk_fibers s' f = idle (client_after op u) ∧
    ∀ g, g ≠ f → pk_fibers s' g = pk_fibers s g.
Proof.
  intros Ef. eexists. split.
  - eapply (reaches_step (Resume f)); [simpl; unfold resume_step; by rewrite Ef|].
    eapply (reaches_step (FiberStep f)); [simpl; unfold fiber_step; simpl; by rewrite !upd_eq|].
    eapply (reaches_step (FiberStep f)); [simpl; unfold fiber_step; simpl; by rewrite !upd_eq|].
    apply reaches_refl.
  - split; [done|]. simpl. split; [by rewrite !upd_eq|]. intros g Hg. by rewrite !upd_ne.
Qed.
End operation.

(** ** One object of a program *)

(** [on o] is the operation that [o] does on the object; [view] the object's fields and
    waiters among the objects of the program. *)
Class ObjectView (O St D Op U : Type) `{AwaiterLaws O St} `{Primitive D Op U} := {
  on : O → option Op;
  view : St → D * list fid;
  view_call_other : ∀ o f st subs st' b, on o = None → aw_call o f st = (subs, st', b) → view st' = view st;
  view_call : ∀ o f st subs st' b op, on o = Some op → aw_call o f st = (subs, st', b) →
    ∃ v, crit op (fst (view st)) (snd (view st)) = (fst (view st'), snd (view st'), v) ∧
      b = match v with Park => true | Leave _ _ => false end;
  view_suspend_other : ∀ o f st subs st', on o = None → aw_suspend o (Some f) st = Some (subs, st') →
    view st' = view st;
  view_suspend : ∀ o f st subs st', is_Some (on o) → aw_suspend o (Some f) st = Some (subs, st') →
    view st' = (fst (view st), snd (view st) ++ [f]);
  view_parked : ∀ st f, f ∈ snd (view st) → f ∈ aw_parked st
}.

Section refinement.
  Context {O St D Op U : Type} `{!Awaiters O St} `{!AwaiterLaws O St} `{!Primitive D Op U} `{!PrimitiveLaws D Op U}.
  Context `{!ObjectView O St D Op U}.
  Implicit Types (p : program O St) (s : parking D Op U) (f g : fid) (u : U).

(** The routine uses the object as its clients may. *)
Fixpoint disciplined u (b : body O) : Prop :=
  match b with
  | End => True
  | Effect _ k => disciplined u k
  | AwaitThen o k =>
      match on o with
      | Some op => client_may op u = true ∧ disciplined (client_after op u) k
      | None => disciplined u k
      end
  | GoThen c k => disciplined client0 c ∧ disciplined u k
  end.

(** Fiber [f] of the program, in the protocol: not there yet, or gone; out of the object's
    operations; or suspended in one, parked or about to be resumed. *)
Definition fiber_rel p (waiting : bool) f (fb : fiber Op U) : Prop :=
  match fibers p !! f with
  | None => if decide (f < fresh p) then ∃ u, fb = idle u else fb = new_fiber
  | Some x =>
      match awaiter_ x ≫= on with
      | Some op => ∃ u, fb = asleep op (if waiting then 0 else 1) u ∧ client_may op u = true ∧
          disciplined (client_after op u) (fiber_coro_ x)
      | None => waiting = false ∧ ∃ u, fb = idle u ∧ disciplined u (fiber_coro_ x)
      end
  end.

(** The protocol is where the program is, [cur] apart, with the object's state [v]. *)
Record protocol_rel (cur : option fid) p (v : D * list fid) s : Prop := ProtocolRel {
  pr_reachable : reachable (parking_system (D := D) (U := U) true) s;
  pr_spin : pk_spin s = None;
  pr_data : pk_data s = fst v;
  pr_waiters : pk_waiters s = snd v;
  pr_fibers : ∀ f, cur ≠ Some f → fiber_rel p (bool_decide (f ∈ snd v)) f (pk_fibers s f)
}.

Lemma reaches_reachable s s' : reachable (parking_system true) s → reaches s s' → reachable (parking_system true) s'.
Proof. intros Hr [tr Ht]. by eapply reachable_run. Qed.

(** A fiber out of the operations is not among the waiters. *)
Lemma idle_not_waiting s f u : reachable (parking_system true) s → pk_fibers s f = idle u → f ∉ pk_waiters s.
Proof.
  intros Hr E Hf. apply (pi_waiters _ (park_invariant s Hr)) in Hf as [Hs _]. by rewrite E in Hs.
Qed.

(** Only fibers that the relation speaks of matter. *)
Lemma rel_program cur p p' v s :
  protocol_rel cur p v s → fresh p' = fresh p → (∀ g, cur ≠ Some g → fibers p' !! g = fibers p !! g) →
  protocol_rel cur p' v s.
Proof.
  intros [H1 H2 H3 H4 H5] Ef Eg. split; try done.
  intros g Hg. unfold fiber_rel. rewrite Eg, Ef by done. by apply H5.
Qed.

(** The fibers woken by an operation on the object are about to be resumed. *)
Lemma woken_rel p f op u v d' ws' ins outs s :
  protocol_rel (Some f) p v s → pk_fibers s f = idle u → client_may op u = true →
  crit op (fst v) (snd v) = (d', ws', Leave ins outs) →
  ∃ s', protocol_rel (Some f) p (d', ws') s' ∧ pk_fibers s' f = idle (client_after op u).
Proof.
  intros [H1 H2 H3 H4 H5] Ef Hm Hc. pose proof (idle_not_waiting s f u H1 Ef) as Hnf.
  pose proof (pi_nodup _ (park_invariant s H1)) as Hnd. pose proof (crit_waiters _ _ _ _ _ _ Hc) as Hw. simpl in Hw.
  rewrite <-H3, <-H4 in Hc.
  destruct (call_leave f op u s d' ws' ins outs) as (s' & Hr & S' & D' & W' & F' & G'); try done.
  exists s'. split; [|done]. split; [by eapply reaches_reachable|done..|].
  intros g Hg. assert (g ≠ f) as Hgf by congruence. rewrite G' by done. simpl.
  specialize (H5 g Hg). rewrite H4, <-Hw in Hnd. apply NoDup_app in Hnd as (_ & Hdis & _).
  unfold woken. rewrite <-Hw in H5. unfold fiber_rel in *.
  destruct (decide (g ∈ ins ++ outs)) as [Hin|Hnin].
  - rewrite bool_decide_true in H5 by set_solver. rewrite bool_decide_false by (by apply Hdis).
    destruct (fibers p !! g) as [x|].
    + destruct (awaiter_ x ≫= on); [|by destruct H5]. destruct H5 as (u' & -> & ?). by exists u'.
    + assert (Parking.parked (pk_fibers s g)) as [Hs _].
      { apply (pi_waiters _ (park_invariant s H1)). rewrite H4, <-Hw. set_solver. }
      case_decide; [destruct H5 as [u' E]|]; by rewrite ?E, ?H5 in Hs.
  - rewrite (bool_decide_ext (g ∈ ws') (g ∈ (ins ++ outs) ++ ws')); [done|]. set_solver.
Qed.

(** What the running fiber leaves: at the suspension on the object the body has run, and
    its awaiter has not. *)
Definition leaves p v u (k : option (O * body O)) : Prop :=
  match k with
  | None => v = view (objects p)
  | Some (o, b) =>
      match on o with
      | None => v = view (objects p) ∧ disciplined u b
      | Some op => client_may op u = true ∧ disciplined (client_after op u) b ∧
          crit op (fst v) (snd v) = (fst (view (objects p)), snd (view (objects p)), Park)
      end
  end.

Lemma body_protocol f b : ∀ p s u subs p' k,
  protocol_rel (Some f) p (view (objects p)) s → pk_fibers s f = idle u → disciplined u b →
  is_Some (fibers p !! f) → current_fiber p = Some f → (∀ g, is_Some (fibers p !! g) → g < fresh p) →
  run_body f b p = (subs, p', k) →
  ∃ s' u' v, protocol_rel (Some f) p' v s' ∧ pk_fibers s' f = idle u' ∧ leaves p' v u' k.
Proof.
  induction b as [|a b IH|o b IH|c _ b IH]; intros p s u subs p' k HR Ef Hd Hf Hc Hb Hr; simpl in Hr.
  - simplify_eq. exists s, u, (view (objects p')). by split_and!.
  - apply (IH (emit p f a) s u subs p' k); try done. by apply (rel_program _ p).
  - simpl in Hd. destruct (aw_call o f (objects p)) as [[subs1 st] b'] eqn:Ec. destruct (on o) as [op|] eqn:Eo.
    + destruct Hd as [Hm Hd]. destruct (view_call o f _ _ _ _ op Eo Ec) as (v & Hcr & Hb'). destruct v as [|ins outs].
      * subst b'. unfold Suspend_current in Hr. simpl in Hr. rewrite Hc in Hr. simplify_eq.
        exists s, u, (view (objects p)).
        split; [by apply (rel_program _ p)|]. split; [done|]. simpl. rewrite Eo. done.
      * subst b'. destruct (run_body f b _) as [[subs2 p2] k2] eqn:E. simplify_eq.
        destruct (woken_rel p f op u _ _ _ _ _ s HR Ef Hm Hcr) as (s' & HR' & Ef').
        eapply (IH _ s'); try exact E; try done. simpl. apply (rel_program _ p); [|done..].
        by rewrite <-surjective_pairing in HR'.
    + pose proof (view_call_other o f _ _ _ _ Eo Ec) as Ev. destruct b'.
      * unfold Suspend_current in Hr. simpl in Hr. rewrite Hc in Hr. simplify_eq.
        exists s, u, (view (objects p)). split; [by apply (rel_program _ p)|]. split; [done|].
        simpl. by rewrite Eo.
      * destruct (run_body f b _) as [[subs2 p2] k2] eqn:E. simplify_eq.
        eapply (IH _ s u); try exact E; try done. simpl. rewrite Ev. by apply (rel_program _ p).
  - destruct Hd as [Hd1 Hd2]. unfold GoHere in Hr. rewrite Hc in Hr. simpl in Hr.
    destruct (run_body f b _) as [[subs2 p2] k2] eqn:E. simplify_eq.
    assert (fibers p !! fresh p = None) as Hn by (apply eq_None_not_Some; intros Hg%Hb; lia).
    eapply (IH (snd (Go p c)) s u); try exact E; try done.
    + destruct HR as [H1 H2 H3 H4 H5]. split; try done. intros g Hg. specialize (H5 g Hg).
      unfold fiber_rel in *. simpl. destruct (decide (fresh p = g)) as [<-|Hne].
      * rewrite Hn, decide_False in H5 by lia. rewrite lookup_insert_eq. simpl. split; [|by exists client0].
        apply bool_decide_eq_false. rewrite <-H4. by apply (idle_not_waiting s _ client0).
      * rewrite lookup_insert_ne by done. destruct (fibers p !! g); [done|].
        rewrite (decide_ext (g < S (fresh p)) (g < fresh p)) by lia. done.
    + simpl. destruct (decide (fresh p = f)) as [<-|]; [by rewrite lookup_insert_eq; eexists|by rewrite lookup_insert_ne].
    + intros g. simpl. destruct (decide (fresh p = g)) as [<-|Hne]; [lia|].
      rewrite lookup_insert_ne by done. intros Hg%Hb. lia.
Qed.

(** A turn begins: the fiber is resumed from the operation it was in, if it was in one. *)
Lemma turn_resumes p f q s :
  fibers_ok p (f :: q) → protocol_rel None p (view (objects p)) s →
  ∃ x s' u, fibers p !! f = Some x ∧ protocol_rel (Some f) (set_current p (Some f)) (view (objects p)) s' ∧
    pk_fibers s' f = idle u ∧ disciplined u (fiber_coro_ x).
Proof.
  intros Hok [H1 H2 H3 H4 H5].
  assert (is_Some (fibers p !! f)) as [x Ex] by (apply (fo_live _ _ Hok); set_solver).
  assert (f ∉ snd (view (objects p))) as Hnw.
  { intros Hw%view_parked. pose proof (fo_nodup _ _ Hok) as Hnd. simpl in Hnd.
    apply NoDup_cons in Hnd as [Hn _]. set_solver. }
  pose proof (H5 f ltac:(done)) as Hf. rewrite bool_decide_false in Hf by done.
  unfold fiber_rel in Hf. rewrite Ex in Hf. exists x. destruct (awaiter_ x ≫= on) as [op|] eqn:Ea.
  - destruct Hf as (u & Ef & Hm & Hd). destruct (resume_runs f op u s Ef) as (s' & Hr & (S' & D' & W') & F' & G').
    exists s', (client_after op u). split; [done|]. split; [|done].
    split; [by eapply reaches_reachable|congruence..|].
    intros g Hg. rewrite G' by congruence. by apply H5.
  - destruct Hf as (_ & u & Ef & Hd). exists s, u. split; [done|]. split; [|done].
    split; try done. intros g _. by apply H5.
Qed.

(** A turn ends. *)
Lemma rel_leaves p p' v s f u :
  protocol_rel (Some f) p v s → pk_fibers s f = idle u → v = view (objects p') → fresh p' = fresh p →
  (∀ g, g ≠ f → fibers p' !! g = fibers p !! g) →
  match fibers p' !! f with None => f < fresh p' | Some x => awaiter_ x ≫= on = None ∧ disciplined u (fiber_coro_ x) end →
  protocol_rel None p' (view (objects p')) s.
Proof.
  intros [H1 H2 H3 H4 H5] Ef -> Hfr Hg Hf. split; try done. intros g _. destruct (decide (g = f)) as [->|Hne].
  - rewrite bool_decide_false by (rewrite <-H4; by eapply idle_not_waiting). unfold fiber_rel.
    destruct (fibers p' !! f) as [x|]; [destruct Hf as [-> Hd]; eauto|]. rewrite decide_True by done. eauto.
  - specialize (H5 g ltac:(congruence)). unfold fiber_rel in *. by rewrite Hg, Hfr.
Qed.

Lemma rel_parks p p' v s f u op x :
  protocol_rel (Some f) p v s → pk_fibers s f = idle u → client_may op u = true →
  crit op (fst v) (snd v) = (fst (view (objects p)), snd (view (objects p)), Park) →
  view (objects p') = (fst (view (objects p)), snd (view (objects p)) ++ [f]) → fresh p' = fresh p →
  (∀ g, g ≠ f → fibers p' !! g = fibers p !! g) →
  fibers p' !! f = Some x → awaiter_ x ≫= on = Some op → disciplined (client_after op u) (fiber_coro_ x) →
  ∃ s', protocol_rel None p' (view (objects p')) s'.
Proof.
  intros [H1 H2 H3 H4 H5] Ef Hm Hc Ev Hfr Hg Ex Ea Hd. rewrite <-H3, <-H4 in Hc.
  pose proof (crit_waiters _ _ _ _ _ _ Hc) as Hw. simpl in Hw.
  destruct (call_park f op u s _ _ H2 Ef Hm Hc) as (s' & Hr & S' & D' & W' & F' & G').
  exists s'. rewrite Ev. split; [by eapply reaches_reachable|done..|].
  intros g _. simpl. destruct (decide (g = f)) as [->|Hne].
  - rewrite bool_decide_true by set_solver. unfold fiber_rel. rewrite Ex, Ea. eauto.
  - specialize (H5 g ltac:(congruence)). rewrite G' by done. unfold fiber_rel in *. rewrite Hg, Hfr by done.
    rewrite (bool_decide_ext (g ∈ _ ++ [f]) (g ∈ snd v)); [done|]. rewrite Hw, H4. set_solver.
Qed.

Lemma task_protocol p f q subs p' s :
  fibers_ok p (f :: q) → protocol_rel None p (view (objects p)) s → fiber_task f p = (subs, p') →
  ∃ s', protocol_rel None p' (view (objects p')) s'.
Proof.
  intros Hok HR Hr. destruct (turn_resumes p f q s Hok HR) as (x & s0 & u & Ex & HR0 & Ef & Hd).
  destruct (fo_running _ _ Hok f x Ex) as [Hx1 Hx2].
  unfold fiber_task, Run, Switch in Hr. rewrite Ex, Hx1 in Hr.
  destruct (run_body f (fiber_coro_ x) (set_current p (Some f))) as [[s1 p1] k] eqn:Eb.
  destruct (body_protocol f (fiber_coro_ x) (set_current p (Some f)) s0 u s1 p1 k)
    as (s2 & u' & v & HR1 & Ef' & Hk); [exact HR0|exact Ef|exact Hd|by eexists|done|apply Hok|exact Eb|].
  assert (f < fresh p1) as Hfr.
  { apply run_body_turn in Eb; [|done|apply Hok]. pose proof (tn_fresh _ _ _ _ _ _ Eb) as Hle. simpl in Hle.
    assert (f < fresh p) by (apply (fo_fresh _ _ Hok); eauto). lia. }
  simpl in Hr. rewrite lookup_insert_eq in Hr. destruct k as [[o b]|]; simpl in Hr.
  - destruct (aw_suspend_parked o f (objects p1)) as (subs' & st & Es & _).
    unfold call_awaiter in Hr. simpl in Hr. rewrite Es in Hr. injection Hr as <- <-.
    assert (∀ g, g ≠ f → <[f := Suspend x o b]> (fibers p1) !! g = fibers p1 !! g) as Hne
      by (intros g Hg; by rewrite lookup_insert_ne).
    simpl in Hk. destruct (on o) as [op|] eqn:Eo.
    + destruct Hk as (Hm & Hd' & Hc).
      apply (rel_parks p1 _ v s2 f u' op (Suspend x o b)); try done; [|by simpl; rewrite lookup_insert_eq].
      by eapply view_suspend.
    + destruct Hk as [-> Hd']. exists s2. eapply (rel_leaves p1 _ _ s2 f u'); try done.
      * simpl. symmetry. by eapply view_suspend_other.
      * simpl. by rewrite lookup_insert_eq.
  - rewrite Hx2 in Hr. simpl in Hr. injection Hr as <- <-. exists s2.
    eapply (rel_leaves p1 _ _ s2 f u'); try done.
    + intros g Hg. simpl. by rewrite lookup_delete_ne, lookup_insert_ne.
    + simpl. by rewrite lookup_delete_eq.
Qed.

(** At the start no fiber has called an operation yet. *)
Lemma protocol_start p :
  data0 (fst (view (objects p))) → snd (view (objects p)) = [] →
  (∀ f x, fibers p !! f = Some x → awaiter_ x = None ∧ disciplined client0 (fiber_coro_ x)) →
  protocol_rel None p (view (objects p)) (park_init (fst (view (objects p)))).
Proof.
  intros Hd Hw Hf. split; try done.
  - apply reachable_init. by eexists.
  - intros f _. rewrite Hw. unfold fiber_rel. simpl. destruct (fibers p !! f) as [x|] eqn:E.
    + destruct (Hf f x E) as [-> ?]. simpl. split; [done|]. by exists client0.
    + case_decide; [by exists client0|done].
Qed.

(** After any number of turns, in the order of the queue. *)
Lemma turns_protocol k p q :
  fibers_ok p q → data0 (fst (view (objects p))) → snd (view (objects p)) = [] →
  (∀ f x, fibers p !! f = Some x → awaiter_ x = None ∧ disciplined client0 (fiber_coro_ x)) →
  let p' := snd (spec_run fiber_task k q p) in
  ∃ s, protocol_rel None p' (view (objects p')) s.
Proof.
  intros Hok Hd Hw Hf. simpl.
  destruct (spec_run_preserves fiber_task (λ q p, fibers_ok p q ∧ ∃ s, protocol_rel None p (view (objects p)) s)
    k q p) as [_ Hs]; [| |done].
  - intros f ns st [Hst [s HR]]. destruct (fiber_task f st) as [subs st'] eqn:Et. simpl. split.
    + apply (tt_ok _ _ _ _ _ (fiber_task_turn f ns st subs st' Hst Et)).
    + by eapply task_protocol.
  - split; [done|]. eexists. by apply protocol_start.
Qed.

Section executor.
  Context {Q : Type} `{!FifoQueue Q fid} `{!FifoLaws Q fid}.
  Implicit Types (ex : IntrusiveManualExecutor (Q := Q)) (q : list fid).

(** C11: programs of fibers on the manual executor are executions of the step-by-step
    protocol of suspension, for each of the objects they share.  The routines of the
    fibers are [disciplined]: they call an operation on the object when a client of it may
    (only the holder of a mutex unlocks it).  [q] is the executor's queue, and [bound] its
    addresses, enough for the fibers and those they start.
    - [RunAtMost(limit)] returns, having run the queue in FIFO order, and [Drain] returns,
      having emptied it, with the program that these turns of the fibers leave.
    - For this program there is a reachable state of the protocol, on an executor that
      keeps its fibers on their thread, in which the spinlock is free, the object has the
      same fields and the same waiters in the same order, and every fiber is where it is
      in the program: out of the object's operations, parked in one, or suspended with
      one wake-up under way.  So what holds in every reachable state of the protocol holds
      for such programs, between any two calls on the executor. *)
Theorem program_refines_protocol bound limit fuel ex p q :
  manual_wf ex q → (∀ f, f < bound → fq_live (tasks ex) f) → fibers_ok p q →
  (Z.of_nat (total_turns p (q ++ Fiber.parked p)) < size_bound)%Z →
  fresh p + total_turns p (q ++ Fiber.parked p) <= bound + length (q ++ Fiber.parked p) →
  data0 (fst (view (objects p))) → snd (view (objects p)) = [] →
  (∀ f x, fibers p !! f = Some x → awaiter_ x = None ∧ disciplined client0 (fiber_coro_ x)) →
  (is_size limit → let '(ran, rest, p') := spec_run fiber_task (Z.to_nat limit) q p in
    (∃ ex', RunAtMost fiber_task limit ex p = Ret (Z.of_nat (length ran), ex', p') ∧ manual_wf ex' rest) ∧
    ∃ s, protocol_rel None p' (view (objects p')) s) ∧
  (total_turns p (q ++ Fiber.parked p) < fuel →
    let '(ran, rest, p') := spec_run fiber_task (total_turns p (q ++ Fiber.parked p)) q p in
    (∃ ex', Drain fiber_task fuel ex p = Ret (Z.of_nat (length ran), ex', p') ∧ manual_wf ex' [] ∧ rest = []) ∧
    ∃ s, protocol_rel None p' (view (objects p')) s).
Proof.
  intros Hwf Hl Hok Hsz Hb Hd Hw Hf. split.
  - intros Hlim. pose proof (turns_protocol (Z.to_nat limit) p q Hok Hd Hw Hf) as Hp.
    destruct (RunAtMost_loop_spec fiber_task (mapped bound) (Z.to_nat limit) limit 0 ex q p)
      as (ex' & E & Hwf' & _); try done; [by apply fibers_disciplined|unfold is_size in *; lia..|].
    destruct (spec_run fiber_task (Z.to_nat limit) q p) as [[ran rest] p']. split; [|done].
    exists ex'. unfold RunAtMost. by rewrite E.
  - intros Hfu. pose proof (turns_protocol (total_turns p (q ++ Fiber.parked p)) p q Hok Hd Hw Hf) as Hp.
    destruct (fibers_drain bound fuel ex p q) as (ran & ex' & p' & Er & Ed & Hwf' & _); try done.
    rewrite Er in Hp |- *. split; [|done]. by exists ex'.
Qed.
End executor.
End refinement.

(** ** Mutexes, wait groups and events as views *)

Section family_view.
  Context {D Op U : Type} `{PrimitiveLaws D Op U} (d0 : D).

Lemma call_object_view i j op m subs m' b : call_object d0 i op m = (subs, m', b) →
  if decide (i = j) then
    ∃ v, crit op (fst (get_object d0 m j)) (snd (get_object d0 m j)) =
        (fst (get_object d0 m' j), snd (get_object d0 m' j), v) ∧
      b = match v with Park => true | Leave _ _ => false end
  else get_object d0 m' j = get_object d0 m j.
Proof.
  intros Hc. unfold call_object in Hc. destruct (get_object d0 m i) as [d ws] eqn:Eo.
  destruct (crit op d ws) as [[d' ws'] v] eqn:Ec. case_decide as Hij.
  - subst j. exists v. rewrite Eo. simpl. rewrite Ec.
    destruct v; simplify_eq; by rewrite get_insert, decide_True.
  - destruct v; simplify_eq; by rewrite get_insert, decide_False.
Qed.

Lemma park_object_view i j f m m' : park_object d0 i (Some f) m = Some m' →
  get_object d0 m' j = if decide (i = j) then (fst (get_object d0 m j), snd (get_object d0 m j) ++ [f])
    else get_object d0 m j.
Proof.
  unfold park_object. simpl. destruct (get_object d0 m i) as [d ws] eqn:Eo. intros [= <-].
  rewrite get_insert. case_decide; [subst; by rewrite Eo|done].
Qed.

Lemma get_parked m i f : f ∈ snd (get_object d0 m i) → f ∈ parked_in m.
Proof. intros Hf. rewrite (parked_split d0 m i), elem_of_app. by left. Qed.
End family_view.

(** The operations on mutex [m], on group [g], on event [e]. *)
Definition on_mutex (m : nat) (o : sync_op) : option mutex_op :=
  match o with OnMutex n op => if decide (n = m) then Some op else None | _ => None end.
Definition on_group (g : nat) (o : sync_op) : option wg_op :=
  match o with OnGroup n op => if decide (n = g) then Some op else None | _ => None end.
Definition on_event (e : nat) (o : sync_op) : option event_op :=
  match o with OnEvent n op => if decide (n = e) then Some op else None | _ => None end.

(** An operation of the objects, split into those of the three kinds. *)
Ltac sync_cases j :=
  intros; simplify_eq/=;
  repeat match goal with
  | H : (let '(_, _) := call_object ?d ?i ?op ?m in _) = _ |- _ =>
      let E := fresh "E" in destruct (call_object d i op m) as [[? ?] ?] eqn:E;
      simplify_eq/=; apply (call_object_view _ _ j) in E
  | H : park_object ?d ?i ?h ?m ≫= _ = _ |- _ =>
      let E := fresh "E" in destruct (park_object d i h m) as [?|] eqn:E;
      simplify_eq/=; apply (park_object_view _ _ j) in E
  end.

Ltac solve_view j := intros; match goal with o : sync_op |- _ => destruct o end; simplify_eq/=;
  sync_cases j; repeat case_decide; simplify_eq; done.

Definition mutex_view (m : nat) : ObjectView sync_op sync_objects bool mutex_op bool.
Proof.
  refine {| on := on_mutex m; view := λ st, get_mutex (mutexes st) m |}.
  - unfold on_mutex. solve_view m.
  - unfold on_mutex. solve_view m.
  - unfold on_mutex. solve_view m.
  - intros o f st subs st' [op Ho]. revert o f st subs st' Ho. unfold on_mutex. solve_view m.
  - intros st f Hf. simpl. unfold sync_parked. rewrite elem_of_app. left. by eapply get_parked.
Defined.

Definition group_view (g : nat) : ObjectView sync_op sync_objects Z wg_op unit.
Proof.
  refine {| on := on_group g; view := λ st, get_group (groups st) g |}.
  - unfold on_group. solve_view g.
  - unfold on_group. solve_view g.
  - unfold on_group. solve_view g.
  - intros o f st subs st' [op Ho]. revert o f st subs st' Ho. unfold on_group. solve_view g.
  - intros st f Hf. simpl. unfold sync_parked. rewrite !elem_of_app. right. left. by eapply get_parked.
Defined.

Definition event_view (e : nat) : ObjectView sync_op sync_objects unit event_op unit.
Proof.
  refine {| on := on_event e; view := λ st, get_event (events st) e |}.
  - unfold on_event. solve_view e.
  - unfold on_event. solve_view e.
  - unfold on_event. solve_view e.
  - intros o f st subs st' [op Ho]. revert o f st subs st' Ho. unfold on_event. solve_view e.
  - intros st f Hf. simpl. unfold sync_parked. rewrite !elem_of_app. right. right. by eapply get_parked.
Defined.

(** Fiber 0 holds mutex 0 and waits for mutex 1; fiber 1 has yielded with mutex 1. *)
Definition contended_program : program sync_op sync_objects :=
  MkProgram {[ 0 := MkFiber (AwaitThen (OnMutex 0 AsyncMutex.Lock) (AwaitThen SYield (AwaitThen (OnMutex 1 AsyncMutex.Lock)
      (AwaitThen (OnMutex 1 AsyncMutex.Unlock) (AwaitThen (OnMutex 0 AsyncMutex.Unlock) End))))) false None PLANNED;
    1 := MkFiber (AwaitThen (OnMutex 1 AsyncMutex.Lock) (AwaitThen SYield (AwaitThen SYield
      (AwaitThen (OnMutex 1 AsyncMutex.Unlock) End)))) false None PLANNED ]} 2 None (MkSync ∅ ∅ ∅) [] false.

Lemma contended_lookup f x : fibers contended_program !! f = Some x →
  (f = 0 ∨ f = 1) ∧ is_completed x = false ∧ state x = PLANNED ∧ awaiter_ x = None ∧
  disciplined (ObjectView0 := mutex_view 1) client0 (fiber_coro_ x).
Proof.
  intros Hf. simpl in Hf.
  apply lookup_insert_Some in Hf as [[<- <-]|[_ [<- <-]%lookup_singleton_Some]]; simpl; by auto 10.
Qed.

Lemma contended_ok : fibers_ok contended_program [0; 1].
Proof.
  split; try done.
  - vm_compute. repeat (apply NoDup_cons; split; [set_solver|]). apply NoDup_nil_2.
  - intros f. change ([0; 1] ++ Fiber.parked contended_program) with [0; 1]. rewrite !elem_of_cons, elem_of_nil. split.
    + intros [x Hx]. destruct (contended_lookup f x Hx). tauto.
    + intros [->|[->|[]]]; by eexists.
  - intros f [x Hx]. destruct (contended_lookup f x Hx) as [[->| ->] _]; simpl; lia.
  - intros f x Hx. by destruct (contended_lookup f x Hx) as (_ & ? & ? & _).
Qed.

(** The executor with both queued, over the intrusive list. *)
Definition contended_executor : IntrusiveManualExecutor (Q := nodes * IntrusiveList) :=
  MkManual (<[0 := Some 1]> (gset_to_gmap None (set_seq 0 12)), MkList 2 (Some 0) (Some 1)) 2.

Lemma program_refines_protocol_witness :
  let '(ran, rest, p') := spec_run fiber_task 4 [0; 1] contended_program in
  ((ran, rest) = ([0; 1; 0; 1], [1]) ∧ get_mutex (mutexes (objects p')) 1 = (true, [0])) ∧
  (∃ ex', RunAtMost fiber_task 4 contended_executor contended_program = Ret (4%Z, ex', p') ∧
    manual_wf (A := fid) ex' [1]) ∧
  ∃ s, protocol_rel (ObjectView0 := mutex_view 1) None p' (get_mutex (mutexes (objects p')) 1) s.
Proof.
  pose proof (program_refines_protocol (ObjectView0 := mutex_view 1) 12 4 0 contended_executor contended_program [0; 1]) as H.
  assert (∀ f, f < 12 → fq_live (tasks contended_executor) f) as Hl.
  { intros f Hf. do 12 (destruct f as [|f]; [vm_compute; by eexists|]). lia. }
  assert (manual_wf contended_executor [0; 1]) as Hwf.
  { split; [|done..]. split; try done; [split; [reflexivity|by eexists]|apply contended_ok]. }
  destruct H as [H _]; [done|done|apply contended_ok|reflexivity|vm_compute; lia|reflexivity|reflexivity|..].
  { intros f x Hx. by destruct (contended_lookup f x Hx) as (_ & _ & _ & ?). }
  specialize (H ltac:(unfold is_size; vm_compute; split; [discriminate|reflexivity])).
  destruct (spec_run fiber_task (Z.to_nat 4) [0; 1] contended_program) as [[ran rest] p'] eqn:E.
  assert (spec_run fiber_task 4 [0; 1] contended_program = (ran, rest, p')) as E' by exact E.
  rewrite E'. vm_compute in E. injection E as <- <- <-. split; [by split|exact H].
Defined.

(** What the protocol says of the mutex holds of programs: the fibers that hold mutex [m]
    in the program, by the protocol's account, are one at most, and there is one while
    fibers wait. *)
Lemma program_mutex_holder m p s :
  protocol_rel (ObjectView0 := mutex_view m) None p (get_mutex (mutexes (objects p)) m) s →
  (∀ f g, in_critical_section s f → in_critical_section s g → f = g) ∧
  (snd (get_mutex (mutexes (objects p)) m) ≠ [] → fst (get_mutex (mutexes (objects p)) m) = true).
Proof.
  intros [Hr _ Hd Hw _]. destruct (mutex_invariant s Hr) as [_ Hm]. split.
  - intros f g [Hf1 Hf2] [Hg1 Hg2]. apply (mi_one _ Hm); left; unfold own_local; [by rewrite Hf1|by rewrite Hg1].
  - rewrite <-Hd, <-Hw. apply Hm.
Qed.
