(* ===== verification/Workload.v ===== *)
(** * The workloads: a mutex and a wait group under many fibers

    The programs of example/workload: a fiber starts others, which increment a counter
    under a fiber mutex and report to a wait group, waits for them, and asserts that no
    increment is lost.  The routines are programs of SyncFiber.v, here on the manual
    executor; mutex 0 and group 0 are the locals of the first fiber, and the counter
    outlives it (that of bench/bench_pool.cpp does not: PoolProgram.v). *)

From stdpp Require Import prelude list gmap.
From S2P Require Import Prelude.
From S2P Require Import Fifo.
From S2P Require Import IntrusiveList.
From S2P Require Import ManualExecutor.
From S2P Require Import Parking.
From S2P Require Import AsyncMutex.
From S2P Require Import WaitGroup.
From S2P Require Import Fiber.
From S2P Require Import FiberRun.
From S2P Require Import SyncFiber.

(** ** The routines *)

(** [counter++], and the use of [counter] after [wg.Wait()]. *)
Abbreviation INCREMENT := 0.
Abbreviation CHECK := 1.

(** [std::lock_guard lock(mutex); counter++;], [times] times. *)
Fixpoint increments (times : nat) (k : body sync_op) : body sync_op :=
  match times with
  | 0 => k
  | S times' =>
      AwaitThen (OnMutex 0 Lock) (Effect INCREMENT (AwaitThen (OnMutex 0 Unlock) (increments times' k)))
  end.

(** The routine of the fibers that the first one starts. *)
Definition worker (kTasks : nat) : body sync_op := increments kTasks (AwaitThen (OnGroup 0 Done) End).

(** The loop that starts them. *)
Fixpoint start_workers (kFibers kTasks : nat) (k : body sync_op) : body sync_op :=
  match kFibers with
  | 0 => k
  | S kFibers' => GoThen (worker kTasks) (start_workers kFibers' kTasks k)
  end.

Definition workload (kFibers kTasks : nat) : body sync_op :=
  AwaitThen (OnGroup 0 (Add (Z.of_nat kFibers)))
    (start_workers kFibers kTasks (AwaitThen (OnGroup 0 Wait) (Effect CHECK End))).

Abbreviation sync_program := (program sync_op sync_objects).

Definition no_fibers : sync_program := MkProgram ∅ 0 None (MkSync ∅ ∅ ∅) [] false.

Section bench.
  Context {Q : Type} `{FifoLaws Q fid}.

(** [Go(pool, routine)] on the manual executor. *)
Definition Go_on (pool : IntrusiveManualExecutor (Q := Q)) (routine : body sync_op) (p : sync_program) :
    res (IntrusiveManualExecutor (Q := Q) * sync_program) :=
  let '(f, p') := Go p routine in pool' ← Submit pool f; Ret (pool', p').

(** The [main] of example/workload/mutex, whose fibers increment [kTasks] times each, and
    that of example/workload/pool, up to where they wait for the pool. *)
Definition mutex_main (kFibers kTasks : nat) (pool : IntrusiveManualExecutor (Q := Q)) :
    res (IntrusiveManualExecutor (Q := Q) * sync_program) :=
  Go_on pool (workload kFibers kTasks) no_fibers.

Definition pool_main (kTasks : nat) (pool : IntrusiveManualExecutor (Q := Q)) :
    res (IntrusiveManualExecutor (Q := Q) * sync_program) :=
  Go_on pool (workload kTasks 1) no_fibers.
End bench.

(** ** One turn of each routine *)

Implicit Types (p : sync_program) (f : fid) (b : body sync_op).

Definition mutex_free p : Prop := get_mutex (mutexes (objects p)) 0 = (false, []).

(** The program before and after a fiber has had effects, with the mutex free. *)
Record advanced (eff : list (fid * nat)) p p' : Prop := Advanced {
  ad_fibers : fibers p' = fibers p;
  ad_fresh : fresh p' = fresh p;
  ad_current : current_fiber p' = current_fiber p;
  ad_group : groups (objects p') = groups (objects p);
  ad_log : log p' = log p ++ eff;
  ad_failed : failed p' = failed p;
  ad_free : mutex_free p'
}.

Lemma advanced_refl p : mutex_free p → advanced [] p p.
Proof. intros Hm. split; try done. by rewrite app_nil_r. Qed.

Lemma advanced_trans e1 e2 p1 p2 p3 : advanced e1 p1 p2 → advanced e2 p2 p3 → advanced (e1 ++ e2) p1 p3.
Proof. intros [] []. split; try congruence. rewrite (assoc (++)). congruence. Qed.

(** An operation that goes on, and one that suspends. *)
Lemma run_call f o k p st : aw_call o f (objects p) = ([], st, false) →
  run_body f (AwaitThen o k) p = run_body f k (set_objects p st).
Proof. intros E. cbn [run_body]. rewrite E. by destruct (run_body f k (set_objects p st)) as [[? ?] ?]. Qed.

Lemma run_park f o k p st : aw_call o f (objects p) = ([], st, true) → is_Some (current_fiber p) →
  run_body f (AwaitThen o k) p = ([], set_objects p st, Some (o, k)).
Proof. intros E [c Hc]. cbn [run_body]. rewrite E. unfold Suspend_current. cbn. by rewrite Hc. Qed.

(** Nobody holds the mutex when a fiber asks for it: the executor runs one fiber at a
    time, and none leaves it in the critical section. *)
Lemma increments_run f times k p : mutex_free p →
  ∃ p', run_body f (increments times k) p = run_body f k p' ∧ advanced (replicate times (f, INCREMENT)) p p'.
Proof.
  revert p. induction times as [|times IH]; intros p Hm; [exists p; split; [done|by apply advanced_refl]|].
  set (p1 := set_objects (emit (set_objects p (MkSync (<[0 := (true, [])]> (mutexes (objects p))) (groups (objects p)) (events (objects p)))) f INCREMENT)
    (MkSync (<[0 := (false, [])]> (<[0 := (true, [])]> (mutexes (objects p)))) (groups (objects p)) (events (objects p)))).
  assert (advanced [(f, INCREMENT)] p p1) as Ha.
  { split; try done. unfold mutex_free. simpl. by rewrite get_insert, decide_True. }
  destruct (IH p1 (ad_free _ _ _ Ha)) as (p' & E & Ha'). exists p'. split; [|by eapply (advanced_trans [_])].
  rewrite <-E. unfold mutex_free in Hm. cbn [increments].
  rewrite (run_call _ _ _ _ (MkSync (<[0 := (true, [])]> (mutexes (objects p))) (groups (objects p)) (events (objects p))));
    [|cbn; unfold call_object; by rewrite Hm].
  cbn [run_body]. fold run_body. apply run_call. cbn. unfold call_object. by rewrite get_insert.
Qed.

(** ** The program between the turns *)

Section workload.
  Context (kFibers kTasks : nat).
  Hypothesis fits : (Z.of_nat kFibers < size_bound)%Z.

(** What is left of fiber 0 while it waits. *)
Definition waiting : AwaiterFiber sync_op := MkFiber (Effect CHECK End) false (Some (OnGroup 0 Wait)) PLANNED.

(** A fiber that has not run. *)
Definition planned : AwaiterFiber sync_op := MkFiber (worker kTasks) false None PLANNED.

(** The increments of the workers [1 .. j], in the order of their turns. *)
Definition worked (j : nat) : list (fid * nat) := seq 1 j ≫= (λ f, replicate kTasks (f, INCREMENT)).

Lemma worked_S j : worked (S j) = worked j ++ replicate kTasks (S j, INCREMENT).
Proof. unfold worked. rewrite seq_S, bind_app. simpl. by rewrite app_nil_r. Qed.

(** Fiber 0 waits, or is awake after the last worker; the workers up to [j] are done. *)
Record working (j : nat) p : Prop := Working {
  wk_fibers : ∀ f, fibers p !! f =
    if decide (f = 0) then Some waiting else if decide (j < f <= kFibers) then Some planned else None;
  wk_fresh : fresh p = S kFibers;
  wk_current : current_fiber p = None;
  wk_group : get_group (groups (objects p)) 0 = (Z.of_nat (kFibers - j), if decide (j < kFibers) then [0] else []);
  wk_log : log p = worked j;
  wk_failed : failed p = false;
  wk_free : mutex_free p
}.

(** A worker that leaves others behind submits nothing; the last one wakes fiber 0. *)
Lemma worker_turn j p : j < kFibers → working j p →
  ∃ p', fiber_task (S j) p = (if decide (S j = kFibers) then [0] else [], p') ∧ working (S j) p'.
Proof.
  intros Hj [Hf Hn Hc Hg Hl Hx Hm]. set (p1 := set_current p (Some (S j))).
  destruct (increments_run (S j) kTasks (AwaitThen (OnGroup 0 Done) End) p1 Hm) as (p2 & E & [F N C G L X M]).
  rewrite decide_True in Hg by done. unfold fiber_task, Run. rewrite Hf, decide_False, decide_True by lia.
  unfold Switch. cbn [is_completed planned fiber_coro_]. fold p1. unfold worker. rewrite E.
  cbn [run_body aw_call sync_awaiters sync_call]. unfold call_object. rewrite G. cbn [p1 set_current objects]. rewrite Hg.
  cbn [crit wait_group]. unfold Done_body.
  rewrite sz_sub_small, <-(Nat2Z.inj_sub _ 1) by (unfold is_size in *; lia).
  replace (kFibers - j - 1) with (kFibers - S j) by lia.
  assert (∀ w p', p' = set_fibers (set_current (set_objects p2 (MkSync (mutexes (objects p2)) (<[0 := (Z.of_nat (kFibers - S j), w)]> (groups (objects p))) (events (objects p2)))) None)
     (delete (S j) (<[S j := MkFiber End true None PLANNED]> (fibers p2))) →
     w = (if decide (S j < kFibers) then [0] else []) → working (S j) p') as Hw.
  { intros w p' -> ->. split; simpl; try congruence; try done.
    - intros f. rewrite delete_insert_eq, F. simpl. destruct (decide (f = S j)) as [->|Hne].
      + rewrite lookup_delete_eq. by rewrite !decide_False by lia.
      + rewrite lookup_delete_ne by done. rewrite Hf. repeat case_decide; done || lia.
    - by rewrite N.
    - by rewrite get_insert, decide_True.
    - rewrite L. simpl. rewrite Hl. symmetry. apply worked_S.
    - by rewrite X. }
  destruct (decide (S j = kFibers)) as [Hlast|Hmore].
  - rewrite decide_True by lia. cbn. rewrite lookup_insert_eq. cbn. eexists. split; [done|].
    eapply Hw; [done|]. by rewrite decide_False by lia.
  - rewrite decide_False by lia. cbn. rewrite lookup_insert_eq. cbn. eexists. split; [done|].
    eapply Hw; [done|]. by rewrite decide_True by lia.
Qed.

(** [Go] in the loop: the fibers it starts are queued in order. *)
Lemma start_workers_run i k p : is_Some (current_fiber p) →
  ∃ p', run_body 0 (start_workers i kTasks k) p =
      (let '(subs, p2, o) := run_body 0 k p' in (seq (fresh p) i ++ subs, p2, o)) ∧
    (∀ f, fibers p' !! f = if decide (fresh p <= f < fresh p + i) then Some planned else fibers p !! f) ∧
    fresh p' = fresh p + i ∧ current_fiber p' = current_fiber p ∧ objects p' = objects p ∧
    log p' = log p ∧ failed p' = failed p.
Proof.
  revert p. induction i as [|i IH]; intros p Hc.
  - exists p. simpl. split; [by destruct (run_body 0 k p) as [[? ?] ?]|].
    split; [intros f; by rewrite decide_False by lia|]. by rewrite Nat.add_0_r.
  - destruct Hc as [c Hc]. cbn [start_workers run_body]. unfold GoHere. rewrite Hc. cbn [Go].
    set (p1 := MkProgram _ _ _ _ _ _). destruct (IH p1) as (p' & E & Hf & Hn & Hc' & Ho & Hl & Hx); [by eexists|].
    exists p'. rewrite E. split; [by destruct (run_body 0 k p') as [[? ?] ?]|].
    split; [|split; [rewrite Hn; simpl; lia|by rewrite Hc']].
    intros f. rewrite Hf. simpl. destruct (decide (f = fresh p)) as [->|Hne].
    + rewrite lookup_insert_eq. by rewrite decide_False, decide_True by lia.
    + rewrite lookup_insert_ne by done. repeat case_decide; done || lia.
Qed.

(** The program after [Go(pool, ...)]. *)
Definition started : sync_program := snd (Go no_fibers (workload kFibers kTasks)).

(** The objects after [wg.Add]. *)
Definition added : sync_objects := MkSync ∅ {[0 := (Z.of_nat kFibers, [])]} ∅.

Lemma add_workers f : sync_call (OnGroup 0 (Add (Z.of_nat kFibers))) f (MkSync ∅ ∅ ∅) = ([], added, false).
Proof.
  transitivity (@nil fid, MkSync ∅ {[0 := (sz_add 0 (Z.of_nat kFibers), @nil fid)]} ∅, false); [done|].
  by rewrite sz_add_small, Z.add_0_l by (unfold is_size; lia).
Qed.

Lemma wait_workers f : 0 < kFibers → sync_call (OnGroup 0 Wait) f added = ([], added, true).
Proof.
  intros. unfold sync_call, call_object. change (get_group (groups added) 0) with (Z.of_nat kFibers, @nil fid).
  unfold crit, wait_group, Wait_body. by rewrite decide_True by lia.
Qed.

Lemma first_turn : 0 < kFibers → ∃ p', fiber_task 0 started = (seq 1 kFibers, p') ∧ working 0 p'.
Proof.
  intros Hpos.
  destruct (start_workers_run kFibers (AwaitThen (OnGroup 0 Wait) (Effect CHECK End))
    (set_objects (set_current started (Some 0)) added)) as (p' & E & Hf & Hn & Hc & Ho & Hl & Hx); [by eexists|].
  unfold fiber_task, Run. change (fibers started !! 0) with (Some (MkFiber (workload kFibers kTasks) false None PLANNED)).
  unfold Switch, workload. cbn [is_completed fiber_coro_]. rewrite (run_call _ _ _ _ added) by apply add_workers.
  rewrite E, (run_park _ _ _ _ added); [|rewrite Ho; exact (wait_workers 0 Hpos)|by rewrite Hc; eexists].
  cbn. rewrite lookup_insert_eq. cbn. change (get_group {[0 := _]} 0) with (Z.of_nat kFibers, @nil fid). cbn.
  eexists. split; [by rewrite !app_nil_r|]. split; simpl; try done.
  - intros f. destruct (decide (f = 0)) as [->|Hne]; [by rewrite lookup_insert_eq|].
    rewrite lookup_insert_ne, Hf by done. simpl. rewrite lookup_insert_ne by done. repeat case_decide; done || lia.
  - by rewrite Nat.sub_0_r, decide_True by done.
Qed.

(** The turns of the workers, from the one after [j]. *)
Lemma workers_turns m j p : j + S m = kFibers → working j p →
  ∃ p', spec_run fiber_task (S m) (seq (S j) (S m)) p = (seq (S j) (S m), [0], p') ∧ working kFibers p'.
Proof.
  revert j p. induction m as [|m IH]; intros j p Hjm Hw;
    destruct (worker_turn j p ltac:(lia) Hw) as (p1 & E & Hw1).
  1: cbn [spec_run seq]; rewrite E.
  - rewrite decide_True by lia. exists p1. split; [done|]. by replace kFibers with (S j) by lia.
  - destruct (IH (S j) p1 ltac:(lia) Hw1) as (p' & Er & Hw'). exists p'. split; [|done].
    change (seq (S j) (S (S m))) with (S j :: seq (S (S j)) (S m)). remember (S m) as m'. cbn [spec_run].
    rewrite E, decide_False, app_nil_r, Er by lia. done.
Qed.

(** Everything is done, and the check came last. *)
Record finished p : Prop := Finished {
  fi_fibers : fibers p = ∅;
  fi_log : log p = worked kFibers ++ [(0, CHECK)];
  fi_failed : failed p = false;
  fi_mutex : mutex_free p;
  fi_group : get_group (groups (objects p)) 0 = (0%Z, [])
}.

Lemma last_turn p : working kFibers p → ∃ p', fiber_task 0 p = ([], p') ∧ finished p'.
Proof.
  intros [Hf Hn Hc Hg Hl Hx Hm]. unfold fiber_task, Run. rewrite Hf, decide_True by done.
  cbn. rewrite lookup_insert_eq. cbn. eexists. split; [done|]. split; simpl; try done.
  - apply map_eq. intros f. rewrite delete_insert_eq, lookup_empty.
    destruct (decide (f = 0)) as [->|Hne]; [apply lookup_delete_eq|].
    rewrite lookup_delete_ne, Hf, decide_False by done. by rewrite decide_False by lia.
  - by rewrite Hl.
  - by rewrite Hg, Nat.sub_diag, decide_False by lia.
Qed.

(** How many tasks the executor runs: one for each worker, two for the first fiber. *)
Definition tasks_run : nat := if decide (kFibers = 0) then 1 else kFibers + 2.

Lemma workload_spec_run : ∃ ran p', spec_run fiber_task tasks_run [0] started = (ran, [], p') ∧
  length ran = tasks_run ∧ finished p'.
Proof.
  unfold tasks_run. destruct (decide (kFibers = 0)) as [E0|Hpos].
  - unfold started. rewrite E0. exists [0]. eexists. split; [done|]. split; [done|]. split; try done. by rewrite E0.
  - destruct first_turn as (p1 & E1 & W1); [lia|].
    destruct (workers_turns (kFibers - 1) 0 p1) as (p2 & E2 & W2); [lia|done|].
    replace (S (kFibers - 1)) with kFibers in E2 by lia. destruct (last_turn p2 W2) as (p3 & E3 & F3).
    exists ([0] ++ seq 1 kFibers ++ [0]), p3. split; [|split; [rewrite !length_app, length_seq; simpl; lia|done]].
    pose proof (spec_run_add fiber_task 1 (kFibers + 1) [0] started) as H1. cbn [spec_run] in H1.
    rewrite E1 in H1. cbn [app] in H1.
    pose proof (spec_run_add fiber_task kFibers 1 (seq 1 kFibers) p1) as H2. rewrite E2 in H2.
    cbn [spec_run] in H2. rewrite E3 in H2. cbn [app] in H2. rewrite H2 in H1.
    replace (kFibers + 2) with (1 + (kFibers + 1)) by lia. exact H1.
Qed.
End workload.

(** ** The workload on the executor *)

(** How many times the executor may have to run the fibers. *)
Definition workload_turns (kFibers kTasks : nat) : nat := 3 + kFibers * (2 * kTasks + 2).

Lemma turns_workload kFibers kTasks : turns (workload kFibers kTasks) = workload_turns kFibers kTasks.
Proof.
  assert (∀ k, turns (worker k) = 2 * k + 2) as Hw.
  { intros k. unfold worker. induction k as [|k IH]; simpl in *; lia. }
  unfold workload, workload_turns. cbn [turns].
  assert (∀ i k, turns (start_workers i kTasks k) = i * (2 * kTasks + 2) + turns k) as Hs.
  { intros i k. induction i as [|i IH]; [done|]. cbn [start_workers turns]. rewrite Hw, IH. lia. }
  rewrite Hs. simpl. lia.
Qed.

Lemma length_worked kTasks j : length (worked kTasks j) = j * kTasks.
Proof.
  induction j as [|j IH]; [done|]. rewrite worked_S, length_app, length_replicate, IH. lia.
Qed.

Lemma started_ok kFibers kTasks : fibers_ok (started kFibers kTasks) [0].
Proof.
  assert (∀ f x, fibers (started kFibers kTasks) !! f = Some x → f = 0 ∧ is_completed x = false ∧ state x = PLANNED) as Hd.
  { intros f x Hf. cbn in Hf. apply lookup_insert_Some in Hf as [[<- <-]|[_ Hf]]; [done|]. by rewrite lookup_empty in Hf. }
  split; try done.
  - apply NoDup_singleton.
  - intros f. change ([0] ++ parked (started kFibers kTasks)) with [0]. rewrite list_elem_of_singleton. split.
    + by intros [x []%Hd].
    + intros ->. by eexists.
  - intros f [x [-> _]%Hd]. simpl. lia.
  - intros f x []%Hd. done.
Qed.

Section run.
  Context {Q : Type} `{FifoLaws Q fid}.
  Implicit Types (pool : IntrusiveManualExecutor (Q := Q)).

(** C10: the workloads pass their assertion: on the manual executor, [kFibers] fibers that
    each increment the counter [kTasks] times under the mutex, and call [Done], let the
    first fiber through [wg.Wait] when and only when all the [kFibers * kTasks] increments
    have been made: the check is the last effect of all.  [Drain] empties the queue after
    one task for each worker and two for the first fiber, nothing fails, every fiber is
    deleted, and the mutex and the group are left free and without waiters, so that they
    may be destroyed. *)
Theorem workload_completes kFibers kTasks bound fuel pool :
  manual_wf pool [] → (∀ f, f < bound → fq_live (tasks pool) f) →
  workload_turns kFibers kTasks <= bound → (Z.of_nat bound < size_bound)%Z → bound < fuel →
  ∃ pool1 p1 pool2 p2, mutex_main kFibers kTasks pool = Ret (pool1, p1) ∧
    Drain fiber_task fuel pool1 p1 = Ret (Z.of_nat (tasks_run kFibers), pool2, p2) ∧
    manual_wf pool2 [] ∧ failed p2 = false ∧ fibers p2 = ∅ ∧
    log p2 = worked kTasks kFibers ++ [(0, CHECK)] ∧ length (worked kTasks kFibers) = kFibers * kTasks ∧
    get_mutex (mutexes (objects p2)) 0 = (false, []) ∧ get_group (groups (objects p2)) 0 = (0%Z, []).
Proof.
  intros Hwf Hlv Hb Hsz Hfu. assert (workload_turns kFibers kTasks = total_turns (started kFibers kTasks) [0]) as Ht.
  { rewrite <-turns_workload. unfold total_turns, turns_of. cbn. by rewrite Nat.add_0_r. }
  assert (kFibers + 2 < workload_turns kFibers kTasks) as Hlt by (unfold workload_turns; lia).
  destruct (Submit_wf (λ f, f < bound) pool [] 0 Hwf Hlv) as (pool1 & E1 & Hwf1 & Hlv1);
    [lia|apply not_elem_of_nil|simpl; unfold size_bound in *; lia|].
  destruct (fibers_drain bound fuel pool1 (started kFibers kTasks) [0] Hwf1 Hlv1 (started_ok kFibers kTasks))
    as (ran & pool2 & p2 & Er & Ed & Hwf2 & _); change ([0] ++ parked _) with [0]; rewrite <-?Ht; simpl; try lia.
  change ([0] ++ parked _) with [0] in Er. rewrite <-Ht in Er.
  destruct (workload_spec_run kFibers kTasks) as (ran' & p3 & E3 & Hlen & [F L X M G]); [unfold size_bound in *; lia|].
  pose proof (spec_run_add fiber_task (tasks_run kFibers) (workload_turns kFibers kTasks - tasks_run kFibers)
    [0] (started kFibers kTasks)) as Hadd. rewrite E3 in Hadd.
  replace (tasks_run kFibers + (workload_turns kFibers kTasks - tasks_run kFibers)) with (workload_turns kFibers kTasks) in Hadd
    by (unfold tasks_run; case_decide; lia).
  assert (∀ k, spec_run fiber_task k [] p3 = ([], [], p3)) as Hnil by (by intros []).
  rewrite Hnil, Er, app_nil_r in Hadd. injection Hadd as -> ->. rewrite Hlen in Ed.
  exists pool1, (started kFibers kTasks), pool2, p3. split; [unfold mutex_main, Go_on; cbn; by rewrite E1|].
  split_and!; try done. apply length_worked.
Qed.
End run.

(** The [main] of example/workload/pool with three tasks, on the executor over the intrusive list. *)
Definition idle_pool : IntrusiveManualExecutor (Q := nodes * IntrusiveList) :=
  MkManual (gset_to_gmap None (set_seq 0 15), MkList 0 None None) 0.

Lemma workload_completes_witness :
  ∃ pool1 p1 pool2 p2, pool_main 3 idle_pool = Ret (pool1, p1) ∧
    Drain fiber_task 16 pool1 p1 = Ret (5%Z, pool2, p2) ∧
    manual_wf (A := fid) pool2 [] ∧ failed p2 = false ∧ fibers p2 = ∅ ∧
    log p2 = [(1, INCREMENT); (2, INCREMENT); (3, INCREMENT)] ++ [(0, CHECK)] ∧ length (worked 1 3) = 3 ∧
    get_mutex (mutexes (objects p2)) 0 = (false, []) ∧ get_group (groups (objects p2)) 0 = (0%Z, []).
Proof.
  apply (workload_completes 3 1 15 16 idle_pool).
  - split; [split; try done; apply NoDup_nil_2|done..].
  - intros f Hf. do 15 (destruct f as [|f]; [vm_compute; by eexists|]). lia.
  - vm_compute. lia.
  - reflexivity.
  - lia.
Defined.
