(* ===== verification/Function.v ===== *)
(** * components/function: type-erased callables

    [BasicFunction] is a [shared_ptr] to a holder of the callable: copies share it, a
    move leaves a null pointer, and the last owner destroys it.  The holders are a
    heap of callables with their use counts; a call runs the callable and stores
    what it has become.  [None] is undefined behaviour: a call of an empty function,
    or a holder used after its destruction. *)

From stdpp Require Import prelude gmap.
From S2P Require Import Prelude.

Abbreviation holder_id := nat.

Abbreviation BasicFunction := (ptr holder_id).

Section basic_function.
  Context {F : Type}.

(** [free_function_holder] and the count of its owners. *)
Record free_function_holder := MkHolder { func : F; use_count : nat }.

(** The heap of holders and the next address. *)
Record functions := MkFunctions {
  holders : gmap holder_id free_function_holder;
  next_holder : holder_id
}.

Definition set_holder (h : functions) (l : holder_id) (x : free_function_holder) : functions :=
  MkFunctions (<[l := x]> (holders h)) (next_holder h).

(** The default constructor. *)
Definition empty_function : BasicFunction := None.

(** [BasicFunction(F f)]. *)
Definition make_function (f : F) (h : functions) : BasicFunction * functions :=
  (Some (next_holder h),
   MkFunctions (<[next_holder h := MkHolder f 1]> (holders h)) (S (next_holder h))).

(** The copy constructor: one more owner. *)
Definition copy_function (fn : BasicFunction) (h : functions) : option (BasicFunction * functions) :=
  match fn with
  | None => Some (None, h)
  | Some l => x ← holders h !! l; Some (fn, set_holder h l (MkHolder (func x) (S (use_count x))))
  end.

(** The move constructor: the new function, and what is left of the old one. *)
Definition move_function (fn : BasicFunction) : BasicFunction * BasicFunction := (fn, None).

(** The destructor: one owner less, and the last one deletes the holder. *)
Definition drop_function (fn : BasicFunction) (h : functions) : option functions :=
  match fn with
  | None => Some h
  | Some l =>
      x ← holders h !! l;
      Some (if decide (use_count x = 1) then MkFunctions (delete l (holders h)) (next_holder h)
            else set_holder h l (MkHolder (func x) (pred (use_count x))))
  end.

(** [explicit operator bool]. *)
Definition has_function (fn : BasicFunction) : bool := bool_decide (is_Some fn).

(** [operator()]: [call] is the callable's own [operator()], which returns a result and
    may change the callable. *)
Definition invoke {A} (call : F → F * A) (fn : BasicFunction) (h : functions) : option (A * functions) :=
  l ← fn;
  x ← holders h !! l;
  let '(f', a) := call (func x) in
  Some (a, set_holder h l (MkHolder f' (use_count x))).

(** ** Programs over variables of type [BasicFunction] *)

Section programs.
  Context {Arg R : Type} (call : Arg → F → F * R).

Abbreviation var := nat.

Inductive function_op :=
| Default (v : var) | Construct (v : var) (f : F) | Copy (v w : var) | Move (v w : var)
| Destroy (v : var) | Call (v : var) (a : Arg) | Bool (v : var).

Inductive function_out := OutUnit | OutResult (r : R) | OutBool (b : bool).

(** The variables in scope, and the heap. *)
Abbreviation state := (gmap var BasicFunction * functions)%type.

(** A declaration needs a name that is not in scope. *)
Definition declare {X} (vars : gmap var X) (v : var) (x : X) : option (gmap var X) :=
  match vars !! v with None => Some (<[v := x]> vars) | Some _ => None end.

Definition function_exec (o : function_op) (s : state) : option (function_out * state) :=
  let '(vars, h) := s in
  match o with
  | Default v => vars' ← declare vars v empty_function; Some (OutUnit, (vars', h))
  | Construct v f =>
      let '(fn, h') := make_function f h in
      vars' ← declare vars v fn; Some (OutUnit, (vars', h'))
  | Copy v w =>
      fn ← vars !! w; '(fn', h') ← copy_function fn h;
      vars' ← declare vars v fn'; Some (OutUnit, (vars', h'))
  | Move v w =>
      fn ← vars !! w;
      let '(fn', old) := move_function fn in
      vars' ← declare (<[w := old]> vars) v fn'; Some (OutUnit, (vars', h))
  | Destroy v => fn ← vars !! v; h' ← drop_function fn h; Some (OutUnit, (delete v vars, h'))
  | Call v a => fn ← vars !! v; '(r, h') ← invoke (call a) fn h; Some (OutResult r, (vars, h'))
  | Bool v => fn ← vars !! v; Some (OutBool (has_function fn), (vars, h))
  end.

Fixpoint script {S} (exec : function_op → S → option (function_out * S)) (os : list function_op) (s : S) :
    option (list function_out * S) :=
  match os with
  | [] => Some ([], s)
  | o :: os' => '(r, s1) ← exec o s; '(rs, s2) ← script exec os' s1; Some (r :: rs, s2)
  end.

(** The specification: variables name callables that live for ever. *)
Record names := MkNames { sp_vars : gmap var (ptr nat); sp_objects : list F }.

Definition spec_exec (o : function_op) (s : names) : option (function_out * names) :=
  let '(MkNames vars objs) := s in
  match o with
  | Default v => vars' ← declare vars v None; Some (OutUnit, MkNames vars' objs)
  | Construct v f =>
      vars' ← declare vars v (Some (length objs)); Some (OutUnit, MkNames vars' (objs ++ [f]))
  | Copy v w => p ← vars !! w; vars' ← declare vars v p; Some (OutUnit, MkNames vars' objs)
  | Move v w =>
      p ← vars !! w; vars' ← declare (<[w := None]> vars) v p; Some (OutUnit, MkNames vars' objs)
  | Destroy v => _ ← vars !! v; Some (OutUnit, MkNames (delete v vars) objs)
  | Call v a =>
      p ← vars !! v; i ← p; f ← objs !! i;
      let '(f', r) := call a f in Some (OutResult r, MkNames vars (<[i := f']> objs))
  | Bool v => p ← vars !! v; Some (OutBool (bool_decide (is_Some p)), s)
  end.

(** How many variables name [l]. *)
Definition owners (vars : gmap var BasicFunction) (l : holder_id) : nat :=
  size (filter (λ kv, kv.2 = Some l) vars).

(** The heap holds the callables that some variable names, with the number of these
    variables. *)
Definition counted (vars : gmap var BasicFunction) (objs : list F) (h : functions) : Prop :=
  ∀ l, holders h !! l =
    match owners vars l with
    | 0 => None
    | S n => f ← objs !! l; Some (MkHolder f (S n))
    end.

Record function_rel (s : state) (a : names) : Prop := FunctionRel {
  fr_vars : s.1 = sp_vars a;
  fr_next : next_holder s.2 = length (sp_objects a);
  fr_names : ∀ v l, sp_vars a !! v = Some (Some l) → l < length (sp_objects a);
  fr_counted : counted s.1 (sp_objects a) s.2
}.

Lemma owners_declare vars vars' v p l :
  declare vars v p = Some vars' → owners vars' l = owners vars l + (if decide (p = Some l) then 1 else 0).
Proof.
  unfold declare, owners. destruct (vars !! v) eqn:E; [done|]. intros [= <-]. rewrite map_filter_insert. simpl.
  case_decide as Ep.
  - rewrite map_size_insert_None; [lia|]. apply map_lookup_filter_None. by left.
  - rewrite delete_id by done. lia.
Qed.

Lemma owners_delete vars v p l :
  vars !! v = Some p → owners vars l = owners (delete v vars) l + (if decide (p = Some l) then 1 else 0).
Proof.
  intros E. rewrite <-(owners_declare (delete v vars) vars v p); [done|].
  unfold declare. by rewrite lookup_delete_eq, insert_delete_id.
Qed.

Lemma owners_set vars v p q l :
  vars !! v = Some p → owners (<[v := q]> vars) l + (if decide (p = Some l) then 1 else 0) =
    owners vars l + (if decide (q = Some l) then 1 else 0).
Proof.
  intros E. rewrite (owners_delete vars v p l E), (owners_delete (<[v := q]> vars) v q l).
  - rewrite delete_insert_eq. lia.
  - by rewrite lookup_insert_eq.
Qed.

Lemma owners_named vars v l : vars !! v = Some (Some l) → owners vars l ≠ 0.
Proof. intros E. rewrite (owners_delete vars v (Some l) l E), decide_True by done. lia. Qed.

(** The holder of [l], when [objs] are the callables. *)
Definition expected (vars : gmap var BasicFunction) (objs : list F) (l : holder_id) : option free_function_holder :=
  match owners vars l with 0 => None | S n => f ← objs !! l; Some (MkHolder f (S n)) end.

(** Only the holder [l] changes. *)
Lemma counted_change l vars vars' objs objs' h h' :
  counted vars objs h → (∀ k, k ≠ l → owners vars' k = owners vars k) →
  (∀ k, k ≠ l → owners vars k ≠ 0 → objs' !! k = objs !! k) →
  (∀ k, k ≠ l → holders h' !! k = holders h !! k) →
  holders h' !! l = expected vars' objs' l → counted vars' objs' h'.
Proof.
  intros Hc Ho Hobj Hh Hl k. destruct (decide (k = l)) as [->|Hne]; [done|].
  rewrite Hh, Ho, (Hc k) by done. specialize (Hobj k Hne).
  destruct (owners vars k); [done|]. by rewrite Hobj.
Qed.

Lemma counted_same vars vars' objs h :
  counted vars objs h → (∀ k, owners vars' k = owners vars k) → counted vars' objs h.
Proof. intros Hc Ho k. by rewrite Ho. Qed.

Lemma rel_bounded s a l : function_rel s a → owners s.1 l ≠ 0 → l < length (sp_objects a).
Proof.
  intros Hr Hl. apply map_size_ne_0_lookup in Hl as [v [p [Hv Hp]%map_lookup_filter_Some]].
  simpl in Hp. subst p. apply (fr_names _ _ Hr v). by rewrite <-(fr_vars _ _ Hr).
Qed.

(** A named holder: its callable, and the number of its names. *)
Lemma rel_holder s a v l :
  function_rel s a → sp_vars a !! v = Some (Some l) →
  ∃ f, sp_objects a !! l = Some f ∧ holders s.2 !! l = Some (MkHolder f (owners s.1 l)) ∧ owners s.1 l ≠ 0.
Proof.
  intros Hr Hv. pose proof (fr_names _ _ Hr v l Hv) as Hl. apply lookup_lt_is_Some in Hl as [f Hf].
  rewrite <-(fr_vars _ _ Hr) in Hv. pose proof (owners_named _ _ _ Hv) as Hn.
  exists f. split; [done|]. split; [|done]. rewrite (fr_counted _ _ Hr l), Hf.
  by destruct (owners s.1 l).
Qed.

Lemma declared_names {X} (vars vars' : gmap var X) v x w y :
  declare vars v x = Some vars' → vars' !! w = Some y → y = x ∨ vars !! w = Some y.
Proof.
  unfold declare. destruct (vars !! v); [done|]. intros [= <-] [[_ ->]|[_ ?]]%lookup_insert_Some; auto.
Qed.

(** A declaration that keeps the callables. *)
Lemma declare_rel vars vars' h h' objs v p :
  function_rel (vars, h) (MkNames vars objs) → declare vars v p = Some vars' →
  (∀ l, p = Some l → l < length objs) → next_holder h' = next_holder h → counted vars' objs h' →
  function_rel (vars', h') (MkNames vars' objs).
Proof.
  intros Hr Hd Hp Hn Hc. split; [done| | |done].
  - simpl. rewrite Hn. apply Hr.
  - intros w l Hw. destruct (declared_names _ _ _ _ _ _ Hd Hw) as [E|E]; [by apply Hp|].
    by apply (fr_names _ _ Hr w).
Qed.

Lemma construct_sim v f vars h objs vars' :
  function_rel (vars, h) (MkNames vars objs) → declare vars v (Some (length objs)) = Some vars' →
  function_rel (vars', (make_function f h).2) (MkNames vars' (objs ++ [f])).
Proof.
  intros Hr Hd. pose proof (fr_next _ _ Hr) as Hn. simpl in Hn. split; simpl; [done| | |].
  - rewrite Hn, length_app. simpl. lia.
  - intros w l Hw. rewrite length_app. simpl. destruct (declared_names _ _ _ _ _ _ Hd Hw) as [E|E].
    + simplify_eq. lia.
    + pose proof (fr_names _ _ Hr w l E). simpl in *. lia.
  - apply (counted_change (length objs) vars _ objs _ h); [apply Hr|..].
    + intros k Hk. rewrite (owners_declare _ _ _ _ k Hd), decide_False by congruence. lia.
    + intros k _ Hk. apply (rel_bounded _ _ _ Hr) in Hk. by apply lookup_app_l.
    + intros k Hk. simpl. rewrite Hn. by rewrite lookup_insert_ne.
    + unfold expected. simpl. rewrite Hn, lookup_insert_eq, (owners_declare _ _ _ _ (length objs) Hd), decide_True by done.
      destruct (decide (owners vars (length objs) = 0)) as [->|Hne].
      * by rewrite list_lookup_middle.
      * apply (rel_bounded _ _ _ Hr) in Hne. simpl in Hne. lia.
Qed.

Lemma copy_sim v w vars h objs p vars' :
  function_rel (vars, h) (MkNames vars objs) → vars !! w = Some p → declare vars v p = Some vars' →
  ∃ h', copy_function p h = Some (p, h') ∧ function_rel (vars', h') (MkNames vars' objs).
Proof.
  intros Hr Hw Hd. destruct p as [l|]; simpl.
  - destruct (rel_holder _ _ w l Hr Hw) as (f & Hf & Hl & Hn). simpl in Hf, Hl, Hn. rewrite Hl. simpl.
    eexists. split; [done|]. apply (declare_rel vars _ h _ _ v (Some l) Hr Hd).
    + intros k [= <-]. by eapply lookup_lt_Some.
    + done.
    + apply (counted_change l vars _ objs _ h); [apply Hr|..|done| |].
      * intros k Hk. rewrite (owners_declare _ _ _ _ k Hd), decide_False by congruence. lia.
      * intros k Hk. simpl. by rewrite lookup_insert_ne.
      * unfold expected. simpl. rewrite lookup_insert_eq, (owners_declare _ _ _ _ l Hd), decide_True by done.
        rewrite Nat.add_1_r, Hf. done.
  - eexists. split; [done|]. apply (declare_rel vars _ h _ _ v None Hr Hd); try done.
    apply (counted_same vars); [apply Hr|]. intros k. rewrite (owners_declare _ _ _ _ k Hd).
    rewrite decide_False by done. lia.
Qed.

Lemma move_sim v w vars h objs p vars' :
  function_rel (vars, h) (MkNames vars objs) → vars !! w = Some p →
  declare (<[w := None]> vars) v p = Some vars' → function_rel (vars', h) (MkNames vars' objs).
Proof.
  intros Hr Hw Hd. split; [done|apply Hr| |].
  - intros u l Hu. destruct (declared_names _ _ _ _ _ _ Hd Hu) as [<-|E].
    + by apply (fr_names _ _ Hr w).
    + apply lookup_insert_Some in E as [[_ E]|[_ E]]; [done|]. by apply (fr_names _ _ Hr u).
  - apply (counted_same vars); [apply Hr|]. intros k. simpl. rewrite (owners_declare _ _ _ _ k Hd).
    pose proof (owners_set vars w p None k Hw) as Ho. rewrite (decide_False (P := None = Some k)) in Ho by done. lia.
Qed.

Lemma destroy_sim v vars h objs p :
  function_rel (vars, h) (MkNames vars objs) → vars !! v = Some p →
  ∃ h', drop_function p h = Some h' ∧ function_rel (delete v vars, h') (MkNames (delete v vars) objs).
Proof.
  intros Hr Hv. assert (∀ u l, delete v vars !! u = Some (Some l) → l < length objs) as Hnm.
  { intros u l [_ Hu]%lookup_delete_Some. by apply (fr_names _ _ Hr u). }
  destruct p as [l|]; simpl.
  - destruct (rel_holder _ _ v l Hr Hv) as (f & Hf & Hl & Hn). simpl in Hf, Hl, Hn. rewrite Hl. simpl.
    eexists. split; [done|]. pose proof (owners_delete vars v (Some l) l Hv) as Ho.
    rewrite decide_True in Ho by done.
    split; [done|destruct (decide _); apply Hr|apply Hnm|].
    apply (counted_change l vars _ objs _ h); [apply Hr|..|done| |].
    + intros k Hk. rewrite (owners_delete vars v (Some l) k Hv), (decide_False (P := Some l = Some k)) by congruence. simpl. lia.
    + intros k Hk. simpl. case_decide; simpl; [by rewrite lookup_delete_ne|by rewrite lookup_insert_ne].
    + unfold expected. simpl. case_decide; simpl.
      * rewrite lookup_delete_eq. by replace (owners (delete v vars) l) with 0 by lia.
      * rewrite lookup_insert_eq. destruct (owners (delete v vars) l) as [|n]; [lia|].
        rewrite Hf. simpl. do 2 f_equal. lia.
  - eexists. split; [done|]. split; [done|apply Hr|apply Hnm|]. apply (counted_same vars); [apply Hr|].
    intros k. rewrite (owners_delete vars v None k Hv). rewrite (decide_False (P := None = Some k)) by done. simpl. lia.
Qed.

Lemma call_sim v a vars h objs l f :
  function_rel (vars, h) (MkNames vars objs) → vars !! v = Some (Some l) → objs !! l = Some f →
  ∃ h', invoke (call a) (Some l) h = Some ((call a f).2, h') ∧
    function_rel (vars, h') (MkNames vars (<[l := (call a f).1]> objs)).
Proof.
  intros Hr Hv Hf. destruct (rel_holder _ _ v l Hr Hv) as (f' & Hf' & Hl & Hn).
  simpl in Hf', Hl, Hn. simplify_eq. unfold invoke. simpl. rewrite Hl. simpl.
  destruct (call a f) as [f' r]. eexists. split; [done|]. split; simpl; [done| | |].
  - rewrite length_insert. apply Hr.
  - intros u k Hu. rewrite length_insert. by apply (fr_names _ _ Hr u).
  - apply (counted_change l vars _ objs _ h); [apply Hr|done|..].
    + intros k Hk _. by rewrite list_lookup_insert_ne.
    + intros k Hk. simpl. by rewrite lookup_insert_ne.
    + unfold expected. simpl. rewrite lookup_insert_eq, list_lookup_insert_eq by (by eapply lookup_lt_Some).
      by destruct (owners vars l).
Qed.

(** One operation: undefined exactly when the specification says so. *)
Lemma function_sim o s a :
  function_rel s a →
  match spec_exec o a with
  | Some (r, a') => ∃ s', function_exec o s = Some (r, s') ∧ function_rel s' a'
  | None => function_exec o s = None
  end.
Proof.
  destruct s as [vars h], a as [vars' objs]. intros Hr. pose proof (fr_vars _ _ Hr) as E. simpl in E. subst vars'.
  pose proof (fr_next _ _ Hr) as Hn. simpl in Hn.
  destruct o as [v|v f|v w|v w|v|v a|v]; simpl.
  - destruct (declare vars v None) as [vars'|] eqn:Hd; unfold empty_function; rewrite Hd; [|done].
    eexists. split; [done|]. apply (declare_rel vars _ h _ _ v None Hr Hd); try done.
    apply (counted_same vars); [apply Hr|]. intros k. rewrite (owners_declare _ _ _ _ k Hd).
    rewrite decide_False by done. lia.
  - rewrite Hn. destruct (declare vars v _) as [vars'|] eqn:Hd; [|done]. simpl. eexists. split; [done|].
    pose proof (construct_sim v f vars h objs vars' Hr Hd) as Hc. unfold make_function in Hc. by rewrite Hn in Hc.
  - destruct (vars !! w) as [p|] eqn:Hw; [|done]. simpl.
    destruct (declare vars v p) as [vars'|] eqn:Hd; simpl.
    + destruct (copy_sim v w vars h objs p vars' Hr Hw Hd) as (h' & E & Hr'). rewrite E. simpl. rewrite Hd. eauto.
    + destruct (copy_function p h) as [[fn h']|] eqn:E; [|done]. simpl.
      assert (fn = p) as ->; [|by rewrite Hd]. destruct p as [l|]; simpl in E; [|by simplify_eq].
      destruct (holders h !! l); by simplify_eq/=.
  - destruct (vars !! w) as [p|] eqn:Hw; [|done]. simpl.
    destruct (declare _ v p) as [vars'|] eqn:Hd; [|done]. simpl. eauto using move_sim.
  - destruct (vars !! v) as [p|] eqn:Hv; [|done]. simpl.
    destruct (destroy_sim v vars h objs p Hr Hv) as (h' & E & Hr'). rewrite E. simpl. eauto.
  - destruct (vars !! v) as [[l|]|] eqn:Hv; try done. simpl.
    destruct (rel_holder _ _ v l Hr Hv) as (f & Hf & _). simpl in Hf. rewrite Hf. simpl.
    destruct (call_sim v a vars h objs l f Hr Hv Hf) as (h' & E & Hr').
    unfold invoke in E. simpl in E. rewrite E. simpl. destruct (call a f). eauto.
  - destruct (vars !! v) as [p|] eqn:Hv; [|done]. simpl. eauto.
Qed.

(** C38: for every program that declares, copies, moves, calls, tests and destroys
    functions, the results are those of variables that name callables (copies share
    one, a moved-from function is empty), undefined behaviour occurs exactly at the
    call of an empty function or the use of an undeclared variable, and the heap
    holds exactly the callables that some variable names, each with the number of
    these variables: every callable is destroyed with its last owner, once. *)
Theorem basic_function_refines os s a :
  function_rel s a →
  match script spec_exec os a with
  | Some (rs, a') =>
      ∃ s', script function_exec os s = Some (rs, s') ∧ s'.1 = sp_vars a' ∧
        counted s'.1 (sp_objects a') s'.2
  | None => script function_exec os s = None
  end.
Proof.
  revert s a. induction os as [|o os IH]; intros s a Hr; simpl.
  - exists s. split; [done|]. split; apply Hr.
  - pose proof (function_sim o s a Hr) as H. destruct (spec_exec o a) as [[r a']|]; simpl; [|by rewrite H].
    destruct H as (s1 & E & Hr1). rewrite E. simpl. specialize (IH s1 a' Hr1).
    destruct (script spec_exec os a') as [[rs a'']|]; simpl; [|by rewrite IH].
    destruct IH as (s' & E' & H'). rewrite E'. simpl. eauto.
Qed.

Lemma no_functions_rel : function_rel (∅, MkFunctions ∅ 0) (MkNames ∅ []).
Proof. split; [done|done|by intros v l|by intros l]. Qed.
End programs.
End basic_function.

(** A counter that adds its argument and returns the total. *)
Definition add_to (a total : nat) : nat * nat := (total + a, total + a).

(** A copy shares the counter; the last of its owners destroys it. *)
Lemma basic_function_refines_witness :
  let os := [Construct 0 10; Copy 1 0; Call 0 5; Call 1 3; Move 2 0; Bool 0; Destroy 1; Call 2 1] in
  ∃ s', script (function_exec add_to) os (∅, MkFunctions ∅ 0) =
      Some ([OutUnit; OutUnit; OutResult 15; OutResult 18; OutUnit; OutBool false; OutUnit; OutResult 19], s') ∧
    s'.1 = {[ 0 := None; 2 := Some 0 ]} ∧ counted s'.1 [19] s'.2.
Proof.
  exact (basic_function_refines add_to
    [Construct 0 10; Copy 1 0; Call 0 5; Call 1 3; Move 2 0; Bool 0; Destroy 1; Call 2 1]
    (∅, MkFunctions ∅ 0) (MkNames ∅ []) no_functions_rel).
Defined.
