(* ===== verification/FreeFunction.v ===== *)
(** * executor/submit, executor/task/internal: functions on an executor

    [Submit(executor, routine)] wraps a [Routine], a [BasicFunction<void()>], in a
    [TaskFreeFunction], which calls it and deletes itself.  The tasks and the holders
    of their routines are two heaps; the moves through the parameters of [Submit],
    [Make] and the constructor are written out.  The executor is the one of
    [ManualExecutor.v], over any queue with the interface of [Fifo.v]. *)

From stdpp Require Import prelude list gmap.
From S2P Require Import Prelude.
From S2P Require Import Fifo.
From S2P Require Import IntrusiveList.
From S2P Require Import ManualExecutor.
From S2P Require Import Function.

(** What a callable does when it is called: effects, and submissions of other
    callables to the same executor. *)
Inductive closure := Return | Effect (a : nat) (k : closure) | SubmitThen (child k : closure).

Abbreviation Routine := BasicFunction.

Abbreviation task := nat.

(** The tasks that exist, each with its routine, the next address of a task, and the
    effects so far. *)
Record program := MkProgram {
  heap : functions (F := closure);
  free_tasks : gmap task Routine;
  next_task : task;
  log : list nat;
  failed : bool
}.

Definition set_heap (p : program) (h : functions) : program :=
  MkProgram h (free_tasks p) (next_task p) (log p) (failed p).

Definition emit (p : program) (a : nat) : program :=
  MkProgram (heap p) (free_tasks p) (next_task p) (log p ++ [a]) (failed p).

Definition fail (p : program) : program :=
  MkProgram (heap p) (free_tasks p) (next_task p) (log p) true.

(** The constructor: its parameter is moved into the member and destroyed. *)
Definition TaskFreeFunction (p : program) (routine_ : Routine) : option (task * program) :=
  let '(routine, routine_) := move_function routine_ in
  h ← drop_function routine_ (heap p);
  Some (next_task p,
    MkProgram h (<[next_task p := routine]> (free_tasks p)) (S (next_task p)) (log p) (failed p)).

(** [Make]: its parameter is moved into that of the constructor. *)
Definition Make (p : program) (routine_ : Routine) : option (task * program) :=
  let '(arg, routine_) := move_function routine_ in
  '(t, p) ← TaskFreeFunction p arg;
  h ← drop_function routine_ (heap p);
  Some (t, set_heap p h).

(** [NExecutors::Submit] up to [executor.Submit], called with a callable, which its
    parameter wraps. *)
Definition Submit_function (p : program) (f : closure) : option (task * program) :=
  let '(routine, h) := make_function f (heap p) in
  let '(arg, routine) := move_function routine in
  '(t, p) ← Make (set_heap p h) arg;
  h ← drop_function routine (heap p);
  Some (t, set_heap p h).

Fixpoint run_closure (c : closure) (p : program) : option (list task * program) :=
  match c with
  | Return => Some ([], p)
  | Effect a k => run_closure k (emit p a)
  | SubmitThen child k =>
      '(t, p) ← Submit_function p child;
      '(subs, p) ← run_closure k p;
      Some (t :: subs, p)
  end.

(** [TaskFreeFunction::Run]: [routine()], [delete this]. *)
Definition Run (t : task) (p : program) : option (list task * program) :=
  routine ← free_tasks p !! t;
  '(c, h) ← invoke (λ f, (f, f)) routine (heap p);
  '(subs, p) ← run_closure c (set_heap p h);
  h ← drop_function routine (heap p);
  Some (subs, MkProgram h (delete t (free_tasks p)) (next_task p) (log p) (failed p)).

(** [Run] as the executor calls it. *)
Definition free_task (t : task) (p : program) : list task * program :=
  match Run t p with Some r => r | None => ([], fail p) end.

(** ** What the callables do, without tasks *)

(** The effects of a callable, and the callables it submits. *)
Fixpoint effects (c : closure) : list nat :=
  match c with Return => [] | Effect a k => a :: effects k | SubmitThen _ k => effects k end.

Fixpoint children (c : closure) : list closure :=
  match c with Return => [] | Effect _ k => children k | SubmitThen child k => child :: children k end.

(** How many callables a callable leads to, with itself. *)
Fixpoint calls (c : closure) : nat :=
  match c with Return => 1 | Effect _ k => calls k | SubmitThen child k => calls child + calls k end.

Definition total_calls (cs : list closure) : nat := sum_list_with calls cs.

(** Running [n] callables, first in first out. *)
Fixpoint in_order (n : nat) (cs : list closure) : list nat :=
  match n, cs with
  | S n', c :: cs' => effects c ++ in_order n' (cs' ++ children c)
  | _, _ => []
  end.

Lemma calls_pos c : 1 <= calls c.
Proof. induction c; simpl; lia. Qed.

Lemma calls_children c : calls c = S (total_calls (children c)).
Proof. induction c as [|a k IH|c1 _ k IH]; simpl; [done|done|]. rewrite IH. unfold total_calls. lia. Qed.

Lemma total_calls_length cs : length cs <= total_calls cs.
Proof.
  unfold total_calls. induction cs as [|c cs IH]; simpl; [done|]. pose proof (calls_pos c). lia.
Qed.

Lemma total_calls_turn c cs : total_calls (c :: cs) = S (total_calls (cs ++ children c)).
Proof. unfold total_calls. rewrite sum_list_with_app. simpl. rewrite calls_children. unfold total_calls. lia. Qed.

(** ** The heaps behind a queue of tasks *)

(** The tasks that exist are those of [q], task [t] owns the only reference to the
    holder [t], and their callables are [cs]; there are no other holders. *)
Record submitted (p : program) (q : list task) (cs : list closure) : Prop := Submitted {
  sb_next : next_task p = next_holder (heap p);
  sb_nodup : NoDup q;
  sb_bound : ∀ t, t ∈ q → t < next_task p;
  sb_tasks : ∀ t, free_tasks p !! t = if decide (t ∈ q) then Some (Some t) else None;
  sb_holders : Forall2 (λ t c, holders (heap p) !! t = Some (MkHolder c 1)) q cs;
  sb_rest : ∀ t, t ∉ q → holders (heap p) !! t = None;
  sb_failed : failed p = false
}.

Lemma submitted_fresh p q cs : submitted p q cs → next_task p ∉ q.
Proof. intros Hs Hin%(sb_bound _ _ _ Hs). lia. Qed.

Lemma Submit_function_submits p q cs c :
  submitted p q cs → ∃ p', Submit_function p c = Some (next_task p, p') ∧
    submitted p' (q ++ [next_task p]) (cs ++ [c]) ∧ log p' = log p ∧ next_task p' = S (next_task p).
Proof.
  intros Hs. pose proof (submitted_fresh p q cs Hs) as Hf. destruct Hs as [Hn Hnd Hb Ht Hh Hr Hfl].
  unfold Submit_function, Make, TaskFreeFunction, move_function. simpl.
  eexists. split; [done|]. split; [|done]. split; simpl.
  - by rewrite Hn.
  - apply NoDup_app. split; [done|]. split; [|apply NoDup_singleton]. set_solver.
  - intros t. rewrite elem_of_app, list_elem_of_singleton. intros [?%Hb| ->]; lia.
  - intros t. rewrite <-Hn. destruct (decide (t = next_task p)) as [->|Hne].
    + rewrite lookup_insert_eq, decide_True by set_solver. done.
    + rewrite lookup_insert_ne, Ht by done. apply decide_ext. set_solver.
  - apply Forall2_app; [|constructor; [|done]].
    + eapply forall2_impl_in; [exact Hh|]. intros t c' Hin Hc. simpl in Hc.
      rewrite lookup_insert_ne; [done|]. intros <-. rewrite <-Hn in Hin. done.
    + by rewrite Hn, lookup_insert_eq.
  - intros t. rewrite not_elem_of_app. intros [Hq Hne]. rewrite lookup_insert_ne; [by apply Hr|].
    rewrite <-Hn. set_solver.
  - done.
Qed.

Lemma run_closure_submits c p q cs :
  submitted p q cs → ∃ subs p', run_closure c p = Some (subs, p') ∧
    submitted p' (q ++ subs) (cs ++ children c) ∧ log p' = log p ++ effects c ∧
    next_task p' = next_task p + length subs.
Proof.
  revert p q cs. induction c as [|a k IH|c _ k IH]; intros p q cs Hs; cbn [run_closure children effects].
  - exists [], p. rewrite !app_nil_r. by rewrite Nat.add_0_r.
  - destruct (IH (emit p a) q cs) as (subs & p' & E & Hs' & El & En); [by destruct Hs|].
    exists subs, p'. split; [done|]. split; [done|]. split; [|done]. rewrite El. simpl. by rewrite <-(assoc (++)).
  - destruct (Submit_function_submits p q cs c Hs) as (p1 & E1 & Hs1 & El1 & En1). rewrite E1. simpl.
    destruct (IH p1 _ _ Hs1) as (subs & p' & E & Hs' & El & En). rewrite E. simpl.
    exists (next_task p :: subs), p'. split; [done|]. rewrite <-!(assoc (++)) in Hs'. split; [done|].
    split; [by rewrite El, El1|]. rewrite En, En1. simpl. lia.
Qed.

(** A whole turn of the executor. *)
Lemma free_task_turn t q c cs p :
  submitted p (t :: q) (c :: cs) → ∃ subs p', free_task t p = (subs, p') ∧
    submitted p' (q ++ subs) (cs ++ children c) ∧ log p' = log p ++ effects c ∧
    next_task p' = next_task p + length subs.
Proof.
  intros Hs. pose proof (sb_holders _ _ _ Hs) as Hh. apply Forall2_cons in Hh as [Hh _].
  assert (free_tasks p !! t = Some (Some t)) as Et
    by (rewrite (sb_tasks _ _ _ Hs); apply decide_True; by left).
  unfold free_task, Run, invoke. rewrite Et. simpl. rewrite Hh. simpl.
  destruct (run_closure_submits c (set_heap p (set_holder (heap p) t (MkHolder c 1))) (t :: q) (c :: cs))
    as (subs & p1 & E & Hs1 & El & En).
  { destruct p as [[hs nh] ft nt lg fl]. simpl in *. unfold set_heap, set_holder. simpl.
    rewrite insert_id by done. done. }
  rewrite E. simpl. destruct Hs1 as [Hn Hnd Hb Ht Hh1 Hr Hfl].
  simpl in Hnd, Hh1. apply NoDup_cons in Hnd as [Htq Hnd]. apply Forall2_cons in Hh1 as [Hh0 Hh1].
  rewrite Hh0. simpl. do 2 eexists. split; [done|]. split; [|done]. split; simpl; try done.
  - intros u Hu. apply Hb. by right.
  - intros u. destruct (decide (u = t)) as [->|Hne].
    + by rewrite lookup_delete_eq, decide_False.
    + rewrite lookup_delete_ne, Ht by done. apply decide_ext. simpl. set_solver.
  - eapply forall2_impl_in; [exact Hh1|]. intros u c' Hin Hc. simpl in Hc.
    rewrite lookup_delete_ne; [done|]. by intros <-.
  - intros u Hu. destruct (decide (u = t)) as [->|Hne]; [by rewrite lookup_delete_eq|].
    rewrite lookup_delete_ne by done. apply Hr. simpl. set_solver.
Qed.

(** ** On the manual executor *)

Definition empty_program : program := MkProgram (MkFunctions ∅ 0) ∅ 0 [] false.

Section executor.
  Context {Q : Type} `{FifoLaws Q task}.
  Implicit Types ex : IntrusiveManualExecutor (Q := Q).

(** [NExecutors::Submit(executor, c)] for each of the callables. *)
Fixpoint submit_closures ex (p : program) (cs : list closure) : res (IntrusiveManualExecutor * program) :=
  match cs with
  | [] => Ret (ex, p)
  | c :: cs' =>
      '(t, p) ← checked (Submit_function p c);
      ex ← Submit ex t;
      submit_closures ex p cs'
  end.

Context (bound : nat).

(** The addresses at which tasks are allocated. *)
Definition mapped_task (t : task) : Prop := t < bound.

Lemma submit_closures_submits cs ex p q ds :
  manual_wf ex q → all_live mapped_task ex → submitted p q ds →
  next_task p + length cs <= bound → (Z.of_nat (length q + length cs) < size_bound)%Z →
  ∃ ex' p' q', submit_closures ex p cs = Ret (ex', p') ∧ manual_wf ex' q' ∧ all_live mapped_task ex' ∧
    submitted p' q' (ds ++ cs) ∧ log p' = log p ∧ next_task p' = next_task p + length cs ∧
    length q' = length q + length cs.
Proof.
  revert ex p q ds. induction cs as [|c cs IH]; intros ex p q ds Hwf Hlv Hs Hb Hsz.
  - exists ex, p, q. rewrite app_nil_r, !Nat.add_0_r. done.
  - cbn [submit_closures]. cbn [length] in Hb, Hsz.
    destruct (Submit_function_submits p q ds c Hs) as (p1 & E1 & Hs1 & El1 & En1). rewrite E1.
    destruct (Submit_wf mapped_task ex q (next_task p) Hwf Hlv) as (ex1 & E2 & Hwf1 & Hlv1);
      [unfold mapped_task; lia|by apply (submitted_fresh _ _ _ Hs)|lia|].
    simpl. rewrite E2. simpl.
    destruct (IH ex1 p1 _ _ Hwf1 Hlv1 Hs1) as (ex' & p' & q' & E & Hwf' & Hlv' & Hs' & El & En & Hl);
      [lia|rewrite length_app; simpl; lia|].
    exists ex', p', q'. split; [done|]. rewrite <-(assoc (++)) in Hs'. split; [done|]. split; [done|].
    split; [done|]. rewrite length_app in Hl. simpl in Hl. repeat split; [congruence|lia..].
Qed.

(** The addresses suffice: every call left allocates at most one task besides those
    that are queued. *)
Lemma closures_disciplined k p q cs :
  submitted p q cs → (Z.of_nat (total_calls cs) < size_bound)%Z →
  next_task p + total_calls cs <= bound + length q →
  disciplined_run free_task mapped_task k q p.
Proof.
  revert p q cs. induction k as [|k IH]; intros p [|t q] [|c cs] Hs Hsz Hb; try done.
  { by apply sb_holders, Forall2_length in Hs. }
  cbn [disciplined_run]. destruct (free_task_turn t q c cs p Hs) as (subs & p1 & E & Hs1 & _ & En).
  rewrite E. rewrite total_calls_turn in Hsz, Hb. cbn [length] in Hb.
  pose proof (Forall2_length _ _ _ (sb_holders _ _ _ Hs1)) as Hlen.
  pose proof (total_calls_length (cs ++ children c)) as Hle. rewrite <-Hlen, length_app in Hle.
  split; [|split; [|split]].
  - intros u Hu. unfold mapped_task. assert (u < next_task p1); [|lia].
    apply (sb_bound _ _ _ Hs1). set_solver.
  - apply (sb_nodup _ _ _ Hs1).
  - lia.
  - apply (IH p1 _ _ Hs1); [lia|]. rewrite length_app. lia.
Qed.

Lemma closures_run k p q cs :
  submitted p q cs → total_calls cs <= k →
  ∃ ran p', spec_run free_task k q p = (ran, [], p') ∧ length ran = total_calls cs ∧
    submitted p' [] [] ∧ log p' = log p ++ in_order k cs.
Proof.
  revert p q cs. induction k as [|k IH]; intros p [|t q] [|c cs] Hs Hk;
    try (by apply sb_holders, Forall2_length in Hs).
  1, 3: exists [], p; rewrite app_nil_r; done.
  - exfalso. rewrite total_calls_turn in Hk. lia.
  - cbn [spec_run in_order]. destruct (free_task_turn t q c cs p Hs) as (subs & p1 & E & Hs1 & El & _).
    rewrite E. rewrite total_calls_turn in Hk.
    destruct (IH p1 _ _ Hs1 ltac:(lia)) as (ran & p' & Er & Hlen & Hs' & El').
    rewrite Er. exists (t :: ran), p'. split; [done|]. split; [|split; [done|]].
    + rewrite total_calls_turn. simpl. lia.
    + by rewrite El', El, <-(assoc (++)).
Qed.
End executor.

(** Functions submitted to a fresh manual executor are all called, with those they
    submit, each once and in the order of submission: [Drain] ends after as many tasks
    as there are calls, the effects are those of the callables in first-in first-out
    order, every task has deleted itself, every routine has been destroyed, and no
    freed task or routine is used on the way. *)
Lemma submit_runs_in_order {Q} `{FifoLaws Q task} bound fuel (ex : IntrusiveManualExecutor (Q := Q)) cs :
  manual_wf ex [] → (∀ t, t < bound → fq_live (tasks ex) t) → total_calls cs <= bound →
  (Z.of_nat (total_calls cs) < size_bound)%Z → total_calls cs < fuel →
  ∃ ex1 p1 ex' p', submit_closures ex empty_program cs = Ret (ex1, p1) ∧
    Drain free_task fuel ex1 p1 = Ret (Z.of_nat (total_calls cs), ex', p') ∧
    log p' = in_order (total_calls cs) cs ∧ failed p' = false ∧
    (∀ t, free_tasks p' !! t = None ∧ holders (heap p') !! t = None) ∧ manual_wf ex' [].
Proof.
  intros Hwf Hl Hb Hsz Hf. pose proof (total_calls_length cs) as Hlen.
  destruct (submit_closures_submits bound cs ex empty_program [] []) as (ex1 & p1 & q1 & E & Hwf1 & Hlv1 & Hs1 & El1 & En1 & Hq1).
  { done. } { done. } { split; try done; [by apply NoDup_nil_2|by intros t ?%elem_of_nil]. }
  { simpl. lia. } { simpl. lia. }
  simpl in Hs1, El1, En1, Hq1.
  pose proof (closures_disciplined bound (total_calls cs) p1 q1 cs Hs1 Hsz ltac:(lia)) as Hd.
  destruct (closures_run (total_calls cs) p1 q1 cs Hs1 ltac:(lia)) as (ran & p' & Er & Hn & Hs' & El').
  destruct (Drain_loop_spec free_task (mapped_task bound) (total_calls cs) fuel 0 ex1 q1 p1)
    as (ex' & E' & Hwf' & _); rewrite ?Er; try done; unfold is_size; [lia..|].
  rewrite Er in E'. simpl in E'. rewrite Hn in E'. exists ex1, p1, ex', p'.
  split; [done|]. split; [exact E'|]. rewrite El', El1. split; [done|]. split; [apply Hs'|]. split; [|done].
  intros t. split; [rewrite (sb_tasks _ _ _ Hs')|rewrite (sb_rest _ _ _ Hs')]; set_solver.
Qed.

(** The first function submits two more, one of which submits a last one. *)
Definition demo_closures : list closure :=
  [Effect 1 (SubmitThen (Effect 3 (SubmitThen (Effect 5 Return) Return)) (SubmitThen (Effect 4 Return) Return));
   Effect 2 Return].

Definition demo_memory : nodes * IntrusiveList :=
  ({[ 0 := None; 1 := None; 2 := None; 3 := None; 4 := None ]}, new_list).

Lemma submit_runs_in_order_witness :
  ∃ ex1 p1 ex' p', submit_closures (MkManual demo_memory 0) empty_program demo_closures = Ret (ex1, p1) ∧
    Drain free_task 6 ex1 p1 = Ret (5%Z, ex', p') ∧
    log p' = [1; 2; 3; 4; 5] ∧ failed p' = false ∧
    (∀ t, free_tasks p' !! t = None ∧ holders (heap p') !! t = None) ∧ manual_wf (A := task) ex' [].
Proof.
  apply (submit_runs_in_order 5 6 (MkManual demo_memory 0) demo_closures).
  - split; [apply repr_new|done..].
  - intros t Ht. do 5 (destruct t as [|t]; [vm_compute; by eexists|]). lia.
  - vm_compute. lia.
  - reflexivity.
  - vm_compute. lia.
Defined.
