(* ===== verification/Hazard.v ===== *)
(** * components/lock_free/hazard: hazard pointers

    [HazardManager] with its collector thread and its destructor, and the mutators of
    the other threads, from [MakeMutator] to [~Mutator].  The mutators acquire a shared
    pointer [src], unlink its node (swing it to a fresh one) and retire the node.
    Every access to an atomic is a step; pushing on a [retired_ptrs] stack is the step
    at which its compare-exchange succeeds, and the block of a mutator under
    [thread_lock] is one step, possible when the lock is free.  The retired nodes of a
    thread are a list, the most recent first.  A thread has one mutator at a time. *)

From stdpp Require Import prelude list.
From S2P Require Import Prelude.

Abbreviation node := nat.

Record ThreadState := MkThreadState {
  protected_ptr : ptr node;
  retired_ptrs : list node
}.

(** [threads] by thread: [None] when it has no entry. *)
Record HazardManager := MkManager {
  threads : list (option ThreadState);
  thread_lock : bool;
  approximate_free_list_size : Z;
  mutators_count : Z;
  cancel_collect : bool
}.

Definition LimitFreeList : Z := 8.

Inductive mutator_pc :=
| MNone                (** the thread has no mutator *)
| MAssert              (** [MakeMutator]: the assertion *)
| MInsert              (** [MakeMutator]: the block under [thread_lock] *)
| MCount               (** [MakeMutator]: [mutators_count.fetch_add(1)] *)
| MRegister            (** [RegisterThread] *)
| MIdle
| MLoad                (** [Acquire]: [ptr->load()] *)
| MStore (n : node)    (** [Acquire]: [protected_ptr.store(before_store_value)] *)
| MReload (n : node)   (** [Acquire]: the second [ptr->load()] *)
| MHeld (n : node)     (** [Acquire] has returned the node *)
| MRelease (n : node)  (** the node has been unlinked; [Release] *)
| MRetire (n : node)   (** [Retire] *)
| MIncrease            (** [IncreaseRetired] *)
| MDrop                (** [~Mutator]: [Release] *)
| MUncount             (** [~Mutator]: [mutators_count.fetch_sub(1)] *)
| MFail.               (** a failed assertion, or a thread without its state *)

#[export] Instance mutator_pc_eq : EqDecision mutator_pc.
Proof. solve_decision. Defined.

(** [CheckToDelete]: the exchange, its loop, the increment after putting a node back. *)
Inductive check_pc := CTake | CLoop (candidates : list node) | CIncrease (candidates : list node).

Inductive collector_pc :=
| KCancel | KCount                   (** the tests of the outer loop *)
| KReset                             (** [approximate_free_list_size.store(0)] *)
| KLock
| KScan (todo : list nat) (protected_ptrs : list node)      (** reading the hazards *)
| KStates (todo : list nat) (protected_ptrs : list node)    (** the second loop *)
| KCheck (t : nat) (c : check_pc) (todo : list nat) (protected_ptrs : list node)
| KSize | KSleep                     (** the tests of the inner loop *)
| KDone | KFail.

Inductive destructor_pc :=
| DNone
| DCancel                                      (** [cancel_collect.store(true)] *)
| DJoin
| DLock
| DStates (todo : list nat)                    (** the loop, its first assertion *)
| DCheck (t : nat) (c : check_pc) (todo : list nat)
| DDelete (t : nat) (todo : list nat)          (** the second assertion, [delete state] *)
| DCount                                       (** the last assertion *)
| DEnd | DFail.

Record hazard := MkHazard {
  src : node;
  fresh : node;
  manager : HazardManager;
  mutators : list mutator_pc;
  collector : collector_pc;
  destructor : destructor_pc;
  retired : list node;     (** every node retired so far *)
  freed : list node        (** every node whose deleter has run *)
}.

Inductive hazard_label :=
| CallMake (t : nat)       (** [MakeMutator] *)
| CallDrop (t : nat)       (** the end of the mutator's scope *)
| CallAcquire (t : nat)
| MutatorStep (t : nat)
| ReleaseHeld (t : nat)    (** [Release] without unlinking *)
| Unlink (t : nat)         (** the compare-exchange that swings [src] to a new node *)
| Collect                  (** a step of the collector *)
| CallDestroy              (** the end of the program, when no mutator is left *)
| Destroy.                 (** a step of the destructor *)

Section steps.
  Implicit Types s : hazard.

Definition set_mutator s (t : nat) (p : mutator_pc) : hazard :=
  MkHazard (src s) (fresh s) (manager s) (<[t := p]> (mutators s)) (collector s) (destructor s) (retired s) (freed s).

Definition set_collector s (k : collector_pc) : hazard :=
  MkHazard (src s) (fresh s) (manager s) (mutators s) k (destructor s) (retired s) (freed s).

Definition set_destructor s (d : destructor_pc) : hazard :=
  MkHazard (src s) (fresh s) (manager s) (mutators s) (collector s) d (retired s) (freed s).

Definition set_manager s (m : HazardManager) : hazard :=
  MkHazard (src s) (fresh s) m (mutators s) (collector s) (destructor s) (retired s) (freed s).

Definition set_thread s (t : nat) (o : option ThreadState) : hazard :=
  let m := manager s in
  set_manager s (MkManager (<[t := o]> (threads m)) (thread_lock m)
    (approximate_free_list_size m) (mutators_count m) (cancel_collect m)).

Definition set_lock s (b : bool) : hazard :=
  let m := manager s in
  set_manager s (MkManager (threads m) b (approximate_free_list_size m) (mutators_count m) (cancel_collect m)).

Definition set_size s (z : Z) : hazard :=
  let m := manager s in
  set_manager s (MkManager (threads m) (thread_lock m) z (mutators_count m) (cancel_collect m)).

Definition set_count s (z : Z) : hazard :=
  let m := manager s in
  set_manager s (MkManager (threads m) (thread_lock m) (approximate_free_list_size m) z (cancel_collect m)).

Definition set_cancel s : hazard :=
  let m := manager s in
  set_manager s (MkManager (threads m) (thread_lock m) (approximate_free_list_size m) (mutators_count m) true).

(** [threads.clear()]. *)
Definition clear_threads s : hazard :=
  let m := manager s in
  set_manager s (MkManager ((λ _, None) <$> threads m) (thread_lock m)
    (approximate_free_list_size m) (mutators_count m) (cancel_collect m)).

(** The state of a thread, when it has one. *)
Definition state_of s (t : nat) : option ThreadState := mjoin (threads (manager s) !! t).

(** The threads that have a state, in some order. *)
Definition registered s : list nat :=
  filter (λ t, is_Some (state_of s t)) (seq 0 (length (threads (manager s)))).

Definition protect s (t : nat) (p : ptr node) : option hazard :=
  x ← state_of s t; Some (set_thread s t (Some (MkThreadState p (retired_ptrs x)))).

(** [Retire]: push on the thread's stack. *)
Definition Retire s (t : nat) (n : node) : option hazard :=
  x ← state_of s t;
  let s := set_thread s t (Some (MkThreadState (protected_ptr x) (n :: retired_ptrs x))) in
  Some (MkHazard (src s) (fresh s) (manager s) (mutators s) (collector s) (destructor s) (retired s ++ [n]) (freed s)).

(** Running the deleter. *)
Definition delete_node s (n : node) : hazard :=
  MkHazard (src s) (fresh s) (manager s) (mutators s) (collector s) (destructor s) (retired s) (freed s ++ [n]).

(** The mutator [t] goes on at [p], or has lost its state. *)
Definition goes_on (t : nat) (p : mutator_pc) (o : option hazard) s : hazard :=
  match o with Some s' => set_mutator s' t p | None => set_mutator s t MFail end.

(** [MakeMutator], [Mutator], [~Mutator], [Acquire], [Release], [Retire]. *)
Definition mutator_step s (t : nat) : option hazard :=
  let m := manager s in
  p ← mutators s !! t;
  match p with
  | MAssert => Some (set_mutator s t (if cancel_collect m then MFail else MInsert))
  | MInsert =>
      if thread_lock m then None
      else Some (set_mutator (match state_of s t with
                              | Some _ => s
                              | None => set_thread s t (Some (MkThreadState None []))
                              end) t MCount)
  | MCount => Some (set_mutator (set_count s (sz_add (mutators_count m) 1)) t MRegister)
  | MRegister =>
      if thread_lock m then None
      else Some (set_mutator s t (match state_of s t with Some _ => MIdle | None => MFail end))
  | MLoad => Some (set_mutator s t (MStore (src s)))
  | MStore n => Some (goes_on t (MReload n) (protect s t (Some n)) s)
  | MReload n =>
      let after_store_value := src s in
      Some (set_mutator s t (if decide (after_store_value = n) then MHeld n
                             else MStore after_store_value))
  | MRelease n => Some (goes_on t (MRetire n) (protect s t None) s)
  | MRetire n => Some (goes_on t MIncrease (Retire s t n) s)
  | MIncrease => Some (set_mutator (set_size s (sz_add (approximate_free_list_size m) 1)) t MIdle)
  | MDrop => Some (goes_on t MUncount (protect s t None) s)
  | MUncount =>
      Some (set_mutator (set_count s (sz_sub (mutators_count m) 1)) t
              (if bool_decide (0 < mutators_count m)%Z then MNone else MFail))
  | MNone | MIdle | MHeld _ | MFail => None
  end.

(** [CheckToDelete]: where it goes on, or [None] when it returns. *)
Definition CheckToDelete (t : nat) (protected_ptrs : list node) (c : check_pc) s :
    option (option check_pc * hazard) :=
  match c with
  | CTake =>
      x ← state_of s t;
      Some (Some (CLoop (retired_ptrs x)), set_thread s t (Some (MkThreadState (protected_ptr x) [])))
  | CLoop [] => Some (None, s)
  | CLoop (n :: cs) =>
      if decide (n ∈ protected_ptrs)
      then x ← state_of s t;
           Some (Some (CIncrease cs),
             set_thread s t (Some (MkThreadState (protected_ptr x) (n :: retired_ptrs x))))
      else Some (Some (CLoop cs), delete_node s n)
  | CIncrease cs =>
      Some (Some (CLoop cs), set_size s (sz_add (approximate_free_list_size (manager s)) 1))
  end.

(** [HazardManager::Collect]: one pass reads every hazard, and then goes through every
    thread's retired nodes, putting back the protected ones and deleting the others. *)
Definition Collect_step s : option hazard :=
  let m := manager s in
  match collector s with
  | KCancel => Some (set_collector s (if cancel_collect m then KDone else KCount))
  | KCount => Some (set_collector s (if bool_decide (mutators_count m = 0)%Z then KDone else KReset))
  | KReset => Some (set_collector (set_size s 0) KLock)
  | KLock => if thread_lock m then None else Some (set_collector (set_lock s true) (KScan (registered s) []))
  | KScan [] ps => Some (set_collector s (KStates (registered s) ps))
  | KScan (t :: ts) ps =>
      Some (set_collector s
        (match state_of s t with
         | Some x => KScan ts (match protected_ptr x with Some n => n :: ps | None => ps end)
         | None => KFail
         end))
  | KStates [] ps => Some (set_collector (set_lock s false) KSize)
  | KStates (t :: ts) ps => Some (set_collector s (KCheck t CTake ts ps))
  | KCheck t c ts ps =>
      Some (match CheckToDelete t ps c s with
            | Some (Some c', s') => set_collector s' (KCheck t c' ts ps)
            | Some (None, s') => set_collector s' (KStates ts ps)
            | None => set_collector s KFail
            end)
  | KSize =>
      Some (set_collector s
        (if bool_decide (approximate_free_list_size m < LimitFreeList)%Z then KSleep else KCancel))
  | KSleep => Some (set_collector s (if cancel_collect m then KCancel else KSize))
  | KDone | KFail => None
  end.

(** [~HazardManager]. *)
Definition Destroy_step s : option hazard :=
  let m := manager s in
  match destructor s with
  | DCancel => Some (set_destructor (set_cancel s) DJoin)
  | DJoin => match collector s with KDone => Some (set_destructor s DLock) | _ => None end
  | DLock => if thread_lock m then None else Some (set_destructor (set_lock s true) (DStates (registered s)))
  | DStates (t :: ts) =>
      Some (set_destructor s
        (match state_of s t with
         | Some x => if decide (protected_ptr x = None) then DCheck t CTake ts else DFail
         | None => DFail
         end))
  | DCheck t c ts =>
      Some (match CheckToDelete t [] c s with
            | Some (Some c', s') => set_destructor s' (DCheck t c' ts)
            | Some (None, s') => set_destructor s' (DDelete t ts)
            | None => set_destructor s DFail
            end)
  | DDelete t ts =>
      Some (match state_of s t with
            | Some x => if decide (retired_ptrs x = []) then set_destructor (set_thread s t None) (DStates ts)
                        else set_destructor s DFail
            | None => set_destructor s DFail
            end)
  | DStates [] =>
      Some (set_destructor (clear_threads s) DCount)
  | DCount =>
      Some (if bool_decide (mutators_count m = 0)%Z then set_destructor (set_lock s false) DEnd
            else set_destructor s DFail)
  | DNone | DEnd | DFail => None
  end.

Definition hazard_step (l : hazard_label) s : option hazard :=
  match l with
  | CallMake t =>
      match mutators s !! t, destructor s with
      | Some MNone, DNone => Some (set_mutator s t MAssert)
      | _, _ => None
      end
  | CallDrop t =>
      match mutators s !! t with
      | Some MIdle | Some (MHeld _) => Some (set_mutator s t MDrop)
      | _ => None
      end
  | CallAcquire t =>
      match mutators s !! t with
      | Some MIdle | Some (MHeld _) => Some (set_mutator s t MLoad)
      | _ => None
      end
  | MutatorStep t => mutator_step s t
  | ReleaseHeld t =>
      match mutators s !! t with
      | Some (MHeld _) => Some (goes_on t MIdle (protect s t None) s)
      | _ => None
      end
  | Unlink t =>
      match mutators s !! t with
      | Some (MHeld n) =>
          if decide (src s = n)
          then Some (set_mutator (MkHazard (fresh s) (S (fresh s)) (manager s) (mutators s)
                 (collector s) (destructor s) (retired s) (freed s)) t (MRelease n))
          else None
      | _ => None
      end
  | Collect => Collect_step s
  | CallDestroy =>
      match destructor s with
      | DNone => if decide (Forall (λ p, p = MNone) (mutators s)) then Some (set_destructor s DCancel) else None
      | _ => None
      end
  | Destroy => Destroy_step s
  end.
End steps.

Definition new_hazard (n : nat) : hazard :=
  MkHazard 0 1 (MkManager (replicate n None) false 0 0 false) (replicate n MNone) KCancel DNone [] [].

Definition hazard_manager (n : nat) : lts hazard hazard_label :=
  Lts (λ s, s = new_hazard n) hazard_step.

(** ** The states of the threads *)

Lemma state_of_set_thread s t o u :
  t < length (threads (manager s)) →
  state_of (set_thread s t o) u = if decide (u = t) then o else state_of s u.
Proof.
  intros Ht. unfold state_of. simpl. case_decide as E; [subst u|].
  - by rewrite list_lookup_insert_eq.
  - by rewrite list_lookup_insert_ne.
Qed.

Lemma state_of_bound s t : is_Some (state_of s t) → t < length (threads (manager s)).
Proof.
  unfold state_of. destruct (threads (manager s) !! t) eqn:E; [|by intros []].
  intros _. by eapply lookup_lt_Some.
Qed.

Lemma registered_spec s t : t ∈ registered s ↔ is_Some (state_of s t).
Proof.
  unfold registered. rewrite list_elem_of_filter, elem_of_seq. split; [by intros []|].
  intros Hs. pose proof (state_of_bound s t Hs). split; [done|lia].
Qed.

Lemma registered_nodup s : NoDup (registered s).
Proof. apply NoDup_filter, NoDup_seq. Qed.

(** What an operation on the state of thread [t] keeps. *)
Record same_but (t : nat) (s s' : hazard) : Prop := SameBut {
  sm_length : length (threads (manager s')) = length (threads (manager s));
  sm_others : ∀ u, u ≠ t → state_of s' u = state_of s u;
  sm_lock : thread_lock (manager s') = thread_lock (manager s);
  sm_cancel : cancel_collect (manager s') = cancel_collect (manager s);
  sm_mutators : mutators s' = mutators s;
  sm_collector : collector s' = collector s;
  sm_destructor : destructor s' = destructor s;
  sm_src : src s' = src s;
  sm_fresh : fresh s' = fresh s
}.

Lemma same_but_refl t s : same_but t s s.
Proof. done. Qed.

Lemma same_but_set s t o : is_Some (state_of s t) → same_but t s (set_thread s t o).
Proof.
  intros Ht%state_of_bound. split; try done; simpl; [by rewrite length_insert|].
  intros u Hu. by rewrite (state_of_set_thread s t o u Ht), decide_False.
Qed.

Lemma protect_spec s t p : is_Some (state_of s t) →
  ∃ s' x, protect s t p = Some s' ∧ same_but t s s' ∧ state_of s t = Some x ∧
    state_of s' t = Some (MkThreadState p (retired_ptrs x)) ∧
    mutators_count (manager s') = mutators_count (manager s) ∧ retired s' = retired s ∧ freed s' = freed s.
Proof.
  intros Hs. pose proof (state_of_bound s t Hs) as Hb. unfold protect. destruct Hs as [x Ex]. rewrite Ex. simpl.
  do 2 eexists. split; [done|]. split; [apply same_but_set; eauto|]. split; [done|].
  by rewrite state_of_set_thread, decide_True by done.
Qed.

Lemma Retire_spec s t n : is_Some (state_of s t) →
  ∃ s' x, Retire s t n = Some s' ∧ same_but t s s' ∧ state_of s t = Some x ∧
    state_of s' t = Some (MkThreadState (protected_ptr x) (n :: retired_ptrs x)) ∧
    mutators_count (manager s') = mutators_count (manager s) ∧ retired s' = retired s ++ [n] ∧ freed s' = freed s.
Proof.
  intros Hs. pose proof (state_of_bound s t Hs) as Hb. unfold Retire. destruct Hs as [x Ex]. rewrite Ex. simpl.
  set (y := Some (MkThreadState (protected_ptr x) (n :: retired_ptrs x))).
  assert (same_but t s (set_thread s t y)) as Hsm by (apply same_but_set; eauto).
  do 2 eexists. split; [done|]. split; [by destruct Hsm|]. split; [done|].
  split; [|done]. transitivity (state_of (set_thread s t y) t); [done|].
  by rewrite state_of_set_thread, decide_True by done.
Qed.

(** ** [CheckToDelete] *)

(** The nodes taken off the stack and not yet dealt with. *)
Definition hand (c : check_pc) : list node :=
  match c with CTake => [] | CLoop cs | CIncrease cs => cs end.

Definition retired_of (o : option ThreadState) : list node := from_option retired_ptrs [] o.

(** The retired nodes on the stacks. *)
Definition stacks s : list node := threads (manager s) ≫= retired_of.

Lemma stacks_set s t x y : state_of s t = Some x →
  stacks (set_thread s t (Some y)) ++ retired_ptrs x ≡ₚ stacks s ++ retired_ptrs y.
Proof.
  unfold state_of, stacks. destruct (threads (manager s) !! t) as [o|] eqn:E; [|done]. simpl. intros ->.
  apply (bind_insert_perm retired_of _ t (Some y) (Some x) E).
Qed.

Record check_effect (t : nat) (ps : list node) (c : check_pc) (s : hazard) (oc : option check_pc) (s' : hazard) : Prop := CheckEffect {
  ck_same : same_but t s s';
  ck_protected : protected_ptr <$> state_of s' t = protected_ptr <$> state_of s t;
  ck_count : mutators_count (manager s') = mutators_count (manager s);
  ck_retired : retired s' = retired s;
  ck_nodes : freed s' ++ from_option hand [] oc ++ stacks s' ≡ₚ freed s ++ hand c ++ stacks s;
  ck_freed : ∀ m, m ∈ freed s' → m ∈ freed s ∨ m ∉ ps;
  ck_grows : length (freed s) <= length (freed s');
  ck_stack : match c with
             | CTake => ∃ cs x, oc = Some (CLoop cs) ∧ state_of s' t = Some x ∧ retired_ptrs x = []
             | CLoop [] => oc = None ∧ s' = s
             | CLoop (n :: cs) => n ∉ ps → oc = Some (CLoop cs) ∧ state_of s' t = state_of s t
             | CIncrease cs => oc = Some (CLoop cs) ∧ state_of s' t = state_of s t
             end
}.

Lemma check_spec t ps c s : is_Some (state_of s t) →
  ∃ oc s', CheckToDelete t ps c s = Some (oc, s') ∧ check_effect t ps c s oc s'.
Proof.
  intros Hs. pose proof (state_of_bound s t Hs) as Hb. pose proof Hs as [x Ex]. destruct c as [|[|n cs]|cs]; simpl.
  - rewrite Ex. simpl. do 2 eexists. split; [done|].
    split; try done; [by apply same_but_set|..].
    + by rewrite state_of_set_thread, decide_True, Ex by done.
    + simpl. pose proof (stacks_set s t x (MkThreadState (protected_ptr x) []) Ex) as HP.
      simpl in HP. rewrite app_nil_r in HP. rewrite <-HP. solve_Permutation.
    + auto.
    + do 2 eexists. split; [done|]. by rewrite state_of_set_thread, decide_True by done.
  - do 2 eexists. split; [done|]. split; try done. auto.
  - destruct (decide (n ∈ ps)) as [Hin|Hin].
    + rewrite Ex. simpl. do 2 eexists. split; [done|]. split; try done; [by apply same_but_set|..].
      * by rewrite state_of_set_thread, decide_True, Ex by done.
      * simpl. pose proof (stacks_set s t x (MkThreadState (protected_ptr x) (n :: retired_ptrs x)) Ex) as HP.
        simpl in HP. apply (Permutation_app_inv_r (retired_ptrs x)). rewrite <-!(assoc (++)), HP.
        solve_Permutation.
      * auto.
    + do 2 eexists. split; [done|]. split; try done; simpl.
      * rewrite <-(assoc (++)). done.
      * intros m. rewrite elem_of_app, list_elem_of_singleton. intros [?| ->]; auto.
      * rewrite length_app. lia.
  - do 2 eexists. split; [done|]. split; try done. auto.
Qed.

(** ** The life of the mutators, the collector and the manager *)

(** Between the increment and the decrement of [mutators_count]. *)
Definition counted (p : mutator_pc) : nat :=
  match p with MNone | MAssert | MInsert | MCount | MFail => 0 | _ => 1 end.

Definition needs_state (p : mutator_pc) : bool :=
  match p with MNone | MAssert | MInsert | MUncount | MFail => false | _ => true end.

(** No hazard is set. *)
Definition unprotected (p : mutator_pc) : bool :=
  match p with MNone | MAssert | MInsert | MCount | MRegister | MUncount => true | _ => false end.

Definition mutator_ok s t p : Prop :=
  p ≠ MFail ∧ (needs_state p = true → is_Some (state_of s t)) ∧
  (∀ x, state_of s t = Some x → unprotected p = true → protected_ptr x = None) ∧
  (p ≠ MNone → destructor s = DNone).

Definition collector_locks (k : collector_pc) : bool :=
  match k with KScan _ _ | KStates _ _ | KCheck _ _ _ _ => true | _ => false end.

Definition destructor_locks (d : destructor_pc) : bool :=
  match d with DStates _ | DCheck _ _ _ | DDelete _ _ | DCount => true | _ => false end.

(** The states a pass has still to visit. *)
Definition visits (k : collector_pc) : list nat :=
  match k with KScan ts _ | KStates ts _ => ts | KCheck t _ ts _ => t :: ts | _ => [] end.

Definition collector_ok s : Prop :=
  collector s ≠ KFail ∧ ∀ u, u ∈ visits (collector s) → is_Some (state_of s u).

(** The states that are left are those of [ts]. *)
Definition remaining s (ts : list nat) : Prop :=
  collector s = KDone ∧ NoDup ts ∧ ∀ u, is_Some (state_of s u) ↔ u ∈ ts.

Definition emptied s (t : nat) : Prop := ∃ x, state_of s t = Some x ∧ retired_ptrs x = [].

Definition destructor_ok s : Prop :=
  match destructor s with
  | DNone | DCancel => cancel_collect (manager s) = false
  | DJoin => cancel_collect (manager s) = true
  | DLock => cancel_collect (manager s) = true ∧ collector s = KDone
  | DStates ts => cancel_collect (manager s) = true ∧ remaining s ts
  | DCheck t c ts =>
      cancel_collect (manager s) = true ∧ remaining s (t :: ts) ∧
      match c with CTake => True | CLoop _ => emptied s t | CIncrease _ => False end
  | DDelete t ts => cancel_collect (manager s) = true ∧ remaining s (t :: ts) ∧ emptied s t
  | DCount | DEnd => cancel_collect (manager s) = true ∧ remaining s []
  | DFail => False
  end.

Record life (s : hazard) : Prop := Life {
  lf_length : length (threads (manager s)) = length (mutators s);
  lf_bound : (Z.of_nat (length (mutators s)) < size_bound)%Z;
  lf_mutator : ∀ t p, mutators s !! t = Some p → mutator_ok s t p;
  lf_count : mutators_count (manager s) = Z.of_nat (sum_list_with counted (mutators s));
  lf_collector : collector_ok s;
  lf_destructor : destructor_ok s;
  lf_lock : thread_lock (manager s) = collector_locks (collector s) || destructor_locks (destructor s)
}.

Lemma counted_total l : sum_list_with counted l <= length l.
Proof. induction l as [|p l IH]; simpl; [lia|]. destruct p; simpl; lia. Qed.

Lemma life_known s t p : life s → mutators s !! t = Some p → t < length (threads (manager s)).
Proof. intros Hl E. rewrite (lf_length _ Hl). by eapply lookup_lt_Some. Qed.

(** A move of a mutator. *)
Lemma life_mutator s s1 t p q :
  life s → mutators s !! t = Some p → destructor s = DNone → same_but t s s1 →
  (is_Some (state_of s t) → is_Some (state_of s1 t)) → q ≠ MFail →
  (needs_state q = true → is_Some (state_of s1 t)) →
  (∀ x, state_of s1 t = Some x → unprotected q = true → protected_ptr x = None) →
  (mutators_count (manager s1) + Z.of_nat (counted p) = mutators_count (manager s) + Z.of_nat (counted q))%Z →
  life (set_mutator s1 t q).
Proof.
  intros Hl Ep Hd [Hlen Hoth Hlk Hcan Hmut Hcol Hdes _ _] Hst Hq Hneed Hun Hcnt.
  assert (∀ u, is_Some (state_of s u) → is_Some (state_of s1 u)) as Hkept.
  { intros u. destruct (decide (u = t)) as [->|Hne]; [done|]. by rewrite Hoth. }
  split; simpl.
  - rewrite Hlen, Hmut, length_insert. apply Hl.
  - rewrite Hmut, length_insert. apply Hl.
  - intros u r. rewrite Hmut. intros [(-> & -> & _)|[Hne Hr]]%list_lookup_insert_Some.
    + repeat split; auto. intros _. simpl. congruence.
    + destruct (lf_mutator _ Hl u r Hr) as (H1 & H2 & H3 & H4). split; [done|].
      unfold state_of in *. simpl. specialize (Hoth u ltac:(done)). simpl in Hoth. rewrite Hoth, Hdes. auto.
  - pose proof (sum_list_with_insert counted (mutators s) t q p Ep) as Hs. rewrite Hmut.
    pose proof (lf_count _ Hl). lia.
  - destruct (lf_collector _ Hl) as [H1 H2]. split; simpl; rewrite Hcol; [done|].
    intros u Hu. by apply Hkept, H2.
  - pose proof (lf_destructor _ Hl) as H. unfold destructor_ok in *. simpl. rewrite Hdes. rewrite Hd in *. congruence.
  - rewrite Hlk, Hcol, Hdes. apply Hl.
Qed.

(** A move that only changes the mutator's position. *)
Lemma life_goes s t p q :
  life s → mutators s !! t = Some p → destructor s = DNone → q ≠ MFail →
  (needs_state q = true → is_Some (state_of s t)) →
  (unprotected q = true → unprotected p = true) → counted q = counted p →
  life (set_mutator s t q).
Proof.
  intros Hl Ep Hd Hq Hn Hu Hc. destruct (lf_mutator _ Hl t p Ep) as (_ & _ & H3 & _).
  apply (life_mutator s s t p q); auto using same_but_refl. by rewrite Hc.
Qed.

Lemma life_state s t p : life s → mutators s !! t = Some p → needs_state p = true → is_Some (state_of s t).
Proof. intros Hl Ep Hn. by apply (lf_mutator _ Hl t p Ep). Qed.

Lemma life_alive s t p : life s → mutators s !! t = Some p → p ≠ MNone → destructor s = DNone.
Proof. intros Hl Ep Hn. by apply (lf_mutator _ Hl t p Ep). Qed.

Lemma life_protect s t p o q :
  life s → mutators s !! t = Some p → needs_state p = true → p ≠ MNone → q ≠ MFail →
  (unprotected q = true → o = None) → counted q = counted p → life (goes_on t q (protect s t o) s).
Proof.
  intros Hl Ep Hn Hp Hq Hu Hc. pose proof (life_state _ _ _ Hl Ep Hn) as Hs.
  destruct (protect_spec s t o Hs) as (s1 & x & -> & Hsm & Ex & Ex1 & Hcnt & _). simpl.
  apply (life_mutator s s1 t p q); auto; rewrite ?Ex1; eauto using life_alive.
  - intros y [= <-]. auto.
  - by rewrite Hcnt, Hc.
Qed.

Lemma life_make s t : life s → mutators s !! t = Some MInsert → thread_lock (manager s) = false →
  life (set_mutator (match state_of s t with
                     | Some _ => s
                     | None => set_thread s t (Some (MkThreadState None []))
                     end) t MCount).
Proof.
  intros Hl Ep Hk. pose proof (life_known _ _ _ Hl Ep) as Hlt.
  pose proof (life_alive _ _ _ Hl Ep ltac:(done)) as Hd. destruct (state_of s t) as [x|] eqn:Ex.
  - apply (life_goes s t MInsert); eauto.
  - apply (life_mutator s _ t MInsert MCount); auto.
    + split; try done; simpl; [by rewrite length_insert|]. intros u Hu.
      by rewrite state_of_set_thread, decide_False.
    + rewrite Ex. by intros [].
    + rewrite state_of_set_thread, decide_True by done. eauto.
    + rewrite state_of_set_thread, decide_True by done. by intros y [= <-].
Qed.

Lemma mutator_step_life s t s' : life s → mutator_step s t = Some s' → life s'.
Proof.
  intros Hl Hstep. unfold mutator_step in Hstep. destruct (mutators s !! t) as [p|] eqn:Ep; [|done].
  simpl in Hstep. pose proof (life_alive s t p Hl Ep) as Ha. pose proof (life_state s t p Hl Ep) as Hs.
  pose proof (lf_destructor _ Hl) as Hd. pose proof (sum_list_with_insert counted (mutators s) t) as Hsum.
  pose proof (counted_total (mutators s)) as Htot. pose proof (lf_bound _ Hl) as Hb. pose proof (lf_count _ Hl) as Hc.
  destruct p; simplify_eq/=; try done.
  - unfold destructor_ok in Hd. rewrite Ha in Hd by done. rewrite Hd. apply (life_goes s t MAssert); eauto.
  - destruct (thread_lock (manager s)) eqn:Ek; simplify_eq. by apply life_make.
  - specialize (Hsum MRegister MCount Ep). simpl in Hsum.
    pose proof (counted_total (<[t := MRegister]> (mutators s))) as H'. rewrite length_insert in H'.
    apply (life_mutator s _ t MCount MRegister); auto; [by split| |].
    + intros x Hx _. by apply (lf_mutator _ Hl t MCount Ep).
    + simpl. rewrite sz_add_small; [lia|]. unfold is_size. lia.
  - destruct (thread_lock (manager s)); simplify_eq. destruct (Hs eq_refl) as [x Ex]. rewrite Ex.
    apply (life_goes s t MRegister); auto.
  - apply (life_goes s t MLoad); auto.
  - by apply (life_protect s t (MStore n)).
  - case_decide; apply (life_goes s t (MReload n)); auto.
  - by apply (life_protect s t (MRelease n)).
  - destruct (Retire_spec s t n (Hs eq_refl)) as (s1 & x & -> & Hsm & Ex & Ex1 & Hcnt & _). simpl.
    apply (life_mutator s s1 t (MRetire n)); rewrite ?Ex1; try done; [eauto..|by rewrite Hcnt].
  - apply (life_mutator s _ t MIncrease MIdle); auto; [by split|done].
  - by apply (life_protect s t MDrop).
  - specialize (Hsum MNone MUncount Ep). simpl in Hsum. rewrite bool_decide_true by lia.
    apply (life_mutator s _ t MUncount MNone); auto; [by split|by intros; apply (lf_mutator _ Hl t MUncount Ep)|].
    simpl. rewrite sz_sub_small; [lia|]. unfold is_size. lia.
Qed.

(** A step of the collector: the states keep their hazards. *)
Lemma life_collector s s1 k :
  life s → mutators s1 = mutators s → destructor s1 = destructor s → collector s ≠ KDone → k ≠ KFail →
  length (threads (manager s1)) = length (threads (manager s)) →
  (∀ u, protected_ptr <$> state_of s1 u = protected_ptr <$> state_of s u) →
  mutators_count (manager s1) = mutators_count (manager s) →
  cancel_collect (manager s1) = cancel_collect (manager s) →
  thread_lock (manager s1) = collector_locks k || destructor_locks (destructor s) →
  (∀ u, u ∈ visits k → is_Some (state_of s u)) → life (set_collector s1 k).
Proof.
  intros Hl Hm Hd Hk Hkf Hlen Hst Hcnt Hcan Hlk Hv.
  assert (∀ u, is_Some (state_of s u) ↔ is_Some (state_of s1 u)) as Hs.
  { intros u. specialize (Hst u). destruct (state_of s u), (state_of s1 u); simpl in Hst; try done; split; eauto. }
  split; simpl; rewrite ?Hm, ?Hd, ?Hlen, ?Hcnt; try apply Hl; [|..|done].
  - intros t p Ep. destruct (lf_mutator _ Hl t p Ep) as (H1 & H2 & H3 & H4).
    split; [done|]. split; [intros Hn; by apply Hs, H2|]. split; [|by simpl; rewrite Hd].
    intros x Hx Hu. specialize (Hst t). change (state_of (set_collector s1 k) t) with (state_of s1 t) in Hx.
    rewrite Hx in Hst. destruct (state_of s t) as [y|] eqn:Ey; simpl in Hst; [|done].
    injection Hst as ->. by apply H3.
  - split; simpl; [done|]. intros u Hu. by apply Hs, Hv.
  - pose proof (lf_destructor _ Hl) as H. unfold destructor_ok, remaining in *. simpl. rewrite Hd.
    destruct (destructor s); rewrite ?Hcan; simpl; intuition congruence.
Qed.

(** While the collector is at work the destructor has not joined it. *)
Lemma life_unjoined s : life s → collector s ≠ KDone → destructor_locks (destructor s) = false.
Proof.
  intros Hl Hk. pose proof (lf_destructor _ Hl) as H. unfold destructor_ok, remaining in H.
  destruct (destructor s); simpl; intuition.
Qed.

Lemma same_but_protected t s s1 :
  same_but t s s1 → protected_ptr <$> state_of s1 t = protected_ptr <$> state_of s t →
  ∀ u, protected_ptr <$> state_of s1 u = protected_ptr <$> state_of s u.
Proof. intros Hsm Ht u. destruct (decide (u = t)) as [->|Hne]; [done|]. by rewrite (sm_others _ _ _ Hsm). Qed.

Lemma Collect_step_life s s' : life s → Collect_step s = Some s' → life s'.
Proof.
  intros Hl Hstep. assert (collector s ≠ KDone) as Hk by (unfold Collect_step in Hstep; by destruct (collector s)).
  pose proof (life_unjoined s Hl Hk) as Hdl. pose proof (lf_lock _ Hl) as Hlk. rewrite Hdl, orb_false_r in Hlk.
  destruct (lf_collector _ Hl) as [_ Hv]. unfold Collect_step in Hstep.
  assert (∀ s1 k, k ≠ KFail → manager s1 = manager s ∨ manager s1 = manager (set_size s 0) →
    mutators s1 = mutators s → destructor s1 = destructor s → collector_locks k = collector_locks (collector s) →
    (∀ u, u ∈ visits k → is_Some (state_of s u)) → life (set_collector s1 k)) as Hlocal.
  { intros s1 k Hkf Hm Hmu Hde Hkl Hvk. apply (life_collector s); auto; unfold state_of;
      destruct Hm as [-> | ->]; try done; by rewrite Hdl, orb_false_r, Hkl. }
  destruct (collector s) as [| | | |[|t ts] ps|[|t ts] ps|t c ts ps| | | |] eqn:Ek; simplify_eq/=; try done.
  - apply Hlocal; auto; by destruct (cancel_collect _).
  - apply Hlocal; auto; by case_bool_decide.
  - by apply Hlocal; auto.
  - destruct (thread_lock (manager s)); simplify_eq. apply (life_collector s); auto; try done; [by rewrite Ek|].
    intros u. apply registered_spec.
  - apply Hlocal; auto. intros u. apply registered_spec.
  - destruct (Hv t) as [x Ex]; [by left|]. rewrite Ex. apply Hlocal; auto. intros u Hu. apply Hv. by right.
  - apply (life_collector s); auto; by rewrite ?Ek, ?Hdl.
  - apply Hlocal; auto.
  - destruct (check_spec t ps c s) as (oc & s1 & E & Hc); [apply Hv; by left|]. rewrite E.
    destruct Hc as [Hsm Hp Hcnt _ _ _ _ _]. pose proof (same_but_protected _ _ _ Hsm Hp) as Hsp.
    destruct Hsm as [H1 _ H3 H4 H5 H6 H7 _ _].
    destruct oc; apply (life_collector s); auto; try done; try (by rewrite Ek); rewrite ?H3, ?Hlk; try done.
    intros u Hu. apply Hv. by right.
  - apply Hlocal; auto; by case_bool_decide.
  - apply Hlocal; auto; by destruct (cancel_collect _).
Qed.

(** A step of the destructor: there are no mutators left. *)
Lemma life_destructor s s1 d :
  life s → mutators s1 = mutators s → collector s1 = collector s → destructor s ≠ DNone →
  length (threads (manager s1)) = length (threads (manager s)) →
  (∀ u x, state_of s1 u = Some x → ∃ y, state_of s u = Some y ∧ protected_ptr x = protected_ptr y) →
  (∀ u, u ∈ visits (collector s) → is_Some (state_of s1 u)) →
  mutators_count (manager s1) = mutators_count (manager s) →
  thread_lock (manager s1) = collector_locks (collector s) || destructor_locks d →
  destructor_ok (set_destructor s1 d) → life (set_destructor s1 d).
Proof.
  intros Hl Hm Hk Hd Hlen Hst Hv Hcnt Hlk Hok.
  assert (∀ t p, mutators s !! t = Some p → p = MNone) as Hnone.
  { intros t p Ep. destruct (decide (p = MNone)); [done|]. by pose proof (life_alive _ _ _ Hl Ep ltac:(done)). }
  split; simpl; rewrite ?Hm, ?Hk, ?Hlen, ?Hcnt; try apply Hl; try done.
  - intros t p Ep. pose proof (Hnone t p Ep) as ->. split; [done|]. split; [done|]. split; [|done].
    intros x Hx _. destruct (Hst t x Hx) as (y & Hy & ->). by apply (lf_mutator _ Hl t MNone Ep).
  - split; simpl; rewrite Hk; [apply Hl|done].
Qed.

(** Without mutators the counter is zero and no hazard is set. *)
Lemma life_quiet s : life s → destructor s ≠ DNone →
  mutators_count (manager s) = 0%Z ∧ ∀ t x, state_of s t = Some x → protected_ptr x = None.
Proof.
  intros Hl Hd. assert (∀ t p, mutators s !! t = Some p → p = MNone) as Hnone.
  { intros t p Ep. destruct (decide (p = MNone)); [done|]. by pose proof (life_alive _ _ _ Hl Ep ltac:(done)). }
  split.
  - rewrite (lf_count _ Hl). clear -Hnone. induction (mutators s) as [|p l IH]; simpl; [done|].
    rewrite (Hnone 0 p eq_refl). simpl. apply IH. intros t. apply (Hnone (S t)).
  - intros t x Ex. pose proof (state_of_bound s t ltac:(eauto)) as Hlt. rewrite (lf_length _ Hl) in Hlt.
    apply lookup_lt_is_Some in Hlt as [p Ep]. pose proof (Hnone t p Ep) as ->.
    by apply (lf_mutator _ Hl t MNone Ep).
Qed.

Lemma Destroy_check_life s t c ts :
  life s → destructor s = DCheck t c ts →
  life (match CheckToDelete t [] c s with
        | Some (Some c', s') => set_destructor s' (DCheck t c' ts)
        | Some (None, s') => set_destructor s' (DDelete t ts)
        | None => set_destructor s DFail
        end).
Proof.
  intros Hl Ed. pose proof (lf_lock _ Hl) as Hlk. pose proof (lf_destructor _ Hl) as Hok.
  unfold destructor_ok in Hok. rewrite Ed in Hok, Hlk. simpl in Hlk.
  destruct Hok as (Hcan & Hrem & Hc). pose proof Hrem as (Hk & Hnd & Hs).
  destruct (check_spec t [] c s) as (oc & s1 & E & Hck); [apply Hs; by left|]. rewrite E.
  destruct Hck as [Hsm Hp Hcnt _ _ _ _ Hst]. pose proof (same_but_protected _ _ _ Hsm Hp) as Hsp.
  destruct Hsm as [H1 H2 H3 H4 H5 H6 H7 _ _].
  assert (∀ u x, state_of s1 u = Some x → ∃ y, state_of s u = Some y ∧ protected_ptr x = protected_ptr y) as Hy.
  { intros u x Hx. specialize (Hsp u). rewrite Hx in Hsp. destruct (state_of s u); simpl in Hsp; [|done].
    injection Hsp as ->. eauto. }
  assert (remaining s1 (t :: ts)) as Hrem1.
  { split; [congruence|]. split; [done|]. intros u. rewrite <-Hs. specialize (Hsp u).
    destruct (state_of s1 u), (state_of s u); simpl in Hsp; try done; split; eauto. }
  assert (∀ d, destructor_locks d = true → destructor_ok (set_destructor s1 d) → life (set_destructor s1 d)) as Hgo.
  { intros d Hdl Hokd. apply (life_destructor s); auto; [congruence|by rewrite Hk; intros u ?%elem_of_nil|].
    by rewrite H3, Hlk, Hdl. }
  destruct c as [|[|n cs]|cs]; [| | |done].
  - destruct Hst as (cs & x & -> & Ex & Er). apply Hgo; [done|]. split; [by rewrite <-H4 in Hcan|]. split; [done|].
    by exists x.
  - destruct Hst as [-> ->]. apply Hgo; done.
  - destruct Hst as [-> Ex]; [set_solver|]. apply Hgo; [done|]. split; [by rewrite <-H4 in Hcan|]. split; [done|].
    destruct Hc as (x & Hx & Hr). exists x. by rewrite <-Ex in Hx.
Qed.

Lemma clear_threads_none s u : state_of (clear_threads s) u = None.
Proof. unfold state_of. simpl. rewrite list_lookup_fmap. by destruct (threads (manager s) !! u). Qed.

Lemma Destroy_clear_life s : life s → destructor s = DStates [] → life (set_destructor (clear_threads s) DCount).
Proof.
  intros Hl Ed. pose proof (lf_lock _ Hl) as Hlk. pose proof (lf_destructor _ Hl) as Hok.
  unfold destructor_ok in Hok. rewrite Ed in Hok, Hlk. simpl in Hlk. destruct Hok as (Hcan & Hk & _ & Hs).
  apply (life_destructor s); eauto; [congruence|by simpl; rewrite length_fmap|..].
  - intros u x. by rewrite clear_threads_none.
  - rewrite Hk. by intros u ?%elem_of_nil.
  - split; [done|]. split; [done|]. split; [apply NoDup_nil_2|]. intros u.
    change (is_Some (state_of _ u)) with (is_Some (state_of (clear_threads s) u)).
    rewrite clear_threads_none. split; [by intros []|by intros ?%elem_of_nil].
Qed.

Lemma Destroy_step_life s s' : life s → Destroy_step s = Some s' → life s'.
Proof.
  intros Hl Hstep. assert (destructor s ≠ DNone) as Hd by (unfold Destroy_step in Hstep; by destruct (destructor s)).
  destruct (life_quiet s Hl Hd) as [Hz Hq]. pose proof (lf_lock _ Hl) as Hlk.
  destruct (lf_collector _ Hl) as [_ Hv]. pose proof (lf_destructor _ Hl) as Hok. unfold destructor_ok in Hok.
  unfold Destroy_step in Hstep.
  assert (∀ d, destructor_locks d = destructor_locks (destructor s) → destructor_ok (set_destructor s d) →
    life (set_destructor s d)) as Hlocal.
  { intros d Hdl Hokd. apply (life_destructor s); eauto. by rewrite Hdl. }
  destruct (destructor s) as [| | | |[|t ts]|t c ts|t ts| | |] eqn:Ed; simplify_eq/=; try done.
  - apply (life_destructor s); eauto; [congruence|done].
  - destruct (collector s) eqn:Ek; simplify_eq. by apply Hlocal.
  - destruct Hok as [Hcan Hk]. destruct (thread_lock (manager s)); simplify_eq.
    apply (life_destructor s); eauto; [congruence|by rewrite Hk|].
    split; [done|]. split; [done|]. split; [apply registered_nodup|]. intros u. by rewrite registered_spec.
  - by apply Destroy_clear_life.
  - destruct Hok as (Hcan & Hk & Hnd & Hs). destruct (proj2 (Hs t)) as [x Ex]; [by left|]. rewrite Ex.
    rewrite (Hq t x Ex), decide_True by done. apply Hlocal; [done|]. split; [done|]. by split.
  - by apply Destroy_check_life.
  - destruct Hok as (Hcan & (Hk & Hnd & Hs) & x & Ex & Er). rewrite Ex, Er, decide_True by done.
    pose proof (state_of_bound s t ltac:(eauto)) as Hlt. apply NoDup_cons in Hnd as [Hnt Hnd].
    assert (∀ u, state_of (set_thread s t None) u = if decide (u = t) then None else state_of s u) as Hst
      by (intros u; by apply state_of_set_thread).
    apply (life_destructor s); eauto; [congruence|by simpl; rewrite length_insert|..].
    + intros u y. rewrite Hst. case_decide; [done|eauto].
    + rewrite Hk. by intros u ?%elem_of_nil.
    + split; [done|]. split; [done|]. split; [done|]. intros u.
      change (is_Some (state_of _ u)) with (is_Some (state_of (set_thread s t None) u)). rewrite Hst.
      case_decide; [subst; split; [by intros []|done]|]. rewrite Hs. set_solver.
  - rewrite Hz. simpl. destruct Hok as [Hcan Hrem]. pose proof Hrem as [Hk _].
    apply (life_destructor s); eauto; [congruence|by rewrite Hk|done].
Qed.

Lemma hazard_step_life l s s' : life s → hazard_step l s = Some s' → life s'.
Proof.
  intros Hl Hstep. destruct l as [t|t|t|t|t|t| | |]; simpl in Hstep.
  - destruct (mutators s !! t) as [p|] eqn:Ep; [|done]. destruct p; try done.
    destruct (destructor s) eqn:Ed; simplify_eq. by apply (life_goes s t MNone).
  - destruct (mutators s !! t) as [p|] eqn:Ep; [|done].
    destruct p; simplify_eq; eapply life_goes; eauto using life_state, life_alive.
  - destruct (mutators s !! t) as [p|] eqn:Ep; [|done].
    destruct p; simplify_eq; eapply life_goes; eauto using life_state, life_alive.
  - by eapply mutator_step_life.
  - destruct (mutators s !! t) as [p|] eqn:Ep; [|done]. destruct p; simplify_eq. by eapply life_protect.
  - destruct (mutators s !! t) as [p|] eqn:Ep; [|done]. destruct p; try done. case_decide; simplify_eq.
    pose proof (life_alive _ _ _ Hl Ep ltac:(done)) as Hd. pose proof (life_state _ _ _ Hl Ep eq_refl) as Hs.
    pose proof (life_goes s t (MHeld (src s)) (MRelease (src s)) Hl Ep Hd ltac:(done) (λ _, Hs) ltac:(done) eq_refl) as H.
    by destruct H.
  - by eapply Collect_step_life.
  - destruct (destructor s) eqn:Ed; try done. case_decide as Hf; simplify_eq.
    assert (destructor_ok s) as Hok by apply Hl. unfold destructor_ok in Hok. rewrite Ed in Hok.
    destruct Hl as [H1 H2 H3 H4 H5 _ H7]. split; simpl; auto; [|by rewrite Ed in H7].
    intros t p Ep. destruct (H3 t p Ep) as (? & ? & ? & _). split; [done|]. split; [done|]. split; [done|].
    intros Hp. rewrite Forall_lookup in Hf. by apply Hf in Ep.
  - by eapply Destroy_step_life.
Qed.

Lemma hazard_life n : (Z.of_nat n < size_bound)%Z → invariant (hazard_manager n) life.
Proof.
  intros Hn. apply invariant_intro; [|intros l s s'; apply hazard_step_life].
  intros s ->. split; simpl; rewrite ?length_replicate; try done.
  - intros t p [-> _]%lookup_replicate. split; [done|]. split; [done|]. split; [|done].
    intros x. unfold state_of. simpl. destruct (replicate n None !! t) as [o|] eqn:E; [|done].
    by apply lookup_replicate in E as [-> _].
  - clear Hn. induction n as [|n IH]; [done|exact IH].
  - split; [done|]. by intros u ?%elem_of_nil.
Qed.

(** ** Retired nodes are freed at most once, and none is lost *)

(** The nodes that the collector or the destructor has taken off a stack. *)
Definition in_hand (s : hazard) : list node :=
  (match collector s with KCheck _ c _ _ => hand c | _ => [] end) ++
  (match destructor s with DCheck _ c _ => hand c | _ => [] end).

(** Where the retired nodes are. *)
Definition hazard_conserved (s : hazard) : Prop := retired s ≡ₚ freed s ++ in_hand s ++ stacks s.

Lemma conserved_local s s' :
  hazard_conserved s → retired s' = retired s → freed s' = freed s → in_hand s' = in_hand s →
  stacks s' ≡ₚ stacks s → hazard_conserved s'.
Proof. intros Hc H1 H2 H3 H4. unfold hazard_conserved. by rewrite H1, H2, H3, H4. Qed.

Lemma stacks_keep s t x y o :
  state_of s t = Some x → o = Some y → retired_ptrs y = retired_ptrs x → stacks (set_thread s t o) ≡ₚ stacks s.
Proof.
  intros Ex -> Hr. pose proof (stacks_set s t x y Ex) as HP. rewrite Hr in HP. by apply Permutation_app_inv_r in HP.
Qed.

(** An entry appears or disappears with an empty stack. *)
Lemma stacks_entry s t o : t < length (threads (manager s)) → from_option retired_ptrs [] (state_of s t) = [] →
  retired_of o = [] → stacks (set_thread s t o) ≡ₚ stacks s.
Proof.
  intros Ht Hs Ho. apply lookup_lt_is_Some in Ht as [o' Eo]. unfold state_of in Hs. rewrite Eo in Hs. simpl in Hs.
  pose proof (bind_insert_perm retired_of _ t o o' Eo) as HP. unfold retired_of at 2 4 in HP.
  unfold retired_of in Ho. destruct o as [x|]; simpl in Ho, HP; rewrite ?Ho, Hs, !app_nil_r in HP; exact HP.
Qed.

Lemma stacks_none s : (∀ u, state_of s u = None) → stacks s = [].
Proof.
  unfold state_of, stacks. intros Hn. induction (threads (manager s)) as [|o l IH]; simpl; [done|].
  pose proof (Hn 0) as H0. simpl in H0. rewrite H0. simpl. apply IH. intros u. apply (Hn (S u)).
Qed.

Lemma protect_conserved s t p o : hazard_conserved s → hazard_conserved (goes_on t p (protect s t o) s).
Proof.
  intros Hc. unfold protect. destruct (state_of s t) as [x|] eqn:Ex; [|done]. simpl.
  apply (conserved_local s); try done. by apply (stacks_keep s t x _ _ Ex eq_refl).
Qed.

Lemma mutator_step_conserved s t s' : life s → hazard_conserved s → mutator_step s t = Some s' → hazard_conserved s'.
Proof.
  intros Hl Hc Hstep. unfold mutator_step in Hstep. destruct (mutators s !! t) as [p|] eqn:Ep; [|done].
  simpl in Hstep. destruct p; simplify_eq/=; try done; try (by apply protect_conserved).
  - case_match; simplify_eq. destruct (state_of s t) as [x|] eqn:Ex; [done|].
    apply (conserved_local s); try done. apply (stacks_entry s t); [by eapply life_known|by rewrite Ex|done].
  - by case_match; simplify_eq.
  - unfold Retire. destruct (state_of s t) as [x|] eqn:Ex; [|done]. simpl.
    pose proof (stacks_set s t x (MkThreadState (protected_ptr x) (n :: retired_ptrs x)) Ex) as HP. simpl in HP.
    unfold hazard_conserved in *. simpl. change (in_hand _) with (in_hand s).
    change (stacks _) with (stacks (set_thread s t (Some (MkThreadState (protected_ptr x) (n :: retired_ptrs x))))).
    apply (Permutation_app_inv_r (retired_ptrs x)). rewrite <-!(assoc (++)), HP, Hc. solve_Permutation.
Qed.

Lemma check_conserved t ps c s oc s' rest :
  check_effect t ps c s oc s' → retired s ≡ₚ freed s ++ (hand c ++ rest) ++ stacks s →
  retired s' ≡ₚ freed s' ++ (from_option hand [] oc ++ rest) ++ stacks s'.
Proof.
  intros [_ _ _ Hr Hn _ _ _] Hc. rewrite Hr, Hc.
  transitivity ((freed s ++ hand c ++ stacks s) ++ rest); [solve_Permutation|]. rewrite <-Hn. solve_Permutation.
Qed.

Lemma Collect_step_conserved s s' : life s → hazard_conserved s → Collect_step s = Some s' → hazard_conserved s'.
Proof.
  intros Hl Hc Hstep. destruct (lf_collector _ Hl) as [_ Hv]. unfold Collect_step in Hstep.
  assert (∀ s1 k, retired s1 = retired s → freed s1 = freed s → destructor s1 = destructor s → stacks s1 = stacks s →
    (match k with KCheck _ c _ _ => hand c | _ => [] end) = (match collector s with KCheck _ c _ _ => hand c | _ => [] end) →
    hazard_conserved (set_collector s1 k)) as Hlocal.
  { intros s1 k H1 H2 H3 H4 H5. apply (conserved_local s); try done; unfold in_hand; simpl; [by rewrite H5, H3|].
    change (stacks (set_collector s1 k)) with (stacks s1). by rewrite H4. }
  destruct (collector s) as [| | | |[|t ts] ps|[|t ts] ps|t c ts ps| | | |] eqn:Ek; rewrite ?Ek in Hlocal; simplify_eq/=;
    try done; try (apply Hlocal; auto; by repeat case_match).
  - destruct (thread_lock (manager s)); simplify_eq. by apply Hlocal.
  - destruct (check_spec t ps c s) as (oc & s1 & E & Hck); [apply Hv; by left|]. rewrite E.
    unfold hazard_conserved, in_hand in Hc. rewrite Ek in Hc.
    pose proof (check_conserved _ _ _ _ _ _ _ Hck Hc) as Hc'. destruct Hck as [Hsm _ _ _ _ _ _ _].
    pose proof (sm_destructor _ _ _ Hsm) as Hd. unfold hazard_conserved, in_hand.
    destruct oc; simpl; rewrite Hd; exact Hc'.
Qed.

Lemma Destroy_step_conserved s s' : life s → hazard_conserved s → Destroy_step s = Some s' → hazard_conserved s'.
Proof.
  intros Hl Hc Hstep. pose proof (lf_destructor _ Hl) as Hok. unfold destructor_ok in Hok.
  unfold Destroy_step in Hstep.
  assert (∀ s1 d, retired s1 = retired s → freed s1 = freed s → collector s1 = collector s → stacks s1 ≡ₚ stacks s →
    (match d with DCheck _ c _ => hand c | _ => [] end) = (match destructor s with DCheck _ c _ => hand c | _ => [] end) →
    hazard_conserved (set_destructor s1 d)) as Hlocal.
  { intros s1 d H1 H2 H3 H4 H5. apply (conserved_local s); try done. unfold in_hand. simpl. by rewrite H5, H3. }
  destruct (destructor s) as [| | | |[|t ts]|t c ts|t ts| | |] eqn:Ed; rewrite ?Ed in Hlocal; simplify_eq/=; try done.
  - by apply Hlocal.
  - destruct (collector s) eqn:Ek; simplify_eq. by apply Hlocal.
  - destruct (thread_lock (manager s)); simplify_eq. by apply Hlocal.
  - apply Hlocal; try done. destruct Hok as (_ & _ & _ & Hs). rewrite (stacks_none s).
    + rewrite stacks_none; [done|]. intros u. unfold state_of. simpl. rewrite list_lookup_fmap.
      by destruct (threads (manager s) !! u).
    + intros u. apply eq_None_not_Some. intros Hu%Hs. by apply elem_of_nil in Hu.
  - apply Hlocal; try done. destruct (state_of s t); [by case_decide|done].
  - destruct Hok as (_ & (_ & _ & Hs) & _). destruct (check_spec t [] c s) as (oc & s1 & E & Hck); [apply Hs; by left|].
    rewrite E. unfold hazard_conserved, in_hand in Hc. rewrite Ed in Hc.
    assert (retired s ≡ₚ freed s ++ (hand c ++ (match collector s with KCheck _ c _ _ => hand c | _ => [] end)) ++ stacks s) as Hc1
      by (rewrite Hc; solve_Permutation).
    pose proof (check_conserved _ _ _ _ _ _ _ Hck Hc1) as Hc'. destruct Hck as [Hsm _ _ _ _ _ _ _].
    pose proof (sm_collector _ _ _ Hsm) as Hk. unfold hazard_conserved, in_hand.
    destruct oc as [c'|]; simpl; rewrite Hk, Hc'; simpl; solve_Permutation.
  - destruct Hok as (_ & _ & x & Ex & Er). rewrite Ex, Er, decide_True by done. apply Hlocal; try done.
    apply stacks_entry; [apply state_of_bound; eauto|by rewrite Ex|done].
  - case_bool_decide; by apply Hlocal.
Qed.

Lemma hazard_step_conserved l s s' : life s → hazard_conserved s → hazard_step l s = Some s' → hazard_conserved s'.
Proof.
  intros Hl Hc Hstep. destruct l as [t|t|t|t|t|t| | |]; simpl in Hstep.
  1-3: by repeat case_match; simplify_eq.
  - by eapply mutator_step_conserved.
  - repeat case_match; simplify_eq. by apply protect_conserved.
  - by repeat case_match; simplify_eq.
  - by eapply Collect_step_conserved.
  - repeat case_match; simplify_eq. apply (conserved_local s); try done. unfold in_hand. simpl.
    by destruct (destructor s).
  - by eapply Destroy_step_conserved.
Qed.

(** Unlinked and not yet retired. *)
Definition unlinked (p : mutator_pc) : list node :=
  match p with MRelease n | MRetire n => [n] | _ => [] end.

(** Every node is linked, unlinked by one mutator, or retired once. *)
Definition used (s : hazard) : list node := retired s ++ (mutators s ≫= unlinked) ++ [src s].

Definition hazard_linear (s : hazard) : Prop := NoDup (used s) ∧ ∀ n, n ∈ used s → n < fresh s.

(** A step after which the same nodes are in use. *)
Lemma linear_local s s' :
  hazard_linear s → used s' ≡ₚ used s → fresh s' = fresh s → hazard_linear s'.
Proof.
  intros [Hnd Hlt] HP Hf. split; [by rewrite HP|]. intros k. rewrite HP, Hf. apply Hlt.
Qed.

Lemma linear_same s s' :
  hazard_linear s → retired s' = retired s → src s' = src s → fresh s' = fresh s → mutators s' = mutators s →
  hazard_linear s'.
Proof. intros Hl H1 H2 H3 H4. apply (linear_local s); [done| |done]. unfold used. by rewrite H1, H2, H4. Qed.

(** A move of a mutator that neither unlinks nor retires. *)
Lemma linear_mutator s s' t p q :
  hazard_linear s → mutators s !! t = Some p → retired s' = retired s → src s' = src s → fresh s' = fresh s →
  mutators s' = <[t := q]> (mutators s) → unlinked q = unlinked p → hazard_linear s'.
Proof.
  intros Hl E H1 H2 H3 Em Hu. apply (linear_local s); [done| |done]. unfold used. rewrite H1, H2, Em.
  pose proof (bind_insert_perm unlinked _ t q p E) as HP. rewrite Hu in HP.
  apply Permutation_app_inv_r in HP. by rewrite HP.
Qed.

Lemma linear_goes s t p q o :
  hazard_linear s → mutators s !! t = Some p → is_Some (state_of s t) → unlinked q = unlinked p →
  hazard_linear (goes_on t q (protect s t o) s).
Proof.
  intros Hl E Hs Hu. destruct (protect_spec s t o Hs) as (s1 & x & -> & Hsm & _ & _ & _ & Hr & _). simpl.
  destruct Hsm as [_ _ _ _ Hm _ _ Hsrc Hf]. eapply (linear_mutator s _ t p q); try done. simpl. by rewrite Hm.
Qed.

Lemma linear_retire s t n :
  hazard_linear s → mutators s !! t = Some (MRetire n) → is_Some (state_of s t) →
  hazard_linear (goes_on t MIncrease (Retire s t n) s).
Proof.
  intros Hl E Hs. destruct (Retire_spec s t n Hs) as (s1 & x & -> & Hsm & _ & _ & _ & Hr & _). simpl.
  destruct Hsm as [_ _ _ _ Hm _ _ Hsrc Hf]. apply (linear_local s); [done| |done].
  unfold used. simpl. rewrite Hm, Hsrc, Hr.
  pose proof (bind_insert_perm unlinked _ t MIncrease (MRetire n) E) as HP. simpl in HP.
  rewrite app_nil_r in HP. rewrite <-HP. solve_Permutation.
Qed.

Lemma linear_unlink s t :
  hazard_linear s → mutators s !! t = Some (MHeld (src s)) →
  hazard_linear (set_mutator (MkHazard (fresh s) (S (fresh s)) (manager s) (mutators s)
    (collector s) (destructor s) (retired s) (freed s)) t (MRelease (src s))).
Proof.
  intros [Hnd Hlt] E. pose proof (bind_insert_perm unlinked _ t (MRelease (src s)) (MHeld (src s)) E) as HP.
  simpl in HP. rewrite app_nil_r in HP. unfold hazard_linear. set (s' := set_mutator _ _ _).
  assert (used s' ≡ₚ used s ++ [fresh s]) as HQ by (unfold used; simpl; rewrite HP; solve_Permutation).
  split.
  - rewrite HQ. apply NoDup_app. split; [done|]. split; [|apply NoDup_singleton].
    intros k Hk%Hlt Hf%list_elem_of_singleton. lia.
  - intros k. rewrite HQ, elem_of_app, list_elem_of_singleton. simpl. intros [Hk%Hlt| ->]; lia.
Qed.

Lemma mutator_step_linear s t s' : life s → hazard_linear s → mutator_step s t = Some s' → hazard_linear s'.
Proof.
  intros Hf Hl Hstep. unfold mutator_step in Hstep. destruct (mutators s !! t) as [p|] eqn:E; [|done].
  simpl in Hstep. pose proof (life_state s t p Hf E) as Hs.
  destruct p; simplify_eq/=; try done; try (eapply linear_goes; [done|done|by apply Hs|done]);
    try (by apply linear_retire; [| |apply Hs]);
    repeat case_match; simplify_eq; by eapply (linear_mutator s _ t _ _ Hl E).
Qed.

Lemma check_linear t ps c s oc s' : hazard_linear s → check_effect t ps c s oc s' → hazard_linear s'.
Proof. intros Hl [[] _ _ Hr _ _ _ _]. by apply (linear_same s). Qed.

Lemma hazard_step_linear l s s' : life s → hazard_linear s → hazard_step l s = Some s' → hazard_linear s'.
Proof.
  intros Hf Hl Hstep. destruct l as [t|t|t|t|t|t| | |]; simpl in Hstep.
  1-3: destruct (mutators s !! t) as [p|] eqn:E; [|done]; destruct p; try done; repeat case_match; simplify_eq;
    by eapply linear_mutator.
  - by eapply mutator_step_linear.
  - destruct (mutators s !! t) as [p|] eqn:E; [|done]. destruct p; simplify_eq.
    eapply linear_goes; try done. by eapply life_state.
  - destruct (mutators s !! t) as [p|] eqn:E; [|done]. destruct p; try done. case_decide; simplify_eq.
    by apply linear_unlink.
  - destruct (lf_collector _ Hf) as [_ Hv]. unfold Collect_step in Hstep.
    destruct (collector s) as [| | | |[|t ts] ps|[|t ts] ps|t c ts ps| | | |] eqn:Ek; simplify_eq/=;
      try (by apply (linear_same s)).
    + case_match; simplify_eq. by apply (linear_same s).
    + destruct (check_spec t ps c s) as (oc & s1 & E & Hck); [apply Hv; by left|]. rewrite E.
      pose proof (check_linear _ _ _ _ _ _ Hl Hck) as Hl1. destruct oc; by apply (linear_same s1).
  - repeat case_match; simplify_eq. by apply (linear_same s).
  - pose proof (lf_destructor _ Hf) as Hok. unfold destructor_ok in Hok. unfold Destroy_step in Hstep.
    destruct (destructor s) as [| | | |[|t ts]|t c ts|t ts| | |] eqn:Ed; simplify_eq/=; try (by apply (linear_same s));
      try (repeat case_match; simplify_eq; by apply (linear_same s)).
    destruct Hok as (_ & (_ & _ & Hs) & _).
    destruct (check_spec t [] c s) as (oc & s1 & E & Hck); [apply Hs; by left|]. rewrite E.
    pose proof (check_linear _ _ _ _ _ _ Hl Hck) as Hl1. destruct oc; by apply (linear_same s1).
Qed.

Lemma hazard_invariant n : (Z.of_nat n < size_bound)%Z →
  invariant (hazard_manager n) (λ s, life s ∧ hazard_conserved s ∧ hazard_linear s).
Proof.
  intros Hn. apply (invariant_on_top _ life); [by apply hazard_life|..].
  - intros s ->. split; [|split].
    + apply (hazard_life n Hn). by apply reachable_init.
    + unfold hazard_conserved. simpl. rewrite stacks_none; [done|]. intros u. unfold state_of. simpl.
      destruct (replicate n None !! u) eqn:E; [|done]. by apply lookup_replicate in E as [-> _].
    + unfold hazard_linear, used. simpl.
      assert (∀ i, replicate i MNone ≫= unlinked = []) as -> by (by induction i). simpl.
      split; [apply NoDup_singleton|]. intros m Hm. apply list_elem_of_singleton in Hm. lia.
  - intros l s s' Hl (_ & Hc & Hli) Hstep. split; [by eapply hazard_step_life|].
    split; [by eapply hazard_step_conserved|by eapply hazard_step_linear].
Qed.

(** *** A hazard set before a pass begins protects its node *)

(** Thread [t]'s hazard is [m], its mutator lives, and the pass under way has seen the
    hazard or will. *)
Record guarded (t : nat) (m : node) (s : hazard) : Prop := Guarded {
  gd_hazard : protected_ptr <$> state_of s t = Some (Some m);
  gd_alive : ∃ p, mutators s !! t = Some p ∧ p ≠ MNone;
  gd_pass : match collector s with
            | KScan todo ps => t ∈ todo ∨ m ∈ ps
            | KStates _ ps | KCheck _ _ _ ps => m ∈ ps
            | _ => True
            end;
  gd_freed : m ∉ freed s
}.

Definition not_by (t : nat) (l : hazard_label) : Prop :=
  match l with
  | CallMake u | CallDrop u | CallAcquire u | MutatorStep u | ReleaseHeld u | Unlink u => u ≠ t
  | Collect | CallDestroy | Destroy => True
  end.

(** A move of another mutator. *)
Lemma guarded_other t m u s s1 q :
  guarded t m s → u ≠ t → same_but u s s1 → freed s1 = freed s → guarded t m (set_mutator s1 u q).
Proof.
  intros [H1 H2 H3 H4] Hu [_ Ho _ _ Hm Hk _ _ _] Hf. split; simpl; rewrite ?Hk, ?Hf; try done.
  - change (state_of (set_mutator s1 u q) t) with (state_of s1 t). by rewrite Ho.
  - rewrite Hm, list_lookup_insert_ne by done. done.
Qed.

Lemma guarded_goes t m u s q o : guarded t m s → u ≠ t → guarded t m (goes_on u q (protect s u o) s).
Proof.
  intros Hg Hu. destruct (state_of s u) as [x|] eqn:Ex.
  - destruct (protect_spec s u o) as (s1 & y & -> & Hsm & _ & _ & _ & _ & Hf); [eauto|]. by eapply guarded_other.
  - unfold protect. rewrite Ex. by apply (guarded_other t m u s s).
Qed.

Lemma guarded_mutator t m u s s' : life s → guarded t m s → u ≠ t → mutator_step s u = Some s' → guarded t m s'.
Proof.
  intros Hl Hg Hu Hstep. unfold mutator_step in Hstep. destruct (mutators s !! u) as [p|] eqn:E; [|done].
  simpl in Hstep. assert (same_but u s s) as Hrefl by done.
  destruct p; simplify_eq/=; try done; try (by apply guarded_goes); try (by apply (guarded_other t m u s)).
  - case_match; simplify_eq. apply (guarded_other t m u s); try done; [|by case_match].
    destruct (state_of s u) eqn:Ex; [done|]. split; try done; [simpl; by rewrite length_insert|].
    intros v Hv. rewrite state_of_set_thread by (by eapply life_known). by rewrite decide_False.
  - case_match; simplify_eq. by apply (guarded_other t m u s).
  - destruct (state_of s u) as [x|] eqn:Ex.
    + destruct (Retire_spec s u n) as (s1 & y & -> & Hsm & _ & _ & _ & _ & Hf); [eauto|]. by apply (guarded_other t m u s).
    + unfold Retire. rewrite Ex. by apply (guarded_other t m u s).
Qed.

Lemma guarded_collect t m s s' : life s → guarded t m s → Collect_step s = Some s' → guarded t m s'.
Proof.
  intros Hl [H1 H2 H3 H4] Hstep. destruct (lf_collector _ Hl) as [_ Hv]. unfold Collect_step in Hstep.
  assert (∀ k, (match k with
                | KScan todo ps => t ∈ todo ∨ m ∈ ps
                | KStates _ ps | KCheck _ _ _ ps => m ∈ ps
                | _ => True
                end) → guarded t m (set_collector s k)) as Hlocal by (intros k Hk; by split).
  assert (is_Some (state_of s t)) as Hs by (destruct (state_of s t); [eauto|done]).
  destruct (collector s) as [| | | |[|u ts] ps|[|u ts] ps|u c ts ps| | | |] eqn:Ek; simplify_eq/=;
    try (by apply Hlocal; repeat case_match); try done.
  - case_match; simplify_eq. split; try done. left. by apply registered_spec.
  - apply Hlocal. by destruct H3 as [?%elem_of_nil|?].
  - destruct (Hv u) as [x Ex]; [by left|]. rewrite Ex. apply Hlocal. destruct H3 as [[->|Hin]%elem_of_cons|Hin].
    + rewrite Ex in H1. simpl in H1. injection H1 as ->. right. by left.
    + by left.
    + right. destruct (protected_ptr x); [by right|done].
  - destruct (check_spec u ps c s) as (oc & s1 & E & Hck); [apply Hv; by left|]. rewrite E.
    destruct Hck as [Hsm Hp _ _ _ Hf _ _]. pose proof (same_but_protected _ _ _ Hsm Hp t) as Ht.
    pose proof (sm_mutators _ _ _ Hsm) as Hm.
    destruct oc; split; simpl; rewrite ?Hm; try done; try (by rewrite <-H1, <-Ht); by intros [?|?]%Hf.
Qed.

Lemma guarded_step t m l s s' :
  life s → guarded t m s → not_by t l → hazard_step l s = Some s' → guarded t m s'.
Proof.
  intros Hl Hg Hn Hstep. destruct l as [u|u|u|u|u|u| | |]; simpl in Hstep, Hn.
  1-3: destruct (mutators s !! u) as [p|] eqn:E; [|done]; destruct p; try done; repeat case_match; simplify_eq;
    by apply (guarded_other t m u s s).
  - by eapply guarded_mutator.
  - destruct (mutators s !! u) as [p|] eqn:E; [|done]. destruct p; simplify_eq. by apply guarded_goes.
  - destruct (mutators s !! u) as [p|] eqn:E; [|done]. destruct p; try done. case_decide; simplify_eq.
    destruct Hg as [H1 H2 H3 H4]. split; simpl; try done. by rewrite list_lookup_insert_ne.
  - by eapply guarded_collect.
  - destruct (destructor s); try done. case_decide; simplify_eq. by destruct Hg.
  - destruct Hg as [_ (p & Ep & Hp) _ _]. unfold Destroy_step in Hstep.
    by rewrite (life_alive s t p Hl Ep Hp) in Hstep.
Qed.

(** ** Theorems *)

(** C24: memory is reclaimed exactly once: only retired nodes are freed, none twice; the
    node currently linked is not among them; every retired node that has not been
    freed is still on some thread's stack or in the hand of the collector or the
    destructor; and no assertion fails, nor is the state of a thread missing. *)
Theorem hazard_frees_once n s :
  (Z.of_nat n < size_bound)%Z → reachable (hazard_manager n) s →
  NoDup (freed s) ∧ (∀ m, m ∈ freed s → m ∈ retired s) ∧ src s ∉ freed s ∧
  retired s ≡ₚ freed s ++ in_hand s ++ stacks s ∧
  MFail ∉ mutators s ∧ collector s ≠ KFail ∧ destructor s ≠ DFail.
Proof.
  intros Hn Hr. destruct (hazard_invariant n Hn s Hr) as (Hl & Hc & [Hnd _]).
  unfold hazard_conserved in Hc. unfold used in Hnd. apply NoDup_app in Hnd as (Hnd & Hdis & _).
  assert (∀ m, m ∈ freed s → m ∈ retired s) as Hsub by (intros m Hm; rewrite Hc; set_solver).
  split; [|split; [done|split; [|split; [done|split; [|split; [apply Hl|]]]]]].
  - rewrite Hc in Hnd. by apply NoDup_app in Hnd as [? _].
  - intros Hin%Hsub%Hdis. set_solver.
  - intros [t Et]%list_elem_of_lookup. by apply (lf_mutator _ Hl t) in Et as [? _].
  - intros Hd. pose proof (lf_destructor _ Hl) as Hok. unfold destructor_ok in Hok. by rewrite Hd in Hok.
Qed.

(** [MakeMutator]; the mutator acquires the node, and unlinks and retires it; a whole
    pass of the collector over two threads with [n] retired nodes, of which it puts
    back [k]. *)
Definition make_by (t : nat) : list hazard_label := CallMake t :: repeat (MutatorStep t) 4.
Definition acquire_by (t : nat) : list hazard_label := CallAcquire t :: repeat (MutatorStep t) 3.
Definition remove_by (t : nat) : list hazard_label :=
  acquire_by t ++ Unlink t :: repeat (MutatorStep t) 3.
Definition pass (n k : nat) : list hazard_label := repeat Collect (14 + n + k).

Definition hazard_after (tr : list hazard_label) : hazard :=
  default (new_hazard 0) (run (hazard_manager 2) (make_by 0 ++ make_by 1 ++ tr) (new_hazard 2)).

Lemma hazard_after_reachable tr :
  is_Some (run (hazard_manager 2) (make_by 0 ++ make_by 1 ++ tr) (new_hazard 2)) →
  reachable (hazard_manager 2) (hazard_after tr).
Proof. by apply (run_reachable (hazard_manager 2)). Qed.

Definition collected : hazard := hazard_after (acquire_by 1 ++ remove_by 0 ++ remove_by 0 ++ pass 2 1).

Lemma hazard_frees_once_witness :
  freed collected = [1] ∧ retired collected = [0; 1] ∧ collector collected = KSize ∧
  NoDup (freed collected) ∧ (∀ m, m ∈ freed collected → m ∈ retired collected) ∧
  src collected ∉ freed collected ∧
  retired collected ≡ₚ freed collected ++ in_hand collected ++ stacks collected ∧
  MFail ∉ mutators collected ∧ collector collected ≠ KFail ∧ destructor collected ≠ DFail.
Proof.
  split; [vm_compute; reflexivity|]. split; [vm_compute; reflexivity|]. split; [vm_compute; reflexivity|].
  apply (hazard_frees_once 2 collected); [done|]. apply hazard_after_reachable. vm_compute. eauto.
Defined.

(** C23: a node acquired outside a pass of the collector is safe to use: if the hazard of
    a live mutator [t] is [m], not freed, and no pass is under way, then whatever the
    other threads, the collector and the manager do, through any number of passes, [m]
    is not freed until [t] itself moves on. *)
Theorem hazard_protects n s t p m tr s' :
  (Z.of_nat n < size_bound)%Z → reachable (hazard_manager n) s → collector_locks (collector s) = false →
  mutators s !! t = Some p → p ≠ MNone → protected_ptr <$> state_of s t = Some (Some m) → m ∉ freed s →
  Forall (not_by t) tr → run (hazard_manager n) tr s = Some s' → m ∉ freed s'.
Proof.
  intros Hn Hs Hk Ep Hp Hh Hf. pose proof (hazard_life n Hn s Hs) as Hl.
  assert (guarded t m s) as Hg by (split; [done|by exists p|by destruct (collector s)|done]).
  clear Hk Ep Hp Hh Hf Hs. revert s Hl Hg. induction tr as [|l tr IH]; intros s Hl Hg Htr Hr; simpl in Hr.
  - simplify_eq. apply Hg.
  - apply Forall_cons in Htr as [Hnb Htr]. destruct (hazard_step l s) as [s1|] eqn:E; simpl in Hr; [|done].
    apply (IH s1); [by eapply hazard_step_life|by eapply guarded_step|done|done].
Qed.

Lemma hazard_protects_witness : 0 ∉ freed collected.
Proof.
  apply (hazard_protects 2 (hazard_after (acquire_by 1)) 1 (MHeld 0) 0 (remove_by 0 ++ remove_by 0 ++ pass 2 1));
    [done| |vm_compute; reflexivity|vm_compute; reflexivity|done|vm_compute; reflexivity| | |vm_compute; reflexivity].
  - apply hazard_after_reachable. vm_compute. eauto.
  - vm_compute. set_solver.
  - repeat (apply Forall_cons; split; [done|]). done.
Defined.

(** A node acquired during a pass is not safe: the pass reads the hazards before it
    takes the stacks of retired nodes, so a node that is acquired after its thread's
    hazard was read, and then unlinked and retired by another thread, is freed by
    that pass although the hazard pointing to it is set and validated. *)
Lemma hazard_use_after_free :
  ∃ s, reachable (hazard_manager 2) s ∧ mutators s !! 1 = Some (MHeld 0) ∧
    protected_ptr <$> state_of s 1 = Some (Some 0) ∧ 0 ∈ freed s.
Proof.
  exists (hazard_after (repeat Collect 7 ++ acquire_by 1 ++ remove_by 0 ++ repeat Collect 4)).
  split; [apply hazard_after_reachable; vm_compute; eauto|].
  split; [vm_compute; reflexivity|]. split; [vm_compute; reflexivity|].
  vm_compute. set_solver.
Qed.

(** The collector starts with the manager and ends as soon as it sees no mutator: what
    is retired afterwards stays on the stacks until the manager is destroyed. *)
Lemma hazard_collector_gone :
  let tr := [Collect; Collect] ++ make_by 0 ++ make_by 1 ++ remove_by 0 in
  ∃ s, run (hazard_manager 2) tr (new_hazard 2) = Some s ∧ collector s = KDone ∧ retired s = [0] ∧
    ∀ l s', hazard_step l s = Some s' → collector s' = KDone.
Proof.
  eexists. split; [vm_compute; reflexivity|]. split; [reflexivity|]. split; [reflexivity|].
  intros l s'. destruct l as [[|[|t]]|[|[|t]]|[|[|t]]|[|[|t]]|[|[|t]]|[|[|t]]| | |]; intros H; vm_compute in H; by simplify_eq.
Qed.
