(* ===== verification/HazardShutdown.v ===== *)
(** * components/lock_free/hazard: the end of the manager

    [~HazardManager] at the end of the program: it stops and joins the collector, frees
    what is still retired and deletes the states of the threads.  A measure bounds the
    steps left once [cancel_collect] is set. *)

From stdpp Require Import prelude list.
From S2P Require Import Prelude.
From S2P Require Import Hazard.

(** ** The steps that are left *)

(** The nodes retired and not freed. *)
Definition waste (s : hazard) : nat := length (retired s) - length (freed s).

(** The cost of a list of nodes in [CheckToDelete], [w] bounding a whole stack. *)
Definition check_rank (w : nat) (c : check_pc) : nat :=
  match c with CTake => 2 * w + 3 | CLoop cs => 2 * length cs + 1 | CIncrease cs => 2 * length cs + 2 end.

Section ranks.
  Context (m w : nat).  (** the threads, the waste *)

Definition states_rank (k : nat) : nat := k * (2 * w + 6).

Definition collector_rank (k : collector_pc) : nat :=
  match k with
  | KDone | KFail => 0
  | KCancel => 1
  | KSleep => 2
  | KSize => 3
  | KStates ts _ => 4 + states_rank (length ts)
  | KCheck _ c ts _ => 4 + states_rank (length ts) + check_rank w c
  | KScan ts _ => 5 + length ts + states_rank m
  | KLock => 6 + m + states_rank m
  | KReset => 7 + m + states_rank m
  | KCount => 8 + m + states_rank m
  end.

Definition destructor_rank (d : destructor_pc) : nat :=
  match d with
  | DNone | DCancel | DEnd | DFail => 0
  | DCount => 1
  | DStates ts => 2 + states_rank (length ts)
  | DDelete _ ts => 3 + states_rank (length ts)
  | DCheck _ c ts => 3 + states_rank (length ts) + check_rank w c
  | DLock => 3 + states_rank m
  | DJoin => 4 + states_rank m
  end.
End ranks.

Lemma states_rank_mono w w' k k' : w' <= w → k' <= k → states_rank w' k' <= states_rank w k.
Proof. intros. unfold states_rank. apply Nat.mul_le_mono; lia. Qed.

Lemma states_rank_S w k : states_rank w (S k) = 2 * w + 6 + states_rank w k.
Proof. unfold states_rank. lia. Qed.

Lemma check_rank_mono w w' c : w' <= w → check_rank w' c <= check_rank w c.
Proof. destruct c; simpl; lia. Qed.

Lemma collector_rank_mono m w w' k : w' <= w → collector_rank m w' k <= collector_rank m w k.
Proof.
  intros Hw. pose proof (states_rank_mono w w' m m Hw ltac:(done)).
  destruct k as [| | | |ts ps|ts ps|t c ts ps| | | |]; simpl; try lia;
    pose proof (states_rank_mono w w' (length ts) (length ts) Hw ltac:(done)); try lia.
  pose proof (check_rank_mono w w' c Hw). lia.
Qed.

Lemma destructor_rank_mono m w w' d : w' <= w → destructor_rank m w' d <= destructor_rank m w d.
Proof.
  intros Hw. pose proof (states_rank_mono w w' m m Hw ltac:(done)).
  destruct d as [| | | |ts|t c ts|t ts| | |]; simpl; try lia;
    pose proof (states_rank_mono w w' (length ts) (length ts) Hw ltac:(done)); try lia.
  pose proof (check_rank_mono w w' c Hw). lia.
Qed.

(** The steps that the collector and the destructor have left. *)
Definition steps_left (s : hazard) : nat :=
  let m := length (threads (manager s)) in
  collector_rank m (waste s) (collector s) + destructor_rank m (waste s) (destructor s).

Lemma registered_length s : length (registered s) <= length (threads (manager s)).
Proof.
  unfold registered. etransitivity; [apply length_filter|]. by rewrite length_seq.
Qed.

(** What is in the hand of the collector or the destructor is part of the waste. *)
Lemma hand_waste s : hazard_conserved s → length (in_hand s) <= waste s.
Proof.
  unfold hazard_conserved, waste. intros Hc%Permutation_length. rewrite !length_app in Hc. lia.
Qed.

(** ** [CheckToDelete] makes progress *)

Lemma check_waste t ps c s oc s' : check_effect t ps c s oc s' → waste s' <= waste s.
Proof. intros [_ _ _ Hr _ _ Hg _]. unfold waste. rewrite Hr. lia. Qed.

Lemma check_progress t ps c s oc s' :
  CheckToDelete t ps c s = Some (oc, s') → length (hand (default CTake oc)) <= waste s →
  match oc with
  | Some c' => check_rank (waste s) c' < check_rank (waste s) c
  | None => 0 < check_rank (waste s) c
  end.
Proof.
  intros Hs Hw. destruct c as [|[|n cs]|cs]; simpl in Hs; repeat case_match; simplify_eq/=; try lia.
  all: destruct (state_of s t); simplify_eq/=; lia.
Qed.

Section shutdown.
  Context (n : nat) (Hn : (Z.of_nat n < size_bound)%Z).

(** The destructor has set [cancel_collect]. *)
Definition stopping (s : hazard) : Prop := destructor s ≠ DNone ∧ destructor s ≠ DCancel.

Lemma stopping_cancel s : life s → stopping s → cancel_collect (manager s) = true.
Proof.
  intros Hl [H1 H2]. pose proof (lf_destructor _ Hl) as Hd. unfold destructor_ok in Hd.
  by destruct (destructor s); try destruct Hd.
Qed.

Lemma collect_progress s s' :
  life s → hazard_conserved s → stopping s → Collect_step s = Some s' → steps_left s' < steps_left s.
Proof.
  intros Hl Hc Hst Hstep. pose proof (stopping_cancel s Hl Hst) as Hcan.
  pose proof (Collect_step_conserved s s' Hl Hc Hstep) as Hc'. pose proof (registered_length s) as Hreg.
  pose proof (states_rank_mono (waste s) (waste s) _ _ ltac:(done) Hreg) as Hsr.
  destruct (lf_collector _ Hl) as [_ Hv]. unfold Collect_step in Hstep. unfold steps_left.
  destruct (collector s) as [| | | |[|t ts] ps|[|t ts] ps|t c ts ps| | | |] eqn:Ek; simplify_eq/=;
    change (waste (set_collector _ _)) with (waste s).
  - rewrite Hcan. simpl. lia.
  - case_bool_decide; simpl; lia.
  - change (waste (set_size s 0)) with (waste s). lia.
  - case_match; simplify_eq. change (waste (set_collector _ _)) with (waste s). simpl. lia.
  - simpl. lia.
  - destruct (Hv t) as [x Ex]; [by left|]. rewrite Ex. simpl. lia.
  - change (waste (set_lock _ _)) with (waste s). unfold states_rank. lia.
  - rewrite states_rank_S. simpl. lia.
  - destruct (check_spec t ps c s) as (oc & s1 & E & Hck); [apply Hv; by left|]. rewrite E in Hc' |- *.
    pose proof (check_waste _ _ _ _ _ _ Hck) as Hw. destruct Hck as [Hsm _ _ _ _ _ _ _].
    pose proof (sm_length _ _ _ Hsm) as Hlen. pose proof (sm_destructor _ _ _ Hsm) as Hd.
    set (m := length (threads (manager s))) in *.
    pose proof (destructor_rank_mono m _ _ (destructor s) Hw) as HD.
    pose proof (states_rank_mono _ _ (length ts) (length ts) Hw ltac:(done)) as HS.
    destruct oc as [c'|]; apply hand_waste in Hc'; unfold in_hand in Hc'; simpl in Hc'; rewrite ?length_app in Hc'.
    + change (waste (set_collector s1 _)) with (waste s1) in *. simpl. rewrite Hlen, Hd. fold m.
      pose proof (check_progress t ps c s (Some c') s1 E) as Hp. simpl in Hp.
      pose proof (check_rank_mono _ _ c' Hw). lia.
    + change (waste (set_collector s1 _)) with (waste s1) in *. simpl. rewrite Hlen, Hd. fold m.
      pose proof (check_progress t ps c s None s1 E) as Hp. simpl in Hp. lia.
  - case_bool_decide; simpl; lia.
  - rewrite Hcan. simpl. lia.
Qed.

Lemma destroy_progress s s' :
  life s → hazard_conserved s → stopping s → Destroy_step s = Some s' → steps_left s' < steps_left s.
Proof.
  intros Hl Hc [Hst1 Hst2] Hstep.
  pose proof (Destroy_step_conserved s s' Hl Hc Hstep) as Hc'. pose proof (registered_length s) as Hreg.
  pose proof (states_rank_mono (waste s) (waste s) _ _ ltac:(done) Hreg) as Hsr.
  pose proof (lf_destructor _ Hl) as Hok. unfold destructor_ok in Hok.
  unfold Destroy_step in Hstep. unfold steps_left.
  destruct (destructor s) as [| | | |[|t ts]|t c ts|t ts| | |] eqn:Ed; simplify_eq/=; try done;
    change (waste (set_destructor _ _)) with (waste s).
  - destruct (collector s) eqn:Ek; simplify_eq. change (waste (set_destructor _ _)) with (waste s). simpl. rewrite Ek. simpl. lia.
  - case_match; simplify_eq. change (waste (set_destructor _ _)) with (waste s). simpl. lia.
  - rewrite length_fmap. change (waste (set_manager _ _)) with (waste s). unfold states_rank. lia.
  - rewrite states_rank_S. destruct (state_of s t); [case_decide|]; simpl; lia.
  - destruct Hok as (_ & (Hk & _ & Hs) & _). destruct (check_spec t [] c s) as (oc & s1 & E & Hck); [apply Hs; by left|].
    rewrite E in Hc' |- *.
    pose proof (check_waste _ _ _ _ _ _ Hck) as Hw. destruct Hck as [Hsm _ _ _ _ _ _ _].
    pose proof (sm_length _ _ _ Hsm) as Hlen. pose proof (sm_collector _ _ _ Hsm) as Hco.
    pose proof (states_rank_mono _ _ (length ts) (length ts) Hw ltac:(done)) as HS.
    destruct oc as [c'|]; apply hand_waste in Hc'; unfold in_hand in Hc'; simpl in Hc'; rewrite ?length_app in Hc';
      change (waste (set_destructor s1 _)) with (waste s1) in *; simpl; rewrite Hlen, Hco, Hk; simpl.
    + pose proof (check_progress t [] c s (Some c') s1 E) as Hp. simpl in Hp.
      pose proof (check_rank_mono _ _ c' Hw). lia.
    + pose proof (check_progress t [] c s None s1 E) as Hp. simpl in Hp. lia.
  - destruct (state_of s t) as [x|]; [case_decide|]; simpl; rewrite ?length_insert;
      change (waste (set_destructor _ _)) with (waste s); change (waste (set_thread _ _ _)) with (waste s); lia.
  - case_bool_decide; simpl; change (waste (set_destructor _ _)) with (waste s);
      change (waste (set_lock _ _)) with (waste s); lia.
Qed.

(** Nobody else can move: the destructor runs when no mutator is left. *)
Lemma stopping_step l s s' :
  life s → hazard_conserved s → stopping s → hazard_step l s = Some s' →
  stopping s' ∧ steps_left s' < steps_left s.
Proof.
  intros Hl Hc Hst Hstep. pose proof Hst as [H1 H2].
  assert (∀ t p, mutators s !! t = Some p → p = MNone) as Hnone.
  { intros t p Ep. destruct (decide (p = MNone)); [done|]. by pose proof (life_alive _ _ _ Hl Ep ltac:(done)). }
  destruct l as [t|t|t|t|t|t| | |]; simpl in Hstep.
  1-3, 5-6: destruct (mutators s !! t) as [p|] eqn:E; [|done]; rewrite (Hnone t p E) in Hstep; by destruct (destructor s).
  - unfold mutator_step in Hstep. destruct (mutators s !! t) as [p|] eqn:E; [|done]. by rewrite (Hnone t p E) in Hstep.
  - split; [|by apply collect_progress]. destruct (lf_collector _ Hl) as [_ Hv].
    assert (destructor s' = destructor s) as Hd; [|by split; rewrite Hd].
    unfold Collect_step in Hstep. destruct (collector s) as [| | | |[|t ts] ps|[|t ts] ps|t c ts ps| | | |]; simplify_eq/=; try done.
    + by case_match; simplify_eq.
    + destruct (check_spec t ps c s) as (oc & s1 & E & Hck); [apply Hv; by left|]. rewrite E.
      destruct Hck as [Hsm _ _ _ _ _ _ _]. pose proof (sm_destructor _ _ _ Hsm). by destruct oc.
  - by destruct (destructor s).
  - split; [|by apply destroy_progress]. unfold Destroy_step in Hstep.
    split; destruct (destructor s) as [| | | |[|t ts]|t c ts|t ts| | |]; simplify_eq/=; try done; repeat case_match; by simplify_eq/=.
Qed.

(** The destructor is never stuck. *)
Lemma stopping_enabled s : life s → stopping s → destructor s ≠ DEnd → ∃ l s', hazard_step l s = Some s'.
Proof.
  intros Hl [H1 H2] H3. pose proof (lf_destructor _ Hl) as Hok. unfold destructor_ok in Hok.
  pose proof (lf_lock _ Hl) as Hlk. destruct (destructor s) as [| | | |[|t ts]|t c ts|t ts| | |] eqn:Ed; try done.
  all: try (exists Destroy; simpl; unfold Destroy_step; rewrite Ed; eauto; done).
  - destruct (decide (Collect_step s = None)) as [Hk|Hk].
    + exists Destroy. simpl. unfold Destroy_step. rewrite Ed. destruct (lf_collector _ Hl) as [Hf _].
      unfold Collect_step in Hk. destruct (collector s) as [| | | |[|u us] ps|[|u us] ps|u c us ps| | | |]; try done; eauto.
      by rewrite Hlk in Hk.
    + exists Collect. simpl. destruct (Collect_step s); eauto. done.
  - destruct Hok as [_ Hk]. rewrite Hk in Hlk. exists Destroy. simpl. unfold Destroy_step. rewrite Ed, Hlk. eauto.
Qed.

(** Once [cancel_collect] is set, the schedules are bounded, and somebody can move. *)
Lemma stopping_run s tr s' :
  reachable (hazard_manager n) s → stopping s → run (hazard_manager n) tr s = Some s' →
  length tr <= steps_left s ∧ (destructor s' = DEnd ∨ ∃ l s'', hazard_step l s' = Some s'').
Proof using Hn.
  intros Hr Hst. destruct (hazard_invariant n Hn s Hr) as (Hl & Hc & _). clear Hr.
  revert s Hl Hc Hst. induction tr as [|l tr IH]; intros s Hl Hc Hst Hrun; simpl in Hrun.
  - simplify_eq. simpl. split; [lia|]. destruct (destructor s') eqn:Ed; try (by left); right;
      by apply stopping_enabled; rewrite ?Ed.
  - destruct (hazard_step l s) as [s1|] eqn:E; simpl in Hrun; [|done].
    destruct (stopping_step l s s1 Hl Hc Hst E) as [Hst1 Hlt].
    destruct (IH s1) as [Hlen Hend]; try done; [by eapply hazard_step_life|by eapply hazard_step_conserved|].
    split; [simpl; lia|done].
Qed.

(** Nothing leaks: when the destructor has returned, every node that was ever retired
    has been freed, once, and the states of all threads have been deleted. *)
Lemma hazard_destroyed s :
  reachable (hazard_manager n) s → destructor s = DEnd →
  freed s ≡ₚ retired s ∧ NoDup (freed s) ∧ ∀ t, state_of s t = None.
Proof using Hn.
  intros Hr Hd. destruct (hazard_invariant n Hn s Hr) as (Hl & Hc & [Hnd _]).
  pose proof (lf_destructor _ Hl) as Hok. unfold destructor_ok in Hok. rewrite Hd in Hok.
  destruct Hok as (_ & Hk & _ & Hs). assert (∀ t, state_of s t = None) as Hnone.
  { intros t. apply eq_None_not_Some. intros Ht%Hs. by apply elem_of_nil in Ht. }
  assert (freed s ≡ₚ retired s) as HP.
  { unfold hazard_conserved, in_hand in Hc. rewrite Hk, Hd, stacks_none, !app_nil_r in Hc by done. done. }
  split; [done|]. split; [|done]. rewrite HP. unfold used in Hnd. by apply NoDup_app in Hnd as [? _].
Qed.
(** C25: the destruction of the manager ends and leaves nothing: once [cancel_collect] is
    set, every schedule of the collector and the destructor is at most [steps_left] long;
    until the destructor has returned, one of the two can move; and when it has, every
    node that was ever retired has been freed, once, and the states of all threads have
    been deleted. *)
Theorem hazard_shutdown_terminates s tr s' :
  reachable (hazard_manager n) s → stopping s → run (hazard_manager n) tr s = Some s' →
  length tr <= steps_left s ∧
  ((∃ l s'', hazard_step l s' = Some s'') ∨
   destructor s' = DEnd ∧ freed s' ≡ₚ retired s' ∧ NoDup (freed s') ∧ ∀ t, state_of s' t = None).
Proof using Hn.
  intros Hr Hst Hrun. assert (reachable (hazard_manager n) s') as Hr' by (by eapply reachable_run).
  destruct (stopping_run s tr s' Hr Hst Hrun) as [Hlen [Hd|Hs]]; (split; [done|]); [right|by left].
  split; [done|]. by apply hazard_destroyed.
Qed.
End shutdown.

(** Two mutators retire three nodes, one of them held by the other at the time of a pass,
    and are destroyed; then the manager is. *)
Definition drop_by (t : nat) : list hazard_label := CallDrop t :: repeat (MutatorStep t) 2.

Definition until_cancelled : list hazard_label :=
  make_by 0 ++ make_by 1 ++ acquire_by 1 ++ remove_by 0 ++ remove_by 0 ++ pass 2 1 ++ remove_by 1 ++
  drop_by 0 ++ drop_by 1 ++ [CallDestroy; Destroy].

Definition destruction : list hazard_label := repeat Collect 3 ++ repeat Destroy 14.

Definition cancelled : hazard := default (new_hazard 2) (run (hazard_manager 2) until_cancelled (new_hazard 2)).
Definition destroyed : hazard := default (new_hazard 2) (run (hazard_manager 2) destruction cancelled).

Lemma cancelled_reachable : reachable (hazard_manager 2) cancelled.
Proof. apply (run_reachable (hazard_manager 2)); [done|]. vm_compute. eauto. Qed.

Lemma hazard_shutdown_terminates_witness :
  freed destroyed = [1; 0; 2] ∧ length destruction <= steps_left cancelled ∧
  ((∃ l s'', hazard_step l destroyed = Some s'') ∨
   destructor destroyed = DEnd ∧ freed destroyed ≡ₚ retired destroyed ∧ NoDup (freed destroyed) ∧
   ∀ t, state_of destroyed t = None).
Proof.
  split; [vm_compute; reflexivity|].
  apply (hazard_shutdown_terminates 2 eq_refl cancelled destruction destroyed).
  - apply cancelled_reachable.
  - split; vm_compute; discriminate.
  - vm_compute. reflexivity.
Defined.
