(* ===== verification/Chain.v ===== *)
(** * Linked nodes

    The nodes of a singly-linked queue, in order: what the two lock-free queues of
    components share. *)

From stdpp Require Import prelude list.
From S2P Require Import Prelude.

Abbreviation node := nat.

Fixpoint chain (f : node → option node) (L : list node) : Prop :=
  match L with
  | [] => True
  | x :: L' => f x = hd_error L' ∧ chain f L'
  end.

Lemma chain_ext f g L : (∀ x, x ∈ L → g x = f x) → chain f L → chain g L.
Proof.
  induction L as [|x L IH]; simpl; intros H; [done|]. intros [E Hc].
  split; [rewrite H; [done|by left]|]. apply IH; [|done]. intros y Hy. apply H. by right.
Qed.

Lemma chain_next_in f L x y : chain f L → x ∈ L → f x = Some y → y ∈ L.
Proof.
  induction L as [|a L IH]; intros Hc Hx Hy; [by apply elem_of_nil in Hx|].
  destruct Hc as [E Hc]. apply elem_of_cons in Hx as [->|Hx].
  - rewrite E in Hy. destruct L; simplify_eq/=. right. by left.
  - right. by apply IH.
Qed.

Lemma chain_split f pre x suf : chain f (pre ++ x :: suf) → f x = hd_error suf.
Proof. induction pre as [|a pre IH]; simpl; [by intros [? _]|]. intros [_ ?]. auto. Qed.

(** The node with no successor is the last. *)
Lemma chain_last f L x : chain f L → x ∈ L → f x = None → ∃ L', L = L' ++ [x].
Proof.
  intros Hc Hx Hn. apply list_elem_of_split in Hx as (L1 & L2 & ->).
  apply chain_split in Hc. rewrite Hn in Hc. destruct L2; [by exists L1|done].
Qed.

Lemma chain_link f L x n :
  chain f (L ++ [x]) → NoDup (L ++ [x]) → n ∉ L ++ [x] → f n = None →
  chain f⟦x ↦ Some n⟧ (L ++ [x; n]).
Proof.
  induction L as [|a L IH]; simpl; intros Hc Hnd Hn Hf.
  - rewrite upd_eq, upd_ne; [done|]. intros ->. apply Hn. by left.
  - destruct Hc as [E Hc]. apply NoDup_cons in Hnd as [Ha Hnd].
    split; [|apply IH; try done; intros ?; apply Hn; by right].
    rewrite upd_ne by (intros ->; apply Ha; rewrite elem_of_app; right; by left).
    rewrite E. by destruct L.
Qed.

Lemma upto_linked (pre : list node) h suf n : n ∈ pre ++ [h] → n ∈ pre ++ h :: suf.
Proof. rewrite !elem_of_app, list_elem_of_singleton, elem_of_cons. tauto. Qed.

(** Nodes are numbered in the order they are allocated: each of the first [k] once. *)
Lemma all_nodes (L : list node) k : NoDup L → (∀ n, n ∈ L ↔ n < k) → L ≡ₚ seq 0 k.
Proof.
  intros Hnd H. apply NoDup_Permutation; [done|apply NoDup_seq|].
  intros n. rewrite H, elem_of_seq. lia.
Qed.

Lemma length_below (L : list node) k : NoDup L → (∀ n, n ∈ L → n < k) → length L <= k.
Proof.
  intros Hnd H. rewrite <-(length_seq k 0). apply submseteq_length, NoDup_submseteq; [done|].
  intros n Hn%H. apply elem_of_seq. lia.
Qed.
