(* ===== verification/Atomic.v ===== *)
(** * Linearizability

    An object whose operations take effect one at a time, shared by threads: the
    specification the queues of components are linearizable to.  A call is pending
    until it takes effect, which fixes its result, and then returns.  An
    implementation is linearizable when each of its executions has the calls and
    returns, in the same order and with the same results, of an execution of the
    object. *)

From stdpp Require Import prelude list.
From S2P Require Import Prelude.

(** ** Atomic objects *)

(** [obj_apply op r v]: the value after [op] takes effect on [v] with result [r], if
    it may. *)
Class Object (V Op Res : Type) := {
  obj_apply : Op → Res → V → option V
}.

Inductive astatus (Op Res : Type) := AIdle | APending (op : Op) | ADone (r : Res).
Arguments AIdle {Op Res}.
Arguments APending {Op Res} _.
Arguments ADone {Op Res} _.

Record astate (V Op Res : Type) := MkAState { aval : V; ast : tid → astatus Op Res }.
Arguments MkAState {V Op Res} _ _.
Arguments aval {V Op Res} _.
Arguments ast {V Op Res} _ _.

Inductive alabel (Op Res : Type) :=
| ACall (t : tid) (op : Op)
| ATake (t : tid) (r : Res)
| AReturn (t : tid) (r : Res).
Arguments ACall {Op Res} _ _.
Arguments ATake {Op Res} _ _.
Arguments AReturn {Op Res} _ _.

(** What a client sees: calls and returns. *)
Inductive event (Op Res : Type) := EvCall (t : tid) (op : Op) | EvReturn (t : tid) (r : Res).
Arguments EvCall {Op Res} _ _.
Arguments EvReturn {Op Res} _ _.

Definition aevent {Op Res} (l : alabel Op Res) : list (event Op Res) :=
  match l with ACall t op => [EvCall t op] | ATake _ _ => [] | AReturn t r => [EvReturn t r] end.

Section atomic.
  Context {V Op Res : Type} `{!EqDecision Res} `{Object V Op Res}.

Definition at_status (a : astate V Op Res) (t : tid) (x : astatus Op Res) : astate V Op Res :=
  MkAState (aval a) (ast a)⟦t ↦ x⟧.

Definition astep (l : alabel Op Res) (a : astate V Op Res) : option (astate V Op Res) :=
  match l with
  | ACall t op => match ast a t with AIdle => Some (at_status a t (APending op)) | _ => None end
  | ATake t r =>
      match ast a t with
      | APending op => v ← obj_apply op r (aval a); Some (MkAState v (ast a)⟦t ↦ ADone r⟧)
      | _ => None
      end
  | AReturn t r =>
      match ast a t with
      | ADone r' => if decide (r = r') then Some (at_status a t AIdle) else None
      | _ => None
      end
  end.

Definition ainit (v : V) : astate V Op Res := MkAState v (λ _, AIdle).

Definition atomic (v : V) : lts (astate V Op Res) (alabel Op Res) := Lts (λ a, a = ainit v) astep.

(** The history is one of the atomic object's. *)
Definition linearizable (v : V) (h : list (event Op Res)) : Prop :=
  ∃ tr a, run (atomic v) tr (ainit v) = Some a ∧ concat (aevent <$> tr) = h.

End atomic.

(** ** Simulations that match the events *)

Section matching.
  Context {S L SA LA E : Type} (M : lts S L) (A : lts SA LA).
  Context (observed : L → list E) (aobserved : LA → list E) (R : S → SA → Prop).

(** From [a] the specification reaches a state related to [s'] with the events [evs]. *)
Definition matching (s' : S) (a : SA) (evs : list E) : Prop :=
  ∃ tr a', run A tr a = Some a' ∧ concat (aobserved <$> tr) = evs ∧ R s' a'.

Lemma matching_local s' a : R s' a → matching s' a [].
Proof. intros Hr. exists [], a. auto. Qed.

Lemma matching_step s' a l a' :
  lts_step A l a = Some a' → R s' a' → matching s' a (aobserved l).
Proof.
  intros Ha Hr. exists [l], a'. rewrite run_one. simpl. by rewrite app_nil_r.
Qed.

Context (Hstep : ∀ l s s' a, R s a → lts_step M l s = Some s' → matching s' a (observed l)).

Lemma matching_run tr s s' a :
  R s a → run M tr s = Some s' → matching s' a (concat (observed <$> tr)).
Proof.
  revert s a. induction tr as [|l tr IH]; intros s a Hr Hrun; simpl in Hrun.
  - simplify_eq. by apply matching_local.
  - destruct (lts_step M l s) as [s1|] eqn:E1; simpl in Hrun; [|done].
    destruct (Hstep _ _ _ _ Hr E1) as (tr1 & a1 & Hr1 & He1 & HR1).
    destruct (IH s1 a1 HR1 Hrun) as (tr2 & a2 & Hr2 & He2 & HR2).
    exists (tr1 ++ tr2), a2. split; [by rewrite run_app, Hr1|].
    split; [by rewrite fmap_app, concat_app, He1, He2|done].
Qed.
End matching.

Section linearizing.
  Context {V Op Res S L : Type} `{!EqDecision Res} `{Object V Op Res}.
  Context (M : lts S L) (observed : L → list (event Op Res)) (v0 : V).
  Context (R : S → astate V Op Res → Prop).

Definition matched : S → astate V Op Res → list (event Op Res) → Prop :=
  matching (atomic v0) aevent R.

Lemma matched_local s' a : R s' a → matched s' a [].
Proof. apply matching_local. Qed.

Lemma matched_call s' a t op :
  ast a t = AIdle → R s' (at_status a t (APending op)) → matched s' a [EvCall t op].
Proof.
  intros Ha. apply (matching_step (atomic v0) aevent R s' a (ACall t op)). simpl. by rewrite Ha.
Qed.

Lemma matched_take s' a t op r v :
  ast a t = APending op → obj_apply op r (aval a) = Some v →
  R s' (MkAState v (ast a)⟦t ↦ ADone r⟧) → matched s' a [].
Proof.
  intros Ha Hv. apply (matching_step (atomic v0) aevent R s' a (ATake t r)). simpl. by rewrite Ha, Hv.
Qed.

Lemma matched_return s' a t r :
  ast a t = ADone r → R s' (at_status a t AIdle) → matched s' a [EvReturn t r].
Proof.
  intros Ha. apply (matching_step (atomic v0) aevent R s' a (AReturn t r)). simpl.
  by rewrite Ha, decide_True.
Qed.

Lemma matched_linearizable tr s s' :
  (∀ l s s' a, R s a → lts_step M l s = Some s' → matched s' a (observed l)) →
  R s (ainit v0) → run M tr s = Some s' →
  linearizable v0 (concat (observed <$> tr)) ∧ ∃ a, R s' a.
Proof.
  intros Hstep Hr Hrun.
  destruct (matching_run M (atomic v0) observed aevent R Hstep _ _ _ _ Hr Hrun) as (tr' & a & H1 & H2 & H3).
  split; [by exists tr', a|by exists a].
Qed.
End linearizing.

(** ** The FIFO queue *)

Abbreviation T := nat.

Inductive qop := OPush (v : T) | OPop.
Inductive qres := RPushed | RPopped (o : option T).

#[export] Instance qres_eq : EqDecision qres.
Proof. solve_decision. Defined.

#[export] Instance fifo_queue : Object (list T) qop qres := {
  obj_apply op r q :=
    match op with
    | OPush v => if decide (r = RPushed) then Some (q ++ [v]) else None
    | OPop => if decide (r = RPopped (head q)) then Some (tail q) else None
    end
}.

Lemma fifo_push v q : obj_apply (OPush v) RPushed q = Some (q ++ [v]).
Proof. unfold obj_apply, fifo_queue. by rewrite decide_True. Qed.

Lemma fifo_pop q : obj_apply OPop (RPopped (head q)) q = Some (tail q).
Proof. unfold obj_apply, fifo_queue. by rewrite decide_True. Qed.
