(* ===== verification/Late.v ===== *)
(** * Operations that take effect in hindsight

    An operation that only reads may have taken effect at a point which is known only
    later: a [TryPop] that has found no node after the first one returns nothing only if
    it then finds [head] unchanged.  In the late object a pending operation may note
    that it could take effect now with a result and without changing the value, and
    later take effect with a result it has noted.  Its histories are those of the
    atomic object: the proof goes backwards, from the end of the execution. *)

From stdpp Require Import prelude list.
From S2P Require Import Prelude.
From S2P Require Import Atomic.

Inductive late_label (Op Res : Type) :=
| LAct (l : alabel Op Res)
| LSee (t : tid) (r : Res)      (** it could take effect now *)
| LLate (t : tid) (r : Res).    (** it did take effect then *)
Arguments LAct {Op Res} _.
Arguments LSee {Op Res} _ _.
Arguments LLate {Op Res} _ _.

Record lstate (V Op Res : Type) := MkLState {
  l_at : astate V Op Res;
  l_seen : tid → list Res
}.
Arguments MkLState {V Op Res} _ _.
Arguments l_at {V Op Res} _.
Arguments l_seen {V Op Res} _ _.

Definition levent {Op Res} (l : late_label Op Res) : list (event Op Res) :=
  match l with LAct l => aevent l | LSee _ _ | LLate _ _ => [] end.

Section late.
  Context {V Op Res : Type} `{!EqDecision Res, !EqDecision V} `{Object V Op Res}.
  Implicit Types (a : astate V Op Res) (b : lstate V Op Res).

(** What a thread has noted is forgotten at its next call. *)
Definition see_nothing (l : alabel Op Res) (seen : tid → list Res) : tid → list Res :=
  match l with ACall t _ => seen⟦t ↦ []⟧ | _ => seen end.

Definition lstep (l : late_label Op Res) b : option (lstate V Op Res) :=
  match l with
  | LAct l => a' ← astep l (l_at b); Some (MkLState a' (see_nothing l (l_seen b)))
  | LSee t r =>
      match ast (l_at b) t with
      | APending op =>
          if decide (obj_apply op r (aval (l_at b)) = Some (aval (l_at b)))
          then Some (MkLState (l_at b) (l_seen b)⟦t ↦ r :: l_seen b t⟧) else None
      | _ => None
      end
  | LLate t r =>
      match ast (l_at b) t with
      | APending op =>
          if decide (r ∈ l_seen b t) then Some (MkLState (at_status (l_at b) t (ADone r)) (l_seen b))
          else None
      | _ => None
      end
  end.

Definition linit (v : V) : lstate V Op Res := MkLState (ainit v) (λ _, []).

Definition late (v : V) : lts (lstate V Op Res) (late_label Op Res) := Lts (λ b, b = linit v) lstep.

(** ** The atomic states a late state may stand for *)

Definition same_state a a' : Prop := aval a = aval a' ∧ ∀ t, ast a t = ast a' t.

#[local] Instance same_state_equiv : Equivalence same_state.
Proof.
  split.
  - by intros a.
  - intros a a' [? ?]. split; [done|]. intros t. done.
  - intros a a' a'' [? ?] [? ?]. split; [congruence|]. intros t. congruence.
Qed.

Lemma astep_same l a1 a2 a1' :
  same_state a1 a2 → astep l a1 = Some a1' → ∃ a2', astep l a2 = Some a2' ∧ same_state a1' a2'.
Proof.
  intros [Hv Hs] Hstep. destruct l as [t op|t r|t r]; simpl in *; rewrite <-(Hs t), <-?Hv.
  - destruct (ast a1 t); simplify_eq. eexists. split; [done|]. split; [done|].
    intros u. simpl. by upd_cases.
  - destruct (ast a1 t); [done| |done]. destruct (obj_apply op r (aval a1)); simplify_eq/=.
    eexists. split; [done|]. split; [done|]. intros u. simpl. by upd_cases.
  - destruct (ast a1 t); [done|done|]. case_decide; simplify_eq. eexists. split; [done|].
    split; [done|]. intros u. simpl. by upd_cases.
Qed.

(** A thread has the status it has, or has already taken effect with a noted result. *)
Definition may_be (seen : list Res) (x y : astatus Op Res) : Prop :=
  y = x ∨ ∃ op r, x = APending op ∧ r ∈ seen ∧ y = ADone r.

Definition stands_for b a : Prop :=
  aval a = aval (l_at b) ∧ ∀ t, may_be (l_seen b t) (ast (l_at b) t) (ast a t).

Lemma stands_for_refl b : stands_for b (l_at b).
Proof. split; [done|]. intros t. by left. Qed.

Lemma may_be_fixed seen x y : (∀ op, x ≠ APending op) → may_be seen x y → y = x.
Proof. intros Hx [?|(op & r & -> & _)]; [done|]. by destruct (Hx op). Qed.

(** The atomic step at the end of a late one, found from the state it leads to: an
    ordinary step of [t] that changes its status from [x] to [y], which is settled. *)
Lemma undo_step b b' a' t x y l :
  stands_for b' a' → ast (l_at b) t = x → ast (l_at b') t = y →
  (∀ u, u ≠ t → ast (l_at b') u = ast (l_at b) u ∧ l_seen b' u = l_seen b u) →
  (∀ z, may_be (l_seen b' t) y z → z = y) →
  (∀ a, aval a = aval (l_at b) → ast a t = x → ∃ a'', astep l a = Some a'' ∧
    aval a'' = aval (l_at b') ∧ ast a'' t = y ∧ ∀ u, u ≠ t → ast a'' u = ast a u) →
  ∃ a a'', stands_for b a ∧ astep l a = Some a'' ∧ same_state a'' a'.
Proof.
  intros [Hv Hs] Hx Hy Hu Hz Hl.
  set (a := MkAState (aval (l_at b)) (ast a')⟦t ↦ x⟧).
  destruct (Hl a) as (a'' & Ha & Hv' & Ht & Hother); [done|simpl; by rewrite upd_eq|].
  exists a, a''. split; [|split; [done|]].
  - split; [done|]. intros u. simpl. unfold upd. case_decide as E; [subst u; by left|].
    destruct (Hu u) as [<- <-]; [done|apply Hs].
  - split; [congruence|]. intros u. destruct (decide (u = t)) as [->|Hne].
    + rewrite Ht. symmetry. apply Hz. rewrite <-Hy. apply Hs.
    + rewrite Hother by done. simpl. by rewrite upd_ne.
Qed.

(** A late step can be undone: the state it leads to, settled, is the end of an atomic
    execution with the same events from a state the earlier one stands for. *)
Definition undone b a' (es : list (event Op Res)) : Prop :=
  ∃ a tr a'', stands_for b a ∧ (∀ v, run (atomic v) tr a = Some a'') ∧ same_state a'' a' ∧
    concat (aevent <$> tr) = es.

Lemma undone_one b a' la :
  (∃ a a'', stands_for b a ∧ astep la a = Some a'' ∧ same_state a'' a') → undone b a' (aevent la).
Proof.
  intros (a & a'' & H1 & H2 & H3). exists a, [la], a''. simpl. by rewrite app_nil_r, H2.
Qed.

Lemma undone_none b a' : stands_for b a' → undone b a' [].
Proof. intros Hb. by exists a', [], a'. Qed.

Lemma undo_act b b' l a' :
  lstep (LAct l) b = Some b' → stands_for b' a' → undone b a' (aevent l).
Proof.
  intros Hstep Ha. apply undone_one. destruct l as [t op|t r|t r]; simpl in Hstep.
  - destruct (ast (l_at b) t) eqn:E; simplify_eq/=.
    apply (undo_step b _ a' t AIdle (APending op) (ACall t op) Ha); simpl; try done; rewrite ?upd_eq; try done.
    + intros u Hu. by rewrite !upd_ne.
    + intros z [->|(? & ? & _ & Hin & _)]; [done|]. by apply elem_of_nil in Hin.
    + intros a Hav Hat. rewrite Hat. eexists. split; [done|]. simpl. rewrite upd_eq.
      repeat split; try done. intros u Hu. by rewrite upd_ne.
  - destruct (ast (l_at b) t) as [|op|] eqn:E; try done.
    destruct (obj_apply op r (aval (l_at b))) as [v|] eqn:Ev; simplify_eq/=.
    apply (undo_step b _ a' t (APending op) (ADone r) (ATake t r) Ha); simpl; try done; rewrite ?upd_eq; try done.
    + intros u Hu. by rewrite !upd_ne.
    + intros z. by apply may_be_fixed.
    + intros a Hav Hat. rewrite Hat, Hav, Ev. eexists. split; [done|]. simpl. rewrite upd_eq.
      repeat split; try done. intros u Hu. by rewrite upd_ne.
  - destruct (ast (l_at b) t) as [| |r'] eqn:E; try done. case_decide; simplify_eq/=.
    apply (undo_step b _ a' t (ADone r') AIdle (AReturn t r') Ha); simpl; try done; rewrite ?upd_eq; try done.
    + intros u Hu. by rewrite !upd_ne.
    + intros z. by apply may_be_fixed.
    + intros a Hav Hat. rewrite Hat, decide_True by done. eexists. split; [done|]. simpl.
      rewrite upd_eq. repeat split; try done. intros u Hu. by rewrite upd_ne.
Qed.

(** What is seen is forgotten, unless it is what the thread will have done. *)
Lemma undo_see b b' t r a' : lstep (LSee t r) b = Some b' → stands_for b' a' → undone b a' [].
Proof.
  intros Hstep Ha. simpl in Hstep.
  destruct (ast (l_at b) t) as [|op|] eqn:E; try done. case_decide as Hr; simplify_eq.
  pose proof Ha as [Hv Hs]. pose proof (Hs t) as Hst. simpl in Hst, Hv. rewrite E, upd_eq in Hst.
  assert (may_be (l_seen b t) (APending op) (ast a' t) → stands_for b a') as Hb.
  { intros Hst'. split; [done|]. intros u. specialize (Hs u). simpl in Hs.
    destruct (decide (t = u)) as [<-|Hu]; [by rewrite E|by rewrite upd_ne in Hs]. }
  destruct Hst as [Ep|(op' & r' & Eop & Hin & Hy)]; [by apply undone_none, Hb; left|].
  apply elem_of_cons in Hin as [->|Hin]; [|apply undone_none, Hb; right; by exists op', r'].
  apply (undone_one _ _ (ATake t r)).
  set (a := MkAState (aval (l_at b)) (ast a')⟦t ↦ APending op⟧).
  exists a, (MkAState (aval (l_at b)) (ast a)⟦t ↦ ADone r⟧). split; [|split].
  - split; [done|]. intros u. specialize (Hs u). simpl in *.
    destruct (decide (t = u)) as [<-|Hu]; [rewrite upd_eq, E; by left|].
    rewrite upd_ne by done. by rewrite upd_ne in Hs by done.
  - simpl. rewrite upd_eq, Hr. done.
  - split; [done|]. intros u. simpl. by upd_cases.
Qed.

Lemma undo b b' l a' : lstep l b = Some b' → stands_for b' a' → undone b a' (levent l).
Proof.
  destruct l as [l|t r|t r]; [apply undo_act|apply undo_see|]. intros Hstep Ha. simpl in Hstep.
  destruct (ast (l_at b) t) as [|op|] eqn:E; try done. case_decide as Hr; simplify_eq.
  apply undone_none. destruct Ha as [Hv Hs]. split; [done|]. intros u. specialize (Hs u).
  simpl in Hs. destruct (decide (t = u)) as [<-|Hu]; [|by rewrite upd_ne in Hs].
  rewrite upd_eq in Hs. apply may_be_fixed in Hs; [|done]. rewrite E, Hs. right. by exists op, r.
Qed.

(** Every history of the late object is one of the atomic object. *)
Lemma late_linearizable v tr b :
  run (late v) tr (linit v) = Some b → linearizable v (concat (levent <$> tr)).
Proof.
  intros Hrun.
  assert (∀ a, stands_for b a → ∃ tr' a', run (atomic v) tr' (ainit v) = Some a' ∧
    concat (aevent <$> tr') = concat (levent <$> tr) ∧ same_state a' a) as Hall; [|].
  { revert b Hrun. induction tr as [|l tr IH] using rev_ind; intros b Hrun a Ha.
    - simpl in Hrun. simplify_eq. exists [], (ainit v). split; [done|]. split; [done|].
      destruct Ha as [Hv Hs]. split; [done|]. intros t. symmetry.
      apply (may_be_fixed [] AIdle); [done|apply Hs].
    - rewrite run_app in Hrun. destruct (run (late v) tr (linit v)) as [b1|] eqn:E1; [|done].
      simpl in Hrun. destruct (lstep l b1) as [b2|] eqn:E2; simplify_eq/=.
      destruct (undo b1 b l a E2 Ha) as (a1 & tr1 & a2 & H1 & H2 & H3 & H4).
      destruct (IH b1 eq_refl a1 H1) as (tr0 & a0 & H5 & H6 & H7).
      assert (∀ tr x y x', same_state x y → run (atomic v) tr x = Some x' →
        ∃ y', run (atomic v) tr y = Some y' ∧ same_state x' y') as Hsame.
      { clear. induction tr as [|l tr IH]; intros x y x' Hxy Hr; simpl in *; [simplify_eq; eauto|].
        destruct (astep l x) as [x1|] eqn:E; [|done]. simpl in Hr.
        destruct (astep_same l x y x1 Hxy E) as (y1 & -> & Hy1). simpl. by apply (IH x1). }
      destruct (Hsame tr1 a1 a0 a2) as (a3 & H8 & H9); [by symmetry|apply H2|].
      exists (tr0 ++ tr1), a3. split; [by rewrite run_app, H5|].
      rewrite !fmap_app, !concat_app, H6, H4. simpl. rewrite app_nil_r. split; [done|].
      etrans; [by symmetry|done]. }
  destruct (Hall _ (stands_for_refl b)) as (tr' & a & H1 & H2 & _). by exists tr', a.
Qed.
End late.
