(* ===== verification/LinCheck.v ===== *)
(** * Refuting linearizability by computation

    The states an atomic object can be in after a history, computed by taking, between
    two events, every choice of pending operations that take effect.  When there is
    none, the history is not one of the object's. *)

From stdpp Require Import prelude list.
From S2P Require Import Prelude.
From S2P Require Import Atomic.

(** The results an operation can have, and that these are all. *)
Class Results (V Op Res : Type) `{Object V Op Res} := {
  results : Op → V → list Res;
  results_complete op r v v' : obj_apply op r v = Some v' → r ∈ results op v
}.

Section check.
  Context {V Op Res : Type} `{!EqDecision Res} `{HO : !Object V Op Res} `{!Results V Op Res}.
  Context (ts : list tid).
  Implicit Types a : astate V Op Res.

(** One of the threads takes effect. *)
Definition takes a : list (astate V Op Res) :=
  t ← ts;
  match ast a t with
  | APending op => omap (λ r, astep (ATake t r) a) (results op (aval a))
  | _ => []
  end.

Fixpoint closure (n : nat) (cs : list (astate V Op Res)) : list (astate V Op Res) :=
  match n with 0 => cs | S n' => cs ++ closure n' (cs ≫= takes) end.

Definition label_of (e : event Op Res) : alabel Op Res :=
  match e with EvCall t op => ACall t op | EvReturn t r => AReturn t r end.

(** The threads take effect at most once each between two events. *)
Fixpoint explore (h : list (event Op Res)) (cs : list (astate V Op Res)) : list (astate V Op Res) :=
  match h with
  | [] => closure (length ts) cs
  | e :: h' => explore h' (omap (astep (label_of e)) (closure (length ts) cs))
  end.

Definition event_thread (e : event Op Res) : tid :=
  match e with EvCall t _ | EvReturn t _ => t end.

(** ** Soundness *)

Definition is_pending a (t : tid) : bool := match ast a t with APending _ => true | _ => false end.

Definition pending a : nat := length (filter (λ t, is_pending a t = true) ts).

Lemma pending_le a : pending a ≤ length ts.
Proof. apply length_filter. Qed.

Lemma closure_incl n cs a : a ∈ cs → a ∈ closure n cs.
Proof. destruct n; simpl; [done|]. rewrite elem_of_app. by left. Qed.

Lemma closure_mono n cs cs' : cs ⊆ cs' → closure n cs ⊆ closure n cs'.
Proof.
  revert cs cs'. induction n as [|n IH]; intros cs cs' Hs; simpl; [done|].
  assert (cs ≫= takes ⊆ cs' ≫= takes) as Hb.
  { intros x. rewrite !list_elem_of_bind. intros (y & ? & ?). exists y. auto. }
  intros x. rewrite !elem_of_app. intros [?|?]; [left; auto|right]. by apply (IH _ _ Hb).
Qed.

Lemma omap_mono {A B} (f : A → option B) (l l' : list A) : l ⊆ l' → omap f l ⊆ omap f l'.
Proof. intros Hs x. rewrite !list_elem_of_omap. intros (y & ? & ?). eauto. Qed.

Lemma explore_mono h cs cs' : cs ⊆ cs' → explore h cs ⊆ explore h cs'.
Proof.
  revert cs cs'. induction h as [|e h IH]; intros cs cs' Hs; simpl; [by apply closure_mono|].
  apply IH, omap_mono, closure_mono, Hs.
Qed.

(** A thread that takes effect is no longer pending. *)
Lemma pending_take l a t r op v :
  NoDup l → t ∈ l → ast a t = APending op →
  length (filter (λ u, is_pending (MkAState v (ast a)⟦t ↦ ADone r⟧) u = true) l) <
  length (filter (λ u, is_pending a u = true) l).
Proof.
  intros Hnd Ht E. set (a' := MkAState v _).
  assert (∀ u, is_pending a' u = true → is_pending a u = true ∧ u ≠ t) as Hp.
  { intros u. unfold is_pending, a', upd. simpl. by case_decide. }
  induction l as [|x l IH]; [by apply elem_of_nil in Ht|].
  apply NoDup_cons in Hnd as [Hx Hnd]. rewrite !filter_cons.
  assert (length (filter (λ u, is_pending a' u = true) l) ≤
    length (filter (λ u, is_pending a u = true) l)) as Hle.
  { clear IH Ht Hx Hnd. induction l as [|y l IH]; [done|]. rewrite !filter_cons.
    repeat case_decide; simpl; try lia. naive_solver. }
  destruct (decide (x = t)) as [->|Hne].
  - rewrite (decide_False (P := is_pending a' t = true)) by naive_solver.
    rewrite decide_True by (unfold is_pending; by rewrite E). simpl. lia.
  - assert (t ∈ l) as Hin by (apply elem_of_cons in Ht; naive_solver). specialize (IH Hnd Hin).
    repeat case_decide; simpl; try lia. naive_solver.
Qed.

(** What is left to explore when at most [j] more operations can take effect before the
    next event. *)
Definition explore_from (j : nat) (h : list (event Op Res)) (cs : list (astate V Op Res)) :
    list (astate V Op Res) :=
  match h with
  | [] => closure j cs
  | e :: h' => explore h' (omap (astep (label_of e)) (closure j cs))
  end.

Lemma explore_from_take j h cs : explore_from j h (cs ≫= takes) ⊆ explore_from (S j) h cs.
Proof.
  assert (closure j (cs ≫= takes) ⊆ closure (S j) cs) as Hc.
  { intros x Hx. simpl. apply elem_of_app. by right. }
  destruct h as [|e h]; [done|]. by apply explore_mono, omap_mono.
Qed.

Lemma explore_from_full h cs : explore_from (length ts) h cs = explore h cs.
Proof. by destruct h. Qed.

Lemma explore_complete v tr : NoDup ts → ∀ a a' j cs,
  run (atomic v) tr a = Some a' → pending a ≤ j → a ∈ cs →
  (∀ t, t ∉ ts → ast a t = AIdle) →
  (∀ e, e ∈ concat (aevent <$> tr) → event_thread e ∈ ts) →
  a' ∈ explore_from j (concat (aevent <$> tr)) cs.
Proof.
  intros Hnd. induction tr as [|l tr IH]; intros a a' j cs Hr Hj Hin Hid Hts; simpl in Hr.
  - simplify_eq. simpl. by apply closure_incl.
  - destruct (astep l a) as [a1|] eqn:E; [|done]. simpl in Hr.
    assert (∀ e, aevent l = [e] → a1 ∈ omap (astep (label_of e)) (closure j cs)) as Hev.
    { intros e He. apply list_elem_of_omap. exists a. split; [by apply closure_incl|].
      by destruct l; simplify_eq/=. }
    destruct l as [t op|t r|t r]; simpl in *.
    + rewrite <-explore_from_full.
      apply (IH a1); [done|apply pending_le|by apply (Hev (EvCall t op))| |].
      * intros w Hw. destruct (ast a t); simplify_eq/=. rewrite upd_ne; [by apply Hid|].
        intros ->. apply Hw, (Hts (EvCall w op)). by left.
      * intros e He. apply Hts. by right.
    + destruct (ast a t) as [|op|] eqn:Et; [done| |done].
      destruct (obj_apply op r (aval a)) as [v'|] eqn:Ev; [|done]. simpl in E. simplify_eq.
      assert (t ∈ ts) as Ht by (destruct (decide (t ∈ ts)); [done|]; by rewrite Hid in Et).
      pose proof (pending_take ts a t r op v' Hnd Ht Et) as Hlt. unfold pending in Hj.
      destruct j as [|j]; [lia|]. apply explore_from_take.
      apply (IH (MkAState v' (ast a)⟦t ↦ ADone r⟧)); [done|unfold pending; lia| | |done].
      * apply list_elem_of_bind. exists a. split; [|done]. apply list_elem_of_bind.
        exists t. split; [|done]. rewrite Et. apply list_elem_of_omap. exists r.
        split; [by eapply results_complete|]. simpl. by rewrite Et, Ev.
      * intros w Hw. simpl. rewrite upd_ne; [by apply Hid|]. by intros ->.
    + rewrite <-explore_from_full.
      apply (IH a1); [done|apply pending_le|by apply (Hev (EvReturn t r))| |].
      * intros w Hw. destruct (ast a t); try done. case_decide; simplify_eq/=.
        unfold upd. case_decide; [done|by apply Hid].
      * intros e He. apply Hts. by right.
Qed.

(** No state explains the history. *)
Lemma not_linearizable v h :
  bool_decide (NoDup ts ∧ Forall (λ e, event_thread e ∈ ts) h) = true →
  explore h [ainit v] = [] → ¬ linearizable v h.
Proof.
  intros [Hnd Hts]%bool_decide_eq_true He (tr & a & Hr & <-). rewrite Forall_forall in Hts.
  assert (a ∈ explore_from (length ts) (concat (aevent <$> tr)) [ainit v]) as Ha.
  { apply (explore_complete v tr Hnd (ainit v)); try done; [apply pending_le|by left]. }
  rewrite explore_from_full, He in Ha. by apply elem_of_nil in Ha.
Qed.
End check.

#[export, refine] Instance fifo_results : Results (list T) qop qres := {
  results op q := match op with OPush _ => [RPushed] | OPop => [RPopped (head q)] end;
  results_complete := _
}.
Proof.
  intros [v|] r q q'; unfold obj_apply, fifo_queue; case_decide as E; intros; simplify_eq; by left.
Defined.
