(* ===== verification/CondVar.v ===== *)
(** * Condition variables

    What the monitors of the program (the blocking queue, the tasks) use of
    [std::condition_variable]: the threads waiting on it, in no particular order, and
    a notification that wakes one of them, whichever the implementation picks, or all. *)

From stdpp Require Import prelude list.
From S2P Require Import Prelude.

Abbreviation condvar := (list tid).

(** [notify_one] when the implementation picks [w]: nobody only if nobody waits. *)
Definition notify_one (w : option tid) (cv : condvar) : option condvar :=
  match w with
  | Some x => if decide (x ∈ cv) then Some (filter (λ y, y ≠ x) cv) else None
  | None => match cv with [] => Some [] | _ => None end
  end.

(** A thread that waits no longer. *)
Definition wake (t : tid) (cv : condvar) : condvar := filter (λ y, y ≠ t) cv.

Lemma elem_of_wake x t cv : x ∈ wake t cv ↔ x ∈ cv ∧ x ≠ t.
Proof. unfold wake. rewrite list_elem_of_filter. tauto. Qed.

Lemma notify_one_some w cv cv' :
  notify_one (Some w) cv = Some cv' → w ∈ cv ∧ cv' = wake w cv.
Proof. simpl. case_decide; intros; simplify_eq. done. Qed.

Lemma notify_one_none cv cv' : notify_one None cv = Some cv' → cv = [] ∧ cv' = [].
Proof. destruct cv; simpl; intros; simplify_eq. done. Qed.

(** A notification can always be delivered. *)
Lemma notify_one_can cv : ∃ w, is_Some (notify_one w cv).
Proof.
  destruct cv as [|x cv]; [by exists None|]. exists (Some x). simpl.
  rewrite decide_True by (by left). eauto.
Qed.

(** ** Waiters by their position

    The threads on the condition variable are those at the position [waiting]. *)

Section sleeping.
  Context {P : Type} (sleeps : P → bool).

Definition sleeping (cv : condvar) (pcs : tid → P) : Prop := ∀ t, t ∈ cv ↔ sleeps (pcs t) = true.

Lemma sleeping_kept cv pcs t p :
  sleeping cv pcs → sleeps p = sleeps (pcs t) → sleeping cv pcs⟦t ↦ p⟧.
Proof. intros Hs Hp u. unfold upd. case_decide as E; [by rewrite Hp, <-E|done]. Qed.

Lemma sleeping_wait cv pcs t p :
  sleeping cv pcs → sleeps p = true → sleeping (t :: cv) pcs⟦t ↦ p⟧.
Proof.
  intros Hs Hp u. rewrite elem_of_cons. unfold upd. case_decide as E; [naive_solver|].
  rewrite (Hs u). naive_solver.
Qed.

Lemma sleeping_wake cv pcs t p :
  sleeping cv pcs → sleeps p = false → sleeping (wake t cv) pcs⟦t ↦ p⟧.
Proof.
  intros Hs Hp u. rewrite elem_of_wake. unfold upd. case_decide as E.
  - subst. rewrite Hp. naive_solver.
  - rewrite (Hs u). naive_solver.
Qed.
End sleeping.
