(* ===== verification/BlockingQueue.v ===== *)
(** * components/queue/blocking_queue: the unbounded blocking queue

    [UnboundedBlockingQueue] step by step: every access to [close_], acquisition and
    release of [m_], access to [data_] under it, wait and notification is a step. *)

From stdpp Require Import prelude list.
From S2P Require Import Prelude.
From S2P Require Import Lock.
From S2P Require Import CondVar.
From S2P Require Import Atomic.

Inductive bq_op := OpPut (v : T) | OpTake | OpClose.
Inductive bq_res := RPut (b : bool) | RTake (o : option T) | RClosed.

#[export] Instance bq_res_eq : EqDecision bq_res.
Proof. solve_decision. Defined.

(** ** The specification: a queue that can be closed *)

(** [Take] finds nothing only when the queue is empty and closed; [Put] is refused
    only when it is closed. *)
#[export] Instance closable_queue : Object (list T * bool) bq_op bq_res := {
  obj_apply op r q :=
    match op, r with
    | OpPut v, RPut true => Some (q.1 ++ [v], q.2)
    | OpPut v, RPut false => if q.2 then Some q else None
    | OpTake, RTake (Some v) =>
        match q.1 with x :: items => if decide (x = v) then Some (items, q.2) else None | [] => None end
    | OpTake, RTake None => match q.1 with [] => if q.2 then Some q else None | _ => None end
    | OpClose, RClosed => Some (q.1, true)
    | _, _ => None
    end
}.

(** ** The queue *)

Inductive bq_pc :=
| Idle
| PutTest (v : T)              (** [Put]: [close_.load()] *)
| PutLock (v : T)              (** [Put]: [lock_guard g(m_)] *)
| PutPush (v : T)              (** [Put]: [data_.push] *)
| PutNotify                    (** [Put]: [notify_one] *)
| PutUnlock                    (** [Put]: the destructor of [g] *)
| TakeLock                     (** [Take]: [unique_lock lock(m_)] *)
| TakeTest                     (** [Take]: the loop's condition *)
| TakeWait                     (** [Take]: blocked in [wait] *)
| TakeWoken                    (** [Take]: [wait] locks [m_] again *)
| TakeFront                    (** [Take]: after the loop *)
| TakeUnlock (r : option T)    (** [Take]: [lock.unlock()] *)
| TakeNotify (r : option T)    (** [Take]: [notify_one] *)
| CloseLock                    (** [Close]: [unique_lock lock(m_)] *)
| CloseStore                   (** [Close]: [close_.store(true)] *)
| CloseNotify                  (** [Close]: [notify_all] *)
| CloseUnlock                  (** [Close]: the destructor of [lock] *)
| Returning (r : bq_res)
| Broken.                      (** undefined behaviour *)

Record UnboundedBlockingQueue := MkQueue {
  data_ : list T;
  m_ : option tid;
  empty_data_ : condvar;
  close_ : bool;
  pcs : tid → bq_pc
}.

Inductive bq_label :=
| Call (t : tid) (op : bq_op)
| Step (t : tid) (w : option tid)    (** the waiter a [notify_one] wakes *)
| Spurious (t : tid)                 (** a spurious wakeup *)
| Return (t : tid) (r : bq_res).

Section steps.
  Implicit Types s : UnboundedBlockingQueue.

Definition at_pc s (t : tid) (p : bq_pc) : UnboundedBlockingQueue :=
  MkQueue (data_ s) (m_ s) (empty_data_ s) (close_ s) (pcs s)⟦t ↦ p⟧.

Definition set_data s (d : list T) : UnboundedBlockingQueue :=
  MkQueue d (m_ s) (empty_data_ s) (close_ s) (pcs s).

Definition lock s (t : tid) (p : bq_pc) : option UnboundedBlockingQueue :=
  o ← acquire t (m_ s);
  Some (at_pc (MkQueue (data_ s) o (empty_data_ s) (close_ s) (pcs s)) t p).

Definition unlock s (t : tid) (p : bq_pc) : UnboundedBlockingQueue :=
  match release t (m_ s) with
  | Some o => at_pc (MkQueue (data_ s) o (empty_data_ s) (close_ s) (pcs s)) t p
  | None => at_pc s t Broken
  end.

(** A waiter that is woken has to take the mutex again. *)
Definition woken s (t : tid) : UnboundedBlockingQueue :=
  at_pc (MkQueue (data_ s) (m_ s) (wake t (empty_data_ s)) (close_ s) (pcs s)) t TakeWoken.

(** [empty_data_.notify_one()], waking [w]. *)
Definition NotifyOne s (w : option tid) : option UnboundedBlockingQueue :=
  _ ← notify_one w (empty_data_ s);
  Some (match w with Some x => woken s x | None => s end).

(** [empty_data_.notify_all()] *)
Definition NotifyAll s : UnboundedBlockingQueue := foldr (flip woken) s (empty_data_ s).

Definition Put_step s (t : tid) (w : option tid) : option UnboundedBlockingQueue :=
  match pcs s t with
  | PutTest v => Some (at_pc s t (if close_ s then Returning (RPut false) else PutLock v))
  | PutLock v => lock s t (PutPush v)
  | PutPush v => Some (at_pc (set_data s (data_ s ++ [v])) t PutNotify)
  | PutNotify => s' ← NotifyOne s w; Some (at_pc s' t PutUnlock)
  | PutUnlock => Some (unlock s t (Returning (RPut true)))
  | _ => None
  end.

(** [wait] unlocks [m_] and blocks at once. *)
Definition Take_step s (t : tid) (w : option tid) : option UnboundedBlockingQueue :=
  match pcs s t with
  | TakeLock => lock s t TakeTest
  | TakeTest =>
      Some (if bool_decide (data_ s = []) && negb (close_ s)
            then let s' := unlock s t TakeWait in
                 MkQueue (data_ s') (m_ s') (t :: empty_data_ s') (close_ s') (pcs s')
            else at_pc s t TakeFront)
  | TakeWoken => lock s t TakeTest
  | TakeFront =>
      Some (match data_ s with
            | v :: d => at_pc (set_data s d) t (TakeUnlock (Some v))
            | [] => at_pc s t (TakeUnlock None)
            end)
  | TakeUnlock r => Some (unlock s t (TakeNotify r))
  | TakeNotify r => s' ← NotifyOne s w; Some (at_pc s' t (Returning (RTake r)))
  | _ => None
  end.

Definition Close_step s (t : tid) : option UnboundedBlockingQueue :=
  match pcs s t with
  | CloseLock => lock s t CloseStore
  | CloseStore =>
      Some (at_pc (MkQueue (data_ s) (m_ s) (empty_data_ s) true (pcs s)) t CloseNotify)
  | CloseNotify => Some (at_pc (NotifyAll s) t CloseUnlock)
  | CloseUnlock => Some (unlock s t (Returning RClosed))
  | _ => None
  end.

Definition bq_enter (op : bq_op) : bq_pc :=
  match op with OpPut v => PutTest v | OpTake => TakeLock | OpClose => CloseLock end.

Definition bq_step (l : bq_label) s : option UnboundedBlockingQueue :=
  match l with
  | Call t op => match pcs s t with Idle => Some (at_pc s t (bq_enter op)) | _ => None end
  | Step t w =>
      match Put_step s t w with
      | Some s' => Some s'
      | None => match Take_step s t w with Some s' => Some s' | None => Close_step s t end
      end
  | Spurious t => match pcs s t with TakeWait => Some (woken s t) | _ => None end
  | Return t r =>
      match pcs s t with
      | Returning r' => if decide (r = r') then Some (at_pc s t Idle) else None
      | _ => None
      end
  end.
End steps.

Definition new_queue : UnboundedBlockingQueue := MkQueue [] None [] false (λ _, Idle).

Definition blocking_queue : lts UnboundedBlockingQueue bq_label :=
  Lts (λ s, s = new_queue) bq_step.

Definition bq_event (l : bq_label) : list (event bq_op bq_res) :=
  match l with
  | Call t op => [EvCall t op]
  | Return t r => [EvReturn t r]
  | Step _ _ | Spurious _ => []
  end.

(** ** The simulation relation *)

Definition holds_m (p : bq_pc) : bool :=
  match p with
  | PutPush _ | PutNotify | PutUnlock | TakeTest | TakeFront | TakeUnlock _
  | CloseStore | CloseNotify | CloseUnlock => true
  | _ => false
  end.

Definition waits (p : bq_pc) : bool := match p with TakeWait => true | _ => false end.

(** The thread will test the queue or wake a waiter. *)
Definition alert (p : bq_pc) : bool :=
  match p with
  | PutNotify | TakeTest | TakeWoken | TakeFront | TakeUnlock _ | TakeNotify _ => true
  | _ => false
  end.

(** Whether the call has taken effect, by where it is. *)
Definition status (p : bq_pc) : astatus bq_op bq_res :=
  match p with
  | Idle | Broken => AIdle
  | PutTest v | PutLock v | PutPush v => APending (OpPut v)
  | PutNotify | PutUnlock => ADone (RPut true)
  | TakeLock | TakeTest | TakeWait | TakeWoken | TakeFront => APending OpTake
  | TakeUnlock r | TakeNotify r => ADone (RTake r)
  | CloseLock | CloseStore => APending OpClose
  | CloseNotify | CloseUnlock => ADone RClosed
  | Returning r => ADone r
  end.

Abbreviation bq_spec := (astate (list T * bool) bq_op bq_res).

Record bq_inv (s : UnboundedBlockingQueue) : Prop := BqInv {
  bi_held : held holds_m (m_ s) (pcs s);
  bi_sleep : sleeping waits (empty_data_ s) (pcs s);
  bi_front : ∀ t, pcs s t = TakeFront → data_ s ≠ [] ∨ close_ s = true;
  bi_data : data_ s ≠ [] → empty_data_ s ≠ [] → ∃ t, alert (pcs s t) = true;
  bi_closed : close_ s = true → empty_data_ s ≠ [] → ∃ t, pcs s t = CloseNotify;
  bi_broken : ∀ t, pcs s t ≠ Broken
}.

Record bq_rel (s : UnboundedBlockingQueue) (a : bq_spec) : Prop := BqRel {
  br_inv : bq_inv s;
  br_value : aval a = (data_ s, close_ s);
  br_status : ∀ t, ast a t = status (pcs s t)
}.

Section simulation.
  Implicit Types (s : UnboundedBlockingQueue) (a : bq_spec).

Lemma bq_release s t : bq_inv s → holds_m (pcs s t) = true → release t (m_ s) = Some None.
Proof. intros Hi. by apply (held_release holds_m _ (pcs s)), Hi. Qed.

(** A thread that stays alert, has nobody to wake, or leaves it to another. *)
Definition stays_alert s (t : tid) (p : bq_pc) : Prop :=
  (alert (pcs s t) = true → alert p = true ∨ data_ s = [] ∨ empty_data_ s = [] ∨
    ∃ u, u ≠ t ∧ alert (pcs s u) = true) ∧
  (pcs s t = CloseNotify → p = CloseNotify ∨ empty_data_ s = []).

(** A step that changes no shared field but, maybe, the owner of the mutex. *)
Lemma bq_local s s' t p :
  bq_inv s → data_ s' = data_ s → close_ s' = close_ s → empty_data_ s' = empty_data_ s →
  pcs s' = (pcs s)⟦t ↦ p⟧ → held holds_m (m_ s') (pcs s)⟦t ↦ p⟧ →
  waits p = waits (pcs s t) → stays_alert s t p → p ≠ Broken →
  (p = TakeFront → data_ s ≠ [] ∨ close_ s = true) → bq_inv s'.
Proof.
  intros [H1 H2 H3 H4 H5 H6] Ed Ec Ee Ep Hh Hw [Ha1 Ha2] Hb Hf.
  split; rewrite ?Ed, ?Ec, ?Ee, ?Ep; [done|by apply sleeping_kept|..].
  - intros u. upd_cases; [apply Hf|apply H3].
  - intros Hd He. destruct (H4 Hd He) as [u Hu]. destruct (decide (t = u)) as [<-|Hne].
    + destruct (Ha1 Hu) as [?|[?|[?|(u & ? & ?)]]]; try done; [exists t; by rewrite upd_eq|].
      exists u. by rewrite upd_ne.
    + exists u. by rewrite upd_ne.
  - intros Hc He. destruct (H5 Hc He) as [u Hu]. destruct (decide (t = u)) as [<-|Hne].
    + destruct (Ha2 Hu) as [->|?]; try done. exists t. by rewrite upd_eq.
    + exists u. by rewrite upd_ne.
  - intros u. specialize (H6 u). by upd_cases.
Qed.

Lemma stays_alert_refl s t p :
  implb (alert (pcs s t)) (alert p) = true → pcs s t ≠ CloseNotify → stays_alert s t p.
Proof. intros Ha Hc. split; [intros E; rewrite E in Ha; by left|done]. Qed.

Lemma bq_lock s t p s' :
  bq_inv s → lock s t p = Some s' → holds_m p = true → waits p = waits (pcs s t) →
  stays_alert s t p → p ≠ TakeFront →
  bq_inv s' ∧ data_ s' = data_ s ∧ close_ s' = close_ s ∧ pcs s' = (pcs s)⟦t ↦ p⟧.
Proof.
  intros Hi Hl Hp Hw Ha Hf. unfold lock in Hl.
  destruct (acquire t (m_ s)) as [o|] eqn:E; simplify_eq/=. split; [|done].
  apply (bq_local s _ t p); simpl; try done; [|by intros ->].
  by eapply held_acquired; [apply Hi| |].
Qed.

Lemma bq_unlock s t p :
  bq_inv s → holds_m (pcs s t) = true → holds_m p = false → waits p = waits (pcs s t) →
  stays_alert s t p → p ≠ Broken →
  bq_inv (unlock s t p) ∧ data_ (unlock s t p) = data_ s ∧ close_ (unlock s t p) = close_ s ∧
  pcs (unlock s t p) = (pcs s)⟦t ↦ p⟧.
Proof.
  intros Hi Ht Hp Hw Ha Hb. unfold unlock.
  rewrite bq_release by done. split; [|done].
  apply (bq_local s _ t p); simpl; try done; [|by intros ->].
  by eapply held_released; [apply Hi|..].
Qed.

(** Waking a waiter, or one that has just been woken. *)
Lemma bq_woken s t :
  bq_inv s → pcs s t = TakeWait ∨ pcs s t = TakeWoken → bq_inv (woken s t).
Proof.
  intros [H1 H2 H3 H4 H5 H6] Ht. split; simpl.
  - apply held_kept; [done|]. by destruct Ht as [-> | ->].
  - by apply sleeping_wake.
  - intros u. upd_cases. apply H3.
  - intros _ _. exists t. by rewrite upd_eq.
  - intros Hc He. destruct H5 as [u Hu]; [done|..].
    { intros Hn. apply He. by rewrite Hn. }
    exists u. rewrite upd_ne; [done|]. intros ->. destruct Ht; congruence.
  - intros u. specialize (H6 u). by upd_cases.
Qed.

Lemma bq_notify_one s w s' t :
  bq_inv s → NotifyOne s w = Some s' → waits (pcs s t) = false →
  bq_inv s' ∧ data_ s' = data_ s ∧ close_ s' = close_ s ∧ pcs s' t = pcs s t ∧
  (∀ u, status (pcs s' u) = status (pcs s u)) ∧
  (empty_data_ s' ≠ [] → ∃ u, u ≠ t ∧ alert (pcs s' u) = true).
Proof.
  intros Hi Hn Hw. unfold NotifyOne in Hn. destruct (notify_one w (empty_data_ s)) as [cv|] eqn:E; [|done].
  simpl in Hn. destruct w as [w|]; simplify_eq.
  - apply notify_one_some in E as [Hin ->]. apply (bi_sleep _ Hi) in Hin.
    assert (pcs s w = TakeWait) as Ew by (by destruct (pcs s w)).
    assert (w ≠ t) as Hne by congruence.
    split; [apply bq_woken; auto|]. simpl. rewrite upd_ne by done. do 3 (split; [done|]). split.
    + intros u. upd_cases. by rewrite Ew.
    + intros _. exists w. by rewrite upd_eq.
  - apply notify_one_none in E as [E _]. by rewrite E.
Qed.

Lemma bq_notify_all s l :
  bq_inv s → (∀ x, x ∈ l → pcs s x = TakeWait) →
  let s' := foldr (flip woken) s l in
  bq_inv s' ∧ data_ s' = data_ s ∧ close_ s' = close_ s ∧
  (∀ u, u ∈ empty_data_ s' ↔ u ∈ empty_data_ s ∧ u ∉ l) ∧
  (∀ u, u ∉ l → pcs s' u = pcs s u) ∧ (∀ u, u ∈ l → pcs s' u = TakeWoken).
Proof.
  intros Hi. induction l as [|x l IH]; intros Hl; simpl.
  - do 3 (split; [done|]). split; [|split; [done|by intros u Hu%elem_of_nil]].
    intros u. split; [split; [done|apply not_elem_of_nil]|tauto].
  - destruct IH as (H1 & H2 & H3 & H4 & H5 & H6); [intros y Hy; apply Hl; by right|].
    set (s1 := foldr (flip woken) s l) in *.
    assert (pcs s1 x = TakeWait ∨ pcs s1 x = TakeWoken) as Hx.
    { destruct (decide (x ∈ l)); [right; auto|left]. rewrite H5 by done. apply Hl. by left. }
    split; [by apply bq_woken|]. do 2 (split; [done|]). simpl. split; [|split].
    + intros u. rewrite elem_of_wake, H4, elem_of_cons. tauto.
    + intros u Hu. rewrite elem_of_cons in Hu. rewrite upd_ne by naive_solver. naive_solver.
    + intros u. rewrite elem_of_cons. upd_cases; naive_solver.
Qed.

(** ** Each step is matched *)

Definition bq_matched : UnboundedBlockingQueue → bq_spec → list (event bq_op bq_res) → Prop :=
  matched ([], false) bq_rel.

Lemma bq_stays s s' a :
  bq_rel s a → bq_inv s' → data_ s' = data_ s → close_ s' = close_ s →
  (∀ u, status (pcs s' u) = status (pcs s u)) → bq_matched s' a [].
Proof.
  intros [Hi Hv Hs] Hi' Hd Hc Hst. apply matched_local. split; [done|by rewrite Hd, Hc|].
  intros u. by rewrite Hst.
Qed.

Lemma bq_takes s s' a t op r p :
  bq_rel s a → bq_inv s' → status (pcs s t) = APending op → status p = ADone r →
  pcs s' = (pcs s)⟦t ↦ p⟧ →
  obj_apply op r (data_ s, close_ s) = Some (data_ s', close_ s') → bq_matched s' a [].
Proof.
  intros [Hi Hv Hs] Hi' Hp Hd Ep Ho. apply (matched_take _ _ _ _ t op r (data_ s', close_ s')).
  - by rewrite Hs.
  - by rewrite Hv.
  - split; [done|done|]. intros u. rewrite Ep. simpl. by upd_cases.
Qed.

(** The status of the others does not change. *)
Lemma status_upd s t p : status p = status (pcs s t) → ∀ u, status ((pcs s)⟦t ↦ p⟧ u) = status (pcs s u).
Proof. intros E u. by upd_cases. Qed.

Lemma bq_local_stays s a t p :
  bq_rel s a → status p = status (pcs s t) → holds_m p = holds_m (pcs s t) →
  waits p = waits (pcs s t) → implb (alert (pcs s t)) (alert p) = true → pcs s t ≠ CloseNotify → p ≠ Broken →
  (p = TakeFront → data_ s ≠ [] ∨ close_ s = true) → bq_matched (at_pc s t p) a [].
Proof.
  intros Hr Hs Hh Hw Ha Hc Hb Hf. apply (bq_stays s); try done; [|by apply status_upd].
  apply (bq_local s _ t p); try done; [apply Hr| |by apply stays_alert_refl].
  apply held_kept; [apply Hr|done].
Qed.

Lemma bq_lock_stays s a t p s' :
  bq_rel s a → lock s t p = Some s' → status p = status (pcs s t) → holds_m p = true →
  waits p = waits (pcs s t) → implb (alert (pcs s t)) (alert p) = true →
  pcs s t ≠ CloseNotify → p ≠ TakeFront → bq_matched s' a [].
Proof.
  intros Hr Hl Hs Hh Hw Ha Hc Hf.
  destruct (bq_lock s t p s') as (H1 & H2 & H3 & H4); try done; [apply Hr|by apply stays_alert_refl|].
  apply (bq_stays s); try done. rewrite H4. by apply status_upd.
Qed.

Lemma bq_unlock_stays s a t p :
  bq_rel s a → status p = status (pcs s t) → holds_m (pcs s t) = true → holds_m p = false →
  waits p = waits (pcs s t) → implb (alert (pcs s t)) (alert p) = true → pcs s t ≠ CloseNotify → p ≠ Broken →
  bq_matched (unlock s t p) a [].
Proof.
  intros Hr Hs Hh Hp Hw Ha Hc Hb.
  destruct (bq_unlock s t p) as (H1 & H2 & H3 & H4); try done; [apply Hr|by apply stays_alert_refl|].
  apply (bq_stays s); try done. rewrite H4. by apply status_upd.
Qed.

(** [notify_one], and on to [p]. *)
Lemma bq_notify_stays s a t w p s' :
  bq_rel s a → NotifyOne s w = Some s' → status p = status (pcs s t) →
  holds_m p = holds_m (pcs s t) → waits p = false → waits (pcs s t) = false →
  pcs s t ≠ CloseNotify → p ≠ Broken → p ≠ TakeFront → bq_matched (at_pc s' t p) a [].
Proof.
  intros Hr Hn Hs Hh Hw Hw' Hc Hb Hf.
  destruct (bq_notify_one s w s' t) as (H1 & H2 & H3 & H4 & H5 & H6); [apply Hr|done..|].
  apply (bq_stays s); try done.
  - apply (bq_local s' _ t p); rewrite ?H4; try done.
    + apply held_kept; [apply H1|by rewrite H4].
    + by rewrite Hw, Hw'.
    + split; rewrite H4; [|done]. intros _. destruct (empty_data_ s') eqn:Ee; [auto|].
      right; right; right. by apply H6.
  - intros u. rewrite <-H5. simpl. by upd_cases.
Qed.

(** Changing the data under the mutex. *)
Lemma bq_data s t d p :
  bq_inv s → holds_m (pcs s t) = true → holds_m p = true → pcs s t ≠ CloseNotify →
  alert p = true → p ≠ TakeFront → p ≠ TakeWait → bq_inv (at_pc (set_data s d) t p).
Proof.
  intros [H1 H2 H3 H4 H5 H6] Ht Hp Hc Ha Hf Hw. split; simpl.
  - apply held_kept; [done|by rewrite Ht].
  - apply sleeping_kept; [done|]. destruct p; try done; by destruct (pcs s t).
  - intros u. upd_cases. intros Hu.
    assert (t = u) by (apply (held_alone holds_m (m_ s) (pcs s)); [done..|by rewrite Hu]). congruence.
  - intros _ _. exists t. by rewrite upd_eq.
  - intros Hcl He. destruct (H5 Hcl He) as [u Hu]. exists u. rewrite upd_ne; congruence.
  - intros u. specialize (H6 u). upd_cases. by intros ->.
Qed.

Lemma Put_sim s a t w s' :
  bq_rel s a → Put_step s t w = Some s' → bq_matched s' a [].
Proof.
  intros Hr Hstep. pose proof (br_inv _ _ Hr) as Hi. unfold Put_step in Hstep.
  destruct (pcs s t) as [|v|v|v| | | | | | | | | | | | | | | ] eqn:E; try done.
  - simplify_eq. destruct (close_ s) eqn:Ec; [|apply bq_local_stays; by rewrite ?E].
    apply (bq_takes s _ a t (OpPut v) (RPut false) (Returning (RPut false))); rewrite ?E; try done.
    + apply (bq_local s _ t (Returning (RPut false))); rewrite ?E; try done.
      * apply held_kept; [apply Hi|by rewrite E].
      * apply stays_alert_refl; by rewrite E.
    + simpl. by rewrite Ec.
  - eapply bq_lock_stays; rewrite ?E; done.
  - simplify_eq. apply (bq_takes s _ a t (OpPut v) (RPut true) PutNotify); rewrite ?E; try done.
    apply bq_data; by rewrite ?E.
  - destruct (NotifyOne s w) as [s1|] eqn:En; simplify_eq/=.
    eapply bq_notify_stays; rewrite ?E; done.
  - simplify_eq. apply bq_unlock_stays; rewrite ?E; done.
Qed.

(** [wait]: the thread unlocks and sleeps while the queue is empty and open. *)
Lemma bq_sleep s t :
  bq_inv s → pcs s t = TakeTest → data_ s = [] → close_ s = false →
  let s' := unlock s t TakeWait in
  bq_inv (MkQueue (data_ s') (m_ s') (t :: empty_data_ s') (close_ s') (pcs s')).
Proof.
  intros [H1 H2 H3 H4 H5 H6] E Ed Ec. unfold unlock.
  rewrite (held_release holds_m _ (pcs s)) by (done || by rewrite E). split; simpl.
  - eapply held_released; [done|by rewrite E|done].
  - by apply sleeping_wait.
  - intros u. upd_cases. apply H3.
  - by rewrite Ed.
  - by rewrite Ec.
  - intros u. specialize (H6 u). by upd_cases.
Qed.

Lemma Take_sim s a t w s' :
  bq_rel s a → Take_step s t w = Some s' → bq_matched s' a [].
Proof.
  intros Hr Hstep. pose proof (br_inv _ _ Hr) as Hi. unfold Take_step in Hstep.
  destruct (pcs s t) as [| | | | | | | | | | |r|r| | | | | | ] eqn:E; try done.
  - eapply bq_lock_stays; rewrite ?E; done.
  - destruct (bool_decide (data_ s = []) && negb (close_ s)) eqn:Et; simplify_eq.
    + apply andb_true_iff in Et as [Ed%bool_decide_eq_true Ec%negb_true_iff].
      pose proof (bq_sleep s t Hi E Ed Ec) as Hi'. cbv zeta in Hi'. revert Hi'. unfold unlock.
      rewrite bq_release by (done || by rewrite E). intros Hi'.
      apply (bq_stays s); try done. simpl. apply status_upd. by rewrite E.
    + apply bq_local_stays; rewrite ?E; try done. intros _.
      apply andb_false_iff in Et as [Ed%bool_decide_eq_false|Ec%negb_false_iff]; auto.
  - eapply bq_lock_stays; rewrite ?E; done.
  - destruct (data_ s) as [|v d] eqn:Ed; simplify_eq.
    + destruct (bi_front _ Hi t E) as [?|Ec]; [done|].
      apply (bq_takes s _ a t OpTake (RTake None) (TakeUnlock None)); rewrite ?E; try done.
      * apply (bq_local s _ t (TakeUnlock None)); rewrite ?E; try done.
        -- apply held_kept; [apply Hi|by rewrite E].
        -- apply stays_alert_refl; by rewrite E.
      * simpl. by rewrite Ed, Ec.
    + apply (bq_takes s _ a t OpTake (RTake (Some v)) (TakeUnlock (Some v))); rewrite ?E; try done.
      * apply bq_data; by rewrite ?E.
      * simpl. rewrite Ed. by rewrite decide_True.
  - simplify_eq. apply bq_unlock_stays; rewrite ?E; done.
  - destruct (NotifyOne s w) as [s1|] eqn:En; simplify_eq/=.
    eapply bq_notify_stays; rewrite ?E; done.
Qed.

(** [close_.store(true)] *)
Lemma bq_close s t :
  bq_inv s → pcs s t = CloseStore →
  bq_inv (at_pc (MkQueue (data_ s) (m_ s) (empty_data_ s) true (pcs s)) t CloseNotify).
Proof.
  intros [H1 H2 H3 H4 H5 H6] E. split; simpl.
  - apply held_kept; [done|by rewrite E].
  - apply sleeping_kept; [done|by rewrite E].
  - intros u _. by right.
  - intros Hd He. destruct (H4 Hd He) as [u Hu]. exists u. rewrite upd_ne; [done|].
    intros <-. by rewrite E in Hu.
  - intros _ _. exists t. by rewrite upd_eq.
  - intros u. specialize (H6 u). by upd_cases.
Qed.

Lemma Close_sim s a t s' :
  bq_rel s a → Close_step s t = Some s' → bq_matched s' a [].
Proof.
  intros Hr Hstep. pose proof (br_inv _ _ Hr) as Hi. unfold Close_step in Hstep.
  destruct (pcs s t) as [| | | | | | | | | | | | | | | | | | ] eqn:E; try done.
  - eapply bq_lock_stays; rewrite ?E; done.
  - simplify_eq. apply (bq_takes s _ a t OpClose RClosed CloseNotify); rewrite ?E; try done.
    by apply bq_close.
  - simplify_eq. assert (∀ x, x ∈ empty_data_ s → pcs s x = TakeWait) as Hw.
    { intros x Hx. apply (bi_sleep _ Hi) in Hx. by destruct (pcs s x). }
    destruct (bq_notify_all s (empty_data_ s) Hi Hw) as (H1 & H2 & H3 & H4 & H5 & H6).
    fold (NotifyAll s) in *.
    assert (empty_data_ (NotifyAll s) = []) as He.
    { destruct (empty_data_ (NotifyAll s)) as [|x l] eqn:El; [done|].
      destruct (proj1 (H4 x)) as [? ?]; [by left|done]. }
    assert (t ∉ empty_data_ s) as Ht by (intros Ht; apply Hw in Ht; congruence).
    apply (bq_stays s); try done.
    + apply (bq_local (NotifyAll s) _ t CloseUnlock); rewrite ?H5, ?E; try done.
      * apply held_kept; [apply H1|by rewrite H5, E].
      * split; rewrite H5, E; auto.
    + intros u. simpl. upd_cases; [by rewrite E|].
      destruct (decide (u ∈ empty_data_ s)) as [Hu|Hu]; [|by rewrite H5].
      by rewrite H6, (Hw u).
  - simplify_eq. apply bq_unlock_stays; rewrite ?E; done.
Qed.

Lemma bq_sim l s s' a :
  bq_rel s a → bq_step l s = Some s' → bq_matched s' a (bq_event l).
Proof.
  intros Hr Hstep. pose proof (br_inv _ _ Hr) as Hi.
  destruct l as [t op|t w|t|t r]; simpl in Hstep.
  - destruct (pcs s t) eqn:E; simplify_eq. apply matched_call; [by rewrite (br_status _ _ Hr), E|].
    split; [|apply Hr|].
    + apply (bq_local s _ t (bq_enter op)); rewrite ?E; try done; try by destruct op.
      * apply held_kept; [apply Hi|rewrite E; by destruct op].
      * apply stays_alert_refl; by rewrite E.
    + intros u. simpl. pose proof (br_status _ _ Hr u). upd_cases. by destruct op.
  - destruct (Put_step s t w) eqn:Ep; simplify_eq; [by eapply Put_sim|].
    destruct (Take_step s t w) eqn:Et; simplify_eq; [by eapply Take_sim|by eapply Close_sim].
  - destruct (pcs s t) eqn:E; simplify_eq. apply (bq_stays s); try done; [apply bq_woken; auto|].
    simpl. apply status_upd. by rewrite E.
  - destruct (pcs s t) eqn:E; try done. case_decide; simplify_eq.
    apply matched_return; [by rewrite (br_status _ _ Hr), E|]. split; [|apply Hr|].
    + apply (bq_local s _ t Idle); rewrite ?E; try done.
      * apply held_kept; [apply Hi|by rewrite E].
      * apply stays_alert_refl; by rewrite E.
    + intros u. simpl. pose proof (br_status _ _ Hr u). by upd_cases.
Qed.
End simulation.

(** ** Theorems *)

Lemma new_queue_rel : bq_rel new_queue (ainit ([], false)).
Proof.
  split; [split|..]; simpl; try done. intros t. split; [|done]. by intros ?%elem_of_nil.
Qed.

Lemma bq_runs tr s :
  run blocking_queue tr new_queue = Some s →
  linearizable ([], false) (concat (bq_event <$> tr)) ∧ ∃ a, bq_rel s a.
Proof.
  apply (matched_linearizable blocking_queue bq_event ([], false) bq_rel); [|apply new_queue_rel].
  intros l s0 s1 a. by apply bq_sim.
Qed.

(** C4: any number of threads calling [Put], [Take] and [Close], in any interleaving and
    with spurious wakeups: the calls, the returns and their results are those of an
    atomic queue that can be closed, where [Take] finds nothing only when the queue is
    empty and closed, and [Put] is refused only when it is closed; and no thread
    unlocks a mutex it does not own. *)
Theorem blocking_queue_linearizable tr s :
  run blocking_queue tr new_queue = Some s →
  linearizable ([], false) (concat (bq_event <$> tr)) ∧ ∀ t, pcs s t ≠ Broken.
Proof.
  intros Hr. destruct (bq_runs tr s Hr) as (Hl & a & Ha). split; [done|].
  apply (bi_broken _ (br_inv _ _ Ha)).
Qed.

(** Thread 1 waits in [Take]; thread 0 puts 7, and wakes it. *)
Definition take_waits : list bq_label := [Call 1 OpTake; Step 1 None; Step 1 None].

Definition put_wakes : list bq_label :=
  Call 0 (OpPut 7) :: repeat (Step 0 None) 3 ++ [Step 0 (Some 1); Step 0 None; Return 0 (RPut true)].

Definition take_done : list bq_label := repeat (Step 1 None) 5 ++ [Return 1 (RTake (Some 7))].

Lemma blocking_queue_linearizable_witness :
  linearizable ([], false)
    [EvCall 1 OpTake; EvCall 0 (OpPut 7); EvReturn 0 (RPut true); EvReturn 1 (RTake (Some 7))].
Proof.
  apply (blocking_queue_linearizable (take_waits ++ put_wakes ++ take_done)
    (default new_queue (run blocking_queue (take_waits ++ put_wakes ++ take_done) new_queue))).
  vm_compute. reflexivity.
Defined.

(** No thread can take a step of its own: it would have to be called, or to be woken
    for no reason. *)
Definition bq_quiescent (s : UnboundedBlockingQueue) : Prop :=
  ∀ t w, bq_step (Step t w) s = None.

Lemma bq_holder_moves s t :
  bq_inv s → holds_m (pcs s t) = true → ¬ bq_quiescent s.
Proof.
  intros Hi Ht Hq. destruct (notify_one_can (empty_data_ s)) as [w [cv Hw]].
  specialize (Hq t w). simpl in Hq. unfold Put_step, Take_step, Close_step, NotifyOne in Hq.
  rewrite Hw in Hq. by destruct (pcs s t).
Qed.

(** C15: no wakeup is lost: when no thread can take a step of its own, a thread that is
    inside an operation is a [Take] waiting on an empty queue that is not closed. *)
Theorem blocking_queue_no_lost_wakeup s t :
  reachable blocking_queue s → bq_quiescent s →
  pcs s t = Idle ∨ (∃ r, pcs s t = Returning r) ∨
  (pcs s t = TakeWait ∧ data_ s = [] ∧ close_ s = false).
Proof.
  intros (s0 & tr & -> & Hr) Hq. destruct (bq_runs tr s Hr) as (_ & a & Ha).
  pose proof (br_inv _ _ Ha) as Hi. clear a Ha Hr.
  assert (∀ u, holds_m (pcs s u) = false) as Hn.
  { intros u. destruct (holds_m (pcs s u)) eqn:E; [|done]. by destruct (bq_holder_moves s u). }
  assert (∀ u, acquire u (m_ s) = Some (Some u)) as Hf.
  { intros u. by apply (held_free holds_m _ (pcs s)); [apply Hi|]. }
  assert (∀ u, (∃ r, pcs s u = Returning r) ∨ pcs s u = Idle ∨ pcs s u = TakeWait) as Hu.
  { intros u. destruct (notify_one_can (empty_data_ s)) as [w [cv Hw]].
    specialize (Hq u w). specialize (Hn u). pose proof (bi_broken _ Hi u). simpl in Hq.
    unfold Put_step, Take_step, Close_step, NotifyOne, lock in Hq. rewrite Hw, Hf in Hq.
    destruct (pcs s u); simpl in *; eauto; done. }
  destruct (Hu t) as [?|[?|Et]]; [auto..|]. right; right. split; [done|].
  assert (empty_data_ s ≠ []) as He.
  { apply (list_elem_not_nil t). apply (bi_sleep _ Hi). by rewrite Et. }
  split.
  - destruct (data_ s) eqn:Ed; [done|]. destruct (bi_data _ Hi) as [u Ha]; [by rewrite Ed|done|].
    by destruct (Hu u) as [[r E]|[E|E]]; rewrite E in Ha.
  - destruct (close_ s) eqn:Ec; [|done]. destruct (bi_closed _ Hi Ec He) as [u Ha].
    by destruct (Hu u) as [[r E]|[E|E]]; rewrite E in Ha.
Qed.

Lemma blocking_queue_no_lost_wakeup_witness :
  let s := default new_queue (run blocking_queue take_waits new_queue) in
  pcs s 1 = TakeWait ∧ data_ s = [] ∧ close_ s = false.
Proof.
  intros s. destruct (blocking_queue_no_lost_wakeup s 1) as [E|[[r E]|E]]; try done.
  - apply (run_reachable blocking_queue); [done|]. vm_compute. eauto.
  - intros [|[|t]] w; vm_compute; reflexivity.
Defined.

(** [Put] tests [close_] before it takes the mutex: a [Put] that another thread's
    [Close] overtakes there succeeds after it, when every consumer has been told that
    the queue is closed and empty. *)
Lemma put_after_close :
  let tr := [Call 0 (OpPut 7); Step 0 None] ++
    Call 1 OpClose :: repeat (Step 1 None) 4 ++ [Return 1 RClosed] ++
    Call 1 OpTake :: repeat (Step 1 None) 5 ++ [Return 1 (RTake None)] ++
    repeat (Step 0 None) 4 ++ [Return 0 (RPut true)] in
  ∃ s, run blocking_queue tr new_queue = Some s ∧ close_ s = true ∧ data_ s = [7].
Proof. eexists. split; [vm_compute; reflexivity|]. split; reflexivity. Qed.
