(* ===== verification/Task.v ===== *)
(** * executor/task/task: the deprecated task, a monitor with a status

    [Task] step by step: every acquisition and release of [task_mutex_], access under
    it, wait and notification is a step.  A task is finished once, by [Cancel],
    [MarkCompleted] or [MarFailed], which assert that it is not finished yet. *)

From stdpp Require Import prelude list.
From S2P Require Import Prelude.
From S2P Require Import Lock.
From S2P Require Import CondVar.
From S2P Require Import Atomic.

Inductive Status := NotStarted | Completed | Cancelled | Failed.

#[export] Instance status_eq : EqDecision Status.
Proof. solve_decision. Defined.

Abbreviation exception := nat.

Inductive task_op :=
| Cancel | Wait | MarkCompleted | MarFailed (p : exception)
| IsCompleted | IsCanceled | IsFinished | IsFailed | GetError.

Inductive task_res := RUnit | RBool (b : bool) | RError (e : ptr exception).

#[export] Instance task_res_eq : EqDecision task_res.
Proof. solve_decision. Defined.

(** ** What an operation does under the mutex *)

(** The status, and the exception of a failed task. *)
Abbreviation task_data := (Status * ptr exception)%type.

(** [Finish]: the assertion, the new status, then a notification; [Block]: wait and
    test again; [Answer]: return a result. *)
Inductive outcome := Finish (d : task_data) | Block | Answer (r : task_res).

Definition status_is (st : Status) (d : task_data) : bool := bool_decide (d.1 = st).

Definition task_body (op : task_op) (d : task_data) : outcome :=
  match op with
  | Cancel => Finish (Cancelled, d.2)
  | MarkCompleted => Finish (Completed, d.2)
  | MarFailed p => Finish (Failed, Some p)
  | Wait => if status_is NotStarted d then Block else Answer RUnit
  | IsCompleted => Answer (RBool (status_is Completed d))
  | IsCanceled => Answer (RBool (status_is Cancelled d))
  | IsFinished => Answer (RBool (negb (status_is NotStarted d)))
  | IsFailed => Answer (RBool (status_is Failed d))
  | GetError => Answer (RError d.2)
  end.

(** The specification: the operations as atomic actions on the data. *)
#[export] Instance task_object : Object task_data task_op task_res := {
  obj_apply op r d :=
    match task_body op d with
    | Finish d' => if status_is NotStarted d && bool_decide (r = RUnit) then Some d' else None
    | Block => None
    | Answer r' => if decide (r = r') then Some d else None
    end
}.

(** ** The monitor *)

Inductive task_pc :=
| Idle
| Lock (op : task_op)         (** the guard's constructor *)
| Body (op : task_op)         (** under the mutex *)
| Notify                      (** [change_task_status_.notify_one()] *)
| Unlock (r : task_res)       (** the guard's destructor *)
| Waiting                     (** blocked in [change_task_status_.wait(lock)] *)
| Woken                       (** [wait] locks the mutex again *)
| Returning (r : task_res)
| Failure (op : task_op)      (** the assertion failed *)
| Broken.                     (** undefined behaviour *)

Record Task := MkTask {
  data : task_data;             (** [status_] and [ex_error_] *)
  task_mutex_ : option tid;
  change_task_status_ : condvar;
  pcs : tid → task_pc
}.

Inductive task_label :=
| Call (t : tid) (op : task_op)
| Step (t : tid) (w : option tid)    (** the waiter a [notify_one] wakes *)
| Spurious (t : tid)
| Return (t : tid) (r : task_res).

Section steps.
  Implicit Types s : Task.

Definition at_pc s (t : tid) (p : task_pc) : Task :=
  MkTask (data s) (task_mutex_ s) (change_task_status_ s) (pcs s)⟦t ↦ p⟧.

Definition set_mutex s (o : option tid) : Task := MkTask (data s) o (change_task_status_ s) (pcs s).

Definition set_data s (d : task_data) : Task := MkTask d (task_mutex_ s) (change_task_status_ s) (pcs s).

Definition set_waiting s (cv : condvar) : Task := MkTask (data s) (task_mutex_ s) cv (pcs s).

Definition woken s (t : tid) : Task := at_pc (set_waiting s (wake t (change_task_status_ s))) t Woken.

Definition task_step (t : tid) (w : option tid) s : option Task :=
  match pcs s t with
  | Lock op => o ← acquire t (task_mutex_ s); Some (at_pc (set_mutex s o) t (Body op))
  | Woken => o ← acquire t (task_mutex_ s); Some (at_pc (set_mutex s o) t (Body Wait))
  | Body op =>
      match task_body op (data s) with
      | Finish d =>
          Some (if status_is NotStarted (data s) then at_pc (set_data s d) t Notify
                else at_pc s t (Failure op))
      | Block =>
          Some (match release t (task_mutex_ s) with
                | Some o => at_pc (set_waiting (set_mutex s o) (t :: change_task_status_ s)) t Waiting
                | None => at_pc s t Broken
                end)
      | Answer r => Some (at_pc s t (Unlock r))
      end
  | Notify =>
      _ ← notify_one w (change_task_status_ s);
      Some (at_pc (match w with Some x => woken s x | None => s end) t (Unlock RUnit))
  | Unlock r =>
      Some (match release t (task_mutex_ s) with
            | Some o => at_pc (set_mutex s o) t (Returning r)
            | None => at_pc s t Broken
            end)
  | _ => None
  end.

Definition monitor_step (l : task_label) s : option Task :=
  match l with
  | Call t op => match pcs s t with Idle => Some (at_pc s t (Lock op)) | _ => None end
  | Step t w => task_step t w s
  | Spurious t => match pcs s t with Waiting => Some (woken s t) | _ => None end
  | Return t r =>
      match pcs s t with
      | Returning r' => if decide (r = r') then Some (at_pc s t Idle) else None
      | _ => None
      end
  end.
End steps.

Definition new_task : Task := MkTask (NotStarted, None) None [] (λ _, Idle).

Definition task_monitor : lts Task task_label := Lts (λ s, s = new_task) monitor_step.

Definition task_event (l : task_label) : list (event task_op task_res) :=
  match l with
  | Call t op => [EvCall t op]
  | Return t r => [EvReturn t r]
  | Step _ _ | Spurious _ => []
  end.

(** ** The simulation relation *)

Definition holds_mutex (p : task_pc) : bool :=
  match p with Body _ | Notify | Unlock _ | Failure _ => true | _ => false end.

Definition waits (p : task_pc) : bool := match p with Waiting => true | _ => false end.

Definition status (p : task_pc) : astatus task_op task_res :=
  match p with
  | Idle | Broken => AIdle
  | Lock op | Body op | Failure op => APending op
  | Waiting | Woken => APending Wait
  | Notify => ADone RUnit
  | Unlock r | Returning r => ADone r
  end.

Abbreviation task_spec := (astate task_data task_op task_res).

Record task_inv (s : Task) : Prop := TaskInv {
  ti_held : held holds_mutex (task_mutex_ s) (pcs s);
  ti_sleep : sleeping waits (change_task_status_ s) (pcs s);
  ti_broken : ∀ t, pcs s t ≠ Broken
}.

Record task_rel (s : Task) (a : task_spec) : Prop := TaskRel {
  tr_inv : task_inv s;
  tr_value : aval a = data s;
  tr_status : ∀ t, ast a t = status (pcs s t)
}.

Definition task_matched : Task → task_spec → list (event task_op task_res) → Prop :=
  matched (NotStarted, None) task_rel.

Section simulation.
  Implicit Types (s : Task) (a : task_spec).

Lemma task_move s s' t p :
  task_inv s → pcs s' = (pcs s)⟦t ↦ p⟧ → held holds_mutex (task_mutex_ s') (pcs s)⟦t ↦ p⟧ →
  sleeping waits (change_task_status_ s') (pcs s)⟦t ↦ p⟧ → p ≠ Broken → task_inv s'.
Proof.
  intros [H1 H2 H3] Ep Hh Hs Hb. split; rewrite ?Ep; try done.
  intros u. specialize (H3 u). by upd_cases.
Qed.

Lemma task_woken s t :
  task_inv s → pcs s t = Waiting → task_inv (woken s t).
Proof.
  intros Hi Et. apply (task_move s _ t Woken); try done.
  - apply held_kept; [apply Hi|by rewrite Et].
  - apply sleeping_wake; [apply Hi|done].
Qed.

Lemma task_release s t : task_inv s → holds_mutex (pcs s t) = true → release t (task_mutex_ s) = Some None.
Proof. intros Hi. by apply (held_release holds_mutex _ (pcs s)), Hi. Qed.

Lemma status_kept (f : tid → task_pc) t p : status p = status (f t) → ∀ u, status (f⟦t ↦ p⟧ u) = status (f u).
Proof. intros E u. by upd_cases. Qed.

(** The call does not take effect, or has already. *)
Lemma task_stays s s' a :
  task_rel s a → task_inv s' → data s' = data s → (∀ u, status (pcs s' u) = status (pcs s u)) →
  task_matched s' a [].
Proof.
  intros [Hi Hv Hs] Hi' Hd Hst. apply matched_local. split; [done|by rewrite Hd|].
  intros u. by rewrite Hst.
Qed.

Lemma task_takes s s' a t op r p :
  task_rel s a → task_inv s' → status (pcs s t) = APending op → status p = ADone r →
  pcs s' = (pcs s)⟦t ↦ p⟧ → obj_apply op r (data s) = Some (data s') → task_matched s' a [].
Proof.
  intros [Hi Hv Hs] Hi' Hp Hd Ep Ho. apply (matched_take _ _ _ _ t op r (data s')).
  - by rewrite Hs.
  - by rewrite Hv.
  - split; [done|done|]. intros u. rewrite Ep. simpl. by upd_cases.
Qed.

Lemma task_acquire s a t op :
  task_rel s a → pcs s t = Lock op ∨ (pcs s t = Woken ∧ op = Wait) →
  ∀ o, acquire t (task_mutex_ s) = Some o → task_matched (at_pc (set_mutex s o) t (Body op)) a [].
Proof.
  intros Hr Hp o Ho. apply (task_stays s); [done| |done|].
  - apply (task_move s _ t (Body op)); simpl; try done; [apply Hr| |].
    + by eapply held_acquired; [apply Hr| |].
    + apply sleeping_kept; [apply Hr|]. by destruct Hp as [-> |[-> _]].
  - apply status_kept. by destruct Hp as [-> |[-> ->]].
Qed.

Lemma task_body_sim s a t op w s' :
  task_rel s a → pcs s t = Body op → task_step t w s = Some s' → task_matched s' a [].
Proof.
  intros Hr E Hstep. pose proof (tr_inv _ _ Hr) as Hi. unfold task_step in Hstep. rewrite E in Hstep.
  assert (∀ d p, holds_mutex p = true → waits p = false → p ≠ Broken →
    task_inv (at_pc (set_data s d) t p)) as Hmove.
  { intros d p Hp Hw Hb. apply (task_move s _ t p); simpl; try done.
    - apply held_kept; [apply Hi|by rewrite E].
    - apply sleeping_kept; [apply Hi|by rewrite E]. }
  assert (∀ p, at_pc s t p = at_pc (set_data s (data s)) t p) as Esame by done.
  destruct (task_body op (data s)) as [d| |r] eqn:Eb; simplify_eq.
  - destruct (status_is NotStarted (data s)) eqn:Es.
    + apply (task_takes s _ a t op RUnit Notify); try done; [by apply Hmove|by rewrite E|].
      unfold obj_apply, task_object. by rewrite Eb, Es.
    + apply (task_stays s); try done; [rewrite Esame; by apply Hmove|].
      apply status_kept. by rewrite E.
  - rewrite (task_release s t) by (done || by rewrite E).
    assert (op = Wait) as -> by (destruct op; simpl in Eb; try done; by case_match).
    apply (task_stays s); try done.
    + apply (task_move s _ t Waiting); simpl; try done.
      * eapply held_released; [apply Hi|by rewrite E|done].
      * by apply sleeping_wait; [apply Hi|].
    + apply status_kept. by rewrite E.
  - apply (task_takes s _ a t op r (Unlock r)); try done; [rewrite Esame; by apply Hmove|by rewrite E|].
    unfold obj_apply, task_object. rewrite Eb. by rewrite decide_True.
Qed.

Lemma task_sim l s s' a :
  task_rel s a → monitor_step l s = Some s' → task_matched s' a (task_event l).
Proof.
  intros Hr Hstep. pose proof (tr_inv _ _ Hr) as Hi.
  destruct l as [t op|t w|t|t r]; simpl in Hstep.
  - destruct (pcs s t) eqn:E; simplify_eq. apply matched_call; [by rewrite (tr_status _ _ Hr), E|].
    split; [|apply Hr|].
    + apply (task_move s _ t (Lock op)); simpl; try done.
      * apply held_kept; [apply Hi|by rewrite E].
      * apply sleeping_kept; [apply Hi|by rewrite E].
    + intros u. simpl. pose proof (tr_status _ _ Hr u). by upd_cases.
  - destruct (pcs s t) as [|op|op| |r| | |r|op|] eqn:E; try (by unfold task_step in Hstep; rewrite E in Hstep);
      try (by eapply task_body_sim); unfold task_step in Hstep; rewrite E in Hstep.
    + destruct (acquire t (task_mutex_ s)) as [o|] eqn:Eo; simplify_eq/=. apply task_acquire; auto.
    + destruct (notify_one w (change_task_status_ s)) as [cv|] eqn:En; simplify_eq/=.
      assert (∀ s1, task_inv s1 → data s1 = data s → pcs s1 t = Notify →
        (∀ u, status (pcs s1 u) = status (pcs s u)) → task_matched (at_pc s1 t (Unlock RUnit)) a []) as Hon.
      { intros s1 Hi1 Hd1 E1 Hs1. apply (task_stays s); try done.
        - apply (task_move s1 _ t (Unlock RUnit)); simpl; try done.
          + apply held_kept; [apply Hi1|by rewrite E1].
          + apply sleeping_kept; [apply Hi1|by rewrite E1].
        - intros u. rewrite <-Hs1. simpl. apply status_kept. by rewrite E1. }
      destruct w as [x|]; [|by apply Hon].
      apply notify_one_some in En as [Hin _]. apply (ti_sleep _ Hi) in Hin.
      assert (pcs s x = Waiting) as Ex by (by destruct (pcs s x)).
      apply Hon; [by apply task_woken|done| |].
      * simpl. rewrite upd_ne; [done|]. congruence.
      * intros u. simpl. apply status_kept. by rewrite Ex.
    + rewrite (task_release s t) in Hstep by (done || by rewrite E). simplify_eq.
      apply (task_stays s); try done; [|simpl; apply status_kept; by rewrite E].
      apply (task_move s _ t (Returning r)); simpl; try done.
      * eapply held_released; [apply Hi|by rewrite E|done].
      * apply sleeping_kept; [apply Hi|by rewrite E].
    + destruct (acquire t (task_mutex_ s)) as [o|] eqn:Eo; simplify_eq/=. apply task_acquire; auto.
  - destruct (pcs s t) eqn:E; simplify_eq. apply (task_stays s); try done; [by apply task_woken|].
    simpl. apply status_kept. by rewrite E.
  - destruct (pcs s t) eqn:E; try done. case_decide; simplify_eq.
    apply matched_return; [by rewrite (tr_status _ _ Hr), E|]. split; [|apply Hr|].
    + apply (task_move s _ t Idle); simpl; try done.
      * apply held_kept; [apply Hi|by rewrite E].
      * apply sleeping_kept; [apply Hi|by rewrite E].
    + intros u. simpl. pose proof (tr_status _ _ Hr u). by upd_cases.
Qed.
End simulation.

(** ** Theorems *)

Lemma new_task_rel : task_rel new_task (ainit (NotStarted, None)).
Proof.
  split; [split|..]; try done. intros t. split; [|done]. by intros ?%elem_of_nil.
Qed.

(** The calls, the returns and their results are those of atomic operations on the
    status and the exception: a task is finished at most once, [Wait] returns only
    after that, and the tests and [GetError] answer according to it. *)
Lemma task_linearizable tr s :
  run task_monitor tr new_task = Some s →
  linearizable (NotStarted, None) (concat (task_event <$> tr)) ∧ ∀ t, pcs s t ≠ Broken.
Proof.
  intros Hr. destruct (matched_linearizable task_monitor task_event (NotStarted, None) task_rel)
    with (tr := tr) (s := new_task) (s' := s) as (Hl & a & Ha).
  - intros l s0 s1 a. by apply task_sim.
  - apply new_task_rel.
  - done.
  - split; [done|]. apply (ti_broken _ (tr_inv _ _ Ha)).
Qed.

Definition alone (t : tid) (op : task_op) (n : nat) (r : task_res) : list task_label :=
  Call t op :: repeat (Step t None) n ++ [Return t r].

(** Thread 1 waits, thread 0 fails the task and wakes it. *)
Definition fail_schedule : list task_label :=
  [Call 1 Wait; Step 1 None; Step 1 None; Call 0 (MarFailed 5); Step 0 None; Step 0 None;
   Step 0 (Some 1); Step 0 None; Return 0 RUnit; Step 1 None; Step 1 None; Step 1 None;
   Return 1 RUnit] ++ alone 2 GetError 3 (RError (Some 5)).

Lemma task_linearizable_witness :
  linearizable (NotStarted, None)
    [EvCall 1 Wait; EvCall 0 (MarFailed 5); EvReturn 0 RUnit; EvReturn 1 RUnit;
     EvCall 2 GetError; EvReturn 2 (RError (Some 5))].
Proof.
  apply (task_linearizable fail_schedule (default new_task (run task_monitor fail_schedule new_task))).
  vm_compute. reflexivity.
Defined.

(** A finished task wakes one waiter only: with two, the other waits for ever. *)
Lemma task_lost_waiter :
  let tr := [Call 1 Wait; Step 1 None; Step 1 None; Call 2 Wait; Step 2 None; Step 2 None;
    Call 0 MarkCompleted; Step 0 None; Step 0 None; Step 0 (Some 1); Step 0 None; Return 0 RUnit;
    Step 1 None; Step 1 None; Step 1 None; Return 1 RUnit] in
  ∃ s, run task_monitor tr new_task = Some s ∧ data s = (Completed, None) ∧ pcs s 2 = Waiting ∧
    ∀ t w, task_step t w s = None.
Proof.
  eexists. split; [vm_compute; reflexivity|]. do 2 (split; [reflexivity|]).
  intros [|[|[|t]]] w; reflexivity.
Qed.
