(* ===== verification/MSQueue.v ===== *)
(** * components/lock_free/simple_ms_queue: the Michael-Scott queue

    [SimpleMSQueue] step by step: every access to [head], [tail] or a node is a step.
    Nodes are numbered and never reused.  The hazard pointers are those [TryPop]
    sets; the memory manager is the best one possible, which frees a retired node as
    soon as no hazard points to it, or ([reclaim] being false) frees nothing. *)

From stdpp Require Import prelude list.
From S2P Require Import Prelude.
From S2P Require Import Chain.
From S2P Require Import Atomic.

Abbreviation aqueue := (astate (list T) qop qres).

(** ** The queue *)

Inductive ms_pc :=
| Idle
| PushLoad (n : node)                 (** [old_tail = tail.load()] *)
| PushNext (n t : node)               (** [old_tail->next.load() != nullptr] *)
| PushHelp (n t : node)               (** helping: evaluate [old_tail->next] *)
| PushHelpCas (n t x : node)          (** helping: the compare-exchange on [tail] *)
| PushLink (n t : node)               (** the compare-exchange on [old_tail->next] *)
| PushSwing (n t : node)              (** the last compare-exchange on [tail] *)
| PopLoad                             (** [Acquire]: [head.load()] *)
| PopProtect (h : node)               (** [Acquire]: set the hazard *)
| PopValidate (h : node)              (** [Acquire]: reload [head] *)
| PopNext (h : node)                  (** [old_head->next.load() == nullptr] *)
| PopEmpty                            (** [Release] and return nothing *)
| PopTail (h : node)                  (** [old_tail = tail.load()] *)
| PopHelp (t : node)                  (** helping: evaluate [old_tail->next] *)
| PopHelpCas (t x : node)             (** helping: the compare-exchange on [tail] *)
| PopEval (h : node)                  (** evaluate [old_head->next] *)
| PopCas (h x : node)                 (** the compare-exchange on [head] *)
| PopRead (h : node)                  (** [next = old_head->next] *)
| PopMove (h x : node)                (** [std::move( *next->value)] *)
| PopRelease (h : node) (v : T)       (** [Release] *)
| PopRetire (h : node) (v : T)        (** [Retire(old_head)] *)
| Returning (r : qres)
| Broken.                             (** undefined behaviour *)

Record ms := MkMS {
  head : node;
  tail : node;
  nxt : node → option node;
  value : node → option T;
  fresh : node;
  hazards : tid → option node;
  retired : list node;
  freed : list node;
  pcs : tid → ms_pc
}.

Inductive ms_label :=
| CallPush (t : tid) (v : T)
| CallPop (t : tid)
| Step (t : tid) (spurious : bool)    (** a weak compare-exchange may fail *)
| Return (t : tid) (r : qres)
| Free (n : node).

Definition at_ms (s : ms) (t : tid) (p : ms_pc) : ms :=
  MkMS (head s) (tail s) (nxt s) (value s) (fresh s) (hazards s) (retired s) (freed s) (pcs s)⟦t ↦ p⟧.

Definition set_tail (s : ms) (n : node) : ms :=
  MkMS (head s) n (nxt s) (value s) (fresh s) (hazards s) (retired s) (freed s) (pcs s).

Definition set_head (s : ms) (n : node) : ms :=
  MkMS n (tail s) (nxt s) (value s) (fresh s) (hazards s) (retired s) (freed s) (pcs s).

Definition link (s : ms) (t n : node) : ms :=
  MkMS (head s) (tail s) (nxt s)⟦t ↦ Some n⟧ (value s) (fresh s) (hazards s) (retired s) (freed s) (pcs s).

Definition set_hazard (s : ms) (t : tid) (h : option node) : ms :=
  MkMS (head s) (tail s) (nxt s) (value s) (fresh s) (hazards s)⟦t ↦ h⟧ (retired s) (freed s) (pcs s).

Definition retire (s : ms) (n : node) : ms :=
  MkMS (head s) (tail s) (nxt s) (value s) (fresh s) (hazards s) (retired s ++ [n]) (freed s) (pcs s).

(** [new Node{std::move(item), nullptr}] *)
Definition new_node (s : ms) (v : T) : ms :=
  MkMS (head s) (tail s) (nxt s)⟦fresh s ↦ None⟧ (value s)⟦fresh s ↦ Some v⟧ (S (fresh s))
    (hazards s) (retired s) (freed s) (pcs s).

(** [s'] after an access to node [n]; a null [next] where the code takes it to be a
    node, and an access to a freed node, are undefined. *)
Definition access (s : ms) (t : tid) (n : node) (s' : ms) : ms :=
  if decide (n ∈ freed s) then at_ms s t Broken else s'.

(** [Push] *)
Definition Push_step (s : ms) (t : tid) (spurious : bool) : option ms :=
  match pcs s t with
  | PushLoad n => Some (at_ms s t (PushNext n (tail s)))
  | PushNext n o =>
      Some (access s t o (at_ms s t (match nxt s o with Some _ => PushHelp n o | None => PushLink n o end)))
  | PushHelp n o =>
      Some (access s t o (at_ms s t (match nxt s o with Some x => PushHelpCas n o x | None => Broken end)))
  | PushHelpCas n o x =>
      Some (at_ms (if decide (tail s = o ∧ spurious = false) then set_tail s x else s) t (PushLoad n))
  | PushLink n o =>
      Some (access s t o
        (if decide (nxt s o = None ∧ spurious = false) then at_ms (link s o n) t (PushSwing n o)
         else at_ms s t (PushLoad n)))
  | PushSwing n o =>
      Some (at_ms (if decide (tail s = o) then set_tail s n else s) t (Returning RPushed))
  | _ => None
  end.

(** [TryPop] *)
Definition TryPop_step (s : ms) (t : tid) (spurious : bool) : option ms :=
  match pcs s t with
  | PopLoad => Some (at_ms s t (PopProtect (head s)))
  | PopProtect h => Some (at_ms (set_hazard s t (Some h)) t (PopValidate h))
  | PopValidate h =>
      Some (at_ms s t (if decide (head s = h) then PopNext h else PopProtect (head s)))
  | PopNext h =>
      Some (access s t h (at_ms s t (match nxt s h with Some _ => PopTail h | None => PopEmpty end)))
  | PopEmpty => Some (at_ms (set_hazard s t None) t (Returning (RPopped None)))
  | PopTail h => Some (at_ms s t (if decide (h = tail s) then PopHelp (tail s) else PopEval h))
  | PopHelp o =>
      Some (access s t o (at_ms s t (match nxt s o with Some x => PopHelpCas o x | None => Broken end)))
  | PopHelpCas o x =>
      Some (at_ms (if decide (tail s = o ∧ spurious = false) then set_tail s x else s) t PopLoad)
  | PopEval h =>
      Some (access s t h (at_ms s t (match nxt s h with Some x => PopCas h x | None => Broken end)))
  | PopCas h x =>
      Some (if decide (head s = h ∧ spurious = false) then at_ms (set_head s x) t (PopRead h)
            else at_ms s t PopLoad)
  | PopRead h =>
      match nxt s h with
      | Some x => Some (access s t h (at_ms s t (PopMove h x)))
      | None => Some (at_ms s t Broken)
      end
  | PopMove h x =>
      match value s x with
      | Some v => Some (access s t x (at_ms s t (PopRelease h v)))
      | None => Some (at_ms s t Broken)
      end
  | PopRelease h v => Some (at_ms (set_hazard s t None) t (PopRetire h v))
  | PopRetire h v => Some (at_ms (retire s h) t (Returning (RPopped (Some v))))
  | _ => None
  end.

(** [delete] *)
Definition free_node (s : ms) (n : node) : ms :=
  MkMS (head s) (tail s) (nxt s) (value s) (fresh s) (hazards s) (retired s) (freed s ++ [n]) (pcs s).

(** No thread's hazard among the first [n] threads is the node. *)
Definition unprotected (threads : nat) (s : ms) (n : node) : bool :=
  forallb (λ t, bool_decide (hazards s t ≠ Some n)) (seq 0 threads).

Definition ms_step (threads : nat) (reclaim : bool) (l : ms_label) (s : ms) : option ms :=
  match l with
  | CallPush t v =>
      match pcs s t with Idle => Some (at_ms (new_node s v) t (PushLoad (fresh s))) | _ => None end
  | CallPop t => match pcs s t with Idle => Some (at_ms s t PopLoad) | _ => None end
  | Step t spurious =>
      match Push_step s t spurious with Some s' => Some s' | None => TryPop_step s t spurious end
  | Return t r =>
      match pcs s t with
      | Returning r' => if decide (r = r') then Some (at_ms s t Idle) else None
      | _ => None
      end
  | Free n =>
      if decide (reclaim = true ∧ n ∈ retired s ∧ n ∉ freed s ∧ unprotected threads s n = true)
      then Some (free_node s n) else None
  end.

(** The constructor: one dummy node. *)
Definition new_ms : ms := MkMS 0 0 (λ _, None) (λ _, None) 1 (λ _, None) [] [] (λ _, Idle).

(** [~SimpleMSQueue]: [h] is the value of [head], which goes along the nodes to null, each
    deleted behind it.  The fuel bounds the iterations. *)
Fixpoint destroy (fuel : nat) (h : option node) (s : ms) : res ms :=
  match h, fuel with
  | None, _ => Ret s
  | Some _, 0 => NoFuel
  | Some to_delete, S fuel' =>
      if decide (to_delete ∈ freed s) then Ub
      else destroy fuel' (nxt s to_delete) (free_node s to_delete)
  end.

Definition ms_queue (threads : nat) (reclaim : bool) : lts ms ms_label :=
  Lts (λ s, s = new_ms) (ms_step threads reclaim).

Definition ms_event (l : ms_label) : list (event qop qres) :=
  match l with
  | CallPush t v => [EvCall t (OPush v)]
  | CallPop t => [EvCall t OPop]
  | Return t r => [EvReturn t r]
  | Step _ _ | Free _ => []
  end.

(** ** The simulation relation *)

(** The node a thread has to itself: not linked yet, or taken off and not retired. *)
Definition owned (p : ms_pc) : option node :=
  match p with
  | PushLoad n | PushNext n _ | PushHelp n _ | PushHelpCas n _ _ | PushLink n _ => Some n
  | PopRead h | PopMove h _ | PopRelease h _ | PopRetire h _ => Some h
  | _ => None
  end.

(** [L] are the linked nodes and [P] those up to [head]. *)
Definition pc_rel (s : ms) (L P : list node) (p : ms_pc) (st : astatus qop qres) : Prop :=
  let pending n :=
    ∃ v, value s n = Some v ∧ n ∉ L ∧ n < fresh s ∧ nxt s n = None ∧ st = APending (OPush v) in
  match p with
  | Idle => st = AIdle
  | PushLoad n => pending n
  | PushNext n o | PushLink n o => pending n ∧ o ∈ L
  | PushHelp n o => pending n ∧ o ∈ L ∧ is_Some (nxt s o)
  | PushHelpCas n o x => pending n ∧ o ∈ L ∧ nxt s o = Some x
  | PushSwing n o => o ∈ L ∧ nxt s o = Some n ∧ st = ADone RPushed
  | PopLoad | PopProtect _ | PopValidate _ => st = APending OPop
  | PopNext h => h ∈ P ∧ st = APending OPop
  | PopTail h | PopEval h => h ∈ P ∧ is_Some (nxt s h) ∧ st = APending OPop
  | PopHelp o => o ∈ L ∧ is_Some (nxt s o) ∧ st = APending OPop
  | PopHelpCas o x => o ∈ L ∧ nxt s o = Some x ∧ st = APending OPop
  | PopCas h x => h ∈ P ∧ nxt s h = Some x ∧ st = APending OPop
  | PopEmpty => st = ADone (RPopped None)
  | PopRead h => ∃ x v, h ∈ L ∧ nxt s h = Some x ∧ value s x = Some v ∧ st = ADone (RPopped (Some v))
  | PopMove h x => ∃ v, h ∈ L ∧ x ∈ L ∧ value s x = Some v ∧ st = ADone (RPopped (Some v))
  | PopRelease h v | PopRetire h v => h ∈ L ∧ st = ADone (RPopped (Some v))
  | Returning r => st = ADone r
  | Broken => False
  end.

(** Every node is linked, retired or owned by one thread; nodes taken off are before
    [head]. *)
Record nodes_kept (s : ms) (pre suf : list node) : Prop := NodesKept {
  nk_owner : ∀ t u n, owned (pcs s t) = Some n → owned (pcs s u) = Some n → t = u;
  nk_owned : ∀ t n, owned (pcs s t) = Some n →
    n < fresh s ∧ (n ∈ pre ++ head s :: suf → n ∈ pre ∧ n ∉ retired s);
  nk_retired : retired s ⊆ pre;
  nk_once : NoDup (retired s);
  nk_all : ∀ n, n < fresh s → n ∈ head s :: suf ∨ n ∈ retired s ∨ ∃ t, owned (pcs s t) = Some n
}.

Record ms_rel (s : ms) (a : aqueue) (pre suf : list node) : Prop := MSRel {
  mr_chain : chain (nxt s) (pre ++ head s :: suf);
  mr_nodup : NoDup (pre ++ head s :: suf);
  mr_fresh : ∀ n, n ∈ pre ++ head s :: suf → n < fresh s;
  mr_tail : tail s ∈ pre ++ head s :: suf;
  mr_queue : Forall2 (λ n v, value s n = Some v) suf (aval a);
  mr_pc : ∀ t, pc_rel s (pre ++ head s :: suf) (pre ++ [head s]) (pcs s t) (ast a t);
  mr_freed : freed s = [];
  mr_nodes : nodes_kept s pre suf
}.

(** What a thread knows stays true when nodes are linked, allocated or popped. *)
Lemma pc_rel_mono s s' L L' P P' p st :
  (∀ n, n ∈ L → n ∈ L') → (∀ n, n ∈ P → n ∈ P') → (∀ n, n ∈ P → n ∈ L) →
  (∀ n x, n ∈ L → nxt s n = Some x → nxt s' n = Some x ∧ x ∈ L) →
  (∀ n v, n < fresh s → value s n = Some v → value s' n = Some v) →
  (∀ n, n ∈ L → n < fresh s) → fresh s <= fresh s' →
  (∀ n, owned p = Some n → n ∉ L → n < fresh s → nxt s n = None → n ∉ L' ∧ nxt s' n = None) →
  pc_rel s L P p st → pc_rel s' L' P' p st.
Proof.
  intros HL HP HPL Hn Hv HLf Hf Hpriv.
  assert (∀ n, owned p = Some n →
    (∃ v, value s n = Some v ∧ n ∉ L ∧ n < fresh s ∧ nxt s n = None ∧ st = APending (OPush v)) →
    ∃ v, value s' n = Some v ∧ n ∉ L' ∧ n < fresh s' ∧ nxt s' n = None ∧ st = APending (OPush v)) as Hpend.
  { intros n Hp (v & H1 & H2 & H3 & H4 & ->). exists v. destruct (Hpriv n Hp H2 H3 H4).
    repeat split; auto. lia. }
  assert (∀ n, n ∈ L → is_Some (nxt s n) → is_Some (nxt s' n)) as Hns.
  { intros n Hin [x Hx]. exists x. by apply Hn. }
  destruct p; simpl in *; try done; try (by intros [? ?]; eauto); try (by apply Hpend).
  - intros (H1 & H2 & H3). split; [by apply Hpend|auto].
  - intros (H1 & H2 & H3). split; [by apply Hpend|]. split; [auto|]. by apply Hn.
  - intros (H1 & H2 & ?). split; [auto|]. split; [|done]. by apply Hn.
  - intros (H1 & H2 & ?). split; [auto|]. auto.
  - intros (H1 & H2 & ?). split; [auto|]. auto.
  - intros (H1 & H2 & ?). split; [auto|]. split; [|done]. by apply Hn.
  - intros (H1 & H2 & ?). split; [auto|]. auto.
  - intros (H1 & H2 & ?). split; [auto|]. split; [|done]. by apply Hn; [apply HPL|].
  - intros (x & v & H1 & H2 & H3 & ->). destruct (Hn _ _ H1 H2) as [H4 H5]. exists x, v. auto 10.
  - intros (v & H1 & H2 & H3 & ->). exists v. auto 10.
Qed.

Section simulation.
  Implicit Types (s : ms) (a : aqueue).

(** A step of [t] that writes no node and leaves [head] where it is. *)
Lemma ms_local s s' a a' pre suf t p :
  ms_rel s a pre suf → nxt s' = nxt s → value s' = value s → fresh s' = fresh s →
  head s' = head s → freed s' = freed s → tail s' ∈ pre ++ head s :: suf →
  pcs s' = (pcs s)⟦t ↦ p⟧ → aval a' = aval a → (∀ u, u ≠ t → ast a' u = ast a u) →
  retired s' = retired s → owned p = owned (pcs s t) →
  pc_rel s (pre ++ head s :: suf) (pre ++ [head s]) p (ast a' t) → ms_rel s' a' pre suf.
Proof.
  intros [H1 H2 H3 H4 H5 H6 H7 H8] En Ev Ef Eh Efr Ht Ep Eq Ea Er Ho Hpc.
  split; rewrite ?En, ?Ef, ?Eh, ?Efr, ?Eq; try done.
  - eapply Forall2_impl; [done|]. intros x y Hx. by rewrite Ev.
  - intros u. assert (∀ q st, pc_rel s (pre ++ head s :: suf) (pre ++ [head s]) q st →
      pc_rel s' (pre ++ head s :: suf) (pre ++ [head s]) q st) as Hsame.
    { intros q st. apply pc_rel_mono; rewrite ?En, ?Ev, ?Ef; try done; auto.
      - intros n. apply upto_linked.
      - intros n x Hn Hx. split; [done|]. by eapply chain_next_in. }
    rewrite Ep. destruct (decide (t = u)) as [<-|Hne].
    + rewrite upd_eq. by apply Hsame.
    + rewrite upd_ne, Ea by done. by apply Hsame.
  - assert (∀ u, owned (pcs s' u) = owned (pcs s u)) as Eo by (intros u; rewrite Ep; by upd_cases).
    destruct H8 as [K1 K2 K3 K4 K5]. split; rewrite ?Eh, ?Ef, ?Er; try done; setoid_rewrite Eo; auto.
Qed.

(** A thread that leaves the node it owns: nobody else owns it. *)
Lemma ms_owner_upd (f : tid → ms_pc) t p n :
  (∃ u, owned (f u) = Some n) → owned (f t) = Some n ∨ ∃ u, owned (f⟦t ↦ p⟧ u) = Some n.
Proof.
  intros [u Hu]. destruct (decide (t = u)) as [<-|Hne]; [by left|]. right. exists u. by rewrite upd_ne.
Qed.

Lemma ms_owner_unique (f : tid → ms_pc) t p :
  (∀ u w n, owned (f u) = Some n → owned (f w) = Some n → u = w) →
  (∀ n u, u ≠ t → owned p = Some n → owned (f u) ≠ Some n) →
  ∀ u w n, owned (f⟦t ↦ p⟧ u) = Some n → owned (f⟦t ↦ p⟧ w) = Some n → u = w.
Proof.
  intros H Hp u w n. destruct (decide (t = u)) as [<-|Hu], (decide (t = w)) as [<-|Hw];
    rewrite ?upd_eq, ?(upd_ne _ t u), ?(upd_ne _ t w) by done; try done.
  - intros H1 H2. by destruct (Hp n w).
  - intros H1 H2. by destruct (Hp n u).
  - apply H.
Qed.

(** The compare-exchange that links a node: the push takes effect. *)
Lemma ms_link s a pre suf t n o v :
  ms_rel s a pre suf → pcs s t = PushLink n o → nxt s o = None →
  ast a t = APending (OPush v) → value s n = Some v →
  ms_rel (at_ms (link s o n) t (PushSwing n o))
    (MkAState (aval a ++ [v]) (ast a)⟦t ↦ ADone RPushed⟧) pre (suf ++ [n]).
Proof.
  intros Hr Epc Eo Ea Ev. pose proof Hr as [H1 H2 H3 H4 H5 H6 H7 [K1 K2 K3 K4 K5]].
  pose proof (H6 t) as Hpc. rewrite Epc in Hpc. simpl in Hpc.
  destruct Hpc as [(w & _ & Hn1 & Hn2 & Hn3 & _) Ho].
  assert (pre ++ head s :: (suf ++ [n]) = (pre ++ head s :: suf) ++ [n]) as EL by (by rewrite <-(assoc (++))).
  assert (∀ m, m ∈ pre ++ head s :: (suf ++ [n]) ↔ m ∈ pre ++ head s :: suf ∨ m = n) as Hin.
  { intros m. by rewrite EL, elem_of_app, list_elem_of_singleton. }
  assert (chain ((nxt s)⟦o ↦ Some n⟧) (pre ++ head s :: (suf ++ [n]))) as Hc.
  { rewrite EL. destruct (chain_last _ _ _ H1 Ho Eo) as [L' E]. rewrite E in *.
    rewrite <-(assoc (++)). by apply chain_link. }
  split; simpl; try done.
  - rewrite EL. apply NoDup_app. split; [done|]. split; [|apply NoDup_singleton].
    intros m Hm Hmn. apply list_elem_of_singleton in Hmn as ->. done.
  - intros m [Hm| ->]%Hin; [by apply H3|done].
  - apply Hin. by left.
  - apply Forall2_app; [done|]. by constructor.
  - intros u. destruct (decide (t = u)) as [<-|Hne].
    + rewrite !upd_eq. simpl. rewrite upd_eq. split; [|done]. apply Hin. by left.
    + rewrite !upd_ne by done. eapply pc_rel_mono; [..|apply H6]; simpl.
      * intros m Hm. apply Hin. by left.
      * done.
      * intros m. apply upto_linked.
      * intros m x Hm Hx. split; [|by eapply chain_next_in]. rewrite upd_ne; [done|]. congruence.
      * done.
      * done.
      * lia.
      * intros m Hp Hm1 Hm2 Hm3. assert (m ≠ n).
        { intros ->. apply Hne. eapply K1; [by rewrite Epc|done]. }
        rewrite Hin. split; [naive_solver|]. rewrite upd_ne; [done|]. intros ->. done.
  - split; simpl; try done.
    + by apply ms_owner_unique.
    + intros u m. destruct (decide (t = u)) as [<-|Hne]; [by rewrite upd_eq|].
      rewrite upd_ne by done. intros Hm. split; [by apply K2 in Hm as [? _]|].
      intros [?| ->]%Hin; [by eapply K2|]. destruct Hne. eapply K1; [by rewrite Epc|done].
    + intros m Hm. destruct (K5 m Hm) as [?|[?|Hu]]; [left; set_solver|auto|].
      apply (ms_owner_upd _ t (PushSwing n o)) in Hu as [Hu|?]; [|auto].
      rewrite Epc in Hu. simplify_eq/=. left. set_solver.
Qed.

(** A call of [Push] allocates a node. *)
Lemma ms_alloc s a pre suf t v :
  ms_rel s a pre suf → pcs s t = Idle →
  ms_rel (at_ms (new_node s v) t (PushLoad (fresh s)))
    (MkAState (aval a) (ast a)⟦t ↦ APending (OPush v)⟧) pre suf.
Proof.
  intros Hr Epc. pose proof Hr as [H1 H2 H3 H4 H5 H6 H7 [K1 K2 K3 K4 K5]].
  assert (fresh s ∉ pre ++ head s :: suf) as Hfr by (intros Hin%H3; lia).
  pose proof (λ m u Hm, proj1 (K2 u m Hm)) as Hpf.
  assert (∀ m, m ≠ fresh s → (nxt s)⟦fresh s ↦ None⟧ m = nxt s m) as Hnx
    by (intros m Hm; by rewrite upd_ne).
  split; simpl; try done.
  - apply (chain_ext (nxt s)); [|done]. intros m Hm. apply Hnx. by intros ->.
  - intros m Hm%H3. lia.
  - eapply forall2_impl_in; [done|]. simpl. intros x y Hx E. rewrite upd_ne; [done|].
    intros <-. apply Hfr. rewrite elem_of_app, elem_of_cons. auto.
  - intros u. destruct (decide (t = u)) as [<-|Hne].
    + rewrite !upd_eq. simpl. exists v. rewrite !upd_eq. auto 10.
    + rewrite !upd_ne by done. eapply pc_rel_mono; [..|apply H6]; simpl.
      * done.
      * done.
      * intros m. apply upto_linked.
      * intros m x Hm Hx. split; [|by eapply chain_next_in]. rewrite Hnx; [done|]. by intros ->.
      * intros m w Hm Hw. rewrite upd_ne; [done|lia].
      * done.
      * lia.
      * intros m Hp Hm1 Hm2 Hm3. rewrite Hnx by lia. done.
  - split; simpl; try done.
    + apply ms_owner_unique; [done|]. intros m u Hu [= <-] Hm%Hpf. lia.
    + intros u m. destruct (decide (t = u)) as [<-|Hne]; [rewrite upd_eq|rewrite upd_ne by done].
      * intros [= <-]. split; [lia|done].
      * intros Hm%K2. destruct Hm. split; [lia|done].
    + intros m Hm. destruct (decide (m = fresh s)) as [->|Hne].
      { right; right. exists t. by rewrite upd_eq. }
      destruct (K5 m) as [?|[?|Hu]]; [lia|auto..|].
      apply (ms_owner_upd _ t (PushLoad (fresh s))) in Hu as [Hu|?]; [by rewrite Epc in Hu|auto].
Qed.

(** The compare-exchange that moves [head]: the pop takes effect. *)
Lemma ms_pop s a pre suf t h x :
  ms_rel s a pre suf → pcs s t = PopCas h x → head s = h →
  ∃ suf' v q, suf = x :: suf' ∧ aval a = v :: q ∧
  ms_rel (at_ms (set_head s x) t (PopRead h))
    (MkAState q (ast a)⟦t ↦ ADone (RPopped (Some v))⟧) (pre ++ [h]) suf'.
Proof.
  intros Hr Epc <-. pose proof Hr as [H1 H2 H3 H4 H5 H6 H7 [K1 K2 K3 K4 K5]].
  pose proof (H6 t) as Hpc. rewrite Epc in Hpc. simpl in Hpc. destruct Hpc as (_ & Hx & Hst).
  pose proof (chain_split _ _ _ _ H1) as Hs. rewrite Hx in Hs. destruct suf as [|y suf']; [done|].
  simpl in Hs. injection Hs as <-. inversion H5 as [|? v ? q Hv Hq Ey Eq]; subst.
  exists suf', v, q. split; [done|]. split; [done|].
  assert ((pre ++ [head s]) ++ x :: suf' = pre ++ head s :: x :: suf') as EL by (by rewrite <-(assoc (++))).
  split; simpl; rewrite ?EL; try done.
  - intros u. destruct (decide (t = u)) as [<-|Hne].
    + rewrite !upd_eq. simpl. exists x, v. split; [|done]. rewrite elem_of_app. right. by left.
    + rewrite !upd_ne by done. eapply pc_rel_mono; [..|apply H6]; simpl; try done; auto.
      * intros m. rewrite !elem_of_app. tauto.
      * intros m. apply upto_linked.
      * intros m y Hm Hy. split; [done|]. by eapply chain_next_in.
  - assert (head s ∉ pre) as Hh.
    { apply NoDup_app in H2 as (_ & Hd & _). intros Hin. apply (Hd _ Hin). by left. }
    split; simpl; rewrite ?EL; try done.
    + apply ms_owner_unique; [done|]. intros m u Hu [= <-] Hm. apply Hh.
      apply (K2 u _ Hm). apply elem_of_app. right. by left.
    + intros u m. destruct (decide (t = u)) as [<-|Hne].
      * rewrite upd_eq. intros [= <-]. split; [apply H3, elem_of_app; right; by left|intros _].
        split; [apply elem_of_app; right; by left|]. intros Hin. by apply Hh, K3.
      * rewrite upd_ne by done. intros Hm. destruct (K2 u m Hm) as [? Hk]. split; [done|].
        intros [? ?]%Hk. rewrite elem_of_app. auto.
    + set_solver.
    + intros m Hm. destruct (K5 m Hm) as [[->|?]%elem_of_cons|[?|Hu]]; [|by left|auto|].
      * right; right. exists t. by rewrite upd_eq.
      * apply (ms_owner_upd _ t (PopRead (head s))) in Hu as [Hu|?]; [by rewrite Epc in Hu|auto].
Qed.

Lemma access_safe s t n s' : freed s = [] → access s t n s' = s'.
Proof. intros E. unfold access. rewrite E. rewrite decide_False; [done|]. apply not_elem_of_nil. Qed.

(** A node up to [head] without a successor means that the queue is empty. *)
Lemma ms_empty s a pre suf h :
  ms_rel s a pre suf → h ∈ pre ++ [head s] → nxt s h = None → aval a = [].
Proof.
  intros [H1 H2 _ _ H5 _ _ _] Hh Hn.
  destruct (chain_last _ _ h H1) as [L' E]; [by apply upto_linked|done|].
  destruct suf as [|y suf _] using rev_ind; [by inversion H5|exfalso].
  rewrite app_comm_cons, (assoc (++)) in E. apply app_inj_tail in E as [_ <-].
  rewrite app_comm_cons, (assoc (++)) in H2. apply NoDup_app in H2 as (_ & Hd & _).
  apply (Hd y); [by apply upto_linked|by left].
Qed.

(** The relation, for some nodes before [head] and after it. *)
Definition ms_ok (s : ms) (a : aqueue) : Prop := ∃ pre suf, ms_rel s a pre suf.

Definition ms_matched : ms → aqueue → list (event qop qres) → Prop := matched [] ms_ok.

(** A step of [t] that links, allocates, takes off and retires nothing. *)
Lemma ms_stays s a pre suf t s1 p :
  ms_rel s a pre suf → nxt s1 = nxt s → value s1 = value s → fresh s1 = fresh s →
  head s1 = head s → freed s1 = freed s → retired s1 = retired s →
  tail s1 ∈ pre ++ head s :: suf → pcs s1 = (pcs s)⟦t ↦ p⟧ → owned p = owned (pcs s t) →
  pc_rel s (pre ++ head s :: suf) (pre ++ [head s]) p (ast a t) → ms_matched s1 a [].
Proof. intros. apply matched_local. exists pre, suf. by eapply (ms_local s s1 a a pre suf t p). Qed.

(** [Retire]: the node goes to the hazard pointers. *)
Lemma ms_retire s a pre suf t h v :
  ms_rel s a pre suf → pcs s t = PopRetire h v →
  ms_rel (at_ms (retire s h) t (Returning (RPopped (Some v)))) a pre suf.
Proof.
  intros [H1 H2 H3 H4 H5 H6 H7 [K1 K2 K3 K4 K5]] Epc.
  pose proof (H6 t) as Hpc. rewrite Epc in Hpc. destruct Hpc as [Hh Ha].
  destruct (K2 t h) as [_ [Hpre Hnr]]; [by rewrite Epc|done|].
  split; simpl; try done.
  - intros u. destruct (decide (t = u)) as [<-|Hne]; [by rewrite upd_eq|].
    rewrite upd_ne by done. eapply pc_rel_mono; [..|apply H6]; simpl; try done.
    + intros m. apply upto_linked.
    + intros m x Hm Hx. split; [done|]. by eapply chain_next_in.
  - split; simpl; try done.
    + by apply ms_owner_unique.
    + intros u m. destruct (decide (t = u)) as [<-|Hne]; [by rewrite upd_eq|].
      rewrite upd_ne by done. intros Hm. destruct (K2 u m Hm) as [? Hk]. split; [done|].
      intros [? ?]%Hk. split; [done|]. rewrite elem_of_app, list_elem_of_singleton.
      intros [?| ->]; [done|]. destruct Hne. eapply K1; [by rewrite Epc|done].
    + set_solver.
    + apply NoDup_app. split; [done|]. split; [|apply NoDup_singleton]. set_solver.
    + intros m Hm. rewrite elem_of_app. destruct (K5 m Hm) as [?|[?|Hu]]; [auto..|].
      apply (ms_owner_upd _ t (Returning (RPopped (Some v)))) in Hu as [Hu|?]; [|auto].
      rewrite Epc in Hu. simplify_eq/=. right; left; right. by left.
Qed.

Lemma Push_sim s a pre suf t b s' :
  ms_rel s a pre suf → Push_step s t b = Some s' → ms_matched s' a [].
Proof.
  intros Hr Hstep. pose proof Hr as [H1 H2 H3 H4 H5 H6 H7 H8]. pose proof (H6 t) as Hpc.
  unfold Push_step in Hstep. rewrite ?access_safe in Hstep by done.
  pose proof (λ s1 p, ms_stays s a pre suf t s1 p Hr) as Hlocal.
  destruct (pcs s t) as [|n|n o|n o|n o x|n o|n o| | | | | | | | | | | | | | | |] eqn:Epc; try done;
    injection Hstep as <-; rewrite ?access_safe by done; simpl in Hpc.
  - apply (Hlocal _ (PushNext n (tail s))); try done.
  - destruct Hpc as [Hn Ho]. destruct (nxt s o) as [x|] eqn:E.
    + apply (Hlocal _ (PushHelp n o)); try done.
    + apply (Hlocal _ (PushLink n o)); try done.
  - destruct Hpc as (Hn & Ho & [x E]). rewrite E. by apply (Hlocal _ (PushHelpCas n o x)).
  - destruct Hpc as (Hn & Ho & E). case_decide; apply (Hlocal _ (PushLoad n)); try done.
    by eapply chain_next_in.
  - destruct Hpc as [Hn Ho]. case_decide as Hd.
    + destruct Hd as [E _]. destruct Hn as (v & Hv & _ & _ & _ & Ha).
      apply (matched_take _ _ _ _ t (OPush v) RPushed (aval a ++ [v])); [done|apply fifo_push|].
      exists pre, (suf ++ [n]). by eapply ms_link.
    + apply (Hlocal _ (PushLoad n)); try done.
  - destruct Hpc as (Ho & E & Ha). case_decide; apply (Hlocal _ (Returning RPushed)); try done.
    by eapply chain_next_in.
Qed.

(** A pop that finds no node after the first: the queue is empty. *)
Lemma pop_next_sim s a pre suf t h :
  ms_rel s a pre suf → pcs s t = PopNext h →
  ms_matched (access s t h (at_ms s t (match nxt s h with Some _ => PopTail h | None => PopEmpty end))) a [].
Proof.
  intros Hr Epc. rewrite access_safe by apply Hr.
  pose proof (mr_pc _ _ _ _ Hr t) as Hpc. rewrite Epc in Hpc. destruct Hpc as [Hh Ha].
  destruct (nxt s h) as [x|] eqn:E.
  - apply (ms_stays s a pre suf t _ (PopTail h)); try done;
      first [apply Hr|by rewrite Epc|simpl; rewrite E; eauto].
  - pose proof (ms_empty s a pre suf h Hr Hh E) as Eq.
    apply (matched_take _ _ _ _ t OPop (RPopped None) []); [done|by rewrite Eq|].
    exists pre, suf. eapply (ms_local s _ a _ pre suf t PopEmpty); try done; simpl; auto.
    + apply Hr.
    + intros u Hu. by rewrite upd_ne.
    + by rewrite Epc.
    + by rewrite upd_eq.
Qed.

Lemma TryPop_sim s a pre suf t b s' :
  ms_rel s a pre suf → TryPop_step s t b = Some s' → ms_matched s' a [].
Proof.
  intros Hr Hstep. pose proof Hr as [H1 H2 H3 H4 H5 H6 H7 H8]. pose proof (H6 t) as Hpc.
  unfold TryPop_step in Hstep.
  pose proof (λ s1 p, ms_stays s a pre suf t s1 p Hr) as Hlocal.
  destruct (pcs s t) as [| | | | | | | |h|h|h| |h|o|o x|h|h x|h|h x|h v|h v| |] eqn:Epc; try done;
    simpl in Hpc.
  - injection Hstep as <-. by apply (Hlocal _ (PopProtect (head s))).
  - injection Hstep as <-. by apply (Hlocal _ (PopValidate h)).
  - injection Hstep as <-. case_decide as Hd; [|by apply (Hlocal _ (PopProtect (head s)))].
    apply (Hlocal _ (PopNext h)); try done. simpl. subst h. split; [|done].
    rewrite elem_of_app. right. by left.
  - injection Hstep as <-. by apply (pop_next_sim s a pre suf t h).
  - injection Hstep as <-. by apply (Hlocal _ (Returning (RPopped None))).
  - injection Hstep as <-. destruct Hpc as (Hh & Hn & Ha). case_decide as Hd.
    + apply (Hlocal _ (PopHelp (tail s))); try done. simpl. by rewrite <- Hd at 2.
    + by apply (Hlocal _ (PopEval h)).
  - injection Hstep as <-. rewrite access_safe by done. destruct Hpc as (Ho & [x E] & Ha). rewrite E.
    by apply (Hlocal _ (PopHelpCas o x)).
  - injection Hstep as <-. destruct Hpc as (Ho & E & Ha). case_decide; apply (Hlocal _ PopLoad); try done.
    by eapply chain_next_in.
  - injection Hstep as <-. rewrite access_safe by done. destruct Hpc as (Hh & [x E] & Ha). rewrite E.
    by apply (Hlocal _ (PopCas h x)).
  - injection Hstep as <-. destruct Hpc as (Hh & E & Ha). case_decide as Hd.
    + destruct Hd as [Hd _]. destruct (ms_pop s a pre suf t h x Hr Epc Hd) as (suf' & v & q & -> & Eq & Hr').
      apply (matched_take _ _ _ _ t OPop (RPopped (Some v)) q); [done|rewrite Eq; apply (fifo_pop (v :: q))|].
      by exists (pre ++ [h]), suf'.
    + by apply (Hlocal _ PopLoad).
  - destruct Hpc as (x & v & Hh & E & Hv & Ha). rewrite E in Hstep. injection Hstep as <-.
    rewrite access_safe by done. apply (Hlocal _ (PopMove h x)); try done. simpl. exists v.
    split; [done|]. split; [|done]. by eapply chain_next_in.
  - destruct Hpc as (v & Hh & Hx & Hv & Ha). rewrite Hv in Hstep. injection Hstep as <-.
    rewrite access_safe by done. by apply (Hlocal _ (PopRelease h v)).
  - injection Hstep as <-. by apply (Hlocal _ (PopRetire h v)).
  - injection Hstep as <-. apply matched_local. exists pre, suf. by apply ms_retire.
Qed.

Lemma ms_sim threads l s s' a pre suf :
  ms_rel s a pre suf → ms_step threads false l s = Some s' → ms_matched s' a (ms_event l).
Proof.
  intros Hr Hstep. pose proof (mr_pc _ _ _ _ Hr) as H6. pose proof (mr_tail _ _ _ _ Hr) as H4.
  destruct l as [t v|t|t b|t r|n]; cbn [ms_step] in Hstep.
  - destruct (pcs s t) eqn:E; simplify_eq. pose proof (H6 t) as Hpc. rewrite E in Hpc. simpl in Hpc.
    apply matched_call; [done|]. exists pre, suf. by apply ms_alloc.
  - destruct (pcs s t) eqn:E; simplify_eq. pose proof (H6 t) as Hpc. rewrite E in Hpc. simpl in Hpc.
    apply matched_call; [done|]. exists pre, suf.
    eapply (ms_local s _ a _ pre suf t PopLoad); try done; simpl; auto.
    + intros u Hu. by rewrite upd_ne.
    + by rewrite E.
    + by rewrite upd_eq.
  - destruct (Push_step s t b) eqn:E; simplify_eq; [by eapply Push_sim|by eapply TryPop_sim].
  - destruct (pcs s t) eqn:E; try done. case_decide; simplify_eq. pose proof (H6 t) as Hpc.
    rewrite E in Hpc. simpl in Hpc.
    apply matched_return; [done|].
    exists pre, suf. eapply (ms_local s _ a _ pre suf t Idle); try done; simpl; auto.
    + intros u Hu. by rewrite upd_ne.
    + by rewrite E.
    + by rewrite upd_eq.
  - case_decide as Hd; [|done]. by destruct Hd as [? _].
Qed.
End simulation.

(** ** The destructor *)

Lemma ms_destroy_chain L fuel s :
  chain (nxt s) L → NoDup (freed s ++ L) → length L <= fuel →
  ∃ s', destroy fuel (hd_error L) s = Ret s' ∧ freed s' = freed s ++ L ∧ retired s' = retired s.
Proof.
  revert fuel s. induction L as [|n L IH]; intros fuel s Hc Hnd Hf; simpl in *.
  - exists s. rewrite app_nil_r. by destruct fuel.
  - destruct fuel as [|fuel]; [lia|]. destruct Hc as [Hn Hc]. simpl. rewrite Hn.
    rewrite decide_False by (apply NoDup_app in Hnd as (_ & Hd & _); intros Hin; apply (Hd n Hin); by left).
    destruct (IH fuel (free_node s n)) as (s' & -> & H1 & H2); [done|..|lia|].
    + simpl. by rewrite <-(assoc (++)).
    + exists s'. split; [done|]. split; [|done]. rewrite H1. simpl. by rewrite <-(assoc (++)).
Qed.

(** When no call is in progress, the destructor deletes the nodes that are not retired. *)
Lemma ms_destroy_idle s a :
  ms_ok s a → (∀ t, pcs s t = Idle) →
  ∃ s', destroy (fresh s) (Some (head s)) s = Ret s' ∧ freed s' ++ retired s' ≡ₚ seq 0 (fresh s).
Proof.
  intros (pre & suf & [H1 H2 H3 _ _ _ H7 [_ _ K3 K4 K5]]) Hidle.
  apply NoDup_app in H2 as (_ & Hd & Hnd).
  destruct (ms_destroy_chain (head s :: suf) (fresh s) s) as (s' & E & Hf & Hr).
  - clear -H1. induction pre; simpl in *; tauto.
  - by rewrite H7.
  - apply length_below; [done|]. intros n Hn. apply H3. rewrite elem_of_app. auto.
  - exists s'. split; [done|]. rewrite Hf, Hr, H7. apply all_nodes.
    + apply NoDup_app. split; [done|]. split; [|done]. intros n Hn Hin%K3. by apply (Hd n).
    + intros n. rewrite elem_of_app. split.
      * intros [Hn|Hn%K3]; apply H3; rewrite elem_of_app; auto.
      * intros Hn. destruct (K5 n Hn) as [?|[?|[t Ht]]]; [by left|by right|]. by rewrite Hidle in Ht.
Qed.

(** ** Theorems *)

Lemma new_ms_rel : ms_rel new_ms (ainit []) [] [].
Proof.
  split; simpl; try done.
  - apply NoDup_singleton.
  - intros n Hn. apply list_elem_of_singleton in Hn. lia.
  - by left.
  - split; simpl; try done; [apply NoDup_nil_2|].
    intros n Hn. left. assert (n = 0) as -> by lia. by left.
Qed.

(** The relation holds for some state of the atomic queue, always. *)
Lemma ms_always threads : invariant (ms_queue threads false) (λ s, ∃ a, ms_ok s a).
Proof.
  apply invariant_intro.
  - intros s ->. exists (ainit []), [], []. apply new_ms_rel.
  - intros l s s' (a & pre & suf & Hr) Hstep.
    destruct (ms_sim threads l s s' a pre suf Hr Hstep) as (tr & a' & _ & _ & Hr'). by exists a'.
Qed.

(** C2: the queue is linearizable: when no node is freed while in use, every execution
    of [Push] and [TryPop] by any number of threads, spurious failures of the weak
    compare-exchanges included, has the calls and returns, with the same results and
    in the same order, of an execution of the atomic FIFO queue; and it does nothing
    undefined.  When no call is in progress, the destructor runs to its end, and it deletes
    once each node that was ever allocated, but those that have been retired. *)
Theorem ms_queue_linearizable threads tr s :
  run (ms_queue threads false) tr new_ms = Some s →
  linearizable [] (concat (ms_event <$> tr)) ∧ (∀ t, pcs s t ≠ Broken) ∧
  ((∀ t, pcs s t = Idle) → ∃ s', destroy (fresh s) (Some (head s)) s = Ret s' ∧
    freed s' ++ retired s' ≡ₚ seq 0 (fresh s)).
Proof.
  intros Hr. destruct (matched_linearizable (ms_queue threads false) ms_event [] ms_ok) with
    (tr := tr) (s := new_ms) (s' := s) as (Hl & a & pre & suf & Hrel).
  - intros l s0 s1 a (pre & suf & H0). by apply (ms_sim threads l s0 s1 a pre suf).
  - exists [], []. apply new_ms_rel.
  - done.
  - split; [done|]. split.
    + intros t E. pose proof (mr_pc _ _ _ _ Hrel t) as Hpc. by rewrite E in Hpc.
    + apply (ms_destroy_idle s a). by exists pre, suf.
Qed.

(** A call run alone, with its return. *)
Definition push_alone (t : tid) (v : T) : list ms_label :=
  CallPush t v :: repeat (Step t false) 4 ++ [Return t RPushed].
Definition pop_alone (t : tid) (v : T) : list ms_label :=
  CallPop t :: repeat (Step t false) 11 ++ [Return t (RPopped (Some v))].

(** Thread 1 pushes 8 while thread 0 is between linking 7 and swinging [tail]. *)
Definition helping_schedule : list ms_label :=
  [CallPush 0 7; Step 0 false; Step 0 false; Step 0 false; CallPush 1 8; Step 1 false; Step 1 false;
   Step 1 false; Step 1 false; Step 1 false; Step 1 false; Step 1 true; Step 1 false; Step 1 false; Step 1 false;
   Step 1 false; Return 1 RPushed; Step 0 false; Return 0 RPushed] ++ pop_alone 2 7 ++ pop_alone 2 8.

Lemma ms_queue_linearizable_witness :
  let s := default new_ms (run (ms_queue 3 false) helping_schedule new_ms) in
  linearizable []
    [EvCall 0 (OPush 7); EvCall 1 (OPush 8); EvReturn 1 RPushed; EvReturn 0 RPushed;
     EvCall 2 OPop; EvReturn 2 (RPopped (Some 7)); EvCall 2 OPop; EvReturn 2 (RPopped (Some 8))] ∧
  ∃ s', destroy 3 (Some 2) s = Ret s' ∧ freed s' ++ retired s' ≡ₚ [0; 1; 2].
Proof.
  intros s. destruct (ms_queue_linearizable 3 helping_schedule s) as (H & _ & Hd).
  - vm_compute. reflexivity.
  - split; [exact H|]. apply Hd. intros [|[|[|t]]]; vm_compute; reflexivity.
Defined.

(** The hazard pointers do not cover every access: even with a memory manager that
    frees a retired node only when no hazard points to it, a [Push] can read [next]
    of a freed [old_tail], which it never protected, and a [TryPop] can read the
    value of a freed node, as its hazard covers [old_head] but not [next]. *)
Lemma ms_queue_use_after_free :
  (∃ tr s v, run (ms_queue 3 true) tr new_ms = Some s ∧ CallPush 0 v ∈ tr ∧ pcs s 0 = Broken) ∧
  (∃ tr s, run (ms_queue 3 true) tr new_ms = Some s ∧ CallPop 0 ∈ tr ∧ pcs s 0 = Broken).
Proof.
  split.
  - set (tr := [CallPush 0 9; Step 0 false] ++ push_alone 1 7 ++ pop_alone 1 7 ++ [Free 0; Step 0 false]).
    exists tr, (default new_ms (run (ms_queue 3 true) tr new_ms)), 9.
    split; [vm_compute; reflexivity|]. split; [by left|vm_compute; reflexivity].
  - set (tr := push_alone 1 7 ++ push_alone 1 8 ++ [CallPop 0] ++ repeat (Step 0 false) 8 ++
      pop_alone 1 8 ++ [Free 1; Step 0 false]).
    exists tr, (default new_ms (run (ms_queue 3 true) tr new_ms)).
    split; [vm_compute; reflexivity|]. split; [|vm_compute; reflexivity].
    unfold tr. rewrite !elem_of_app. right. right. left. by left.
Qed.
