(* ===== verification/LockFree.v ===== *)
(** * Lock-freedom

    A thread of a lock-free algorithm repeats an attempt only when another thread's has
    succeeded in between.  The measure here bounds the steps that a number of threads can
    take without a new call: the successes still possible, each of which may send every
    other thread back to the start of its attempt, and the steps each thread needs until
    it has succeeded or failed. *)

From stdpp Require Import prelude list.
From S2P Require Import Prelude.
From S2P Require Import Chain.

Section measure.
  Context {S : Type} (threads attempt : nat).
  Context (successes : S → nat) (left : S → tid → nat).
  Context (left_bound : ∀ s t, left s t <= attempt).

Definition work (s : S) : nat :=
  (threads * attempt + 1) * successes s + sum_list_with (left s) (seq 0 threads).

Lemma sum_bound (f : tid → nat) (l : list tid) : (∀ t, f t <= attempt) → sum_list_with f l <= length l * attempt.
Proof using Type. clear. intros H. induction l as [|t l IH]; simpl; [done|]. specialize (H t). lia. Qed.

Lemma work_bound s : work s <= (threads * attempt + 1) * successes s + threads * attempt.
Proof using left_bound.
  unfold work. pose proof (sum_bound (left s) (seq 0 threads) (left_bound s)) as H.
  rewrite length_seq in H. lia.
Qed.

(** A success pays for everybody's new attempt. *)
Lemma work_success s s' : successes s' < successes s → work s' < work s.
Proof using left_bound.
  intros H. pose proof (work_bound s') as Hb. unfold work at 2.
  pose proof (Nat.mul_le_mono_l _ _ (threads * attempt + 1) H) as Hm. rewrite Nat.mul_succ_r in Hm. lia.
Qed.

(** Another step takes the thread forward, or, at a price, back. *)
Lemma work_local s s' t price :
  t < threads → successes s' <= successes s → (∀ u, u ≠ t → left s' u = left s u) →
  left s' t < left s t + price → work s' < work s + price.
Proof using Type.
  intros Ht Hs Hu Hl.
  pose proof (sum_one (left s') (left s) t (seq 0 threads) (NoDup_seq _ _)) as H.
  rewrite elem_of_seq in H. specialize (H ltac:(lia) Hu). unfold work.
  pose proof (Nat.mul_le_mono_l _ _ (threads * attempt + 1) Hs) as Hm. lia.
Qed.
End measure.

(** ** The nodes behind [tail] *)

(** How many nodes follow one: what a [tail] that lags has to catch up with. *)
Fixpoint following (fuel : nat) (f : node → option node) (x : node) : nat :=
  match fuel, f x with
  | S fuel', Some y => S (following fuel' f y)
  | _, _ => 0
  end.

Lemma following_length f x L fuel :
  chain f (x :: L) → length L <= fuel → following fuel f x = length L.
Proof.
  revert x fuel. induction L as [|y L IH]; intros x fuel [Hx Hc] Hf; simpl in Hf, Hx.
  - destruct fuel; simpl; by rewrite ?Hx.
  - destruct fuel as [|fuel]; [lia|]. simpl. rewrite Hx. f_equal. apply IH; [done|lia].
Qed.
