(* ===== verification/MSProgress.v ===== *)
(** * SimpleMSQueue is lock-free

    While nobody starts a new operation, the operations in progress need boundedly many
    steps in all, whatever the schedule, but for spurious failures of the weak
    compare-exchanges; and every thread inside an operation can always take a step. *)

From stdpp Require Import prelude list.
From S2P Require Import Prelude.
From S2P Require Import Chain.
From S2P Require Import Atomic.
From S2P Require Import MSQueue.
From S2P Require Import LockFree.

(** How many compare-exchanges an operation may still succeed with: a push links its
    node, which leaves [tail] one more node to catch up with, and a pop moves [head]. *)
Definition to_succeed (p : ms_pc) : nat :=
  match p with
  | PushLoad _ | PushNext _ _ | PushHelp _ _ | PushHelpCas _ _ _ | PushLink _ _ => 2
  | PopLoad | PopProtect _ | PopValidate _ | PopNext _ | PopTail _ | PopHelp _ | PopHelpCas _ _
  | PopEval _ | PopCas _ _ => 1
  | _ => 0
  end.

(** The price of having read what is no longer so: a new attempt. *)
Definition stale (P : Prop) `{Decision P} : nat := if decide P then 0 else 7.

(** The steps that are left to the end of the operation, when nobody interferes. *)
Definition steps_left (s : ms) (p : ms_pc) : nat :=
  match p with
  | PushLoad _ => 4
  | PushNext _ o => 3 + stale (tail s = o)
  | PushLink _ o => 2 + stale (nxt s o = None)
  | PushHelp _ o => 2 + stale (tail s = o)
  | PushHelpCas _ o _ => 1 + stale (tail s = o)
  | PushSwing _ _ => 1
  | PopLoad => 8
  | PopProtect h => 7 + stale (head s = h)
  | PopValidate h => 6 + stale (head s = h)
  | PopNext h => 5 + stale (head s = h)
  | PopTail h => 4 + stale (head s = h)
  | PopHelp o => 3 + stale (tail s = o)
  | PopHelpCas o _ => 2 + stale (tail s = o)
  | PopEval h => 3 + stale (head s = h)
  | PopCas h _ => 2 + stale (head s = h)
  | PopRead _ => 4
  | PopMove _ _ => 3
  | PopRelease _ _ => 2
  | PopRetire _ _ | PopEmpty => 1
  | _ => 0
  end.

Definition in_operation (p : ms_pc) : bool :=
  match p with Idle | Returning _ | Broken => false | _ => true end.

(** How many nodes are behind one, and how far [tail] lags behind the last. *)
Definition behind (s : ms) (m : node) : nat := following (fresh s) (nxt s) m.

Definition lag (s : ms) : nat := behind s (tail s).

(** The steps that the first [threads] threads take, and how many of them are spurious
    failures. *)
Definition step_below (threads : nat) (l : ms_label) : Prop :=
  match l with Step t _ => t < threads | _ => False end.

Definition spurious_failures (tr : list ms_label) : nat :=
  sum_list_with (λ l, match l with Step _ true => 1 | _ => 0 end) tr.

Section progress.
  Context (threads : nat).
  Implicit Types (s : ms).

Definition to_succeed_all s : nat := sum_list_with (λ t, to_succeed (pcs s t)) (seq 0 threads) + lag s.

Definition ms_work s : nat := work threads 14 to_succeed_all (λ s t, steps_left s (pcs s t)) s.

Lemma steps_left_bound s t : steps_left s (pcs s t) <= 14.
Proof using Type. unfold steps_left, stale. destruct (pcs s t); repeat case_decide; lia. Qed.

Lemma to_succeed_upd s t p : t < threads →
  sum_list_with (λ u, to_succeed ((pcs s)⟦t ↦ p⟧ u)) (seq 0 threads) + to_succeed (pcs s t) =
  sum_list_with (λ u, to_succeed (pcs s u)) (seq 0 threads) + to_succeed p.
Proof using Type.
  intros Ht. pose proof (sum_one (λ u, to_succeed ((pcs s)⟦t ↦ p⟧ u)) (λ u, to_succeed (pcs s u)) t
    (seq 0 threads) (NoDup_seq _ _)) as H. simpl in H. rewrite upd_eq, elem_of_seq in H. apply H; [lia|].
  intros u Hu. by rewrite upd_ne.
Qed.

(** A step that changes no pointer. *)
Lemma ms_forward s s' t p price :
  t < threads → head s' = head s → tail s' = tail s → nxt s' = nxt s → fresh s' = fresh s →
  pcs s' = (pcs s)⟦t ↦ p⟧ → to_succeed p <= to_succeed (pcs s t) →
  steps_left s p < steps_left s (pcs s t) + price → ms_work s' < ms_work s + price.
Proof using Type.
  intros Ht Eh Et En Ef Ep Hw Hl.
  assert (∀ q, steps_left s' q = steps_left s q) as Es by (intros q; unfold steps_left; by rewrite Eh, Et, En).
  apply (work_local threads 14 to_succeed_all _ s s' t); [done|..].
  - unfold to_succeed_all, lag, behind. rewrite Ep, Et, En, Ef. pose proof (to_succeed_upd s t p Ht). lia.
  - intros u Hu. by rewrite Es, Ep, upd_ne.
  - by rewrite Es, Ep, upd_eq.
Qed.

(** A step that brings an operation, or [tail], forward. *)
Lemma ms_success s s' t p :
  t < threads → pcs s' = (pcs s)⟦t ↦ p⟧ → to_succeed p + lag s' < to_succeed (pcs s t) + lag s →
  ms_work s' < ms_work s.
Proof using Type.
  intros Ht Ep Hlt. apply (work_success threads 14); [apply steps_left_bound|].
  unfold to_succeed_all. rewrite Ep. pose proof (to_succeed_upd s t p Ht). lia.
Qed.

(** ** [tail] *)

Lemma behind_split s a pre suf m : ms_rel s a pre suf → m ∈ pre ++ head s :: suf →
  ∃ L1 L2, pre ++ head s :: suf = L1 ++ m :: L2 ∧ chain (nxt s) (m :: L2) ∧
    length L2 < fresh s ∧ behind s m = length L2.
Proof using Type.
  intros [H1 H2 H3 _ _ _ _ _] (L1 & L2 & E)%list_elem_of_split.
  assert (chain (nxt s) (m :: L2)) as Hc.
  { rewrite E in H1. clear -H1. induction L1; simpl in *; tauto. }
  assert (length L2 < fresh s).
  { pose proof (length_below _ _ H2 H3) as Hb. rewrite E, length_app in Hb. simpl in Hb. lia. }
  exists L1, L2. split; [done|]. split; [done|]. split; [done|]. apply following_length; [done|lia].
Qed.

(** The tail swings to the next node. *)
Lemma lag_swing s s' a pre suf x :
  ms_rel s a pre suf → nxt s (tail s) = Some x → tail s' = x → nxt s' = nxt s → fresh s' = fresh s →
  lag s = S (lag s').
Proof using Type.
  intros Hr Hx Et En Ef.
  destruct (behind_split s a pre suf (tail s) Hr (mr_tail _ _ _ _ Hr)) as (L1 & L2 & E & [Hc1 Hc2] & Hl & Hb).
  unfold lag. rewrite Hb, Et. rewrite Hx in Hc1. destruct L2 as [|y L2]; [done|]. simpl in Hc1, Hl. simplify_eq.
  simpl. f_equal. symmetry. unfold behind. rewrite En, Ef. apply following_length; [done|lia].
Qed.

(** A node is linked behind the last. *)
Lemma behind_link s a pre suf o n m :
  ms_rel s a pre suf → m ∈ pre ++ head s :: suf → o ∈ pre ++ head s :: suf → nxt s o = None →
  n ∉ pre ++ head s :: suf → n < fresh s → nxt s n = None → behind (link s o n) m = S (behind s m).
Proof using Type.
  intros Hr Hm Ho Eo Hn Hf En. destruct (behind_split s a pre suf m Hr Hm) as (L1 & L2 & E & Hc & _ & ->).
  pose proof Hr as [H1 H2 H3 _ _ _ _ _]. rewrite E in *.
  destruct (chain_last _ _ _ H1 Ho Eo) as [L' E'].
  assert (L' ++ [o; n] = L1 ++ m :: (L2 ++ [n])) as EL.
  { change [o; n] with ([o] ++ [n]). by rewrite (assoc (++)), <-E', <-(assoc (++)). }
  assert (NoDup ((L1 ++ m :: L2) ++ [n])) as Hnd.
  { apply NoDup_app. split; [done|]. split; [|apply NoDup_singleton]. intros k Hk ->%list_elem_of_singleton. done. }
  assert (chain (nxt (link s o n)) (m :: (L2 ++ [n]))) as Hc'.
  { simpl. rewrite E' in H1, H2, Hn. pose proof (chain_link _ _ _ _ H1 H2 Hn En) as Hl.
    rewrite EL in Hl. clear -Hl. induction L1; simpl in *; tauto. }
  unfold behind. simpl. rewrite (following_length _ _ _ _ Hc'); rewrite !length_app; simpl; [lia|].
  assert (length ((L1 ++ m :: L2) ++ [n]) <= fresh s) as Hb.
  { apply length_below; [done|]. intros k. rewrite elem_of_app, list_elem_of_singleton. intros [?| ->]; auto. }
  rewrite !length_app in Hb. simpl in Hb. lia.
Qed.

(** ** Each step *)

Definition price (b : bool) : nat := if b then 15 else 0.

Ltac compare_steps := unfold steps_left, stale, price; repeat case_decide; simpl; try congruence; lia.

Ltac go_forward t p Epc := apply (ms_forward _ _ t p); rewrite ?Epc; try done; compare_steps.

(** A compare-exchange on [tail]: it swings, or it was late. *)
Lemma swing_progress s a pre suf t b o x p :
  t < threads → ms_rel s a pre suf → nxt s o = Some x → to_succeed p = to_succeed (pcs s t) →
  (b = true ∨ tail s ≠ o → steps_left s p < steps_left s (pcs s t) + price b) →
  ms_work (at_ms (if decide (tail s = o ∧ b = false) then set_tail s x else s) t p) < ms_work s + price b.
Proof using Type.
  intros Ht Hr Hx Hw Hl. case_decide as Hd.
  - destruct Hd as [Et ->]. rewrite Nat.add_0_r. apply (ms_success _ _ t p); [done..|].
    rewrite Hw, (lag_swing s (at_ms (set_tail s x) t p) a pre suf x Hr) by (subst; done). lia.
  - apply (ms_forward _ _ t p); try done; [by rewrite Hw|]. apply Hl.
    destruct b; [by left|right]. by intros ?; apply Hd.
Qed.

Lemma push_progress s a pre suf t b s' :
  t < threads → ms_rel s a pre suf → Push_step s t b = Some s' → ms_work s' < ms_work s + price b.
Proof using Type.
  intros Ht Hr Hstep. pose proof (mr_pc _ _ _ _ Hr t) as Hpc. unfold Push_step in Hstep.
  destruct (pcs s t) as [|n|n o|n o|n o x|n o|n o| | | | | | | | | | | | | | | |] eqn:Epc; try done;
    injection Hstep as <-; rewrite ?access_safe by apply Hr; simpl in Hpc.
  - by go_forward t (PushNext n (tail s)) Epc.
  - destruct (nxt s o) as [y|] eqn:E.
    + by go_forward t (PushHelp n o) Epc.
    + by go_forward t (PushLink n o) Epc.
  - destruct Hpc as (_ & _ & y & E). rewrite E.
    by go_forward t (PushHelpCas n o y) Epc.
  - destruct Hpc as (_ & _ & E). apply (swing_progress s a pre suf t b o x); rewrite ?Epc; try done.
    intros Hd. destruct Hd; subst; compare_steps.
  - destruct Hpc as [(v & _ & Hn & Hf & En & _) Ho]. case_decide as Hd.
    + destruct Hd as [E ->]. rewrite Nat.add_0_r. apply (ms_success _ _ t (PushSwing n o)); [done..|].
      rewrite Epc. pose proof (behind_link s a pre suf o n (tail s) Hr (mr_tail _ _ _ _ Hr) Ho E Hn Hf En) as Hl.
      change (lag (at_ms (link s o n) t (PushSwing n o))) with (behind (link s o n) (tail s)).
      unfold lag. simpl. lia.
    + apply (ms_forward _ _ t (PushLoad n)); rewrite ?Epc; try done.
      destruct b; [compare_steps|]. unfold steps_left, stale. rewrite decide_False; [lia|tauto].
  - destruct Hpc as (_ & E & _).
    assert ((if decide (tail s = o) then set_tail s n else s) =
      (if decide (tail s = o ∧ false = false) then set_tail s n else s)) as ->.
    { do 2 case_decide; try done; tauto. }
    apply (Nat.lt_le_trans _ (ms_work s + price false)); [|simpl; lia].
    apply (swing_progress s a pre suf t false o n); rewrite ?Epc; try done. intros _. compare_steps.
Qed.

Lemma pop_progress s a pre suf t b s' :
  t < threads → ms_rel s a pre suf → TryPop_step s t b = Some s' → ms_work s' < ms_work s + price b.
Proof using Type.
  intros Ht Hr Hstep. pose proof (mr_pc _ _ _ _ Hr t) as Hpc. unfold TryPop_step in Hstep.
  destruct (pcs s t) as [| | | | | | | |h|h|h| |h|o|o x|h|h x|h|h x|h v|h v| |] eqn:Epc; try done;
    simpl in Hpc.
  - injection Hstep as <-. by go_forward t (PopProtect (head s)) Epc.
  - injection Hstep as <-. by go_forward t (PopValidate h) Epc.
  - injection Hstep as <-.
    apply (ms_forward _ _ t (if decide (head s = h) then PopNext h else PopProtect (head s)));
      rewrite ?Epc; try done; [by case_decide|]. compare_steps.
  - injection Hstep as <-. rewrite access_safe by apply Hr.
    apply (ms_forward _ _ t (match nxt s h with Some _ => PopTail h | None => PopEmpty end));
      rewrite ?Epc; try done; destruct (nxt s h); simpl; try lia; compare_steps.
  - injection Hstep as <-. by go_forward t (Returning (RPopped None)) Epc.
  - injection Hstep as <-.
    apply (ms_forward _ _ t (if decide (h = tail s) then PopHelp (tail s) else PopEval h));
      rewrite ?Epc; try done; [by case_decide|]. compare_steps.
  - injection Hstep as <-. rewrite access_safe by apply Hr. destruct Hpc as (_ & [y E] & _). rewrite E.
    by go_forward t (PopHelpCas o y) Epc.
  - injection Hstep as <-. destruct Hpc as (_ & E & _).
    apply (swing_progress s a pre suf t b o x); rewrite ?Epc; try done.
    intros Hd. destruct Hd; subst; compare_steps.
  - injection Hstep as <-. rewrite access_safe by apply Hr. destruct Hpc as (_ & [y E] & _). rewrite E.
    by go_forward t (PopCas h y) Epc.
  - injection Hstep as <-. case_decide as Hd.
    + destruct Hd as [E ->]. rewrite Nat.add_0_r. apply (ms_success _ _ t (PopRead h)); [done..|].
      rewrite Epc. unfold lag, behind. simpl. lia.
    + apply (ms_forward _ _ t PopLoad); rewrite ?Epc; try done.
      destruct b; [compare_steps|]. unfold steps_left, stale. rewrite decide_False; [lia|tauto].
  - destruct Hpc as (x & v & _ & E & _). rewrite E in Hstep. injection Hstep as <-.
    rewrite access_safe by apply Hr. by go_forward t (PopMove h x) Epc.
  - destruct Hpc as (v & _ & _ & E & _). rewrite E in Hstep. injection Hstep as <-.
    rewrite access_safe by apply Hr. by go_forward t (PopRelease h v) Epc.
  - injection Hstep as <-. by go_forward t (PopRetire h v) Epc.
  - injection Hstep as <-. by go_forward t (Returning (RPopped (Some v))) Epc.
Qed.

(** ** [tail] points to the last node or to the one before *)

(** What a push has read as [tail], and will link behind if it is the last node. *)
Definition tail_read (p : ms_pc) : option node :=
  match p with PushNext _ o | PushLink _ o => Some o | _ => None end.

Record tail_ok s : Prop := TailOk {
  to_lag : lag s <= 1;
  to_read : ∀ t o, tail_read (pcs s t) = Some o → lag s <= behind s o
}.

Lemma tail_local s s' t p :
  tail_ok s → nxt s' = nxt s → tail s' = tail s → fresh s' = fresh s → pcs s' = (pcs s)⟦t ↦ p⟧ →
  (∀ o, tail_read p = Some o → o = tail s ∨ tail_read (pcs s t) = Some o) → tail_ok s'.
Proof using Type.
  intros [H1 H2] En Et Ef Ep Hp.
  assert (∀ m, behind s' m = behind s m) as Eb by (intros m; unfold behind; by rewrite En, Ef).
  assert (lag s' = lag s) as El by (unfold lag; by rewrite Eb, Et).
  split; rewrite El; [done|]. intros u o. rewrite Eb, Ep. upd_cases; [|apply H2].
  intros Ho. destruct (Hp o Ho) as [->|?]; [done|by apply (H2 u)].
Qed.

Lemma tail_swing s a pre suf t o x (b : bool) p :
  ms_rel s a pre suf → tail_ok s → nxt s o = Some x → tail_read p = None →
  tail_ok (at_ms (if decide (tail s = o ∧ b = false) then set_tail s x else s) t p).
Proof using Type.
  intros Hr Ht Hx Hp. case_decide as Hd.
  - destruct Hd as [<- _]. destruct Ht as [H1 H2].
    pose proof (lag_swing s (at_ms (set_tail s x) t p) a pre suf x Hr Hx eq_refl eq_refl eq_refl) as El.
    split; [lia|]. intros u m Hu. simpl in Hu.
    change (behind (at_ms (set_tail s x) t p) m) with (behind s m).
    assert (lag s <= behind s m); [|lia]. apply (H2 u). revert Hu. by upd_cases.
  - apply (tail_local s _ t p); try done. by rewrite Hp.
Qed.

Lemma tail_link s a pre suf t n o :
  ms_rel s a pre suf → tail_ok s → pcs s t = PushLink n o → nxt s o = None →
  tail_ok (at_ms (link s o n) t (PushSwing n o)).
Proof using Type.
  intros Hr [H1 H2] Epc E. pose proof (mr_pc _ _ _ _ Hr t) as Hpc. rewrite Epc in Hpc.
  destruct Hpc as [(v & _ & Hn & Hf & En & _) Ho].
  assert (∀ m, m ∈ pre ++ head s :: suf →
    behind (at_ms (link s o n) t (PushSwing n o)) m = S (behind s m)) as Eb.
  { intros m Hm. by apply (behind_link s a pre suf o n m). }
  assert (lag s = 0) as El.
  { assert (lag s <= behind s o) as Hle by (apply (H2 t); by rewrite Epc).
    unfold behind in Hle. destruct (fresh s); simpl in Hle; [lia|]. rewrite E in Hle. lia. }
  assert (lag (at_ms (link s o n) t (PushSwing n o)) = 1) as El'.
  { unfold lag. simpl. rewrite Eb by apply (mr_tail _ _ _ _ Hr). fold (lag s). by rewrite El. }
  split; rewrite El'; [done|]. intros u m Hu. simpl in Hu.
  destruct (decide (t = u)) as [<-|Hne]; [by rewrite upd_eq in Hu|rewrite upd_ne in Hu by done].
  rewrite Eb; [lia|]. pose proof (mr_pc _ _ _ _ Hr u) as Hk. destruct (pcs s u); simplify_eq/=; by destruct Hk.
Qed.

Lemma tail_alloc s a pre suf t v :
  ms_rel s a pre suf → tail_ok s → tail_ok (at_ms (new_node s v) t (PushLoad (fresh s))).
Proof using Type.
  intros Hr [H1 H2]. set (s' := at_ms _ _ _).
  assert (∀ m, m ∈ pre ++ head s :: suf → behind s' m = behind s m) as Eb.
  { intros m Hm. destruct (behind_split s a pre suf m Hr Hm) as (L1 & L2 & E & Hc & Hl & ->).
    apply following_length; [|simpl; lia]. apply (chain_ext (nxt s)); [|done].
    intros k Hk. simpl. rewrite upd_ne; [done|]. intros <-.
    assert (fresh s < fresh s); [|lia]. apply (mr_fresh _ _ _ _ Hr). rewrite E. apply elem_of_app. by right. }
  assert (lag s' = lag s) as El by (unfold lag; by rewrite Eb by apply (mr_tail _ _ _ _ Hr)).
  split; rewrite El; [done|]. intros u m Hu. simpl in Hu.
  destruct (decide (t = u)) as [<-|Hne]; [by rewrite upd_eq in Hu|rewrite upd_ne in Hu by done].
  rewrite Eb; [by apply (H2 u)|].
  pose proof (mr_pc _ _ _ _ Hr u) as Hk. destruct (pcs s u); simplify_eq/=; by destruct Hk.
Qed.

Lemma tail_push s a pre suf t b s' :
  ms_rel s a pre suf → tail_ok s → Push_step s t b = Some s' → tail_ok s'.
Proof using Type.
  intros Hr Ht Hstep. pose proof (mr_pc _ _ _ _ Hr t) as Hpc. unfold Push_step in Hstep.
  destruct (pcs s t) as [|n|n o|n o|n o x|n o|n o| | | | | | | | | | | | | | | |] eqn:Epc; try done;
    injection Hstep as <-; rewrite ?access_safe by apply Hr; simpl in Hpc.
  - apply (tail_local s _ t (PushNext n (tail s))); try done. intros m [= ->]. by left.
  - apply (tail_local s _ t (match nxt s o with Some _ => PushHelp n o | None => PushLink n o end)); try done.
    rewrite Epc. intros m. destruct (nxt s o); simpl; [done|]. by right.
  - destruct Hpc as (_ & _ & y & E). rewrite E. by apply (tail_local s _ t (PushHelpCas n o y)).
  - destruct Hpc as (_ & _ & E). by eapply tail_swing.
  - case_decide as Hd; [|by apply (tail_local s _ t (PushLoad n))].
    destruct Hd as [E _]. by eapply tail_link.
  - destruct Hpc as (_ & E & _).
    pose proof (tail_swing s a pre suf t o n false (Returning RPushed) Hr Ht E eq_refl) as Hs.
    destruct (decide (tail s = o)); [|by apply (tail_local s _ t (Returning RPushed))].
    by rewrite decide_True in Hs by done.
Qed.

Lemma tail_pop s a pre suf t b s' :
  ms_rel s a pre suf → tail_ok s → TryPop_step s t b = Some s' → tail_ok s'.
Proof using Type.
  intros Hr Ht Hstep. pose proof (mr_pc _ _ _ _ Hr t) as Hpc. unfold TryPop_step in Hstep.
  assert (∀ s1 p, nxt s1 = nxt s → tail s1 = tail s → fresh s1 = fresh s → pcs s1 = (pcs s)⟦t ↦ p⟧ →
    tail_read p = None → tail_ok s1) as Hgo.
  { intros s1 p En Et Ef Ep Hp. apply (tail_local s s1 t p); try done. by rewrite Hp. }
  destruct (pcs s t) as [| | | | | | | |h|h|h| |h|o|o x|h|h x|h|h x|h v|h v| |] eqn:Epc; try done;
    simpl in Hpc; try (injection Hstep as <-; rewrite ?access_safe by apply Hr).
  - by eapply Hgo.
  - by eapply Hgo.
  - eapply Hgo; try done. by case_decide.
  - eapply Hgo; try done. by case_match.
  - by eapply Hgo.
  - eapply Hgo; try done. by case_decide.
  - eapply Hgo; try done. by case_match.
  - destruct Hpc as (_ & E & _). by eapply tail_swing.
  - eapply Hgo; try done. by case_match.
  - case_decide; by eapply Hgo.
  - destruct Hpc as (x & v & _ & E & _). rewrite E in Hstep. injection Hstep as <-.
    rewrite access_safe by apply Hr. by eapply Hgo.
  - destruct Hpc as (v & _ & _ & E & _). rewrite E in Hstep. injection Hstep as <-.
    rewrite access_safe by apply Hr. by eapply Hgo.
  - by eapply Hgo.
  - by eapply Hgo.
Qed.

Lemma tail_invariant : invariant (ms_queue threads false) tail_ok.
Proof using Type.
  apply (invariant_on_top _ _ _ (ms_always threads)).
  - intros s ->. split; [vm_compute; lia|done].
  - intros l s s' (a & pre & suf & Hr) Ht Hstep. destruct l as [t v|t|t b|t r|n]; cbn [lts_step ms_queue ms_step] in Hstep.
    + destruct (pcs s t) eqn:E; simplify_eq. by eapply tail_alloc.
    + destruct (pcs s t) eqn:E; simplify_eq. by apply (tail_local s _ t PopLoad).
    + destruct (Push_step s t b) eqn:E; simplify_eq; [by eapply tail_push|by eapply tail_pop].
    + destruct (pcs s t) eqn:E; try done. case_decide; simplify_eq. by apply (tail_local s _ t Idle).
    + case_decide as Hd; [|done]. by destruct Hd.
Qed.

(** C5: the queue is lock-free, as its place in the repository says.  After any execution,
    let some threads go on with the operations they are in, in any order, and nobody start
    a new one: they take at most [(14 threads + 1)(2 threads + 1) + 14 threads] steps in
    all, and 15 more for each spurious failure of a weak compare-exchange; so one of them
    returns.  A thread inside an operation can always take a step.  And [tail] is never
    more than one node behind the last. *)
Theorem ms_queue_lock_free tr s :
  run (ms_queue threads false) tr new_ms = Some s →
  (∀ tr' s', Forall (step_below threads) tr' → run (ms_queue threads false) tr' s = Some s' →
    length tr' <= (threads * 14 + 1) * (2 * threads + 1) + threads * 14 + 15 * spurious_failures tr') ∧
  (∀ t, in_operation (pcs s t) = true → is_Some (ms_step threads false (Step t false) s)) ∧
  lag s <= 1.
Proof using Type.
  intros Hr. assert (reachable (ms_queue threads false) s) as Hre by (by exists new_ms, tr).
  split; [|split; [|by apply to_lag, tail_invariant]].
  - intros tr' s' Hok Hr'.
    destruct (run_costs (ms_queue threads false) (step_below threads) (reachable (ms_queue threads false))
      ms_work (λ l, match l with Step _ true => 15 | _ => 0 end)) with (tr := tr') (s := s) (s' := s') as [_ Hl]; try done.
    + intros l s0 s1 Hl H0 E. split; [by eapply reachable_step|].
      destruct (ms_always threads s0 H0) as (a & pre & suf & Hrel). destruct l as [| |t b| |]; try done.
      cbn [lts_step ms_queue ms_step] in E. change (match b with true => 15 | false => 0 end) with (price b).
      destruct (Push_step s0 t b) eqn:Ep; simplify_eq; [by eapply push_progress|by eapply pop_progress].
    + pose proof (work_bound threads 14 to_succeed_all (λ s t, steps_left s (pcs s t)) steps_left_bound s) as Hw.
      fold (ms_work s) in Hw. pose proof (to_lag s (tail_invariant s Hre)) as Hlag.
      assert (to_succeed_all s <= 2 * threads + 1) as Hs.
      { unfold to_succeed_all. pose proof (sum_bound 2 (λ t, to_succeed (pcs s t)) (seq 0 threads)) as H2.
        rewrite length_seq in H2. assert (∀ t, to_succeed (pcs s t) <= 2) as H3 by (intros t; destruct (pcs s t); simpl; lia).
        specialize (H2 H3). lia. }
      pose proof (Nat.mul_le_mono_l _ _ (threads * 14 + 1) Hs) as Hm.
      assert (sum_list_with (λ l, match l with Step _ true => 15 | _ => 0 end) tr' = 15 * spurious_failures tr') as Hc.
      { clear. unfold spurious_failures. induction tr' as [|[| |? []| |] tr' IH]; simpl; lia. }
      lia.
  - intros t Ht. cbn [ms_step]. unfold Push_step, TryPop_step.
    destruct (pcs s t); try done; try (by eexists); by case_match.
Qed.
End progress.

(** Two pushes and a pop in the middle of their attempts; the second push has read the
    [tail] that the first is about to leave behind. *)
Definition contended : list ms_label :=
  [CallPush 0 7; CallPush 1 8; CallPop 2; Step 1 false; Step 0 false; Step 0 false; Step 0 false; Step 2 false].

Lemma ms_queue_lock_free_witness :
  let s := default new_ms (run (ms_queue 3 false) contended new_ms) in
  (∀ tr' s', Forall (step_below 3) tr' → run (ms_queue 3 false) tr' s = Some s' →
    length tr' <= 343 + 15 * spurious_failures tr') ∧
  (∀ t, in_operation (pcs s t) = true → is_Some (ms_step 3 false (Step t false) s)) ∧ lag s <= 1.
Proof.
  intros s. apply (ms_queue_lock_free 3 contended s). vm_compute. reflexivity.
Defined.
