(* ===== verification/ClassicMSQueue.v ===== *)
(** * components/lock_free/classic_ms_queue: the Michael-Scott queue with counters

    [ClassicMSQueue] step by step: every access to [head], [tail] or a node is a step.
    A [NodePointer] is an address and a 64-bit counter, read and compared as one.
    [TryPop] deletes the node it takes off the queue, so what the queue guarantees
    depends on the memory: [Strict], where an access to a deleted node is undefined,
    as the language has it; [Recycling], which keeps deleted nodes readable and uses
    them for new ones, as the allocator of the original paper; [NeverReusing], which
    only keeps them readable. *)

From stdpp Require Import prelude list.
From S2P Require Import Prelude.
From S2P Require Import Chain.
From S2P Require Import Atomic.
From S2P Require Import Late.
From S2P Require Import LinCheck.

Record NodePointer := NP { node_ptr : ptr node; counter : Z }.

#[export] Instance node_pointer_eq : EqDecision NodePointer.
Proof. solve_decision. Defined.

Inductive memory := Strict | Recycling | NeverReusing.

#[export] Instance memory_eq : EqDecision memory.
Proof. solve_decision. Defined.

Inductive classic_pc :=
| Idle
| PushLoad (n : node)                  (** [old_tail = tail.load()] *)
| PushNext (n : node) (o : NodePointer)   (** [old_tail.node_ptr->next.load()] *)
| PushCheck (n : node) (o x : NodePointer)   (** [old_tail == tail.load()] *)
| PushLink (n : node) (o x : NodePointer)    (** the compare-exchange on [next] *)
| PushHelp (n : node) (o x : NodePointer)    (** the helping compare-exchange on [tail] *)
| PushSwing (n : node) (o : NodePointer)     (** the last compare-exchange on [tail] *)
| PopHead                              (** [old_head = head.load()] *)
| PopTail (h : NodePointer)            (** [old_tail = tail.load()] *)
| PopNext (h o : NodePointer)          (** [old_head.node_ptr->next.load()] *)
| PopCheck (h o x : NodePointer)       (** [old_head == head.load()], and the two tests *)
| PopHelp (o x : NodePointer)          (** the helping compare-exchange on [tail] *)
| PopValue (h x : NodePointer)         (** [result.emplace( ...->value)] *)
| PopCas (h x : NodePointer) (v : T)   (** the compare-exchange on [head] *)
| PopDelete (h : NodePointer) (v : T)  (** [delete old_head.node_ptr] *)
| Returning (r : qres)
| Broken.                              (** undefined behaviour *)

Record ClassicMSQueue := MkClassic {
  head : NodePointer;
  tail : NodePointer;
  nxt : node → NodePointer;
  value : node → T;
  fresh : node;
  freed : list node;
  pcs : tid → classic_pc
}.

(** The address of a new node is the allocator's choice. *)
Inductive classic_label :=
| CallPush (t : tid) (v : T) (n : node)
| CallPop (t : tid)
| Step (t : tid)
| Return (t : tid) (r : qres).

Section steps.
  Implicit Types s : ClassicMSQueue.

Definition at_pc s (t : tid) (p : classic_pc) : ClassicMSQueue :=
  MkClassic (head s) (tail s) (nxt s) (value s) (fresh s) (freed s) (pcs s)⟦t ↦ p⟧.

Definition set_head s (p : NodePointer) : ClassicMSQueue :=
  MkClassic p (tail s) (nxt s) (value s) (fresh s) (freed s) (pcs s).

(** [compare_exchange_strong] on [tail] and on the [next] of a node. *)
Definition cas_tail s (expected desired : NodePointer) : ClassicMSQueue :=
  if decide (tail s = expected)
  then MkClassic (head s) desired (nxt s) (value s) (fresh s) (freed s) (pcs s) else s.

Definition set_next s (n : node) (p : NodePointer) : ClassicMSQueue :=
  MkClassic (head s) (tail s) (nxt s)⟦n ↦ p⟧ (value s) (fresh s) (freed s) (pcs s).

(** The address an allocation may return. *)
Definition may_allocate (m : memory) s (n : node) : bool :=
  bool_decide (n = fresh s) || (negb (bool_decide (m = NeverReusing)) && bool_decide (n ∈ freed s)).

(** [new Node(v)]: the constructor sets the counter of [next] to 0. *)
Definition new_node s (v : T) (n : node) : ClassicMSQueue :=
  MkClassic (head s) (tail s) (nxt s)⟦n ↦ NP None 0⟧ (value s)⟦n ↦ v⟧ (Nat.max (fresh s) (S n))
    (filter (λ x, x ≠ n) (freed s)) (pcs s).

(** An access through a pointer. *)
Definition deref (m : memory) s (t : tid) (p : NodePointer) (k : node → ClassicMSQueue) :
    ClassicMSQueue :=
  match node_ptr p with
  | Some n => if decide (m = Strict ∧ n ∈ freed s) then at_pc s t Broken else k n
  | None => at_pc s t Broken
  end.

(** [delete] of a node that is not allocated is undefined. *)
Definition delete_node s (t : tid) (p : NodePointer) (q : classic_pc) : ClassicMSQueue :=
  match node_ptr p with
  | Some n =>
      if decide (n ∈ freed s) then at_pc s t Broken
      else at_pc (MkClassic (head s) (tail s) (nxt s) (value s) (fresh s) (n :: freed s) (pcs s)) t q
  | None => at_pc s t q
  end.

Definition bump (p : NodePointer) : Z := sz_add (counter p) 1.

Definition Push_step (m : memory) s (t : tid) : option ClassicMSQueue :=
  match pcs s t with
  | PushLoad n => Some (at_pc s t (PushNext n (tail s)))
  | PushNext n old_tail => Some (deref m s t old_tail (λ o, at_pc s t (PushCheck n old_tail (nxt s o))))
  | PushCheck n old_tail next =>
      Some (at_pc s t
        (if decide (old_tail = tail s)
         then match node_ptr next with
              | None => PushLink n old_tail next
              | Some _ => PushHelp n old_tail next
              end
         else PushLoad n))
  | PushLink n old_tail next =>
      Some (deref m s t old_tail (λ o,
        if decide (nxt s o = next) then at_pc (set_next s o (NP (Some n) (bump next))) t (PushSwing n old_tail)
        else at_pc s t (PushLoad n)))
  | PushHelp n old_tail next =>
      Some (at_pc (cas_tail s old_tail (NP (node_ptr next) (bump old_tail))) t (PushLoad n))
  | PushSwing n old_tail =>
      Some (at_pc (cas_tail s old_tail (NP (Some n) (bump old_tail))) t (Returning RPushed))
  | _ => None
  end.

Definition TryPop_step (m : memory) s (t : tid) : option ClassicMSQueue :=
  match pcs s t with
  | PopHead => Some (at_pc s t (PopTail (head s)))
  | PopTail old_head => Some (at_pc s t (PopNext old_head (tail s)))
  | PopNext old_head old_tail =>
      Some (deref m s t old_head (λ h, at_pc s t (PopCheck old_head old_tail (nxt s h))))
  | PopCheck old_head old_tail next =>
      Some (at_pc s t
        (if decide (old_head = head s)
         then if decide (node_ptr old_head = node_ptr old_tail)
              then match node_ptr next with
                   | None => Returning (RPopped None)
                   | Some _ => PopHelp old_tail next
                   end
              else PopValue old_head next
         else PopHead))
  | PopHelp old_tail next =>
      Some (at_pc (cas_tail s old_tail (NP (node_ptr next) (bump old_tail))) t PopHead)
  | PopValue old_head next => Some (deref m s t next (λ x, at_pc s t (PopCas old_head next (value s x))))
  | PopCas old_head next v =>
      Some (if decide (head s = old_head)
            then at_pc (set_head s (NP (node_ptr next) (bump old_head))) t (PopDelete old_head v)
            else at_pc s t PopHead)
  | PopDelete old_head v => Some (delete_node s t old_head (Returning (RPopped (Some v))))
  | _ => None
  end.

Definition classic_step (m : memory) (l : classic_label) s : option ClassicMSQueue :=
  match l with
  | CallPush t v n =>
      match pcs s t with
      | Idle => if may_allocate m s n then Some (at_pc (new_node s v n) t (PushLoad n)) else None
      | _ => None
      end
  | CallPop t => match pcs s t with Idle => Some (at_pc s t PopHead) | _ => None end
  | Step t => match Push_step m s t with Some s' => Some s' | None => TryPop_step m s t end
  | Return t r =>
      match pcs s t with
      | Returning r' => if decide (r = r') then Some (at_pc s t Idle) else None
      | _ => None
      end
  end.
End steps.

(** The constructor: one dummy node, with the value [T{}]. *)
Definition new_classic : ClassicMSQueue :=
  MkClassic (NP (Some 0) 0) (NP (Some 0) 0) (λ _, NP None 0) (λ _, 0) 1 [] (λ _, Idle).

(** [~ClassicMSQueue]: [head] goes along the nodes, each deleted behind it.  The fuel
    bounds the iterations; a deleted node met again would be undefined. *)
Fixpoint destroy (fuel : nat) (s : ClassicMSQueue) : res ClassicMSQueue :=
  match node_ptr (head s), fuel with
  | None, _ => Ret s
  | Some _, 0 => NoFuel
  | Some to_delete, S fuel' =>
      if decide (to_delete ∈ freed s) then Ub
      else destroy fuel'
        (MkClassic (nxt s to_delete) (tail s) (nxt s) (value s) (fresh s) (to_delete :: freed s) (pcs s))
  end.

Definition classic_queue (m : memory) : lts ClassicMSQueue classic_label :=
  Lts (λ s, s = new_classic) (classic_step m).

Definition classic_event (l : classic_label) : list (event qop qres) :=
  match l with
  | CallPush t v _ => [EvCall t (OPush v)]
  | CallPop t => [EvCall t OPop]
  | Return t r => [EvReturn t r]
  | Step _ => []
  end.

(** ** The simulation relation, when no node is reused *)

Abbreviation lqueue := (lstate (list T) qop qres).

Definition next_of (s : ClassicMSQueue) (n : node) : option node := node_ptr (nxt s n).

(** The node a thread has to itself: not linked yet, or taken off and not deleted. *)
Definition owned (p : classic_pc) : option node :=
  match p with
  | PushLoad n | PushNext n _ | PushCheck n _ _ | PushLink n _ _ | PushHelp n _ _ => Some n
  | PopDelete h _ => node_ptr h
  | _ => None
  end.

(** [p] points to a node of [L]. *)
Definition within (p : NodePointer) (L : list node) : Prop := ∃ n, node_ptr p = Some n ∧ n ∈ L.

(** [x] is the successor of the node [p] points to. *)
Definition leads (s : ClassicMSQueue) (p x : NodePointer) : Prop :=
  ∃ n y, node_ptr p = Some n ∧ node_ptr x = Some y ∧ next_of s n = Some y.

(** [L] are the linked nodes, [D] those already taken off, [P] those and the first.  A
    thread knows of the node it has read as [head] that [tail] is past it, or was it. *)
Definition known (s : ClassicMSQueue) (L P D : list node) (seen : list qres) (p : classic_pc)
    (st : astatus qop qres) : Prop :=
  let fresh_node n := n ∉ L ∧ n < fresh s ∧ next_of s n = None ∧ st = APending (OPush (value s n)) in
  let past h := node_ptr (tail s) ≠ node_ptr h in
  match p with
  | Idle => st = AIdle
  | PushLoad n => fresh_node n
  | PushNext n o => fresh_node n ∧ within o L
  | PushCheck n o x => fresh_node n ∧ within o L ∧ (node_ptr x = None ∨ leads s o x)
  | PushLink n o x => fresh_node n ∧ within o L ∧ node_ptr x = None
  | PushHelp n o x => fresh_node n ∧ within o L ∧ leads s o x
  | PushSwing n o => within o L ∧ leads s o (NP (Some n) 0) ∧ st = ADone RPushed
  | PopHead => st = APending OPop
  | PopTail h => within h P ∧ st = APending OPop
  | PopNext h o => within h P ∧ (node_ptr o = node_ptr h ∨ past h) ∧ st = APending OPop
  | PopCheck h o x => within h P ∧ (node_ptr o = node_ptr h ∨ past h) ∧
      (leads s h x ∨ (node_ptr x = None ∧ node_ptr o = node_ptr h ∧ RPopped None ∈ seen)) ∧
      st = APending OPop
  | PopHelp o x => within o P ∧ leads s o x ∧ st = APending OPop
  | PopValue h x => within h P ∧ past h ∧ leads s h x ∧ st = APending OPop
  | PopCas h x v => within h P ∧ past h ∧ leads s h x ∧ st = APending OPop ∧
      ∃ y, node_ptr x = Some y ∧ value s y = v
  | PopDelete h v => (∃ n, node_ptr h = Some n ∧ n ∈ D ∧ n ∉ freed s) ∧ st = ADone (RPopped (Some v))
  | Returning r => st = ADone r
  | Broken => False
  end.

(** The linked nodes: those taken off, the first one [hd], and those of the queue. *)
Record nodes_ok (s : ClassicMSQueue) (pre : list node) (hd : node) (suf : list node) : Prop := NodesOk {
  no_chain : chain (next_of s) (pre ++ hd :: suf);
  no_nodup : NoDup (pre ++ hd :: suf);
  no_fresh : ∀ n, n ∈ pre ++ hd :: suf → n < fresh s;
  no_head : node_ptr (head s) = Some hd;
  no_tail : within (tail s) (hd :: suf);
  no_freed : freed s ⊆ pre;
  no_once : NoDup (freed s)
}.

Record classic_rel (s : ClassicMSQueue) (b : lqueue) (pre : list node) (hd : node) (suf : list node) :
    Prop := ClassicRel {
  cr_nodes : nodes_ok s pre hd suf;
  cr_queue : aval (l_at b) = value s <$> suf;
  cr_known : ∀ t, known s (pre ++ hd :: suf) (pre ++ [hd]) pre (l_seen b t) (pcs s t) (ast (l_at b) t);
  cr_owned : ∀ t u n, owned (pcs s t) = Some n → owned (pcs s u) = Some n → t = u;
  cr_accounted : ∀ n, n < fresh s → n ∈ hd :: suf ∨ n ∈ freed s ∨ ∃ t, owned (pcs s t) = Some n
}.

(** ** Facts about the nodes *)

Section nodes.
  Implicit Types s : ClassicMSQueue.

Lemma within_mono p L L' : L ⊆ L' → within p L → within p L'.
Proof. intros Hs (n & Hn & Hin). exists n. auto. Qed.

Lemma leads_in s p x pre hd suf :
  nodes_ok s pre hd suf → within p (pre ++ hd :: suf) → leads s p x → within x (pre ++ hd :: suf).
Proof.
  intros Hn (n & Hp & Hin) (m & y & Hp' & Hx & Hy). simplify_eq. exists y. split; [done|].
  by eapply chain_next_in; [apply Hn|..].
Qed.

(** What follows a node is not taken off, nor the first. *)
Lemma next_in_suf s pre hd suf n y :
  nodes_ok s pre hd suf → n ∈ hd :: suf → next_of s n = Some y → y ∈ suf.
Proof.
  intros [Hc Hnd _ _ _ _ _] Hin Hy. apply list_elem_of_split in Hin as (l1 & l2 & E).
  assert (pre ++ hd :: suf = (pre ++ l1) ++ n :: l2) as EL by (by rewrite E, <-(assoc (++))).
  rewrite EL in Hc. apply chain_split in Hc. rewrite Hy in Hc. destruct l2 as [|z l2]; simplify_eq/=.
  destruct l1; simplify_eq/=; [by left|]. apply elem_of_app. right. right. by left.
Qed.

(** A node up to the first with no successor is the first, and the queue is empty. *)
Lemma last_is_head s pre hd suf n :
  nodes_ok s pre hd suf → n ∈ pre ++ [hd] → next_of s n = None → n = hd ∧ suf = [].
Proof.
  intros [Hc Hnd _ _ _ _ _] Hin Hn.
  destruct (chain_last _ _ n Hc) as [L' E]; [by apply upto_linked|done|].
  destruct suf as [|y suf _] using rev_ind.
  - by apply app_inj_tail in E as [_ ->].
  - exfalso. rewrite app_comm_cons, (assoc (++)) in E. apply app_inj_tail in E as [_ <-].
    rewrite app_comm_cons, (assoc (++)) in Hnd. apply NoDup_app in Hnd as (_ & Hd & _).
    apply (Hd y); [by apply upto_linked|by left].
Qed.

(** When [tail] is past a node up to the first, that node has a successor. *)
Lemma past_has_next s pre hd suf h n :
  nodes_ok s pre hd suf → node_ptr h = Some n → n ∈ pre ++ [hd] →
  node_ptr (tail s) ≠ node_ptr h → is_Some (next_of s n).
Proof.
  intros Hn Hh Hin Hp. destruct (next_of s n) eqn:E; [eauto|exfalso].
  destruct (last_is_head _ _ _ _ _ Hn Hin E) as [-> ->].
  destruct (no_tail _ _ _ _ Hn) as (m & Hm & Hmi). apply list_elem_of_singleton in Hmi as ->.
  congruence.
Qed.

(** A node up to the first is not after it. *)
Lemma upto_not_suf s pre hd suf n : nodes_ok s pre hd suf → n ∈ pre ++ [hd] → n ∉ suf.
Proof.
  intros Hn Hin Hs. pose proof (no_nodup _ _ _ _ Hn) as Hnd.
  change (hd :: suf) with ([hd] ++ suf) in Hnd. rewrite (assoc (++)) in Hnd.
  apply NoDup_app in Hnd as (_ & Hd & _). by apply (Hd n).
Qed.

(** What a thread knows stays true when nodes are linked, allocated, taken off or
    deleted by others. *)
Lemma known_mono s s' L L' P P' D D' seen p st :
  L ⊆ L' → P ⊆ P' → D ⊆ D' → P ⊆ L → (∀ n, n ∈ L → n < fresh s) →
  (∀ n y, n ∈ L → next_of s n = Some y → next_of s' n = Some y ∧ y ∈ L) →
  (∀ n, n < fresh s → value s' n = value s n) → fresh s <= fresh s' →
  (∀ n, n ∈ P → node_ptr (tail s) ≠ Some n → node_ptr (tail s') ≠ Some n) →
  (∀ n, owned p = Some n → n ∈ D → n ∉ freed s → n ∉ freed s') →
  (∀ n, owned p = Some n → n ∉ L → n < fresh s → next_of s n = None → n ∉ L' ∧ next_of s' n = None) →
  known s L P D seen p st → known s' L' P' D' seen p st.
Proof.
  intros HL HP HD HPL HLf Hn Hv Hf Ht Hfr Hpriv.
  assert (∀ n, owned p = Some n →
    (n ∉ L ∧ n < fresh s ∧ next_of s n = None ∧ st = APending (OPush (value s n))) →
    n ∉ L' ∧ n < fresh s' ∧ next_of s' n = None ∧ st = APending (OPush (value s' n))) as Hpend.
  { intros n Ho (H1 & H2 & H3 & ->). destruct (Hpriv n Ho H1 H2 H3). rewrite Hv by done.
    repeat split; auto. lia. }
  assert (∀ q, within q L → within q L') as HwL by (intros q; by apply within_mono).
  assert (∀ q, within q P → within q P') as HwP by (intros q; by apply within_mono).
  assert (∀ q, within q P → within q L) as HwPL by (intros q; by apply within_mono).
  assert (∀ q x, within q L → leads s q x → leads s' q x) as Hl.
  { intros q x (n & Hq & Hin) (m & y & Hq' & Hx & Hy). simplify_eq. exists n, y. naive_solver. }
  assert (∀ q, within q P → node_ptr (tail s) ≠ node_ptr q → node_ptr (tail s') ≠ node_ptr q) as Hp.
  { intros q (n & Hq & Hin). rewrite Hq. by apply Ht. }
  destruct p; simpl in *; try done.
  - by apply Hpend.
  - intros (H1 & H2). auto.
  - intros (H1 & H2 & [?|?]); auto 10.
  - intros (H1 & H2 & H3). auto.
  - intros (H1 & H2 & H3). auto 10.
  - intros (H1 & H2 & H3). auto.
  - intros (H1 & H2). auto.
  - intros (H1 & [?|?] & H3); auto 10.
  - intros (H1 & [?|?] & [?|?] & H4); auto 10.
  - intros (H1 & H2 & H3). auto 10.
  - intros (H1 & H2 & H3 & H4). auto 10.
  - intros (H1 & H2 & H3 & H4 & y & Hy & Hvy). do 4 (split; [auto|]). exists y. split; [done|].
    rewrite Hv; [done|]. destruct H1 as (n & Hh & Hin), H3 as (m & z & Hm & Hz & Hmz). simplify_eq.
    apply HLf. by eapply (Hn n); [apply HPL|].
  - intros ((n & H1 & H2 & H3) & H4). split; [|done]. exists n. eauto 10.
Qed.

(** Where [tail] may go. *)
Record advances s (q : NodePointer) (pre : list node) (hd : node) (suf : list node) : Prop := Advances {
  adv_in : within q (hd :: suf);
  adv_past : ∀ n, n ∈ pre ++ [hd] → node_ptr (tail s) ≠ Some n → node_ptr q ≠ Some n
}.

Lemma advances_refl s pre hd suf : nodes_ok s pre hd suf → advances s (tail s) pre hd suf.
Proof. intros Hn. split; [apply Hn|done]. Qed.

(** A compare-exchange that swings [tail] to the successor of the node expected. *)
Lemma advances_cas s o x c pre hd suf :
  nodes_ok s pre hd suf → leads s o x → advances s (tail (cas_tail s o (NP (node_ptr x) c))) pre hd suf.
Proof.
  intros Hn (n & y & Ho & Hx & Hy). unfold cas_tail. case_decide as E; [|by apply advances_refl].
  destruct (no_tail _ _ _ _ Hn) as (m & Hm & Hin). rewrite E in Hm. simplify_eq.
  pose proof (next_in_suf _ _ _ _ _ _ Hn Hin Hy) as Hys. split; simpl; rewrite Hx.
  - exists y. split; [done|]. by right.
  - intros k Hk _ [= ->]. by apply (upto_not_suf _ _ _ _ _ Hn Hk).
Qed.

(** A step of [t] that links, allocates, takes off and deletes nothing. *)
Lemma classic_local s s' b b' pre hd suf t p :
  classic_rel s b pre hd suf → nxt s' = nxt s → value s' = value s → fresh s' = fresh s →
  head s' = head s → freed s' = freed s → advances s (tail s') pre hd suf →
  pcs s' = (pcs s)⟦t ↦ p⟧ → aval (l_at b') = aval (l_at b) →
  (∀ u, u ≠ t → ast (l_at b') u = ast (l_at b) u ∧ l_seen b' u = l_seen b u) →
  owned p = owned (pcs s t) →
  known s (pre ++ hd :: suf) (pre ++ [hd]) pre (l_seen b' t) p (ast (l_at b') t) ∨
    known s' (pre ++ hd :: suf) (pre ++ [hd]) pre (l_seen b' t) p (ast (l_at b') t) →
  classic_rel s' b' pre hd suf.
Proof.
  intros [H1 H2 H3 H4 H5] En Ev Ef Eh Efr [Ht Htp] Ep Eq Ea Ho Hk.
  assert (∀ u, owned (pcs s' u) = owned (pcs s u)) as Eo by (intros u; rewrite Ep; by upd_cases).
  assert (∀ n, next_of s' n = next_of s n) as Enx by (intros n; unfold next_of; by rewrite En).
  assert (∀ seen q st, known s (pre ++ hd :: suf) (pre ++ [hd]) pre seen q st →
    known s' (pre ++ hd :: suf) (pre ++ [hd]) pre seen q st) as Hsame.
  { intros seen q st. apply known_mono; rewrite ?Ev, ?Ef, ?Efr; try done.
    - intros n. apply upto_linked.
    - apply H1.
    - intros n y Hn Hy. rewrite Enx. split; [done|]. by eapply chain_next_in; [apply H1|..].
    - intros n. by rewrite Enx. }
  split.
  - destruct H1 as [N1 N2 N3 N4 N5 N6 N7]. split; rewrite ?Ef, ?Eh, ?Efr; try done.
    apply (chain_ext (next_of s)); [|done]. intros n _. apply Enx.
  - by rewrite Eq, Ev.
  - intros u. rewrite Ep. destruct (decide (t = u)) as [<-|Hne].
    + rewrite upd_eq. destruct Hk; [by apply Hsame|done].
    + rewrite upd_ne by done. destruct (Ea u) as [-> ->]; [done|]. by apply Hsame.
  - intros u w n. rewrite !Eo. apply H4.
  - intros n. rewrite Ef, Efr. setoid_rewrite Eo. apply H5.
Qed.

(** The two cases of a point update of the threads, for what they own. *)
Lemma owned_upd (f : tid → classic_pc) t p :
  (∀ u w n, owned (f u) = Some n → owned (f w) = Some n → u = w) →
  (∀ n u, u ≠ t → owned p = Some n → owned (f u) ≠ Some n) →
  ∀ u w n, owned (f⟦t ↦ p⟧ u) = Some n → owned (f⟦t ↦ p⟧ w) = Some n → u = w.
Proof.
  intros H Hp u w n. destruct (decide (t = u)) as [<-|Hu], (decide (t = w)) as [<-|Hw];
    rewrite ?upd_eq, ?(upd_ne _ t u), ?(upd_ne _ t w) by done; try done.
  - intros H1 H2. by destruct (Hp n w).
  - intros H1 H2. by destruct (Hp n u).
  - apply H.
Qed.

(** An owner other than [t] keeps its node. *)
Lemma classic_owner_upd (f : tid → classic_pc) t p n :
  (∃ u, owned (f u) = Some n) →
  owned (f t) = Some n ∨ ∃ u, owned (f⟦t ↦ p⟧ u) = Some n.
Proof.
  intros [u Hu]. destruct (decide (t = u)) as [<-|Hne]; [by left|]. right. exists u. by rewrite upd_ne.
Qed.

(** The compare-exchange that links a node: the push takes effect. *)
Lemma classic_link s b pre hd suf t n o x c :
  classic_rel s b pre hd suf → pcs s t = PushLink n o x → node_ptr (nxt s c) = None →
  node_ptr o = Some c →
  classic_rel (at_pc (set_next s c (NP (Some n) (bump x))) t (PushSwing n o))
    (MkLState (MkAState (aval (l_at b) ++ [value s n]) (ast (l_at b))⟦t ↦ ADone RPushed⟧) (l_seen b))
    pre hd (suf ++ [n]).
Proof.
  intros [H1 H2 H3 H4 H5] Epc Ec Eo. pose proof (H3 t) as Hpc. rewrite Epc in Hpc.
  destruct Hpc as ((Hn1 & Hn2 & Hn3 & Ha) & (c' & Eo' & Ho) & _). simplify_eq.
  assert (pre ++ hd :: (suf ++ [n]) = (pre ++ hd :: suf) ++ [n]) as EL by (by rewrite <-(assoc (++))).
  assert (∀ m, m ∈ pre ++ hd :: (suf ++ [n]) ↔ m ∈ pre ++ hd :: suf ∨ m = n) as Hin.
  { intros m. by rewrite EL, elem_of_app, list_elem_of_singleton. }
  set (s' := at_pc _ _ _).
  assert (∀ m, next_of s' m = (next_of s)⟦c ↦ Some n⟧ m) as Enx.
  { intros m. unfold next_of, s'. simpl. by upd_cases. }
  destruct H1 as [N1 N2 N3 N4 N5 N6 N7]. split; [split|..]; simpl; try done.
  - rewrite EL. destruct (chain_last _ _ c N1 Ho Ec) as [L' E]. rewrite E in *.
    apply (chain_ext ((next_of s)⟦c ↦ Some n⟧)); [intros m _; apply Enx|].
    rewrite <-(assoc (++)). by apply chain_link.
  - rewrite EL. apply NoDup_app. split; [done|]. split; [|apply NoDup_singleton].
    intros m Hm Hmn. apply list_elem_of_singleton in Hmn as ->. done.
  - intros m [Hm| ->]%Hin; [by apply N3|done].
  - apply (within_mono _ (hd :: suf)); [|done]. intros m. rewrite !elem_of_cons, elem_of_app. tauto.
  - by rewrite H2, fmap_app.
  - intros u. destruct (decide (t = u)) as [<-|Hne].
    + rewrite !upd_eq. simpl. split; [|split; [|done]].
      * exists c. split; [done|]. apply Hin. by left.
      * exists c, n. rewrite Enx. by rewrite upd_eq.
    + rewrite !upd_ne by done. eapply known_mono; [..|apply H3]; simpl; try done.
      * intros m Hm. apply Hin. by left.
      * intros m. apply upto_linked.
      * intros m y Hm Hy. rewrite Enx. split; [|by eapply chain_next_in].
        rewrite upd_ne; [done|]. intros <-. unfold next_of in Hy. congruence.
      * intros m Hp Hm1 Hm2 Hm3. assert (m ≠ n).
        { intros ->. apply Hne. eapply H4; [by rewrite Epc|done]. }
        rewrite Hin, Enx. split; [naive_solver|]. rewrite upd_ne; [done|]. intros ->. done.
  - by apply owned_upd.
  - intros m Hm. destruct (H5 m Hm) as [Hl|[?|Hu]]; [left; set_solver|auto|].
    apply (classic_owner_upd _ t (PushSwing n o)) in Hu as [Hu|?]; [|auto].
    rewrite Epc in Hu. simplify_eq/=. left. set_solver.
Qed.

(** A call of [Push] allocates a node. *)
Lemma classic_alloc s b pre hd suf t v :
  classic_rel s b pre hd suf → pcs s t = Idle →
  classic_rel (at_pc (new_node s v (fresh s)) t (PushLoad (fresh s)))
    (MkLState (at_status (l_at b) t (APending (OPush v))) (l_seen b)⟦t ↦ []⟧) pre hd suf.
Proof.
  intros [H1 H2 H3 H4 H5] Epc. destruct H1 as [N1 N2 N3 N4 N5 N6 N7].
  assert (fresh s ∉ pre ++ hd :: suf) as Hfr by (intros Hin%N3; lia).
  assert (∀ m, m ∈ pre → m ∈ pre ++ hd :: suf) as Hpre by (intros m ?; apply elem_of_app; by left).
  assert (∀ m u, owned (pcs s u) = Some m → m < fresh s) as Hpf.
  { intros m u Hm. pose proof (H3 u) as Hpc. destruct (pcs s u); simplify_eq/=; naive_solver. }
  set (s' := at_pc _ _ _).
  assert (∀ m, m ≠ fresh s → next_of s' m = next_of s m) as Hnx.
  { intros m Hm. unfold next_of, s'. simpl. by rewrite upd_ne. }
  assert (∀ m, m ∈ filter (λ x, x ≠ fresh s) (freed s) → m ∈ freed s) as Hff.
  { intros m. rewrite list_elem_of_filter. tauto. }
  split; [split|..]; simpl; try done.
  - apply (chain_ext (next_of s)); [|done]. intros m Hm. apply Hnx. by intros ->.
  - intros m Hm%N3. lia.
  - intros m Hm. by apply N6, Hff.
  - by apply NoDup_filter.
  - rewrite H2. apply list_fmap_ext. intros i m Hm. rewrite upd_ne; [done|]. intros <-.
    apply Hfr. apply elem_of_app. right. right. by apply list_elem_of_lookup_2 in Hm.
  - intros u. destruct (decide (t = u)) as [<-|Hne].
    + rewrite !upd_eq. simpl. unfold next_of. simpl. rewrite !upd_eq. split; [done|]. split; [lia|done].
    + rewrite !upd_ne by done. eapply known_mono; [..|apply H3]; simpl; try done.
      * intros m. apply upto_linked.
      * intros m x Hm Hx. split; [|by eapply chain_next_in]. rewrite Hnx; [done|]. by intros ->.
      * intros m Hm. rewrite upd_ne; [done|lia].
      * lia.
      * intros m _ _ Hm Hm'. by apply Hm, Hff.
      * intros m Hp Hm1 Hm2 Hm3. rewrite Hnx by lia. done.
  - apply owned_upd; [done|]. intros m u Hu [= <-] Hm. apply Hpf in Hm. lia.
  - intros m Hm. destruct (decide (m = fresh s)) as [->|Hne].
    { right; right. exists t. by rewrite upd_eq. }
    destruct (H5 m) as [?|[?|Hu]]; [lia|auto|right; left; by apply list_elem_of_filter|].
    apply (classic_owner_upd _ t (PushLoad (fresh s))) in Hu as [Hu|?]; [by rewrite Epc in Hu|auto].
Qed.

(** The compare-exchange that moves [head]: the pop takes effect. *)
Lemma classic_pop s b pre hd suf t h x v :
  classic_rel s b pre hd suf → pcs s t = PopCas h x v → head s = h →
  ∃ y suf', suf = y :: suf' ∧ aval (l_at b) = v :: (value s <$> suf') ∧
  classic_rel (at_pc (set_head s (NP (node_ptr x) (bump h))) t (PopDelete h v))
    (MkLState (MkAState (value s <$> suf') (ast (l_at b))⟦t ↦ ADone (RPopped (Some v))⟧) (l_seen b))
    (pre ++ [hd]) y suf'.
Proof.
  intros [H1 H2 H3 H4 H5] Epc <-. pose proof (H3 t) as Hpc. rewrite Epc in Hpc.
  destruct Hpc as (_ & Hp & (n & y & Hn & Hx & Hy) & Hst & y' & Hy' & Hv). simplify_eq.
  pose proof H1 as [N1 N2 N3 N4 N5 N6 N7]. simplify_eq.
  pose proof (chain_split _ _ _ _ N1) as Hs. rewrite Hy in Hs. destruct suf as [|z suf']; [done|].
  simpl in Hs. injection Hs as <-. exists y, suf'. split; [done|]. split; [by rewrite H2|].
  assert ((pre ++ [n]) ++ y :: suf' = pre ++ n :: y :: suf') as EL by (by rewrite <-(assoc (++))).
  assert (n ∉ pre) as Hnp.
  { apply NoDup_app in N2 as (_ & Hd & _). intros Hin. apply (Hd n Hin). by left. }
  split; [split|..]; simpl; rewrite ?EL; try done.
  - destruct N5 as (m & Hm & Hin). exists m. split; [done|].
    apply elem_of_cons in Hin as [->|?]; [|done]. congruence.
  - intros m Hm. apply elem_of_app. left. by apply N6.
  - intros u. destruct (decide (t = u)) as [<-|Hne].
    + rewrite !upd_eq. split; [|done]. exists n. split; [done|].
      split; [apply elem_of_app; right; by left|]. intros Hf. by apply Hnp, N6.
    + rewrite !upd_ne by done. eapply known_mono; [..|apply H3]; simpl; try done.
      * intros m. rewrite !elem_of_app. tauto.
      * intros m. rewrite elem_of_app. tauto.
      * intros m. apply upto_linked.
      * intros m z Hm Hz. split; [done|]. by eapply chain_next_in.
  - apply owned_upd; [done|]. intros m u Hu Hm Hm'. simpl in Hm. simplify_eq.
    pose proof (H3 u) as Hku. destruct (pcs s u); simplify_eq/=; try naive_solver.
    all: destruct Hku as ((Hn1 & _) & _); apply Hn1; rewrite elem_of_app; right; by left.
  - intros m Hm. destruct (H5 m Hm) as [[->|?]%elem_of_cons|[?|Hu]]; [|by left|auto|].
    + right; right. exists t. by rewrite upd_eq.
    + eapply classic_owner_upd in Hu as [Hu|?]; [by rewrite Epc in Hu|by right; right].
Qed.

(** The node taken off is deleted. *)
Lemma classic_delete s b pre hd suf t h v :
  classic_rel s b pre hd suf → pcs s t = PopDelete h v →
  classic_rel (delete_node s t h (Returning (RPopped (Some v)))) b pre hd suf.
Proof.
  intros [H1 H2 H3 H4 H5] Epc. pose proof (H3 t) as Hpc. rewrite Epc in Hpc.
  destruct Hpc as ((n & Hn & Hin & Hnf) & Ha). unfold delete_node.
  rewrite Hn, decide_False by done. destruct H1 as [N1 N2 N3 N4 N5 N6 N7].
  split; [split|..]; simpl; try done.
  - intros m [->|?]%elem_of_cons; [done|by apply N6].
  - by apply NoDup_cons.
  - intros u. destruct (decide (t = u)) as [<-|Hne]; [by rewrite upd_eq|].
    rewrite upd_ne by done. eapply known_mono; [..|apply H3]; simpl; try done.
    + intros m. apply upto_linked.
    + intros m y Hm Hy. split; [done|]. by eapply chain_next_in.
    + intros m Hm _ Hf [->|?]%elem_of_cons; [|done]. apply Hne. eapply H4; [by rewrite Epc|done].
  - by apply owned_upd.
  - intros m Hm. destruct (H5 m Hm) as [?|[?|Hu]]; [by left|right; left; by right|].
    apply (classic_owner_upd _ t (Returning (RPopped (Some v)))) in Hu as [Hu|?]; [|auto].
    rewrite Epc in Hu. simplify_eq/=. right; left. by left.
Qed.

(** ** Each step is matched *)

Definition classic_ok s (b : lqueue) : Prop := ∃ pre hd suf, classic_rel s b pre hd suf.

Definition classic_matched : ClassicMSQueue → lqueue → list (event qop qres) → Prop :=
  matching (late []) levent classic_ok.

Lemma classic_stays s s' b pre hd suf t p :
  classic_rel s b pre hd suf → nxt s' = nxt s → value s' = value s → fresh s' = fresh s →
  head s' = head s → freed s' = freed s → advances s (tail s') pre hd suf →
  pcs s' = (pcs s)⟦t ↦ p⟧ → owned p = owned (pcs s t) →
  known s (pre ++ hd :: suf) (pre ++ [hd]) pre (l_seen b t) p (ast (l_at b) t) ∨
    known s' (pre ++ hd :: suf) (pre ++ [hd]) pre (l_seen b t) p (ast (l_at b) t) →
  classic_matched s' b [].
Proof.
  intros. apply matching_local. exists pre, hd, suf. by eapply (classic_local s s' b b pre hd suf t p).
Qed.

Lemma deref_within s t p L k :
  within p L → ∃ n, node_ptr p = Some n ∧ n ∈ L ∧ deref NeverReusing s t p k = k n.
Proof.
  intros (n & Hp & Hin). exists n. unfold deref. rewrite Hp. split; [done|]. split; [done|].
  by rewrite decide_False by (by intros [? _]).
Qed.

Lemma cas_tail_same s o q :
  nxt (cas_tail s o q) = nxt s ∧ value (cas_tail s o q) = value s ∧
  fresh (cas_tail s o q) = fresh s ∧ head (cas_tail s o q) = head s ∧
  freed (cas_tail s o q) = freed s ∧ pcs (cas_tail s o q) = pcs s.
Proof. unfold cas_tail. by case_decide. Qed.

(** A helping compare-exchange on [tail], and on to [p]. *)
Lemma classic_swing s b pre hd suf t o x c p :
  classic_rel s b pre hd suf → leads s o x → owned p = owned (pcs s t) →
  known s (pre ++ hd :: suf) (pre ++ [hd]) pre (l_seen b t) p (ast (l_at b) t) →
  classic_matched (at_pc (cas_tail s o (NP (node_ptr x) c)) t p) b [].
Proof.
  intros Hr Hl Ho Hk. destruct (cas_tail_same s o (NP (node_ptr x) c)) as (E1 & E2 & E3 & E4 & E5 & E6).
  apply (classic_stays s _ b pre hd suf t p); simpl; rewrite ?E6; try done; [|by left].
  by apply advances_cas; [apply Hr|].
Qed.

(** A step that only moves its thread. *)
Lemma classic_goto s b pre hd suf t p :
  classic_rel s b pre hd suf → owned p = owned (pcs s t) →
  known s (pre ++ hd :: suf) (pre ++ [hd]) pre (l_seen b t) p (ast (l_at b) t) →
  classic_matched (at_pc s t p) b [].
Proof.
  intros Hr Ho Hk. pose proof (advances_refl _ _ _ _ (cr_nodes _ _ _ _ _ Hr)).
  apply (classic_stays s _ b pre hd suf t p); auto.
Qed.

Lemma classic_push_sim s b pre hd suf t s' :
  classic_rel s b pre hd suf → Push_step NeverReusing s t = Some s' → classic_matched s' b [].
Proof.
  intros Hr Hstep. pose proof (cr_nodes _ _ _ _ _ Hr) as Hn.
  pose proof (cr_known _ _ _ _ _ Hr t) as Hpc.
  pose proof (λ p, classic_goto s b pre hd suf t p Hr) as Hlocal.
  unfold Push_step in Hstep.
  destruct (pcs s t) as [|n|n o|n o x|n o x|n o x|n o| | | | | | | | | |] eqn:Epc; try done;
    injection Hstep as <-.
  - apply Hlocal; [by rewrite ?Epc|]. split; [done|].
    apply (within_mono _ (hd :: suf)); [set_solver|apply Hn].
  - destruct Hpc as [Hf Ho].
    destruct (deref_within s t o _ (λ m, at_pc s t (PushCheck n o (nxt s m))) Ho) as (m & Hm & _ & ->).
    apply Hlocal; [by rewrite ?Epc|]. split; [done|]. split; [done|].
    destruct (node_ptr (nxt s m)) as [y|] eqn:E; [right|by left]. exists m, y. auto.
  - destruct Hpc as (Hf & Ho & Hx). apply Hlocal; [by case_decide; [destruct (node_ptr x)|]|].
    case_decide; [|done].
    destruct Hx as [Hx|Hx]; [by rewrite Hx|]. destruct (node_ptr x) eqn:E; [done|].
    destruct Hx as (? & ? & _ & ? & _). congruence.
  - destruct Hpc as (Hf & Ho & Hx).
    edestruct (deref_within s t o) as (m & Hm & Hin & ->); [done|]. case_decide as E.
    + subst x. destruct Hf as (_ & _ & _ & Ha).
      eapply (matching_step (late []) levent classic_ok _ b (LAct (ATake t RPushed))).
      { simpl. by rewrite Ha. }
      exists pre, hd, (suf ++ [n]). by eapply classic_link.
    + apply Hlocal; [by rewrite ?Epc|done].
  - destruct Hpc as (Hf & Ho & Hx). eapply classic_swing; [done|done|by rewrite ?Epc|done].
  - destruct Hpc as (Ho & Hx & Ha).
    apply (classic_swing s b pre hd suf t o (NP (Some n) 0)); [done..|by rewrite ?Epc|done].
Qed.

(** [TryPop] reads the node after the one it took for the first: if there is none, the
    queue was empty then. *)
Lemma classic_pop_next_sim s b pre hd suf t h o :
  classic_rel s b pre hd suf → pcs s t = PopNext h o →
  classic_matched (deref NeverReusing s t h (λ n, at_pc s t (PopCheck h o (nxt s n)))) b [].
Proof.
  intros Hr Epc. pose proof (cr_nodes _ _ _ _ _ Hr) as Hn.
  pose proof (advances_refl _ _ _ _ Hn) as Hadv. pose proof (cr_known _ _ _ _ _ Hr t) as Hpc.
  pose proof (λ p, classic_goto s b pre hd suf t p Hr) as Hlocal. rewrite Epc in Hpc.
  destruct Hpc as (Hh & Hp & Ha). edestruct (deref_within s t h) as (m & Hm & Hin & ->); [done|].
  destruct (node_ptr (nxt s m)) as [y|] eqn:E.
  { apply Hlocal; [by rewrite ?Epc|]. do 2 (split; [done|]). split; [left|done]. exists m, y. auto. }
  destruct (last_is_head _ _ _ _ _ Hn Hin E) as [-> ->].
  eapply (matching_step (late []) levent classic_ok _ b (LSee t (RPopped None))).
  { cbn [lts_step late lstep]. rewrite Ha, decide_True; [done|]. by rewrite (cr_queue _ _ _ _ _ Hr). }
  exists pre, hd, []. eapply (classic_local s _ b _ pre hd [] t (PopCheck h o (nxt s hd))); try done.
  - intros u Hu. simpl. by rewrite upd_ne.
  - by rewrite ?Epc.
  - left. simpl. rewrite upd_eq. do 2 (split; [done|]). split; [right|done]. split; [done|].
    split; [|by left]. destruct Hp as [?|Hp]; [done|exfalso].
    destruct (past_has_next _ _ _ _ _ _ Hn Hm Hin Hp) as [? Hy]. unfold next_of in Hy. congruence.
Qed.

(** The two tests of [TryPop]: an empty result takes effect in hindsight. *)
Lemma classic_pop_check_sim s b pre hd suf t h o x :
  classic_rel s b pre hd suf → pcs s t = PopCheck h o x →
  classic_matched (at_pc s t
    (if decide (h = head s)
     then if decide (node_ptr h = node_ptr o)
          then match node_ptr x with None => Returning (RPopped None) | Some _ => PopHelp o x end
          else PopValue h x
     else PopHead)) b [].
Proof.
  intros Hr Epc. pose proof (cr_nodes _ _ _ _ _ Hr) as Hn.
  pose proof (advances_refl _ _ _ _ Hn) as Hadv. pose proof (cr_known _ _ _ _ _ Hr t) as Hpc.
  pose proof (λ p, classic_goto s b pre hd suf t p Hr) as Hlocal. rewrite Epc in Hpc.
  destruct Hpc as (Hh & Hp & Hx & Ha).
  case_decide as E; [|by apply Hlocal; [rewrite ?Epc|]]. case_decide as Eo.
  - destruct (node_ptr x) as [y|] eqn:Ex.
    + apply Hlocal; [by rewrite ?Epc|]. destruct Hx as [(m & z & Hm & Hz & Hmz)|[? _]]; [|congruence].
      destruct Hh as (k & Hk & Hin). split; [exists k; by rewrite <-Eo|].
      split; [exists m, z; by rewrite <-Eo|done].
    + destruct Hx as [(m & z & _ & ? & _)|(_ & _ & Hs)]; [congruence|].
      eapply (matching_step (late []) levent classic_ok _ b (LLate t (RPopped None))).
      { simpl. by rewrite Ha, decide_True. }
      exists pre, hd, suf.
      eapply (classic_local s _ b _ pre hd suf t (Returning (RPopped None))); try done.
      * intros u Hu. simpl. by rewrite upd_ne.
      * by rewrite ?Epc.
      * left. simpl. by rewrite upd_eq.
  - apply Hlocal; [by rewrite ?Epc|]. split; [done|]. split; [destruct Hp; congruence|].
    split; [|done]. destruct Hx as [?|(_ & ? & _)]; [done|congruence].
Qed.

Lemma classic_pop_sim s b pre hd suf t s' :
  classic_rel s b pre hd suf → TryPop_step NeverReusing s t = Some s' → classic_matched s' b [].
Proof.
  intros Hr Hstep. pose proof (cr_nodes _ _ _ _ _ Hr) as Hn.
  pose proof (cr_known _ _ _ _ _ Hr t) as Hpc.
  pose proof (λ p, classic_goto s b pre hd suf t p Hr) as Hlocal.
  unfold TryPop_step in Hstep.
  destruct (pcs s t) as [| | | | | | | |h|h o|h o x|o x|h x|h x v|h v| |] eqn:Epc; try done;
    injection Hstep as <-.
  - apply Hlocal; [by rewrite ?Epc|]. split; [|done]. exists hd. split; [apply Hn|].
    apply elem_of_app. right. by left.
  - destruct Hpc as [Hh Ha]. apply Hlocal; [by rewrite ?Epc|]. split; [done|]. split; [|done].
    destruct (decide (node_ptr (tail s) = node_ptr h)); auto.
  - by apply (classic_pop_next_sim s b pre hd suf t h o).
  - by apply (classic_pop_check_sim s b pre hd suf t h o x).
  - destruct Hpc as (Ho & Hx & Ha). eapply classic_swing; [done|done|by rewrite ?Epc|done].
  - destruct Hpc as (Hh & Hp & Hx & Ha).
    assert (within x (pre ++ hd :: suf)) as Hxin.
    { eapply leads_in; [done| |done]. apply (within_mono _ (pre ++ [hd])); [|done].
      intros m. apply upto_linked. }
    edestruct (deref_within s t x) as (m & Hm & Hin & ->); [done|].
    apply Hlocal; [by rewrite ?Epc|]. do 4 (split; [done|]). by exists m.
  - destruct Hpc as (Hh & Hp & Hx & Ha & Hv). case_decide as E; [|by apply Hlocal; [rewrite ?Epc|]].
    destruct (classic_pop s b pre hd suf t h x v Hr Epc E) as (y & suf' & -> & Eq & Hr').
    eapply (matching_step (late []) levent classic_ok _ b (LAct (ATake t (RPopped (Some v))))).
    { cbn [lts_step late lstep astep]. by rewrite Ha, Eq, (fifo_pop (v :: _)). }
    by exists (pre ++ [hd]), y, suf'.
  - apply matching_local. exists pre, hd, suf. by apply classic_delete.
Qed.

Lemma classic_sim l s s' b :
  classic_ok s b → classic_step NeverReusing l s = Some s' → classic_matched s' b (classic_event l).
Proof.
  intros (pre & hd & suf & Hr) Hstep. pose proof (cr_nodes _ _ _ _ _ Hr) as Hn.
  pose proof (advances_refl _ _ _ _ Hn) as Hadv.
  destruct l as [t v n|t|t|t r]; cbn [classic_step] in Hstep.
  - destruct (pcs s t) eqn:E; try done. pose proof (cr_known _ _ _ _ _ Hr t) as Hpc. rewrite E in Hpc.
    unfold may_allocate in Hstep. simpl in Hstep. rewrite orb_false_r in Hstep.
    case_bool_decide as En; simplify_eq.
    eapply (matching_step (late []) levent classic_ok _ b (LAct (ACall t (OPush v)))).
    { simpl. simpl in Hpc. by rewrite Hpc. }
    exists pre, hd, suf. by apply classic_alloc.
  - destruct (pcs s t) eqn:E; simplify_eq. pose proof (cr_known _ _ _ _ _ Hr t) as Hpc. rewrite E in Hpc.
    eapply (matching_step (late []) levent classic_ok _ b (LAct (ACall t OPop))).
    { simpl. simpl in Hpc. by rewrite Hpc. }
    exists pre, hd, suf. eapply (classic_local s _ b _ pre hd suf t PopHead); try done.
    + intros u Hu. simpl. by rewrite !upd_ne.
    + by rewrite ?E.
    + left. simpl. by rewrite upd_eq.
  - destruct (Push_step NeverReusing s t) eqn:E; simplify_eq; [by eapply classic_push_sim|by eapply classic_pop_sim].
  - destruct (pcs s t) eqn:E; try done. case_decide; simplify_eq.
    pose proof (cr_known _ _ _ _ _ Hr t) as Hpc. rewrite E in Hpc.
    eapply (matching_step (late []) levent classic_ok _ b (LAct (AReturn t r0))).
    { simpl. simpl in Hpc. by rewrite Hpc, decide_True. }
    exists pre, hd, suf. eapply (classic_local s _ b _ pre hd suf t Idle); try done.
    + intros u Hu. simpl. by rewrite !upd_ne.
    + by rewrite ?E.
    + left. simpl. by rewrite upd_eq.
Qed.
End nodes.

(** ** The destructor *)

Lemma classic_destroy_chain L fuel s :
  chain (next_of s) L → hd_error L = node_ptr (head s) → NoDup (L ++ freed s) → length L <= fuel →
  ∃ s', destroy fuel s = Ret s' ∧ node_ptr (head s') = None ∧ freed s' = rev L ++ freed s.
Proof.
  revert fuel s. induction L as [|n L IH]; intros fuel s Hc Hh Hnd Hf; simpl in *.
  - exists s. destruct fuel; simpl; by rewrite <-Hh.
  - destruct fuel as [|fuel]; [lia|]. destruct Hc as [Hn Hc]. simpl. rewrite <-Hh.
    apply NoDup_cons in Hnd as [Hin Hnd]. rewrite elem_of_app in Hin.
    rewrite decide_False by tauto. edestruct (IH fuel) as (s' & -> & H1 & H2); [done|done|..|lia|].
    + simpl. rewrite <-Permutation_middle. apply NoDup_cons. by rewrite elem_of_app.
    + exists s'. split; [done|]. split; [done|]. rewrite H2. simpl. by rewrite <-(assoc (++)).
Qed.

Lemma classic_destroy_idle s b :
  classic_ok s b → (∀ t, pcs s t = Idle) →
  ∃ s', destroy (fresh s) s = Ret s' ∧ node_ptr (head s') = None ∧ freed s' ≡ₚ seq 0 (fresh s).
Proof.
  intros (pre & hd & suf & Hr) Hidle. destruct Hr as [[N1 N2 N3 N4 N5 N6 N7] _ _ _ Hacc].
  assert (hd :: suf ⊆ pre ++ hd :: suf) as Hsub by set_solver.
  assert (NoDup (hd :: suf ++ freed s)) as Hnd.
  { rewrite app_comm_cons. apply NoDup_app in N2 as (_ & Hd & Hnd). apply NoDup_app.
    split; [done|]. split; [|done]. intros n Hn Hf. by apply (Hd n); [apply N6|]. }
  assert (∀ n, n ∈ freed s → n < fresh s) as Hff.
  { intros n Hn%N6. apply N3. apply elem_of_app. by left. }
  destruct (classic_destroy_chain (hd :: suf) (fresh s) s) as (s' & E & H1 & H2); [|done..| |].
  - clear -N1. induction pre; simpl in *; tauto.
  - apply length_below; [|by intros n Hn%Hsub%N3]. by apply NoDup_app in N2 as (_ & _ & ?).
  - exists s'. split; [done|]. split; [done|]. rewrite H2, <-(Permutation_rev (hd :: suf)).
    apply all_nodes; [done|]. intros n. rewrite elem_of_app. split.
    + intros [Hn%Hsub%N3|Hn%Hff]; done.
    + intros Hn. destruct (Hacc n Hn) as [?|[?|[t Ht]]]; [by left|by right|].
      by rewrite Hidle in Ht.
Qed.

(** ** Schedules *)

Definition push_alone (t : tid) (v : T) (n : node) : list classic_label :=
  CallPush t v n :: repeat (Step t) 5 ++ [Return t RPushed].

Definition pop_alone (t : tid) (o : option T) : list classic_label :=
  CallPop t :: repeat (Step t) (match o with Some _ => 7 | None => 4 end) ++ [Return t (RPopped o)].

Example classic_alone :
  is_Some (run (classic_queue Strict)
    (push_alone 0 7 1 ++ push_alone 1 8 2 ++ pop_alone 0 (Some 7) ++ push_alone 0 9 0 ++
     pop_alone 1 (Some 8) ++ pop_alone 1 (Some 9) ++ pop_alone 0 None) new_classic).
Proof. vm_compute. eauto. Qed.

Lemma new_classic_rel : classic_rel new_classic (linit []) [] 0 [].
Proof.
  split; [split|..]; simpl; try done.
  - apply NoDup_singleton.
  - intros n Hn. apply list_elem_of_singleton in Hn. lia.
  - exists 0. split; [done|by left].
  - apply NoDup_nil_2.
  - intros n Hn. left. assert (n = 0) as -> by lia. by left.
Qed.

(** C3: when the memory keeps deleted nodes readable and does not use them again, the
    queue is linearizable: every execution of [Push] and [TryPop] by any number of
    threads has the calls and returns, with the same results and in the same order, of
    an execution of the atomic FIFO queue; no null pointer is followed, and no node is
    deleted twice.  When no call is in progress, the destructor runs to its end, after
    which every node that was ever allocated has been deleted once. *)
Theorem classic_queue_linearizable tr s :
  run (classic_queue NeverReusing) tr new_classic = Some s →
  linearizable [] (concat (classic_event <$> tr)) ∧ (∀ t, pcs s t ≠ Broken) ∧
  ((∀ t, pcs s t = Idle) → ∃ s', destroy (fresh s) s = Ret s' ∧ node_ptr (head s') = None ∧
    freed s' ≡ₚ seq 0 (fresh s)).
Proof.
  intros Hr.
  destruct (matching_run (classic_queue NeverReusing) (late []) classic_event levent classic_ok)
    with (tr := tr) (s := new_classic) (s' := s) (a := linit (Op := qop) (Res := qres) ([] : list T))
    as (tr' & b & Hb & He & pre & hd & suf & Hrel).
  - intros l s0 s1 b. apply classic_sim.
  - exists [], 0, []. apply new_classic_rel.
  - done.
  - rewrite <-He. split; [by eapply late_linearizable|]. split.
    + intros t E. pose proof (cr_known _ _ _ _ _ Hrel t) as Hk. by rewrite E in Hk.
    + apply (classic_destroy_idle s b). by exists pre, hd, suf.
Qed.

(** Thread 1 pushes 8 while thread 0 is between linking 7 and swinging [tail]; thread 2
    has read an empty queue before. *)
Definition classic_helping : list classic_label :=
  [CallPop 2; Step 2; Step 2; Step 2; CallPush 0 7 1] ++ repeat (Step 0) 4 ++ CallPush 1 8 2 ::
  repeat (Step 1) 9 ++ [Return 1 RPushed; Step 0; Return 0 RPushed; Step 2; Return 2 (RPopped None)] ++
  pop_alone 2 (Some 7) ++ pop_alone 2 (Some 8).

Lemma classic_queue_linearizable_witness :
  let s := default new_classic (run (classic_queue NeverReusing) classic_helping new_classic) in
  linearizable []
    [EvCall 2 OPop; EvCall 0 (OPush 7); EvCall 1 (OPush 8); EvReturn 1 RPushed; EvReturn 0 RPushed;
     EvReturn 2 (RPopped None);
     EvCall 2 OPop; EvReturn 2 (RPopped (Some 7)); EvCall 2 OPop; EvReturn 2 (RPopped (Some 8))] ∧
  ∃ s', destroy 3 s = Ret s' ∧ node_ptr (head s') = None ∧ freed s' ≡ₚ [0; 1; 2].
Proof.
  intros s. destruct (classic_queue_linearizable classic_helping s) as (H & _ & Hd).
  - vm_compute. reflexivity.
  - split; [exact H|]. apply Hd. intros [|[|[|t]]]; vm_compute; reflexivity.
Defined.

(** Thread 0's [Push] of 9 is about to link its node after node 0 when thread 1 pushes
    and pops 7, which deletes node 0, and starts a [Push] of 8, which gets node 0. *)
Definition recycle_schedule : list classic_label :=
  CallPush 0 9 1 :: repeat (Step 0) 3 ++ push_alone 1 7 2 ++ pop_alone 1 (Some 7) ++
  [CallPush 1 8 0] ++ repeat (Step 0) 2 ++ [Return 0 RPushed] ++ pop_alone 2 None.

(** C37: the queue needs the memory the comment asks for, and more.  With the language's
    memory, [Push] reads [next] of a node that a [TryPop] has deleted, and so does
    [TryPop].  With an allocator that keeps deleted nodes readable and uses them again,
    the counters do not help, because [new Node] sets the counter of [next] back to 0:
    a [Push] can link its node after a node that another [Push] has just been given;
    it returns, and a [TryPop] called after that finds the queue empty.  That history
    is not one of a FIFO queue. *)
Theorem classic_queue_memory :
  (∃ tr s, run (classic_queue Strict) tr new_classic = Some s ∧ CallPush 0 9 1 ∈ tr ∧ pcs s 0 = Broken) ∧
  (∃ tr s, run (classic_queue Strict) tr new_classic = Some s ∧ CallPop 0 ∈ tr ∧ pcs s 0 = Broken) ∧
  (is_Some (run (classic_queue Recycling) recycle_schedule new_classic) ∧
    ¬ linearizable [] (concat (classic_event <$> recycle_schedule))).
Proof.
  split; [|split].
  - set (tr := [CallPush 0 9 1; Step 0] ++ push_alone 1 7 2 ++ pop_alone 1 (Some 7) ++ [Step 0]).
    exists tr, (default new_classic (run (classic_queue Strict) tr new_classic)).
    split; [vm_compute; reflexivity|]. split; [by left|vm_compute; reflexivity].
  - set (tr := push_alone 1 7 1 ++ [CallPop 0; Step 0; Step 0] ++ pop_alone 1 (Some 7) ++ [Step 0]).
    exists tr, (default new_classic (run (classic_queue Strict) tr new_classic)).
    split; [vm_compute; reflexivity|]. split; [|vm_compute; reflexivity].
    unfold tr. rewrite !elem_of_app. right. left. by left.
  - split; [vm_compute; eauto|]. apply (not_linearizable [0; 1; 2]); vm_compute; reflexivity.
Qed.
