(* ===== verification/CoroMutex.v ===== *)
(** * components/async_mutex: the mutex for C++20 coroutines

    [AsyncMutexCoroImpl] and [MutexAwaiter].  [co_await mutex.lock()] constructs an
    awaiter that owns the spinlock through its guard; [await_ready] takes the mutex or
    [await_suspend] moves the awaiter, guard included, into the list of waiters and
    releases the spinlock there.  [Unlock] moves the first waiter out and resumes its
    coroutine on the spot.

    A coroutine runs on the stack of whoever resumed it: [Unlock] stays inside
    [waiter.Resume()] until the coroutine it has resumed suspends or ends.  That one may
    resume others in turn, so that a thread is a chain of coroutines of which only the
    last runs. *)

From stdpp Require Import prelude list.
From S2P Require Import Prelude.
From S2P Require Import Lock.

Abbreviation cid := nat.

Inductive coro_pc :=
| Out (in_critical : bool)     (** in its own code, with the mutex or without *)
| LAcquire                     (** [operator co_await]: the guard's constructor *)
| LReady                       (** [await_ready]: [TryLock] *)
| LRelease                     (** [await_ready]: [ReleaseLock] *)
| LSuspend                     (** [await_suspend]: move the awaiter into the list *)
| LPark                        (** [ParkAwaiter]: [waiters.back().ReleaseLock()] *)
| LSuspended
| UAcquire                     (** [Unlock]: [unique_lock lock(spinlock)] *)
| UBody                        (** [Unlock]: the test of the waiters *)
| UUnlock (w : cid)            (** [Unlock]: [lock.unlock()], with a waiter in hand *)
| UResume (w : cid)            (** [Unlock]: the call of [waiter.Resume()] *)
| UResumed (w : cid)           (** [Unlock]: inside [waiter.Resume()], while the waiter runs *)
| UReturn                      (** [Unlock]: [waiter.Resume()] has returned *)
| URelease                     (** [Unlock]: the destructor of [lock] *)
| Ended                        (** has flowed off its end *)
| Broken.                      (** undefined behaviour *)

#[export] Instance coro_pc_eq : EqDecision coro_pc.
Proof. solve_decision. Defined.

(** A waiter in the list: its coroutine, and whether its guard owns the spinlock. *)
Record MutexAwaiter := MkAwaiter { coro : cid; guard : bool }.

Record AsyncMutexCoroImpl := MkMutex {
  spinlock : option tid;
  lock_flag : bool;
  waiters : list MutexAwaiter;
  coros : cid → coro_pc
}.

Inductive coro_label :=
| CallLock (c : cid)
| CallUnlock (c : cid)
| CoroEnd (c : cid)            (** it ends, without the mutex *)
| CoroStep (c : cid).

Section steps.
  Implicit Types s : AsyncMutexCoroImpl.

Definition at_coro s (c : cid) (p : coro_pc) : AsyncMutexCoroImpl :=
  MkMutex (spinlock s) (lock_flag s) (waiters s) (coros s)⟦c ↦ p⟧.

Definition set_spin s (o : option tid) : AsyncMutexCoroImpl :=
  MkMutex o (lock_flag s) (waiters s) (coros s).

Definition set_flag s (b : bool) : AsyncMutexCoroImpl :=
  MkMutex (spinlock s) b (waiters s) (coros s).

Definition set_waiters s (ws : list MutexAwaiter) : AsyncMutexCoroImpl :=
  MkMutex (spinlock s) (lock_flag s) ws (coros s).

(** The stack after [c] has suspended or ended: whoever had resumed it goes on. *)
Definition hand_back (c : cid) (cs : cid → coro_pc) (d : cid) : coro_pc :=
  if decide (cs d = UResumed c) then UReturn else cs d.

Definition leave_stack s (c : cid) : AsyncMutexCoroImpl :=
  MkMutex (spinlock s) (lock_flag s) (waiters s) (hand_back c (coros s)).

(** [TryLock], under the spinlock. *)
Definition TryLock s : bool * AsyncMutexCoroImpl :=
  if lock_flag s then (false, s) else (true, set_flag s true).

(** The move constructor: the new awaiter has the coroutine and the guard, the old one
    neither. *)
Definition move_awaiter (w : MutexAwaiter) : MutexAwaiter := MkAwaiter (coro w) (guard w).

(** [ReleaseLock]: if the guard owns the spinlock, disown it and unlock. *)
Definition ReleaseLock s (c : cid) (g : bool) : option AsyncMutexCoroImpl :=
  if g then match release c (spinlock s) with Some o => Some (set_spin s o) | None => None end
  else Some s.

(** [operator co_await], [await_ready] and [await_suspend]. *)
Definition lock_step s (c : cid) : option AsyncMutexCoroImpl :=
  match coros s c with
  | LAcquire =>
      match acquire c (spinlock s) with
      | Some o => Some (at_coro (set_spin s o) c LReady)
      | None => None
      end
  | LReady =>
      let '(lock_own, s') := TryLock s in
      Some (at_coro s' c (if lock_own : bool then LRelease else LSuspend))
  | LRelease =>
      Some (match ReleaseLock s c true with
            | Some s' => at_coro s' c (Out true)
            | None => at_coro s c Broken
            end)
  | LSuspend =>
      Some (at_coro (set_waiters s (waiters s ++ [move_awaiter (MkAwaiter c true)])) c LPark)
  | LPark =>
      match last (waiters s) with
      | Some w =>
          Some (match ReleaseLock s c (guard w) with
                | Some s' =>
                    leave_stack (at_coro (set_waiters s' (removelast (waiters s) ++ [MkAwaiter (coro w) false])) c LSuspended) c
                | None => at_coro s c Broken
                end)
      | None => Some (at_coro s c Broken)
      end
  | _ => None
  end.

(** [Unlock].  The awaiter moved out of the list is destroyed at the end: its guard must
    not own the spinlock any more. *)
Definition unlock_step s (c : cid) : option AsyncMutexCoroImpl :=
  match coros s c with
  | UAcquire =>
      match acquire c (spinlock s) with
      | Some o => Some (at_coro (set_spin s o) c UBody)
      | None => None
      end
  | UBody =>
      Some (match waiters s with
            | w :: ws =>
                if guard w then at_coro s c Broken
                else at_coro (set_waiters s ws) c (UUnlock (coro w))
            | [] => at_coro (set_flag s false) c URelease
            end)
  | UUnlock w =>
      Some (match release c (spinlock s) with
            | Some o => at_coro (set_spin s o) c (UResume w)
            | None => at_coro s c Broken
            end)
  | UResume w =>
      Some (match coros s w with
            | LSuspended => at_coro (at_coro s c (UResumed w)) w (Out true)
            | _ => at_coro s c Broken
            end)
  | UReturn => Some (at_coro s c (Out false))
  | URelease =>
      Some (match release c (spinlock s) with
            | Some o => at_coro (set_spin s o) c (Out false)
            | None => at_coro s c Broken
            end)
  | _ => None
  end.

Definition coro_mutex_step (l : coro_label) s : option AsyncMutexCoroImpl :=
  match l with
  | CallLock c =>
      match coros s c with Out false => Some (at_coro s c LAcquire) | _ => None end
  | CallUnlock c =>
      match coros s c with Out true => Some (at_coro s c UAcquire) | _ => None end
  | CoroEnd c =>
      match coros s c with Out false => Some (leave_stack (at_coro s c Ended) c) | _ => None end
  | CoroStep c => match lock_step s c with Some s' => Some s' | None => unlock_step s c end
  end.

Definition new_mutex : AsyncMutexCoroImpl := MkMutex None false [] (λ _, Out false).

Definition coro_mutex : lts AsyncMutexCoroImpl coro_label :=
  Lts (λ s, s = new_mutex) coro_mutex_step.

(** ** The invariant *)

Definition holds_spin (p : coro_pc) : bool :=
  match p with
  | LReady | LRelease | LSuspend | LPark | UBody | UUnlock _ | URelease => true
  | _ => false
  end.

(** The coroutine owns the mutex, or is handing it to a waiter. *)
Definition token (p : coro_pc) : bool :=
  match p with
  | Out true | LRelease | UAcquire | UBody | UUnlock _ | UResume _ => true
  | _ => false
  end.

(** The waiter an [Unlock] is handing the mutex to. *)
Definition handing (p : coro_pc) : option cid :=
  match p with UUnlock w | UResume w => Some w | _ => None end.

(** Not in the list of waiters, nor taken from it. *)
Definition awake (p : coro_pc) : bool :=
  match p with LPark | LSuspended | Broken => false | _ => true end.

(** The awaiter still owns the spinlock exactly while its coroutine is in [ParkAwaiter]. *)
Definition parked_as (g : bool) : coro_pc := if g then LPark else LSuspended.

(** Who is under the spinlock and who owns the mutex. *)
Record owner_inv s : Prop := OwnerInv {
  cm_spin : held holds_spin (spinlock s) (coros s);
  cm_token : ∀ c d, token (coros s c) = true → token (coros s d) = true → c = d;
  cm_flag : lock_flag s = true ↔ ∃ c, token (coros s c) = true;
  cm_waiting : waiters s ≠ [] ∨ (∃ c, coros s c = LSuspend) → lock_flag s = true
}.

(** Where the suspended coroutines are. *)
Record queue_inv (ws : list MutexAwaiter) (cs : cid → coro_pc) : Prop := QueueInv {
  cm_handing : ∀ c w, handing (cs c) = Some w → cs w = LSuspended ∧ w ∉ (coro <$> ws);
  cm_nodup : NoDup (coro <$> ws);
  cm_waiter : ∀ c g, MkAwaiter c g ∈ ws → cs c = parked_as g;
  cm_park : ∀ c, cs c = LPark → ∃ ws', ws = ws' ++ [MkAwaiter c true];
  cm_suspended : ∀ c, cs c = LSuspended → c ∈ (coro <$> ws) ∨ ∃ d, handing (cs d) = Some c;
  cm_broken : ∀ c, cs c ≠ Broken
}.

(** Whose coroutine is last in the chain of resumes from [c]. *)
Inductive top (cs : cid → coro_pc) : cid → cid → Prop :=
| TopSelf c : (∀ w, cs c ≠ UResumed w) → top cs c c
| TopUnder c w d : cs c = UResumed w → top cs w d → top cs c d.

(** The stacks: who is resumed is neither suspended nor at its end, and has a last one above. *)
Record stack_inv (cs : cid → coro_pc) : Prop := StackInv {
  cm_resumed : ∀ c w, cs c = UResumed w → cs w ≠ LSuspended ∧ cs w ≠ Ended;
  cm_top : ∀ c, ∃ d, top cs c d
}.

Record coro_mutex_inv s : Prop := CoroInv {
  cm_owner : owner_inv s;
  cm_queue : queue_inv (waiters s) (coros s)
}.

(** Whoever is under the spinlock can release it. *)
Lemma spin_release s c :
  owner_inv s → holds_spin (coros s c) = true → release c (spinlock s) = Some None.
Proof. intros Hi. by apply (held_release holds_spin _ (coros s)), Hi. Qed.

(** ** Steps that leave the waiters alone *)

Lemma queue_local ws cs c p :
  queue_inv ws cs → handing p = handing (cs c) → awake (cs c) = true → awake p = true →
  queue_inv ws cs⟦c ↦ p⟧.
Proof.
  intros [H1 H2 H3 H4 H5 H6] Hh Ha Hap.
  assert (∀ d, handing (cs⟦c ↦ p⟧ d) = handing (cs d)) as Eh by (intros d; by upd_cases).
  assert (∀ d q, awake q = false → cs⟦c ↦ p⟧ d = q ↔ cs d = q) as Eq.
  { intros d q Hq. upd_cases; split; congruence. }
  split; [|done|..].
  - intros d w. rewrite Eh, (Eq w LSuspended) by done. apply H1.
  - intros d g Hg. rewrite (Eq d (parked_as g)) by (by destruct g). by apply H3.
  - intros d. rewrite Eq by done. apply H4.
  - intros d. rewrite Eq by done. setoid_rewrite Eh. apply H5.
  - intros d. rewrite Eq by done. apply H6.
Qed.

Lemma coro_mutex_local s c p o :
  coro_mutex_inv s → token p = token (coros s c) → handing p = handing (coros s c) →
  awake (coros s c) = true → awake p = true → (p = LSuspend → lock_flag s = true) →
  held holds_spin o (coros s)⟦c ↦ p⟧ →
  coro_mutex_inv (at_coro (set_spin s o) c p).
Proof.
  intros [[H1 H2 H3 H4] Hq] Ht Hh Ha Hap Hl Hs. split; [|by apply queue_local].
  assert (∀ d, token ((coros s)⟦c ↦ p⟧ d) = token (coros s d)) as Et.
  { intros d. by upd_cases. }
  split; simpl; [done|..].
  - intros d e. rewrite !Et. apply H2.
  - rewrite H3. by setoid_rewrite Et.
  - intros [Hw|[d Hd]]; [auto|]. upd_cases; [auto|]. apply H4. right. by exists d.
Qed.

(** ** Taking and freeing the mutex *)

Lemma no_token s c : owner_inv s → lock_flag s = false → token (coros s c) = false.
Proof.
  intros Hi Hf. destruct (token (coros s c)) eqn:E; [|done].
  assert (lock_flag s = true) by (apply (cm_flag _ Hi); by exists c). congruence.
Qed.

Lemma coro_mutex_take s c :
  coro_mutex_inv s → coros s c = LReady → lock_flag s = false →
  coro_mutex_inv (at_coro (set_flag s true) c LRelease).
Proof.
  intros [Hi Hq] E Hf. split; [|apply queue_local; simpl; rewrite ?E; done].
  pose proof (λ d, no_token s d Hi Hf) as Hn. split; simpl; [| |split|]; try done.
  - apply held_kept; [apply Hi|by rewrite E].
  - intros d e. upd_cases; try done; intros Hd He; congruence.
  - intros _. exists c. by upd_cases.
Qed.

Lemma coro_mutex_free s c :
  coro_mutex_inv s → coros s c = UBody → waiters s = [] →
  coro_mutex_inv (at_coro (set_flag s false) c URelease).
Proof.
  intros [Hi Hq] E Hw. split; [|apply queue_local; simpl; rewrite ?E; done].
  assert (∀ d, token (coros s d) = true → d = c) as Hn.
  { intros d Hd. apply (cm_token _ Hi); [done|by rewrite E]. }
  split; simpl; [| |split|]; try done.
  - apply held_kept; [apply Hi|by rewrite E].
  - intros d e. upd_cases; try done. intros Hd. apply Hn in Hd. congruence.
  - intros [d Hd]. upd_cases; [done|]. apply Hn in Hd. congruence.
  - intros [?|[d Hd]]; [done|]. upd_cases.
    assert (c = d) by (apply (held_alone holds_spin (spinlock s) (coros s)); [apply Hi|by rewrite E|by rewrite Hd]). congruence.
Qed.

(** ** Joining and leaving the list of waiters *)

Lemma coro_mutex_enqueue s c :
  coro_mutex_inv s → coros s c = LSuspend →
  coro_mutex_inv (at_coro (set_waiters s (waiters s ++ [MkAwaiter c true])) c LPark).
Proof.
  intros [Hi [H1 H2 H3 H4 H5 H6]] E. split.
  { assert (lock_flag s = true) as Hl by (apply (cm_waiting _ Hi); right; by exists c).
    split; simpl; [..|done].
    - apply held_kept; [apply Hi|by rewrite E].
    - intros d e. upd_cases; try done. apply (cm_token _ Hi).
    - rewrite (cm_flag _ Hi). apply exist_proper. intros d. upd_cases; [by rewrite E|done]. }
  assert (c ∉ (coro <$> waiters s)) as Hc.
  { intros ([d g] & -> & Hd)%list_elem_of_fmap. apply H3 in Hd. simpl in E. rewrite E in Hd.
    by destruct g. }
  split; simpl; rewrite ?fmap_app.
  - intros d w. upd_cases; try done; intros Hd; apply H1 in Hd as [Hd Hn]; [congruence|].
    split; [done|]. rewrite elem_of_app. simpl. rewrite list_elem_of_singleton. naive_solver.
  - apply NoDup_app. split; [done|]. split; [|apply NoDup_singleton].
    intros d Hd. simpl. rewrite list_elem_of_singleton. congruence.
  - intros d g. rewrite elem_of_app, list_elem_of_singleton. intros [Hd|Hd].
    + apply H3 in Hd. rewrite upd_ne; [done|]. intros <-. rewrite E in Hd. by destruct g.
    + simplify_eq. by rewrite upd_eq.
  - intros d. upd_cases; [eauto|]. intros Hd.
    assert (c = d) by (apply (held_alone holds_spin (spinlock s) (coros s)); [apply Hi|by rewrite E|by rewrite Hd]). congruence.
  - intros d. upd_cases. intros Hd. destruct (H5 d Hd) as [?|[e He]].
    + left. rewrite elem_of_app. by left.
    + right. exists e. upd_cases. by rewrite E in He.
  - intros d. specialize (H6 d). by upd_cases.
Qed.

Lemma removelast_snoc {A} (l : list A) x : removelast (l ++ [x]) = l.
Proof. rewrite removelast_app by done. by rewrite app_nil_r. Qed.

(** [waiters.back()] is the awaiter just moved in: its guard is released, and its
    coroutine is suspended. *)
Lemma coro_mutex_park s c ws :
  coro_mutex_inv s → coros s c = LPark → waiters s = ws ++ [MkAwaiter c true] →
  coro_mutex_inv (at_coro (set_waiters (set_spin s None) (ws ++ [MkAwaiter c false])) c LSuspended).
Proof.
  intros [Hi [H1 H2 H3 H4 H5 H6]] E Hw. split.
  { split; simpl.
    - eapply held_released; [apply Hi|by rewrite E|done].
    - intros d e. upd_cases; try done. apply (cm_token _ Hi).
    - rewrite (cm_flag _ Hi). apply exist_proper. intros d. upd_cases; [by rewrite E|done].
    - intros _. apply (cm_waiting _ Hi). left. rewrite Hw. by destruct ws. }
  assert (coro <$> waiters s = coro <$> (ws ++ [MkAwaiter c false])) as Hf.
  { by rewrite Hw, !fmap_app. }
  simpl. rewrite Hf in *. split; [| done|..]; simpl.
  - intros d w. upd_cases; try done; intros Hd; apply H1 in Hd as [Hd Hn]; [congruence|done].
  - intros d g. rewrite elem_of_app, list_elem_of_singleton. intros [Hd|Hd].
    + rewrite upd_ne; [apply H3; rewrite Hw; set_solver|]. intros <-.
      rewrite <-Hf, Hw, fmap_app, NoDup_app in H2. destruct H2 as (_ & H2 & _).
      apply (H2 c); [|by left]. apply list_elem_of_fmap. by exists (MkAwaiter c g).
    + simplify_eq. by rewrite upd_eq.
  - intros d. upd_cases. intros Hd.
    assert (c = d) by (apply (held_alone holds_spin (spinlock s) (coros s)); [apply Hi|by rewrite E|by rewrite Hd]). congruence.
  - intros d. upd_cases.
    + intros _. left. rewrite fmap_app. apply elem_of_app. right. by left.
    + intros Hd. destruct (H5 d Hd) as [?|[e He]]; [by left|].
      right. exists e. upd_cases. by rewrite E in He.
  - intros d. specialize (H6 d). by upd_cases.
Qed.

(** [Unlock] takes the first waiter. *)
Lemma coro_mutex_pop s c w ws :
  coro_mutex_inv s → coros s c = UBody → waiters s = w :: ws →
  guard w = false ∧ coro_mutex_inv (at_coro (set_waiters s ws) c (UUnlock (coro w))).
Proof.
  intros [Hi [H1 H2 H3 H4 H5 H6]] E Hw. destruct w as [w g].
  assert (coros s w = parked_as g) as Hg by (apply H3; rewrite Hw; by left).
  assert (g = false) as ->.
  { destruct g; [|done]. simpl in Hg.
    assert (c = w) by (apply (held_alone holds_spin (spinlock s) (coros s)); [apply Hi|by rewrite E|by rewrite Hg]). congruence. }
  split; [done|]. split.
  { split; simpl.
    - apply held_kept; [apply Hi|by rewrite E].
    - intros d e. upd_cases; intros Hd He; apply (cm_token _ Hi); rewrite ?E; done.
    - rewrite (cm_flag _ Hi). apply exist_proper. intros d. upd_cases; [by rewrite E|done].
    - intros _. apply (cm_waiting _ Hi). left. by rewrite Hw. }
  rewrite Hw in *. simpl in H2. apply NoDup_cons in H2 as [Hn H2]. split; simpl; [|done|..].
  - simpl in Hg. intros d v. upd_cases; try done; intros Hd; simpl in Hd; simplify_eq; try done.
    + congruence.
    + destruct (H1 _ _ Hd). congruence.
    + destruct (H1 _ _ Hd) as [? Hv]. split; [done|]. intros ?. apply Hv. by right.
  - intros d g Hd. rewrite upd_ne; [apply H3; by right|]. intros <-.
    assert (coros s c = parked_as g) as Hc by (apply H3; by right). rewrite E in Hc. by destruct g.
  - intros d. upd_cases. intros Hd.
    assert (c = d) by (apply (held_alone holds_spin (spinlock s) (coros s)); [apply Hi|by rewrite E|by rewrite Hd]). congruence.
  - intros d. upd_cases. intros Hd. destruct (H5 d Hd) as [Hin|[e He]].
    + simpl in Hin. apply elem_of_cons in Hin as [->|?]; [|by left].
      right. exists c. by upd_cases.
    + right. exists e. upd_cases. by rewrite E in He.
  - intros d. specialize (H6 d). by upd_cases.
Qed.

(** The waiter runs on, as the owner. *)
Lemma coro_mutex_resume s c w :
  coro_mutex_inv s → coros s c = UResume w →
  coro_mutex_inv (at_coro (at_coro s c (UResumed w)) w (Out true)).
Proof.
  intros [Hi [H1 H2 H3 H4 H5 H6]] E.
  destruct (H1 c w) as [Hw Hn]; [by rewrite E|]. assert (c ≠ w) as Hcw by congruence.
  assert (∀ d, token (coros s d) = true → d = c) as Ht.
  { intros d Hd. apply (cm_token _ Hi); [done|by rewrite E]. }
  assert (∀ d v, handing (coros s d) = Some v → d = c) as Hh.
  { intros d v Hd. apply Ht. by destruct (coros s d). }
  split.
  { split; simpl.
    - apply held_kept; [apply held_kept; [apply Hi|by rewrite E]|]. rewrite upd_ne by done. by rewrite Hw.
    - intros d e. upd_cases; try done; intros Hd He; try apply Ht in Hd; try apply Ht in He; congruence.
    - split; [|intros _; apply (cm_flag _ Hi); exists c; by rewrite E].
      intros _. exists w. by rewrite upd_eq.
    - intros [?|[d Hd]]; apply (cm_waiting _ Hi); [by left|]. right. exists d. by upd_cases. }
  split; simpl; [|done|..].
  - intros d v. upd_cases; try done; intros Hd; apply Hh in Hd; congruence.
  - intros d g Hd. rewrite !upd_ne; [by apply H3|..]; intros <-.
    + apply H3 in Hd. rewrite E in Hd. by destruct g.
    + apply Hn, list_elem_of_fmap. by exists (MkAwaiter w g).
  - intros d. upd_cases; try done. apply H4.
  - intros d. upd_cases; try done. intros Hd. destruct (H5 d Hd) as [?|[e He]]; [by left|].
    pose proof (Hh _ _ He) as ->. rewrite E in He. simpl in He. congruence.
  - intros d. specialize (H6 d). by upd_cases.
Qed.

(** ** The stacks *)

(** Whoever goes on after a suspension has neither the spinlock nor the mutex. *)
Lemma coro_mutex_leave s c : coro_mutex_inv s → coro_mutex_inv (leave_stack s c).
Proof.
  intros [[H1 H2 H3 H4] [G1 G2 G3 G4 G5 G6]]. cbn.
  assert (∀ {A} (f : coro_pc → A) d, f UReturn = f (UResumed c) → f (hand_back c (coros s) d) = f (coros s d)) as Ef.
  { intros A f d Hf. unfold hand_back. case_decide as E; [by rewrite E|done]. }
  assert (∀ d p, p ≠ UReturn → (∀ w, p ≠ UResumed w) → hand_back c (coros s) d = p ↔ coros s d = p) as Ep.
  { intros d p Hp Hr. unfold hand_back. case_decide as E; [|done]. rewrite E. split; [congruence|by intros <-; destruct (Hr c)]. }
  split; split; cbn [leave_stack spinlock lock_flag waiters coros]; try done.
  - intros d. rewrite (Ef _ holds_spin) by done. apply H1.
  - intros d e. rewrite !(Ef _ token) by done. apply H2.
  - rewrite H3. apply exist_proper. intros d. by rewrite (Ef _ token).
  - intros [?|[d Hd%Ep]]; [auto|..|done|done]. apply H4. eauto.
  - intros d w. rewrite (Ef _ handing), Ep by done. apply G1.
  - intros d g Hd%G3. apply Ep; by destruct g.
  - intros d. rewrite Ep by done. apply G4.
  - intros d. rewrite Ep by done. intros [?|[e He]]%G5; [by left|right]. exists e. by rewrite (Ef _ handing).
  - intros d. rewrite Ep by done. apply G6.
Qed.

(** A step of a coroutine that stays on its stack. *)
Lemma stack_local cs c p : stack_inv cs → (∀ w, cs c ≠ UResumed w) → (∀ w, p ≠ UResumed w) →
  p ≠ LSuspended → p ≠ Ended → stack_inv cs⟦c ↦ p⟧.
Proof.
  intros [H1 H2] Hc Hp Hs He. split.
  - intros d w. destruct (decide (c = d)) as [<-|Hd]; [rewrite upd_eq; by intros ?%Hp|].
    rewrite upd_ne by done. intros ?%H1. by upd_cases.
  - intros d. destruct (H2 d) as [e Ht]. exists e. induction Ht as [d Hd|d w e Hd _ IH].
    + constructor. intros w. by upd_cases.
    + apply TopUnder with w; [|done]. rewrite upd_ne; [done|]. intros <-. by destruct (Hc w).
Qed.

(** A coroutine suspends or ends. *)
Lemma stack_leave cs c p : stack_inv cs → (∀ w, cs c ≠ UResumed w) → (∀ w, p ≠ UResumed w) →
  stack_inv (hand_back c cs⟦c ↦ p⟧).
Proof.
  intros [H1 H2] Hc Hp.
  assert (∀ d w, hand_back c cs⟦c ↦ p⟧ d = UResumed w ↔ cs d = UResumed w ∧ w ≠ c) as Er.
  { intros d w. unfold hand_back. destruct (decide (c = d)) as [<-|Hne].
    - rewrite upd_eq, decide_False by done. split; [by intros ?%Hp|by intros [?%Hc _]].
    - rewrite upd_ne by done. case_decide as E; [|naive_solver congruence].
      split; [done|]. intros [E' Hw]. congruence. }
  split.
  - intros d w [Hd Hw]%Er. apply H1 in Hd. unfold hand_back. rewrite upd_ne by done. by case_decide.
  - intros d. destruct (H2 d) as [e Ht]. induction Ht as [d Hd|d w e Hd _ IH].
    + exists d. constructor. by intros w [?%Hd _]%Er.
    + destruct (decide (w = c)) as [->|Hw].
      * exists d. constructor. intros w [Hd' Hw']%Er. congruence.
      * destruct IH as [e' IH]. exists e'. apply TopUnder with w; [|done]. by apply Er.
Qed.

(** A coroutine resumes another, on top of it. *)
Lemma stack_resume cs c w : stack_inv cs → cs c = UResume w → cs w = LSuspended →
  stack_inv cs⟦c ↦ UResumed w⟧⟦w ↦ Out true⟧.
Proof.
  intros [H1 H2] Hc Hw. assert (c ≠ w) as Hcw by congruence. split.
  - intros d v. destruct (decide (w = d)) as [<-|Hd]; [by rewrite upd_eq|]. rewrite upd_ne by done.
    destruct (decide (c = d)) as [<-|Hcd].
    + rewrite upd_eq. intros [= <-]. by rewrite upd_eq.
    + rewrite upd_ne by done. intros [Hs He]%H1.
      rewrite upd_ne by congruence. destruct (decide (c = v)) as [<-|?]; [by rewrite upd_eq|by rewrite upd_ne].
  - assert (∀ d, (∀ v, cs d ≠ UResumed v) → ∃ e, top cs⟦c ↦ UResumed w⟧⟦w ↦ Out true⟧ d e) as Hlast.
    { intros d Hd. assert (top cs⟦c ↦ UResumed w⟧⟦w ↦ Out true⟧ w w) as Htw by (constructor; intros v; by rewrite upd_eq).
      destruct (decide (w = d)) as [<-|Hwd]; [by exists w|]. destruct (decide (c = d)) as [<-|Hcd].
      - exists w. apply TopUnder with w; [|done]. by rewrite upd_ne, upd_eq.
      - exists d. constructor. intros v. by rewrite !upd_ne. }
    intros d. destruct (H2 d) as [e Ht]. induction Ht as [d Hd|d v e Hd _ [e' IH]]; [by apply Hlast|].
    exists e'. apply TopUnder with v; [|done]. by rewrite !upd_ne by congruence.
Qed.

Lemma coro_mutex_lock s c s' :
  coro_mutex_inv s → lock_step s c = Some s' → coro_mutex_inv s'.
Proof.
  intros Hi Hstep. unfold lock_step in Hstep. pose proof Hi as [Ho Hq].
  destruct (coros s c) eqn:E; try done.
  - destruct (acquire c (spinlock s)) eqn:Ea; simplify_eq.
    apply coro_mutex_local; rewrite ?E; try done. by eapply held_acquired; [apply Ho| |].
  - unfold TryLock in Hstep. destruct (lock_flag s) eqn:Ef; simplify_eq.
    + apply (coro_mutex_local s c LSuspend (spinlock s)); rewrite ?E; try done.
      apply held_kept; [apply Ho|by rewrite E].
    + by apply coro_mutex_take.
  - simpl in Hstep. rewrite (spin_release s c) in Hstep by (done || by rewrite E). simplify_eq.
    apply coro_mutex_local; rewrite ?E; try done.
    eapply held_released; [apply Ho|by rewrite E|done].
  - simplify_eq. by apply coro_mutex_enqueue.
  - destruct (cm_park _ _ Hq c E) as [ws Hws]. rewrite Hws, last_snoc in Hstep. simpl in Hstep.
    rewrite (spin_release s c), removelast_snoc in Hstep by (done || by rewrite E). simplify_eq.
    by apply coro_mutex_leave, coro_mutex_park.
Qed.

Lemma coro_mutex_unlock s c s' :
  coro_mutex_inv s → unlock_step s c = Some s' → coro_mutex_inv s'.
Proof.
  intros Hi Hstep. unfold unlock_step in Hstep. pose proof Hi as [Ho Hq].
  destruct (coros s c) as [| | | | | | | | |w|w|w| | | |] eqn:E; try done.
  - destruct (acquire c (spinlock s)) eqn:Ea; simplify_eq.
    apply coro_mutex_local; rewrite ?E; try done. by eapply held_acquired; [apply Ho| |].
  - destruct (waiters s) as [|w ws] eqn:Hw; simplify_eq; [by apply coro_mutex_free|].
    destruct (coro_mutex_pop s c w ws Hi E Hw) as [-> Hi']. done.
  - rewrite (spin_release s c) in Hstep by (done || by rewrite E). simplify_eq.
    apply coro_mutex_local; rewrite ?E; try done.
    eapply held_released; [apply Ho|by rewrite E|done].
  - destruct (cm_handing _ _ Hq c w) as [Hw _]; [by rewrite E|]. rewrite Hw in Hstep.
    simplify_eq. by apply coro_mutex_resume.
  - simplify_eq. apply (coro_mutex_local s c _ (spinlock s)); rewrite ?E; try done.
    apply held_kept; [apply Ho|by rewrite E].
  - rewrite (spin_release s c) in Hstep by (done || by rewrite E). simplify_eq.
    apply coro_mutex_local; rewrite ?E; try done.
    eapply held_released; [apply Ho|by rewrite E|done].
Qed.

Lemma coro_mutex_call s c p :
  coro_mutex_inv s → token p = token (coros s c) → handing p = handing (coros s c) →
  awake (coros s c) = true → awake p = true → p ≠ LSuspend →
  holds_spin p = holds_spin (coros s c) → coro_mutex_inv (at_coro s c p).
Proof.
  intros. apply (coro_mutex_local s c p (spinlock s)); try done.
  apply held_kept; [apply H|done].
Qed.

(** The stack, in a step of [lock] or [unlock]. *)
Lemma coro_step_stack s c s' :
  coro_mutex_inv s → stack_inv (coros s) → coro_mutex_step (CoroStep c) s = Some s' → stack_inv (coros s').
Proof.
  intros [Ho Hq] Hs Hstep. cbn in Hstep. unfold lock_step, unlock_step, ReleaseLock, TryLock in Hstep.
  assert (∀ p, (∀ w, coros s c ≠ UResumed w) → (∀ w, p ≠ UResumed w) → p ≠ LSuspended → p ≠ Ended →
    stack_inv (coros s)⟦c ↦ p⟧) as Hl by (intros; by apply stack_local).
  destruct (coros s c) as [| | | | | | | | |w|w|w| | | |] eqn:E; try done;
    try (repeat case_match; simplify_eq; by apply Hl).
  - destruct (last (waiters s)) as [w|]; [|simplify_eq; by apply Hl].
    destruct (guard w); [destruct (release c (spinlock s)); [|simplify_eq; by apply Hl]|];
      simplify_eq; (apply (stack_leave _ c LSuspended); [done|intros v; cbn; by rewrite E|done]).
  - destruct (cm_handing _ _ Hq c w) as [Hw _]; [by rewrite E|]. rewrite Hw in Hstep. simplify_eq.
    by apply stack_resume.
Qed.

(** What the coroutines call, or their end. *)
Lemma coro_end_inv s c : coro_mutex_inv s → coros s c = Out false → coro_mutex_inv (leave_stack (at_coro s c Ended) c).
Proof. intros Hi E. apply coro_mutex_leave, coro_mutex_call; by rewrite ?E. Qed.
End steps.

(** With the stacks. *)
Definition coro_inv (s : AsyncMutexCoroImpl) : Prop := coro_mutex_inv s ∧ stack_inv (coros s).

Lemma coro_inv_step l s s' : coro_inv s → coro_mutex_step l s = Some s' → coro_inv s'.
Proof.
  intros [Hi Hs] Hstep. destruct l as [c|c|c|c].
  1-3: cbn in Hstep; destruct (coros s c) as [[]| | | | | | | | | | | | | | |] eqn:E; simplify_eq.
  - split; [apply coro_mutex_call; by rewrite ?E|]. by apply stack_local; rewrite ?E.
  - split; [apply coro_mutex_call; by rewrite ?E|]. by apply stack_local; rewrite ?E.
  - split; [by apply coro_end_inv|]. by apply stack_leave; rewrite ?E.
  - split; [|by eapply coro_step_stack]. cbn in Hstep.
    destruct (lock_step s c) eqn:El; simplify_eq; [by eapply coro_mutex_lock|by eapply coro_mutex_unlock].
Qed.

Lemma coro_mutex_invariant : invariant coro_mutex coro_inv.
Proof.
  apply invariant_intro; [|by intros l s s' Hi; apply coro_inv_step].
  intros s ->. split; [split; split; simpl; try done|split; [done|]].
  - split; [done|]. by intros [c Hc].
  - by intros [?|[c Hc]].
  - constructor.
  - intros c g Hc. by apply elem_of_nil in Hc.
  - intros c. exists c. by constructor.
Qed.

(** Nothing can move except by a coroutine's own call. *)
Definition idle (s : AsyncMutexCoroImpl) : Prop := ∀ c, coro_mutex_step (CoroStep c) s = None.

Lemma idle_coro s c : coro_mutex_inv s → idle s →
  (∃ b, coros s c = Out b) ∨ coros s c = LSuspended ∨ (∃ w, coros s c = UResumed w) ∨ coros s c = Ended.
Proof.
  intros [Ho Hq] Hid. pose proof (cm_broken _ _ Hq c) as Hb.
  assert (∀ d, holds_spin (coros s d) = false) as Hn.
  { intros d. specialize (Hid d). simpl in Hid. unfold lock_step, unlock_step, TryLock in Hid.
    destruct (coros s d), (lock_flag s), (last (waiters s)); done. }
  assert (spinlock s = None) as Hs.
  { destruct (spinlock s) as [d|] eqn:E; [|done]. apply (cm_spin _ Ho) in E. by rewrite Hn in E. }
  specialize (Hn c). specialize (Hid c). simpl in Hid. unfold lock_step, unlock_step in Hid.
  rewrite Hs in Hid. destruct (coros s c); simpl in *; eauto; done.
Qed.

(** A suspended coroutine waits for one that is in the critical section. *)
Lemma suspended_waits s c : coro_mutex_inv s → idle s → coros s c = LSuspended →
  c ∈ (coro <$> waiters s) ∧ ∃ d, coros s d = Out true.
Proof.
  intros Hi Hid Hs. pose proof Hi as [Ho Hq].
  assert (∀ d v, handing (coros s d) ≠ Some v) as Hh.
  { intros d v. by destruct (idle_coro s d Hi Hid) as [[b ->]|[->|[[w ->]| ->]]]. }
  destruct (cm_suspended _ _ Hq c Hs) as [Hin|[d Hd]]; [|by apply Hh in Hd].
  split; [done|]. assert (lock_flag s = true) as Hf.
  { apply (cm_waiting _ Ho). left. intros E. rewrite E in Hin. by apply elem_of_nil in Hin. }
  apply (cm_flag _ Ho) in Hf as [d Hd]. exists d.
  by destruct (idle_coro s d Hi Hid) as [[[] Hb]|[Hb|[[w Hb]|Hb]]]; rewrite Hb in Hd |- *.
Qed.

(** A coroutine inside [Resume] waits for one that is in its own code. *)
Lemma resumed_waits s c w : coro_inv s → idle s → coros s c = UResumed w →
  ∃ d b, top (coros s) w d ∧ coros s d = Out b.
Proof.
  intros [Hi [Hr Ht]] Hid E. destruct (Ht w) as [d Hd]. exists d.
  assert (coros s d ≠ LSuspended ∧ coros s d ≠ Ended ∧ ∀ v, coros s d ≠ UResumed v) as (Hs & He & Hl).
  { clear Ht. revert c E. induction Hd as [d Hl|d v e Hv _ IH]; intros c E; [|by eapply IH].
    by destruct (Hr _ _ E). }
  destruct (idle_coro s d Hi Hid) as [[b Hb]|[?|[[v Hv]|?]]]; [by exists b|done|by destruct (Hl v)|done].
Qed.

(** That one has been resumed in turn. *)
Lemma last_resumed s c w : coro_inv s → idle s → coros s c = UResumed w →
  ∃ e d b, coros s e = UResumed d ∧ coros s d = Out b.
Proof.
  intros Hi Hid E. destruct (resumed_waits s c w Hi Hid E) as (d & b & Ht & Hd).
  assert (∃ e, coros s e = UResumed d) as [e He]; [|by exists e, d, b].
  clear Hd. revert c E. induction Ht as [d _|d v e Hv _ IH]; intros c E; [by exists c|by eapply IH].
Qed.

(** ** Theorems *)

(** Coroutine 0 locks; coroutine 1 suspends in [lock]; 0 unlocks, which resumes 1. *)
Definition handover_schedule : list coro_label :=
  CallLock 0 :: repeat (CoroStep 0) 3 ++ CallLock 1 :: repeat (CoroStep 1) 4 ++
  CallUnlock 0 :: repeat (CoroStep 0) 4.

Definition handover_state : AsyncMutexCoroImpl :=
  default new_mutex (run coro_mutex handover_schedule new_mutex).

(** Coroutine 0 is in the critical section and coroutine 1 waits. *)
Definition parked_state : AsyncMutexCoroImpl :=
  default new_mutex (run coro_mutex (firstn 9 handover_schedule) new_mutex).

(** C16: any number of coroutines locking and unlocking an AsyncMutexCoroImpl, in any
    interleaving: at most one of them is in the critical section, [lock_flag] is set
    while one is, the spinlock is only ever released by who holds it, and only
    suspended coroutines are resumed. *)
Theorem coro_mutex_exclusive s :
  reachable coro_mutex s →
  (∀ c d, coros s c = Out true → coros s d = Out true → c = d ∧ lock_flag s = true) ∧
  (∀ c, coros s c ≠ Broken).
Proof.
  intros Hr. destruct (coro_mutex_invariant s Hr) as [[Ho Hq] _].
  split; [|apply (cm_broken _ _ Hq)]. intros c d Hc Hd. split.
  - apply (cm_token _ Ho); [by rewrite Hc|by rewrite Hd].
  - apply (cm_flag _ Ho). exists c. by rewrite Hc.
Qed.

Lemma coro_mutex_exclusive_witness :
  coros handover_state 1 = Out true ∧ coros handover_state 0 = UResumed 1 ∧
  lock_flag handover_state = true.
Proof.
  assert (coros handover_state 1 = Out true) as H1 by (vm_compute; reflexivity).
  split; [done|]. split; [vm_compute; reflexivity|].
  destruct (coro_mutex_exclusive handover_state) as [He _].
  - apply (run_reachable coro_mutex); [done|]. vm_compute. eauto.
  - by apply (He 1 1).
Defined.

(** C17: no coroutine is lost: when nothing can move except by a coroutine's own call or
    end, a coroutine that has neither ended nor returned from [lock] or [unlock] is
    - suspended in [lock], in the list of waiters, while some coroutine is in the critical
      section, whose [Unlock] will resume a waiter; or
    - inside the [Resume] of its [Unlock], under the coroutine it has resumed, and the last
      of the chain of resumes that starts there is a coroutine in its own code, on the
      same stack: neither suspended nor ended, when it would have gone on. *)
Theorem coro_mutex_no_lost_waiter s c :
  reachable coro_mutex s → idle s → (∀ b, coros s c ≠ Out b) → coros s c ≠ Ended →
  (coros s c = LSuspended ∧ c ∈ (coro <$> waiters s) ∧ ∃ d, coros s d = Out true) ∨
  (∃ w d b, coros s c = UResumed w ∧ top (coros s) w d ∧ coros s d = Out b).
Proof.
  intros Hr Hid Hc He. pose proof (coro_mutex_invariant s Hr) as Hi.
  destruct (idle_coro s c (proj1 Hi) Hid) as [[b Hb]|[Hs|[[w Hw]|?]]]; [by destruct (Hc b)|..|done].
  - left. split; [done|]. by apply suspended_waits; [apply Hi|..].
  - right. destruct (resumed_waits s c w Hi Hid Hw) as (d & b & Ht & Hd). by exists w, d, b.
Qed.

(** Coroutine 1 waits; and coroutine 0 is under it once it has been resumed. *)
Lemma coro_mutex_no_lost_waiter_witness :
  ((coros parked_state 1 = LSuspended ∧ 1 ∈ (coro <$> waiters parked_state) ∧ ∃ d, coros parked_state d = Out true) ∨
   (∃ w d b, coros parked_state 1 = UResumed w ∧ top (coros parked_state) w d ∧ coros parked_state d = Out b)) ∧
  ((coros handover_state 0 = LSuspended ∧ 0 ∈ (coro <$> waiters handover_state) ∧ ∃ d, coros handover_state d = Out true) ∨
   (∃ w d b, coros handover_state 0 = UResumed w ∧ top (coros handover_state) w d ∧ coros handover_state d = Out b)).
Proof.
  split; apply coro_mutex_no_lost_waiter;
    try (apply (run_reachable coro_mutex); [done|]; vm_compute; eauto);
    try (intros [|[|c]]; vm_compute; reflexivity); try (intros b; vm_compute; discriminate); vm_compute; discriminate.
Defined.
