(* ===== verification/MutexBench.v ===== *)
(** * bench/bench_async_mutex.cpp

    [TestAsyncMutex] and [TestStdMutex] are one program over two mutexes: threads wait at
    a gate, increment [number] under the mutex, and count a latch down; the main thread
    opens the gate with the gate's own mutex locked, locks and unlocks the mutex, and
    waits for the latch.  The program is a client of the interface [Mutex]; CoroBench.v
    has the two instances.

    [run] and [StartAll] are coroutines in [TestAsyncMutex] and functions in
    [TestStdMutex], which tells what reaching their end is: a function returns, a coroutine
    whose promise has no [return_void] has undefined behaviour, there and then, before its
    locals are destroyed. *)

From stdpp Require Import prelude list.
From S2P Require Import Prelude.
From S2P Require Import Lock.
From S2P Require Import CondVar.

(** ** What the program needs of a mutex *)

(** In its own code without the mutex, in [lock], in its own code with it, in [unlock], or
    at the end of its routine. *)
Inductive mutex_status := Outside | Locking | Inside | Unlocking | Gone.

Class Mutex (M : Type) := {
  mx_new : M;
  mx_status : M → tid → mutex_status;
  mx_lock : tid → M → option M;
  mx_unlock : tid → M → option M;
  mx_step : tid → M → option M;
  mx_returns : bool;             (** reaching the end of a routine is defined *)
  mx_end : tid → M → option M;   (** the end of the routine of a client *)
  mx_resumed : M → tid → Prop    (** the client runs inside the [unlock] of another *)
}.

(** What may happen to a client while a step is taken: it returns from its operation. *)
Definition returns (p q : mutex_status) : Prop :=
  p = q ∨ (p = Locking ∧ q = Inside) ∨ (p = Unlocking ∧ q = Outside).

Class MutexLaws (M : Type) `{Mutex M} := {
  mx_inv : M → Prop;
  mx_new_ok : mx_inv mx_new ∧ ∀ t, mx_status mx_new t = Outside ∧ ¬ mx_resumed mx_new t;
  mx_lock_ok : ∀ m t, mx_inv m → mx_status m t = Outside → ∃ m', mx_lock t m = Some m' ∧ mx_inv m' ∧
    ∀ u, mx_status m' u = (mx_status m)⟦t ↦ Locking⟧ u ∧ (mx_resumed m' u → mx_resumed m u);
  mx_unlock_ok : ∀ m t, mx_inv m → mx_status m t = Inside → ∃ m', mx_unlock t m = Some m' ∧ mx_inv m' ∧
    ∀ u, mx_status m' u = (mx_status m)⟦t ↦ Unlocking⟧ u ∧ (mx_resumed m' u → mx_resumed m u);
  mx_end_ok : ∀ m t, mx_inv m → mx_status m t = Outside → ∃ m', mx_end t m = Some m' ∧ mx_inv m' ∧
    ∀ u, mx_status m' u = (mx_status m)⟦t ↦ Gone⟧ u ∧ (mx_resumed m' u → mx_resumed m u ∧ u ≠ t);
  mx_step_ok : ∀ m t m', mx_inv m → mx_step t m = Some m' → mx_inv m' ∧
    ∀ u, returns (mx_status m u) (mx_status m' u) ∧
      (mx_resumed m' u → mx_resumed m u ∨ mx_status m' u = Inside);
  mx_exclusive : ∀ m t u, mx_inv m → mx_status m t = Inside → mx_status m u = Inside → t = u;
  mx_progress : ∀ m t, mx_inv m → (∀ u, mx_step u m = None) →
    (mx_status m t = Locking → ∃ u, mx_status m u = Inside) ∧
    (mx_status m t = Unlocking → ∃ u, mx_resumed m u ∧ (mx_status m u = Inside ∨ mx_status m u = Outside))
}.

(** ** The program *)

Inductive bench_pc :=
| GLock                       (** [run]: [std::unique_lock lock(cv_wait)] *)
| GTest                       (** [while (!wait_flag)] *)
| GSleep                      (** [cv.wait(lock)] *)
| GWake                       (** woken, to lock [cv_wait] again *)
| GPass                       (** the end of the scope of [lock] *)
| WLock (made : nat)          (** before [lock], with so many increments made *)
| WLocking (made : nat)
| WLoad (made : nat)          (** [number += 1]: the load *)
| WStore (made : nat) (v : Z) (** and the store *)
| WUnlock (made : nat)
| WUnlocking (made : nat)
| WCount                      (** [latch.count_down()] *)
| WReturn                     (** the end of [run] *)
| WUndefined                  (** reached without a [return_void] *)
| WEnd
| SGate                       (** [StartAll]: [std::unique_lock lock(cv_wait)] *)
| SFlag                       (** [wait_flag.store(true)] *)
| SNotify                     (** [cv.notify_all()] *)
| SLock                       (** before [lock] *)
| SLocking
| SUnlock
| SUnlocking
| SReturn                     (** the end of [StartAll] *)
| SUndefined                  (** reached without a [return_void] *)
| SRelease                    (** the destructor of [lock] *)
| SEnd                        (** and the return *)
| SWait                       (** [Wait]: [latch.wait()] *)
| SDone
| Absent.                     (** not a thread of the program *)

Section bench.
  Context {M : Type} `{Mutex M}.

(** [n] threads with [count_iterations] iterations each, of two increments; the main
    thread is number [n]. *)
  Context (n count_iterations : nat).

Record test_mutex := MkTest {
  bmutex : M;
  number : Z;
  latch : nat;
  cv_wait : option tid;
  bcv : condvar;
  wait_flag : bool;
  bpcs : tid → bench_pc
}.

Implicit Types (s : test_mutex) (t : tid).

Definition at_bench s t (p : bench_pc) : test_mutex :=
  MkTest (bmutex s) (number s) (latch s) (cv_wait s) (bcv s) (wait_flag s) (bpcs s)⟦t ↦ p⟧.

Definition set_mutex s (m : M) : test_mutex := MkTest m (number s) (latch s) (cv_wait s) (bcv s) (wait_flag s) (bpcs s).
Definition set_number s (v : Z) : test_mutex := MkTest (bmutex s) v (latch s) (cv_wait s) (bcv s) (wait_flag s) (bpcs s).
Definition set_latch s (l : nat) : test_mutex := MkTest (bmutex s) (number s) l (cv_wait s) (bcv s) (wait_flag s) (bpcs s).
Definition set_gate s (o : option tid) : test_mutex := MkTest (bmutex s) (number s) (latch s) o (bcv s) (wait_flag s) (bpcs s).
Definition set_cv s (cv : condvar) : test_mutex := MkTest (bmutex s) (number s) (latch s) (cv_wait s) cv (wait_flag s) (bpcs s).
Definition set_flag s : test_mutex := MkTest (bmutex s) (number s) (latch s) (cv_wait s) (bcv s) true (bpcs s).

(** [cv.notify_all()] *)
Definition notify_all s : test_mutex :=
  MkTest (bmutex s) (number s) (latch s) (cv_wait s) [] (wait_flag s)
    (λ u, if decide (u ∈ bcv s) then GWake else bpcs s u).

(** How many increments a thread makes. *)
Definition increments : nat := 2 * count_iterations.

(** The start of [run]: the gate. *)
Definition gate_step s t : option test_mutex :=
  match bpcs s t with
  | GLock | GWake => o ← acquire t (cv_wait s); Some (at_bench (set_gate s o) t GTest)
  | GTest =>
      if wait_flag s then Some (at_bench s t GPass)
      else o ← release t (cv_wait s); Some (at_bench (set_cv (set_gate s o) (t :: bcv s)) t GSleep)
  | GPass => o ← release t (cv_wait s); Some (at_bench (set_gate s o) t (WLock 0))
  | _ => None
  end.

(** The loop of [run] and its end. *)
Definition loop_step s t : option test_mutex :=
  match bpcs s t with
  | WLock made =>
      if decide (made < increments) then m ← mx_lock t (bmutex s); Some (at_bench (set_mutex s m) t (WLocking made))
      else Some (at_bench s t WCount)
  | WLocking made => match mx_status (bmutex s) t with Inside => Some (at_bench s t (WLoad made)) | _ => None end
  | WLoad made => Some (at_bench s t (WStore made (number s)))
  | WStore made v => Some (at_bench (set_number s (sz_add v 1)) t (WUnlock (S made)))
  | WUnlock made => m ← mx_unlock t (bmutex s); Some (at_bench (set_mutex s m) t (WUnlocking made))
  | WUnlocking made => match mx_status (bmutex s) t with Outside => Some (at_bench s t (WLock made)) | _ => None end
  | WCount => match latch s with 0 => None | S l => Some (at_bench (set_latch s l) t WReturn) end
  | WReturn =>
      if mx_returns then m ← mx_end t (bmutex s); Some (at_bench (set_mutex s m) t WEnd)
      else Some (at_bench s t WUndefined)
  | _ => None
  end.

(** [StartAll] and [Wait]. *)
Definition main_step s t : option test_mutex :=
  match bpcs s t with
  | SGate => o ← acquire t (cv_wait s); Some (at_bench (set_gate s o) t SFlag)
  | SFlag => Some (at_bench (set_flag s) t SNotify)
  | SNotify => Some (at_bench (notify_all s) t SLock)
  | SLock => m ← mx_lock t (bmutex s); Some (at_bench (set_mutex s m) t SLocking)
  | SLocking => match mx_status (bmutex s) t with Inside => Some (at_bench s t SUnlock) | _ => None end
  | SUnlock => m ← mx_unlock t (bmutex s); Some (at_bench (set_mutex s m) t SUnlocking)
  | SUnlocking => match mx_status (bmutex s) t with Outside => Some (at_bench s t SReturn) | _ => None end
  | SReturn => Some (at_bench s t (if mx_returns then SRelease else SUndefined))
  | SRelease => o ← release t (cv_wait s); Some (at_bench (set_gate s o) t SEnd)
  | SEnd => m ← mx_end t (bmutex s); Some (at_bench (set_mutex s m) t SWait)
  | SWait => match latch s with 0 => Some (at_bench s t SDone) | S _ => None end
  | _ => None
  end.

(** A thread goes on, is in an operation of the mutex, or wakes spuriously. *)
Inductive bench_label := BStep (t : tid) | BMutex (t : tid) | BSpurious (t : tid).

Definition bench_step (l : bench_label) s : option test_mutex :=
  match l with
  | BStep t =>
      match gate_step s t with
      | Some s' => Some s'
      | None => match loop_step s t with Some s' => Some s' | None => main_step s t end
      end
  | BMutex t => m ← mx_step t (bmutex s); Some (set_mutex s m)
  | BSpurious t =>
      match bpcs s t with GSleep => Some (at_bench (set_cv s (wake t (bcv s))) t GWake) | _ => None end
  end.

(** Threads [0 .. n - 1] start in [run], the main thread in [StartAll]. *)
Definition new_test : test_mutex :=
  MkTest mx_new 0 n None [] false (λ t, if decide (t < n) then GLock else if decide (t = n) then SGate else Absent).

Definition bench_mutex : lts test_mutex bench_label := Lts (λ s, s = new_test) bench_step.

(** ** The invariant *)

(** What a position says of the mutex. *)
Definition agrees (p : bench_pc) (q : mutex_status) : Prop :=
  match p with
  | WLocking _ | SLocking => q = Locking ∨ q = Inside
  | WLoad _ | WStore _ _ | WUnlock _ | SUnlock => q = Inside
  | WUnlocking _ | SUnlocking => q = Unlocking ∨ q = Outside
  | WEnd | SWait | SDone => q = Gone
  | _ => q = Outside
  end.

(** The increments of a thread that are in [number]. *)
Definition made_by (p : bench_pc) : nat :=
  match p with
  | WLock d | WLocking d | WLoad d | WStore d _ | WUnlock d | WUnlocking d => d
  | WCount | WReturn | WUndefined | WEnd => increments
  | _ => 0
  end.

Definition made_ok (p : bench_pc) : Prop :=
  match p with
  | WLocking d | WLoad d | WStore d _ => d < increments
  | WLock d | WUnlock d | WUnlocking d => d <= increments
  | _ => True
  end.

(** Still to count down. *)
Definition counting (p : bench_pc) : nat := match p with WReturn | WUndefined | WEnd => 0 | _ => 1 end.

Definition holds_gate (p : bench_pc) : bool :=
  match p with
  | GTest | GPass | SFlag | SNotify | SLock | SLocking | SUnlock | SUnlocking | SReturn | SUndefined | SRelease => true
  | _ => false
  end.

Definition asleep (p : bench_pc) : bool := match p with GSleep => true | _ => false end.

(** Before the gate has been passed. *)
Definition at_gate (p : bench_pc) : bool :=
  match p with GLock | GTest | GSleep | GWake => true | _ => false end.

Definition worker (p : bench_pc) : bool :=
  match p with
  | GLock | GTest | GSleep | GWake | GPass | WLock _ | WLocking _ | WLoad _ | WStore _ _ | WUnlock _ | WUnlocking _
  | WCount | WReturn | WUndefined | WEnd => true
  | _ => false
  end.

(** Between its first [lock] and the end of its routine. *)
Definition underway (p : bench_pc) : bool :=
  match p with
  | WLock _ | WLocking _ | WLoad _ | WStore _ _ | WUnlock _ | WUnlocking _ | WCount | WReturn | WUndefined
  | SLocking | SUnlock | SUnlocking | SReturn | SUndefined | SRelease | SEnd => true
  | _ => false
  end.

(** At an end that is not defined, and behind one that is. *)
Definition undefined (p : bench_pc) : bool := match p with WUndefined | SUndefined => true | _ => false end.
Definition behind_end (p : bench_pc) : bool := match p with WEnd | SRelease | SEnd | SWait | SDone => true | _ => false end.

(** [StartAll] has not released the gate. *)
Definition starting (p : bench_pc) : bool :=
  match p with
  | SGate | SFlag | SNotify | SLock | SLocking | SUnlock | SUnlocking | SReturn | SUndefined | SRelease => true
  | _ => false
  end.

Definition flag_set (p : bench_pc) : bool := match p with SGate | SFlag => false | _ => true end.
Definition notified (p : bench_pc) : bool := match p with SGate | SFlag | SNotify => false | _ => true end.

(** The mutex and the counter. *)
Record count_inv `{!MutexLaws M} s : Prop := CountInv {
  ci_mutex : mx_inv (bmutex s);
  ci_agrees : ∀ t, agrees (bpcs s t) (mx_status (bmutex s) t);
  ci_resumed : ∀ t, mx_resumed (bmutex s) t → underway (bpcs s t) = true;
  ci_made : ∀ t, made_ok (bpcs s t);
  ci_store : ∀ t d v, bpcs s t = WStore d v → v = number s;
  ci_number : number s = wrap64 (Z.of_nat (sum_list_with (λ t, made_by (bpcs s t)) (seq 0 n)))
}.

(** The gate and the latch. *)
Record gate_inv s : Prop := GateInv {
  gi_gate : held holds_gate (cv_wait s) (bpcs s);
  gi_sleep : sleeping asleep (bcv s) (bpcs s);
  gi_worker : ∀ t, worker (bpcs s t) = true ↔ t < n;
  gi_absent : ∀ t, bpcs s t = Absent ↔ n < t;
  gi_latch : latch s = sum_list_with (λ t, counting (bpcs s t)) (seq 0 n);
  gi_starting : starting (bpcs s n) = true → ∀ t, t < n → at_gate (bpcs s t) = true;
  gi_flag : wait_flag s = flag_set (bpcs s n);
  gi_sleepers : ∀ t, bpcs s t = GSleep → notified (bpcs s n) = false;
  gi_done : bpcs s n = SDone → latch s = 0
}.
End bench.

Arguments test_mutex M : clear implicits.

(** A sum over the threads when one of them moves. *)
Lemma sum_moved (f : bench_pc → nat) (pcs : tid → bench_pc) n t p : t < n ∨ f p = f (pcs t) →
  sum_list_with (λ u, f (pcs⟦t ↦ p⟧ u)) (seq 0 n) + f (pcs t) = sum_list_with (λ u, f (pcs u)) (seq 0 n) + f p.
Proof.
  intros [Ht|Ht].
  - pose proof (sum_one (λ u, f (pcs⟦t ↦ p⟧ u)) (λ u, f (pcs u)) t (seq 0 n) (NoDup_seq _ _)) as Hs.
    cbn beta in Hs. rewrite upd_eq in Hs. apply Hs; [apply elem_of_seq; lia|]. intros u Hu. by rewrite upd_ne.
  - rewrite Ht. f_equal. apply sum_list_with_ext. intros u _. by upd_cases.
Qed.

Section counting.
  Context {M : Type} `{MutexLaws M} (n k : nat).
  Implicit Types (s : test_mutex M) (t : tid).

(** A step that makes no increment. *)
Lemma bench_local s s' t p : count_inv n k s → bpcs s' = (bpcs s)⟦t ↦ p⟧ → mx_inv (bmutex s') →
  (∀ u, u ≠ t → agrees (bpcs s u) (mx_status (bmutex s') u)) → agrees p (mx_status (bmutex s') t) →
  (∀ u, mx_resumed (bmutex s') u → mx_resumed (bmutex s) u) →
  (underway (bpcs s t) = true → underway p = true ∨ ¬ mx_resumed (bmutex s') t) →
  made_ok k p → made_by k p = made_by k (bpcs s t) → number s' = number s →
  (∀ d v, p = WStore d v → v = number s) → count_inv n k s'.
Proof.
  intros [Hm Ha Hre Hk Hst Hn] E Hm' Ha' Hp Hr Hu Hok Hmade En Hv. split; rewrite ?E, ?En; try done.
  - intros u. upd_cases; auto.
  - intros u Hru. upd_cases; [|by apply Hre, Hr]. destruct Hu as [?|?]; [by apply Hre, Hr|done..].
  - intros u. by upd_cases.
  - intros u d v. upd_cases; [intros ->; by eapply Hv|apply Hst].
  - rewrite Hn. do 2 f_equal. pose proof (sum_moved (made_by k) (bpcs s) n t p (or_intror Hmade)). lia.
Qed.

(** A step of the client that leaves the mutex alone. *)
Lemma count_own s s' t p : count_inv n k s → bpcs s' = (bpcs s)⟦t ↦ p⟧ → bmutex s' = bmutex s →
  agrees p (mx_status (bmutex s) t) → (underway (bpcs s t) = true → underway p = true) →
  made_ok k p → made_by k p = made_by k (bpcs s t) → number s' = number s →
  (∀ d v, p = WStore d v → v = number s) → count_inv n k s'.
Proof.
  intros Hi E Em. intros. apply (bench_local s s' t p); rewrite ?Em; try done; [by apply (ci_mutex n k)|..].
  - intros u _. by apply (ci_agrees n k).
  - left. auto.
Qed.

(** The call of an operation. *)
Lemma count_call s t p q m : count_inv n k s → mx_inv m →
  (∀ u, mx_status m u = (mx_status (bmutex s))⟦t ↦ q⟧ u ∧ (mx_resumed m u → mx_resumed (bmutex s) u)) →
  agrees p q → (underway (bpcs s t) = true → underway p = true ∨ ¬ mx_resumed m t) →
  made_ok k p → made_by k p = made_by k (bpcs s t) → (∀ d v, p ≠ WStore d v) →
  count_inv n k (at_bench (set_mutex s m) t p).
Proof.
  intros Hi Hm Hs Hp Hu Hok Hmade Hv. apply (bench_local s _ t p); try done.
  - intros u Hut. cbn. rewrite (proj1 (Hs u)), upd_ne by done. apply Hi.
  - cbn. by rewrite (proj1 (Hs t)), upd_eq.
  - intros u. apply (proj2 (Hs u)).
  - intros d v ->. by destruct (Hv d v).
Qed.

(** The end of a routine. *)
Lemma count_end s t p m : count_inv n k s → mx_inv m →
  (∀ u, mx_status m u = (mx_status (bmutex s))⟦t ↦ Gone⟧ u ∧ (mx_resumed m u → mx_resumed (bmutex s) u ∧ u ≠ t)) →
  agrees p Gone → made_ok k p → made_by k p = made_by k (bpcs s t) → (∀ d v, p ≠ WStore d v) →
  count_inv n k (at_bench (set_mutex s m) t p).
Proof.
  intros Hi Hm Hs. intros. apply (count_call s t p Gone); try done.
  - intros u. split; [apply Hs|]. intros Hu. by apply Hs.
  - intros _. right. intros Hu. by apply Hs in Hu as [_ ?].
Qed.

Lemma agrees_returns p q q' : agrees p q → returns q q' → agrees p q'.
Proof. intros Ha [<-|[[-> ->]|[-> ->]]]; [done|..]; destruct p; naive_solver. Qed.

(** A step inside the mutex. *)
Lemma count_mutex s t m : count_inv n k s → mx_step t (bmutex s) = Some m → count_inv n k (set_mutex s m).
Proof.
  intros [Hm Ha Hre Hk Hst Hn] Hs. destruct (mx_step_ok _ _ _ Hm Hs) as [Hm' Hr].
  assert (∀ u, agrees (bpcs s u) (mx_status m u)) as Ha' by (intros u; apply (agrees_returns _ _ _ (Ha u)), Hr).
  split; try done. intros u Hu. cbn in *. apply Hr in Hu as [Hu|Hu]; [by apply Hre|].
  specialize (Ha' u). rewrite Hu in Ha'. by destruct (bpcs s u).
Qed.

(** The increment: nobody else has read [number] to write it. *)
Lemma count_store s t d v : count_inv n k s → worker (bpcs s t) = true → t < n → bpcs s t = WStore d v →
  count_inv n k (at_bench (set_number s (sz_add v 1)) t (WUnlock (S d))).
Proof.
  intros [Hm Ha Hre Hk Hst Hn] Hw Ht E. pose proof (Hst t d v E) as ->.
  pose proof (Ha t) as Hat. pose proof (Hk t) as Hkt. rewrite E in Hat, Hkt. simpl in Hat, Hkt.
  split; cbn; [done|..].
  - intros u. upd_cases; done.
  - intros u Hu%Hre. by upd_cases.
  - intros u. by upd_cases.
  - intros u d' v'. upd_cases. intros Eu. pose proof (Ha u) as Hau. rewrite Eu in Hau. simpl in Hau.
    by destruct (mx_exclusive _ t u Hm Hat Hau).
  - pose proof (sum_moved (made_by k) (bpcs s) n t (WUnlock (S d)) (or_introl Ht)) as Hs. rewrite E in Hs. simpl in Hs.
    rewrite Hn, sz_add_wrap. f_equal. lia.
Qed.

(** Waking the sleepers. *)
Lemma count_notify s : sleeping asleep (bcv s) (bpcs s) → count_inv n k s → count_inv n k (notify_all s).
Proof.
  intros Hsl [Hm Ha Hre Hk Hst Hn]. assert (∀ u, u ∈ bcv s → bpcs s u = GSleep) as Hs.
  { intros u Hu%Hsl. by destruct (bpcs s u). }
  assert (∀ u, made_by k (bpcs (notify_all s) u) = made_by k (bpcs s u)) as Hmade.
  { intros u. cbn. case_decide as Hu; [|done]. by rewrite (Hs u Hu). }
  split; cbn [notify_all bmutex number bpcs]; [done|..].
  - intros u. specialize (Ha u). case_decide as Hu; [|done]. by rewrite (Hs u Hu) in Ha.
  - intros u Hr%Hre. case_decide as Hu; [|done]. by rewrite (Hs u Hu) in Hr.
  - intros u. by case_decide.
  - intros u d v. case_decide; [done|apply Hst].
  - rewrite Hn. do 2 f_equal. symmetry. apply sum_list_with_ext. intros u _. apply Hmade.
Qed.

Section one_step.
  Context s t (Hg : gate_inv n s) (Hi : count_inv n k s).

Lemma count_stays p s' : bpcs s' = (bpcs s)⟦t ↦ p⟧ → bmutex s' = bmutex s → number s' = number s →
  agrees p (mx_status (bmutex s) t) → (underway (bpcs s t) = true → underway p = true) →
  made_ok k p → made_by k p = made_by k (bpcs s t) →
  (∀ d v, p = WStore d v → v = number s) → count_inv n k s'.
Proof using Hi. intros. by eapply (count_own s _ t). Qed.

Lemma count_gate s' : gate_step s t = Some s' → count_inv n k s'.
Proof using Hi.
  intros E1. pose proof (ci_agrees _ _ _ Hi t) as Ha. unfold gate_step in E1.
  destruct (bpcs s t) eqn:E; try done; try (case_match; simplify_eq);
    try (destruct (release t (cv_wait s)); simplify_eq/=); try (destruct (acquire t (cv_wait s)); simplify_eq/=);
    eapply count_stays; try done; rewrite ?E; simpl; done || lia.
Qed.

Lemma count_loop s' : loop_step k s t = Some s' → count_inv n k s'.
Proof using Hg Hi.
  intros E1. pose proof (ci_agrees _ _ _ Hi t) as Ha. pose proof (ci_made _ _ _ Hi t) as Hk.
  pose proof (ci_mutex _ _ _ Hi) as Hm. unfold loop_step in E1.
  destruct (bpcs s t) as [| | | | |d|d|d|d v|d|d| | | | | | | | | | | | | | | | | |] eqn:E; try done; simpl in Ha, Hk.
  - case_decide as Hd; simplify_eq.
    + destruct (mx_lock_ok _ t Hm Ha) as (m & Em & Hm' & Hs). rewrite Em in E1. simplify_eq/=.
      eapply count_call; try done; [by left|by left|by rewrite E].
    + eapply count_stays; try done. rewrite E. simpl. lia.
  - destruct (mx_status (bmutex s) t) eqn:Es; simplify_eq. eapply count_stays; try done; by rewrite ?Es, ?E.
  - simplify_eq. eapply count_stays; try done; [by rewrite E|]. by intros ? ? [= _ <-].
  - simplify_eq. apply count_store; try done; [by rewrite E|]. apply (gi_worker _ _ Hg). by rewrite E.
  - destruct (mx_unlock_ok _ t Hm Ha) as (m & Em & Hm' & Hs). rewrite Em in E1. simplify_eq/=.
    eapply count_call; try done; [by left|by left|by rewrite E].
  - destruct (mx_status (bmutex s) t) eqn:Es; simplify_eq. eapply count_stays; try done; by rewrite ?Es, ?E.
  - destruct (latch s); simplify_eq. eapply count_stays; try done. by rewrite E.
  - destruct mx_returns; simplify_eq; [|eapply count_stays; try done; by rewrite E].
    destruct (mx_end_ok _ t Hm Ha) as (m & Em & Hm' & Hs). rewrite Em in E1. simplify_eq/=.
    eapply count_end; try done. by rewrite E.
Qed.

Lemma count_main s' : main_step s t = Some s' → count_inv n k s'.
Proof using Hg Hi.
  intros E1. pose proof (ci_agrees _ _ _ Hi t) as Ha. pose proof (ci_mutex _ _ _ Hi) as Hm. unfold main_step in E1.
  destruct (bpcs s t) eqn:E; try done; simpl in Ha; simplify_eq.
  - destruct (acquire t (cv_wait s)); simplify_eq/=. eapply count_stays; try done; by rewrite E.
  - eapply count_stays; try done; by rewrite E.
  - pose proof (count_notify s (gi_sleep _ _ Hg) Hi) as Hn. assert (bpcs (notify_all s) t = SNotify) as E'.
    { cbn. rewrite decide_False; [done|]. intros Hu%(gi_sleep _ _ Hg). by rewrite E in Hu. }
    eapply (count_own (notify_all s) _ t); try done; by rewrite E'.
  - destruct (mx_lock_ok _ t Hm Ha) as (m & Em & Hm' & Hs). rewrite Em in E1. simplify_eq/=.
    eapply count_call; try done; [by left|by left|by rewrite E].
  - destruct (mx_status (bmutex s) t) eqn:Es; simplify_eq. eapply count_stays; try done; by rewrite ?Es, ?E.
  - destruct (mx_unlock_ok _ t Hm Ha) as (m & Em & Hm' & Hs). rewrite Em in E1. simplify_eq/=.
    eapply count_call; try done; [by left|by left|by rewrite E].
  - destruct (mx_status (bmutex s) t) eqn:Es; simplify_eq. eapply count_stays; try done; by rewrite ?Es, ?E.
  - eapply count_stays; try done; destruct mx_returns; by rewrite ?E.
  - destruct (release t (cv_wait s)); simplify_eq/=. eapply count_stays; try done; by rewrite E.
  - destruct (mx_end_ok _ t Hm Ha) as (m & Em & Hm' & Hs). rewrite Em in E1. simplify_eq/=.
    eapply count_end; try done. by rewrite E.
  - destruct (latch s); simplify_eq. eapply count_stays; try done; by rewrite E.
Qed.
End one_step.

Lemma bench_count l s s' : gate_inv n s → count_inv n k s → bench_step k l s = Some s' → count_inv n k s'.
Proof.
  intros Hg Hi Hstep. destruct l as [t|t|t]; cbn [bench_step] in Hstep.
  - destruct (gate_step s t) eqn:E1; simplify_eq; [by eapply count_gate|].
    destruct (loop_step k s t) eqn:E2; simplify_eq; [by eapply count_loop|by eapply count_main].
  - destruct (mx_step t (bmutex s)) as [m|] eqn:E; simplify_eq/=. by eapply count_mutex.
  - pose proof (ci_agrees _ _ _ Hi t) as Hat. destruct (bpcs s t) eqn:E; simplify_eq.
    eapply (count_own s _ t); try done; by rewrite E.
Qed.
End counting.

Section gate.
  Context {M : Type} `{Mutex M} (n k : nat).
  Implicit Types (s : test_mutex M) (t : tid).

(** A worker moves. *)
Lemma gate_worker s s' t p : gate_inv n s → worker (bpcs s t) = true → worker p = true →
  bpcs s' = (bpcs s)⟦t ↦ p⟧ → held holds_gate (cv_wait s') (bpcs s)⟦t ↦ p⟧ → sleeping asleep (bcv s') (bpcs s)⟦t ↦ p⟧ →
  wait_flag s' = wait_flag s → latch s' + counting (bpcs s t) = latch s + counting p → counting p <= counting (bpcs s t) →
  (starting (bpcs s n) = true → at_gate p = true) → (p = GSleep → notified (bpcs s n) = false) → gate_inv n s'.
Proof.
  intros [Hga Hsl Hw Hab Hla Hst Hf Hz Hd] Hwt Hwp E Hga' Hsl' Ef El Hc Hg Hp.
  assert (t < n) as Ht by (by apply Hw). assert ((bpcs s)⟦t ↦ p⟧ n = bpcs s n) as En by (apply upd_ne; lia).
  split; rewrite ?E, ?En; try done.
  - intros u. unfold upd. case_decide as Hu; [subst; by rewrite Hwp|apply Hw].
  - intros u. unfold upd. case_decide as Hu; [subst; split; [by intros ->|lia]|apply Hab].
  - pose proof (sum_moved counting (bpcs s) n t p (or_introl Ht)). lia.
  - intros Hs u Hu. unfold upd. case_decide; [by apply Hg|by apply Hst].
  - by rewrite Ef.
  - intros u. unfold upd. case_decide; [apply Hp|apply Hz].
  - intros Hdn. specialize (Hd Hdn). lia.
Qed.

(** The main thread moves. *)
Lemma gate_main s s' p : gate_inv n s → worker p = false → p ≠ Absent →
  bpcs s' = (bpcs s)⟦n ↦ p⟧ → held holds_gate (cv_wait s') (bpcs s)⟦n ↦ p⟧ → bcv s' = bcv s →
  asleep (bpcs s n) = false → latch s' = latch s → wait_flag s' = flag_set p →
  (starting p = true → starting (bpcs s n) = true) →
  (notified p = true → notified (bpcs s n) = true ∨ ∀ t, bpcs s t ≠ GSleep) →
  (p = SDone → latch s = 0) → gate_inv n s'.
Proof.
  intros [Hga Hsl Hw Hab Hla Hst Hf Hz Hd] Hwp Hap E Hga' Ec Has El Ef Hs Hn Hd'.
  assert (∀ u, u < n → (bpcs s)⟦n ↦ p⟧ u = bpcs s u) as Eu by (intros u Hu; apply upd_ne; lia).
  assert (asleep p = false) as Hasp by (by destruct p).
  split; rewrite ?E, ?upd_eq; try done.
  - rewrite Ec. apply sleeping_kept; [done|congruence].
  - intros u. unfold upd. case_decide as Hu; [subst; rewrite Hwp; split; [done|lia]|apply Hw].
  - intros u. unfold upd. case_decide as Hu; [subst; split; [done|lia]|apply Hab].
  - rewrite El, Hla. apply sum_list_with_ext. intros u [_ Hu]%elem_of_seq. by rewrite Eu.
  - intros Hsp u Hu. rewrite Eu by done. by apply Hst; auto.
  - intros u. unfold upd. case_decide as Hu; [intros ->; by destruct n|]. intros Es. specialize (Hz u Es).
    destruct (notified p) eqn:Enp; [|done]. destruct (Hn eq_refl) as [?|Hno]; [congruence|by destruct (Hno u)].
  - by rewrite El.
Qed.

Lemma main_thread s t : gate_inv n s → worker (bpcs s t) = false → bpcs s t ≠ Absent → t = n.
Proof.
  intros Hi Hw Ha. destruct (decide (t < n)) as [Hl|Hl]; [apply (gi_worker _ _ Hi) in Hl; congruence|].
  destruct (decide (n < t)) as [Hg|Hg]; [by apply (gi_absent _ _ Hi) in Hg|lia].
Qed.

(** While the main thread has the gate's mutex, no worker has it. *)
Lemma gate_alone s t : gate_inv n s → holds_gate (bpcs s t) = true → holds_gate (bpcs s n) = true → t = n.
Proof. intros Hi Ht Hn. by apply (held_alone holds_gate (cv_wait s) (bpcs s)); [apply Hi|..]. Qed.

Lemma gate_gate s t s' : gate_inv n s → gate_step s t = Some s' → gate_inv n s'.
Proof.
  intros Hi E1. pose proof Hi as [Hga Hsl Hw Hab Hla Hst Hf Hz Hd]. unfold gate_step in E1.
  destruct (bpcs s t) eqn:E; try done.
  1, 3: destruct (acquire t (cv_wait s)) as [o|] eqn:Ea; simplify_eq/=;
    apply (gate_worker s _ t GTest); rewrite ?E; try done;
    [by eapply held_acquired|by apply sleeping_kept; rewrite ?E].
  - destruct (wait_flag s) eqn:Ew.
    + simplify_eq. apply (gate_worker s _ t GPass); rewrite ?E; try done.
      * apply held_kept; [done|by rewrite E].
      * apply sleeping_kept; [done|by rewrite E].
      * intros Hs. destruct (holds_gate (bpcs s n)) eqn:Eh.
        { assert (t = n) as -> by (apply (gate_alone s t Hi); [by rewrite E|done]).
          assert (n < n) by (apply Hw; by rewrite E). lia. }
        destruct (bpcs s n); done.
    + rewrite (held_release holds_gate _ (bpcs s) t Hga) in E1 by (by rewrite E). simplify_eq/=.
      apply (gate_worker s _ t GSleep); rewrite ?E; try done.
      * by eapply held_released; [done|rewrite E|].
      * by apply sleeping_wait.
      * intros _. by destruct (bpcs s n).
  - rewrite (held_release holds_gate _ (bpcs s) t Hga) in E1 by (by rewrite E). simplify_eq/=.
    apply (gate_worker s _ t (WLock 0)); rewrite ?E; try done.
    + by eapply held_released; [done|rewrite E|].
    + apply sleeping_kept; [done|by rewrite E].
    + intros Hs. assert (t < n) as Ht by (apply Hw; by rewrite E). specialize (Hst Hs t Ht). by rewrite E in Hst.
Qed.

(** A worker behind the gate. *)
Lemma gate_behind s t p s' : gate_inv n s → worker (bpcs s t) = true → at_gate (bpcs s t) = false →
  holds_gate (bpcs s t) = false → worker p = true → holds_gate p = false → at_gate p = false → asleep p = false →
  bpcs s' = (bpcs s)⟦t ↦ p⟧ → cv_wait s' = cv_wait s → bcv s' = bcv s → wait_flag s' = wait_flag s →
  latch s' + counting (bpcs s t) = latch s + counting p → counting p <= counting (bpcs s t) → gate_inv n s'.
Proof.
  intros Hi Hwt Hag Hh Hwp Hhp Hap Hsp E Ec Eb Ef El Hc. pose proof Hi as [Hga Hsl Hw Hab Hla Hst Hf Hz Hd].
  apply (gate_worker s s' t p); try done.
  - rewrite Ec. apply held_kept; [done|congruence].
  - rewrite Eb. apply sleeping_kept; [done|]. rewrite Hsp. by destruct (bpcs s t).
  - intros Hs. specialize (Hst Hs t). rewrite Hst in Hag; [done|by apply Hw].
  - intros ->. done.
Qed.

Lemma gate_loop s t s' : gate_inv n s → loop_step k s t = Some s' → gate_inv n s'.
Proof.
  intros Hi E1. unfold loop_step in E1.
  assert (∀ p s', worker (bpcs s t) = true → at_gate (bpcs s t) = false → holds_gate (bpcs s t) = false →
    worker p = true → holds_gate p = false → at_gate p = false → asleep p = false →
    bpcs s' = (bpcs s)⟦t ↦ p⟧ → cv_wait s' = cv_wait s → bcv s' = bcv s → wait_flag s' = wait_flag s →
    latch s' + counting (bpcs s t) = latch s + counting p → counting p <= counting (bpcs s t) → gate_inv n s') as Hb
    by (intros; by eapply gate_behind).
  destruct (bpcs s t) eqn:E; try done; try (case_decide; simplify_eq); try (case_match; simplify_eq);
    try (destruct (mx_lock t (bmutex s)); simplify_eq/=); try (destruct (mx_unlock t (bmutex s)); simplify_eq/=);
    try (destruct (mx_end t (bmutex s)); simplify_eq/=); eapply Hb; try done; simpl; lia.
Qed.

Lemma gate_notify s : gate_inv n s → (bpcs s n = SNotify) → gate_inv n (at_bench (notify_all s) n SLock).
Proof.
  intros [Hga Hsl Hw Hab Hla Hst Hf Hz Hd] E.
  assert (∀ u, u ∈ bcv s → bpcs s u = GSleep) as Hs by (intros u Hu%Hsl; by destruct (bpcs s u)).
  set (pcs := bpcs (notify_all s)). assert (∀ u, pcs u = GWake ∧ bpcs s u = GSleep ∨ pcs u = bpcs s u ∧ bpcs s u ≠ GSleep) as Hp.
  { intros u. unfold pcs. cbn. case_decide as Hu; [left; auto|right]. split; [done|]. intros Eu. apply Hu, Hsl. by rewrite Eu. }
  assert (∀ u (f : bench_pc → bool), f GWake = f GSleep → f (pcs u) = f (bpcs s u)) as Hfp.
  { intros u f Hfu. destruct (Hp u) as [[-> ->]|[-> _]]; done. }
  assert (pcs n = SNotify) as En by (destruct (Hp n) as [[_ ?]|[-> _]]; congruence).
  split; cbn [at_bench cv_wait bcv bpcs latch wait_flag]; fold pcs; change (cv_wait (notify_all s)) with (cv_wait s);
    change (bcv (notify_all s)) with (@nil tid); change (latch (notify_all s)) with (latch s);
    change (wait_flag (notify_all s)) with (wait_flag s); rewrite ?upd_eq; try done.
  - apply held_kept; [|by rewrite En]. intros u. rewrite (Hfp u holds_gate eq_refl). apply Hga.
  - intros u. rewrite elem_of_nil. split; [done|]. unfold upd. case_decide; [done|].
    destruct (Hp u) as [[-> _]|[-> Hu]]; [done|]. by destruct (bpcs s u).
  - intros u. unfold upd. case_decide as Hu; [subst; split; [done|lia]|]. rewrite (Hfp u worker eq_refl). apply Hw.
  - intros u. unfold upd. case_decide as Hu; [subst; split; [done|lia]|]. rewrite <-Hab.
    destruct (Hp u) as [[-> ->]|[-> _]]; done.
  - rewrite Hla. apply sum_list_with_ext. intros u [_ Hu]%elem_of_seq. rewrite upd_ne by lia.
    destruct (Hp u) as [[-> ->]|[-> _]]; done.
  - intros _ u Hu. rewrite upd_ne by lia. rewrite (Hfp u at_gate eq_refl). apply Hst; [by rewrite E|done].
  - rewrite Hf, E. done.
  - intros u. unfold upd. case_decide; [done|]. destruct (Hp u) as [[-> _]|[-> Hu]]; done.
Qed.

Lemma gate_start s t s' : gate_inv n s → main_step s t = Some s' → gate_inv n s'.
Proof.
  intros Hi E1. assert (t = n) as ->.
  { unfold main_step in E1. eapply main_thread; [done|..]; by destruct (bpcs s t). }
  pose proof Hi as [Hga Hsl Hw Hab Hla Hst Hf Hz Hd]. unfold main_step in E1.
  assert (∀ p s', worker p = false → p ≠ Absent → bpcs s' = (bpcs s)⟦n ↦ p⟧ →
    holds_gate p = holds_gate (bpcs s n) → cv_wait s' = cv_wait s → bcv s' = bcv s →
    asleep (bpcs s n) = false → latch s' = latch s → wait_flag s' = flag_set p →
    (starting p = true → starting (bpcs s n) = true) → (notified p = true → notified (bpcs s n) = true) →
    (p = SDone → latch s = 0) → gate_inv n s') as Hm.
  { intros p s0 H1 H2 H3 H4 H5 H6 H7 H8 H9 H10 H11 H12. eapply (gate_main s s0 p); try done.
    - rewrite H5. by apply held_kept.
    - intros Hnp. left. auto. }
  destruct (bpcs s n) eqn:E; try done; simplify_eq.
  - destruct (acquire n (cv_wait s)) as [o|] eqn:Ea; simplify_eq/=.
    apply (gate_main s _ SFlag); rewrite ?E; try done. by eapply held_acquired.
  - by apply (Hm SNotify).
  - by apply gate_notify.
  - destruct (mx_lock n (bmutex s)); simplify_eq/=. by apply (Hm SLocking).
  - destruct (mx_status (bmutex s) n); simplify_eq. by apply (Hm SUnlock).
  - destruct (mx_unlock n (bmutex s)); simplify_eq/=. by apply (Hm SUnlocking).
  - destruct (mx_status (bmutex s) n); simplify_eq. by apply (Hm SReturn).
  - destruct mx_returns; [by apply (Hm SRelease)|by apply (Hm SUndefined)].
  - rewrite (held_release holds_gate _ (bpcs s) n Hga) in E1 by (by rewrite E). simplify_eq/=.
    apply (gate_main s _ SEnd); rewrite ?E; try done; [by eapply held_released; [done|rewrite E|]|by left].
  - destruct (mx_end n (bmutex s)); simplify_eq/=. by apply (Hm SWait).
  - destruct (latch s) eqn:El; simplify_eq. by apply (Hm SDone).
Qed.

Lemma bench_gate l s s' : gate_inv n s → bench_step k l s = Some s' → gate_inv n s'.
Proof.
  intros Hi Hstep. destruct l as [t|t|t]; cbn [bench_step] in Hstep.
  - destruct (gate_step s t) eqn:E1; simplify_eq; [by eapply gate_gate|].
    destruct (loop_step k s t) eqn:E2; simplify_eq; [by eapply gate_loop|by eapply gate_start].
  - destruct (mx_step t (bmutex s)) as [m|]; simplify_eq/=. by destruct Hi.
  - destruct (bpcs s t) eqn:E; simplify_eq. pose proof Hi as [Hga Hsl Hw Hab Hla Hst Hf Hz Hd].
    apply (gate_worker s _ t GWake); rewrite ?E; try done.
    + apply held_kept; [done|by rewrite E].
    + by apply sleeping_wake.
Qed.
End gate.

(** ** What the program does *)

Section results.
  Context {M : Type} `{MutexLaws M} (n k : nat).
  Implicit Types (s : test_mutex M) (t : tid).

Lemma bench_invariant s : reachable (bench_mutex n k) s → gate_inv n s ∧ count_inv n k s.
Proof.
  revert s. apply (invariant_intro (bench_mutex n k)).
  - intros s ->. destruct mx_new_ok as [Hm Ho].
    assert (∀ t, bpcs (new_test n) t = GLock ∧ t < n ∨ bpcs (new_test n) t = SGate ∧ t = n ∨
      bpcs (new_test n) t = Absent ∧ n < t) as Hp by (intros t; cbn; repeat case_decide; auto with lia).
    assert (bpcs (new_test n) n = SGate) as En by (destruct (Hp n) as [[_ ?]|[[? _]|[_ ?]]]; done || lia).
    split; split; rewrite ?En; cbn [new_test cv_wait bcv latch wait_flag number bmutex]; try done.
    + intros t. split; [done|]. by destruct (Hp t) as [[-> _]|[[-> _]|[-> _]]].
    + intros t. rewrite elem_of_nil. split; [done|]. by destruct (Hp t) as [[-> _]|[[-> _]|[-> _]]].
    + intros t. destruct (Hp t) as [[-> ?]|[[-> ?]|[-> ?]]]; simpl; split; done || lia.
    + intros t. destruct (Hp t) as [[-> ?]|[[-> ?]|[-> ?]]]; simpl; split; done || lia.
    + rewrite (sum_list_with_ext _ (λ _, 1) (seq 0 n)).
      * by rewrite sum_list_with_const, length_seq, Nat.mul_1_r.
      * intros t [_ Ht]%elem_of_seq. destruct (Hp t) as [[-> _]|[[-> ?]|[-> ?]]]; simpl; done || lia.
    + intros _ t Ht. destruct (Hp t) as [[-> _]|[[-> ?]|[-> ?]]]; simpl; done || lia.
    + intros t. rewrite (proj1 (Ho t)). by destruct (Hp t) as [[-> _]|[[-> _]|[-> _]]].
    + intros t Hr. by destruct (Ho t) as [_ ?].
    + intros t. by destruct (Hp t) as [[-> _]|[[-> _]|[-> _]]].
    + intros t d v. by destruct (Hp t) as [[-> _]|[[-> _]|[-> _]]].
    + rewrite sum_list_with_zero; [done|]. intros t _. by destruct (Hp t) as [[-> _]|[[-> _]|[-> _]]].
  - intros l s s' [Hg Hc] Hs. split; [by apply (bench_gate n k l s)|by apply (bench_count n k l s)].
Qed.

(** Whether the end of a routine is defined tells who gets there. *)
Lemma bench_ends s t : reachable (bench_mutex n k) s →
  (undefined (bpcs s t) = true → mx_returns = false) ∧ (behind_end (bpcs s t) = true → mx_returns = true).
Proof.
  intros Hr. revert s Hr t. apply (invariant_intro (bench_mutex n k) (λ s, ∀ t,
    (undefined (bpcs s t) = true → mx_returns = false) ∧ (behind_end (bpcs s t) = true → mx_returns = true))).
  { intros s -> t. cbn. by repeat case_decide. }
  intros l s s' Hi Hstep. change (bench_step k l s = Some s') in Hstep.
  assert (∀ t p s1, bpcs s1 = (bpcs s)⟦t ↦ p⟧ → (undefined p = true → mx_returns = false) →
    (behind_end p = true → behind_end (bpcs s t) = true ∨ mx_returns = true) → ∀ u,
    (undefined (bpcs s1 u) = true → mx_returns = false) ∧ (behind_end (bpcs s1 u) = true → mx_returns = true)) as Hp.
  { intros t p s1 -> H1 H2 u. unfold upd. case_decide; [|by apply Hi]. split; [done|]. intros [?|?]%H2; [by apply (Hi t)|done]. }
  destruct l as [t|t|t]; cbn [bench_step] in Hstep.
  - destruct (gate_step s t) eqn:E1; simplify_eq; [|destruct (loop_step k s t) eqn:E2; simplify_eq; [clear E1|clear E1 E2]].
    + unfold gate_step in E1. destruct (bpcs s t) eqn:E; try done; repeat case_match; simplify_eq;
        try (apply bind_Some in E1 as (o & _ & [= <-])); (eapply Hp; [reflexivity|done|done]).
    + unfold loop_step in E2. destruct (bpcs s t) eqn:E; try done; repeat case_match; simplify_eq;
        try (apply bind_Some in E2 as (o & _ & [= <-])); eapply Hp; try done; by right.
    + unfold main_step in Hstep. destruct (bpcs s t) eqn:E; try done; repeat case_match; simplify_eq;
        try (apply bind_Some in Hstep as (o & _ & [= <-])); try (eapply Hp; [done|done|rewrite E; simpl; auto]; fail).
      * assert (∀ u, bpcs (notify_all s) u = GWake ∨ bpcs (notify_all s) u = bpcs s u) as Hn by (intros u; cbn; case_decide; auto).
        intros u. cbn [at_bench bpcs]. unfold upd. case_decide; [done|]. destruct (Hn u) as [-> | ->]; [done|apply Hi].
  - apply bind_Some in Hstep as (m & _ & [= <-]). apply Hi.
  - destruct (bpcs s t) eqn:E; simplify_eq. by eapply Hp.
Qed.

(** A latch at zero: every thread has counted down. *)
Lemma latch_zero s : gate_inv n s → latch s = 0 → ∀ t, t < n → counting (bpcs s t) = 0.
Proof.
  intros Hg Hl t Ht. rewrite (gi_latch _ _ Hg) in Hl.
  assert (∀ l, sum_list_with (λ u, counting (bpcs s u)) l = 0 → ∀ u, u ∈ l → counting (bpcs s u) = 0) as Hz.
  { induction l as [|x l IH]; intros Hs u Hu; [by apply elem_of_nil in Hu|]. simpl in Hs.
    apply elem_of_cons in Hu as [->|Hu]; [lia|apply IH; [lia|done]]. }
  apply (Hz _ Hl t), elem_of_seq. lia.
Qed.

(** When the main thread is through, the ends are defined, all the increments have been
    made and nobody uses the mutex. *)
Lemma bench_counts s : reachable (bench_mutex n k) s → bpcs s n = SDone →
  mx_returns = true ∧ number s = wrap64 (Z.of_nat (n * (2 * k))) ∧
  ∀ t, mx_status (bmutex s) t = Outside ∨ mx_status (bmutex s) t = Gone.
Proof.
  intros Hr Hd. destruct (bench_invariant s Hr) as [Hg Hc]. pose proof (latch_zero s Hg (gi_done _ _ Hg Hd)) as He.
  split; [|split].
  - apply (bench_ends s n Hr). by rewrite Hd.
  - rewrite (ci_number _ _ _ Hc). do 2 f_equal.
    rewrite (sum_list_with_ext _ (λ _, increments k) (seq 0 n)).
    + by rewrite sum_list_with_const, length_seq.
    + intros t [_ Ht]%elem_of_seq. specialize (He t Ht). by destruct (bpcs s t).
  - intros t. pose proof (ci_agrees _ _ _ Hc t) as Ha. destruct (decide (t < n)) as [Ht|Ht].
    + specialize (He t Ht). destruct (bpcs s t); auto; done.
    + destruct (decide (t = n)) as [->|Hne]; [rewrite Hd in Ha; by right|].
      assert (bpcs s t = Absent) as E by (apply (gi_absent _ _ Hg); lia). rewrite E in Ha. by left.
Qed.

(** [StartAll] has the mutex for itself. *)
Lemma start_alone s : reachable (bench_mutex n k) s → starting (bpcs s n) = true →
  ∀ t, t ≠ n → mx_status (bmutex s) t = Outside.
Proof.
  intros Hr Hs t Hne. destruct (bench_invariant s Hr) as [Hg Hc]. pose proof (ci_agrees _ _ _ Hc t) as Ha.
  destruct (decide (t < n)) as [Ht|Ht].
  - pose proof (gi_starting _ _ Hg Hs t Ht) as Hgt. by destruct (bpcs s t).
  - assert (bpcs s t = Absent) as E by (apply (gi_absent _ _ Hg); lia). by rewrite E in Ha.
Qed.

(** When no end is defined, the main thread does not open the gate. *)
Lemma bench_stays s : reachable (bench_mutex n k) s → mx_returns = false →
  starting (bpcs s n) = true ∧ number s = 0%Z ∧ ∀ t, t < n → at_gate (bpcs s t) = true.
Proof.
  intros Hr Hf. destruct (bench_invariant s Hr) as [Hg Hc].
  assert (starting (bpcs s n) = true) as Hs.
  { destruct (bench_ends s n Hr) as [_ He]. pose proof (gi_worker _ _ Hg n) as Hw. pose proof (gi_absent _ _ Hg n) as Ha.
    destruct (bpcs s n); try done; try (specialize (He eq_refl); congruence);
      try (destruct Hw as [Hw _]; specialize (Hw eq_refl); lia). destruct Ha as [Ha _]. specialize (Ha eq_refl). lia. }
  pose proof (gi_starting _ _ Hg Hs) as Hgt. split_and!; [done| |done].
  rewrite (ci_number _ _ _ Hc), sum_list_with_zero; [done|].
  intros t [_ Ht]%elem_of_seq. specialize (Hgt t Ht). by destruct (bpcs s t).
Qed.

(** When no thread can move, and no end that is not defined has been reached. *)
Section stuck.
  Context s (Hg : gate_inv n s) (Hc : count_inv n k s).
  Hypothesis no_step : ∀ t, bench_step k (BStep t) s = None.
  Hypothesis no_mutex_step : ∀ t, bench_step k (BMutex t) s = None.
  Hypothesis all_defined : ∀ t, undefined (bpcs s t) = false.

Lemma stuck_steps t : gate_step s t = None ∧ loop_step k s t = None ∧ main_step s t = None.
Proof using no_step. specialize (no_step t). cbn in no_step. destruct (gate_step s t), (loop_step k s t); done. Qed.

(** A thread behind the gate, out of the mutex, can go on. *)
Lemma stuck_underway t : underway (bpcs s t) = true → mx_status (bmutex s) t ≠ Outside.
Proof using All.
  intros Hu Ho. pose proof (ci_mutex _ _ _ Hc) as Hm. pose proof (ci_agrees _ _ _ Hc t) as Ha.
  destruct (stuck_steps t) as (_ & Hl & Hs). specialize (all_defined t). unfold loop_step in Hl. unfold main_step in Hs.
  destruct (mx_lock_ok _ t Hm Ho) as (m & Em & _). destruct (mx_end_ok _ t Hm Ho) as (m' & Em' & _).
  pose proof (held_release holds_gate _ (bpcs s) t (gi_gate _ _ Hg)) as Hrel.
  destruct (bpcs s t) eqn:E; try done; rewrite ?Ho, ?Em, ?Em' in *; try done; try (by destruct Ha);
    try (by rewrite Hrel in Hs); try (by case_decide); try (by destruct mx_returns).
  assert (latch s ≠ 0) as Hz; [|by destruct (latch s)]. intros Hz.
  assert (t < n) as Ht by (apply (gi_worker _ _ Hg); by rewrite E).
  pose proof (latch_zero s Hg Hz t Ht) as Hcnt. by rewrite E in Hcnt.
Qed.

(** Nobody is in an operation of the mutex or holds it. *)
Lemma stuck_outside t : mx_status (bmutex s) t = Outside ∨ mx_status (bmutex s) t = Gone.
Proof using All.
  pose proof (ci_mutex _ _ _ Hc) as Hm.
  assert (∀ u, mx_status (bmutex s) u ≠ Inside) as Hin.
  { intros u Hu. pose proof (ci_agrees _ _ _ Hc u) as Ha. destruct (stuck_steps u) as (_ & Hl & Hs).
    unfold loop_step in Hl. unfold main_step in Hs. destruct (mx_unlock_ok _ u Hm Hu) as (m & Em & _).
    destruct (bpcs s u); simpl in Ha; rewrite ?Hu, ?Em in *; done || (destruct Ha as [?|?]; done). }
  destruct (mx_progress (bmutex s) t Hm) as [Hl Hu].
  { intros u. specialize (no_mutex_step u). cbn in no_mutex_step. by destruct (mx_step u (bmutex s)). }
  destruct (mx_status (bmutex s) t) eqn:E; auto.
  - by destruct (Hl eq_refl) as [u ?%Hin].
  - by apply Hin in E.
  - destruct (Hu eq_refl) as (u & Hr & [?%Hin|Ho]); [done|].
    by apply (stuck_underway u (ci_resumed _ _ _ Hc u Hr)) in Ho.
Qed.

(** The position and the status of a thread that is not behind the gate, or through. *)
Lemma stuck_position t : underway (bpcs s t) = false.
Proof using All.
  destruct (underway (bpcs s t)) eqn:E; [|done]. pose proof (stuck_underway t E) as Hn.
  destruct (stuck_outside t) as [?|Hgone]; [done|]. pose proof (ci_agrees _ _ _ Hc t) as Ha. rewrite Hgone in Ha.
  destruct (bpcs s t); try done; by destruct Ha.
Qed.

(** The gate's mutex is free. *)
Lemma stuck_gate t : holds_gate (bpcs s t) = false ∧ acquire t (cv_wait s) = Some (Some t).
Proof using All.
  assert (∀ u, holds_gate (bpcs s u) = false) as Hh; [|split; [done|by apply (held_free holds_gate _ (bpcs s)); [apply Hg|]]].
  intros u. destruct (holds_gate (bpcs s u)) eqn:E; [|done]. exfalso. destruct (stuck_steps u) as (H1 & H2 & H3).
  pose proof (held_release holds_gate _ (bpcs s) u (gi_gate _ _ Hg) E) as Hrel. pose proof (stuck_position u) as Hp.
  pose proof (ci_agrees _ _ _ Hc u) as Ha. unfold gate_step in H1. unfold main_step in H3.
  destruct (bpcs s u); try done; rewrite ?Hrel in *; try done; [by destruct (wait_flag s)|].
  destruct (mx_lock_ok _ u (ci_mutex _ _ _ Hc) Ha) as (m & Em & _). by rewrite Em in H3.
Qed.

Lemma stuck_main : bpcs s n = SWait ∨ bpcs s n = SDone.
Proof using All.
  destruct (stuck_steps n) as (_ & _ & H3). unfold main_step in H3. destruct (stuck_gate n) as [Hh Hacq].
  pose proof (gi_worker _ _ Hg n) as Hw. pose proof (gi_absent _ _ Hg n) as Hab. pose proof (stuck_position n) as Hp.
  destruct (bpcs s n); try discriminate Hh; try discriminate Hp; try (destruct Hw as [Hw _]; specialize (Hw eq_refl); lia); auto.
  - by rewrite Hacq in H3.
  - destruct Hab as [Hab _]. specialize (Hab eq_refl). lia.
Qed.

Lemma stuck_worker t : t < n → bpcs s t = WEnd.
Proof using All.
  intros Ht. apply (gi_worker _ _ Hg) in Ht as Hw. destruct (stuck_steps t) as (H1 & _ & _).
  pose proof (gi_sleepers _ _ Hg t) as Hz. destruct (stuck_gate t) as [Hh Hacq].
  pose proof (stuck_position t) as Hp. unfold gate_step in H1.
  destruct (bpcs s t) eqn:E; try done; rewrite ?Hacq in *; try done.
  specialize (Hz eq_refl). by destruct stuck_main as [Hn|Hn]; rewrite Hn in Hz.
Qed.
End stuck.

(** Nothing is left to do but for the main thread to be through, unless an end that is not
    defined has been reached. *)
Lemma bench_no_deadlock s : reachable (bench_mutex n k) s → (∀ t, undefined (bpcs s t) = false) →
  (∀ t, bench_step k (BStep t) s = None) → (∀ t, bench_step k (BMutex t) s = None) → bpcs s n = SDone.
Proof.
  intros Hr Hdef Hb Hx. destruct (bench_invariant s Hr) as [Hg Hc].
  destruct (stuck_main s Hg Hc Hb Hx Hdef) as [Hn|Hn]; [|done].
  destruct (stuck_steps s Hb n) as (_ & _ & H3). unfold main_step in H3. rewrite Hn in H3.
  assert (latch s = 0) as Hl; [|by rewrite Hl in H3]. rewrite (gi_latch _ _ Hg). apply sum_list_with_zero.
  intros t [_ Ht]%elem_of_seq. by rewrite (stuck_worker s Hg Hc Hb Hx Hdef).
Qed.
End results.
