(* ===== verification/Frames.v ===== *)
(** * Frames of C++20 coroutines

    What the language says of the coroutines that the examples and
    components/async_mutex/resumable_no_own.h declare: a frame is created by the call,
    suspended and resumed by a handle, and destroyed by a handle or by running past a
    final suspend point that does not suspend.  A handle whose frame is gone may only be
    compared with null.  Also the output of a program, which stays when what follows is
    undefined. *)

From stdpp Require Import prelude list gmap.
From S2P Require Import Prelude.

(** ** Computations with output *)

(** What has been printed, and the result. *)
Definition out (E A : Type) : Type := list E * res A.

#[export] Instance out_ret E : MRet (out E) := λ A a, ([], Ret a).

#[export] Instance out_bind E : MBind (out E) := λ A B f m,
  match m with
  | (o, Ret a) => let '(o', r) := f a in (o ++ o', r)
  | (o, Ub) => (o, Ub)
  | (o, NoFuel) => (o, NoFuel)
  end.

Definition print {E} (e : E) : out E unit := ([e], Ret tt).

Definition lift {E A} (r : res A) : out E A := ([], r).

Lemma bind_ret {E A B} (a : A) (f : A → out E B) : mret a ≫= f = f a.
Proof. cbn. by destruct (f a). Qed.

Lemma bind_lift {E A B} (a : A) (f : A → out E B) : lift (Ret a) ≫= f = f a.
Proof. cbn. by destruct (f a). Qed.

Lemma bind_lift_ub {E A B} (f : A → out E B) : lift Ub ≫= f = ([], Ub).
Proof. done. Qed.

Lemma bind_print {E B} (e : E) (f : unit → out E B) : print e ≫= f = (e :: fst (f tt), snd (f tt)).
Proof. cbn. by destruct (f tt). Qed.

Lemma bind_out {E A B} o (a : A) (f : A → out E B) : (o, Ret a) ≫= f = (o ++ fst (f a), snd (f a)).
Proof. cbn. by destruct (f a). Qed.

(** ** Promise types *)

Inductive suspend := suspend_always | suspend_never.

(** What a promise type returns from [initial_suspend] and [final_suspend], and whether it
    has a member [return_void]: without one, a coroutine that flows off the end of its
    body has undefined behaviour. *)
Record promise_type := MkPromise {
  initial_suspend : suspend;
  final_suspend : suspend;
  return_void : bool
}.

(** ** Frames *)

Abbreviation handle := nat.

(** Where a coroutine is: at a suspend point, with what its body needs to go on from
    there; on the stack of whoever resumed it; or at its final suspend point. *)
Inductive status (L : Type) := Suspended (l : L) | Running | AtFinal.
Arguments Suspended {L} l.
Arguments Running {L}.
Arguments AtFinal {L}.

Record frame (P L : Type) := MkFrame { promise : P; point : status L }.
Arguments MkFrame {P L} promise point.
Arguments promise {P L} f.
Arguments point {P L} f.

(** The frames that are not destroyed, and the next address. *)
Record frames (P L : Type) := MkFrames { live : gmap handle (frame P L); next_frame : handle }.
Arguments MkFrames {P L} live next_frame.
Arguments live {P L} f.
Arguments next_frame {P L} f.

Section frames.
  Context {P L : Type}.
  Implicit Types (fs : frames P L) (h : handle).

Definition no_frames : frames P L := MkFrames ∅ 0.

Definition put h (x : frame P L) fs : frames P L := MkFrames (<[h := x]> (live fs)) (next_frame fs).

Definition remove h fs : frames P L := MkFrames (delete h (live fs)) (next_frame fs).

(** The call of a coroutine up to its initial suspend point, where it stays or goes on. *)
Definition create (pt : promise_type) (p : P) (l : L) fs : handle * frames P L :=
  let h := next_frame fs in
  (h, MkFrames (<[h := MkFrame p (match initial_suspend pt with suspend_always => Suspended l | suspend_never => Running end)]>
        (live fs)) (S h)).

(** [handle.resume()]: only of a coroutine that is suspended, and not at its end. *)
Definition resume h fs : res (L * frames P L) :=
  match live fs !! h with
  | Some (MkFrame p (Suspended l)) => Ret (l, put h (MkFrame p Running) fs)
  | _ => Ub
  end.

(** A running coroutine reaches a suspend point. *)
Definition suspend_at h (l : L) fs : res (frames P L) :=
  match live fs !! h with
  | Some (MkFrame p Running) => Ret (put h (MkFrame p (Suspended l)) fs)
  | _ => Ub
  end.

(** A running coroutine flows off its end: [return_void], then the final suspend point. *)
Definition flow_off (pt : promise_type) h fs : res (frames P L) :=
  match live fs !! h with
  | Some (MkFrame p Running) =>
      if return_void pt
      then Ret (match final_suspend pt with suspend_always => put h (MkFrame p AtFinal) fs | suspend_never => remove h fs end)
      else Ub
  | _ => Ub
  end.

(** [handle.done()], of a suspended coroutine. *)
Definition done_ h fs : res bool :=
  match live fs !! h with
  | Some (MkFrame _ (Suspended _)) => Ret false
  | Some (MkFrame _ AtFinal) => Ret true
  | _ => Ub
  end.

(** [handle.destroy()], of a suspended coroutine. *)
Definition destroy h fs : res (frames P L) :=
  match live fs !! h with
  | Some (MkFrame _ Running) | None => Ub
  | Some _ => Ret (remove h fs)
  end.

(** [handle.promise()]. *)
Definition get_promise h fs : res P :=
  match live fs !! h with Some x => Ret (promise x) | None => Ub end.

Definition set_promise h (p : P) fs : res (frames P L) :=
  match live fs !! h with Some x => Ret (put h (MkFrame p (point x)) fs) | None => Ub end.

(** Addresses not used yet. *)
Definition fresh_above fs : Prop := ∀ h, next_frame fs <= h → live fs !! h = None.

Lemma lookup_put h x fs i : live (put h x fs) !! i = if decide (h = i) then Some x else live fs !! i.
Proof. simpl. case_decide; [subst; apply lookup_insert_eq|by apply lookup_insert_ne]. Qed.

Lemma resume_suspended h fs p l : live fs !! h = Some (MkFrame p (Suspended l)) →
  resume h fs = Ret (l, put h (MkFrame p Running) fs).
Proof. intros E. unfold resume. by rewrite E. Qed.

Lemma suspend_running h fs p l : suspend_at h l (put h (MkFrame p Running) fs) = Ret (put h (MkFrame p (Suspended l)) fs).
Proof.
  unfold suspend_at. rewrite lookup_put, decide_True by done. unfold put. simpl. by rewrite insert_insert_eq.
Qed.

(** A handle whose frame is gone cannot be used. *)
Lemma dangling pt h fs l : live fs !! h = None →
  resume h fs = Ub ∧ suspend_at h l fs = Ub ∧ flow_off pt h fs = Ub ∧ done_ h fs = Ub ∧ destroy h fs = Ub ∧ get_promise h fs = Ub.
Proof. intros E. unfold resume, suspend_at, flow_off, done_, destroy, get_promise. by rewrite E. Qed.
End frames.
