(* ===== verification/Generators.v ===== *)
(** * example/coro: generators

    [Generator] of generator.h over any coroutine that yields, the natural numbers of
    example_natural_nums.cpp, and the coroutines of example_resumable.cpp and
    example_simple_func.cpp. *)

From stdpp Require Import prelude list gmap.
From S2P Require Import Prelude.
From S2P Require Import Frames.

(** ** [Generator<T>] *)

Section generator.
  Context {T L : Type}.

(** The body of the coroutine, from a suspend point to the next [co_yield] with its
    value, or off its end; or undefined behaviour. *)
  Context (body : L → res (option (T * L))).

Definition generator_promise : promise_type := MkPromise suspend_always suspend_always false.

(** [promise_type] has the one field [current_value], not initialised. *)
Abbreviation gens := (frames (option T) L).
Implicit Types (fs : gens) (h : handle).

(** The call of the coroutine, with what it starts from. *)
Definition make_generator (start : L) fs : handle * gens := create generator_promise None start fs.

(** [promise_type::yield_value], which suspends. *)
Definition yield_value h (value : T) (l : L) fs : res gens :=
  fs1 ← set_promise h (Some value) fs; suspend_at h l fs1.

(** [handle_.resume()] *)
Definition resume_generator h fs : res gens :=
  '(l, fs1) ← resume h fs;
  r ← body l;
  match r with
  | Some (value, l') => yield_value h value l' fs1
  | None => flow_off generator_promise h fs1
  end.

(** [Generator::move_next]; [handle_] is null in no [Generator] the program makes. *)
Definition move_next (handle_ : ptr handle) fs : res (bool * gens) :=
  match handle_ with
  | Some h => fs1 ← resume_generator h fs; d ← done_ h fs1; Ret (negb d, fs1)
  | None => Ret (false, fs)
  end.

(** [Generator::resume] *)
Definition generator_resume (handle_ : ptr handle) fs : res (bool * gens) :=
  h ← checked handle_;
  d ← done_ h fs;
  fs1 ← (if d : bool then Ret fs else resume_generator h fs);
  d1 ← done_ h fs1; Ret (negb d1, fs1).

(** [Generator::current_value]: the value is copied, so it has to be there. *)
Definition current_value (handle_ : ptr handle) fs : res T :=
  h ← checked handle_; v ← get_promise h fs; checked v.

(** [~Generator] *)
Definition drop_generator (handle_ : ptr handle) fs : res gens :=
  match handle_ with Some h => destroy h fs | None => Ret fs end.

(** ** Programs with variables of type [Generator] *)

Inductive gen_op :=
| GMake (x : nat) (start : L)
| GNext (x : nat)
| GResume (x : nat)
| GValue (x : nat)
| GCopy (y x : nat)
| GDrop (x : nat).

(** The [handle_] of each variable in scope, and the frames. *)
Record gen_state := MkGen { vars : gmap nat (ptr handle); gen_frames : gens }.

Definition variable (x : nat) (st : gen_state) : res (ptr handle) := checked (vars st !! x).

(** What an operation prints: a value it reads.  The copy constructor, which also stands
    in for the missing move constructor, copies [handle_]. *)
Definition gen_step (op : gen_op) (st : gen_state) : out T gen_state :=
  match op with
  | GMake x start =>
      let '(h, fs) := make_generator start (gen_frames st) in
      lift (Ret (MkGen (<[x := Some h]> (vars st)) fs))
  | GNext x =>
      a ← lift (variable x st); r ← lift (move_next a (gen_frames st));
      mret (MkGen (vars st) (snd r))
  | GResume x =>
      a ← lift (variable x st); r ← lift (generator_resume a (gen_frames st));
      mret (MkGen (vars st) (snd r))
  | GValue x =>
      a ← lift (variable x st); v ← lift (current_value a (gen_frames st));
      _ ← print v; mret st
  | GCopy y x =>
      a ← lift (variable x st); mret (MkGen (<[y := a]> (vars st)) (gen_frames st))
  | GDrop x =>
      a ← lift (variable x st); fs ← lift (drop_generator a (gen_frames st));
      mret (MkGen (delete x (vars st)) fs)
  end.

Fixpoint gen_exec (ops : list gen_op) (st : gen_state) : out T gen_state :=
  match ops with
  | [] => mret st
  | op :: ops' => st' ← gen_step op st; gen_exec ops' st'
  end.

(** ** Generators as values *)

(** Where a generator is in its sequence, and its current value. *)
Abbreviation cursor := (L * option T)%type.

Definition advance (c : cursor) : res cursor :=
  r ← body (fst c);
  match r with Some (v, l) => Ret (l, Some v) | None => Ub end.

Definition value_step (op : gen_op) (m : gmap nat cursor) : out T (gmap nat cursor) :=
  match op with
  | GMake x start => mret (<[x := (start, None)]> m)
  | GNext x | GResume x =>
      c ← lift (checked (m !! x)); c' ← lift (advance c); mret (<[x := c']> m)
  | GValue x => c ← lift (checked (m !! x)); v ← lift (checked (snd c)); _ ← print v; mret m
  | GCopy y x => c ← lift (checked (m !! x)); mret (<[y := c]> m)
  | GDrop x => _ ← lift (checked (m !! x)); mret (delete x m)
  end.

Fixpoint value_exec (ops : list gen_op) (m : gmap nat cursor) : out T (gmap nat cursor) :=
  match ops with
  | [] => mret m
  | op :: ops' => m' ← value_step op m; value_exec ops' m'
  end.

(** ** Which programs are well typed *)

(** The variables in scope, and whether they have a value. *)
Abbreviation scope := (gmap nat bool).

Definition type_op (op : gen_op) (G : scope) : option scope :=
  match op with
  | GMake x _ => match G !! x with None => Some (<[x := false]> G) | Some _ => None end
  | GNext x | GResume x => _ ← G !! x; Some (<[x := true]> G)
  | GValue x => b ← G !! x; if b : bool then Some G else None
  | GCopy _ _ => None
  | GDrop x => _ ← G !! x; Some (delete x G)
  end.

Fixpoint type_ops (ops : list gen_op) (G : scope) : option scope :=
  match ops with
  | [] => Some G
  | op :: ops' => type_op op G ≫= type_ops ops'
  end.

(** ** Well-typed programs see only the values *)

(** Every variable has a frame of its own, suspended where the value says, and there are
    no other frames. *)
Record represents (st : gen_state) (m : gmap nat cursor) : Prop := Represents {
  rp_vars : ∀ x, match m !! x with
    | Some (l, v) => ∃ h, vars st !! x = Some (Some h) ∧ live (gen_frames st) !! h = Some (MkFrame v (Suspended l))
    | None => vars st !! x = None
    end;
  rp_own : ∀ x y a, vars st !! x = Some a → vars st !! y = Some a → x = y;
  rp_all : ∀ h, is_Some (live (gen_frames st) !! h) → ∃ x, vars st !! x = Some (Some h);
  rp_fresh : fresh_above (gen_frames st)
}.

(** The values have the types the scope gives. *)
Definition typed (G : scope) (m : gmap nat cursor) : Prop :=
  ∀ x, G !! x = (λ c : cursor, bool_decide (is_Some (snd c))) <$> m !! x.

(** Where [represents] finds a variable of the scope. *)
Lemma in_scope G st m x b : typed G m → represents st m → G !! x = Some b →
  ∃ l v h, m !! x = Some (l, v) ∧ b = bool_decide (is_Some v) ∧ vars st !! x = Some (Some h) ∧
    live (gen_frames st) !! h = Some (MkFrame v (Suspended l)).
Proof.
  intros Ht [Hv _ _ _] Hx. specialize (Ht x). specialize (Hv x). rewrite Hx in Ht.
  destruct (m !! x) as [[l v]|]; simplify_eq/=. destruct Hv as (h & ? & ?). by exists l, v, h.
Qed.

Lemma represents_make st m x start : represents st m → m !! x = None →
  represents (MkGen (<[x := Some (next_frame (gen_frames st))]> (vars st)) (snd (make_generator start (gen_frames st))))
    (<[x := (start, None)]> m).
Proof.
  intros [Hv Ho Ha Hf] Hx. set (h := next_frame (gen_frames st)).
  assert (live (gen_frames st) !! h = None) as Hh by (by apply Hf).
  assert (∀ y, vars st !! y ≠ Some (Some h)) as Hn.
  { intros y Hy. specialize (Hv y). destruct (m !! y) as [[l v]|]; [|congruence].
    destruct Hv as (h' & ? & ?). congruence. }
  split; simpl; fold h.
  - intros y. destruct (decide (x = y)) as [<-|Hne].
    + rewrite !lookup_insert_eq. exists h. by rewrite lookup_insert_eq.
    + rewrite !lookup_insert_ne by done. specialize (Hv y). destruct (m !! y) as [[l v]|]; [|done].
      destruct Hv as (h' & ? & ?). exists h'. split; [done|]. by rewrite lookup_insert_ne by congruence.
  - intros y z a. rewrite !lookup_insert. repeat case_decide; simplify_eq; [done|..].
    + intros [= <-] Hz. by destruct (Hn z).
    + intros Hy [= <-]. by destruct (Hn y).
    + apply Ho.
  - intros i. rewrite lookup_insert. case_decide as Hi; [subst; intros _; exists x; by rewrite lookup_insert_eq|].
    intros (y & Hy)%Ha. exists y. rewrite lookup_insert_ne; [done|]. intros <-. specialize (Hv x). rewrite Hx in Hv. congruence.
  - intros i Hi. simpl in *. rewrite lookup_insert_ne by lia. apply Hf. lia.
Qed.

Lemma represents_frame st m x h l v l' v' : represents st m → vars st !! x = Some (Some h) → m !! x = Some (l, v) →
  represents (MkGen (vars st) (put h (MkFrame v' (Suspended l')) (gen_frames st))) (<[x := (l', v')]> m).
Proof.
  intros [Hv Ho Ha Hf] Hx Hm. split; cbn [vars gen_frames]; [|done|..].
  - intros y. destruct (decide (x = y)) as [<-|Hne].
    + rewrite lookup_insert_eq. exists h. by rewrite lookup_put, decide_True.
    + rewrite lookup_insert_ne by done. specialize (Hv y). destruct (m !! y) as [[l0 v0]|]; [|done].
      destruct Hv as (h' & Hy & ?). exists h'. split; [done|]. rewrite lookup_put, decide_False; [done|].
      intros <-. by destruct Hne, (Ho _ _ _ Hx Hy).
  - intros i. rewrite lookup_put. case_decide; [subst; intros _; by exists x|apply Ha].
  - intros i Hi. rewrite lookup_put, decide_False; [by apply Hf|]. intros <-. specialize (Hv x). rewrite Hm in Hv.
    destruct Hv as (h' & ? & E). simplify_eq. rewrite (Hf h' Hi) in E. done.
Qed.

Lemma represents_drop st m x h : represents st m → vars st !! x = Some (Some h) →
  represents (MkGen (delete x (vars st)) (remove h (gen_frames st))) (delete x m).
Proof.
  intros [Hv Ho Ha Hf] Hx. split; simpl.
  - intros y. destruct (decide (x = y)) as [<-|Hne]; [by rewrite !lookup_delete_eq|].
    rewrite !lookup_delete_ne by done. specialize (Hv y). destruct (m !! y) as [[l v]|]; [|done].
    destruct Hv as (h' & Hy & ?). exists h'. split; [done|]. rewrite lookup_delete_ne; [done|].
    intros <-. by destruct Hne, (Ho _ _ _ Hx Hy).
  - intros y z a. rewrite !lookup_delete_Some. intros [_ Hy] [_ Hz]. by eapply Ho.
  - intros i [e [Hi He]%lookup_delete_Some]. destruct (Ha i) as [y Hy]; [by exists e|].
    exists y. rewrite lookup_delete_ne; [done|]. congruence.
  - intros i Hi. simpl in *. rewrite lookup_delete_None. right. by apply Hf.
Qed.

(** What [handle_.resume()] does to a suspended generator. *)
Lemma resume_generator_spec h fs v l : live fs !! h = Some (MkFrame v (Suspended l)) →
  resume_generator h fs =
    ('(l', v') ← advance (l, v); Ret (put h (MkFrame v' (Suspended l')) fs)).
Proof.
  intros E. unfold resume_generator. rewrite (resume_suspended _ _ _ _ E). unfold advance. cbn [mbind res_bind fst].
  destruct (body l) as [[[w l']|]| |]; cbn [mbind res_bind]; try done.
  - unfold yield_value, set_promise. rewrite lookup_put, decide_True by done. cbn [mbind res_bind point].
    unfold suspend_at. rewrite lookup_put, decide_True by done. unfold put. simpl. by rewrite !insert_insert_eq.
  - unfold flow_off. by rewrite lookup_put, decide_True.
Qed.

(** The two ways to go on agree: the generator is never at its end. *)
Lemma next_spec st m x l v h (next : bool) : represents st m → vars st !! x = Some (Some h) →
  m !! x = Some (l, v) → live (gen_frames st) !! h = Some (MkFrame v (Suspended l)) →
  gen_step (if next then GNext x else GResume x) st =
    lift ('(l', v') ← advance (l, v); Ret (MkGen (vars st) (put h (MkFrame v' (Suspended l')) (gen_frames st)))).
Proof.
  intros Hr Hx Hm Hf.
  assert (done_ h (gen_frames st) = Ret false) as Hd by (unfold done_; by rewrite Hf).
  destruct next; cbn [gen_step]; unfold variable; rewrite Hx; cbn [checked]; rewrite bind_lift;
    unfold move_next, generator_resume; cbn [checked mbind res_bind]; rewrite ?Hd; cbn [mbind res_bind];
    rewrite (resume_generator_spec _ _ _ _ Hf); destruct (advance (l, v)) as [[l' v']| |]; cbn [mbind res_bind]; try done;
    unfold done_; rewrite lookup_put, decide_True by done; done.
Qed.

(** The program with frames does what the program with values does. *)
Definition agrees (G : scope) (r : out T (gmap nat cursor)) (r' : out T gen_state) : Prop :=
  match r with
  | (o, Ret m) => ∃ st, r' = (o, Ret st) ∧ typed G m ∧ represents st m
  | (o, Ub) => r' = (o, Ub)
  | (o, NoFuel) => r' = (o, NoFuel)
  end.

Lemma typed_insert G m x b l v : typed G m → b = bool_decide (is_Some v) → typed (<[x := b]> G) (<[x := (l, v)]> m).
Proof. intros Ht -> y. rewrite !lookup_insert. case_decide; [done|apply Ht]. Qed.

Lemma typed_next (next : bool) x b G st m : typed G m → represents st m → G !! x = Some b →
  let op := if next then GNext x else GResume x in
  agrees (<[x := true]> G) (value_step op m) (gen_step op st).
Proof.
  intros Ht Hr Hx. destruct (in_scope G st m x b Ht Hr Hx) as (l & v & h & Hm & _ & Hv & Hl). cbn zeta.
  rewrite (next_spec st m x l v h next Hr Hv Hm Hl).
  assert (value_step (if next then GNext x else GResume x) m = lift (c ← advance (l, v); Ret (<[x := c]> m))) as ->.
  { destruct next; cbn [value_step]; rewrite Hm; cbn [checked]; rewrite bind_lift; by destruct (advance (l, v)). }
  unfold advance. cbn [fst]. destruct (body l) as [[[w l']|]| |]; cbn; try done.
  eexists. split; [done|]. split; [by apply typed_insert|by eapply represents_frame].
Qed.

(** One operation of a well-typed program. *)
Lemma typed_step op G G' st m : type_op op G = Some G' → typed G m → represents st m →
  agrees G' (value_step op m) (gen_step op st).
Proof.
  intros Hop Ht Hr. destruct op as [x start|x|x|x|y x|x]; cbn [type_op] in Hop;
    [|destruct (G !! x) as [b|] eqn:Hx; simplify_eq/=..|done|destruct (G !! x) as [b|] eqn:Hx; simplify_eq/=].
  - destruct (G !! x) eqn:Hx; simplify_eq. assert (m !! x = None) as Hm.
    { specialize (Ht x). rewrite Hx in Ht. by destruct (m !! x). }
    eexists. split; [done|]. split; [by apply typed_insert|by apply represents_make].
  - by apply (typed_next true x b).
  - by apply (typed_next false x b).
  - destruct b; simplify_eq. destruct (in_scope G' st m x true Ht Hr Hx) as (l & v & h & Hm & Hb & Hv & Hl).
    destruct v as [v|]; [|done]. cbn. unfold variable. rewrite Hm, Hv. unfold current_value, get_promise. cbn.
    rewrite Hl. by exists st.
  - destruct (in_scope G st m x b Ht Hr Hx) as (l & v & h & Hm & _ & Hv & Hl).
    cbn. unfold variable. rewrite Hm, Hv. cbn. unfold destroy. rewrite Hl.
    eexists. split; [done|]. split; [|by apply represents_drop].
    intros y. destruct (decide (x = y)) as [<-|Hne]; [by rewrite !lookup_delete_eq|].
    rewrite !lookup_delete_ne by done. apply Ht.
Qed.

(** A whole program. *)
Lemma typed_exec ops G G' st m : type_ops ops G = Some G' → typed G m → represents st m →
  agrees G' (value_exec ops m) (gen_exec ops st).
Proof.
  revert G st m. induction ops as [|op ops IH]; intros G st m Hop Ht Hr; simplify_eq/=; [by exists st|].
  destruct (type_op op G) as [G1|] eqn:E1; [|done]. pose proof (typed_step op G G1 st m E1 Ht Hr) as Ha.
  destruct (value_step op m) as [o [m1| |]]; cbn in Ha; [|by rewrite Ha..].
  destruct Ha as (st1 & -> & Ht1 & Hr1). rewrite !bind_out. specialize (IH G1 st1 m1 Hop Ht1 Hr1).
  unfold agrees in *. destruct (value_exec ops m1) as [o' [m2| |]]; simpl in *; [|by rewrite IH..].
  destruct IH as (st2 & -> & ? & ?). by exists st2.
Qed.

(** Undefined behaviour of the values can only come from the body. *)
Lemma values_total ops G G' m : (∀ l, ∃ v l', body l = Ret (Some (v, l'))) → type_ops ops G = Some G' → typed G m →
  ∃ o m', value_exec ops m = (o, Ret m').
Proof.
  intros Hb. revert G m. induction ops as [|op ops IH]; intros G m Hop Ht; simplify_eq/=; [by do 2 eexists|].
  destruct (type_op op G) as [G1|] eqn:E1; [|done].
  assert (∃ o m1, value_step op m = (o, Ret m1) ∧ typed G1 m1) as (o & m1 & -> & Ht1).
  { assert (∀ x b, G !! x = Some b → ∃ l v, m !! x = Some (l, v) ∧ b = bool_decide (is_Some v)) as Hin.
    { intros x b Hx. specialize (Ht x). rewrite Hx in Ht. destruct (m !! x) as [[l v]|]; simplify_eq/=. by exists l, v. }
    destruct op as [x start|x|x|x|y x|x]; cbn [type_op] in E1;
      [|destruct (G !! x) as [b|] eqn:Hx; simplify_eq/=; destruct (Hin x b Hx) as (l & v & -> & Hv)..|done|
        destruct (G !! x) as [b|] eqn:Hx; simplify_eq/=; destruct (Hin x b Hx) as (l & v & -> & Hv)].
    - destruct (G !! x); simplify_eq. do 2 eexists. split; [done|]. by apply typed_insert.
    - destruct (Hb l) as (w & l' & E). cbn. unfold advance. cbn. rewrite E. do 2 eexists. split; [done|]. by apply typed_insert.
    - destruct (Hb l) as (w & l' & E). cbn. unfold advance. cbn. rewrite E. do 2 eexists. split; [done|]. by apply typed_insert.
    - destruct b; simplify_eq. destruct v; [|done]. cbn. by do 2 eexists.
    - cbn. do 2 eexists. split; [done|]. intros y. destruct (decide (x = y)) as [<-|Hne]; [by rewrite !lookup_delete_eq|].
      rewrite !lookup_delete_ne by done. apply Ht. }
  rewrite bind_out. destruct (IH G1 m1 Hop Ht1) as (o' & m' & ->). by do 2 eexists.
Qed.

Definition no_generators : gen_state := MkGen ∅ no_frames.

Lemma no_generators_ok : typed ∅ ∅ ∧ represents no_generators ∅.
Proof.
  split; [done|]. split; try done.
  - intros h. simpl. rewrite lookup_empty. by intros [].
Qed.

(** C33: handles are invisible to well-typed programs: a program that uses a [Generator]
    only between its declaration and its destruction, reads a value only after a
    [move_next] or [resume], and copies none, behaves as if its generators were values,
    positions in the sequences of their coroutines.  It prints the same values, has no
    undefined behaviour when the bodies have none, and the frames that are left are
    exactly one for each variable still in scope, so that every frame is destroyed once. *)
Theorem generators_sound ops G :
  (∀ l, ∃ v l', body l = Ret (Some (v, l'))) → type_ops ops ∅ = Some G →
  ∃ o m st, value_exec ops ∅ = (o, Ret m) ∧ gen_exec ops no_generators = (o, Ret st) ∧
    (∀ x, G !! x = (λ c : cursor, bool_decide (is_Some (snd c))) <$> m !! x) ∧
    (∀ x, is_Some (vars st !! x) ↔ is_Some (G !! x)) ∧
    (∀ h, is_Some (live (gen_frames st) !! h) ↔ ∃ x, vars st !! x = Some (Some h)) ∧
    (∀ x y a, vars st !! x = Some a → vars st !! y = Some a → x = y).
Proof.
  intros Hb Hop. destruct no_generators_ok as [Ht Hr]. destruct (values_total ops ∅ G ∅ Hb Hop Ht) as (o & m & E).
  pose proof (typed_exec ops ∅ G no_generators ∅ Hop Ht Hr) as Ha. rewrite E in Ha.
  destruct Ha as (st & E' & Ht' & [Hv Ho Hall _]). exists o, m, st. split_and!; try done.
  - intros x. rewrite Ht'. specialize (Hv x). destruct (m !! x) as [[l v]|]; simpl.
    + destruct Hv as (h & -> & _). split; by eexists.
    + rewrite Hv. split; by intros [].
  - intros h. split; [apply Hall|]. intros (x & Hx). specialize (Hv x).
    destruct (m !! x) as [[l v]|]; [|congruence]. destruct Hv as (h' & ? & ?). simplify_eq. by eexists.
Qed.

(** The destructor of a copy leaves the other variable with a handle to nothing. *)
Lemma copied_generator_dangles st x y h op : x ≠ y → vars st !! x = Some (Some h) →
  (∃ v l, live (gen_frames st) !! h = Some (MkFrame v (Suspended l))) →
  op ∈ [GNext x; GResume x; GValue x; GDrop x] →
  snd (gen_exec [GCopy y x; GDrop y; op] st) = Ub.
Proof.
  intros Hne Hx (v & l & Hl) Hop. cbn [gen_exec gen_step]. unfold variable. cbn [vars gen_frames]. rewrite Hx.
  cbn. rewrite lookup_insert_eq. cbn. unfold destroy. rewrite Hl. cbn.
  set (st' := MkGen _ _). assert (vars st' !! x = Some (Some h)) as Hx' by (simpl; by rewrite lookup_delete_ne, lookup_insert_ne).
  assert (live (gen_frames st') !! h = None) as Hd by apply lookup_delete_eq.
  destruct (dangling generator_promise h (gen_frames st') l Hd) as (H1 & _ & _ & H2 & H3 & H4).
  repeat (apply elem_of_cons in Hop as [->|Hop]); [..|by apply elem_of_nil in Hop];
    cbn [gen_exec gen_step]; unfold variable; rewrite Hx'; cbn [checked]; rewrite bind_lift;
    unfold move_next, resume_generator, generator_resume, current_value, drop_generator; cbn [checked mbind res_bind];
    by rewrite ?H1, ?H2, ?H3, ?H4.
Qed.
End generator.

(** Two generators that count, used in turns. *)
Definition count_from (n : nat) : res (option (nat * nat)) := Ret (Some (n, S n)).

Definition two_generators : list (gen_op (L := nat)) :=
  [GMake 0 0; GNext 0; GMake 1 5; GNext 1; GValue 0; GResume 0; GValue 1; GValue 0; GDrop 0; GNext 1; GValue 1].

Lemma generators_sound_witness :
  ∃ m st, value_exec count_from two_generators ∅ = ([0; 5; 1; 6], Ret m) ∧
    gen_exec count_from two_generators no_generators = ([0; 5; 1; 6], Ret st) ∧ live (gen_frames st) = {[ 1 := MkFrame (Some 6) (Suspended 7) ]}.
Proof.
  destruct (generators_sound count_from two_generators {[ 1 := true ]}) as (o & m & st & Ev & Eg & _).
  - intros l. by exists l, (S l).
  - reflexivity.
  - vm_compute in Ev. injection Ev as <- <-. eexists _, st. split; [vm_compute; reflexivity|]. split; [done|].
    vm_compute in Eg. by injection Eg as <-.
Defined.

(** ** [natural_nums] *)

Definition int_max : Z := 2 ^ 31 - 1.

(** [natural_nums] at its start, or in [co_yield num]; [num++] must not overflow. *)
Definition natural_nums (at_yield : option Z) : res (option (Z * option Z)) :=
  num ← match at_yield with
        | None => Ret 0%Z
        | Some num => if decide (num < int_max)%Z then Ret (num + 1)%Z else Ub
        end;
  Ret (Some (num, Some num)).

(** [main] of example_natural_nums.cpp, with [count] for 5. *)
Fixpoint natural_nums_loop (count : nat) : list (gen_op (L := option Z)) :=
  match count with 0 => [] | S count' => GNext 0 :: GValue 0 :: natural_nums_loop count' end.

Definition natural_nums_main (count : nat) : list (gen_op (L := option Z)) :=
  GMake 0 None :: natural_nums_loop count ++ [GDrop 0].

Lemma type_app {L} (ops1 ops2 : list (gen_op (L := L))) G :
  type_ops (ops1 ++ ops2) G = type_ops ops1 G ≫= type_ops ops2.
Proof. revert G. induction ops1 as [|op ops1 IH]; intros G; [done|]. simpl. destruct (type_op op G); [apply IH|done]. Qed.

Lemma natural_nums_typed count : type_ops (natural_nums_main count) ∅ = Some ∅.
Proof.
  assert (∀ b, ∃ b', type_ops (natural_nums_loop count) {[0 := b]} = Some {[0 := b']}) as Hl.
  { induction count as [|count IH]; intros b; [by exists b|]. destruct (IH true) as [b' E]. by exists b'. }
  destruct (Hl false) as [b E]. unfold natural_nums_main. cbn [type_ops type_op]. rewrite lookup_empty.
  cbn [mbind option_bind]. rewrite type_app, insert_empty, E. done.
Qed.

(** The number of values before the counter overflows. *)
Definition naturals_bound : Z := 2 ^ 31.

Definition next_num (at_yield : option Z) : Z := from_option (λ num, num + 1)%Z 0%Z at_yield.

Lemma natural_nums_next l : natural_nums l =
  if decide (next_num l < naturals_bound)%Z then Ret (Some (next_num l, Some (next_num l))) else Ub.
Proof.
  unfold natural_nums, naturals_bound, int_max. destruct l as [num|]; [|done]. cbn [next_num from_option].
  destruct (decide (num < _)%Z); [rewrite decide_True by lia|rewrite decide_False by lia]; done.
Qed.

Lemma natural_nums_values count left l v : (0 ≤ next_num l)%Z → Z.of_nat left = (naturals_bound - next_num l)%Z →
  value_exec natural_nums (natural_nums_loop count ++ [GDrop 0]) {[0 := (l, v)]} =
    ((λ i, next_num l + Z.of_nat i)%Z <$> seq 0 (count `min` left), if decide (count <= left) then Ret ∅ else Ub).
Proof.
  revert left l v. induction count as [|count IH]; intros left l v Hl Hleft.
  - by rewrite decide_True by lia.
  - cbn [natural_nums_loop app value_exec value_step]. rewrite lookup_singleton_eq. cbn [checked]. rewrite !bind_lift.
    unfold advance. cbn [fst]. rewrite natural_nums_next. destruct left as [|left].
    + rewrite decide_False by lia. cbn. by rewrite decide_False by lia.
    + rewrite decide_True by lia. set (n := next_num l) in *. cbn [mbind res_bind]. rewrite bind_lift.
      cbn -[natural_nums]. rewrite insert_singleton_eq, lookup_singleton_eq. cbn -[natural_nums].
      rewrite (IH left (Some n) (Some n)) by (cbn [next_num from_option]; lia). cbn -[natural_nums].
      f_equal; [|repeat case_decide; done || lia]. f_equal; [lia|].
      rewrite <-fmap_S_seq, <-list_fmap_compose. apply list_fmap_ext. intros ? i _. simpl. lia.
Qed.

(** [main] prints the numbers from 0 in order and destroys the frame of its
    generator, as long as it asks for at most 2 ^ 31 of them; the increment of the next
    one overflows [int], after the numbers up to 2 ^ 31 - 1 have been printed. *)
Lemma natural_nums_print count :
  let r := gen_exec natural_nums (natural_nums_main count) no_generators in
  fst r = Z.of_nat <$> seq 0 (Z.to_nat (Z.of_nat count `min` naturals_bound)) ∧
  if decide (Z.of_nat count ≤ naturals_bound)%Z then ∃ st, snd r = Ret st ∧ vars st = ∅ ∧ live (gen_frames st) = ∅ else snd r = Ub.
Proof.
  intros r. assert (∃ left, Z.of_nat left = naturals_bound) as [left Hleft].
  { exists (Z.to_nat naturals_bound). by apply Z2Nat.id. }
  destruct (no_generators_ok (T := Z) (L := option Z)) as [Ht Hr].
  pose proof (typed_exec natural_nums (natural_nums_main count) ∅ ∅ _ _ (natural_nums_typed count) Ht Hr) as Ha.
  assert (value_exec natural_nums (natural_nums_main count) ∅ =
    value_exec natural_nums (natural_nums_loop count ++ [GDrop 0]) {[0 := (None, None)]}) as Ev.
  { unfold natural_nums_main. cbn [value_exec value_step]. by rewrite bind_ret, insert_empty. }
  rewrite Ev, (natural_nums_values count left) in Ha by (cbn [next_num from_option]; lia). fold r in Ha.
  assert (((λ i, next_num None + Z.of_nat i)%Z <$> seq 0 (count `min` left)) =
    Z.of_nat <$> seq 0 (Z.to_nat (Z.of_nat count `min` naturals_bound))) as Hm.
  { replace (Z.to_nat (Z.of_nat count `min` naturals_bound)) with (count `min` left) by lia. apply list_fmap_ext. intros ? i _. cbn [next_num from_option]. lia. }
  rewrite Hm in Ha. destruct (decide (count <= left)) as [Hc|Hc]; cbn [agrees] in Ha;
    [rewrite decide_True by lia|rewrite decide_False by lia; by rewrite Ha].
  destruct Ha as (st & -> & _ & [Hv _ Hall _]). split; [done|]. exists st. split; [done|].
  assert (vars st = ∅) as Hn by (apply map_eq; intros x; apply Hv). split; [done|].
  apply map_eq. intros h. rewrite lookup_empty. apply eq_None_not_Some. intros (x & Hx)%Hall. by rewrite Hn in Hx.
Qed.
