(* ===== verification/Resumables.v ===== *)
(** * example/coro: coroutines with an owner

    [Resumable] and [foo] of example_resumable.cpp, and [resumable_no_wait] and [hello]
    of example_simple_func.cpp. *)

From stdpp Require Import prelude list gmap.
From S2P Require Import Prelude.
From S2P Require Import Frames.

(** ** example_resumable.cpp *)

(** What is printed. *)
Inductive line (M : Type) :=
| CCreated
| ResumeCall (current_value : Z)
| PrepareResume
| CoroIteration (num : Z)
| YieldValue (pos current_value : Z)
| StartIteration
| Message (m : M).
Arguments CCreated {M}.
Arguments ResumeCall {M} _.
Arguments PrepareResume {M}.
Arguments CoroIteration {M} _.
Arguments YieldValue {M} _ _.
Arguments StartIteration {M}.
Arguments Message {M} _.

(** [Resumable::promise_type], with [SuspendAlways] at both ends. *)
Definition Resumable_promise : promise_type := MkPromise suspend_always suspend_always false.

Section foo.
  Context {M : Type} (messages : list M).

(** The promise type is a parameter, to tell what the missing [return_void] changes. *)
  Context (pt : promise_type).

(** The promise is [current_value]; [foo] keeps [num] over a [co_yield]. *)
Abbreviation coros := (frames Z (option Z)).
Implicit Types (fs : coros) (h : handle).

(** [foo] from its start, or from [co_yield num++], to the next one with its value and
    the new [num], or off its end. *)
Definition foo (at_yield : option Z) : out (line M) (option (Z * Z)) :=
  let iteration num := _ ← print (CoroIteration num); mret (Some (num, sz_add num 1)) in
  match at_yield with
  | None => iteration 0%Z
  | Some num => if decide (num = Z.of_nat (length messages)) then mret None else iteration num
  end.

(** [promise_type::yield_value] *)
Definition yield_value h (pos num : Z) fs : out (line M) coros :=
  current_value ← lift (get_promise h fs);
  _ ← print (YieldValue pos current_value);
  fs1 ← lift (set_promise h pos fs);
  lift (suspend_at h (Some num) fs1).

Definition resume_foo h fs : out (line M) coros :=
  a ← lift (resume h fs);
  r ← foo (fst a);
  match r with
  | Some (pos, num) => yield_value h pos num (snd a)
  | None => lift (flow_off pt h (snd a))
  end.

(** [Resumable::resume] *)
Definition Resumable_resume h fs : out (line M) (bool * coros) :=
  current_value ← lift (get_promise h fs);
  _ ← print (ResumeCall current_value);
  d ← lift (done_ h fs);
  fs1 ← (if d : bool then mret fs else _ ← print PrepareResume; resume_foo h fs);
  d1 ← lift (done_ h fs1);
  mret (negb d1, fs1).

(** [Resumable::GetCurrentMessage] *)
Definition GetCurrentMessage h fs : res M :=
  current_value ← get_promise h fs; checked (messages !! Z.to_nat current_value).

(** The loop of [main]. *)
Fixpoint main_loop (fuel : nat) h fs : out (line M) coros :=
  match fuel with
  | 0 => lift NoFuel
  | S fuel' =>
      a ← Resumable_resume h fs;
      if fst a : bool then
        _ ← print StartIteration;
        m ← lift (GetCurrentMessage h (snd a));
        _ ← print (Message m);
        main_loop fuel' h (snd a)
      else mret (snd a)
  end.

(** [main], with [~Resumable] at its end. *)
Definition resumable_main (fuel : nat) : out (line M) coros :=
  let '(h, fs) := create pt 0%Z None no_frames in
  _ ← print CCreated;
  fs1 ← main_loop fuel h fs;
  lift (destroy h fs1).

(** What the loop prints over [ms], the messages from position [i] on; before it the
    promise holds the position before, or 0. *)
Fixpoint printed (i : nat) (ms : list M) : list (line M) :=
  let last := Z.of_nat (i - 1) in
  match ms with
  | [] => [ResumeCall last; PrepareResume]
  | m :: ms' =>
      [ResumeCall last; PrepareResume; CoroIteration (Z.of_nat i); YieldValue (Z.of_nat i) last; StartIteration; Message m] ++
      printed (S i) ms'
  end.

Hypothesis suspends : initial_suspend pt = suspend_always ∧ final_suspend pt = suspend_always.
Hypothesis fits : (0 < Z.of_nat (length messages) < size_bound)%Z.

(** One resume, when there is a message left. *)
Lemma resume_message h fs i last (m : M) at_yield :
  live fs !! h = Some (MkFrame last (Suspended at_yield)) → messages !! i = Some m →
  at_yield = (if decide (i = 0) then None else Some (Z.of_nat i)) →
  Resumable_resume h fs =
    ([ResumeCall last; PrepareResume; CoroIteration (Z.of_nat i); YieldValue (Z.of_nat i) last],
     Ret (true, put h (MkFrame (Z.of_nat i) (Suspended (Some (Z.of_nat (S i))))) fs)).
Proof.
  intros Hl Hm Hat. apply lookup_lt_Some in Hm. unfold Resumable_resume, get_promise. rewrite Hl. cbn [promise].
  rewrite bind_lift, bind_print. unfold done_. rewrite Hl, bind_lift, bind_print. unfold resume_foo.
  rewrite (resume_suspended _ _ _ _ Hl), bind_lift. cbn [fst snd].
  assert (foo at_yield = ([CoroIteration (Z.of_nat i)], Ret (Some (Z.of_nat i, Z.of_nat (S i))))) as ->.
  { unfold foo. rewrite Hat. destruct (decide (i = 0)) as [->|Hi]; [done|].
    rewrite decide_False by lia. rewrite bind_print, sz_add_small by (unfold is_size; lia). cbn. repeat f_equal; lia. }
  rewrite bind_out. unfold yield_value, get_promise. rewrite lookup_put, decide_True by done. cbn [promise].
  rewrite bind_lift, bind_print. unfold set_promise. rewrite lookup_put, decide_True by done. rewrite bind_lift.
  unfold suspend_at. rewrite lookup_put, decide_True by done. cbn [point lift fst snd app].
  rewrite bind_out. cbn [fst snd app]. rewrite lookup_put, decide_True by done. cbn [point].
  unfold put. cbn [live next_frame]. by rewrite !insert_insert_eq.
Qed.

(** The last resume, which runs off the end. *)
Lemma resume_end h fs last : live fs !! h = Some (MkFrame last (Suspended (Some (Z.of_nat (length messages))))) →
  Resumable_resume h fs =
    ([ResumeCall last; PrepareResume], if return_void pt then Ret (false, put h (MkFrame last AtFinal) fs) else Ub).
Proof.
  intros Hl. unfold Resumable_resume, get_promise. rewrite Hl. cbn [promise].
  rewrite bind_lift, bind_print. unfold done_. rewrite Hl, bind_lift, bind_print. unfold resume_foo.
  rewrite (resume_suspended _ _ _ _ Hl), bind_lift. cbn [fst snd foo]. rewrite decide_True by done.
  rewrite bind_ret. unfold flow_off. rewrite lookup_put, decide_True by done. rewrite (proj2 suspends).
  destruct (return_void pt); cbn [lift fst snd]; rewrite ?bind_out; [|done].
  cbn [fst snd app]. rewrite lookup_put, decide_True by done. cbn [lift fst snd].
  unfold put. cbn [live next_frame]. by rewrite !insert_insert_eq.
Qed.

Lemma main_loop_prints ms : ∀ fuel i h fs, drop i messages = ms → i <= length messages → length ms < fuel →
  live fs !! h = Some (MkFrame (Z.of_nat (i - 1)) (Suspended (if decide (i = 0) then None else Some (Z.of_nat i)))) →
  main_loop fuel h fs = (printed i ms,
    if return_void pt then Ret (put h (MkFrame (Z.of_nat (length messages - 1)) AtFinal) fs) else Ub).
Proof.
  induction ms as [|m ms IH]; intros [|fuel] i h fs Hd Hi Hf Hl; simpl in Hf; [lia| |lia|]; cbn [main_loop printed].
  - assert (i = length messages) as -> by (apply (f_equal length) in Hd; rewrite length_drop in Hd; simpl in Hd; lia).
    rewrite decide_False in Hl by lia. rewrite (resume_end h fs _ Hl). by destruct (return_void pt).
  - assert (messages !! i = Some m) as Hm by (rewrite <-(Nat.add_0_r i), <-lookup_drop, Hd; done).
    rewrite (resume_message h fs i _ m _ Hl Hm eq_refl), bind_out. cbn [fst snd]. rewrite bind_print.
    unfold GetCurrentMessage, get_promise. rewrite lookup_put, decide_True by done. cbn [mbind res_bind promise].
    rewrite Nat2Z.id, Hm. cbn [checked]. rewrite bind_lift, bind_print.
    rewrite (IH fuel (S i)); [|by apply (drop_S _ m) in Hm; congruence|apply lookup_lt_Some in Hm; lia|lia|].
    + unfold put. cbn [live next_frame fst snd app]. by rewrite insert_insert_eq.
    + rewrite lookup_put, decide_True by done. rewrite decide_False by done. repeat f_equal. lia.
Qed.
End foo.

Lemma resumable_prints {M} (messages : list M) pt fuel :
  initial_suspend pt = suspend_always ∧ final_suspend pt = suspend_always →
  (0 < Z.of_nat (length messages) < size_bound)%Z → length messages < fuel →
  resumable_main messages pt fuel = (CCreated :: printed 0 messages, if return_void pt then Ret (MkFrames ∅ 1) else Ub).
Proof.
  intros Hpt Hn Hf. unfold resumable_main. unfold create. rewrite (proj1 Hpt), bind_print.
  rewrite (main_loop_prints messages pt Hpt Hn messages fuel 0 _ _) by (done || lia).
  destruct (return_void pt); [|done]. rewrite bind_out. unfold destroy. rewrite lookup_put, decide_True by done.
  cbn. rewrite app_nil_r. unfold remove. cbn. by rewrite insert_empty, insert_singleton_eq, delete_singleton_eq.
Qed.

(** ** example_simple_func.cpp *)

Inductive hello_line :=
| TextExample | HelloAwaiterDtor | FinishHello | ReturnVoid | LogDtorCall | PromiseDtor | FinishH | FinishMain
| StartDtor (has_handle done : bool) | DestroyLine | FinishDtor.

Definition resumable_no_wait_promise : promise_type := MkPromise suspend_never suspend_never true.

Abbreviation hellos := (frames unit unit).

(** The body of [hello]: [hello_awaiter] is ready, so that nothing suspends; at the end
    [return_void] comes before the destructor of the local [lg], and the frame goes with
    its promise at the final suspend point. *)
Definition hello (h : handle) (fs : hellos) : out hello_line hellos :=
  _ ← print TextExample; _ ← print HelloAwaiterDtor; _ ← print FinishHello;
  _ ← print ReturnVoid; _ ← print LogDtorCall;
  fs' ← lift (flow_off resumable_no_wait_promise h fs);
  _ ← print PromiseDtor; mret fs'.

(** [~resumable_no_wait] *)
Definition drop_no_wait (handle_ : ptr handle) (fs : hellos) : out hello_line hellos :=
  h ← lift (checked handle_);
  d ← lift (done_ h fs);
  _ ← print (StartDtor true d);
  fs' ← (if d : bool then _ ← print DestroyLine; lift (destroy h fs) else mret fs);
  _ ← print FinishDtor; mret fs'.

(** [main]: the object that [hello] returns is a temporary. *)
Definition hello_main : out hello_line hellos :=
  let '(h, fs) := create resumable_no_wait_promise tt tt no_frames in
  fs1 ← hello h fs;
  fs2 ← drop_no_wait (Some h) fs1;
  _ ← print FinishH; _ ← print FinishMain; mret fs2.

(** The destructor asks a coroutine whose frame is gone whether it is done. *)
Lemma hello_undefined :
  hello_main = ([TextExample; HelloAwaiterDtor; FinishHello; ReturnVoid; LogDtorCall; PromiseDtor], Ub).
Proof. reflexivity. Qed.
