(* ===== verification/Automaton.v ===== *)
(** * example/coro/example_stm.cpp: an automaton of coroutines

    Each state of [StateMachine] is a coroutine; its [co_await] takes the next symbol from
    a generator and transfers control to the coroutine of the next state. *)

From Stdlib Require Import Ascii String.
From stdpp Require Import prelude list gmap.
From S2P Require Import Prelude.
From S2P Require Import Frames.
From S2P Require Import Generators.

Inductive Sym := SymA | SymB | Term.
Inductive State := StA | StB.

#[export] Instance sym_eq : EqDecision Sym.
Proof. solve_decision. Defined.

#[export] Instance state_eq : EqDecision State.
Proof. solve_decision. Defined.

#[export, refine] Instance state_countable : Countable State :=
  inj_countable' (λ q, match q with StA => false | StB => true end) (λ b : bool, if b then StB else StA) _.
Proof. by intros []. Defined.

Definition sym_of (c : ascii) : Sym :=
  if ascii_dec c "a" then SymA else if ascii_dec c "b" then SymB else Term.

(** [input_seq]: the symbols of the characters that are left, then [Term] for ever. *)
Definition input_seq (left : list ascii) : res (option (Sym * list ascii)) :=
  match left with
  | c :: left' => Ret (Some (sym_of c, left'))
  | [] => Ret (Some (Term, []))
  end.

(** [transmission] of [StateA] and [StateB]. *)
Definition transmission (s : State) (sym : Sym) : State :=
  match s with
  | StA => if decide (sym = SymB) then StB else StA
  | StB => if decide (sym = SymA) then StA else StB
  end.

(** The promise type of the states' coroutines. *)
Definition Resumable_promise : promise_type := MkPromise suspend_always suspend_always false.

(** [states] maps to null what it was asked for and did not have. *)
Record StateMachine := MkStm {
  current_state : State;
  states : gmap State (ptr handle);
  gen : ptr handle
}.

(** The frames of generators, and those of the states: [StateA] or [StateB], before its
    loop or in [co_await].  Their promise has a field that nothing uses. *)
Record stm_world := MkWorld {
  stm : StateMachine;
  gens : frames (option Sym) (list ascii);
  coros : frames unit (State * bool)
}.

Definition set_gens (w : stm_world) fs : stm_world := MkWorld (stm w) fs (coros w).
Definition set_coros (w : stm_world) fs : stm_world := MkWorld (stm w) (gens w) fs.

(** [StateMachine::operator[]] *)
Definition index (s : State) (w : stm_world) : ptr handle * stm_world :=
  match states (stm w) !! s with
  | Some h => (h, w)
  | None => (None, MkWorld (MkStm (current_state (stm w)) (<[s := None]> (states (stm w))) (gen (stm w))) (gens w) (coros w))
  end.

(** [StateMachine::genval] and [StateMachine::gennext] *)
Definition genval (w : stm_world) : res Sym := current_value (gen (stm w)) (gens w).

Definition gennext (w : stm_world) : res stm_world :=
  r ← move_next input_seq (gen (stm w)) (gens w); Ret (set_gens w (snd r)).

(** [stm_awaiter::await_suspend], in state [s]: the coroutine to transfer to. *)
Definition await_suspend (s : State) (w : stm_world) : res (ptr handle * stm_world) :=
  w1 ← gennext w;
  sym ← genval w1;
  Ret (index (transmission s sym) w1).

(** [stm_awaiter::await_resume] *)
Definition await_resume (w : stm_world) : res bool :=
  sym ← genval w; Ret (bool_decide (sym = Term)).

Section run.
  (** The promise type of the states, to tell what the missing [return_void] changes. *)
  Context (pt : promise_type).

(** [StateA] and [StateB] from where they are, and the coroutines they transfer to, until
    one reaches its end, which is not to be resumed.  It prints the states it visits. *)
Fixpoint run_coroutine (fuel : nat) (h : handle) (w : stm_world) : out State stm_world :=
  match fuel with
  | 0 => lift NoFuel
  | S fuel' =>
      a ← lift (resume h (coros w));
      let '((s, in_await), fs) := a : State * bool * frames unit (State * bool) in
      finish ← lift (if in_await then await_resume w else Ret false);
      if finish : bool then fs' ← lift (flow_off pt h fs); mret (set_coros w fs')
      else
        _ ← print s;
        fs' ← lift (suspend_at h (s, true) fs);
        b ← lift (await_suspend s (set_coros w fs'));
        h' ← lift (checked (fst b));
        run_coroutine fuel' h' (snd b)
  end.

(** [StateMachine::run] *)
Definition stm_run (fuel : nat) (initial : State) (w : stm_world) : out State stm_world :=
  let w1 := MkWorld (MkStm initial (states (stm w)) (gen (stm w))) (gens w) (coros w) in
  let '(h, w2) := index initial w1 in
  h ← lift (checked h);
  run_coroutine fuel h w2.

(** [StateMachine::add_state] with the coroutine of [s]: the temporary [Resumable] gives
    its handle away. *)
Definition add_state (s : State) (w : stm_world) : stm_world :=
  let '(h, fs) := create pt tt (s, false) (coros w) in
  MkWorld (MkStm (current_state (stm w)) (<[s := Some h]> (states (stm w))) (gen (stm w))) (gens w) fs.

(** [StateMachine(Generator<Sym> gen)]: the argument is copied to the parameter, and this
    to the member [gen], [Generator] having no move constructor; the parameter is
    destroyed when the call is over. *)
Definition make_machine (arg : ptr handle) (fs : frames (option Sym) (list ascii)) : res stm_world :=
  fs' ← drop_generator arg fs; Ret (MkWorld (MkStm StA ∅ arg) fs' no_frames).

(** [main] up to the assertion, on the string [seq]. *)
Definition stm_main (fuel : nat) (seq : list ascii) : out State stm_world :=
  let '(h, fs) := make_generator seq no_frames in
  w ← lift (make_machine (Some h) fs);
  stm_run fuel StA (add_state StB (add_state StA w)).
End run.

(** ** The reference automaton *)

Definition delta (q : State) (c : ascii) : option State :=
  match sym_of c with SymA => Some StA | SymB => Some StB | Term => None end.

(** The states it visits, up to the first character without a transition. *)
Fixpoint visited (q : State) (s : list ascii) : list State :=
  q :: match s with
       | [] => []
       | c :: s' => match delta q c with Some q' => visited q' s' | None => [] end
       end.

(** ** The coroutines follow it *)

(** A machine with the two states, whose generator is alive, with [s] left and the value
    [v]; [started q]: the coroutine of [q] is in its loop. *)
Record machine (w : stm_world) (s : list ascii) (v : option Sym) (started : State → bool) : Prop := Machine {
  mc_gen : ∃ h, gen (stm w) = Some h ∧ live (gens w) !! h = Some (MkFrame v (Suspended s));
  mc_states : ∀ q, ∃ h, states (stm w) !! q = Some (Some h) ∧
    live (coros w) !! h = Some (MkFrame tt (Suspended (q, started q)));
  mc_distinct : states (stm w) !! StA ≠ states (stm w) !! StB
}.

Lemma distinct_states w s v started q q' : machine w s v started →
  q ≠ q' → states (stm w) !! q ≠ states (stm w) !! q'.
Proof. intros [_ _ Hd]. destruct q, q'; done || congruence. Qed.

(** The symbol that [gennext] leaves to be read. *)
Definition next_sym (s : list ascii) : Sym := match s with c :: _ => sym_of c | [] => Term end.

Lemma await_suspend_spec w s v started q : machine w s v started →
  ∃ w', await_suspend q w = Ret (index (transmission q (next_sym s)) w') ∧
    machine w' (tail s) (Some (next_sym s)) started ∧ stm w' = stm w ∧ coros w' = coros w.
Proof.
  intros [(h & Hg & Hl) Hs Hd]. unfold await_suspend, gennext. rewrite Hg. cbn [move_next mbind res_bind].
  rewrite (resume_generator_spec input_seq h (gens w) v s Hl). unfold advance. cbn [fst].
  assert (input_seq s = Ret (Some (next_sym s, tail s))) as -> by (by destruct s).
  cbn [mbind res_bind]. unfold done_. rewrite lookup_put, decide_True by done. cbn [mbind res_bind snd].
  unfold genval. cbn [set_gens stm gens]. rewrite Hg. unfold current_value, get_promise. cbn [checked mbind res_bind].
  rewrite lookup_put, decide_True by done. cbn [mbind res_bind promise checked].
  eexists. split; [done|]. split; [|done]. split; cbn [set_gens stm gens coros]; [|done..].
  exists h. split; [done|]. by rewrite lookup_put, decide_True.
Qed.

(** The coroutine of [q] goes to its [co_await]. *)
Lemma machine_suspends w s v started q h : machine w s v started → states (stm w) !! q = Some (Some h) →
  machine (set_coros w (put h (MkFrame tt (Suspended (q, true))) (coros w))) s v
    (λ q', if decide (q = q') then true else started q').
Proof.
  intros Hm Hq. pose proof (λ q', distinct_states w s v started q q' Hm) as Hne. destruct Hm as [Hg Hs Hd].
  split; cbn [set_coros stm gens coros]; [done| |done]. intros q'. destruct (Hs q') as (h' & Hq' & Hl').
  exists h'. split; [done|]. rewrite lookup_put. destruct (decide (q = q')) as [<-|Hqq].
  - rewrite decide_True by congruence. done.
  - rewrite decide_False; [done|]. intros <-. apply (Hne q' Hqq). congruence.
Qed.

Section follow.
  Context (pt : promise_type).
  Hypothesis suspends : final_suspend pt = suspend_always.

(** How a run ends that has seen everything: the coroutine of the last state is at its
    end, or there was no [return_void] to get there. *)
Definition ends (q0 : State) (seen : list State) (r : res stm_world) : Prop :=
  if return_void pt
  then ∃ w q h, r = Ret w ∧ current_state (stm w) = q0 ∧ last seen = Some q ∧
    states (stm w) !! q = Some (Some h) ∧ done_ h (coros w) = Ret true
  else r = Ub.

(** In [co_await] with [Term] to read: the loop is left. *)
Lemma run_finishes fuel w s started q h : machine w s (Some Term) started → started q = true →
  states (stm w) !! q = Some (Some h) →
  ∃ r, run_coroutine pt (S fuel) h w = ([], r) ∧ ends (current_state (stm w)) [q] r.
Proof.
  intros [(g & Hg & Hgl) Hs _] Hst Hq. destruct (Hs q) as (h' & Hq' & Hl). rewrite Hq in Hq'. simplify_eq.
  rewrite Hst in Hl. cbn [run_coroutine]. rewrite (resume_suspended _ _ _ _ Hl), bind_lift.
  unfold await_resume, genval. rewrite Hg. unfold current_value, get_promise. cbn [checked mbind res_bind].
  rewrite Hgl. cbn [mbind res_bind promise checked]. rewrite bool_decide_true, bind_lift by done.
  unfold flow_off. rewrite lookup_put, decide_True by done. rewrite suspends.
  unfold ends. destruct (return_void pt); [|by exists Ub]. rewrite bind_lift. eexists. split; [done|].
  eexists _, q, h'. do 4 (split; [done|]). unfold done_. cbn [set_coros coros].
  by rewrite lookup_put, decide_True.
Qed.

(** One round of the loop: the state is printed, and control passes to the next. *)
Lemma run_iteration fuel w s v started q h : machine w s v started →
  v ≠ Some Term → (started q = true → v ≠ None) → states (stm w) !! q = Some (Some h) →
  ∃ w' h', states (stm w) !! transmission q (next_sym s) = Some (Some h') ∧
    machine w' (tail s) (Some (next_sym s)) (λ q', if decide (q = q') then true else started q') ∧ stm w' = stm w ∧
    run_coroutine pt (S fuel) h w = (q :: fst (run_coroutine pt fuel h' w'), snd (run_coroutine pt fuel h' w')).
Proof.
  intros Hm Hv Hst Hq. pose proof Hm as [(g & Hg & Hgl) Hs _]. destruct (Hs q) as (h0 & Hq0 & Hl).
  rewrite Hq in Hq0. simplify_eq. cbn [run_coroutine]. rewrite (resume_suspended _ _ _ _ Hl), bind_lift.
  assert ((if started q then await_resume w else Ret false) = Ret false) as ->.
  { destruct (started q); [|done]. unfold await_resume, genval. rewrite Hg. unfold current_value, get_promise.
    cbn [checked mbind res_bind]. rewrite Hgl. cbn [mbind res_bind promise].
    destruct v as [v|]; [|by specialize (Hst eq_refl)]. cbn [checked mbind res_bind].
    by rewrite bool_decide_false by congruence. }
  rewrite bind_lift, bind_print, suspend_running, bind_lift.
  pose proof (machine_suspends _ _ _ _ q _ Hm Hq) as Hm1.
  destruct (await_suspend_spec _ _ _ _ q Hm1) as (w2 & -> & Hm2 & Hstm & Hc). rewrite bind_lift.
  destruct (Hs (transmission q (next_sym s))) as (h' & Hq' & _). exists w2, h'.
  split; [done|]. split; [done|]. split; [done|]. unfold index. rewrite Hstm. cbn [set_coros stm]. rewrite Hq'.
  cbn [fst snd checked]. by rewrite bind_lift.
Qed.

(** From a coroutine that is about to go round its loop. *)
Lemma run_follows s : ∀ fuel w v started q h, length s + 1 < fuel → machine w s v started →
  v ≠ Some Term → (started q = true → v ≠ None) → states (stm w) !! q = Some (Some h) →
  ∃ r, run_coroutine pt fuel h w = (visited q s, r) ∧ ends (current_state (stm w)) (visited q s) r.
Proof.
  induction s as [|c s IH]; intros [|fuel] w v started q h Hf Hm Hv Hst Hq; simpl in Hf; try lia;
    destruct (run_iteration fuel w _ v started q h Hm Hv Hst Hq) as (w' & h' & Hq' & Hm' & Hstm & ->).
  - destruct fuel as [|fuel]; [lia|]. assert (transmission q Term = q) as Ht by (by destruct q).
    cbn [next_sym] in Hq', Hm'. rewrite Ht in Hq'.
    destruct (run_finishes fuel w' _ _ q h' Hm') as (r & -> & He); [by rewrite decide_True|by rewrite Hstm|].
    exists r. by rewrite Hstm in He.
  - cbn [next_sym tail] in Hq', Hm'. cbn [visited]. unfold delta. destruct (decide (sym_of c = Term)) as [Ec|Ec].
    + rewrite Ec in *. destruct fuel as [|fuel]; [lia|]. assert (transmission q Term = q) as Ht by (by destruct q).
      rewrite Ht in Hq'. destruct (run_finishes fuel w' _ _ q h' Hm') as (r & -> & He); [by rewrite decide_True|by rewrite Hstm|].
      exists r. by rewrite Hstm in He.
    + destruct (IH fuel w' (Some (sym_of c)) _ (transmission q (sym_of c)) h' ltac:(lia) Hm') as (r & -> & He);
        [congruence|done|by rewrite Hstm|]. exists r. rewrite Hstm in He.
      assert (match sym_of c with SymA => Some StA | SymB => Some StB | Term => None end =
        Some (transmission q (sym_of c))) as -> by (by destruct (sym_of c), q).
      split; [done|]. unfold ends in *. destruct (return_void pt); [|done].
      destruct He as (w2 & q2 & h2 & Hr & Hc & Hl & He). exists w2, q2, h2. do 2 (split; [done|]).
      split; [|done]. by rewrite last_cons, Hl.
Qed.
End follow.

(** C34: while its generator lives, [StateMachine::run] visits the states of the
    automaton: it prints the initial state and then, for each character up to the first
    one without a transition, the state this character leads to.  There the coroutine of
    the last state runs off its end, which is undefined as its promise type has no
    [return_void]; with one, [run] would return, that coroutine being done and [current]
    still the initial state.  [main], however, makes a machine whose generator is
    destroyed with the constructor's parameter, and has undefined behaviour at the first
    symbol, whatever the string. *)
Theorem stm_follows_automaton pt fuel w s q0 :
  initial_suspend pt = suspend_always → final_suspend pt = suspend_always → length s + 1 < fuel →
  machine w s None (λ _, false) →
  (∃ r, stm_run pt fuel q0 w = (visited q0 s, r) ∧
    if return_void pt
    then ∃ w' q h, r = Ret w' ∧ current_state (stm w') = q0 ∧ last (visited q0 s) = Some q ∧
      states (stm w') !! q = Some (Some h) ∧ done_ h (coros w') = Ret true
    else r = Ub) ∧
  stm_main pt fuel s = ([StA], Ub).
Proof.
  intros Hpt1 Hpt Hf Hm. split.
  - unfold stm_run, index. cbn [stm states]. destruct (mc_states _ _ _ _ Hm q0) as (h & Hq & _). rewrite Hq.
    cbn [checked]. rewrite bind_lift. set (w1 := MkWorld _ _ _).
    apply (run_follows pt Hpt s fuel w1 None (λ _, false) q0 h Hf); try done. by destruct Hm.
  - destruct fuel as [|fuel]; [lia|]. unfold stm_main, add_state, create. by rewrite Hpt1.
Qed.

(** The string of [main], for a machine made without the parameter. *)
Definition main_string : list ascii := list_ascii_of_string "aaabbaba".

Definition live_machine : stm_world :=
  add_state Resumable_promise StB (add_state Resumable_promise StA
    (MkWorld (MkStm StA ∅ (Some 0)) (snd (make_generator main_string no_frames)) no_frames)).

Lemma live_machine_ok : machine live_machine main_string None (λ _, false).
Proof.
  split; [by exists 0| |done]. intros []; [by exists 0|by exists 1].
Qed.

Lemma stm_follows_automaton_witness :
  (∃ r, stm_run Resumable_promise 10 StA live_machine = ([StA; StA; StA; StA; StB; StB; StA; StB; StA], r) ∧ r = Ub) ∧
  stm_main Resumable_promise 10 main_string = ([StA], Ub).
Proof.
  apply (stm_follows_automaton Resumable_promise 10 live_machine main_string StA).
  - reflexivity.
  - reflexivity.
  - vm_compute. lia.
  - apply live_machine_ok.
Defined.
