(* ===== verification/Subscription.v ===== *)
(** * example/coro: an event that coroutines wait for

    [evt_awaiter_t] and its [Awaiter], and the consumers and the producer of
    example_subscription.cpp, whose coroutine type [resumable_no_own] is that of
    components/async_mutex/resumable_no_own.h. *)

From stdpp Require Import prelude gmap list.
From S2P Require Import Prelude.
From S2P Require Import Frames.

(** Nothing suspends at either end, and there is no [return_void]. *)
Definition ResumableNoOwn_promise : promise_type := MkPromise suspend_never suspend_never false.

(** The promise type of the example says the same. *)
Definition resumable_no_own_promise : promise_type := MkPromise suspend_never suspend_never false.

(** What is printed. *)
Inductive evt_line :=
| Step (consumer step : nat)
| ResetEvent
| SetUse (waiters : nat)
| BeforeSet (is_set : bool)
| AfterSet (is_set : bool).

(** A consumer prints its steps, with a [co_await g_evt] between any two.  Its frame
    holds its name and the steps after the [co_await] it is in. *)
Abbreviation consumer := (nat * list nat)%type.

Definition consumer1 : consumer := (1, [1; 2]).
Definition consumer2 : consumer := (2, [1; 2; 3]).

(** [evt_awaiter_t]: of a copied [Awaiter], [coro_] is what is used. *)
Record evt_awaiter_t := MkEvt { awaiters : list handle; is_set_ : bool }.

Record evt_world := MkWorld { g_evt : evt_awaiter_t; consumers : frames unit consumer }.

Definition set_evt (w : evt_world) (e : evt_awaiter_t) : evt_world := MkWorld e (consumers w).
Definition set_consumers (w : evt_world) fs : evt_world := MkWorld (g_evt w) fs.

(** [evt_awaiter_t::reset], [is_set] and [push_awaiter] *)
Definition reset (e : evt_awaiter_t) : evt_awaiter_t := MkEvt (awaiters e) false.
Definition is_set (e : evt_awaiter_t) : bool := is_set_ e.
Definition push_awaiter (waiter : handle) (e : evt_awaiter_t) : evt_awaiter_t := MkEvt (awaiters e ++ [waiter]) (is_set_ e).

(** [Awaiter::await_ready], [await_suspend] and [await_resume] *)
Definition await_ready (w : evt_world) : bool := is_set (g_evt w).

Definition await_suspend (coro : handle) (w : evt_world) : evt_world := set_evt w (push_awaiter coro (g_evt w)).

Definition await_resume (w : evt_world) : out evt_line evt_world :=
  _ ← print ResetEvent; mret (set_evt w (reset (g_evt w))).

Section evt.
  Context (pt : promise_type).

(** The body of the consumer with frame [h], up to where it is suspended or ends. *)
Fixpoint run_consumer (h : handle) (name : nat) (steps : list nat) (w : evt_world) : out evt_line evt_world :=
  match steps with
  | [] => fs ← lift (flow_off pt h (consumers w)); mret (set_consumers w fs)
  | n :: rest =>
      _ ← print (Step name n);
      match rest with
      | [] => fs ← lift (flow_off pt h (consumers w)); mret (set_consumers w fs)
      | _ :: _ =>
          if await_ready w then w1 ← await_resume w; run_consumer h name rest w1
          else
            fs ← lift (suspend_at h (name, rest) (consumers w));
            mret (await_suspend h (set_consumers w fs))
      end
  end.

(** The call of a consumer. *)
Definition call_consumer (c : consumer) (w : evt_world) : out evt_line evt_world :=
  let '(h, fs) := create pt tt c (consumers w) in run_consumer h (fst c) (snd c) (set_consumers w fs).

(** [w.coro_.resume()] *)
Definition resume_consumer (h : handle) (w : evt_world) : out evt_line evt_world :=
  a ← lift (resume h (consumers w));
  w1 ← await_resume (set_consumers w (snd a));
  run_consumer h (fst (fst a)) (snd (fst a)) w1.

(** [evt_awaiter_t::set] *)
Fixpoint resume_all (temp : list handle) (w : evt_world) : out evt_line evt_world :=
  match temp with [] => mret w | h :: temp' => w1 ← resume_consumer h w; resume_all temp' w1 end.

Definition set (w : evt_world) : out evt_line evt_world :=
  let temp := awaiters (g_evt w) in
  _ ← print (SetUse (length temp));
  resume_all temp (set_evt w (MkEvt [] true)).

Definition producer (w : evt_world) : out evt_line evt_world :=
  _ ← print (BeforeSet (is_set (g_evt w)));
  w1 ← set w;
  _ ← print (AfterSet (is_set (g_evt w1)));
  mret w1.

(** Programs of the calls that [main] makes. *)
Inductive evt_call := Consume (c : consumer) | Produce.

Definition evt_step (op : evt_call) (w : evt_world) : out evt_line evt_world :=
  match op with Consume c => call_consumer c w | Produce => producer w end.

Fixpoint evt_exec (ops : list evt_call) (w : evt_world) : out evt_line evt_world :=
  match ops with [] => mret w | op :: ops' => w1 ← evt_step op w; evt_exec ops' w1 end.
End evt.

Definition subscription_main : list evt_call := [Consume consumer1; Consume consumer2; Produce; Consume consumer1; Produce].

Definition new_world : evt_world := MkWorld (MkEvt [] false) no_frames.

(** ** An event that resets itself *)

(** The consumers that wait, in order, with the steps left to them; whether the event is
    set; and whether some consumer has reached its end. *)
Record event := MkEvent { waiting : list consumer; flag : bool; ended : bool }.

(** A consumer after a step: it waits if it has more to do. *)
Definition waits (c : consumer) : option consumer :=
  match snd c with _ :: (_ :: _) as r => Some (fst c, r) | _ => None end.

Definition ends (c : consumer) : bool := match waits c with Some _ => false | None => true end.

(** What a consumer prints as it goes on by one step. *)
Definition says (c : consumer) : list evt_line := take 1 (Step (fst c) <$> snd c).

(** A new consumer: when the event is set, it passes its first [co_await] and resets the
    event; the next one, or else the first, it waits in. *)
Definition consume (c : consumer) (e : event) : list evt_line * event :=
  match (if flag e then waits c else None) with
  | Some c' => (says c ++ [ResetEvent] ++ says c',
      MkEvent (waiting e ++ option_list (waits c')) false (ended e || ends c'))
  | None => (says c, MkEvent (waiting e ++ option_list (waits c)) (flag e) (ended e || ends c))
  end.

(** [set] lets each of those waiting go on by one step, in order; the event stays set
    if there was none. *)
Definition produce (e : event) : list evt_line * event :=
  let flag' := bool_decide (waiting e = []) in
  ([BeforeSet (flag e); SetUse (length (waiting e))] ++ (waiting e ≫= λ c, ResetEvent :: says c) ++ [AfterSet flag'],
   MkEvent (omap waits (waiting e)) flag' (ended e || existsb ends (waiting e))).

Fixpoint evt_spec (ops : list evt_call) (e : event) : list evt_line * event :=
  match ops with
  | [] => ([], e)
  | op :: ops' =>
      let '(o1, e1) := match op with Consume c => consume c e | Produce => produce e end in
      let '(o2, e2) := evt_spec ops' e1 in (o1 ++ o2, e2)
  end.

Example subscription_spec :
  evt_spec subscription_main (MkEvent [] false false) =
  ([Step 1 1; Step 2 1; BeforeSet false; SetUse 2; ResetEvent; Step 1 2; ResetEvent; Step 2 2; AfterSet false;
    Step 1 1; BeforeSet false; SetUse 2; ResetEvent; Step 2 3; ResetEvent; Step 1 2; AfterSet false],
   MkEvent [] false true).
Proof. reflexivity. Qed.

Example subscription_run pt : return_void pt = true → initial_suspend pt = suspend_never → final_suspend pt = suspend_never →
  fst (evt_exec pt subscription_main new_world) = fst (evt_spec subscription_main (MkEvent [] false false)).
Proof. destruct pt. simpl. intros -> -> ->. reflexivity. Qed.

(** ** The coroutines are such an event *)

Section simulation.
  Context (pt : promise_type).
  Hypothesis never : initial_suspend pt = suspend_never ∧ final_suspend pt = suspend_never.

(** The frame of the consumer that runs, if one does. *)
Definition on_stack (running : option handle) : list handle := match running with Some h => [h] | None => [] end.

(** The frames are those of the consumers that wait, of those that [set] has still to
    resume, [todo] with what is left to them, and of the one that runs. *)
Record frames_ok (running : option handle) (todo : list handle) (cs : list consumer) (w : evt_world)
    (q : list consumer) : Prop := FramesOk {
  fo_waiting : Forall2 (λ h c, live (consumers w) !! h = Some (MkFrame tt (Suspended c)))
    (todo ++ awaiters (g_evt w)) (cs ++ q);
  fo_running : ∀ h, running = Some h → live (consumers w) !! h = Some (MkFrame tt Running);
  fo_nodup : NoDup (on_stack running ++ todo ++ awaiters (g_evt w));
  fo_all : ∀ h, is_Some (live (consumers w) !! h) ↔ h ∈ on_stack running ++ todo ++ awaiters (g_evt w);
  fo_fresh : fresh_above (consumers w)
}.

(** What the running consumer does to the frames when it stops. *)
Lemma frames_suspend h todo cs w q c : frames_ok (Some h) todo cs w q →
  suspend_at h c (consumers w) = Ret (put h (MkFrame tt (Suspended c)) (consumers w)) ∧
  frames_ok None todo cs (await_suspend h (set_consumers w (put h (MkFrame tt (Suspended c)) (consumers w)))) (q ++ [c]).
Proof.
  intros [Hw Hr Hn Ha Hf]. specialize (Hr h eq_refl). split; [unfold suspend_at; by rewrite Hr|].
  cbn [on_stack app] in Hn. apply NoDup_cons in Hn as [Hh Hn].
  split; cbn [await_suspend set_evt set_consumers g_evt consumers push_awaiter awaiters on_stack app]; [|done|..].
  - rewrite !(assoc (++)). apply Forall2_app.
    + eapply forall2_impl_in; [exact Hw|]. intros x y Hx Hl. rewrite lookup_put, decide_False; [done|]. intros <-. by apply Hh.
    + constructor; [by rewrite lookup_put, decide_True|constructor].
  - rewrite (assoc (++)). apply NoDup_app. split; [done|]. split; [|apply NoDup_singleton].
    intros x Hx ->%list_elem_of_singleton. done.
  - intros x. rewrite lookup_put, (assoc (++)), elem_of_app, list_elem_of_singleton.
    case_decide as Hx; [subst; split; [by right|by eexists]|].
    rewrite Ha. cbn [on_stack app]. rewrite elem_of_cons. naive_solver.
  - intros x Hx. simpl in Hx. rewrite lookup_put, decide_False; [by apply Hf|]. intros <-. by rewrite Hf in Hr.
Qed.

Lemma frames_end h todo cs w q : frames_ok (Some h) todo cs w q →
  if return_void pt
  then flow_off pt h (consumers w) = Ret (remove h (consumers w)) ∧
    frames_ok None todo cs (set_consumers w (remove h (consumers w))) q
  else flow_off pt h (consumers w) = Ub.
Proof.
  intros [Hw Hr Hn Ha Hf]. specialize (Hr h eq_refl). unfold flow_off. rewrite Hr, (proj2 never).
  destruct (return_void pt); [|done]. split; [done|].
  cbn [on_stack app] in Hn. apply NoDup_cons in Hn as [Hh Hn]. split; cbn [set_consumers g_evt consumers]; [|done|done|..].
  - eapply forall2_impl_in; [exact Hw|]. intros x y Hx Hl. simpl. rewrite lookup_delete_ne; [done|]. intros <-. by apply Hh.
  - intros x. simpl. destruct (decide (h = x)) as [<-|Hne].
    + rewrite lookup_delete_eq. split; [by intros []|done].
    + rewrite lookup_delete_ne, Ha by done. cbn [on_stack app]. rewrite elem_of_cons. naive_solver.
  - intros x Hx. simpl in *. apply lookup_delete_None. right. by apply Hf.
Qed.

(** A consumer without the event set: one step, and it waits or ends. *)
Definition goes_on (todo : list handle) (cs q : list consumer) (b : bool) (ls : list evt_line)
    (next : option consumer) (r : out evt_line evt_world) : Prop :=
  match next with
  | Some c => ∃ w, r = (ls, Ret w) ∧ is_set (g_evt w) = b ∧ frames_ok None todo cs w (q ++ [c])
  | None =>
      if return_void pt
      then ∃ w, r = (ls, Ret w) ∧ is_set (g_evt w) = b ∧ frames_ok None todo cs w q
      else r = (ls, Ub)
  end.

Lemma run_unset h todo cs w q c : frames_ok (Some h) todo cs w q → is_set (g_evt w) = false →
  goes_on todo cs q false (says c) (waits c) (run_consumer pt h (fst c) (snd c) w).
Proof.
  intros Hok Hs. destruct c as [name [|n [|n' rest]]]; unfold says, waits; cbn -[flow_off].
  1, 2: pose proof (frames_end h todo cs w q Hok) as He; destruct (return_void pt); [|by rewrite He];
    destruct He as [-> He]; eexists; split; [done|]; by split.
  unfold await_ready. rewrite Hs. destruct (frames_suspend h todo cs w q (name, n' :: rest) Hok) as [-> Hok'].
  cbn. eexists. split; [done|]. by split.
Qed.

Lemma goes_on_after ls0 w0 todo cs q b ls next (f : evt_world → out evt_line evt_world) :
  goes_on todo cs q b ls next (f w0) → goes_on todo cs q b (ls0 ++ ls) next ((ls0, Ret w0) ≫= f).
Proof.
  rewrite bind_out. unfold goes_on. destruct next as [c|].
  - intros (w & -> & ?). by exists w.
  - destruct (return_void pt); [|by intros ->]. intros (w & -> & ?). by exists w.
Qed.

(** The state of the program between the calls of [main]. *)
Definition is_event (w : evt_world) (e : event) : Prop :=
  is_set (g_evt w) = flag e ∧ frames_ok None [] [] w (waiting e).

(** Unless a consumer has reached its end without a [return_void], the output and the
    state are those of the event. *)
Definition outcome (r : out evt_line evt_world) (ls : list evt_line) (e : event) : Prop :=
  if negb (ended e) || return_void pt then ∃ w, r = (ls, Ret w) ∧ is_event w e else snd r = Ub.

Lemma goes_on_outcome q b ls next r en : goes_on [] [] q b ls next r → (en = false ∨ return_void pt = true) →
  outcome r ls (MkEvent (q ++ option_list next) b (en || match next with Some _ => false | None => true end)).
Proof.
  unfold goes_on, outcome. intros Hg Hen. destruct next as [c|]; cbn [ended].
  - destruct Hg as (w & -> & Hs & Hok). assert (negb (en || false) || return_void pt = true) as ->.
    { destruct Hen as [->| ->]; [done|by rewrite orb_true_r]. }
    exists w. split; [done|]. by split.
  - rewrite orb_true_r. cbn [negb orb]. destruct (return_void pt); [|by rewrite Hg].
    destruct Hg as (w & -> & Hs & Hok). exists w. split; [done|]. split; [done|]. cbn. by rewrite app_nil_r.
Qed.

(** The call of a consumer. *)
Lemma frames_called w q : frames_ok None [] [] w q → ∀ c,
  frames_ok (Some (next_frame (consumers w))) [] [] (set_consumers w (snd (create pt tt c (consumers w)))) q.
Proof.
  intros [Hw _ Hn Ha Hf] c. set (h := next_frame (consumers w)).
  assert (live (consumers w) !! h = None) as Hh by by apply Hf.
  assert (h ∉ awaiters (g_evt w)) as Hnin by (intros Hin; apply (Ha h) in Hin as []; congruence).
  split; cbn [set_consumers g_evt consumers on_stack app create snd fst live next_frame].
  - eapply forall2_impl_in; [exact Hw|]. intros x y Hx Hl. rewrite lookup_insert_ne; [done|]. intros <-. by apply Hnin.
  - intros ? [= <-]. by rewrite lookup_insert_eq, (proj1 never).
  - by constructor.
  - intros x. rewrite lookup_insert, elem_of_cons. case_decide; [subst; split; [by left|by eexists]|].
    rewrite (Ha x). cbn [on_stack app]. naive_solver.
  - intros x Hx. simpl in *. rewrite lookup_insert_ne by lia. apply Hf. lia.
Qed.

(** With the event set, the first [co_await] is passed and the event reset. *)
Lemma run_set h c c' w : is_set (g_evt w) = true → waits c = Some c' →
  run_consumer pt h (fst c) (snd c) w =
    ((says c ++ [ResetEvent], Ret (set_evt w (reset (g_evt w)))) ≫= run_consumer pt h (fst c') (snd c')).
Proof.
  intros Hs Hc. destruct c as [name [|n [|n' rest]]]; try done. injection Hc as <-.
  cbn [fst snd]. set (steps := n' :: rest). cbn [run_consumer]. unfold await_ready. rewrite Hs, bind_print.
  change (await_resume w) with ([ResetEvent], Ret (set_evt w (reset (g_evt w))) : res evt_world).
  by rewrite !bind_out.
Qed.

(** An event that is set and a consumer with a single step. *)
Lemma run_single h q c w : frames_ok (Some h) [] [] w q → waits c = None →
  goes_on [] [] q (is_set (g_evt w)) (says c) None (run_consumer pt h (fst c) (snd c) w).
Proof.
  intros Hok Hc. destruct c as [name [|n [|n' rest]]]; [..|done]; unfold says; cbn -[flow_off];
    pose proof (frames_end h [] [] w q Hok) as He; destruct (return_void pt); (rewrite He || destruct He as [-> He]);
    try done; eexists; split; try done; by split.
Qed.

Lemma consume_outcome c w e : is_event w e → (ended e = false ∨ return_void pt = true) →
  outcome (call_consumer pt c w) (fst (consume c e)) (snd (consume c e)).
Proof.
  intros [Hs Hok] Hen. unfold call_consumer. pose proof (frames_called w (waiting e) Hok c) as Hr.
  unfold create in *. cbn [snd] in Hr. set (w1 := set_consumers w _) in *.
  set (h := next_frame (consumers w)) in *. assert (is_set (g_evt w1) = flag e) as Hs1 by done.
  unfold consume, ends. destruct (flag e) eqn:Ef; [destruct (waits c) as [c'|] eqn:Ew|]; cbn [fst snd].
  - apply goes_on_outcome; [|done]. rewrite (run_set h c c' w1 Hs1 Ew), (assoc (++)). apply goes_on_after.
    apply run_unset; [by destruct Hr|done].
  - apply (goes_on_outcome _ _ _ None); [|done]. rewrite <-Hs1. by apply run_single.
  - apply goes_on_outcome; [|done]. by apply run_unset.
Qed.

(** [set] resumes the next consumer. *)
Lemma resume_outcome h c todo cs w q : frames_ok None (h :: todo) (c :: cs) w q →
  goes_on todo cs q false (ResetEvent :: says c) (waits c) (resume_consumer pt h w).
Proof.
  intros [Hw _ Hn Ha Hf]. apply Forall2_cons in Hw as [Hl Hw]. unfold resume_consumer.
  rewrite (resume_suspended _ _ _ _ Hl), bind_lift. cbn [fst snd]. unfold await_resume.
  apply (goes_on_after [ResetEvent]). apply run_unset; [|done].
  cbn [on_stack app] in Hn, Ha. apply NoDup_cons in Hn as [Hh Hn].
  split; cbn [set_evt set_consumers g_evt consumers reset awaiters on_stack app].
  - eapply forall2_impl_in; [exact Hw|]. intros x y Hx Hl'. rewrite lookup_put, decide_False; [done|]. intros <-. by apply Hh.
  - intros ? [= <-]. by rewrite lookup_put, decide_True.
  - by constructor.
  - intros x. rewrite lookup_put. case_decide; [subst; split; [by left|by eexists]|apply Ha].
  - intros x Hx. simpl in Hx. rewrite lookup_put, decide_False; [by apply Hf|]. intros <-. by rewrite Hf in Hl.
Qed.

Lemma resume_all_outcome todo : ∀ cs w q, length todo = length cs → frames_ok None todo cs w q →
  let ls := cs ≫= (λ c, ResetEvent :: says c) in
  if negb (existsb ends cs) || return_void pt
  then ∃ w', resume_all pt todo w = (ls, Ret w') ∧
    is_set (g_evt w') = (if decide (todo = []) then is_set (g_evt w) else false) ∧
    frames_ok None [] [] w' (q ++ omap waits cs)
  else snd (resume_all pt todo w) = Ub.
Proof.
  induction todo as [|h todo IH]; intros [|c cs] w q Hlen Hok; simplify_eq/=.
  - exists w. split; [done|]. split; [done|]. by rewrite app_nil_r.
  - pose proof (resume_outcome h c todo cs w q Hok) as Hg. unfold goes_on in Hg. unfold ends at 1.
    destruct (waits c) as [c'|] eqn:Ew; simpl; [|destruct (return_void pt) eqn:Erv; [|by rewrite Hg]].
    + destruct Hg as (w1 & -> & Hs & Hok1). specialize (IH cs w1 (q ++ [c']) Hlen Hok1). cbn zeta in IH.
      rewrite bind_out. destruct (negb (existsb ends cs) || return_void pt); [|done].
      destruct IH as (w' & -> & Hs' & Hok'). exists w'. split; [done|]. split; [by rewrite Hs', Hs; case_decide|].
      by rewrite <-(assoc (++)) in Hok'.
    + destruct Hg as (w1 & -> & Hs & Hok1). specialize (IH cs w1 q Hlen Hok1). cbn zeta in IH.
      rewrite orb_true_r in IH. rewrite bind_out.
      destruct IH as (w' & -> & Hs' & Hok'). exists w'. split; [done|]. split; [by rewrite Hs', Hs; case_decide|done].
Qed.

Lemma produce_outcome w e : is_event w e → (ended e = false ∨ return_void pt = true) →
  outcome (producer pt w) (fst (produce e)) (snd (produce e)).
Proof.
  intros [Hs Hok] Hen. unfold producer, set. rewrite bind_print, Hs, bind_print.
  set (temp := awaiters (g_evt w)). assert (length temp = length (waiting e)) as Hlen.
  { destruct Hok as [Hw _ _ _ _]. by apply Forall2_length in Hw. }
  destruct Hok as [Hw Hr Hn Ha Hf].
  assert (frames_ok None temp (waiting e) (set_evt w (MkEvt [] true)) []) as Hok.
  { split; cbn [set_evt g_evt consumers awaiters]; rewrite ?app_nil_r; done. }
  pose proof (resume_all_outcome temp (waiting e) _ [] Hlen Hok) as Hra. cbn zeta in Hra.
  unfold outcome, produce. cbn [fst snd ended].
  assert (negb (ended e || existsb ends (waiting e)) || return_void pt = negb (existsb ends (waiting e)) || return_void pt) as ->.
  { destruct Hen as [->| ->]; [done|by rewrite !orb_true_r]. }
  destruct (negb (existsb ends (waiting e)) || return_void pt).
  - destruct Hra as (w' & -> & Hs' & Hok'). cbn [fst snd]. rewrite bind_out. cbn [fst snd]. rewrite bind_print. cbn [fst snd mret out_ret].
    assert (bool_decide (waiting e = []) = is_set (g_evt w')) as Hb.
    { rewrite Hs'. destruct temp, (waiting e); done. }
    exists w'. split; [by rewrite Hb, Hlen|]. by split.
  - by destruct (resume_all pt temp (set_evt w (MkEvt [] true))) as [o r]; simpl in Hra; subst r.
Qed.

Lemma ended_mono ops e : ended e = true → ended (snd (evt_spec ops e)) = true.
Proof.
  revert e. induction ops as [|op ops IH]; intros e He; [done|]. cbn [evt_spec].
  destruct (match op with Consume c => consume c e | Produce => produce e end) as [o1 e1] eqn:E1.
  assert (ended e1 = true) as He1.
  { destruct op; unfold consume, produce in E1; repeat case_match; simplify_eq/=; by rewrite He. }
  specialize (IH e1 He1). by destruct (evt_spec ops e1).
Qed.

Lemma evt_outcome ops : ∀ w e, is_event w e → (ended e = false ∨ return_void pt = true) →
  outcome (evt_exec pt ops w) (fst (evt_spec ops e)) (snd (evt_spec ops e)).
Proof.
  induction ops as [|op ops IH]; intros w e He Hen.
  - unfold outcome. cbn [evt_spec fst snd]. assert (negb (ended e) || return_void pt = true) as ->.
    { destruct Hen as [->| ->]; [done|by rewrite orb_true_r]. }
    by exists w.
  - cbn [evt_exec evt_spec]. set (r := match op with Consume c => consume c e | Produce => produce e end).
    assert (outcome (evt_step pt op w) (fst r) (snd r)) as Ho.
    { destruct op; [by apply consume_outcome|by apply produce_outcome]. }
    destruct r as [o1 e1]. cbn [fst snd] in Ho. unfold outcome in Ho.
    destruct (negb (ended e1) || return_void pt) eqn:E1.
    + destruct Ho as (w1 & -> & He1). rewrite bind_out.
      assert (ended e1 = false ∨ return_void pt = true) as Hen1.
      { apply orb_true_iff in E1 as [?%negb_true_iff|]; auto. }
      specialize (IH w1 e1 He1 Hen1). unfold outcome in *. destruct (evt_spec ops e1) as [o2 e2]. cbn [fst snd] in *.
      destruct (negb (ended e2) || return_void pt); [|done]. destruct IH as (w2 & -> & He2). by exists w2.
    + apply orb_false_iff in E1 as [E1%negb_false_iff Erv]. pose proof (ended_mono ops e1 E1) as Hm.
      unfold outcome. destruct (evt_spec ops e1) as [o2 e2]. cbn [fst snd] in *. rewrite Hm, Erv. simpl.
      destruct (evt_step pt op w) as [o r]. simpl in Ho. by subst r.
Qed.
End simulation.

(** C35: consumers that wait for the event and producers that set it, in any order, are an
    event that resets itself: [set] lets exactly those waiting go on, each by one
    [co_await] and in the order in which they came, and leaves the event set only if
    there was none; those that wait again wait for the next [set]; the frames that exist
    are those of the waiting consumers, so that none is lost and none is destroyed
    twice.  This holds until a consumer reaches its end: [resumable_no_own] has no
    [return_void], and reaching the end is undefined; with one it would hold for ever. *)
Theorem subscription_is_event pt ops :
  initial_suspend pt = suspend_never ∧ final_suspend pt = suspend_never →
  let '(ls, e) := evt_spec ops (MkEvent [] false false) in
  if negb (ended e) || return_void pt
  then ∃ w, evt_exec pt ops new_world = (ls, Ret w) ∧ is_set (g_evt w) = flag e ∧
    Forall2 (λ h c, live (consumers w) !! h = Some (MkFrame tt (Suspended c))) (awaiters (g_evt w)) (waiting e) ∧
    NoDup (awaiters (g_evt w)) ∧ ∀ h, is_Some (live (consumers w) !! h) ↔ h ∈ awaiters (g_evt w)
  else snd (evt_exec pt ops new_world) = Ub.
Proof.
  intros Hpt. assert (is_event new_world (MkEvent [] false false)) as He.
  { split; [done|]. split; try done; try by constructor. intros h. cbn. rewrite lookup_empty, elem_of_nil.
    split; [by intros []|done]. }
  pose proof (evt_outcome pt Hpt ops new_world _ He (or_introl eq_refl)) as Ho. unfold outcome in Ho.
  destruct (evt_spec ops (MkEvent [] false false)) as [ls e]. cbn [fst snd] in Ho.
  destruct (negb (ended e) || return_void pt); [|done]. destruct Ho as (w & -> & Hs & [Hw _ Hn Ha _]).
  exists w. by split_and!.
Qed.

(** A consumer that waits twice, with one [set]; and [main], where consumer 1 gets to its
    end in the first [set]. *)
Lemma subscription_is_event_witness :
  (∃ w, evt_exec resumable_no_own_promise [Consume consumer2; Produce] new_world =
      ([Step 2 1; BeforeSet false; SetUse 1; ResetEvent; Step 2 2; AfterSet false], Ret w) ∧ is_set (g_evt w) = false ∧
    Forall2 (λ h c, live (consumers w) !! h = Some (MkFrame tt (Suspended c))) (awaiters (g_evt w)) [(2, [3])] ∧
    NoDup (awaiters (g_evt w)) ∧ ∀ h, is_Some (live (consumers w) !! h) ↔ h ∈ awaiters (g_evt w)) ∧
  snd (evt_exec resumable_no_own_promise subscription_main new_world) = Ub.
Proof.
  split.
  - apply (subscription_is_event resumable_no_own_promise [Consume consumer2; Produce]). by split.
  - apply (subscription_is_event resumable_no_own_promise subscription_main). by split.
Defined.
