(* ===== verification/CoroBench.v ===== *)
(** * The benchmark over its two mutexes

    components/async_mutex and [std::mutex] as instances of the interface of
    MutexBench.v, and what the benchmark does over the first.  Its routines are coroutines
    of components/async_mutex/resumable_no_own.h: what the promise type has decides whether
    their end is defined. *)

From stdpp Require Import prelude list.
From S2P Require Import Prelude.
From S2P Require Import Lock.
From S2P Require Import MutexBench.
From S2P Require Import CoroMutex.
From S2P Require Import Frames.
From S2P Require Import Subscription.

(** ** components/async_mutex *)

Definition status_of (p : coro_pc) : mutex_status :=
  match p with
  | Out false => Outside
  | Out true => Inside
  | LAcquire | LReady | LRelease | LSuspend | LPark | LSuspended => Locking
  | UAcquire | UBody | UUnlock _ | UResume _ | UResumed _ | UReturn | URelease | Broken => Unlocking
  | Ended => Gone
  end.

Section coro.
  Context (pt : promise_type).

#[local] Instance coro_impl : Mutex AsyncMutexCoroImpl := {
  mx_new := new_mutex;
  mx_status m t := status_of (coros m t);
  mx_lock t := coro_mutex_step (CallLock t);
  mx_unlock t := coro_mutex_step (CallUnlock t);
  mx_step t := coro_mutex_step (CoroStep t);
  mx_returns := return_void pt;
  mx_end t := coro_mutex_step (CoroEnd t);
  mx_resumed m t := ∃ c, coros m c = UResumed t
}.

Lemma out_of m t q : mx_status m t = q → (q = Outside → coros m t = Out false) ∧ (q = Inside → coros m t = Out true) ∧
  (q = Gone → coros m t = Ended).
Proof. intros <-. cbn. destruct (coros m t) as [[]| | | | | | | | | | | | | | |]; by split_and!. Qed.

(** Whoever goes on after a suspension is still in its [unlock]. *)
Lemma hand_back_status c (cs : cid → coro_pc) u : status_of (hand_back c cs u) = status_of (cs u).
Proof. unfold hand_back. case_decide as E; [by rewrite E|done]. Qed.

Lemma hand_back_resumed c (cs : cid → coro_pc) d u : hand_back c cs d = UResumed u → cs d = UResumed u ∧ u ≠ c.
Proof. unfold hand_back. case_decide as E; [done|]. intros E'. split; [done|]. intros ->. done. Qed.

(** A coroutine moves, and nobody else does. *)
Lemma at_coro_moves (s s' : AsyncMutexCoroImpl) c p : coros s' = (coros s)⟦c ↦ p⟧ → (∀ w, p ≠ UResumed w) →
  returns (status_of (coros s c)) (status_of p) →
  ∀ u, returns (status_of (coros s u)) (status_of (coros s' u)) ∧
    (mx_resumed s' u → mx_resumed s u ∨ status_of (coros s' u) = Inside).
Proof.
  intros Es Hp Hr u. cbn. rewrite Es. split; [unfold upd; case_decide as E; [by subst|by left]|].
  intros [d Hd]. left. exists d. unfold upd in Hd. case_decide; [by apply Hp in Hd|done].
Qed.

Lemma coro_step_returns s c s' : coro_mutex_inv s → coro_mutex_inv s' → coro_mutex_step (CoroStep c) s = Some s' →
  ∀ u, returns (status_of (coros s u)) (status_of (coros s' u)) ∧
    (mx_resumed s' u → mx_resumed s u ∨ status_of (coros s' u) = Inside).
Proof.
  intros [_ Hq] [_ Hq'] Hs. pose proof (cm_broken _ _ Hq' c) as Hb.
  cbn in Hs. unfold lock_step, unlock_step, ReleaseLock, TryLock in Hs.
  destruct (coros s c) as [b| | | | | | | | |w|w|w| | | |] eqn:E; try done;
    try (repeat case_match; simplify_eq; cbn in Hb; rewrite ?upd_eq in Hb; try done;
      eapply at_coro_moves; [done|done|rewrite E; unfold returns; simpl; auto]; fail).
  - destruct (lock_flag s); simplify_eq; (eapply at_coro_moves; [done|done|rewrite E; by left]).
  - destruct (last (waiters s)) as [w|]; [|simplify_eq; cbn in Hb; by rewrite upd_eq in Hb].
    assert (∀ s1, coros s1 = coros s → s' = leave_stack (at_coro s1 c LSuspended) c →
      ∀ u, returns (status_of (coros s u)) (status_of (coros s' u)) ∧
      (mx_resumed s' u → mx_resumed s u ∨ status_of (coros s' u) = Inside)) as Hsusp.
    { intros s1 E1 -> u. cbn. rewrite hand_back_status, E1.
      destruct (at_coro_moves s (at_coro s c LSuspended) c LSuspended eq_refl) with (u := u) as [H1 H2];
        [done|rewrite E; by left|]. split; [done|].
      intros [d [Hd _]%hand_back_resumed]. apply H2. by exists d. }
    destruct (guard w); [destruct (release c (spinlock s)); simplify_eq; [|cbn in Hb; by rewrite upd_eq in Hb]|];
      simplify_eq; (eapply Hsusp; [|reflexivity]; done).
  - destruct (waiters s) as [|w ws]; simplify_eq; [eapply at_coro_moves; [done|done|rewrite E; by left]|].
    destruct (guard w); [cbn in Hb; by rewrite upd_eq in Hb|]. eapply at_coro_moves; [done|done|rewrite E; by left].
  - destruct (cm_handing _ _ Hq c w) as [Hw _]; [by rewrite E|]. rewrite Hw in Hs. simplify_eq. cbn.
    intros u. split.
    + unfold upd. case_decide as Hu; [subst; rewrite Hw; right; by left|].
      case_decide as Hc; [subst; rewrite E; by left|by left].
    + intros [d Hd]. unfold upd in Hd. case_decide; [done|]. case_decide; [simplify_eq; right; by rewrite upd_eq|].
      left. by exists d.
Qed.

#[local, refine] Instance coro_laws : MutexLaws AsyncMutexCoroImpl := { mx_inv := coro_inv }.
Proof.
  - split; [apply coro_mutex_invariant; by exists new_mutex, []|]. intros t. split; [done|]. by intros [c Hc].
  - intros m t Hi Hs. pose proof (proj1 (out_of m t _ Hs) eq_refl) as E. cbn [mx_lock coro_impl].
    destruct (coro_mutex_step (CallLock t) m) as [m'|] eqn:Em; [|by cbn in Em; rewrite E in Em].
    exists m'. split; [done|]. split; [by eapply coro_inv_step|]. cbn in Em. rewrite E in Em. simplify_eq.
    intros u. cbn. split; [unfold upd; by case_decide|]. intros [c Hc]. exists c. unfold upd in Hc. by case_decide.
  - intros m t Hi Hs. pose proof (proj1 (proj2 (out_of m t _ Hs)) eq_refl) as E. cbn [mx_unlock coro_impl].
    destruct (coro_mutex_step (CallUnlock t) m) as [m'|] eqn:Em; [|by cbn in Em; rewrite E in Em].
    exists m'. split; [done|]. split; [by eapply coro_inv_step|]. cbn in Em. rewrite E in Em. simplify_eq.
    intros u. cbn. split; [unfold upd; by case_decide|]. intros [c Hc]. exists c. unfold upd in Hc. by case_decide.
  - intros m t Hi Hs. pose proof (proj1 (out_of m t _ Hs) eq_refl) as E. cbn [mx_end coro_impl].
    destruct (coro_mutex_step (CoroEnd t) m) as [m'|] eqn:Em; [|by cbn in Em; rewrite E in Em].
    exists m'. split; [done|]. split; [by eapply coro_inv_step|]. cbn in Em. rewrite E in Em. simplify_eq.
    intros u. cbn. rewrite hand_back_status. split; [unfold upd; by case_decide|]. intros [c [Hc Hu]%hand_back_resumed].
    split; [|done]. exists c. unfold upd in Hc. by case_decide.
  - intros m t m' Hi Hs. assert (coro_inv m') as Hi' by (by apply (coro_inv_step (CoroStep t) m)).
    split; [done|]. apply (coro_step_returns m t m'); [apply Hi|apply Hi'|done].
  - intros m t u [[Ho _] _] Ht Hu. apply (cm_token _ Ho).
    + by rewrite (proj1 (proj2 (out_of m t _ Ht)) eq_refl).
    + by rewrite (proj1 (proj2 (out_of m u _ Hu)) eq_refl).
  - intros m t Hi Hid. cbn in *. destruct (idle_coro m t (proj1 Hi) Hid) as [[b E]|[E|[[w E]|E]]]; rewrite E.
    + by destruct b.
    + split; [|done]. intros _. destruct (suspended_waits m t (proj1 Hi) Hid E) as [_ [d Hd]]. exists d. by rewrite Hd.
    + split; [done|]. intros _. destruct (last_resumed m t w Hi Hid E) as (c & d & b & Hc & Hd).
      exists d. split; [by exists c|]. rewrite Hd. destruct b; auto.
    + done.
Defined.

(** ** The benchmark *)

Definition async_bench (n k : nat) : lts (test_mutex AsyncMutexCoroImpl) bench_label := bench_mutex n k.


End coro.

(** ** [std::mutex] *)

(** The owner, and where each thread is. *)
Record StdMutex := MkStd { owner : option tid; users : tid → mutex_status }.

Definition std_at (m : StdMutex) (t : tid) (q : mutex_status) : StdMutex := MkStd (owner m) (users m)⟦t ↦ q⟧.

#[export] Instance std_impl : Mutex StdMutex := {
  mx_new := MkStd None (λ _, Outside);
  mx_status := users;
  mx_returns := true;
  mx_end t m := match users m t with Outside => Some (std_at m t Gone) | _ => None end;
  mx_resumed _ _ := False;
  mx_lock t m := match users m t with Outside => Some (std_at m t Locking) | _ => None end;
  mx_unlock t m := match users m t with Inside => Some (std_at m t Unlocking) | _ => None end;
  mx_step t m :=
    match users m t with
    | Locking => o ← acquire t (owner m); Some (MkStd o (users m)⟦t ↦ Inside⟧)
    | Unlocking => o ← release t (owner m); Some (MkStd o (users m)⟦t ↦ Outside⟧)
    | _ => None
    end
}.

Definition std_holds (q : mutex_status) : bool := match q with Inside | Unlocking => true | _ => false end.

#[export, refine] Instance std_laws : MutexLaws StdMutex := { mx_inv m := held std_holds (owner m) (users m) }.
Proof.
  - split; [by intros t|]. intros t. split; [done|]. by intros [].
  - intros m t Hi Hs. cbn in *. rewrite Hs. eexists. split; [done|]. split; [apply held_kept; [done|by rewrite Hs]|]. intros u. by split.
  - intros m t Hi Hs. cbn in *. rewrite Hs. eexists. split; [done|]. split; [apply held_kept; [done|by rewrite Hs]|]. intros u. by split.
  - intros m t Hi Hs. cbn in *. rewrite Hs. eexists. split; [done|]. split; [apply held_kept; [done|by rewrite Hs]|]. intros u. by split.
  - intros m t m' Hi Hs. cbn in *. destruct (users m t) eqn:E; try done.
    + destruct (acquire t (owner m)) eqn:Ea; simplify_eq/=. split; [by eapply held_acquired|].
      intros u. split; [|done]. unfold upd. case_decide as Hu; [subst; rewrite E; right; by left|by left].
    + rewrite (held_release std_holds _ (users m) t Hi) in Hs by (by rewrite E). simplify_eq/=.
      split; [by eapply held_released; [done|rewrite E|]|]. intros u. split; [|done].
      unfold upd. case_decide as Hu; [subst; rewrite E; right; by right|by left].
  - intros m t u Hi Ht Hu. cbn in *. apply (held_alone std_holds (owner m) (users m)); [done|by rewrite Ht|by rewrite Hu].
  - intros m t Hi Hid. cbn in *. split.
    + intros E. specialize (Hid t) as Hidt. rewrite E in Hidt. destruct (owner m) as [u|] eqn:Eo; [|done].
      exists u. assert (std_holds (users m u) = true) as Hu by (by apply Hi). destruct (users m u) eqn:Eu; try done.
      specialize (Hid u). rewrite Eu in Hid. cbn in Hid. by rewrite decide_True in Hid.
    + intros E. specialize (Hid t). rewrite E in Hid. by rewrite (held_release std_holds _ (users m) t Hi) in Hid by (by rewrite E).
Defined.

Definition std_bench (n k : nat) : lts (test_mutex StdMutex) bench_label := bench_mutex n k.

(** The same program over [std::mutex], where the routines are functions. *)
Lemma std_bench_correct n k s : reachable (std_bench n k) s →
  (bpcs s n = SDone → number s = wrap64 (Z.of_nat (n * (2 * k))) ∧
    ∀ t, users (bmutex s) t = Outside ∨ users (bmutex s) t = Gone) ∧
  (∀ t, undefined (bpcs s t) = false) ∧
  (bpcs s n ≠ SDone → ¬ ∀ t, bench_step k (BStep t) s = None ∧ bench_step k (BMutex t) s = None).
Proof.
  intros Hr.
  assert (∀ t, undefined (bpcs s t) = false) as Hdef.
  { intros t. destruct (undefined (bpcs s t)) eqn:E; [|done]. by apply (bench_ends n k s t Hr) in E. }
  split_and!; [|done|].
  - intros Hd. by destruct (bench_counts n k s Hr Hd) as (_ & Hnum & Ho).
  - intros Hd Hn. apply Hd. apply (bench_no_deadlock n k s Hr Hdef); apply Hn.
Qed.

(** ** Runs *)

Section schedules.
  Context (pt : promise_type).
  #[local] Existing Instance coro_impl.

(** A schedule: the first of [ls] that can move, [fuel] times. *)
Fixpoint first_enabled (k : nat) (ls : list bench_label) (s : test_mutex AsyncMutexCoroImpl) :
    option (bench_label * test_mutex AsyncMutexCoroImpl) :=
  match ls with
  | [] => None
  | l :: ls' => match bench_step (H := coro_impl pt) k l s with Some s' => Some (l, s') | None => first_enabled k ls' s end
  end.

Fixpoint schedule (fuel k : nat) (ls : list bench_label) (s : test_mutex AsyncMutexCoroImpl) : list bench_label :=
  match fuel with
  | 0 => []
  | S fuel' =>
      match first_enabled k ls s with
      | Some (l, s') => l :: schedule fuel' k (tail ls ++ option_list (head ls)) s'
      | None => []
      end
  end.

(** Two threads with one iteration each, in turns with the main thread, to the end. *)
Definition bench_labels : list bench_label := [BStep 0; BMutex 0; BStep 1; BMutex 1; BStep 2; BMutex 2].
Definition bench_start : test_mutex AsyncMutexCoroImpl := new_test (H := coro_impl pt) 2.
Definition bench_schedule : list bench_label := schedule 130 1 bench_labels bench_start.
Definition bench_end : test_mutex AsyncMutexCoroImpl := default bench_start (run (async_bench pt 2 1) bench_schedule bench_start).
End schedules.



(** The benchmark as it is: it is never through, and its behaviour becomes undefined. *)
Lemma async_bench_undefined :
  (∀ n k s, reachable (async_bench ResumableNoOwn_promise n k) s → bpcs s n ≠ SDone) ∧
  ∃ s, reachable (async_bench ResumableNoOwn_promise 2 1) s ∧ bpcs s 2 = SUndefined.
Proof.
  split.
  - intros n k s Hr E. pose proof (bench_stays (H0 := coro_laws ResumableNoOwn_promise) n k s Hr eq_refl) as (Hs & _).
    by rewrite E in Hs.
  - exists (bench_end ResumableNoOwn_promise). split; [|vm_compute; reflexivity].
    apply (run_reachable (async_bench ResumableNoOwn_promise 2 1)); [done|]. vm_compute. eauto.
Qed.
